(* ===== verification/_CoqProject ===== *)
-Q . S2P
Prelude.v
Fixed.v
Reserve.v
Position.v
Auction.v
Encode.v
Liquidation.v
Setoff.v
FillDelay.v
Fill.v
Unwind.v
Inventory.v
Io.v
Chain.v
Operations.v
Decode.v
Events.v
Rpc.v
Snapshot.v
Store.v
Rows.v
Submit.v
Protocol.v
Poller.v
PollerContract.v
Heartbeat.v
Tracker.v
TrackerContract.v
TrackerLoop.v
SeedContract.v
TrackerLoopContract.v
Pipeline.v
Auctioneer.v
AuctioneerContract.v
AuctioneerTask.v
AuctioneerTaskContract.v
Config.v
Metrics.v
Notifier.v
NotifierContract.v
Executor.v
ExecutorContract.v
Handoff.v
Filler.v
FillerTask.v
FillerContract.v
FillerWallet.v
FillWalk.v
UnwindPass.v
FillerTick.v
Settings.v
SettingsContract.v
Signing.v
Telegram.v
Startup.v
StartupContract.v
Health.v
HealthContract.v
Client.v
ClientContract.v
