(* ===== verification/Prelude.v ===== *)
(** * blend-liquidator: a verification library

    blend-liquidator is a bot for Blend lending pools on Stellar. It follows
    pool events, keeps its borrowers' health in a database, opens liquidation
    auctions on the unhealthy ones, fills auctions for its own account and
    unwinds what the fills leave it holding. This library models, from the
    bottom up: the arithmetic and the planners of [src/math/]; the chain layer
    of [src/chain/], its decoding, its reads and its writes; the database of
    [src/store.rs]; the ledger poller, the event tracker, the auctioneer, the
    executor and the filler, with the tasks of [src/service.rs] that drive them;
    the notifier, the metrics, the probes and the watchdog; and the path from the
    configuration's text to the running tasks; and proves what makes each
    correct. The names are the program's, with a prefix where two modules share
    one.

    ** The parts and how they meet

    Foundations:
    - [Prelude] (this file): Rust's [Result] and [?], loops that may stop early,
      machine integers as [Z] with checked and saturating operations, a small
      state monad, [BTreeMap] iteration as the sorted list of a [gmap], and the
      automation ([rust_inv], [widths]) the other files use.
    - [Io]: interaction trees over calls, the set of their traces, and the ways
      to prove a program right: [always] and [emits] (of every run), [returns]
      (of the runs that end), [follows] (every run is one of a state machine's),
      [under] (in a world that the calls and other tasks change), [ends] and
      [halts] (against an environment, the program ends).

    The planners ([src/math/], [src/inventory.rs]):
    - [Fixed] ([math/fixed.rs]): [mul_div] on 128 bits with its 256-bit path,
      floor and ceiling; [mul_div_ref] is the reference.
    - [Reserve] ([math/reserve.rs]): a reserve's records, the token conversions
      with the contract's rounding, utilisation and interest accrual.
    - [Position] ([math/position.rs]): positions, oracle prices, the health
      factor and the health floors; the reference is four sums over the entries.
    - [Auction] ([math/auction.rs]): the two modifiers of a Dutch auction and
      the scaling of a fill; [scaled_ref] is the per-asset reference.
    - [Liquidation] ([math/liquidation.rs]): which positions an auction names and
      what percentage it takes.
    - [Setoff] ([math/setoff.rs]): what the contract's default path does to the
      reserves when a full fill takes a borrower's last collateral.
    - [FillDelay], [Fill] ([math/fill.rs]): when an auction pays, and the plan
      that fills it — projection, percent search, ledger search, cap search,
      the planner's rounds.
    - [Unwind] ([math/unwind.rs]): repays, withdrawals and the back-off search
      for the largest withdrawal that keeps the floor.
    - [Inventory] ([inventory.rs]): the wallet ledger and the reservation tokens
      plans hold, with the step relation of their executions.

    The chain layer ([src/chain/]):
    - [Encode] ([chain/xdr/encode.rs], [chain/xdr/mod.rs]): the requests and
      discriminants the planners' actions become; [Operations]
      ([chain/xdr/encode.rs]): [ScVal]s and the host-function operations.
    - [Signing] ([chain/signer.rs]): networks, the native asset's contract, and
      the envelope a key signs, over class [Crypto] (SHA-256, Ed25519, the XDR
      writers, the key codec).
    - [Decode] ([chain/xdr/decode.rs]): pool, reserve, position and auction
      entries out of [ScVal]s, and the simulation envelope; [Events] ([chain/xdr/events.rs]): the pool's events.
    - [Chain], [Rpc] ([chain/mod.rs], [chain/rpc.rs], [chain/xdr/keys.rs]):
      transaction hashes, the errors, what the RPC answers and how its answers
      are read; classes [Xdr], [ScValues] and [ScDecode] gather the types and
      functions of other crates.
    - [Client], [ClientContract] ([chain/rpc.rs]): the JSON-RPC call and the
      methods made of it, over class [Wire] (HTTP, JSON, the codecs): what each
      reads out of an answer.
    - [Snapshot] ([chain/pool.rs]): a pool read at one ledger, and its values at
      one instant.
    - [Submit] ([chain/tx.rs], [queue.rs]): every method of [Submitter] and
      every function of the queue, as interaction trees over [NetE]: the RPC
      calls, the signing key, the clocks, the shutdown flag and the two channels.
    - [Protocol] ([queue.rs]): the queue's contract as a state machine, and the
      proof that the queue refines it.

    The store ([src/store.rs], [migrations/]):
    - [Store]: the tables, each query as the state change and the answer it is,
      and [run_store], which serves the calls ([StoreE]) the tasks make.
    - [Rows]: what the bounded, ordered selections take, shared by the tasks.

    The tasks, each a program and, beside it, what it promises:
    - [Poller], [PollerContract] ([ledger.rs]): a pool's ledger poller;
      [Heartbeat] ([ledger.rs]): the same poller with its waits raced against a
      ticker, which erases to it.
    - [Tracker], [TrackerContract] ([tracker.rs]): applying events, re-reading
      accounts, seeding; [TrackerLoop], [TrackerLoopContract] ([service.rs]): the
      task's messages, [tracker_loop]; [SeedContract]: what a seed reaches, and
      when a reseed is no longer owed. [Pipeline]: the pollers and the tracker
      together, at every interleaving, over the channel and the acknowledgements.
    - [Auctioneer], [AuctioneerContract] ([auctioneer.rs]): deciding, acting and
      the oracle scan; [AuctioneerTask], [AuctioneerTaskContract] ([service.rs]):
      the startup gate, the scans and the recheck queue, [auctioneer_loop].
    - [Executor], [ExecutorContract] ([executor.rs]): a planned fill, or an
      unwind, carried out through the queue and settled in the inventory.
      [Handoff] ([queue.rs]): [SubmissionQueue::enqueue], and any number of the
      executor's calls together with the queue's worker, at every interleaving.
    - [Config] ([config.rs]): what the operator sets per pool.
    - [Metrics] ([metrics.rs]): the counters and gauges, and their text;
      [Notifier], [NotifierContract] ([notifier.rs]): calls, delivery tasks and
      drains over one shared state, at every interleaving; [Telegram]
      ([notifier/telegram.rs], [service.rs]): the channel, and the notifier a run
      is given.
    - [Filler] ([filler.rs]): the tick, from the open auctions to the unwind
      passes; [FillerTask] ([service.rs]): [filler_loop]. [FillerContract]: what
      the task spends and when; [FillerWallet]: the task over the wallet ledger;
      [FillWalk]: a pool's auctions; [UnwindPass]: the unwind passes;
      [FillerTick]: a tick ends, and the back-off.

    The process around the tasks:
    - [Settings], [SettingsContract] ([config.rs], [chain/signer.rs]): each knob
      and the pools file from their text, the validated configuration, the keys
      and the roles they are for; class [Outside] gathers what clap, toml, the
      file system and the key codec answer.
    - [Startup], [StartupContract] ([service.rs]): the checks against the chain,
      the seed sources, what each task is given, the queue workers, the listener
      for signals, [run] and [check_config]; [main] ([main.rs]).
    - [Health], [HealthContract] ([http.rs], [service.rs]): the probes, over the
      recorder's history, and the watchdog.

    The poller sends each pool's events and ticks to the tracker's task, which
    books them in the store and acknowledges the ticks. The auctioneer's task
    takes the flagged borrowers from the store, decides each from one
    [Snapshot] by [Liquidation], and sends through the queue. [Fill] and
    [Unwind] — which call [Position], [Reserve], [Auction] and [Setoff] — plan
    for the filler's task, which reserves what a plan spends from [Inventory] and
    hands it to the executor, which hands the request to the queue, whose worker
    runs [Submit].

    ** State and operations

    The planners are pure functions of their inputs in the code, and here too:
    a [&mut] argument is a value passed in and returned, in a record named for
    the loop that threads it ([Repaying], [Sizing], [Order], [Work]). A fallible
    function returns a [result] with the code's error type. A [BTreeMap] is a
    [gmap] visited in key order. An [i128] is a [Z] with every operation the code
    checks, saturates or panics on written out; a record's well-formedness
    predicate states the widths of its fields. The inventory's mutex covers each
    method's whole body, so its executions are the sequences of whole operations
    of [inventory_step].

    Async functions are interaction trees over the calls they make. They are not
    deterministic: an environment answers each call, anything its type allows,
    and a theorem holds of every answer unless it says which environments it is
    about. Where a theorem is about the tables, the environment is a world in
    which the store's calls do what [run_store] says and other tasks change what
    is theirs in between ([TrackerContract.world_step],
    [AuctioneerTaskContract.queue_step]). Where what is shared is memory — the
    notifier's map and its permits — the step relation interleaves the calls and
    the tasks at every access ([notifier_step]). Where two components meet over a
    channel, their traces are put together: a history interleaves what each task
    of its own records, constrained by what the channel delivers
    ([Pipeline.wire], [Handoff.desk_step]), and the theorem is about the history.

    ** What the theorems show

    - Arithmetic and valuation: [mul_div_is_reference] (each path is the
      mathematical floor or ceiling, or [Overflow] exactly when the result does
      not fit), [accrue_sound], [position_data_is_reference].
    - Auctions: [scale_auction_is_reference], [scale_auction_favours_the_pool],
      [project_default_spec], [fill_delay_is_least].
    - Plans: [plan_liquidation_valid], [selection_percent_closes],
      [planned_fill_is_safe], [skipped_fill_was_searched],
      [searches_are_exhaustive], [unwind_keeps_the_floor],
      [unwind_rests_on_the_margin], [cleared_debts_carry_the_allowance].
    - The wallet: [inventory_accounts_exactly].
    - Reading: [decoded_is_typed], [decode_pool_event_exact],
      [snapshot_is_one_ledger], [valuation_is_at_one_instant],
      [client_answers_what_it_was_told].
    - Writing: [queue_refines_contract], [chain_errors_spend_nothing],
      [wait_for_proves_its_answer], [sign_is_valid], [polled_hash_is_signed].
    - The store: [rows_round_trip], [store_is_type_sound].
    - Following a pool: [poller_refines_contract],
      [cursor_commits_what_was_applied], [beating_run_erases],
      [tracker_loop_refines] (a tick is acknowledged exactly when its effect is in
      the store, a reseed owed until a seed reaches every source), [cursor_never_outruns_the_store] (the two together: a cursor
      has gone past nothing that is not applied and settled),
      [event_books_its_auction], [refresh_recomputes], [stale_rows_drain].
    - Opening auctions: [decide_follows_policy], [act_judges_records_sends],
      [price_moves_are_reported_once], [full_scan_flags_everyone],
      [recheck_serves_the_queue], [auctioneer_waits_to_submit].
    - Carrying out plans: [execute_settles_by_the_chain],
      [unwind_settles_by_the_chain], [reservations_follow_the_chain] (the executor
      and the queue together), [filler_settles_before_moving_on],
      [filler_plans_on_the_whole_wallet] (the inventory's contract, composed with
      the task), [walk_fills_as_planned], [passes_follow_their_duty],
      [unwinds_resume].
    - The process: [pools_file_is_read_exactly], [decimal_knobs_are_exact],
      [run_checks_spawns_and_joins], [tasks_start_on_sound_terms] (from accepted
      arguments to what each task runs on), [listener_waits_twice].
    - What the operator is told: [notifier_keeps_its_word], [send_is_one_call],
      [notifier_is_configured], [probes_tell_the_run].
    - What the code does against its own comments:
      [restore_in_flight_frees_the_key], and, in [probes_tell_the_run], a
      watchdog that never reports a pool with no heartbeat.

    ** Bounds and fuel

    Loops over collections are folds. The other loops of the planners carry
    the code's own bound ([plan_iterations], [BACKOFF_ROUNDS]) or a
    fuel that is proved enough: the cap search halves an interval of less than
    2^128, so 128 steps reach it ([supply_headroom_is_largest]); the trim loop of
    [Liquidation] has a step per counted asset and its selection loop a step per
    position, and each takes one off at every turn ([plan_liquidation_valid]
    includes that they finish). [chunks] cuts a list with its length as fuel.
    The other loops are [ITree.iter]: no fuel. They end by the code's own
    bounds ([SNAPSHOT_ATTEMPTS], [MAX_PAGES], [SEED_PAGE_CAP], the window a
    transaction is polled in: [wait_for_ends]), each shown where the loop is, or
    run until they are told to stop.

    ** What is not modelled

    Argument parsing itself, the HTTP server, opening and migrating the database;
    hashing and signing, [stellar_xdr]'s own codecs, the key codec, HTTP, JSON,
    TOML and SQL, which are other crates' (a class or a call of the environment
    stands for each: in the write path a signature is such a call, and [Signing]
    says what it is); the channels' capacities, which only delay a sender;
    constructors that only store their arguments; tests and examples. Log lines
    have no effect here. The text an error carries is modelled where it is built
    from modelled data; a [{:?}] of another crate's value is a parameter. *)

From stdpp Require Export prelude gmap strings sorting.
From Stdlib Require Export ZArith Lia ZifyBool.

Open Scope Z_scope.

(** ** Results

    Rust's [Result<A, E>]; the [?] operator is the bind. *)

Inductive result (E A : Type) : Type :=
| Ok (a : A)
| Err (e : E).
Arguments Ok {E A} a.
Arguments Err {E A} e.

Definition rbind {E A B : Type} (m : result E A) (f : A → result E B) : result E B :=
  match m with
  | Ok a => f a
  | Err e => Err e
  end.

(** [Option::ok_or]. *)
Definition ok_or {E A : Type} (o : option A) (e : E) : result E A :=
  match o with
  | Some a => Ok a
  | None => Err e
  end.

(** [Result::map_err]. *)
Definition map_err {E F A : Type} (f : E → F) (m : result E A) : result F A :=
  match m with
  | Ok a => Ok a
  | Err e => Err (f e)
  end.

Declare Scope rust_scope.
Delimit Scope rust_scope with rust.
Notation "'let?' x := m 'in' k" := (rbind m (fun x => k))
  (at level 10, x pattern, m at level 200, k at level 200,
   format "'[v' 'let?'  x  :=  m  'in' '/' k ']'") : rust_scope.
Notation "'guard' b 'else' e ; k" := (if b then k else Err e)
  (at level 10, b at level 200, e at level 200, k at level 200,
   format "'[v' 'guard'  b  'else'  e ; '/' k ']'") : rust_scope.
Open Scope rust_scope.

(** A [for] loop whose body may return early with [?]: a left fold in the
    result monad. *)
Fixpoint try_fold {E A B : Type} (f : B → A → result E B) (b : B) (l : list A)
  : result E B :=
  match l with
  | [] => Ok b
  | a :: l' => let? b' := f b a in try_fold f b' l'
  end.

(** ** State and errors

    A method on [&mut self] that answers a [Result]: the state it leaves is
    returned on every path, the failing ones included. *)

Definition stres (S E A : Type) : Type := S → S * result E A.

Definition st_ret {S E A : Type} (a : A) : stres S E A := λ s, (s, Ok a).
Definition st_bind {S E A B : Type} (m : stres S E A) (f : A → stres S E B)
  : stres S E B :=
  λ s, match m s with
       | (s', Ok a) => f a s'
       | (s', Err e) => (s', Err e)
       end.
(** Reads the state through a fallible function. *)
Definition st_gets {S E A : Type} (f : S → result E A) : stres S E A :=
  λ s, (s, f s).
(** An assignment to the state. *)
Definition st_modify {S E : Type} (f : S → S) : stres S E () := λ s, (f s, Ok ()).

Notation "'do!' x := m 'in' k" := (st_bind m (fun x => k))
  (at level 10, x pattern, m at level 200, k at level 200,
   format "'[v' 'do!'  x  :=  m  'in' '/' k ']'") : rust_scope.

Definition is_ok {E A : Type} (m : result E A) : bool :=
  match m with Ok _ => true | Err _ => false end.

(** ** Machine integers

    Every Rust integer is a [Z]; the range predicates say which values its
    type holds. *)

Definition i128_min : Z := - 170141183460469231731687303715884105728.
Definition i128_max : Z := 170141183460469231731687303715884105727.
Definition u32_max : Z := 4294967295.
Definition u64_max : Z := 18446744073709551615.

Definition in_i128 (z : Z) : bool := (i128_min <=? z) && (z <=? i128_max).
Definition in_u32 (z : Z) : bool := (0 <=? z) && (z <=? u32_max).
Definition in_u64 (z : Z) : bool := (0 <=? z) && (z <=? u64_max).

Definition is_i128 (z : Z) : Prop := i128_min ≤ z ≤ i128_max.
Definition is_u32 (z : Z) : Prop := 0 ≤ z ≤ u32_max.
Definition is_u64 (z : Z) : Prop := 0 ≤ z ≤ u64_max.

(** A value of the mathematical integers, when an [i128] holds it. *)
Definition to_i128 (z : Z) : option Z := if in_i128 z then Some z else None.
Definition to_u32 (z : Z) : option Z := if in_u32 z then Some z else None.

(** [i128::checked_add], [checked_sub], [checked_mul], [checked_neg]. *)
Definition checked_add (a b : Z) : option Z := to_i128 (a + b).
Definition checked_sub (a b : Z) : option Z := to_i128 (a - b).
Definition checked_mul (a b : Z) : option Z := to_i128 (a * b).
Definition checked_neg (a : Z) : option Z := to_i128 (- a).

(** [u32::checked_add] and [u32::checked_sub]. *)
Definition u32_checked_add (a b : Z) : option Z := to_u32 (a + b).
Definition u32_checked_sub (a b : Z) : option Z := to_u32 (a - b).

(** [i128::saturating_add] and [saturating_sub]. *)
Definition saturate_i128 (z : Z) : Z := Z.max i128_min (Z.min i128_max z).
Definition saturating_add (a b : Z) : Z := saturate_i128 (a + b).
Definition saturating_sub (a b : Z) : Z := saturate_i128 (a - b).
(** [u32::saturating_add] and [saturating_sub]. *)
Definition u32_saturating_add (a b : Z) : Z := Z.min (a + b) u32_max.
Definition u32_saturating_sub (a b : Z) : Z := Z.max (a - b) 0.

(** ** Ordered maps

    A Rust [BTreeMap] is a [gmap] whose iteration is by ascending key. *)

Class KeyOrder (K : Type) : Type := {
  key_le : relation K;
  #[global] key_le_dec :: RelDecision key_le;
  #[global] key_le_trans :: Transitive key_le;
  #[global] key_le_total :: Total key_le;
  #[global] key_le_antisymm :: AntiSymm (=) key_le;
}.

Definition entry_le {K A : Type} `{KeyOrder K} (p q : K * A) : Prop :=
  key_le p.1 q.1.

#[global] Instance entry_le_dec {K A} `{KeyOrder K} : RelDecision (@entry_le K A _).
Proof. intros p q. unfold entry_le. apply _. Defined.
#[global] Instance entry_le_trans {K A} `{KeyOrder K} : Transitive (@entry_le K A _).
Proof. intros p q r. unfold entry_le. intros. by etrans. Qed.
#[global] Instance entry_le_total {K A} `{KeyOrder K} : Total (@entry_le K A _).
Proof. intros p q. unfold entry_le. apply key_le_total. Qed.

(** [BTreeMap::iter] and [BTreeMap::keys]. *)
Definition bt_iter {K A : Type} `{Countable K, KeyOrder K} (m : gmap K A)
  : list (K * A) := merge_sort entry_le (map_to_list m).
Definition bt_keys {K A : Type} `{Countable K, KeyOrder K} (m : gmap K A)
  : list K := (bt_iter m).*1.

(** [map.get(k).copied().unwrap_or(0)]. *)
Definition get_or_zero {K : Type} `{Countable K} (m : gmap K Z) (k : K) : Z :=
  default 0 (m !! k).

#[global] Instance Z_key_order : KeyOrder Z.
Proof. refine (Build_KeyOrder Z Z.le _ _ _ _). Defined.

Definition string_le (a b : string) : Prop := String.leb a b = true.

#[global] Instance string_le_dec : RelDecision string_le.
Proof. intros a b. unfold string_le. apply _. Defined.

(** [slice::chunks]: consecutive parts of [n] elements, the last one shorter;
    [fuel] parts are enough when there are as many as elements. *)
Fixpoint chunks_of {A : Type} (fuel n : nat) (l : list A) : list (list A) :=
  match fuel, l with
  | S fuel, _ :: _ => take n l :: chunks_of fuel n (drop n l)
  | _, _ => []
  end.

Definition chunks {A : Type} (n : nat) (l : list A) : list (list A) := chunks_of (length l) n l.

(** ** Lemmas: results and folds *)

Lemma bind_ok {E A B} (m : result E A) (f : A → result E B) b :
  rbind m f = Ok b ↔ ∃ a, m = Ok a ∧ f a = Ok b.
Proof. destruct m; simpl; naive_solver. Qed.

Lemma ok_or_ok {E A} (o : option A) (e : E) a : ok_or o e = Ok a ↔ o = Some a.
Proof. destruct o; simpl; naive_solver. Qed.

Lemma map_err_ok {E F A} (f : E → F) (m : result E A) a :
  map_err f m = Ok a ↔ m = Ok a.
Proof. destruct m; simpl; naive_solver. Qed.

Lemma st_bind_ok {S E A B} (m : stres S E A) (f : A → stres S E B) s s' b :
  st_bind m f s = (s', Ok b) ↔ ∃ s1 a, m s = (s1, Ok a) ∧ f a s1 = (s', Ok b).
Proof. unfold st_bind. destruct (m s) as [s1 [a|e]]; naive_solver. Qed.

Section try_fold_lemmas.
Context {E A B : Type} (f : B → A → result E B).
Implicit Types (b : B) (l : list A).

Lemma try_fold_app b l1 l2 :
  try_fold f b (l1 ++ l2) = let? b' := try_fold f b l1 in try_fold f b' l2.
Proof.
  revert b. induction l1 as [|a l1 IH]; intros b; simpl; [done|].
  destruct (f b a); simpl; [apply IH|done].
Qed.

(** What every iteration preserves holds at the end; the iteration may use
    that its element comes from the list. *)
Lemma try_fold_inv (P : B → Prop) b b' l :
  P b →
  (∀ x y a, a ∈ l → P x → f x a = Ok y → P y) →
  try_fold f b l = Ok b' → P b'.
Proof.
  revert b. induction l as [|a l IH]; intros b Hb Hstep; simpl; [by intros [= <-]|].
  rewrite bind_ok. intros (y & Hy & Hrest). apply (IH y); [|set_solver|done].
  apply (Hstep b y a); [set_solver|done|done].
Qed.

(** The same with the elements already consumed at hand. *)
Lemma try_fold_prefix (P : list A → B → Prop) b b' l :
  P [] b →
  (∀ l1 a l2 x y, l = l1 ++ a :: l2 → P l1 x → f x a = Ok y → P (l1 ++ [a]) y) →
  try_fold f b l = Ok b' → P l b'.
Proof.
  intros Hb Hstep.
  cut (∀ l2 l1 x, l = l1 ++ l2 → P l1 x → try_fold f x l2 = Ok b' → P l b').
  { intros H. by apply (H l []). }
  induction l2 as [|a l2 IH]; intros l1 x -> HP; simpl.
  { intros [= <-]. by rewrite app_nil_r. }
  rewrite bind_ok. intros (y & Hy & Hrest).
  apply (IH (l1 ++ [a]) y); [by rewrite <-app_assoc| |done].
  by eapply Hstep.
Qed.

(** A fold succeeds when its invariant makes every iteration succeed. *)
Lemma try_fold_total (P : B → Prop) b l :
  P b →
  (∀ x a, a ∈ l → P x → ∃ y, f x a = Ok y ∧ P y) →
  ∃ b', try_fold f b l = Ok b' ∧ P b'.
Proof.
  revert b. induction l as [|a l IH]; intros b Hb Hstep; simpl; [eauto|].
  destruct (Hstep b a) as (y & -> & Hy); [set_solver|done|]. simpl.
  apply IH; [done|set_solver].
Qed.

(** Elements the body ignores may be dropped from the list. *)
Lemma try_fold_filter (Q : A → Prop) `{∀ a, Decision (Q a)} b l :
  (∀ x a, a ∈ l → ¬ Q a → f x a = Ok x) →
  try_fold f b (filter Q l) = try_fold f b l.
Proof.
  revert b. induction l as [|a l IH]; intros b Hskip; [done|].
  rewrite filter_cons. case_decide as HQ; simpl.
  - destruct (f b a); simpl; [apply IH; set_solver|done].
  - rewrite Hskip; [|set_solver|done]. simpl. apply IH. set_solver.
Qed.
End try_fold_lemmas.

(** ** Lemmas: machine integers *)

Lemma in_i128_iff z : in_i128 z = true ↔ is_i128 z.
Proof. unfold in_i128, is_i128. lia. Qed.
Lemma in_u32_iff z : in_u32 z = true ↔ is_u32 z.
Proof. unfold in_u32, is_u32. lia. Qed.

Lemma to_i128_some z v : to_i128 z = Some v ↔ v = z ∧ is_i128 z.
Proof.
  unfold to_i128. destruct (in_i128 z) eqn:Hz.
  - apply in_i128_iff in Hz. naive_solver.
  - split; [done|]. intros [_ Hi]. apply in_i128_iff in Hi. congruence.
Qed.
Lemma to_i128_none z : to_i128 z = None ↔ ¬ is_i128 z.
Proof.
  rewrite <-in_i128_iff. unfold to_i128. destruct (in_i128 z); naive_solver.
Qed.
Lemma to_u32_some z v : to_u32 z = Some v ↔ v = z ∧ is_u32 z.
Proof.
  unfold to_u32. destruct (in_u32 z) eqn:Hz.
  - apply in_u32_iff in Hz. naive_solver.
  - split; [done|]. intros [_ Hi]. apply in_u32_iff in Hi. congruence.
Qed.

Lemma is_i128_small z : - u64_max ≤ z ≤ u64_max → is_i128 z.
Proof. unfold is_i128, i128_min, i128_max, u64_max. lia. Qed.

Lemma is_i128_between a b z : is_i128 a → is_i128 b → a ≤ z ≤ b → is_i128 z.
Proof. unfold is_i128. lia. Qed.

Lemma to_i128_in z : is_i128 z → to_i128 z = Some z.
Proof. intros. by apply to_i128_some. Qed.

(** ** Lemmas: ordered iteration *)

Lemma string_compare_trans a b c o :
  String.compare a b = o → String.compare b c = o → o ≠ Eq → String.compare a c = o.
Proof.
  revert b c. induction a as [|x a IH]; intros [|y b] [|z c]; simpl; try congruence.
  unfold Ascii.compare.
  destruct (N.compare_spec (Ascii.N_of_ascii x) (Ascii.N_of_ascii y)) as [E1|L1|L1];
  destruct (N.compare_spec (Ascii.N_of_ascii y) (Ascii.N_of_ascii z)) as [E2|L2|L2];
  destruct (N.compare_spec (Ascii.N_of_ascii x) (Ascii.N_of_ascii z)) as [E3|L3|L3];
  try lia; try congruence; eauto.
Qed.

Lemma string_le_cases a b :
  string_le a b ↔ a = b ∨ String.compare a b = Lt.
Proof.
  unfold string_le, String.leb.
  destruct (String.compare a b) eqn:Hc; try naive_solver.
  - apply String.compare_eq_iff in Hc. naive_solver.
  - split; [done|]. intros [->|[=]].
    induction b as [|x b IH]; [done|]. simpl in Hc.
    unfold Ascii.compare in Hc. rewrite N.compare_refl in Hc. auto.
Qed.

#[global] Instance string_le_trans : Transitive string_le.
Proof.
  intros a b c. rewrite !string_le_cases. intros [->|H1]; [done|].
  intros [->|H2]; [auto|]. right. by apply (string_compare_trans a b c).
Qed.

#[global] Instance string_le_total : Total string_le.
Proof. intros a b. apply String.leb_total. Qed.

#[global] Instance string_le_antisymm : AntiSymm (=) string_le.
Proof. intros a b. apply String.leb_antisym. Qed.

#[global] Instance string_key_order : KeyOrder string.
Proof. refine (Build_KeyOrder string string_le _ _ _ _). Defined.

Section bt_lemmas.
Context {K A : Type} `{Countable K, KeyOrder K}.
Implicit Types (m : gmap K A) (k : K) (v : A).

Lemma bt_iter_perm m : bt_iter m ≡ₚ map_to_list m.
Proof. apply merge_sort_Permutation. Qed.

Lemma bt_iter_elem m k v : (k, v) ∈ bt_iter m ↔ m !! k = Some v.
Proof. by rewrite bt_iter_perm, elem_of_map_to_list. Qed.

Lemma bt_iter_elem' m p : p ∈ bt_iter m ↔ m !! p.1 = Some p.2.
Proof. destruct p. apply bt_iter_elem. Qed.

Lemma bt_iter_NoDup_fst m : NoDup (bt_iter m).*1.
Proof. rewrite bt_iter_perm. apply NoDup_fst_map_to_list. Qed.

Lemma bt_iter_sorted m : StronglySorted entry_le (bt_iter m).
Proof. apply (StronglySorted_merge_sort _). Qed.

Lemma bt_keys_elem m k : k ∈ bt_keys m ↔ is_Some (m !! k).
Proof.
  unfold bt_keys. rewrite list_elem_of_fmap. split.
  - intros ([k' v] & -> & Hin). apply bt_iter_elem in Hin. eauto.
  - intros [v Hv]. exists (k, v). by rewrite bt_iter_elem.
Qed.

Lemma bt_keys_NoDup m : NoDup (bt_keys m).
Proof. apply bt_iter_NoDup_fst. Qed.

Lemma bt_keys_sorted m : StronglySorted key_le (bt_keys m).
Proof.
  unfold bt_keys. pose proof (bt_iter_sorted m) as Hs.
  induction Hs as [|p l Hl IH Hall]; simpl; constructor; [done|].
  rewrite Forall_fmap. eapply Forall_impl; [done|]. done.
Qed.

Lemma bt_iter_empty : bt_iter (∅ : gmap K A) = [].
Proof. unfold bt_iter. by rewrite map_to_list_empty. Qed.

(** Iteration order is a function of the entries. *)
Lemma bt_iter_unique m l :
  l ≡ₚ map_to_list m → StronglySorted entry_le l → l = bt_iter m.
Proof.
  intros Hp Hs. eapply (StronglySorted_unique_strong entry_le); [|done|apply bt_iter_sorted|by rewrite bt_iter_perm].
  intros [k1 v1] [k2 v2] H1 H2 Hle1 Hle2.
  rewrite Hp, elem_of_map_to_list in H1. rewrite bt_iter_elem in H2.
  assert (k1 = k2) as -> by by apply (anti_symm key_le). congruence.
Qed.

Lemma bt_iter_delete m k :
  bt_iter (delete k m) = filter (λ p, p.1 ≠ k) (bt_iter m).
Proof.
  symmetry. apply bt_iter_unique.
  - apply NoDup_Permutation.
    + apply NoDup_filter. eapply NoDup_fmap_1, bt_iter_NoDup_fst.
    + apply NoDup_map_to_list.
    + intros [k' v]. rewrite list_elem_of_filter, bt_iter_elem, elem_of_map_to_list,
        lookup_delete_Some. naive_solver.
  - pose proof (bt_iter_sorted m) as Hs. induction Hs as [|p l Hl IH Hall]; [constructor|].
    rewrite filter_cons. case_decide; [|done]. constructor; [done|].
    apply Forall_forall. intros q Hq. apply list_elem_of_filter in Hq as [_ Hq].
    rewrite Forall_forall in Hall. by apply Hall.
Qed.
End bt_lemmas.

(** ** Automation

    [rust_inv] takes a hypothesis that a model function answered [Ok] apart
    into the facts each of its steps establishes. *)

Lemma checked_add_some a b v : checked_add a b = Some v ↔ v = a + b ∧ is_i128 (a + b).
Proof. apply to_i128_some. Qed.
Lemma checked_sub_some a b v : checked_sub a b = Some v ↔ v = a - b ∧ is_i128 (a - b).
Proof. apply to_i128_some. Qed.
Lemma checked_mul_some a b v : checked_mul a b = Some v ↔ v = a * b ∧ is_i128 (a * b).
Proof. apply to_i128_some. Qed.
Lemma checked_neg_some a v : checked_neg a = Some v ↔ v = - a ∧ is_i128 (- a).
Proof. apply to_i128_some. Qed.
Lemma u32_checked_add_some a b v : u32_checked_add a b = Some v ↔ v = a + b ∧ is_u32 (a + b).
Proof. apply to_u32_some. Qed.
Lemma u32_checked_sub_some a b v : u32_checked_sub a b = Some v ↔ v = a - b ∧ is_u32 (a - b).
Proof. apply to_u32_some. Qed.

Ltac rust_step :=
  match goal with
  | H : Err _ = Ok _ |- _ => discriminate H
  | H : Some _ = None |- _ => discriminate H
  | H : None = Some _ |- _ => discriminate H
  | H : Ok _ = Ok _ |- _ => injection H as H
  | H : Some _ = Some _ |- _ => injection H as H
  | H : rbind _ _ = Ok _ |- _ =>
      let Ha := fresh "Hstep" in apply bind_ok in H as (? & Ha & H)
  | H : ok_or _ _ = Ok _ |- _ => apply ok_or_ok in H
  | H : map_err _ _ = Ok _ |- _ => apply map_err_ok in H
  | H : checked_add _ _ = Some _ |- _ => apply checked_add_some in H as [-> H]
  | H : checked_sub _ _ = Some _ |- _ => apply checked_sub_some in H as [-> H]
  | H : checked_mul _ _ = Some _ |- _ => apply checked_mul_some in H as [-> H]
  | H : checked_neg _ = Some _ |- _ => apply checked_neg_some in H as [-> H]
  | H : u32_checked_add _ _ = Some _ |- _ => apply u32_checked_add_some in H as [-> H]
  | H : u32_checked_sub _ _ = Some _ |- _ => apply u32_checked_sub_some in H as [-> H]
  | H : to_i128 _ = Some _ |- _ => apply to_i128_some in H as [-> H]
  | H : to_u32 _ = Some _ |- _ => apply to_u32_some in H as [-> H]
  | H : (if ?b then _ else _) = Ok _ |- _ => destruct b eqn:?
  | H : (if ?b then _ else _) = Some _ |- _ => destruct b eqn:?
  | H : (let '(_, _) := ?p in _) = Ok _ |- _ => destruct p as [? ?] eqn:?
  | H : (let '(_, _) := ?p in _) _ = (_, Ok _) |- _ => destruct p as [? ?] eqn:?
  | H : st_bind _ _ _ = (_, Ok _) |- _ =>
      let Ha := fresh "Hstep" in apply st_bind_ok in H as (? & ? & Ha & H)
  | H : st_gets _ _ = (_, _) |- _ => unfold st_gets in H
  | H : st_modify _ _ = (_, _) |- _ => unfold st_modify in H
  | H : st_ret _ _ = (_, _) |- _ => unfold st_ret in H
  | H : (if ?b then _ else _) _ = (_, Ok _) |- _ => destruct b eqn:?
  | H : (_, _) = (_, _) |- _ => injection H; clear H; intros
  end.
Ltac rust_inv := repeat (rust_step; cbn beta iota in * ).

(** The numeric literals of the widths, for [lia]. *)
Ltac widths :=
  unfold is_i128, is_u32, is_u64, i128_min, i128_max, u32_max, u64_max in *.

Create HintDb rust discriminated.
Create Rewrite HintDb rust.
#[export] Hint Resolve is_i128_small : rust.
#[export] Hint Rewrite @bind_ok @ok_or_ok @map_err_ok : rust.

Lemma omap_splits {A B : Type} (f : A → option B) l xs y ys :
  omap f l = xs ++ y :: ys →
  ∃ l1 a l2, l = l1 ++ a :: l2 ∧ omap f l1 = xs ∧ f a = Some y ∧ omap f l2 = ys.
Proof.
  revert xs. induction l as [|a l IH]; intros xs; simpl; [by destruct xs|].
  destruct (f a) as [b|] eqn:Ha.
  - destruct xs as [|x xs]; simpl.
    + intros [= -> <-]. by exists [], a, l.
    + intros [= -> Heq]. destruct (IH xs Heq) as (l1 & a' & l2 & -> & <- & Ha' & Hl).
      exists (a :: l1), a', l2. simpl. by rewrite Ha.
  - intros Heq. destruct (IH xs Heq) as (l1 & a' & l2 & -> & <- & Ha' & Hl).
    exists (a :: l1), a', l2. simpl. by rewrite Ha.
Qed.

Lemma omap_ext_in {A B : Type} (f g : A → option B) (l : list A) :
  (∀ x, x ∈ l → f x = g x) → omap f l = omap g l.
Proof.
  induction l as [|x l IH]; intros Hfg; [done|].
  change (match f x with Some y => y :: omap f l | None => omap f l end =
          match g x with Some y => y :: omap g l | None => omap g l end).
  rewrite (Hfg x), IH by (intros; try apply Hfg; set_solver). done.
Qed.

(** ** Chunks *)

Lemma concat_chunks {A : Type} n (l : list A) : (0 < n)%nat → concat (chunks n l) = l.
Proof.
  intros Hn. unfold chunks.
  cut (∀ fuel l, (length l ≤ fuel)%nat → concat (chunks_of (A:=A) fuel n l) = l); [naive_solver|].
  clear l. intros fuel. induction fuel as [|fuel IH]; intros [|a l] Hl; try done; [simpl in Hl; lia|].
  cbn [chunks_of concat]. rewrite IH; [apply take_drop|].
  rewrite length_drop. simpl in *. lia.
Qed.

Lemma chunks_length {A : Type} n (l : list A) : (0 < n)%nat →
  Forall (λ c, (0 < length c ≤ n)%nat) (chunks n l).
Proof.
  intros Hn. unfold chunks. generalize (length l). intros fuel. revert l.
  induction fuel as [|fuel IH]; intros [|a l]; constructor; [|apply IH].
  rewrite length_take. simpl. lia.
Qed.

(** ** Floor and ceiling division *)

Definition cdiv (a b : Z) : Z := - ((- a) / b).

Lemma fdiv_spec a b : 0 < b → b * (a / b) ≤ a < b * (a / b) + b.
Proof. intros. pose proof (Z.div_mod a b). pose proof (Z.mod_pos_bound a b). lia. Qed.
Lemma cdiv_spec a b : 0 < b → b * cdiv a b - b < a ≤ b * cdiv a b.
Proof. intros. unfold cdiv. pose proof (fdiv_spec (- a) b). lia. Qed.

Lemma fdiv_unique a b q : 0 < b → b * q ≤ a < b * q + b → a / b = q.
Proof. intros. symmetry. apply (Z.div_unique _ _ _ (a - b * q)); lia. Qed.
Lemma cdiv_unique a b q : 0 < b → b * q - b < a ≤ b * q → cdiv a b = q.
Proof. intros. unfold cdiv. rewrite (fdiv_unique (- a) b (- q)); lia. Qed.

Lemma fdiv_le_cdiv a b : 0 < b → a / b ≤ cdiv a b ≤ a / b + 1.
Proof. intros. pose proof (fdiv_spec a b). pose proof (cdiv_spec a b). nia. Qed.

Lemma fdiv_mono a a' b : 0 < b → a ≤ a' → a / b ≤ a' / b.
Proof. intros. by apply Z.div_le_mono. Qed.
Lemma cdiv_mono a a' b : 0 < b → a ≤ a' → cdiv a b ≤ cdiv a' b.
Proof. intros. unfold cdiv. assert (- a' / b ≤ - a / b) by (apply Z.div_le_mono; lia). lia. Qed.

Lemma fdiv_nonneg a b : 0 < b → 0 ≤ a → 0 ≤ a / b.
Proof. intros. by apply Z.div_pos. Qed.
Lemma cdiv_nonneg a b : 0 < b → 0 ≤ a → 0 ≤ cdiv a b.
Proof. intros. pose proof (cdiv_spec a b). nia. Qed.

(** [a / b ≥ q] and [cdiv a b ≤ q] without the division. *)
Lemma fdiv_ge a b q : 0 < b → q ≤ a / b ↔ b * q ≤ a.
Proof. intros. pose proof (fdiv_spec a b). nia. Qed.
Lemma cdiv_le a b q : 0 < b → cdiv a b ≤ q ↔ a ≤ b * q.
Proof. intros. pose proof (cdiv_spec a b). nia. Qed.
#[export] Hint Resolve fdiv_nonneg cdiv_nonneg : rust.

(** ** Sums *)

Definition zsum {A : Type} (f : A → Z) (l : list A) : Z :=
  foldr (λ a acc, f a + acc) 0 l.

Section zsum_lemmas.
Context {A : Type}.
Implicit Types (f g : A → Z) (l : list A).

Lemma zsum_app f l1 l2 : zsum f (l1 ++ l2) = zsum f l1 + zsum f l2.
Proof. induction l1 as [|a l1 IH]; simpl; lia. Qed.
Lemma zsum_snoc f l a : zsum f (l ++ [a]) = zsum f l + f a.
Proof. rewrite zsum_app. simpl. lia. Qed.
Lemma zsum_le f g l : (∀ a, a ∈ l → f a ≤ g a) → zsum f l ≤ zsum g l.
Proof.
  induction l as [|a l IH]; intros Hle; simpl; [lia|].
  pose proof (Hle a ltac:(set_solver)). specialize (IH ltac:(set_solver)). lia.
Qed.
Lemma zsum_ext f g l : (∀ a, a ∈ l → f a = g a) → zsum f l = zsum g l.
Proof. intros H. apply Z.le_antisymm; apply zsum_le; intros a Ha; rewrite (H a Ha); lia. Qed.
Lemma zsum_nonneg f l : (∀ a, a ∈ l → 0 ≤ f a) → 0 ≤ zsum f l.
Proof.
  intros H. etrans; [|by apply (zsum_le (λ _, 0))]. clear H.
  induction l; simpl; lia.
Qed.
#[export] Instance zsum_perm f : Proper ((≡ₚ) ==> (=)) (zsum f).
Proof. intros l1 l2 Hp. induction Hp; simpl; lia. Qed.
Lemma zsum_filter_le f (P : A → Prop) `{∀ a, Decision (P a)} l :
  (∀ a, a ∈ l → 0 ≤ f a) → zsum f (filter P l) ≤ zsum f l.
Proof.
  induction l as [|a l IH]; intros Hf; [done|].
  pose proof (Hf a ltac:(set_solver)). specialize (IH ltac:(set_solver)).
  rewrite filter_cons. case_decide; simpl; lia.
Qed.
End zsum_lemmas.

(** ** Strings *)

Lemma length_append a b : String.length (a +:+ b) = (String.length a + String.length b)%nat.
Proof. induction a as [|c a IH]; [done|]. simpl. by rewrite IH. Qed.
