(* ===== verification/Fixed.v ===== *)
(** * Checked fixed-point arithmetic ([src/math/fixed.rs])

    [mul_div] multiplies in 128 bits when the product fits and in 256 bits
    when it does not; the lemmas here show that every path is the
    mathematical floor or ceiling of [x * y / z], or an [Overflow]. *)

From S2P Require Import Prelude.

Definition SCALAR_7 : Z := 10000000.
Definition SCALAR_12 : Z := 1000000000000.
Definition SECONDS_PER_YEAR : Z := 31536000.

Inductive MathError : Type :=
| DivisionByZero
| Overflow
| InvalidInput (what : string)
| MissingReserve (index : Z)
| MissingPrice (asset : string).

Inductive Rounding : Type := Floor | Ceil.

(** [div_euclid] and [rem_euclid] of Rust's integers: the remainder is never
    negative. *)
Definition div_euclid (a b : Z) : Z := Z.sgn b * (a / Z.abs b).
Definition rem_euclid (a b : Z) : Z := a mod Z.abs b.
Definition checked_div_euclid (a b : Z) : option Z :=
  if b =? 0 then None else to_i128 (div_euclid a b).

(** The 256-bit path. An [I256] is a [Z]: [wide_path_fits] shows that no
    value it computes leaves 256 bits. *)
Definition divide_wide (r z : Z) (rounding : Rounding) : result MathError Z :=
  let '(r, z) := if z <? 0 then (- r, - z) else (r, z) in
  let quotient := div_euclid r z in
  let quotient :=
    match rounding with
    | Floor => quotient
    | Ceil => if rem_euclid r z =? 0 then quotient else quotient + 1
    end in
  ok_or (to_i128 quotient) Overflow.

Definition divide_narrow (r z : Z) (rounding : Rounding) : result MathError Z :=
  if (r =? i128_min) || (z =? i128_min) then divide_wide r z rounding
  else
    let? (r, z) :=
      if z <? 0 then
        let? r' := ok_or (checked_neg r) Overflow in
        let? z' := ok_or (checked_neg z) Overflow in
        Ok (r', z')
      else Ok (r, z) in
    let? quotient := ok_or (checked_div_euclid r z) Overflow in
    match rounding with
    | Floor => Ok quotient
    | Ceil =>
        if rem_euclid r z =? 0 then Ok quotient
        else ok_or (checked_add quotient 1) Overflow
    end.

Definition mul_div (x y z : Z) (rounding : Rounding) : result MathError Z :=
  if z =? 0 then Err DivisionByZero
  else
    match checked_mul x y with
    | Some product => divide_narrow product z rounding
    | None => divide_wide (x * y) z rounding
    end.

Definition mul_floor (x y denominator : Z) : result MathError Z :=
  mul_div x y denominator Floor.
Definition mul_ceil (x y denominator : Z) : result MathError Z :=
  mul_div x y denominator Ceil.
Definition div_floor (x y denominator : Z) : result MathError Z :=
  mul_div x denominator y Floor.
Definition div_ceil (x y denominator : Z) : result MathError Z :=
  mul_div x denominator y Ceil.

(** [10_i128.checked_pow(decimals)]. *)
Definition pow10 (decimals : Z) : result MathError Z :=
  ok_or (to_i128 (10 ^ decimals)) Overflow.

(** ** The reference definition *)

Definition round_div (rounding : Rounding) (a b : Z) : Z :=
  match rounding with
  | Floor => a / b
  | Ceil => cdiv a b
  end.

(** What [mul_div] promises: a zero divisor is refused, and otherwise the
    exact quotient, rounded, when an [i128] holds it. *)
Definition mul_div_ref (x y z : Z) (rounding : Rounding) : result MathError Z :=
  if z =? 0 then Err DivisionByZero
  else ok_or (to_i128 (round_div rounding (x * y) z)) Overflow.

(** ** Lemmas *)

Lemma div_euclid_pos a b : 0 < b → div_euclid a b = a / b.
Proof. intros. unfold div_euclid. rewrite Z.sgn_pos, Z.abs_eq by lia. lia. Qed.
Lemma rem_euclid_pos a b : 0 < b → rem_euclid a b = a mod b.
Proof. intros. unfold rem_euclid. by rewrite Z.abs_eq by lia. Qed.

(** The ceiling as the code computes it: the floor, plus one when there is a
    remainder. *)
Lemma ceil_by_remainder a b :
  0 < b → (if rem_euclid a b =? 0 then a / b else a / b + 1) = cdiv a b.
Proof.
  intros Hb. rewrite rem_euclid_pos by done. symmetry.
  pose proof (Z.div_mod a b). pose proof (Z.mod_pos_bound a b).
  destruct (Z.eqb_spec (a mod b) 0); apply cdiv_unique; lia.
Qed.

Lemma round_div_opp rounding a b :
  b ≠ 0 → round_div rounding (- a) (- b) = round_div rounding a b.
Proof.
  intros. destruct rounding; simpl; unfold cdiv; by rewrite Z.div_opp_opp.
Qed.

Lemma divide_wide_correct r z rounding :
  z ≠ 0 →
  divide_wide r z rounding = ok_or (to_i128 (round_div rounding r z)) Overflow.
Proof.
  intros Hz. unfold divide_wide. destruct (Z.ltb_spec z 0).
  - rewrite div_euclid_pos by lia. rewrite <-(round_div_opp rounding r z) by done.
    destruct rounding; simpl; [done|]. by rewrite ceil_by_remainder by lia.
  - rewrite div_euclid_pos by lia.
    destruct rounding; simpl; [done|]. by rewrite ceil_by_remainder by lia.
Qed.

(** Division by a positive divisor shrinks, so the narrow path's quotient is
    an [i128]; only its final increment is checked in earnest. *)
Lemma fdiv_i128 r z : 0 < z → is_i128 r → is_i128 (r / z).
Proof.
  intros Hz Hr. pose proof (fdiv_spec r z Hz). widths. nia.
Qed.

Lemma divide_narrow_positive r z rounding :
  0 < z → is_i128 r →
  (let? quotient := ok_or (checked_div_euclid r z) Overflow in
   match rounding with
   | Floor => Ok quotient
   | Ceil => if rem_euclid r z =? 0 then Ok quotient
             else ok_or (checked_add quotient 1) Overflow
   end) = ok_or (to_i128 (round_div rounding r z)) Overflow.
Proof.
  intros Hz Hr. unfold checked_div_euclid.
  destruct (Z.eqb_spec z 0); [lia|]. rewrite div_euclid_pos by done.
  pose proof (fdiv_i128 r z Hz Hr) as Hq. rewrite to_i128_in by done. simpl.
  destruct rounding; simpl; [by rewrite to_i128_in|].
  rewrite <-(ceil_by_remainder r z) by done.
  destruct (_ =? 0); [by rewrite to_i128_in|done].
Qed.

Lemma divide_narrow_correct r z rounding :
  z ≠ 0 → is_i128 r → is_i128 z →
  divide_narrow r z rounding = ok_or (to_i128 (round_div rounding r z)) Overflow.
Proof.
  intros Hz Hr Hiz. unfold divide_narrow.
  destruct (Z.eqb_spec r i128_min); [by apply divide_wide_correct|].
  destruct (Z.eqb_spec z i128_min); [by apply divide_wide_correct|]. simpl.
  destruct (Z.ltb_spec z 0).
  - unfold checked_neg.
    rewrite (to_i128_in (- r)), (to_i128_in (- z)) by (widths; lia). simpl.
    rewrite divide_narrow_positive by (widths; lia). by rewrite round_div_opp.
  - simpl. apply divide_narrow_positive; [lia|done].
Qed.

(** The optimised routine is the reference definition. *)
Lemma mul_div_ref_eq x y z rounding :
  is_i128 z → mul_div x y z rounding = mul_div_ref x y z rounding.
Proof.
  intros Hz. unfold mul_div, mul_div_ref. destruct (Z.eqb_spec z 0); [done|].
  destruct (checked_mul x y) as [p|] eqn:Hp.
  - apply to_i128_some in Hp as [-> Hp]. by apply divide_narrow_correct.
  - by apply divide_wide_correct.
Qed.

(** What an [Ok] says, whatever the ranges of the arguments. *)
Lemma divide_narrow_ok r z rounding v :
  z ≠ 0 → divide_narrow r z rounding = Ok v →
  v = round_div rounding r z ∧ is_i128 v.
Proof.
  intros Hz. unfold divide_narrow. destruct (_ || _).
  { rewrite divide_wide_correct by done. intros. by rust_inv; subst. }
  assert (∀ r z, 0 < z →
    (let? quotient := ok_or (checked_div_euclid r z) Overflow in
     match rounding with
     | Floor => Ok quotient
     | Ceil => if rem_euclid r z =? 0 then Ok quotient
               else ok_or (checked_add quotient 1) Overflow
     end) = Ok v → v = round_div rounding r z ∧ is_i128 v) as Hpos.
  { intros r' z' Hz' H. unfold checked_div_euclid in H.
    destruct (Z.eqb_spec z' 0); [lia|]. rewrite div_euclid_pos in H by done.
    pose proof (ceil_by_remainder r' z' Hz') as Hceil.
    destruct rounding; simpl in *; rust_inv; subst; split; congruence. }
  destruct (Z.ltb_spec z 0).
  - unfold checked_neg. destruct (to_i128 (- r)) eqn:Hr; [|done].
    destruct (to_i128 (- z)) eqn:Hz'; [|done].
    apply to_i128_some in Hr as [-> _]. apply to_i128_some in Hz' as [-> _].
    rewrite <-(round_div_opp rounding r z) by done. apply Hpos; lia.
  - apply Hpos; lia.
Qed.

Lemma mul_div_ok x y z rounding v :
  mul_div x y z rounding = Ok v →
  z ≠ 0 ∧ v = round_div rounding (x * y) z ∧ is_i128 v.
Proof.
  unfold mul_div. destruct (Z.eqb_spec z 0) as [|Hz]; [done|]. intros H. split; [done|].
  destruct (checked_mul x y) as [p|] eqn:Hp.
  - rust_inv. by apply divide_narrow_ok.
  - rewrite divide_wide_correct in H by done. by rust_inv; subst.
Qed.

Lemma mul_floor_ok x y d v :
  mul_floor x y d = Ok v → d ≠ 0 ∧ v = (x * y) / d ∧ is_i128 v.
Proof. apply mul_div_ok. Qed.
Lemma mul_ceil_ok x y d v :
  mul_ceil x y d = Ok v → d ≠ 0 ∧ v = cdiv (x * y) d ∧ is_i128 v.
Proof. apply mul_div_ok. Qed.
Lemma div_floor_ok x y d v :
  div_floor x y d = Ok v → y ≠ 0 ∧ v = (x * d) / y ∧ is_i128 v.
Proof. apply mul_div_ok. Qed.
Lemma div_ceil_ok x y d v :
  div_ceil x y d = Ok v → y ≠ 0 ∧ v = cdiv (x * d) y ∧ is_i128 v.
Proof. apply mul_div_ok. Qed.

(** The converse, for a divisor in range. *)
Lemma mul_div_in x y z rounding :
  z ≠ 0 → is_i128 z → is_i128 (round_div rounding (x * y) z) →
  mul_div x y z rounding = Ok (round_div rounding (x * y) z).
Proof.
  intros Hz Hiz Hq. rewrite mul_div_ref_eq by done. unfold mul_div_ref.
  destruct (Z.eqb_spec z 0); [done|]. by rewrite to_i128_in.
Qed.
Lemma mul_floor_in x y d :
  d ≠ 0 → is_i128 d → is_i128 ((x * y) / d) → mul_floor x y d = Ok ((x * y) / d).
Proof. intros. by apply (mul_div_in x y d Floor). Qed.
Lemma mul_ceil_in x y d :
  d ≠ 0 → is_i128 d → is_i128 (cdiv (x * y) d) → mul_ceil x y d = Ok (cdiv (x * y) d).
Proof. intros. by apply (mul_div_in x y d Ceil). Qed.
Lemma div_floor_in x y d :
  y ≠ 0 → is_i128 y → is_i128 ((x * d) / y) → div_floor x y d = Ok ((x * d) / y).
Proof. intros. by apply (mul_div_in x d y Floor). Qed.
Lemma div_ceil_in x y d :
  y ≠ 0 → is_i128 y → is_i128 (cdiv (x * d) y) → div_ceil x y d = Ok (cdiv (x * d) y).
Proof. intros. by apply (mul_div_in x d y Ceil). Qed.

Lemma pow10_ok d v : pow10 d = Ok v → v = 10 ^ d ∧ is_i128 v.
Proof. unfold pow10. intros. by rust_inv; subst. Qed.
Lemma pow10_pos d v : 0 ≤ d → pow10 d = Ok v → 0 < v.
Proof. intros Hd [-> _]%pow10_ok. by apply Z.pow_pos_nonneg. Qed.

(** [rust_inv] extended with the fixed-point operations. *)
Ltac fixed_step :=
  match goal with
  | H : mul_floor _ _ _ = Ok _ |- _ => apply mul_floor_ok in H as (? & -> & ?)
  | H : mul_ceil _ _ _ = Ok _ |- _ => apply mul_ceil_ok in H as (? & -> & ?)
  | H : div_floor _ _ _ = Ok _ |- _ => apply div_floor_ok in H as (? & -> & ?)
  | H : div_ceil _ _ _ = Ok _ |- _ => apply div_ceil_ok in H as (? & -> & ?)
  end.
Ltac fixed_inv := repeat (first [rust_step | fixed_step]; cbn beta iota in * ).

(** ** Properties *)

(** C32: for all [i128] arguments, the optimised multiply-then-divide — the
    128-bit path, the 256-bit path, the sign normalisation and the detour of
    [i128::MIN] — is the reference definition: a zero divisor is
    [DivisionByZero], and otherwise the exact floor or ceiling of
    [x * y / z], refused as [Overflow] only when an [i128] does not hold it.
    On the way no 256-bit value overflows: the product, its negation and the
    incremented quotient all stay in range. *)
Theorem mul_div_is_reference (x y z : Z) (rounding : Rounding)
  (Hx : is_i128 x) (Hy : is_i128 y) (Hz : is_i128 z) :
  mul_div x y z rounding = mul_div_ref x y z rounding ∧
  (∀ v, v = x * y ∨ v = - (x * y) ∨ v = - z ∨ v = x * y / z + 1 →
    z ≠ 0 → - 2 ^ 255 ≤ v < 2 ^ 255).
Proof.
  split; [by apply mul_div_ref_eq|]. intros v Hv Hz0.
  assert (Z.abs (x * y) ≤ 2 ^ 254).
  { rewrite Z.abs_mul. change (2 ^ 254) with (2 ^ 127 * 2 ^ 127).
    apply Z.mul_le_mono_nonneg; widths; lia. }
  assert (Z.abs (x * y / z) ≤ 2 ^ 254).
  { destruct (Z.lt_trichotomy z 0) as [Hneg|[?|Hpos]]; [|done|].
    - rewrite <-Z.div_opp_opp by done. pose proof (fdiv_spec (- (x * y)) (- z)). nia.
    - pose proof (fdiv_spec (x * y) z). nia. }
  assert (2 ^ 255 = 2 * 2 ^ 254) as -> by done.
  widths. destruct Hv as [->|[->|[->| ->]]]; lia.
Qed.

Lemma mul_div_is_reference_witness :
  mul_div i128_min 1 (-2) Ceil = mul_div_ref i128_min 1 (-2) Ceil ∧
  mul_div_ref i128_min 1 (-2) Ceil = Ok (2 ^ 126).
Proof.
  split; [|reflexivity].
  apply (mul_div_is_reference i128_min 1 (-2) Ceil); widths; lia.
Defined.
