(* ===== verification/Reserve.v ===== *)
(** * Reserves and interest accrual ([src/math/reserve.rs])

    A reserve's configuration and data as the pool contract stores them, the
    conversions between b-tokens, d-tokens and the underlying asset with the
    contract's rounding, and the interest accrual to a ledger's close time. *)

From S2P Require Import Prelude Fixed.

(** ** Data *)

Record ReserveConfig : Type := mkReserveConfig {
  rc_index : Z;       (* u32 *)
  rc_decimals : Z;    (* u32 *)
  rc_c_factor : Z;    (* u32 *)
  rc_l_factor : Z;    (* u32 *)
  rc_util : Z;        (* u32 *)
  rc_max_util : Z;    (* u32 *)
  rc_r_base : Z;      (* u32 *)
  rc_r_one : Z;       (* u32 *)
  rc_r_two : Z;       (* u32 *)
  rc_r_three : Z;     (* u32 *)
  rc_reactivity : Z;  (* u32 *)
  rc_supply_cap : Z;  (* i128 *)
  rc_enabled : bool;
}.

Record ReserveData : Type := mkReserveData {
  rd_d_rate : Z;
  rd_b_rate : Z;
  rd_ir_mod : Z;
  rd_b_supply : Z;
  rd_d_supply : Z;
  rd_backstop_credit : Z;
  rd_last_time : Z;   (* u64 *)
}.

Record Reserve : Type := mkReserve {
  rs_asset : string;
  rs_config : ReserveConfig;
  rs_data : ReserveData;
  rs_scalar : Z;
}.

(** Assignments to [self.data.field]. *)
Definition set_data (f : ReserveData → ReserveData) (r : Reserve) : Reserve :=
  mkReserve (rs_asset r) (rs_config r) (f (rs_data r)) (rs_scalar r).
Definition set_d_rate (v : Z) : Reserve → Reserve :=
  set_data (λ d, mkReserveData v (rd_b_rate d) (rd_ir_mod d) (rd_b_supply d)
    (rd_d_supply d) (rd_backstop_credit d) (rd_last_time d)).
Definition set_b_rate (v : Z) : Reserve → Reserve :=
  set_data (λ d, mkReserveData (rd_d_rate d) v (rd_ir_mod d) (rd_b_supply d)
    (rd_d_supply d) (rd_backstop_credit d) (rd_last_time d)).
Definition set_ir_mod (v : Z) : Reserve → Reserve :=
  set_data (λ d, mkReserveData (rd_d_rate d) (rd_b_rate d) v (rd_b_supply d)
    (rd_d_supply d) (rd_backstop_credit d) (rd_last_time d)).
Definition set_b_supply (v : Z) : Reserve → Reserve :=
  set_data (λ d, mkReserveData (rd_d_rate d) (rd_b_rate d) (rd_ir_mod d) v
    (rd_d_supply d) (rd_backstop_credit d) (rd_last_time d)).
Definition set_d_supply (v : Z) : Reserve → Reserve :=
  set_data (λ d, mkReserveData (rd_d_rate d) (rd_b_rate d) (rd_ir_mod d)
    (rd_b_supply d) v (rd_backstop_credit d) (rd_last_time d)).
Definition set_backstop_credit (v : Z) : Reserve → Reserve :=
  set_data (λ d, mkReserveData (rd_d_rate d) (rd_b_rate d) (rd_ir_mod d)
    (rd_b_supply d) (rd_d_supply d) v (rd_last_time d)).
Definition set_last_time (v : Z) : Reserve → Reserve :=
  set_data (λ d, mkReserveData (rd_d_rate d) (rd_b_rate d) (rd_ir_mod d)
    (rd_b_supply d) (rd_d_supply d) (rd_backstop_credit d) v).

Definition UTIL_95 : Z := 9500000.
Definition UTIL_5 : Z := 500000.
Definition IR_MOD_MAX : Z := 10 * SCALAR_7.
Definition IR_MOD_MIN : Z := Z.quot SCALAR_7 10.

(** ** Operations *)

(** [Reserve::new]. *)
Definition new (asset : string) (config : ReserveConfig) (data : ReserveData)
  : result MathError Reserve :=
  let? scalar := pow10 (rc_decimals config) in
  Ok (mkReserve asset config data scalar).

Definition to_asset_from_d_token (self : Reserve) (d_tokens : Z) : result MathError Z :=
  mul_ceil d_tokens (rd_d_rate (rs_data self)) SCALAR_12.
Definition to_asset_from_b_token (self : Reserve) (b_tokens : Z) : result MathError Z :=
  mul_floor b_tokens (rd_b_rate (rs_data self)) SCALAR_12.

Definition total_liabilities (self : Reserve) : result MathError Z :=
  to_asset_from_d_token self (rd_d_supply (rs_data self)).
Definition total_supply (self : Reserve) : result MathError Z :=
  to_asset_from_b_token self (rd_b_supply (rs_data self)).

Definition utilization (self : Reserve) : result MathError Z :=
  let? liabilities := total_liabilities self in
  let? supply := total_supply self in
  if liabilities =? 0 then Ok 0
  else if supply <=? liabilities then Ok SCALAR_7
  else div_ceil liabilities supply SCALAR_7.

Definition to_effective_asset_from_d_token (self : Reserve) (d_tokens : Z)
  : result MathError Z :=
  let? assets := to_asset_from_d_token self d_tokens in
  div_ceil assets (rc_l_factor (rs_config self)) SCALAR_7.
Definition to_effective_asset_from_b_token (self : Reserve) (b_tokens : Z)
  : result MathError Z :=
  let? assets := to_asset_from_b_token self b_tokens in
  mul_floor assets (rc_c_factor (rs_config self)) SCALAR_7.

Definition to_d_token_up (self : Reserve) (amount : Z) : result MathError Z :=
  div_ceil amount (rd_d_rate (rs_data self)) SCALAR_12.
Definition to_d_token_down (self : Reserve) (amount : Z) : result MathError Z :=
  div_floor amount (rd_d_rate (rs_data self)) SCALAR_12.
Definition to_b_token_up (self : Reserve) (amount : Z) : result MathError Z :=
  div_ceil amount (rd_b_rate (rs_data self)) SCALAR_12.
Definition to_b_token_down (self : Reserve) (amount : Z) : result MathError Z :=
  div_floor amount (rd_b_rate (rs_data self)) SCALAR_12.

(** The three segments of the rate curve. *)
Definition current_rate (config : ReserveConfig) (cur_util ir_mod : Z)
  : result MathError Z :=
  let target_util := rc_util config in
  if cur_util <=? target_util then
    let? util_scalar := div_ceil cur_util target_util SCALAR_7 in
    let? scaled := mul_ceil util_scalar (rc_r_one config) SCALAR_7 in
    let? base_rate := ok_or (checked_add scaled (rc_r_base config)) Overflow in
    mul_ceil base_rate ir_mod SCALAR_7
  else if cur_util <=? UTIL_95 then
    let? util_dif := ok_or (checked_sub cur_util target_util) Overflow in
    let? util_range := ok_or (checked_sub UTIL_95 target_util) Overflow in
    let? util_scalar := div_ceil util_dif util_range SCALAR_7 in
    let? scaled := mul_ceil util_scalar (rc_r_two config) SCALAR_7 in
    let? base_rate :=
      ok_or (sum ← checked_add scaled (rc_r_one config);
             checked_add sum (rc_r_base config)) Overflow in
    mul_ceil base_rate ir_mod SCALAR_7
  else
    let? util_dif := ok_or (checked_sub cur_util UTIL_95) Overflow in
    let? util_scalar := div_ceil util_dif UTIL_5 SCALAR_7 in
    let? extra_rate := mul_ceil util_scalar (rc_r_three config) SCALAR_7 in
    let? rate_sum :=
      ok_or (sum ← checked_add (rc_r_two config) (rc_r_one config);
             checked_add sum (rc_r_base config)) Overflow in
    let? intersection := mul_ceil ir_mod rate_sum SCALAR_7 in
    ok_or (checked_add extra_rate intersection) Overflow.

(** The next interest-rate modifier. *)
Definition next_ir_mod (config : ReserveConfig) (util_dif util_error ir_mod : Z)
  : result MathError Z :=
  if 0 <=? util_dif then
    let? rate_dif := mul_floor util_error (rc_reactivity config) SCALAR_7 in
    let? sum := ok_or (checked_add ir_mod rate_dif) Overflow in
    Ok (Z.min sum IR_MOD_MAX)
  else
    let? rate_dif := mul_ceil util_error (rc_reactivity config) SCALAR_7 in
    let? sum := ok_or (checked_add ir_mod rate_dif) Overflow in
    Ok (Z.max sum IR_MOD_MIN).

(** [now.checked_sub(last_time)] on [u64]. *)
Definition u64_checked_sub (a b : Z) : option Z :=
  if a <? b then None else Some (a - b).

Definition calc_accrual (config : ReserveConfig) (cur_util ir_mod last_time now : Z)
  : result MathError (Z * Z) :=
  let target_util := rc_util config in
  let? cur_ir := current_rate config cur_util ir_mod in
  let? delta_time :=
    ok_or (u64_checked_sub now last_time) (InvalidInput "now is before last_time") in
  guard negb (delta_time <? 1) else InvalidInput "no time elapsed";
  let? util_dif := ok_or (checked_sub cur_util target_util) Overflow in
  let? util_error := ok_or (checked_mul delta_time util_dif) Overflow in
  let? new_ir_mod := next_ir_mod config util_dif util_error ir_mod in
  let? weighted := ok_or (checked_mul delta_time SCALAR_12) Overflow in
  let time_weight := Z.quot weighted SECONDS_PER_YEAR in
  let? interest := mul_ceil time_weight cur_ir SCALAR_7 in
  let? accrual := ok_or (checked_add SCALAR_12 interest) Overflow in
  Ok (accrual, new_ir_mod).

(** The part of [accrue] that hands the suppliers and the backstop what the
    borrowers now owe. *)
Definition credit_interest (bstop_rate pre_update_supply accrued : Z)
  : stres Reserve MathError () :=
  do! new_backstop_credit :=
    (if 0 <? bstop_rate then
      do! credit := st_gets (λ _, mul_floor accrued bstop_rate SCALAR_7) in
      do! total := st_gets (λ self : Reserve,
        ok_or (checked_add (rd_backstop_credit (rs_data self)) credit) Overflow) in
      do! _ := st_modify (set_backstop_credit total) in
      st_ret credit
    else st_ret 0) in
  do! supply_after := st_gets (λ _,
    ok_or (s ← checked_add pre_update_supply accrued;
           checked_sub s new_backstop_credit) Overflow) in
  do! b_rate := st_gets (λ self : Reserve,
    div_floor supply_after (rd_b_supply (rs_data self)) SCALAR_12) in
  st_modify (set_b_rate b_rate).

(** [Reserve::accrue]. *)
Definition accrue (bstop_rate now : Z) : stres Reserve MathError () := λ self,
  if now =? rd_last_time (rs_data self) then (self, Ok ())
  else if now <? rd_last_time (rs_data self) then
    (self, Err (InvalidInput "now is before last_time"))
  else if rd_b_supply (rs_data self) =? 0 then (set_last_time now self, Ok ())
  else
    (do! cur_util := st_gets utilization in
     if cur_util =? 0 then st_modify (set_last_time now)
     else
       do! (loan_accrual, new_ir_mod) := st_gets (λ self,
         calc_accrual (rs_config self) cur_util (rd_ir_mod (rs_data self))
           (rd_last_time (rs_data self)) now) in
       do! _ := st_modify (set_ir_mod new_ir_mod) in
       do! pre_update_supply := st_gets total_supply in
       do! pre_update_liabilities := st_gets total_liabilities in
       do! d_rate := st_gets (λ self,
         mul_ceil loan_accrual (rd_d_rate (rs_data self)) SCALAR_12) in
       do! _ := st_modify (set_d_rate d_rate) in
       do! liabilities := st_gets total_liabilities in
       do! accrued := st_gets (λ _,
         ok_or (checked_sub liabilities pre_update_liabilities) Overflow) in
       do! _ := (if 0 <? accrued then credit_interest bstop_rate pre_update_supply accrued
                 else st_ret ()) in
       st_modify (set_last_time now)) self.

(** ** Well-formedness: what a reserve the pool stores satisfies *)

Record wf_config (c : ReserveConfig) : Prop := mkWfConfig {
  wf_c_factor : 0 ≤ rc_c_factor c ≤ SCALAR_7;
  wf_l_factor : 0 < rc_l_factor c ≤ SCALAR_7;
  wf_r_base : 0 ≤ rc_r_base c;
  wf_r_one : 0 ≤ rc_r_one c;
  wf_r_two : 0 ≤ rc_r_two c;
  wf_r_three : 0 ≤ rc_r_three c;
  wf_util : 0 < rc_util c < UTIL_95;
  wf_reactivity : 0 ≤ rc_reactivity c;
}.

Record wf_reserve (r : Reserve) : Prop := mkWfReserve {
  wf_cfg : wf_config (rs_config r);
  wf_scalar : 0 < rs_scalar r;
  wf_d_rate : 0 < rd_d_rate (rs_data r);
  wf_b_rate : 0 ≤ rd_b_rate (rs_data r);
  wf_ir_mod : IR_MOD_MIN ≤ rd_ir_mod (rs_data r) ≤ IR_MOD_MAX;
  wf_b_supply : 0 ≤ rd_b_supply (rs_data r);
  wf_d_supply : 0 ≤ rd_d_supply (rs_data r);
  wf_credit : 0 ≤ rd_backstop_credit (rs_data r);
}.

Ltac scalars :=
  unfold IR_MOD_MAX, IR_MOD_MIN, UTIL_95, UTIL_5, SCALAR_7, SCALAR_12,
    SECONDS_PER_YEAR in *;
  change (Z.quot 10000000 10) with 1000000 in *.
Ltac conversions :=
  unfold to_asset_from_d_token, to_asset_from_b_token, to_d_token_up,
    to_d_token_down, to_b_token_up, to_b_token_down in *.

(** ** Lemmas: floor and ceiling round trips *)

Lemma floor_ceil_round_trip a s r : 0 < s → 0 < r → a ≤ (cdiv (a * s) r * r) / s.
Proof. intros. apply fdiv_ge; [done|]. pose proof (cdiv_spec (a * s) r). nia. Qed.

Lemma floor_floor_round_trip a s r : 0 < s → 0 < r → (a * s / r * r) / s ≤ a.
Proof.
  intros. pose proof (fdiv_spec (a * s) r). pose proof (fdiv_spec (a * s / r * r) s). nia.
Qed.

Lemma ceil_of_floor a s r : 0 < s → 0 < r → cdiv ((a * r / s) * s) r ≤ a.
Proof. intros. apply cdiv_le; [done|]. pose proof (fdiv_spec (a * r) s). nia. Qed.

Lemma floor_of_ceil a s r : 0 < s → 0 < r → a ≤ (cdiv (a * r) s * s) / r.
Proof. intros. apply fdiv_ge; [done|]. pose proof (cdiv_spec (a * r) s). nia. Qed.

(** Converting a b-token amount to the asset and back up never burns more
    than was there; and a repay of the whole debt clears it. *)
Lemma b_up_of_asset (r : Reserve) b a t :
  0 < rd_b_rate (rs_data r) →
  to_asset_from_b_token r b = Ok a → to_b_token_up r a = Ok t → t ≤ b.
Proof. intros Hr Ha Ht. conversions. fixed_inv. apply ceil_of_floor; scalars; lia. Qed.

Lemma d_down_of_asset (r : Reserve) d a amount t :
  0 < rd_d_rate (rs_data r) →
  to_asset_from_d_token r d = Ok a → a ≤ amount →
  to_d_token_down r amount = Ok t → d ≤ t.
Proof.
  intros Hr Ha Hle Ht. conversions. fixed_inv.
  etrans; [apply (floor_of_ceil d SCALAR_12 (rd_d_rate (rs_data r)))|]; [done..|].
  apply fdiv_mono; [done|]. scalars. lia.
Qed.

Lemma b_up_covers (r : Reserve) a t a' :
  0 < rd_b_rate (rs_data r) →
  to_b_token_up r a = Ok t → to_asset_from_b_token r t = Ok a' → a ≤ a'.
Proof. intros Hr Ht Ha. conversions. fixed_inv. apply floor_ceil_round_trip; done. Qed.

Lemma b_down_within (r : Reserve) a t a' :
  0 < rd_b_rate (rs_data r) →
  to_b_token_down r a = Ok t → to_asset_from_b_token r t = Ok a' → a' ≤ a.
Proof. intros Hr Ht Ha. conversions. fixed_inv. apply floor_floor_round_trip; done. Qed.

(** ** Lemmas: accrual *)

Lemma current_rate_nonneg c u m v :
  wf_config c → 0 ≤ u → 0 ≤ m → current_rate c u m = Ok v → 0 ≤ v.
Proof.
  intros [] Hu Hm Hv. unfold current_rate in Hv. scalars.
  assert (∀ x y d, 0 ≤ x → 0 ≤ y → 0 < d → 0 ≤ cdiv (x * y) d) as Hc
    by (intros; apply cdiv_nonneg; nia).
  destruct (Z.leb_spec u (rc_util c)); [|destruct (Z.leb_spec u 9500000)];
    repeat (first [rust_step | fixed_step
      | match goal with H : (_ ← _; _) = Some _ |- _ => apply bind_Some in H as (? & ? & ?) end];
      cbn beta iota in * ); subst;
    repeat match goal with
    | |- 0 ≤ cdiv _ _ => apply Hc
    | |- 0 ≤ _ + _ => apply Z.add_nonneg_nonneg
    end; lia.
Qed.

Lemma next_ir_mod_range c dif err m v :
  IR_MOD_MIN ≤ m ≤ IR_MOD_MAX → 0 ≤ rc_reactivity c →
  (0 ≤ dif → 0 ≤ err) → (dif < 0 → err ≤ 0) →
  next_ir_mod c dif err m = Ok v → IR_MOD_MIN ≤ v ≤ IR_MOD_MAX.
Proof.
  intros Hm Hr Hpos Hneg Hv. unfold next_ir_mod in Hv.
  destruct (Z.leb_spec 0 dif); fixed_inv; subst.
  - assert (0 ≤ err * rc_reactivity c / SCALAR_7) by (apply fdiv_nonneg; scalars; nia). lia.
  - assert (cdiv (err * rc_reactivity c) SCALAR_7 ≤ 0) by (apply cdiv_le; scalars; nia). lia.
Qed.

Lemma calc_accrual_ok c u m t0 now a m' :
  wf_config c → 0 ≤ u → IR_MOD_MIN ≤ m ≤ IR_MOD_MAX →
  calc_accrual c u m t0 now = Ok (a, m') →
  SCALAR_12 ≤ a ∧ IR_MOD_MIN ≤ m' ≤ IR_MOD_MAX.
Proof.
  intros Hc Hu Hm H. unfold calc_accrual, u64_checked_sub in H.
  repeat (first [rust_step | progress cbn beta iota in * ]). subst.
  match goal with H : current_rate _ _ _ = _ |- _ =>
    apply current_rate_nonneg in H; [|first [done|scalars; lia]..] end.
  fixed_inv. split.
  - assert (0 ≤ Z.quot ((now - t0) * SCALAR_12) SECONDS_PER_YEAR)
      by (apply Z.quot_pos; scalars; lia).
    match goal with |- _ ≤ _ + cdiv (?q * ?r) _ =>
      assert (0 ≤ cdiv (q * r) SCALAR_7) by (apply cdiv_nonneg; scalars; nia) end. lia.
  - eapply next_ir_mod_range; [exact Hm|apply Hc| | |done]; nia.
Qed.

Lemma utilization_range r v :
  0 ≤ rd_d_rate (rs_data r) → 0 ≤ rd_d_supply (rs_data r) →
  0 ≤ rd_b_rate (rs_data r) → 0 ≤ rd_b_supply (rs_data r) →
  utilization r = Ok v → 0 ≤ v ≤ SCALAR_7.
Proof.
  intros. unfold utilization, total_liabilities, total_supply in *. conversions.
  repeat (first [rust_step | progress cbn beta iota in * ]); subst; [scalars; lia..|].
  fixed_inv.
  match goal with H : (_ <=? ?l) = false |- _ =>
    assert (0 ≤ l) by (apply cdiv_nonneg; scalars; nia) end.
  split; [apply cdiv_nonneg|apply cdiv_le]; scalars; nia.
Qed.

(** What handing out the interest leaves: [b_rate] does not fall, because the
    supply grew by at least one unit, and nothing else moves but the
    backstop's credit. *)
Lemma credit_interest_ok bstop supply accrued r r' :
  0 ≤ bstop < SCALAR_7 → 0 < accrued → 0 < rd_b_supply (rs_data r) →
  supply = rd_b_supply (rs_data r) * rd_b_rate (rs_data r) / SCALAR_12 →
  credit_interest bstop supply accrued r = (r', Ok ()) →
  ∃ credit, 0 ≤ credit < accrued ∧
    r' = set_b_rate ((supply + accrued - credit) * SCALAR_12 / rd_b_supply (rs_data r))
           (set_backstop_credit (rd_backstop_credit (rs_data r) + credit) r) ∧
    rd_b_rate (rs_data r) ≤ rd_b_rate (rs_data r') ∧
    rd_b_supply (rs_data r) * rd_b_rate (rs_data r') / SCALAR_12 ≤ supply + accrued - credit.
Proof.
  intros Hb Ha Hs Hsup H. unfold credit_interest in H.
  assert (∃ credit, 0 ≤ credit < accrued ∧
    r' = set_b_rate ((supply + accrued - credit) * SCALAR_12 / rd_b_supply (rs_data r))
           (set_backstop_credit (rd_backstop_credit (rs_data r) + credit) r)) as (c & Hc & ->).
  { destruct (Z.ltb_spec 0 bstop);
      repeat (first [rust_step | fixed_step
        | match goal with H : (_ ← _; _) = Some _ |- _ => apply bind_Some in H as (? & ? & ?) end];
        cbn beta iota in * ); subst.
    - eexists. split; [|reflexivity].
      pose proof (fdiv_spec (accrued * bstop) SCALAR_7). scalars. nia.
    - exists 0. split; [lia|]. rewrite Z.add_0_r.
      match goal with |- _ = set_b_rate _ (set_backstop_credit _ ?q) =>
        by destruct q as [? ? [] ?] end. }
  exists c. split_and!; [lia|lia|done|simpl|simpl].
  - apply fdiv_ge; [done|].
    pose proof (fdiv_spec (rd_b_supply (rs_data r) * rd_b_rate (rs_data r)) SCALAR_12).
    scalars. nia.
  - rewrite Z.mul_comm. apply floor_floor_round_trip; [done|done].
Qed.

(** ** Accrual, specified *)

(** What one accrual may do to a reserve: time moves to [now], both rates
    only grow, and what suppliers and the backstop gain is at most what the
    borrowers owe on top. *)
Record accrued_to (now : Z) (r r' : Reserve) : Prop := mkAccruedTo {
  ac_wf : wf_reserve r';
  ac_time : rd_last_time (rs_data r') = now;
  ac_asset : rs_asset r' = rs_asset r;
  ac_config : rs_config r' = rs_config r;
  ac_scalar : rs_scalar r' = rs_scalar r;
  ac_b_supply : rd_b_supply (rs_data r') = rd_b_supply (rs_data r);
  ac_d_supply : rd_d_supply (rs_data r') = rd_d_supply (rs_data r);
  ac_d_rate : rd_d_rate (rs_data r) ≤ rd_d_rate (rs_data r');
  ac_b_rate : rd_b_rate (rs_data r) ≤ rd_b_rate (rs_data r');
  ac_credit : rd_backstop_credit (rs_data r) ≤ rd_backstop_credit (rs_data r');
  ac_conserves :
    rd_b_supply (rs_data r) * rd_b_rate (rs_data r') / SCALAR_12
      - rd_b_supply (rs_data r) * rd_b_rate (rs_data r) / SCALAR_12
      + (rd_backstop_credit (rs_data r') - rd_backstop_credit (rs_data r))
    ≤ cdiv (rd_d_supply (rs_data r) * rd_d_rate (rs_data r')) SCALAR_12
      - cdiv (rd_d_supply (rs_data r) * rd_d_rate (rs_data r)) SCALAR_12;
}.

Lemma accrued_to_same now r :
  wf_reserve r → accrued_to now r (set_last_time now r).
Proof.
  intros Hwf. split; simpl; try lia; try done. by destruct Hwf; split.
Qed.

(** The step after [utilization]: the new [d_rate], and what the borrowers
    owe on top of what they did. *)
Lemma accrue_d_rate r a m :
  wf_reserve r → SCALAR_12 ≤ a → IR_MOD_MIN ≤ m ≤ IR_MOD_MAX →
  let d' := cdiv (a * rd_d_rate (rs_data r)) SCALAR_12 in
  rd_d_rate (rs_data r) ≤ d' ∧ wf_reserve (set_d_rate d' (set_ir_mod m r)).
Proof.
  intros [] Ha Hm d'.
  assert (rd_d_rate (rs_data r) ≤ d').
  { pose proof (cdiv_spec (a * rd_d_rate (rs_data r)) SCALAR_12). scalars. nia. }
  split; [done|]. split; simpl; try done; lia.
Qed.

Lemma liabilities_mono s d d' :
  0 ≤ s → d ≤ d' → cdiv (s * d) SCALAR_12 ≤ cdiv (s * d') SCALAR_12.
Proof. intros. apply cdiv_mono; [done|nia]. Qed.

Lemma accrue_unpaid now r a m :
  wf_reserve r → SCALAR_12 ≤ a → IR_MOD_MIN ≤ m ≤ IR_MOD_MAX →
  accrued_to now r (set_last_time now
    (set_d_rate (cdiv (a * rd_d_rate (rs_data r)) SCALAR_12) (set_ir_mod m r))).
Proof.
  intros Hwf Ha Hm. destruct (accrue_d_rate r a m) as [Hd Hwf']; [done..|].
  pose proof (liabilities_mono (rd_d_supply (rs_data r)) _ _ (wf_d_supply _ Hwf) Hd).
  split; simpl; try done; try lia. destruct Hwf'; by split.
Qed.

Lemma accrue_paid bstop now r r' a m :
  let d := cdiv (a * rd_d_rate (rs_data r)) SCALAR_12 in
  let accrued := cdiv (rd_d_supply (rs_data r) * d) SCALAR_12
    - cdiv (rd_d_supply (rs_data r) * rd_d_rate (rs_data r)) SCALAR_12 in
  wf_reserve r → 0 ≤ bstop < SCALAR_7 → 0 < rd_b_supply (rs_data r) →
  SCALAR_12 ≤ a → IR_MOD_MIN ≤ m ≤ IR_MOD_MAX → 0 < accrued →
  credit_interest bstop (rd_b_supply (rs_data r) * rd_b_rate (rs_data r) / SCALAR_12)
    accrued (set_d_rate d (set_ir_mod m r)) = (r', Ok ()) →
  accrued_to now r (set_last_time now r').
Proof.
  intros d accrued Hwf Hb Hs Ha Hm Hpos H.
  destruct (accrue_d_rate r a m) as [Hd Hwf']; [done..|].
  destruct (credit_interest_ok bstop _ accrued (set_d_rate d (set_ir_mod m r)) r' Hb Hpos Hs eq_refl H)
    as (c & Hc & -> & Hrate & Hcons). simpl in *.
  split; simpl; try done; try lia.
  destruct Hwf'; split; simpl in *; try done; lia.
Qed.

Lemma accrue_accrued_to bstop now r r' :
  wf_reserve r → 0 ≤ bstop < SCALAR_7 →
  accrue bstop now r = (r', Ok ()) → accrued_to now r r'.
Proof.
  intros Hwf Hb H. unfold accrue in H.
  destruct (Z.eqb_spec now (rd_last_time (rs_data r))) as [Ht|].
  { injection H as <-. split; try done; lia. }
  destruct (Z.ltb_spec now (rd_last_time (rs_data r))); [done|].
  destruct (Z.eqb_spec (rd_b_supply (rs_data r)) 0).
  { injection H as <-. by apply accrued_to_same. }
  assert (0 < rd_b_supply (rs_data r)) by (destruct Hwf; lia).
  rust_step. injection Hstep as <- Hutil. rust_step.
  { injection H as <-. by apply accrued_to_same. }
  repeat (rust_step; cbn beta iota in * ); subst; simpl.
  all: unfold total_supply, total_liabilities in *; conversions; fixed_inv; simpl in *.
  all: match goal with H : calc_accrual _ _ _ _ _ = _ |- _ =>
    apply calc_accrual_ok in H as [Ha Hm]; [|apply Hwf| |apply Hwf] end.
  all: match goal with
    | |- 0 ≤ _ => by eapply utilization_range in Hutil as [? ?]; destruct Hwf; try lia
    | _ => idtac end.
  - match goal with H : credit_interest _ _ _ _ = (_, Ok ?u) |- _ => destruct u end.
    eapply accrue_paid; try done. lia.
  - by apply accrue_unpaid.
Qed.

(** ** Properties *)

(** C35: accruing a well-formed reserve with a backstop rate below one, when
    it succeeds, leaves a well-formed reserve stamped with the new time whose
    [d_rate] and [b_rate] have not fallen, whose supplies, configuration and
    scalar are untouched, and in which the suppliers' and the backstop's
    gain, in underlying, is at most what the borrowers owe on top. *)
Theorem accrue_sound (bstop_rate now : Z) (r r' : Reserve)
  (Hwf : wf_reserve r) (Hbstop : 0 ≤ bstop_rate < SCALAR_7)
  (Hacc : accrue bstop_rate now r = (r', Ok ())) :
  accrued_to now r r'.
Proof. by eapply accrue_accrued_to. Qed.

Definition sample_config : ReserveConfig :=
  mkReserveConfig 0 7 7500000 7500000 4000000 7000000 100000 300000 3000000
    50000000 50 100000000000000000 true.
Definition sample_data : ReserveData :=
  mkReserveData 1001568283884 1000022303241 1000000 7654654078715796
    13201825877188 31426481 1788533688.
Definition sample_reserve : Reserve :=
  mkReserve "XLM" sample_config sample_data 10000000.

Lemma sample_reserve_wf : wf_reserve sample_reserve.
Proof. split; [split|..]; simpl; scalars; lia. Qed.

Lemma accrue_sound_witness :
  ∃ r', accrue 2000000 1788620088 sample_reserve = (r', Ok ()) ∧
        accrued_to 1788620088 sample_reserve r'.
Proof.
  eexists. split; [vm_compute; reflexivity|].
  eapply (accrue_sound 2000000 1788620088 sample_reserve);
    [apply sample_reserve_wf|scalars; lia|vm_compute; reflexivity].
Defined.

(** Accrual is a function of the ledger's close time. Accruing to the
    same second again changes nothing, and a time before the last update is
    refused with the reserve left exactly as it was. *)
Theorem accrue_idempotent (bstop_rate now : Z) (r r' : Reserve)
  (Hacc : accrue bstop_rate now r = (r', Ok ())) :
  accrue bstop_rate now r' = (r', Ok ()) ∧
  (∀ before, before < rd_last_time (rs_data r') →
    accrue bstop_rate before r' = (r', Err (InvalidInput "now is before last_time"))).
Proof.
  assert (rd_last_time (rs_data r') = now) as Ht.
  { unfold accrue in Hacc.
    destruct (Z.eqb_spec now (rd_last_time (rs_data r))); [by injection Hacc as <-|].
    destruct (now <? _); [done|]. destruct (_ =? 0); [by injection Hacc as <-|].
    rust_step. injection Hstep as <- _. rust_step; [by injection Hacc as <-|].
    repeat (rust_step; cbn beta iota in * ); by subst. }
  unfold accrue. rewrite Ht, Z.eqb_refl. split; [done|]. intros before Hlt.
  destruct (Z.eqb_spec before now); [lia|]. destruct (Z.ltb_spec before now); [done|lia].
Qed.

Lemma accrue_idempotent_witness :
  ∃ r', accrue 2000000 1788620088 sample_reserve = (r', Ok ()) ∧
        accrue 2000000 1788620088 r' = (r', Ok ()).
Proof.
  eexists. split; [vm_compute; reflexivity|].
  eapply (accrue_idempotent 2000000 1788620088 sample_reserve); vm_compute; reflexivity.
Defined.

(** The conversions favour the pool. An amount converted up to b-tokens
    is covered by them and one converted down does not exceed itself; the
    asset value of a b-token amount never burns more b-tokens than it came
    from; and paying at least the asset value of a debt burns all of it. *)
Theorem conversions_round_trip (r : Reserve) (a b d amount up down asset debt : Z)
  (burnt_b burnt_d up_value down_value : Z)
  (Hb : 0 < rd_b_rate (rs_data r)) (Hd : 0 < rd_d_rate (rs_data r))
  (Hup : to_b_token_up r a = Ok up) (Hupv : to_asset_from_b_token r up = Ok up_value)
  (Hdown : to_b_token_down r a = Ok down)
  (Hdownv : to_asset_from_b_token r down = Ok down_value)
  (Hasset : to_asset_from_b_token r b = Ok asset)
  (Hburnt : to_b_token_up r asset = Ok burnt_b)
  (Hdebt : to_asset_from_d_token r d = Ok debt) (Hpaid : debt ≤ amount)
  (Hrepay : to_d_token_down r amount = Ok burnt_d) :
  down_value ≤ a ≤ up_value ∧ burnt_b ≤ b ∧ d ≤ burnt_d.
Proof.
  split_and!.
  - by eapply b_down_within.
  - by eapply b_up_covers.
  - by eapply b_up_of_asset.
  - by eapply d_down_of_asset.
Qed.

Lemma conversions_round_trip_witness :
  1000020 ≤ 1000021 ≤ 1000021 ∧ 12345 ≤ 12345 ∧ 777 ≤ 777.
Proof.
  apply (conversions_round_trip sample_reserve 1000021 12345 777 779
    999999 999998 12345 779 12345 777 1000021 1000020); try reflexivity; simpl; lia.
Defined.
