(* ===== verification/Position.v ===== *)
(** * Positions, prices and the health factor ([src/math/position.rs]) *)

From S2P Require Import Prelude Fixed Reserve.

(** ** Data *)

Record Positions : Type := mkPositions {
  collateral : gmap Z Z;
  liabilities : gmap Z Z;
  supply : gmap Z Z;
}.

Definition empty_positions : Positions := mkPositions ∅ ∅ ∅.

Definition set_collateral (m : gmap Z Z) (p : Positions) : Positions :=
  mkPositions m (liabilities p) (supply p).
Definition set_liabilities (m : gmap Z Z) (p : Positions) : Positions :=
  mkPositions (collateral p) m (supply p).

(** [Positions::effective_count] and [Positions::is_empty]. *)
Definition effective_count (self : Positions) : Z :=
  Z.of_nat (size (collateral self)) + Z.of_nat (size (liabilities self)).
Definition is_empty (self : Positions) : bool :=
  bool_decide (collateral self = ∅) && bool_decide (liabilities self = ∅)
    && bool_decide (supply self = ∅).

Record OraclePrices : Type := mkOraclePrices {
  op_decimals : Z;
  op_scalar : Z;
  op_prices : gmap string Z;
}.

(** [OraclePrices::new]. *)
Definition oracle_new (decimals : Z) (prices : gmap string Z)
  : result MathError OraclePrices :=
  let? scalar := pow10 decimals in
  if existsb (λ p : string * Z, p.2 <=? 0) (bt_iter prices)
  then Err (InvalidInput "oracle price must be positive")
  else Ok (mkOraclePrices decimals scalar prices).

(** [OraclePrices::price]. *)
Definition price (self : OraclePrices) (asset : string) : result MathError Z :=
  ok_or (op_prices self !! asset) (MissingPrice asset).

Record PositionData : Type := mkPositionData {
  collateral_base : Z;
  collateral_raw : Z;
  liability_base : Z;
  liability_raw : Z;
  pd_scalar : Z;
}.

(** ** The health factor *)

Definition health_factor (self : PositionData) : result MathError (option Z) :=
  if liability_base self =? 0 then Ok None
  else
    let? hf := div_floor (collateral_base self) (liability_base self) (pd_scalar self) in
    Ok (Some hf).

Definition is_hf_over (self : PositionData) (max : Z) : result MathError bool :=
  let? hf := health_factor self in
  match hf with
  | None => Ok true
  | Some health_factor =>
      let? bound := mul_ceil (pd_scalar self) max SCALAR_7 in
      Ok (bound <? health_factor)
  end.

Definition is_hf_under (self : PositionData) (min : Z) : result MathError bool :=
  let? hf := health_factor self in
  match hf with
  | None => Ok false
  | Some health_factor =>
      let? bound := mul_floor (pd_scalar self) min SCALAR_7 in
      Ok (health_factor <? bound)
  end.

(** ** Valuing a position *)

Definition reserve_of (reserves : gmap Z Reserve) (index : Z) : result MathError Reserve :=
  ok_or (reserves !! index) (MissingReserve index).

(** The two loop bodies of [calculate_position_data]. *)
Definition add_collateral (reserves : gmap Z Reserve) (prices : OraclePrices)
    (data : PositionData) (entry : Z * Z) : result MathError PositionData :=
  let '(index, b_tokens) := entry in
  if b_tokens =? 0 then Ok data
  else
    let? reserve := reserve_of reserves index in
    let? p := price prices (rs_asset reserve) in
    let? effective := to_effective_asset_from_b_token reserve b_tokens in
    let? raw := to_asset_from_b_token reserve b_tokens in
    let? base_value := mul_floor p effective (rs_scalar reserve) in
    let? base := ok_or (checked_add (collateral_base data) base_value) Overflow in
    let? raw_value := mul_floor p raw (rs_scalar reserve) in
    let? raw_total := ok_or (checked_add (collateral_raw data) raw_value) Overflow in
    Ok (mkPositionData base raw_total (liability_base data) (liability_raw data)
          (pd_scalar data)).

Definition add_liability (reserves : gmap Z Reserve) (prices : OraclePrices)
    (data : PositionData) (entry : Z * Z) : result MathError PositionData :=
  let '(index, d_tokens) := entry in
  if d_tokens =? 0 then Ok data
  else
    let? reserve := reserve_of reserves index in
    let? p := price prices (rs_asset reserve) in
    let? effective := to_effective_asset_from_d_token reserve d_tokens in
    let? raw := to_asset_from_d_token reserve d_tokens in
    let? base_value := mul_ceil p effective (rs_scalar reserve) in
    let? base := ok_or (checked_add (liability_base data) base_value) Overflow in
    let? raw_value := mul_ceil p raw (rs_scalar reserve) in
    let? raw_total := ok_or (checked_add (liability_raw data) raw_value) Overflow in
    Ok (mkPositionData (collateral_base data) (collateral_raw data) base raw_total
          (pd_scalar data)).

Definition calculate_position_data (reserves : gmap Z Reserve) (prices : OraclePrices)
    (positions : Positions) : result MathError PositionData :=
  let? data := try_fold (add_collateral reserves prices)
    (mkPositionData 0 0 0 0 (op_scalar prices)) (bt_iter (collateral positions)) in
  try_fold (add_liability reserves prices) data (bt_iter (liabilities positions)).

(** ** What a position is worth

    The values of one entry, as mathematical integers: what the contract's
    rounding gives before any width is checked. *)

Definition b_asset (r : Reserve) (b : Z) : Z := b * rd_b_rate (rs_data r) / SCALAR_12.
Definition d_asset (r : Reserve) (d : Z) : Z := cdiv (d * rd_d_rate (rs_data r)) SCALAR_12.
Definition b_raw (p : Z) (r : Reserve) (b : Z) : Z := p * b_asset r b / rs_scalar r.
Definition b_base (p : Z) (r : Reserve) (b : Z) : Z :=
  p * (b_asset r b * rc_c_factor (rs_config r) / SCALAR_7) / rs_scalar r.
Definition d_raw (p : Z) (r : Reserve) (d : Z) : Z := cdiv (p * d_asset r d) (rs_scalar r).
Definition d_base (p : Z) (r : Reserve) (d : Z) : Z :=
  cdiv (p * cdiv (d_asset r d * SCALAR_7) (rc_l_factor (rs_config r))) (rs_scalar r).

(** The value of an entry in a pool; an entry of zero is worth nothing. *)
Definition entry_value (f : Z → Reserve → Z → Z) (reserves : gmap Z Reserve)
    (prices : OraclePrices) (entry : Z * Z) : Z :=
  match reserves !! entry.1 with
  | Some r =>
      match op_prices prices !! rs_asset r with
      | Some p => f p r entry.2
      | None => 0
      end
  | None => 0
  end.

(** The entry's reserve and price are in the caller's view of the pool. *)
Definition known_entry (reserves : gmap Z Reserve) (prices : OraclePrices)
    (entry : Z * Z) : Prop :=
  entry.2 = 0 ∨ ∃ r p, reserves !! entry.1 = Some r ∧ op_prices prices !! rs_asset r = Some p.

Lemma effective_b_ok r b v :
  to_effective_asset_from_b_token r b = Ok v →
  v = b_asset r b * rc_c_factor (rs_config r) / SCALAR_7.
Proof. unfold to_effective_asset_from_b_token. conversions. intros. by fixed_inv; subst. Qed.
Lemma effective_d_ok r d v :
  to_effective_asset_from_d_token r d = Ok v →
  v = cdiv (d_asset r d * SCALAR_7) (rc_l_factor (rs_config r)).
Proof. unfold to_effective_asset_from_d_token. conversions. intros. by fixed_inv; subst. Qed.
Lemma asset_b_ok r b v : to_asset_from_b_token r b = Ok v → v = b_asset r b.
Proof. conversions. intros. by fixed_inv; subst. Qed.
Lemma asset_d_ok r d v : to_asset_from_d_token r d = Ok v → v = d_asset r d.
Proof. conversions. intros. by fixed_inv; subst. Qed.
Lemma reserve_of_ok reserves i r : reserve_of reserves i = Ok r ↔ reserves !! i = Some r.
Proof. apply ok_or_ok. Qed.
Lemma price_ok prices a p : price prices a = Ok p ↔ op_prices prices !! a = Some p.
Proof. apply ok_or_ok. Qed.

Ltac value_step :=
  match goal with
  | H : to_effective_asset_from_b_token _ _ = Ok _ |- _ => apply effective_b_ok in H as ->
  | H : to_effective_asset_from_d_token _ _ = Ok _ |- _ => apply effective_d_ok in H as ->
  | H : to_asset_from_b_token _ _ = Ok _ |- _ => apply asset_b_ok in H as ->
  | H : to_asset_from_d_token _ _ = Ok _ |- _ => apply asset_d_ok in H as ->
  | H : reserve_of _ _ = Ok _ |- _ => apply reserve_of_ok in H
  | H : price _ _ = Ok _ |- _ => apply price_ok in H
  end.
Ltac value_inv := repeat (first [rust_step | fixed_step | value_step]; cbn beta iota in * ).

Lemma add_collateral_ok reserves prices data e data' :
  add_collateral reserves prices data e = Ok data' →
  known_entry reserves prices e ∧
  data' = mkPositionData
    (collateral_base data + (if e.2 =? 0 then 0 else entry_value b_base reserves prices e))
    (collateral_raw data + (if e.2 =? 0 then 0 else entry_value b_raw reserves prices e))
    (liability_base data) (liability_raw data) (pd_scalar data).
Proof.
  destruct e as [i b]. unfold add_collateral, known_entry, entry_value. simpl.
  destruct (Z.eqb_spec b 0) as [->|Hb]; intros H.
  { injection H as <-. split; [by left|]. destruct data; simpl. f_equal; lia. }
  value_inv. subst. split; [right; eauto|].
  match goal with H : reserves !! i = _ |- _ => rewrite H end.
  match goal with H : op_prices _ !! _ = _ |- _ => rewrite H end. done.
Qed.

Lemma add_liability_ok reserves prices data e data' :
  add_liability reserves prices data e = Ok data' →
  known_entry reserves prices e ∧
  data' = mkPositionData (collateral_base data) (collateral_raw data)
    (liability_base data + (if e.2 =? 0 then 0 else entry_value d_base reserves prices e))
    (liability_raw data + (if e.2 =? 0 then 0 else entry_value d_raw reserves prices e))
    (pd_scalar data).
Proof.
  destruct e as [i b]. unfold add_liability, known_entry, entry_value. simpl.
  destruct (Z.eqb_spec b 0) as [->|Hb]; intros H.
  { injection H as <-. split; [by left|]. destruct data; simpl. f_equal; lia. }
  value_inv. subst. split; [right; eauto|].
  match goal with H : reserves !! i = _ |- _ => rewrite H end.
  match goal with H : op_prices _ !! _ = _ |- _ => rewrite H end. done.
Qed.

Definition side_value (f : Z → Reserve → Z → Z) (reserves : gmap Z Reserve)
    (prices : OraclePrices) (m : gmap Z Z) : Z :=
  zsum (entry_value f reserves prices) (map_to_list m).

(** The reference definition: four sums over the entries. *)
Definition position_value (reserves : gmap Z Reserve) (prices : OraclePrices)
    (positions : Positions) : PositionData :=
  mkPositionData
    (side_value b_base reserves prices (collateral positions))
    (side_value b_raw reserves prices (collateral positions))
    (side_value d_base reserves prices (liabilities positions))
    (side_value d_raw reserves prices (liabilities positions))
    (op_scalar prices).

Definition known_side (reserves : gmap Z Reserve) (prices : OraclePrices)
    (m : gmap Z Z) : Prop := ∀ i a, m !! i = Some a → known_entry reserves prices (i, a).

Definition zero_value (f : Z → Reserve → Z → Z) : Prop := ∀ p r, f p r 0 = 0.

Lemma b_asset_zero r : b_asset r 0 = 0.
Proof. done. Qed.
Lemma d_asset_zero r : d_asset r 0 = 0.
Proof. done. Qed.
Lemma b_base_zero : zero_value b_base.
Proof. intros p r. unfold b_base. by rewrite b_asset_zero, Z.mul_0_l, Z.mul_0_r, Zdiv_0_l. Qed.
Lemma b_raw_zero : zero_value b_raw.
Proof. intros p r. unfold b_raw. by rewrite b_asset_zero, Z.mul_0_r, Zdiv_0_l. Qed.
Lemma cdiv_zero b : cdiv 0 b = 0.
Proof. done. Qed.
Lemma d_base_zero : zero_value d_base.
Proof. intros p r. unfold d_base. by rewrite d_asset_zero, Z.mul_0_l, !cdiv_zero, Z.mul_0_r. Qed.
Lemma d_raw_zero : zero_value d_raw.
Proof. intros p r. unfold d_raw. by rewrite d_asset_zero, Z.mul_0_r. Qed.
#[export] Hint Resolve b_base_zero b_raw_zero d_base_zero d_raw_zero : rust.

Lemma entry_value_zero f reserves prices e :
  zero_value f → e.2 = 0 → entry_value f reserves prices e = 0.
Proof.
  intros Hf He. unfold entry_value. rewrite He.
  repeat case_match; try done; apply Hf.
Qed.

Lemma skip_zero f reserves prices e :
  zero_value f →
  (if e.2 =? 0 then 0 else entry_value f reserves prices e) = entry_value f reserves prices e.
Proof. intros. destruct (Z.eqb_spec e.2 0); [by rewrite entry_value_zero|done]. Qed.

Lemma side_value_iter f reserves prices m :
  side_value f reserves prices m = zsum (entry_value f reserves prices) (bt_iter m).
Proof. unfold side_value. by rewrite bt_iter_perm. Qed.

Lemma calculate_collateral_ok reserves prices d0 m d :
  try_fold (add_collateral reserves prices) d0 (bt_iter m) = Ok d →
  known_side reserves prices m ∧
  d = mkPositionData
    (collateral_base d0 + side_value b_base reserves prices m)
    (collateral_raw d0 + side_value b_raw reserves prices m)
    (liability_base d0) (liability_raw d0) (pd_scalar d0).
Proof.
  intros H.
  apply (try_fold_prefix _ (λ l d, Forall (known_entry reserves prices) l ∧
    d = mkPositionData
      (collateral_base d0 + zsum (entry_value b_base reserves prices) l)
      (collateral_raw d0 + zsum (entry_value b_raw reserves prices) l)
      (liability_base d0) (liability_raw d0) (pd_scalar d0))) in H.
  - destruct H as [Hk ->]. split; [|by rewrite !side_value_iter].
    intros i a Hia. rewrite Forall_forall in Hk. by apply Hk, bt_iter_elem.
  - split; [constructor|]. destruct d0; simpl. by rewrite !Z.add_0_r.
  - intros l1 e l2 x y _ [Hk ->] Hstep. apply add_collateral_ok in Hstep as [He ->].
    rewrite !skip_zero by auto with rust. simpl. split.
    + by rewrite Forall_app, Forall_singleton.
    + rewrite !zsum_snoc. f_equal; lia.
Qed.

Lemma calculate_liabilities_ok reserves prices d0 m d :
  try_fold (add_liability reserves prices) d0 (bt_iter m) = Ok d →
  known_side reserves prices m ∧
  d = mkPositionData (collateral_base d0) (collateral_raw d0)
    (liability_base d0 + side_value d_base reserves prices m)
    (liability_raw d0 + side_value d_raw reserves prices m) (pd_scalar d0).
Proof.
  intros H.
  apply (try_fold_prefix _ (λ l d, Forall (known_entry reserves prices) l ∧
    d = mkPositionData (collateral_base d0) (collateral_raw d0)
      (liability_base d0 + zsum (entry_value d_base reserves prices) l)
      (liability_raw d0 + zsum (entry_value d_raw reserves prices) l)
      (pd_scalar d0))) in H.
  - destruct H as [Hk ->]. split; [|by rewrite !side_value_iter].
    intros i a Hia. rewrite Forall_forall in Hk. by apply Hk, bt_iter_elem.
  - split; [constructor|]. destruct d0; simpl. by rewrite !Z.add_0_r.
  - intros l1 e l2 x y _ [Hk ->] Hstep. apply add_liability_ok in Hstep as [He ->].
    rewrite !skip_zero by auto with rust. simpl. split.
    + by rewrite Forall_app, Forall_singleton.
    + rewrite !zsum_snoc. f_equal; lia.
Qed.

(** The valuation is its reference, over a complete view of the pool. *)
Lemma calculate_position_data_ok reserves prices positions data :
  calculate_position_data reserves prices positions = Ok data →
  known_side reserves prices (collateral positions) ∧
  known_side reserves prices (liabilities positions) ∧
  data = position_value reserves prices positions.
Proof.
  unfold calculate_position_data. intros H. rust_inv.
  apply calculate_collateral_ok in Hstep as [Hc ->].
  apply calculate_liabilities_ok in H as [Hl ->]. simpl. done.
Qed.

(** ** Algebra of the sides *)

Lemma side_value_insert_new f reserves prices m i a :
  m !! i = None →
  side_value f reserves prices (<[i:=a]> m)
  = entry_value f reserves prices (i, a) + side_value f reserves prices m.
Proof. intros. unfold side_value. by rewrite map_to_list_insert. Qed.

Lemma side_value_lookup f reserves prices m i a :
  m !! i = Some a →
  side_value f reserves prices m
  = entry_value f reserves prices (i, a) + side_value f reserves prices (delete i m).
Proof.
  intros Hi. rewrite <-(insert_delete_id m i a) at 1 by done.
  apply side_value_insert_new. apply lookup_delete_eq.
Qed.

Lemma side_value_insert f reserves prices m i a :
  side_value f reserves prices (<[i:=a]> m)
  = entry_value f reserves prices (i, a) + side_value f reserves prices (delete i m).
Proof.
  rewrite <-insert_delete_eq. apply side_value_insert_new, lookup_delete_eq.
Qed.

Lemma side_value_delete f reserves prices m i :
  zero_value f →
  side_value f reserves prices (delete i m)
  = side_value f reserves prices m - entry_value f reserves prices (i, get_or_zero m i).
Proof.
  intros Hf. unfold get_or_zero. destruct (m !! i) as [a|] eqn:Hi; simpl.
  - rewrite (side_value_lookup f reserves prices m i a Hi). lia.
  - rewrite delete_id by done. rewrite entry_value_zero by done. lia.
Qed.

Lemma side_value_empty f reserves prices : side_value f reserves prices ∅ = 0.
Proof. unfold side_value. by rewrite map_to_list_empty. Qed.

(** ** Well-formed pools and positions *)

Record wf_pool (reserves : gmap Z Reserve) (prices : OraclePrices) : Prop := mkWfPool {
  wf_reserves : ∀ i r, reserves !! i = Some r → wf_reserve r;
  wf_prices : ∀ a p, op_prices prices !! a = Some p → 0 < p;
  wf_oracle_scalar : 0 < op_scalar prices;
}.

Definition nonneg_map (m : gmap Z Z) : Prop := ∀ i a, m !! i = Some a → 0 ≤ a.

Record wf_positions (p : Positions) : Prop := mkWfPositions {
  wf_collateral : nonneg_map (collateral p);
  wf_liabilities : nonneg_map (liabilities p);
  wf_supply : nonneg_map (supply p);
}.

Lemma nonneg_map_get m i : nonneg_map m → 0 ≤ get_or_zero m i.
Proof. intros Hm. unfold get_or_zero. destruct (m !! i) eqn:Hi; simpl; [by eapply Hm|lia]. Qed.
Lemma nonneg_map_insert m i a : nonneg_map m → 0 ≤ a → nonneg_map (<[i:=a]> m).
Proof. intros Hm Ha j v. rewrite lookup_insert_Some. naive_solver. Qed.
Lemma nonneg_map_delete m i : nonneg_map m → nonneg_map (delete i m).
Proof. intros Hm j v. rewrite lookup_delete_Some. naive_solver. Qed.
Lemma nonneg_map_empty : nonneg_map ∅.
Proof. intros i a. by rewrite lookup_empty. Qed.
#[export] Hint Resolve nonneg_map_insert nonneg_map_delete nonneg_map_empty : rust.

Section entry_bounds.
Context (p : Z) (r : Reserve) (Hwf : wf_reserve r) (Hp : 0 < p).

Lemma b_asset_mono b b' : b ≤ b' → b_asset r b ≤ b_asset r b'.
Proof. intros. unfold b_asset. apply fdiv_mono; [done|]. destruct Hwf. nia. Qed.
Lemma d_asset_mono b b' : b ≤ b' → d_asset r b ≤ d_asset r b'.
Proof. intros. unfold d_asset. apply cdiv_mono; [done|]. destruct Hwf. nia. Qed.

Lemma b_base_mono b b' : b ≤ b' → b_base p r b ≤ b_base p r b'.
Proof.
  intros Hb. pose proof (b_asset_mono _ _ Hb). unfold b_base.
  apply fdiv_mono; [apply Hwf|]. apply Z.mul_le_mono_nonneg_l; [lia|].
  apply fdiv_mono; [done|]. pose proof (wf_c_factor _ (wf_cfg _ Hwf)). nia.
Qed.
Lemma b_raw_mono b b' : b ≤ b' → b_raw p r b ≤ b_raw p r b'.
Proof.
  intros Hb. pose proof (b_asset_mono _ _ Hb). unfold b_raw.
  apply fdiv_mono; [apply Hwf|]. nia.
Qed.
Lemma d_base_mono d d' : d ≤ d' → d_base p r d ≤ d_base p r d'.
Proof.
  intros Hb. pose proof (d_asset_mono _ _ Hb). unfold d_base.
  apply cdiv_mono; [apply Hwf|]. apply Z.mul_le_mono_nonneg_l; [lia|].
  apply cdiv_mono; [apply (wf_l_factor _ (wf_cfg _ Hwf))|]. scalars. nia.
Qed.
Lemma d_raw_mono d d' : d ≤ d' → d_raw p r d ≤ d_raw p r d'.
Proof.
  intros Hb. pose proof (d_asset_mono _ _ Hb). unfold d_raw.
  apply cdiv_mono; [apply Hwf|]. nia.
Qed.

Lemma b_base_le_raw b : 0 ≤ b → b_base p r b ≤ b_raw p r b.
Proof.
  intros Hb. pose proof (b_asset_mono 0 b Hb) as Ha. rewrite b_asset_zero in Ha.
  unfold b_base, b_raw. apply fdiv_mono; [apply Hwf|].
  apply Z.mul_le_mono_nonneg_l; [lia|]. apply Z.div_le_upper_bound; [done|].
  pose proof (wf_c_factor _ (wf_cfg _ Hwf)). nia.
Qed.
Lemma d_raw_le_base d : 0 ≤ d → d_raw p r d ≤ d_base p r d.
Proof.
  intros Hb. pose proof (d_asset_mono 0 d Hb) as Ha. rewrite d_asset_zero in Ha.
  unfold d_base, d_raw. apply cdiv_mono; [apply Hwf|].
  apply Z.mul_le_mono_nonneg_l; [lia|].
  destruct (wf_l_factor _ (wf_cfg _ Hwf)) as [Hl1 Hl2].
  pose proof (cdiv_spec (d_asset r d * SCALAR_7) _ Hl1). nia.
Qed.

Lemma b_base_nonneg b : 0 ≤ b → 0 ≤ b_base p r b.
Proof. intros. rewrite <-(b_base_zero p r) at 1. by apply b_base_mono. Qed.
Lemma d_raw_nonneg d : 0 ≤ d → 0 ≤ d_raw p r d.
Proof. intros. rewrite <-(d_raw_zero p r) at 1. by apply d_raw_mono. Qed.
End entry_bounds.

Section side_bounds.
Context (reserves : gmap Z Reserve) (prices : OraclePrices) (Hpool : wf_pool reserves prices).

Lemma entry_value_le f g e :
  (∀ p r, wf_reserve r → 0 < p → f p r e.2 ≤ g p r e.2) →
  entry_value f reserves prices e ≤ entry_value g reserves prices e.
Proof.
  intros Hfg. unfold entry_value. destruct Hpool.
  repeat case_match; try done. apply Hfg; eauto.
Qed.

Lemma side_value_le f g m :
  (∀ p r a, wf_reserve r → 0 < p → 0 ≤ a → f p r a ≤ g p r a) →
  nonneg_map m → side_value f reserves prices m ≤ side_value g reserves prices m.
Proof.
  intros Hfg Hm. apply zsum_le. intros [i a] Hin. apply elem_of_map_to_list in Hin.
  apply entry_value_le. simpl. eauto.
Qed.

Lemma entry_value_nonneg f e :
  (∀ p r, wf_reserve r → 0 < p → 0 ≤ f p r e.2) → 0 ≤ entry_value f reserves prices e.
Proof.
  intros Hf. transitivity (entry_value (λ _ _ _, 0) reserves prices e).
  - unfold entry_value. by repeat case_match.
  - by apply entry_value_le.
Qed.

Lemma side_value_nonneg f m :
  (∀ p r a, wf_reserve r → 0 < p → 0 ≤ a → 0 ≤ f p r a) →
  nonneg_map m → 0 ≤ side_value f reserves prices m.
Proof.
  intros Hf Hm. apply zsum_nonneg. intros [i a] Hin. apply elem_of_map_to_list in Hin.
  apply entry_value_nonneg. simpl. eauto.
Qed.

Lemma entry_value_mono f i a b :
  (∀ p r, wf_reserve r → 0 < p → f p r a ≤ f p r b) →
  entry_value f reserves prices (i, a) ≤ entry_value f reserves prices (i, b).
Proof.
  intros Hf. unfold entry_value. simpl. destruct Hpool.
  destruct (reserves !! i) as [r|] eqn:?; [|done].
  destruct (op_prices prices !! rs_asset r) as [p|] eqn:?; [|done]. eauto.
Qed.
End side_bounds.

(** ** The health factor against the exact ratio *)

Lemma hf_under_none data min : liability_base data = 0 → is_hf_under data min = Ok false.
Proof. intros H. unfold is_hf_under, health_factor. by rewrite H. Qed.

Lemma hf_under_ok data min k b :
  0 < liability_base data → 0 < k → pd_scalar data = SCALAR_7 * k →
  is_hf_under data min = Ok b →
  b = (collateral_base data * SCALAR_7 <? liability_base data * min).
Proof.
  intros Hl Hk Hs H. unfold is_hf_under, health_factor in H. rewrite Hs in H.
  destruct (Z.eqb_spec (liability_base data) 0); [lia|]. fixed_inv. subst. fixed_inv. subst b.
  replace (SCALAR_7 * k * min / SCALAR_7) with (k * min)
    by (rewrite <-Z.mul_assoc, (Z.mul_comm SCALAR_7), Z.div_mul; done).
  set (c := collateral_base data) in *. set (l := liability_base data) in *.
  pose proof (fdiv_spec (c * (SCALAR_7 * k)) l Hl) as Hd.
  destruct (Z.ltb_spec (c * (SCALAR_7 * k) / l) (k * min)) as [Hlt|Hge];
    destruct (Z.ltb_spec (c * SCALAR_7) (l * min)) as [Hlt'|Hge']; try done; exfalso.
  - assert (l * (c * (SCALAR_7 * k) / l + 1) ≤ l * (k * min)) by nia. nia.
  - assert (l * (k * min) ≤ l * (c * (SCALAR_7 * k) / l)) by nia. nia.
Qed.

(** ** Properties *)

(** C38: valuing a position is its reference definition. A successful
    valuation is the four sums of the entries' values — collateral rounded
    down, liabilities rounded up, at every step — and every non-zero entry's
    reserve and price were in the caller's view: nothing missing was read as
    a zero. *)
Theorem position_data_is_reference (reserves : gmap Z Reserve) (prices : OraclePrices)
  (positions : Positions) (data : PositionData)
  (Hok : calculate_position_data reserves prices positions = Ok data) :
  data = position_value reserves prices positions ∧
  known_side reserves prices (collateral positions) ∧
  known_side reserves prices (liabilities positions).
Proof. by apply calculate_position_data_ok in Hok as (? & ? & ?). Qed.

Definition other_reserve : Reserve :=
  mkReserve "USDC" (mkReserveConfig 1 7 9500000 9500000 4000000 7000000 100000 300000
    3000000 50000000 50 100000000000000000 true) sample_data 10000000.
Definition two_pool : gmap Z Reserve := {[ 0 := sample_reserve; 1 := other_reserve ]}.
Definition two_prices : OraclePrices :=
  mkOraclePrices 7 10000000 {[ "XLM" := 1200000; "USDC" := 10000000 ]}.
Definition two_positions : Positions :=
  mkPositions {[ 0 := 50000000; 1 := 10000000 ]} {[ 0 := 20000000; 1 := 9000000 ]} ∅.
Definition sample_pool : gmap Z Reserve := {[ 0 := sample_reserve ]}.
Definition sample_prices : OraclePrices :=
  mkOraclePrices 7 10000000 {[ "XLM" := 1200000 ]}.
Definition sample_positions : Positions :=
  mkPositions {[ 0 := 50000000 ]} {[ 0 := 20000000 ]} ∅.

Lemma position_data_is_reference_witness :
  calculate_position_data sample_pool sample_prices sample_positions
    = Ok (mkPositionData 4500100 6000133 3205019 2403764 10000000) ∧
  position_value sample_pool sample_prices sample_positions
    = mkPositionData 4500100 6000133 3205019 2403764 10000000.
Proof.
  split; [vm_compute; reflexivity|].
  symmetry. apply (position_data_is_reference sample_pool sample_prices sample_positions).
  vm_compute; reflexivity.
Defined.

(** On a well-formed pool the factors only make a position look worse:
    effective collateral is at most raw collateral and effective liabilities
    are at least raw liabilities, and none of the four is negative. *)
Theorem factors_are_conservative (reserves : gmap Z Reserve) (prices : OraclePrices)
  (positions : Positions) (data : PositionData)
  (Hpool : wf_pool reserves prices) (Hpos : wf_positions positions)
  (Hok : calculate_position_data reserves prices positions = Ok data) :
  0 ≤ collateral_base data ≤ collateral_raw data ∧
  0 ≤ liability_raw data ≤ liability_base data.
Proof.
  apply calculate_position_data_ok in Hok as (_ & _ & ->). destruct Hpos. simpl.
  split_and!.
  - eapply side_value_nonneg; eauto using b_base_nonneg.
  - eapply side_value_le; eauto using b_base_le_raw.
  - eapply side_value_nonneg; eauto using d_raw_nonneg.
  - eapply side_value_le; eauto using d_raw_le_base.
Qed.

Lemma sample_pool_wf : wf_pool sample_pool sample_prices.
Proof.
  split; [| |done].
  - intros i r. unfold sample_pool. intros [_ <-]%lookup_singleton_Some.
    apply sample_reserve_wf.
  - intros a p. simpl. by intros [_ <-]%lookup_singleton_Some.
Qed.
Lemma two_pool_wf : wf_pool two_pool two_prices.
Proof.
  split; [| |done].
  - intros i r. unfold two_pool.
    intros [[_ <-]|[_ [_ <-]%lookup_singleton_Some]]%lookup_insert_Some;
      [apply sample_reserve_wf|]. split; [split|..]; simpl; scalars; lia.
  - intros a p. simpl.
    intros [[_ <-]|[_ [_ <-]%lookup_singleton_Some]]%lookup_insert_Some; done.
Qed.
Lemma nonneg_map_singleton i a : 0 ≤ a → nonneg_map {[ i := a ]}.
Proof. intros Ha j v [_ <-]%lookup_singleton_Some. done. Qed.
Lemma two_positions_wf : wf_positions two_positions.
Proof.
  split; simpl; repeat first [apply nonneg_map_insert | apply nonneg_map_singleton
    | apply nonneg_map_empty]; lia.
Qed.
#[export] Hint Resolve nonneg_map_singleton two_pool_wf two_positions_wf : rust.
Lemma sample_positions_wf : wf_positions sample_positions.
Proof. split; intros i a; simpl; [intros [_ <-]%lookup_singleton_Some..|by rewrite lookup_empty]; lia. Qed.

Lemma factors_are_conservative_witness :
  0 ≤ 4500100 ≤ 6000133 ∧ 0 ≤ 2403764 ≤ 3205019.
Proof.
  apply (factors_are_conservative sample_pool sample_prices sample_positions
    (mkPositionData 4500100 6000133 3205019 2403764 10000000)).
  - apply sample_pool_wf.
  - apply sample_positions_wf.
  - vm_compute; reflexivity.
Defined.

(** With an oracle of at least seven decimals the two roundings of the
    health check cancel: [is_hf_under] answers the exact comparison of
    collateral with liabilities times the floor, and a position without
    liabilities is never under anything. *)
Theorem hf_under_is_exact (data : PositionData) (min k : Z) (under : bool)
  (Hliab : 0 ≤ liability_base data) (Hk : 0 < k)
  (Hscalar : pd_scalar data = SCALAR_7 * k)
  (Hok : is_hf_under data min = Ok under) :
  under = (0 <? liability_base data)
          && (collateral_base data * SCALAR_7 <? liability_base data * min).
Proof.
  destruct (Z.eqb_spec (liability_base data) 0) as [H0|].
  - rewrite hf_under_none in Hok by done. injection Hok as <-. by rewrite H0.
  - destruct (Z.ltb_spec 0 (liability_base data)); [|lia].
    rewrite andb_true_l. by apply (hf_under_ok data min k under).
Qed.

Lemma hf_under_is_exact_witness :
  is_hf_under (mkPositionData 4500100 6000133 3205019 2403764 10000000) 14040790 = Ok false ∧
  is_hf_under (mkPositionData 4500100 6000133 3205019 2403764 10000000) 14040791 = Ok true ∧
  true = (0 <? 3205019) && (4500100 * SCALAR_7 <? 3205019 * 14040791).
Proof.
  split_and!; [vm_compute; reflexivity..|].
  apply (hf_under_is_exact (mkPositionData 4500100 6000133 3205019 2403764 10000000)
    14040791 1); try done. 
Defined.

(** An entry of zero and an absent entry are the same position: deleting
    it changes neither the valuation nor the error it fails with, whatever
    the caller's view of the pool. *)
Theorem zero_entries_are_absent (reserves : gmap Z Reserve) (prices : OraclePrices)
  (positions : Positions) (i : Z)
  (Hc : get_or_zero (collateral positions) i = 0)
  (Hl : get_or_zero (liabilities positions) i = 0) :
  calculate_position_data reserves prices
    (set_collateral (delete i (collateral positions))
      (set_liabilities (delete i (liabilities positions)) positions))
  = calculate_position_data reserves prices positions.
Proof.
  assert (∀ m e, get_or_zero m i = 0 → e ∈ bt_iter m → ¬ e.1 ≠ i → e.2 = 0) as Hz.
  { intros m [j a] Hm Hin Hj. apply bt_iter_elem in Hin. simpl in *.
    assert (j = i) as -> by (destruct (decide (j = i)); [done|by destruct Hj]).
    unfold get_or_zero in Hm. by rewrite Hin in Hm. }
  unfold calculate_position_data. simpl. rewrite !bt_iter_delete.
  rewrite (try_fold_filter (add_collateral reserves prices)).
  - destruct (try_fold (add_collateral reserves prices) _ _) as [d|]; [|done]. simpl.
    apply try_fold_filter. intros x [j a] Hin Hj.
    specialize (Hz _ _ Hl Hin Hj). simpl in Hz. by subst a.
  - intros x [j a] Hin Hj. specialize (Hz _ _ Hc Hin Hj). simpl in Hz. by subst a.
Qed.

Lemma zero_entries_are_absent_witness :
  calculate_position_data sample_pool sample_prices sample_positions
  = calculate_position_data sample_pool sample_prices
      (mkPositions {[ 0 := 50000000; 9 := 0 ]} {[ 0 := 20000000 ]} ∅).
Proof.
  etrans; [|apply (zero_entries_are_absent sample_pool sample_prices
    (mkPositions {[ 0 := 50000000; 9 := 0 ]} {[ 0 := 20000000 ]} ∅) 9); reflexivity].
  vm_compute; reflexivity.
Defined.

(** Every snapshot [OraclePrices::new] builds has strictly positive
    prices and the scalar [10^decimals], and one non-positive price is
    refused. A price looked up is therefore never a zero; an unpriced asset
    is [MissingPrice]. *)
Theorem oracle_prices_positive (decimals : Z) (prices : gmap string Z)
  (Hdec : is_u32 decimals) :
  (∀ snapshot, oracle_new decimals prices = Ok snapshot →
     op_scalar snapshot = 10 ^ decimals ∧
     ∀ asset, match price snapshot asset with
              | Ok p => 0 < p ∧ prices !! asset = Some p
              | Err e => e = MissingPrice asset ∧ prices !! asset = None
              end) ∧
  (∀ asset p, prices !! asset = Some p → p ≤ 0 → is_ok (oracle_new decimals prices) = false).
Proof.
  split.
  - intros snapshot Hok. unfold oracle_new in Hok.
    apply bind_ok in Hok as (s & [-> _]%pow10_ok & Hok).
    destruct (existsb _ _) eqn:Hex; [done|]. injection Hok as <-. split; [done|].
    intros asset. unfold price. simpl. destruct (prices !! asset) as [p|] eqn:Hp; [|done].
    split; [|done]. destruct (Z.leb_spec p 0) as [Hle|]; [|lia]. exfalso.
    rewrite <-not_true_iff_false, existsb_exists in Hex. apply Hex.
    exists (asset, p). rewrite <-list_elem_of_In, bt_iter_elem. simpl. split; [done|lia].
  - intros asset p Hp Hle. unfold oracle_new. destruct (pow10 decimals); [|done]. simpl.
    assert (existsb (λ q : string * Z, q.2 <=? 0) (bt_iter prices) = true) as ->; [|done].
    apply existsb_exists. exists (asset, p).
    rewrite <-list_elem_of_In, bt_iter_elem. simpl. split; [done|lia].
Qed.

Lemma oracle_prices_positive_witness :
  is_ok (oracle_new 7 {[ "XLM" := 1200000; "USDC" := 0 ]}) = false.
Proof.
  assert (is_u32 7) as H7 by (widths; lia).
  apply (proj2 (oracle_prices_positive 7 {[ "XLM" := 1200000; "USDC" := 0 ]} H7) "USDC" 0);
    [reflexivity|lia].
Defined.
