(* ===== verification/Auction.v ===== *)
(** * Dutch-auction scaling ([src/math/auction.rs]) *)

From S2P Require Import Prelude Fixed Reserve Position.

(** ** Data and modifiers *)

Definition PER_BLOCK_SCALAR : Z := 50000.
Definition RAMP_BLOCKS : Z := 200.
Definition RAMP_END_BLOCKS : Z := 400.

Record AuctionData : Type := mkAuctionData {
  bid : gmap string Z;
  lot : gmap string Z;
  block : Z;
}.

(** [AuctionData::is_empty]. *)
Definition auction_is_empty (self : AuctionData) : bool :=
  bool_decide (bid self = ∅) && bool_decide (lot self = ∅).

Record ScaledAuction : Type := mkScaledAuction {
  to_fill : AuctionData;
  remaining : option AuctionData;
}.

Definition bid_modifier (block_delta : Z) : Z :=
  if block_delta <=? RAMP_BLOCKS then SCALAR_7
  else if block_delta <? RAMP_END_BLOCKS then
    SCALAR_7 - (block_delta - RAMP_BLOCKS) * PER_BLOCK_SCALAR
  else 0.

Definition lot_modifier (block_delta : Z) : Z :=
  if block_delta <=? RAMP_BLOCKS then block_delta * PER_BLOCK_SCALAR else SCALAR_7.

(** ** Scaling

    The body both loops of [scale_auction] share up to the rounding: it
    extends the maps of what remains and of what is filled. *)

Definition insert_positive (asset : string) (amount : Z) (m : gmap string Z)
  : gmap string Z := if 0 <? amount then <[asset:=amount]> m else m.

Definition scale_entry (mul : Z → Z → Z → result MathError Z) (percent_scaled scale : Z)
    (acc : gmap string Z * gmap string Z) (entry : string * Z)
  : result MathError (gmap string Z * gmap string Z) :=
  let '(remaining, to_fill) := acc in
  let '(asset, amount) := entry in
  let? to_fill_base := mul amount percent_scaled SCALAR_7 in
  let? remaining_base := ok_or (checked_sub amount to_fill_base) Overflow in
  let remaining := insert_positive asset remaining_base remaining in
  let? scaled := mul to_fill_base scale SCALAR_7 in
  Ok (remaining, insert_positive asset scaled to_fill).

Definition scale_auction (auction : AuctionData) (fill_block percent_filled : Z)
  : result MathError ScaledAuction :=
  guard negb ((percent_filled =? 0) || (100 <? percent_filled))
    else InvalidInput "percent_filled must be 1..=100";
  let? block_delta := ok_or (u32_checked_sub fill_block (block auction))
    (InvalidInput "fill_block precedes the auction block") in
  let bid_scale := bid_modifier block_delta in
  let lot_scale := lot_modifier block_delta in
  let? percent_scaled := ok_or (checked_mul percent_filled 100000) Overflow in
  let? (remaining_bid, filled_bid) :=
    try_fold (scale_entry mul_ceil percent_scaled bid_scale) (∅, ∅) (bt_iter (bid auction)) in
  let? (remaining_lot, filled_lot) :=
    try_fold (scale_entry mul_floor percent_scaled lot_scale) (∅, ∅) (bt_iter (lot auction)) in
  let remaining := mkAuctionData remaining_bid remaining_lot (block auction) in
  Ok (mkScaledAuction (mkAuctionData filled_bid filled_lot (block auction))
        (if auction_is_empty remaining then None else Some remaining)).

(** ** The reference definition, asset by asset *)

Definition positive (z : Z) : option Z := if 0 <? z then Some z else None.

(** What a fill of [percent] takes of an amount before the ramp, and what the
    ramp makes of it. *)
Definition taken (r : Rounding) (percent amount : Z) : Z :=
  round_div r (amount * (percent * 100000)) SCALAR_7.
Definition ramped (r : Rounding) (percent scale amount : Z) : Z :=
  round_div r (taken r percent amount * scale) SCALAR_7.

Arguments taken : simpl never.
Arguments ramped : simpl never.

Definition filled_side (r : Rounding) (percent scale : Z) (m : gmap string Z)
  : gmap string Z := omap (λ v, positive (ramped r percent scale v)) m.
Definition left_side (r : Rounding) (percent : Z) (m : gmap string Z)
  : gmap string Z := omap (λ v, positive (v - taken r percent v)) m.

(** ** Lemmas: the modifiers *)

Ltac ramps := unfold bid_modifier, lot_modifier, RAMP_BLOCKS, RAMP_END_BLOCKS,
  PER_BLOCK_SCALAR, SCALAR_7 in *.

Lemma bid_modifier_range d : 0 ≤ bid_modifier d ≤ SCALAR_7.
Proof. ramps. repeat case_match; lia. Qed.
Lemma lot_modifier_range d : 0 ≤ d → 0 ≤ lot_modifier d ≤ SCALAR_7.
Proof. ramps. repeat case_match; lia. Qed.
Lemma bid_modifier_anti d d' : d ≤ d' → bid_modifier d' ≤ bid_modifier d.
Proof. intros. ramps. repeat case_match; lia. Qed.
Lemma lot_modifier_mono d d' : d ≤ d' → lot_modifier d ≤ lot_modifier d'.
Proof. intros. ramps. repeat case_match; lia. Qed.
Lemma bid_modifier_end d : RAMP_END_BLOCKS ≤ d → bid_modifier d = 0.
Proof. intros. ramps. repeat case_match; lia. Qed.
Lemma bid_modifier_whole d : d ≤ RAMP_BLOCKS → bid_modifier d = SCALAR_7.
Proof. intros. ramps. repeat case_match; lia. Qed.
Lemma lot_modifier_whole d : RAMP_BLOCKS ≤ d → lot_modifier d = SCALAR_7.
Proof. intros. ramps. repeat case_match; lia. Qed.

(** ** Lemmas: a loop that fills maps asset by asset *)

Lemma scale_entry_ok r mul ps scale acc e acc' :
  (∀ x y d v, mul x y d = Ok v → v = round_div r (x * y) d) →
  scale_entry mul ps scale acc e = Ok acc' →
  acc' = (insert_positive e.1 (e.2 - round_div r (e.2 * ps) SCALAR_7) acc.1,
          insert_positive e.1
            (round_div r (round_div r (e.2 * ps) SCALAR_7 * scale) SCALAR_7) acc.2).
Proof.
  intros Hmul H. destruct acc as [rem fil], e as [a v]. unfold scale_entry in H. rust_inv.
  repeat match goal with H : mul _ _ _ = Ok _ |- _ => apply Hmul in H; subst end. by subst.
Qed.

Lemma lookup_insert_positive a v m a' :
  m !! a = None →
  insert_positive a v m !! a' = if decide (a' = a) then positive v else m !! a'.
Proof.
  intros Hm. unfold insert_positive, positive.
  destruct (0 <? v); case_decide; subst; simplify_map_eq; done.
Qed.

Lemma scale_side_ok r mul ps scale m rem fil :
  (∀ x y d v, mul x y d = Ok v → v = round_div r (x * y) d) →
  try_fold (scale_entry mul ps scale) (∅, ∅) (bt_iter m) = Ok (rem, fil) →
  rem = omap (λ v, positive (v - round_div r (v * ps) SCALAR_7)) m ∧
  fil = omap (λ v, positive (round_div r (round_div r (v * ps) SCALAR_7 * scale) SCALAR_7)) m.
Proof.
  intros Hmul H. pose proof (bt_iter_NoDup_fst m) as Hnd.
  set (g v := positive (v - round_div r (v * ps) SCALAR_7)).
  set (f v := positive (round_div r (round_div r (v * ps) SCALAR_7 * scale) SCALAR_7)).
  set (P := λ (l : list (string * Z)) (acc : gmap string Z * gmap string Z), ∀ a,
      (∀ v, (a, v) ∈ l → acc.1 !! a = g v ∧ acc.2 !! a = f v) ∧
      (a ∉ l.*1 → acc.1 !! a = None ∧ acc.2 !! a = None)).
  assert (P (bt_iter m) (rem, fil)) as HP'.
  { eapply (try_fold_prefix _ P); [| |exact H].
    - intros a. split; [intros v Hv; by apply not_elem_of_nil in Hv|].
      intros _. simpl. by rewrite !lookup_empty.
    - intros l1 [k w] l2 x y Hl HP Hstep.
      apply (scale_entry_ok r) in Hstep; [|done]. subst y. unfold P in *. simpl.
      assert (k ∉ l1.*1) as Hk.
      { rewrite Hl, fmap_app, fmap_cons in Hnd. apply NoDup_app in Hnd as (_ & Hd & _).
        intros Hin. apply (Hd k Hin). left. }
      destruct (HP k) as [_ Hnone]. destruct (Hnone Hk) as [Hn1 Hn2].
      intros a. rewrite !lookup_insert_positive by done. rewrite fmap_app. simpl.
      destruct (HP a) as [HPin HPout]. case_decide as Hak.
      + subst a. split; [|set_solver]. intros v [Hv|Hv]%elem_of_app.
        * destruct Hk. apply list_elem_of_fmap. by exists (k, v).
        * apply list_elem_of_singleton in Hv. by injection Hv as ->.
      + split; [|set_solver]. intros v [Hv|Hv]%elem_of_app; [by apply HPin|].
        apply list_elem_of_singleton in Hv. congruence. }
  assert (∀ a, rem !! a = (m !! a ≫= g) ∧ fil !! a = (m !! a ≫= f)) as Hpt.
  { intros a. destruct (HP' a) as [Hin Hout]. simpl in *.
    destruct (m !! a) as [v|] eqn:Hv; simpl.
    - apply Hin, bt_iter_elem, Hv.
    - apply Hout. intros Hk. apply bt_keys_elem in Hk as [v' Hv']. congruence. }
  split; apply map_eq; intros a; rewrite lookup_omap; apply Hpt.
Qed.

Definition scaled_ref (auction : AuctionData) (delta percent : Z) : ScaledAuction :=
  let left := mkAuctionData (left_side Ceil percent (bid auction))
    (left_side Floor percent (lot auction)) (block auction) in
  mkScaledAuction
    (mkAuctionData (filled_side Ceil percent (bid_modifier delta) (bid auction))
      (filled_side Floor percent (lot_modifier delta) (lot auction)) (block auction))
    (if auction_is_empty left then None else Some left).

Lemma scale_auction_ok auction fill_block percent s :
  0 ≤ percent →
  scale_auction auction fill_block percent = Ok s →
  1 ≤ percent ≤ 100 ∧ block auction ≤ fill_block ∧
  s = scaled_ref auction (fill_block - block auction) percent.
Proof.
  unfold scale_auction. intros Hpos H.
  destruct (_ || _) eqn:Hp; [done|]. cbn [negb] in H. rust_inv. subst s.
  split_and!; [lia..|widths; lia|].
  match goal with H : try_fold (scale_entry mul_ceil _ _) _ _ = Ok _ |- _ =>
    apply (scale_side_ok Ceil) in H as [-> ->]; [|by intros; fixed_inv] end.
  match goal with H : try_fold (scale_entry mul_floor _ _) _ _ = Ok _ |- _ =>
    apply (scale_side_ok Floor) in H as [-> ->]; [|by intros; fixed_inv] end.
  done.
Qed.

(** A share of a non-negative amount lies between nothing and the amount, for
    either rounding: so does what is taken and what the ramp leaves of it. *)
Lemma round_share_range r x n : 0 ≤ x → 0 ≤ n ≤ SCALAR_7 → 0 ≤ round_div r (x * n) SCALAR_7 ≤ x.
Proof.
  intros Hx Hn. destruct r; simpl; split;
    [apply fdiv_nonneg|apply Z.div_le_upper_bound|apply cdiv_nonneg|apply cdiv_le];
    scalars; nia.
Qed.

Lemma taken_range r percent v :
  0 ≤ v → 0 ≤ percent ≤ 100 → 0 ≤ taken r percent v ≤ v.
Proof. intros. apply round_share_range; scalars; lia. Qed.

Lemma ramped_range r percent scale v :
  0 ≤ v → 0 ≤ percent ≤ 100 → 0 ≤ scale ≤ SCALAR_7 →
  0 ≤ ramped r percent scale v ≤ taken r percent v.
Proof. intros. apply round_share_range; [by apply taken_range|done]. Qed.

Lemma taken_whole r v : taken r 100 v = v.
Proof. destruct r; unfold taken, round_div; [by rewrite Z.div_mul|]. apply cdiv_unique; scalars; lia. Qed.

Lemma ramped_whole r percent v : ramped r percent SCALAR_7 v = taken r percent v.
Proof.
  unfold ramped. destruct r; simpl; [by rewrite Z.div_mul|].
  apply cdiv_unique; scalars; lia.
Qed.

Lemma ramped_none r percent v : ramped r percent 0 v = 0.
Proof. unfold ramped. rewrite Z.mul_0_r. by destruct r. Qed.

(** The bid is rounded up and the lot down, at both steps. *)
Lemma ramped_ceil percent scale v :
  0 ≤ scale → v * percent * scale ≤ 100 * SCALAR_7 * ramped Ceil percent scale v.
Proof.
  intros Hs. unfold ramped, taken. simpl.
  pose proof (cdiv_spec (v * (percent * 100000)) SCALAR_7).
  pose proof (cdiv_spec (cdiv (v * (percent * 100000)) SCALAR_7 * scale) SCALAR_7).
  scalars. nia.
Qed.
Lemma ramped_floor percent scale v :
  0 ≤ scale → 100 * SCALAR_7 * ramped Floor percent scale v ≤ v * percent * scale.
Proof.
  intros Hs. unfold ramped, taken. simpl.
  pose proof (fdiv_spec (v * (percent * 100000)) SCALAR_7).
  pose proof (fdiv_spec ((v * (percent * 100000)) / SCALAR_7 * scale) SCALAR_7).
  scalars. nia.
Qed.

(** A fill scales: the loop is total on amounts a pool stores. *)
Lemma scale_side_total r mul ps scale m :
  (∀ x y d, d = SCALAR_7 → is_i128 (round_div r (x * y) d) →
     mul x y d = Ok (round_div r (x * y) d)) →
  0 ≤ ps ≤ SCALAR_7 → 0 ≤ scale ≤ SCALAR_7 →
  (∀ a v, m !! a = Some v → 0 ≤ v ≤ i128_max) →
  ∃ acc, try_fold (scale_entry mul ps scale) (∅, ∅) (bt_iter m) = Ok acc.
Proof.
  intros Hmul Hps Hscale Hm.
  destruct (try_fold_total (scale_entry mul ps scale) (λ _, True) (∅, ∅) (bt_iter m))
    as (acc & Hacc & _); [done| |eauto].
  intros [rem fil] [a v] Hin _. apply bt_iter_elem, Hm in Hin.
  assert (∀ x n, 0 ≤ x ≤ i128_max → 0 ≤ n ≤ SCALAR_7 →
    is_i128 (round_div r (x * n) SCALAR_7)) as Hr.
  { intros x n Hx Hn. pose proof (round_share_range r x n). widths. lia. }
  pose proof (round_share_range r v ps). unfold scale_entry.
  rewrite Hmul by auto. simpl. unfold checked_sub.
  rewrite to_i128_in by (widths; lia). simpl.
  rewrite Hmul; [|done|apply Hr; [lia|done]]. simpl. eauto.
Qed.

Lemma get_positive (f : Z → Z) (m : gmap string Z) a v :
  m !! a = Some v → 0 ≤ f v → get_or_zero (omap (λ v, positive (f v)) m) a = f v.
Proof.
  intros Hm Hf. unfold get_or_zero. rewrite lookup_omap, Hm. simpl.
  unfold positive. destruct (Z.ltb_spec 0 (f v)); simpl; lia.
Qed.

Lemma omap_positive_empty (f : Z → Z) (m : gmap string Z) :
  (∀ a v, m !! a = Some v → f v ≤ 0) → omap (λ v, positive (f v)) m = ∅.
Proof.
  intros Hf. apply map_eq. intros a. rewrite lookup_omap, lookup_empty.
  destruct (m !! a) as [v|] eqn:Hv; [|done]. simpl. specialize (Hf _ _ Hv).
  unfold positive. by destruct (Z.ltb_spec 0 (f v)); [lia|].
Qed.

(** What remains, whether or not the auction record itself does. *)
Lemma remaining_sides auction delta percent :
  default ∅ (bid <$> remaining (scaled_ref auction delta percent))
    = left_side Ceil percent (bid auction) ∧
  default ∅ (lot <$> remaining (scaled_ref auction delta percent))
    = left_side Floor percent (lot auction).
Proof.
  unfold scaled_ref. simpl. destruct (auction_is_empty _) eqn:He; simpl; [|done].
  unfold auction_is_empty in He. simpl in He.
  apply andb_true_iff in He as [H1%bool_decide_eq_true H2%bool_decide_eq_true]. done.
Qed.

Lemma remaining_none auction delta percent :
  (∀ a v, bid auction !! a = Some v → v ≤ taken Ceil percent v) →
  (∀ a v, lot auction !! a = Some v → v ≤ taken Floor percent v) →
  remaining (scaled_ref auction delta percent) = None.
Proof.
  intros Hb Hl. unfold scaled_ref. simpl. unfold auction_is_empty. simpl.
  unfold left_side.
  rewrite (omap_positive_empty _ (bid auction)) by (intros a v Hv; specialize (Hb _ _ Hv); lia).
  rewrite (omap_positive_empty _ (lot auction)) by (intros a v Hv; specialize (Hl _ _ Hv); lia).
  done.
Qed.

(** ** Properties *)

(** Scaling is its reference definition, asset by asset: what changes
    hands is the share of the amount rounded up on the bid and down on the
    lot, then ramped the same way; what remains is the rest; neither side
    ever stores an amount that is not positive, and nothing remains exactly
    when both remaining sides are empty. On amounts a pool stores a fill at
    or after the auction's block always scales. *)
Theorem scale_auction_is_reference (auction : AuctionData) (fill_block percent : Z)
  (Hpercent : 0 ≤ percent) :
  (∀ s, scale_auction auction fill_block percent = Ok s →
    1 ≤ percent ≤ 100 ∧ block auction ≤ fill_block ∧
    s = scaled_ref auction (fill_block - block auction) percent) ∧
  (1 ≤ percent ≤ 100 → is_u32 (fill_block - block auction) →
    (∀ a v, bid auction !! a = Some v → 0 ≤ v ≤ i128_max) →
    (∀ a v, lot auction !! a = Some v → 0 ≤ v ≤ i128_max) →
    ∃ s, scale_auction auction fill_block percent = Ok s).
Proof.
  split; [by intros s; apply scale_auction_ok|]. intros Hp Hd Hbid Hlot. unfold scale_auction.
  destruct (Z.eqb_spec percent 0); [lia|]. destruct (Z.ltb_spec 100 percent); [lia|]. simpl.
  unfold u32_checked_sub. rewrite (proj2 (to_u32_some _ _)) by eauto. simpl.
  unfold checked_mul. rewrite to_i128_in by (widths; lia). simpl.
  destruct (scale_side_total Ceil mul_ceil (percent * 100000)
    (bid_modifier (fill_block - block auction)) (bid auction)) as ([rb fb] & ->);
    [|scalars; lia|apply bid_modifier_range|done|].
  { intros x y d -> Hi. by apply mul_ceil_in. }
  destruct (scale_side_total Floor mul_floor (percent * 100000)
    (lot_modifier (fill_block - block auction)) (lot auction)) as ([rl fl] & ->);
    [|scalars; lia|apply lot_modifier_range; widths; lia|done|by simpl; eauto].
  intros x y d -> Hi. by apply mul_floor_in.
Qed.

Definition sample_auction : AuctionData :=
  mkAuctionData {[ "A1" := 1000000000; "A2" := 2000000001 ]}
    {[ "A2" := 10000000; "A3" := 50000001 ]} 100.

Lemma scale_auction_is_reference_witness :
  scale_auction sample_auction 200 50 = Ok (scaled_ref sample_auction 100 50) ∧
  to_fill (scaled_ref sample_auction 100 50)
  = mkAuctionData {[ "A1" := 500000000; "A2" := 1000000001 ]}
      {[ "A2" := 2500000; "A3" := 12500000 ]} 100.
Proof.
  split; [|vm_compute; reflexivity].
  pose proof (scale_auction_is_reference sample_auction 200 50 ltac:(lia)) as [H _].
  destruct (H (scaled_ref sample_auction 100 50)) as (_ & _ & _); vm_compute; reflexivity.
Defined.

Definition stored_amounts (m : gmap string Z) : Prop :=
  ∀ a v, m !! a = Some v → 0 < v ≤ i128_max.

(** C39: a scaled fill conserves the auction and favours the pool. For every
    asset what a fill takes and what it leaves add up to what was there; the
    filler pays at least its exact share of the bid and receives at most its
    exact share of the lot; a whole fill leaves nothing; and from the end of
    the ramp on the bid is absent while a whole fill receives the lot as it
    stands. *)
Theorem scale_auction_favours_the_pool (auction : AuctionData)
  (fill_block percent : Z) (s : ScaledAuction) (delta := fill_block - block auction)
  (Hpercent : 0 ≤ percent)
  (Hbid : stored_amounts (bid auction)) (Hlot : stored_amounts (lot auction))
  (Hok : scale_auction auction fill_block percent = Ok s) :
  (∀ a v, bid auction !! a = Some v →
     get_or_zero (bid (to_fill s)) a ≤ taken Ceil percent v ∧
     get_or_zero (default ∅ (bid <$> remaining s)) a + taken Ceil percent v = v ∧
     v * percent * bid_modifier delta
       ≤ 100 * SCALAR_7 * get_or_zero (bid (to_fill s)) a) ∧
  (∀ a v, lot auction !! a = Some v →
     get_or_zero (lot (to_fill s)) a ≤ taken Floor percent v ∧
     get_or_zero (default ∅ (lot <$> remaining s)) a + taken Floor percent v = v ∧
     100 * SCALAR_7 * get_or_zero (lot (to_fill s)) a
       ≤ v * percent * lot_modifier delta) ∧
  (percent = 100 → remaining s = None) ∧
  (RAMP_END_BLOCKS ≤ delta → bid (to_fill s) = ∅ ∧
    (percent = 100 → lot (to_fill s) = lot auction)).
Proof.
  apply scale_auction_ok in Hok as (Hp & Hblock & ->); [|done].
  destruct (remaining_sides auction delta percent) as [Hrb Hrl].
  fold delta. fold delta in Hrb, Hrl. rewrite Hrb, Hrl. assert (0 ≤ delta) by (unfold delta; lia).
  pose proof (bid_modifier_range delta) as Hbm.
  pose proof (lot_modifier_range delta ltac:(done)) as Hlm.
  split_and!; simpl.
  - intros a v Hv. pose proof (Hbid _ _ Hv).
    pose proof (taken_range Ceil percent v ltac:(lia) ltac:(lia)).
    pose proof (ramped_range Ceil percent _ v ltac:(lia) ltac:(lia) Hbm).
    unfold filled_side, left_side. rewrite !(get_positive _ _ _ _ Hv) by lia.
    split_and!; [lia|lia|]. apply ramped_ceil. lia.
  - intros a v Hv. pose proof (Hlot _ _ Hv).
    pose proof (taken_range Floor percent v ltac:(lia) ltac:(lia)).
    pose proof (ramped_range Floor percent _ v ltac:(lia) ltac:(lia) Hlm).
    unfold filled_side, left_side. rewrite !(get_positive _ _ _ _ Hv) by lia.
    split_and!; [lia|lia|]. apply ramped_floor. lia.
  - intros ->. apply (remaining_none auction delta 100); intros; rewrite taken_whole; lia.
  - intros Hend. split.
    + unfold filled_side. apply omap_positive_empty. intros a v _.
      by rewrite bid_modifier_end, ramped_none.
    + intros ->. unfold filled_side. apply map_eq. intros a. rewrite lookup_omap.
      destruct (lot auction !! a) as [v|] eqn:Hv; [|done]. simpl.
      rewrite lot_modifier_whole, ramped_whole, taken_whole by (ramps; lia).
      specialize (Hlot _ _ Hv). unfold positive. by destruct (Z.ltb_spec 0 v); [|lia].
Qed.

Lemma sample_auction_stored :
  stored_amounts (bid sample_auction) ∧ stored_amounts (lot sample_auction).
Proof.
  split; intros a v; simpl; rewrite lookup_insert_Some;
    (intros [[_ <-]|[_ [_ <-]%lookup_singleton_Some]]; widths; lia).
Qed.

Lemma scale_auction_favours_the_pool_witness :
  ∃ s, scale_auction sample_auction 500 100 = Ok s ∧ remaining s = None ∧
       bid (to_fill s) = ∅ ∧ lot (to_fill s) = lot sample_auction.
Proof.
  destruct sample_auction_stored as [Hb Hl].
  eexists. split; [vm_compute; reflexivity|].
  match goal with |- remaining ?s = _ ∧ _ =>
    destruct (scale_auction_favours_the_pool sample_auction 500 100 s
      ltac:(lia) Hb Hl ltac:(vm_compute; reflexivity)) as (_ & _ & H1 & H2) end.
  split; [by apply H1|]. assert (RAMP_END_BLOCKS ≤ 500 - block sample_auction) as Hd
    by (vm_compute; discriminate).
  destruct (H2 Hd) as [H3 H4]. split; [done|by apply H4].
Defined.
