(* ===== verification/Encode.v ===== *)
(** * Requests, fill percents and auction types ([src/chain/xdr/encode.rs],
    [src/chain/xdr/mod.rs])

    The bot's own request data. The [ScVal] wire values they are packed into
    belong to the [stellar_xdr] crate; its error type is the parameter [X]. *)

From stdpp Require Import pretty.
From S2P Require Import Prelude Fixed.
Open Scope Z_scope.

Inductive AuctionType : Type := UserLiquidation | BadDebt | Interest.

(** [AuctionType::code]. *)
Definition auction_type_code (self : AuctionType) : Z :=
  match self with UserLiquidation => 0 | BadDebt => 1 | Interest => 2 end.

Inductive XdrError (X : Type) : Type :=
| Xdr (e : X)
| XdrAddress (text : string)
| XdrSymbol (text : string)
| XdrShape (expected got : string)
| XdrMissingField (field : string)
| XdrMath (e : MathError).
Arguments Xdr {X} e.
Arguments XdrAddress {X} text.
Arguments XdrSymbol {X} text.
Arguments XdrShape {X} expected got.
Arguments XdrMissingField {X} field.
Arguments XdrMath {X} e.

(** [AuctionType::try_from]. *)
Definition auction_type_try_from {X : Type} (value : Z) : result (XdrError X) AuctionType :=
  if value =? 0 then Ok UserLiquidation
  else if value =? 1 then Ok BadDebt
  else if value =? 2 then Ok Interest
  else Err (XdrShape "auction type 0..=2" (pretty value)).

Inductive RequestType : Type :=
| Supply
| Withdraw
| SupplyCollateral
| WithdrawCollateral
| Borrow
| Repay
| FillUserLiquidationAuction
| FillBadDebtAuction
| FillInterestAuction
| DeleteLiquidationAuction.

(** [RequestType::code]. *)
Definition request_type_code (self : RequestType) : Z :=
  match self with
  | Supply => 0
  | Withdraw => 1
  | SupplyCollateral => 2
  | WithdrawCollateral => 3
  | Borrow => 4
  | Repay => 5
  | FillUserLiquidationAuction => 6
  | FillBadDebtAuction => 7
  | FillInterestAuction => 8
  | DeleteLiquidationAuction => 9
  end.

Definition request_type_name (self : RequestType) : string :=
  match self with
  | Supply => "Supply"
  | Withdraw => "Withdraw"
  | SupplyCollateral => "SupplyCollateral"
  | WithdrawCollateral => "WithdrawCollateral"
  | Borrow => "Borrow"
  | Repay => "Repay"
  | FillUserLiquidationAuction => "FillUserLiquidationAuction"
  | FillBadDebtAuction => "FillBadDebtAuction"
  | FillInterestAuction => "FillInterestAuction"
  | DeleteLiquidationAuction => "DeleteLiquidationAuction"
  end.

Record Request : Type := mkRequest {
  request_type : RequestType;
  address : string;
  amount : Z;
}.

Record FillPercent : Type := mkFillPercent { fp_get : Z }.

(** [FillPercent::try_from]. *)
Definition fill_percent_try_from {X : Type} (value : Z) : result (XdrError X) FillPercent :=
  if (1 <=? value) && (value <=? 100) then Ok (mkFillPercent value)
  else Err (XdrShape "percent 1..=100" (pretty value)).

(** [Request::fill]. *)
Definition request_fill {X : Type} (request_type : RequestType) (user : string)
    (percent : FillPercent) : result (XdrError X) Request :=
  match request_type with
  | FillUserLiquidationAuction | FillBadDebtAuction | FillInterestAuction =>
      Ok (mkRequest request_type user (fp_get percent))
  | other => Err (XdrShape "a fill request type" (request_type_name other))
  end.

(** ** Lemmas *)

Definition wf_percent (p : FillPercent) : Prop := 1 ≤ fp_get p ≤ 100.

Lemma fill_percent_ok {X} v p :
  fill_percent_try_from (X:=X) v = Ok p ↔ p = mkFillPercent v ∧ 1 ≤ v ≤ 100.
Proof.
  unfold fill_percent_try_from. destruct (_ && _) eqn:H.
  - split; [intros [= <-]; split; [done|lia]|by intros [-> _]].
  - split; [done|]. intros [_ Hv]. lia.
Qed.

Lemma fill_percent_wf {X} v p : fill_percent_try_from (X:=X) v = Ok p → wf_percent p.
Proof. by intros [-> ?]%fill_percent_ok. Qed.

#[export] Instance FillPercent_eq_dec : EqDecision FillPercent.
Proof. solve_decision. Defined.
#[export] Instance AuctionType_eq_dec : EqDecision AuctionType.
Proof. solve_decision. Defined.
#[export] Instance RequestType_eq_dec : EqDecision RequestType.
Proof. solve_decision. Defined.

(** ** Properties *)

(** The contract's discriminants. Auction types and request types map
    to distinct numbers, an auction type survives the round trip through its
    number and every other number is refused, and [FillPercent] holds
    exactly the percents 1 to 100: only those build a fill request, only the
    three fill types carry one, and the request carries the percent
    unchanged. *)
Theorem discriminants_round_trip (X : Type) :
  (∀ t, auction_type_try_from (X:=X) (auction_type_code t) = Ok t) ∧
  (∀ v t, auction_type_try_from (X:=X) v = Ok t → auction_type_code t = v) ∧
  (∀ t1 t2, request_type_code t1 = request_type_code t2 → t1 = t2) ∧
  (∀ v, is_ok (fill_percent_try_from (X:=X) v) = (1 <=? v) && (v <=? 100)) ∧
  (∀ t user v p, fill_percent_try_from (X:=X) v = Ok p →
     request_fill (X:=X) t user p =
       if decide (t ∈ [FillUserLiquidationAuction; FillBadDebtAuction; FillInterestAuction])
       then Ok (mkRequest t user v)
       else Err (XdrShape "a fill request type" (request_type_name t))).
Proof.
  split_and!.
  - by intros [].
  - intros v t. unfold auction_type_try_from. intros H.
    rust_inv; subst; simpl; lia.
  - by intros [] [].
  - intros v. unfold fill_percent_try_from. by destruct (_ && _).
  - intros t user v p [-> _]%fill_percent_ok. by destruct t.
Qed.
