(* ===== verification/Liquidation.v ===== *)
(** * Choosing a liquidation ([src/math/liquidation.rs])

    Which of a borrower's positions an auction names, and what share of the
    liabilities it takes. *)

From S2P Require Import Prelude Fixed Reserve Position Encode.
Open Scope Z_scope.

(** ** Data *)

Record PositionValue : Type := mkPositionValue {
  pv_index : Z;
  pv_asset : string;
  pv_raw : Z;
  pv_effective : Z;
}.

Record LiquidationPlan : Type := mkLiquidationPlan {
  plan_bid : list string;
  plan_lot : list string;
  plan_percent : FillPercent;
}.

(** ** Valuing and ordering *)

Definition collateral_value (reserves : gmap Z Reserve) (prices : OraclePrices)
    (entry : Z * Z) : result MathError PositionValue :=
  let '(index, b_tokens) := entry in
  let? reserve := reserve_of reserves index in
  let? p := price prices (rs_asset reserve) in
  let? assets := to_asset_from_b_token reserve b_tokens in
  let? raw := mul_floor p assets (rs_scalar reserve) in
  let? effective_assets := to_effective_asset_from_b_token reserve b_tokens in
  let? effective := mul_floor p effective_assets (rs_scalar reserve) in
  Ok (mkPositionValue index (rs_asset reserve) raw effective).

Definition liability_value (reserves : gmap Z Reserve) (prices : OraclePrices)
    (entry : Z * Z) : result MathError PositionValue :=
  let '(index, d_tokens) := entry in
  let? reserve := reserve_of reserves index in
  let? p := price prices (rs_asset reserve) in
  let? assets := to_asset_from_d_token reserve d_tokens in
  let? raw := mul_ceil p assets (rs_scalar reserve) in
  let? effective_assets := to_effective_asset_from_d_token reserve d_tokens in
  let? effective := mul_ceil p effective_assets (rs_scalar reserve) in
  Ok (mkPositionValue index (rs_asset reserve) raw effective).

(** The loop that pushes a value for every non-zero entry. *)
Definition push_value (value : Z * Z → result MathError PositionValue)
    (acc : list PositionValue) (entry : Z * Z) : result MathError (list PositionValue) :=
  if entry.2 =? 0 then Ok acc
  else let? v := value entry in Ok (acc ++ [v]).

(** Largest effective value first, the reserve index breaking ties. *)
Definition value_before (left right : PositionValue) : Prop :=
  pv_effective right < pv_effective left ∨
  (pv_effective right = pv_effective left ∧ pv_index left ≤ pv_index right).

#[export] Instance value_before_dec : RelDecision value_before.
Proof. intros a b. unfold value_before. apply _. Defined.

Definition sort_values (values : list PositionValue) : list PositionValue :=
  merge_sort value_before values.

Definition position_values (reserves : gmap Z Reserve) (prices : OraclePrices)
    (positions : Positions)
  : result MathError (list PositionValue * list PositionValue) :=
  let? collateral := try_fold (push_value (collateral_value reserves prices)) []
    (bt_iter (collateral positions)) in
  let? liabilities := try_fold (push_value (liability_value reserves prices)) []
    (bt_iter (liabilities positions)) in
  Ok (sort_values collateral, sort_values liabilities).

(** ** The percent of one selection *)

Definition totals (values : list PositionValue) : result MathError (Z * Z) :=
  try_fold (λ '(raw, effective) value,
    let? raw := ok_or (checked_add raw (pv_raw value)) Overflow in
    let? effective := ok_or (checked_add effective (pv_effective value)) Overflow in
    Ok (raw, effective)) (0, 0) values.

(** [u32::try_from(percent).unwrap_or(u32::MAX)]. *)
Definition u32_or_max (z : Z) : Z := if in_u32 z then z else u32_max.

(** [1 + (1 - cf / lf) / 2]. *)
Definition incentive_of (cf lf : Z) : result MathError Z :=
  let? ratio := div_floor cf lf SCALAR_7 in
  let? spread := ok_or (checked_sub SCALAR_7 ratio) Overflow in
  ok_or (checked_add SCALAR_7 (Z.quot spread 2)) Overflow.

Definition selection_percent (excess : Z) (collateral liabilities : list PositionValue)
    (target_health : Z) : result MathError Z :=
  let? (raw_collateral, effective_collateral) := totals collateral in
  let? (raw_liabilities, effective_liabilities) := totals liabilities in
  if (raw_collateral =? 0) || (raw_liabilities =? 0) || (effective_liabilities =? 0)
  then Ok 0
  else
    let? cf := div_floor effective_collateral raw_collateral SCALAR_7 in
    let? lf := div_floor effective_liabilities raw_liabilities SCALAR_7 in
    if (cf =? 0) || (lf =? 0) then Ok 0
    else
      let? incentive := incentive_of cf lf in
      let? regained := mul_floor lf target_health SCALAR_7 in
      let? paid := mul_floor incentive cf SCALAR_7 in
      let? recovered := ok_or (checked_sub regained paid) Overflow in
      if recovered <=? 0 then Ok 101
      else
        let? denominator := mul_floor recovered raw_liabilities SCALAR_7 in
        if denominator <=? 0 then Ok 101
        else
          let? share := mul_floor excess 100 denominator in
          let percent := u32_or_max share in
          if 100 <? percent then Ok percent
          else
            let? taken := mul_floor raw_liabilities percent 100 in
            let? withdrawn := mul_floor taken incentive SCALAR_7 in
            if raw_collateral <? withdrawn then Ok 0
            else Ok (Z.max percent 1).

(** ** The plan *)

(** The trimming loop of [bounded_plan]; every round but the last drops one
    asset, so [lot_count + bid_count] rounds are enough. *)
Fixpoint trim_counts (fuel : nat) (cap : Z) (lot_count bid_count : nat) : nat * nat :=
  match fuel with
  | O => (lot_count, bid_count)
  | S fuel =>
      if cap <? Z.of_nat (lot_count + bid_count) then
        if (bid_count <=? lot_count)%nat && (1 <? lot_count)%nat then
          trim_counts fuel cap (lot_count - 1) bid_count
        else if (1 <? bid_count)%nat then
          trim_counts fuel cap lot_count (bid_count - 1)
        else (lot_count, bid_count)
      else (lot_count, bid_count)
  end.

Definition clamp (lo hi z : Z) : Z := Z.max lo (Z.min hi z).

Definition bounded_plan (collateral liabilities : list PositionValue)
    (percent max_positions : Z) : result MathError LiquidationPlan :=
  let cap := Z.max max_positions 2 in
  let '(lot_count, bid_count) :=
    trim_counts (length collateral + length liabilities) cap
      (length collateral) (length liabilities) in
  let? p := map_err (λ _ : XdrError (), InvalidInput "a percent outside 1..=100")
    (fill_percent_try_from (clamp 1 100 percent)) in
  Ok (mkLiquidationPlan (pv_asset <$> take bid_count liabilities)
        (pv_asset <$> take lot_count collateral) p).

(** The selection loop. Every round that does not return adds one position
    to a side, so [length collateral + length liabilities] rounds are enough;
    [None] is a loop cut short. *)
Fixpoint select (fuel : nat) (excess : Z) (collateral liabilities : list PositionValue)
    (target_health max_positions : Z) (lot_count bid_count : nat)
  : option (result MathError LiquidationPlan) :=
  match fuel with
  | O => None
  | S fuel =>
      let whole := bounded_plan collateral liabilities 100 max_positions in
      let add_bid :=
        select fuel excess collateral liabilities target_health max_positions
          lot_count (S bid_count) in
      let add_lot :=
        select fuel excess collateral liabilities target_health max_positions
          (S lot_count) bid_count in
      match selection_percent excess (take lot_count collateral)
              (take bid_count liabilities) target_health with
      | Err e => Some (Err e)
      | Ok percent =>
          if 100 <? percent then
            if (bid_count <? length liabilities)%nat then add_bid
            else if (lot_count <? length collateral)%nat then add_lot
            else Some whole
          else if percent =? 0 then
            if (lot_count <? length collateral)%nat then add_lot
            else Some whole
          else
            Some (bounded_plan (take lot_count collateral) (take bid_count liabilities)
                    percent max_positions)
      end
  end.

Definition plan_liquidation (data : PositionData)
    (collateral liabilities : list PositionValue) (target_health max_positions : Z)
  : option (result MathError (option LiquidationPlan)) :=
  if bool_decide (liabilities = []) || bool_decide (collateral = []) then Some (Ok None)
  else
    match mul_floor (liability_base data) target_health SCALAR_7 with
    | Err e => Some (Err e)
    | Ok target =>
        match checked_sub target (collateral_base data) with
        | None => Some (Err Overflow)
        | Some excess =>
            if excess <=? 0 then Some (Ok None)
            else
              match select (length collateral + length liabilities) excess collateral
                      liabilities target_health max_positions 1 1 with
              | None => None
              | Some plan => Some (let? plan := plan in Ok (Some plan))
              end
        end
    end.

(** ** Lemmas: values *)

Lemma collateral_value_ok reserves prices e v :
  collateral_value reserves prices e = Ok v →
  pv_index v = e.1 ∧
  pv_raw v = entry_value b_raw reserves prices e ∧
  pv_effective v = entry_value b_base reserves prices e ∧
  ∃ r, reserves !! e.1 = Some r ∧ pv_asset v = rs_asset r.
Proof.
  destruct e as [i b]. unfold collateral_value, entry_value. simpl. intros H.
  value_inv. subst v. simpl.
  match goal with H : reserves !! i = _ |- _ => rewrite H end.
  match goal with H : op_prices _ !! _ = _ |- _ => rewrite H end.
  split_and!; [done..|eauto].
Qed.

Lemma liability_value_ok reserves prices e v :
  liability_value reserves prices e = Ok v →
  pv_index v = e.1 ∧
  pv_raw v = entry_value d_raw reserves prices e ∧
  pv_effective v = entry_value d_base reserves prices e ∧
  ∃ r, reserves !! e.1 = Some r ∧ pv_asset v = rs_asset r.
Proof.
  destruct e as [i b]. unfold liability_value, entry_value. simpl. intros H.
  value_inv. subst v. simpl.
  match goal with H : reserves !! i = _ |- _ => rewrite H end.
  match goal with H : op_prices _ !! _ = _ |- _ => rewrite H end.
  split_and!; [done..|eauto].
Qed.

(** The pushed values stand for the non-zero entries, in the same order, and
    sum to the sides of the valuation. *)
Lemma push_values_ok value fr fe reserves prices m vs :
  zero_value fr → zero_value fe →
  (∀ e v, value e = Ok v →
     pv_index v = e.1 ∧ pv_raw v = entry_value fr reserves prices e ∧
     pv_effective v = entry_value fe reserves prices e ∧
     ∃ r, reserves !! e.1 = Some r ∧ pv_asset v = rs_asset r) →
  try_fold (push_value value) [] (bt_iter m) = Ok vs →
  pv_index <$> vs = (filter (λ e, e.2 ≠ 0) (bt_iter m)).*1 ∧
  zsum pv_raw vs = side_value fr reserves prices m ∧
  zsum pv_effective vs = side_value fe reserves prices m.
Proof.
  intros Hfr Hfe Hvalue H. rewrite !side_value_iter.
  set (P := λ (l : list (Z * Z)) (vs : list PositionValue),
    pv_index <$> vs = (filter (λ e, e.2 ≠ 0) l).*1 ∧
    zsum pv_raw vs = zsum (entry_value fr reserves prices) l ∧
    zsum pv_effective vs = zsum (entry_value fe reserves prices) l).
  change (P (bt_iter m) vs).
  apply (try_fold_prefix (push_value value) P [] vs); [done| |exact H].
  intros l1 e l2 x y _ (Hi & Hr & He) Hstep. unfold P, push_value in *.
  rewrite filter_app, !fmap_app, !zsum_snoc, filter_cons, filter_nil.
  destruct (Z.eqb_spec e.2 0) as [H0|H0].
  - injection Hstep as <-. case_decide; [done|]. simpl.
    rewrite !entry_value_zero, app_nil_r by done. rewrite !Z.add_0_r. done.
  - rust_inv. subst y. case_decide; [|done]. apply Hvalue in Hstep0 as (E1 & E2 & E3 & _).
    rewrite !zsum_snoc, fmap_app. simpl. rewrite Hi, Hr, He, E1, E2, E3. done.
Qed.

(** ** Lemmas: the order is total, so sorting has one answer *)

#[export] Instance value_before_trans : Transitive value_before.
Proof. intros a b c. unfold value_before. lia. Qed.
#[export] Instance value_before_total : Total value_before.
Proof. intros a b. unfold value_before. lia. Qed.

Lemma sort_values_perm vs : sort_values vs ≡ₚ vs.
Proof. apply merge_sort_Permutation. Qed.
Lemma sort_values_sorted vs : StronglySorted value_before (sort_values vs).
Proof. apply (StronglySorted_merge_sort _). Qed.

Lemma position_values_ok reserves prices positions c l :
  position_values reserves prices positions = Ok (c, l) →
  StronglySorted value_before c ∧ StronglySorted value_before l ∧
  (pv_index <$> c) ≡ₚ (filter (λ e, e.2 ≠ 0) (bt_iter (collateral positions))).*1 ∧
  (pv_index <$> l) ≡ₚ (filter (λ e, e.2 ≠ 0) (bt_iter (liabilities positions))).*1 ∧
  position_value reserves prices positions
    = mkPositionData (zsum pv_effective c) (zsum pv_raw c)
        (zsum pv_effective l) (zsum pv_raw l) (op_scalar prices).
Proof.
  unfold position_values. intros H. rust_inv. subst c l.
  eapply (push_values_ok _ b_raw b_base) in Hstep as (Hc1 & Hc2 & Hc3);
    [|auto with rust..|apply collateral_value_ok].
  eapply (push_values_ok _ d_raw d_base) in Hstep0 as (Hl1 & Hl2 & Hl3);
    [|auto with rust..|apply liability_value_ok].
  split_and!; try apply sort_values_sorted.
  - by rewrite sort_values_perm, Hc1.
  - by rewrite sort_values_perm, Hl1.
  - unfold position_value. rewrite !sort_values_perm. congruence.
Qed.

(** ** Lemmas: trimming to the pool's cap *)

Lemma trim_counts_ok fuel cap n b n' b' :
  (n + b ≤ fuel)%nat → (1 ≤ n)%nat → (1 ≤ b)%nat → 2 ≤ cap →
  trim_counts fuel cap n b = (n', b') →
  (1 ≤ n' ≤ n)%nat ∧ (1 ≤ b' ≤ b)%nat ∧ Z.of_nat (n' + b') ≤ cap ∧
  (Z.of_nat (n + b) ≤ cap → n' = n ∧ b' = b).
Proof.
  revert n b. induction fuel as [|fuel IH]; intros n b Hf Hn Hb Hcap; simpl; [lia|].
  destruct (Z.ltb_spec cap (Z.of_nat (n + b))).
  - destruct (_ && _) eqn:H1.
    + intros H'. apply IH in H'; lia.
    + destruct (1 <? b)%nat eqn:H2; [intros H'; apply IH in H'; lia|]. lia.
  - intros [= <- <-]. lia.
Qed.

(** What a plan the contract accepts looks like: a percent in range, both
    sides non-empty prefixes of the candidates, at most [cap] assets. *)
Definition plan_within (collateral liabilities : list PositionValue) (max_positions : Z)
    (plan : LiquidationPlan) : Prop :=
  wf_percent (plan_percent plan) ∧
  plan_lot plan ≠ [] ∧ plan_bid plan ≠ [] ∧
  plan_lot plan `prefix_of` (pv_asset <$> collateral) ∧
  plan_bid plan `prefix_of` (pv_asset <$> liabilities) ∧
  Z.of_nat (length (plan_lot plan) + length (plan_bid plan)) ≤ Z.max max_positions 2.

Lemma take_prefix_of {A} n (l : list A) : take n l `prefix_of` l.
Proof. exists (drop n l). by rewrite take_drop. Qed.

Lemma bounded_plan_ok collateral liabilities percent max_positions :
  collateral ≠ [] → liabilities ≠ [] →
  ∃ plan, bounded_plan collateral liabilities percent max_positions = Ok plan ∧
    fp_get (plan_percent plan) = clamp 1 100 percent ∧
    plan_within collateral liabilities max_positions plan.
Proof.
  intros Hc Hl. unfold bounded_plan.
  destruct (trim_counts _ _ _ _) as [n b] eqn:Ht.
  assert (1 ≤ length collateral ∧ 1 ≤ length liabilities)%nat as [Hc1 Hl1]
    by (destruct collateral, liabilities; simpl; try done; lia).
  apply trim_counts_ok in Ht as (Hn & Hb & Hcap & _); [|lia..].
  assert (1 ≤ clamp 1 100 percent ≤ 100) by (unfold clamp; lia).
  rewrite (proj2 (fill_percent_ok (X:=()) (clamp 1 100 percent) _)) by eauto. simpl.
  eexists. split; [done|]. split; [done|]. unfold plan_within, wf_percent. simpl.
  split_and!; try lia.
  - destruct collateral; [done|]. destruct n; [lia|done].
  - destruct liabilities; [done|]. destruct b; [lia|done].
  - rewrite fmap_take. apply take_prefix_of.
  - rewrite fmap_take. apply take_prefix_of.
  - rewrite !length_fmap, !length_take. lia.
Qed.

(** ** Lemmas: the selection loop *)

(** The plan is the first selection with a percent in range, or the whole
    position. *)
Definition selected (excess : Z) (collateral liabilities : list PositionValue)
    (target_health max_positions : Z) (plan : LiquidationPlan) : Prop :=
  (bounded_plan collateral liabilities 100 max_positions = Ok plan) ∨
  ∃ n b percent, (1 ≤ n ≤ length collateral)%nat ∧ (1 ≤ b ≤ length liabilities)%nat ∧
    selection_percent excess (take n collateral) (take b liabilities) target_health
      = Ok percent ∧ percent ≠ 0 ∧ percent ≤ 100 ∧
    bounded_plan (take n collateral) (take b liabilities) percent max_positions = Ok plan.

Lemma select_ok fuel excess collateral liabilities target_health max_positions n b :
  (1 ≤ n ≤ length collateral)%nat → (1 ≤ b ≤ length liabilities)%nat →
  (length collateral + length liabilities < fuel + n + b)%nat →
  ∃ r, select fuel excess collateral liabilities target_health max_positions n b = Some r ∧
    ∀ plan, r = Ok plan →
      selected excess collateral liabilities target_health max_positions plan.
Proof.
  revert n b. induction fuel as [|fuel IH]; intros n b Hn Hb Hf; [lia|]. simpl.
  destruct (selection_percent _ _ _ _) as [percent|e] eqn:Hp;
    [|eexists; split; [done|by intros plan Hplan]].
  destruct (Z.ltb_spec 100 percent).
  - destruct (b <? length liabilities)%nat eqn:H1; [apply IH; lia|].
    destruct (n <? length collateral)%nat eqn:H2; [apply IH; lia|].
    eexists. split; [done|]. intros plan Hplan. by left.
  - destruct (Z.eqb_spec percent 0).
    + destruct (n <? length collateral)%nat eqn:H2; [apply IH; lia|].
      eexists. split; [done|]. intros plan Hplan. by left.
    + eexists. split; [done|]. intros plan Hplan. right. exists n, b, percent.
      split_and!; try done; lia.
Qed.

Lemma take_nonempty {A} n (l : list A) : (1 ≤ n)%nat → l ≠ [] → take n l ≠ [].
Proof. intros. by destruct n, l; [lia|lia|done|]. Qed.

Lemma prefix_of_fmap_take {A B} (f : A → B) n (l : list A) k :
  k `prefix_of` (f <$> take n l) → k `prefix_of` (f <$> l).
Proof. intros Hk. etrans; [done|]. rewrite fmap_take. apply take_prefix_of. Qed.

Lemma selected_within excess collateral liabilities target_health max_positions plan :
  collateral ≠ [] → liabilities ≠ [] →
  selected excess collateral liabilities target_health max_positions plan →
  plan_within collateral liabilities max_positions plan.
Proof.
  intros Hc Hl [Hplan|(n & b & percent & Hn & Hb & _ & _ & _ & Hplan)].
  - destruct (bounded_plan_ok collateral liabilities 100 max_positions) as (p & Hp & _ & ?);
      [done..|]. rewrite Hplan in Hp. by injection Hp as ->.
  - destruct (bounded_plan_ok (take n collateral) (take b liabilities) percent max_positions)
      as (p & Hp & _ & Hw); [apply take_nonempty; lia || done..|].
    rewrite Hplan in Hp. injection Hp as <-.
    destruct Hw as (? & ? & ? & ?%prefix_of_fmap_take & ?%prefix_of_fmap_take & ?).
    by split_and!.
Qed.

(** The percent of a selection never asks for more collateral than it holds. *)
Lemma selection_percent_ok excess collateral liabilities target_health percent :
  0 < excess →
  selection_percent excess collateral liabilities target_health = Ok percent →
  0 < percent ≤ 100 →
  ∃ raw_c eff_c raw_l eff_l share incentive denominator,
    totals collateral = Ok (raw_c, eff_c) ∧ totals liabilities = Ok (raw_l, eff_l) ∧
    incentive_of (eff_c * SCALAR_7 / raw_c) (eff_l * SCALAR_7 / raw_l) = Ok incentive ∧
    denominator = ((eff_l * SCALAR_7 / raw_l) * target_health / SCALAR_7
      - incentive * (eff_c * SCALAR_7 / raw_c) / SCALAR_7) * raw_l / SCALAR_7 ∧
    0 < denominator ∧
    share = excess * 100 / denominator ∧ 0 ≤ share ∧ percent = Z.max share 1 ∧
    raw_l * share / 100 * incentive / SCALAR_7 ≤ raw_c.
Proof.
  intros Hex H Hr. unfold selection_percent in H.
  repeat (first [rust_step | fixed_step]; cbn beta iota in * ); subst; try lia.
  match goal with H : incentive_of _ _ = Ok ?i |- _ => rename i into incentive end.
  set (den := (_ * z1 / SCALAR_7)) in *. assert (0 < den) by lia.
  assert (0 ≤ excess * 100 / den) by (apply fdiv_nonneg; lia).
  assert (u32_or_max (excess * 100 / den) = excess * 100 / den) as Hu.
  { unfold u32_or_max in *. destruct (in_u32 _) eqn:Hin; [done|]. widths. lia. }
  rewrite Hu in *.
  exists z, z0, z1, z2, (excess * 100 / den), incentive, den.
  split_and!; try done; lia.
Qed.

(** ** Properties *)

(** The auctioneer's values agree with the health factor they are
    compared against: the selection's candidates are the borrower's non-zero
    positions, each exactly once, largest effective value first with the
    reserve index breaking ties, and their totals are exactly the four values
    [calculate_position_data] answers. *)
Theorem position_values_agree (reserves : gmap Z Reserve) (prices : OraclePrices)
  (positions : Positions) (c l : list PositionValue) (data : PositionData)
  (Hvalues : position_values reserves prices positions = Ok (c, l))
  (Hdata : calculate_position_data reserves prices positions = Ok data) :
  zsum pv_effective c = collateral_base data ∧ zsum pv_raw c = collateral_raw data ∧
  zsum pv_effective l = liability_base data ∧ zsum pv_raw l = liability_raw data ∧
  StronglySorted value_before c ∧ StronglySorted value_before l ∧
  (pv_index <$> c) ≡ₚ (filter (λ e, e.2 ≠ 0) (bt_iter (collateral positions))).*1 ∧
  (pv_index <$> l) ≡ₚ (filter (λ e, e.2 ≠ 0) (bt_iter (liabilities positions))).*1.
Proof.
  apply position_values_ok in Hvalues as (? & ? & ? & ? & Hv).
  apply calculate_position_data_ok in Hdata as (_ & _ & ->).
  rewrite Hv. by split_and!.
Qed.

Definition two_values : list PositionValue * list PositionValue :=
  match position_values two_pool two_prices two_positions with
  | Ok vs => vs
  | Err _ => ([], [])
  end.
Definition two_data : PositionData :=
  match calculate_position_data two_pool two_prices two_positions with
  | Ok d => d
  | Err _ => mkPositionData 0 0 0 0 0
  end.

Lemma position_values_agree_witness :
  pv_index <$> two_values.1 = [1; 0] ∧ zsum pv_effective two_values.1 = collateral_base two_data.
Proof.
  split; [vm_compute; reflexivity|].
  apply (position_values_agree two_pool two_prices two_positions two_values.1 two_values.2);
    vm_compute; reflexivity.
Defined.

Lemma plan_liquidation_spec (data : PositionData)
  (collateral liabilities : list PositionValue) (target_health max_positions : Z) :
  ∃ r, plan_liquidation data collateral liabilities target_health max_positions = Some r ∧
  match r with
  | Err e => True
  | Ok None => collateral = [] ∨ liabilities = [] ∨
      liability_base data * target_health / SCALAR_7 ≤ collateral_base data
  | Ok (Some plan) =>
      collateral_base data < liability_base data * target_health / SCALAR_7 ∧
      plan_within collateral liabilities max_positions plan ∧
      selected (liability_base data * target_health / SCALAR_7 - collateral_base data)
        collateral liabilities target_health max_positions plan
  end.
Proof.
  unfold plan_liquidation. destruct (bool_decide_reflect (liabilities = [])) as [|Hl]; simpl.
  { eexists. split; [done|]. simpl. auto. }
  destruct (bool_decide_reflect (collateral = [])) as [|Hc]; simpl.
  { eexists. split; [done|]. simpl. auto. }
  destruct (mul_floor _ _ _) as [target|e] eqn:Ht; [|by eexists].
  apply mul_floor_ok in Ht as (_ & -> & _).
  destruct (checked_sub _ _) as [excess|] eqn:Hs; [|by eexists].
  apply checked_sub_some in Hs as [-> _].
  destruct (Z.leb_spec (liability_base data * target_health / SCALAR_7 - collateral_base data) 0).
  { eexists. split; [done|]. simpl. lia. }
  destruct (select_ok (length collateral + length liabilities)
    (liability_base data * target_health / SCALAR_7 - collateral_base data)
    collateral liabilities target_health max_positions 1 1) as (r & -> & Hr);
    [destruct collateral; [done|simpl; lia]|destruct liabilities; [done|simpl; lia]|lia|].
  destruct r as [plan|e]; simpl; eexists; (split; [done|]); simpl; [|done].
  specialize (Hr _ eq_refl). split; [lia|]. split; [by eapply selected_within|done].
Qed.

(** C40: planning a liquidation always terminates, and answers no plan only
    for a borrower with an empty side or no excess. A plan it does answer
    names a percent between 1 and 100 and, on both sides, a non-empty prefix
    of the largest positions, at most [max_positions] assets in all (a cap
    below two counting as two); and it is either the first selection whose
    percent is in range or the whole position. *)
Theorem plan_liquidation_valid (data : PositionData)
  (collateral liabilities : list PositionValue) (target_health max_positions : Z) :
  ∃ r, plan_liquidation data collateral liabilities target_health max_positions = Some r ∧
  match r with
  | Err e => True
  | Ok None => collateral = [] ∨ liabilities = [] ∨
      liability_base data * target_health / SCALAR_7 ≤ collateral_base data
  | Ok (Some plan) =>
      collateral_base data < liability_base data * target_health / SCALAR_7 ∧
      plan_within collateral liabilities max_positions plan ∧
      selected (liability_base data * target_health / SCALAR_7 - collateral_base data)
        collateral liabilities target_health max_positions plan
  end.
Proof. apply plan_liquidation_spec. Qed.

(** The percent of a selection closes the excess to within one percent.
    When [selection_percent] answers a percent between 1 and 100, one percent
    more would regain strictly more borrow limit than the excess, the percent
    itself does not overshoot it (unless it was raised from zero to one), and
    the collateral the auction withdraws for it is held. *)
Theorem selection_percent_closes (excess target_health percent : Z)
  (collateral liabilities : list PositionValue)
  (Hexcess : 0 < excess) (Hrange : 0 < percent ≤ 100)
  (Hok : selection_percent excess collateral liabilities target_health = Ok percent) :
  ∃ raw_c eff_c raw_l eff_l incentive per_whole,
    totals collateral = Ok (raw_c, eff_c) ∧ totals liabilities = Ok (raw_l, eff_l) ∧
    incentive_of (eff_c * SCALAR_7 / raw_c) (eff_l * SCALAR_7 / raw_l) = Ok incentive ∧
    per_whole = ((eff_l * SCALAR_7 / raw_l) * target_health / SCALAR_7
      - incentive * (eff_c * SCALAR_7 / raw_c) / SCALAR_7) * raw_l / SCALAR_7 ∧
    excess * 100 < (percent + 1) * per_whole ∧
    (percent = 1 ∨ percent * per_whole ≤ excess * 100) ∧
    (percent = 1 ∨ raw_l * percent / 100 * incentive / SCALAR_7 ≤ raw_c).
Proof.
  destruct (selection_percent_ok excess collateral liabilities target_health percent)
    as (raw_c & eff_c & raw_l & eff_l & share & incentive & den & H1 & H2 & H3 & Hden & Hpos
        & Hshare & Hnn & -> & Hw); [done..|].
  exists raw_c, eff_c, raw_l, eff_l, incentive, den.
  pose proof (fdiv_spec (excess * 100) den Hpos) as Hd. rewrite <-Hshare in Hd.
  split_and!; try done; [nia|..]; (destruct (Z.le_gt_cases share 1); [left; lia|right]);
    rewrite Z.max_l by lia; [nia|done].
Qed.

Lemma selection_percent_closes_witness :
  selection_percent 1000000 two_values.1 two_values.2 11000000 = Ok 34 ∧
  ∃ per_whole : Z, 1000000 * 100 < 35 * per_whole ∧ (34 = 1 ∨ 34 * per_whole ≤ 1000000 * 100).
Proof.
  split; [vm_compute; reflexivity|].
  destruct (selection_percent_closes 1000000 11000000 34 two_values.1 two_values.2)
    as (_ & _ & _ & _ & _ & per_whole & _ & _ & _ & _ & H1 & H2 & _);
    [lia|lia|vm_compute; reflexivity|]. eauto.
Defined.
