(* ===== verification/Setoff.v ===== *)
(** * The default path of a full fill ([src/math/setoff.rs])

    What the contract's bad-debt handling does to a pool's reserves once a
    fill has taken a borrower's last collateral: set-off against the
    borrower's own supply, then destruction of the rest at the suppliers'
    expense. *)

From S2P Require Import Prelude Fixed Reserve Position.

(** ** Data *)

Record DefaultOutcome : Type := mkDefaultOutcome {
  out_reserves : gmap Z Reserve;
  defaulted : bool;
}.

(** ** Operations *)

(** Step 1: the borrower's own supply repays what it covers. Answers the
    reserve and the debt that is left. *)
Definition set_off (reserve : Reserve) (claim d_tokens : Z)
  : result MathError (Reserve * Z) :=
  if (0 <? claim) && (0 <? rd_b_rate (rs_data reserve)) then
    let? debt_assets := to_asset_from_d_token reserve d_tokens in
    let? debt_b_tokens := to_b_token_up reserve debt_assets in
    let b_tokens := Z.min claim debt_b_tokens in
    let? covered := to_asset_from_b_token reserve b_tokens in
    let? covered_d_tokens := to_d_token_down reserve covered in
    let repaid := Z.min d_tokens covered_d_tokens in
    if 0 <? repaid then
      let? b_supply :=
        ok_or (checked_sub (rd_b_supply (rs_data reserve)) b_tokens) Overflow in
      let? d_supply :=
        ok_or (checked_sub (rd_d_supply (rs_data reserve)) repaid) Overflow in
      let? debt := ok_or (checked_sub d_tokens repaid) Overflow in
      Ok (set_d_supply d_supply (set_b_supply b_supply reserve), debt)
    else Ok (reserve, d_tokens)
  else Ok (reserve, d_tokens).

(** Step 2: the rest is destroyed and charged to every supplier. *)
Definition destroy (reserve : Reserve) (debt : Z) : result MathError Reserve :=
  let? d_supply := ok_or (checked_sub (rd_d_supply (rs_data reserve)) debt) Overflow in
  let reserve := set_d_supply d_supply reserve in
  if 0 <? rd_b_supply (rs_data reserve) then
    let? default_amount := to_asset_from_d_token reserve debt in
    let? loss := div_ceil default_amount (rd_b_supply (rs_data reserve)) SCALAR_12 in
    let? b_rate := ok_or (checked_sub (rd_b_rate (rs_data reserve)) loss) Overflow in
    Ok (set_b_rate (Z.max b_rate 0) reserve)
  else Ok reserve.

(** The loop body: one of the borrower's liabilities. *)
Definition default_liability (supply : gmap Z Z) (acc : gmap Z Reserve * bool)
    (entry : Z * Z) : result MathError (gmap Z Reserve * bool) :=
  let '(reserves, defaulted_any) := acc in
  let '(index, d_tokens) := entry in
  let? reserve := reserve_of reserves index in
  let? (reserve, debt) := set_off reserve (get_or_zero supply index) d_tokens in
  if 0 <? debt then
    let? reserve := destroy reserve debt in
    Ok (<[index := reserve]> reserves, true)
  else Ok (<[index := reserve]> reserves, defaulted_any).

Definition project_default (reserves : gmap Z Reserve) (prices : OraclePrices)
    (borrower : Positions) : result MathError DefaultOutcome :=
  if bool_decide (liabilities borrower = ∅) then Ok (mkDefaultOutcome reserves false)
  else
    let? data := calculate_position_data reserves prices borrower in
    if negb (collateral_raw data =? 0) then Ok (mkDefaultOutcome reserves false)
    else
      let? (reserves, defaulted_any) :=
        try_fold (default_liability (supply borrower)) (reserves, false)
          (bt_iter (liabilities borrower)) in
      Ok (mkDefaultOutcome reserves defaulted_any).

(** ** One reserve's outcome *)

(** What the default path may do to one reserve the borrower owes [d] in: the
    whole debt leaves [d_supply]; b-tokens only burn; the rate only falls, by
    enough to charge the suppliers for whatever debt was destroyed ([lost]),
    and never below zero; everything else stays. *)
Record defaulted_reserve (d lost : Z) (r r' : Reserve) : Prop := mkDefaultedReserve {
  df_asset : rs_asset r' = rs_asset r;
  df_config : rs_config r' = rs_config r;
  df_scalar : rs_scalar r' = rs_scalar r;
  df_d_rate : rd_d_rate (rs_data r') = rd_d_rate (rs_data r);
  df_ir_mod : rd_ir_mod (rs_data r') = rd_ir_mod (rs_data r);
  df_credit : rd_backstop_credit (rs_data r') = rd_backstop_credit (rs_data r);
  df_lost : 0 ≤ lost ≤ d;
  df_d_supply : rd_d_supply (rs_data r') = rd_d_supply (rs_data r) - d;
  df_b_supply : rd_b_supply (rs_data r') ≤ rd_b_supply (rs_data r);
  df_b_rate : 0 ≤ rd_b_rate (rs_data r') ≤ rd_b_rate (rs_data r);
  df_kept : lost = 0 → rd_b_rate (rs_data r') = rd_b_rate (rs_data r);
  df_charged : 0 < rd_b_supply (rs_data r') →
    d_asset r lost * SCALAR_12
      ≤ (rd_b_rate (rs_data r) - rd_b_rate (rs_data r')) * rd_b_supply (rs_data r') ∨
    rd_b_rate (rs_data r') = 0;
}.

Definition default_reserve (reserve : Reserve) (claim d_tokens : Z)
  : result MathError (Reserve * Z) :=
  let? (reserve, debt) := set_off reserve claim d_tokens in
  if 0 <? debt then let? reserve := destroy reserve debt in Ok (reserve, debt)
  else Ok (reserve, debt).

Lemma set_off_ok r claim d r' debt :
  0 < rd_d_rate (rs_data r) → 0 ≤ rd_b_rate (rs_data r) → 0 ≤ d →
  set_off r claim d = Ok (r', debt) →
  0 ≤ debt ≤ d ∧ ∃ burnt, 0 ≤ burnt ∧
  r' = set_d_supply (rd_d_supply (rs_data r) - (d - debt))
         (set_b_supply (rd_b_supply (rs_data r) - burnt) r).
Proof.
  intros Hd Hb Hnn H. unfold set_off in H.
  assert (r = set_d_supply (rd_d_supply (rs_data r) - (d - d))
         (set_b_supply (rd_b_supply (rs_data r) - 0) r)) as Hsame.
  { rewrite !Z.sub_diag, !Z.sub_0_r. by destruct r as [? ? [] ?]. }
  destruct (_ && _) eqn:Hgate; [|injection H as <- <-; split; [lia|]; exists 0; done].
  rust_inv; subst.
  - match goal with H : to_asset_from_d_token r d = _ |- _ => apply asset_d_ok in H as -> end.
    match goal with H : to_b_token_up r _ = Ok ?b |- _ => assert (0 ≤ b) end.
    { conversions. fixed_inv. apply cdiv_nonneg; [lia|].
      assert (0 ≤ d_asset r d) by (apply cdiv_nonneg; scalars; nia). scalars. nia. }
    split; [lia|]. eexists. split; [|f_equal; f_equal; lia]. lia.
  - split; [lia|]. exists 0. done.
Qed.

Lemma destroy_ok r debt r' :
  0 < debt → 0 ≤ rd_b_rate (rs_data r) → 0 < rd_d_rate (rs_data r) →
  destroy r debt = Ok r' →
  r' = set_b_rate (rd_b_rate (rs_data r')) (set_d_supply (rd_d_supply (rs_data r) - debt) r) ∧
  0 ≤ rd_b_rate (rs_data r') ≤ rd_b_rate (rs_data r) ∧
  (0 < rd_b_supply (rs_data r) →
    d_asset r debt * SCALAR_12
      ≤ (rd_b_rate (rs_data r) - rd_b_rate (rs_data r')) * rd_b_supply (rs_data r) ∨
    rd_b_rate (rs_data r') = 0).
Proof.
  intros Hd Hb Hr H. unfold destroy in H. rust_inv; subst; simpl in *.
  - match goal with H : to_asset_from_d_token _ _ = _ |- _ => apply asset_d_ok in H as -> end.
    fixed_inv. subst.
    match goal with |- context [cdiv (?a * SCALAR_12) ?s] => set (asset := a) in *; set (bs := s) in * end.
    assert (0 < bs) as Hs by (unfold bs; lia).
    assert (asset = d_asset r debt) as Ha by done.
    assert (0 ≤ asset) by (rewrite Ha; apply cdiv_nonneg; scalars; nia).
    pose proof (cdiv_spec (asset * SCALAR_12) bs Hs).
    assert (0 ≤ cdiv (asset * SCALAR_12) bs) by (apply cdiv_nonneg; scalars; nia).
    split; [done|]. split; [lia|]. intros _. rewrite <-Ha. unfold bs in *.
    destruct (Z.le_gt_cases (rd_b_rate (rs_data r)) (cdiv (asset * SCALAR_12) bs)).
    + right. unfold bs in *. lia.
    + left. rewrite Z.max_l by (unfold bs in *; lia). unfold bs in *. nia.
  - split; [by destruct r as [? ? [] ?]|]. split; [lia|]. lia.
Qed.

Lemma default_reserve_ok r claim d r' lost :
  0 < rd_d_rate (rs_data r) → 0 ≤ rd_b_rate (rs_data r) → 0 ≤ d →
  default_reserve r claim d = Ok (r', lost) → defaulted_reserve d lost r r'.
Proof.
  intros Hd Hb Hnn H. unfold default_reserve in H. rust_inv; subst.
  all: match goal with H : set_off _ _ _ = _ |- _ =>
    apply set_off_ok in H as (Hdebt & burnt & Hburnt & ->); [|done..] end.
  - match goal with H : destroy _ _ = _ |- _ =>
      apply destroy_ok in H as (Hr' & Hrate & Hcharge); [|lia|done|done] end.
    simpl in *. rewrite Hr'. split; simpl; try done; lia.
  - split; simpl; try done; try lia.
    intros _. left. assert (lost = 0) as -> by lia. rewrite d_asset_zero. lia.
Qed.

(** The loop body is [default_reserve] at the entry's index. *)
Lemma default_liability_ok supply acc e acc' :
  default_liability supply acc e = Ok acc' →
  ∃ r r' lost, acc.1 !! e.1 = Some r ∧
    default_reserve r (get_or_zero supply e.1) e.2 = Ok (r', lost) ∧
    acc'.1 = <[e.1 := r']> acc.1 ∧
    acc'.2 = (if 0 <? lost then true else acc.2).
Proof.
  destruct acc as [reserves any], e as [i d]. unfold default_liability, default_reserve. simpl.
  intros H. rust_inv; subst; simpl.
  all: match goal with H : reserve_of _ _ = _ |- _ => apply reserve_of_ok in H end.
  all: match goal with
    | Hr : _ !! _ = Some ?r, Hs : set_off _ _ _ = Ok (?r1, ?z),
      Hd : destroy _ _ = Ok ?r2, Hb : (0 <? ?z) = _ |- _ =>
        exists r, r2, z; rewrite Hs; simpl; rewrite Hb; simpl; rewrite Hd
    | Hr : _ !! _ = Some ?r, Hs : set_off _ _ _ = Ok (?r1, ?z),
      Hb : (0 <? ?z) = _ |- _ => exists r, r1, z; rewrite Hs; simpl; rewrite Hb
    end; done.
Qed.

(** Pointwise: the reserves the borrower owes in have been through
    [default_reserve], the others are as they were. *)
Definition default_of (supply : gmap Z Z) (reserves : gmap Z Reserve)
    (l : list (Z * Z)) (reserves' : gmap Z Reserve) : Prop :=
  (∀ i, i ∉ l.*1 → reserves' !! i = reserves !! i) ∧
  (∀ i d, (i, d) ∈ l → ∃ r r' lost, reserves !! i = Some r ∧
     default_reserve r (get_or_zero supply i) d = Ok (r', lost) ∧
     reserves' !! i = Some r').

Lemma default_fold_ok supply reserves m reserves' any :
  try_fold (default_liability supply) (reserves, false) (bt_iter m) = Ok (reserves', any) →
  default_of supply reserves (bt_iter m) reserves' ∧
  (any = true ↔ ∃ i d r r' lost, m !! i = Some d ∧ reserves !! i = Some r ∧
     default_reserve r (get_or_zero supply i) d = Ok (r', lost) ∧ 0 < lost).
Proof.
  intros H. pose proof (bt_iter_NoDup_fst m) as Hnd.
  set (P := λ (l : list (Z * Z)) (acc : gmap Z Reserve * bool),
    default_of supply reserves l acc.1 ∧
    (acc.2 = true ↔ ∃ i d r r' lost, (i, d) ∈ l ∧ reserves !! i = Some r ∧
      default_reserve r (get_or_zero supply i) d = Ok (r', lost) ∧ 0 < lost)).
  assert (P (bt_iter m) (reserves', any)) as [HP Hany].
  { apply (try_fold_prefix (default_liability supply) P (reserves, false)); [| |exact H].
    - split; [split; [done|]|split; [done|]].
      + intros i d Hin. by apply not_elem_of_nil in Hin.
      + intros (i & d & r & r' & lost & Hin & _). by apply not_elem_of_nil in Hin.
    - intros l1 [k w] l2 acc acc' Hl [[Hout Hin] Hex] Hstep. unfold P in *.
      apply default_liability_ok in Hstep as (r & r' & lost & Hr & Hdef & Hacc & Hbool).
      simpl in *. rewrite Hl, fmap_app, fmap_cons in Hnd.
      assert (k ∉ l1.*1) as Hk.
      { apply NoDup_app in Hnd as (_ & Hd & _). intros Hi. apply (Hd k Hi). left. }
      rewrite Hout in Hr by done. rewrite Hacc, Hbool. split; [split|].
      + intros i. rewrite fmap_app. simpl. intros Hi.
        rewrite lookup_insert_ne by set_solver. apply Hout. set_solver.
      + intros i d [Hi|Hi]%elem_of_app.
        * rewrite lookup_insert_ne; [by apply Hin|].
          intros ->. apply Hk, list_elem_of_fmap. by exists (i, d).
        * apply list_elem_of_singleton in Hi. injection Hi as -> ->.
          exists r, r', lost. by rewrite lookup_insert_eq.
      + destruct (Z.ltb_spec 0 lost) as [Hlt|Hle].
        * split; [|done]. intros _. exists k, w, r, r', lost. set_solver.
        * rewrite Hex. split.
          -- intros (i & d & ri & ri' & li & Hi & ?). exists i, d, ri, ri', li. set_solver.
          -- intros (i & d & ri & ri' & li & [Hi|Hi]%elem_of_app & Hri & Hdi & Hli).
             { by exists i, d, ri, ri', li. }
             apply list_elem_of_singleton in Hi. injection Hi as -> ->.
             rewrite Hr in Hri. injection Hri as <-. rewrite Hdef in Hdi.
             injection Hdi as <- <-. lia. }
  split; [done|]. rewrite Hany. split; intros (i & d & r & r' & lost & Hi & ?);
    exists i, d, r, r', lost; (split; [by apply bt_iter_elem|done]).
Qed.

Lemma project_default_ok (reserves : gmap Z Reserve) (prices : OraclePrices)
  (borrower : Positions) (out : DefaultOutcome)
  (Hpool : wf_pool reserves prices) (Hborrower : wf_positions borrower)
  (Hok : project_default reserves prices borrower = Ok out) :
  (out = mkDefaultOutcome reserves false ∧
    (liabilities borrower = ∅ ∨
     side_value b_raw reserves prices (collateral borrower) ≠ 0)) ∨
  (side_value b_raw reserves prices (collateral borrower) = 0 ∧
   (∀ i, match liabilities borrower !! i with
         | None => out_reserves out !! i = reserves !! i
         | Some d => ∃ r r' lost, reserves !! i = Some r ∧
             out_reserves out !! i = Some r' ∧ defaulted_reserve d lost r r' ∧
             (defaulted out = false → lost = 0)
         end) ∧
   (defaulted out = false → ∀ i r', out_reserves out !! i = Some r' →
      ∃ r, reserves !! i = Some r ∧ rd_b_rate (rs_data r') = rd_b_rate (rs_data r))).
Proof.
  unfold project_default in Hok.
  destruct (bool_decide_reflect (liabilities borrower = ∅)); [injection Hok as <-; auto|].
  apply bind_ok in Hok as (data & Hdata & Hok).
  apply calculate_position_data_ok in Hdata as (_ & _ & ->). simpl in Hok.
  destruct (Z.eqb_spec (side_value b_raw reserves prices (collateral borrower)) 0) as [H0|H0];
    simpl in Hok; [|injection Hok as <-; auto].
  right. split; [done|]. apply bind_ok in Hok as ([reserves' any] & Hfold & Hok).
  injection Hok as <-. simpl. apply default_fold_ok in Hfold as ([Hout Hin] & Hany).
  assert (∀ i, match liabilities borrower !! i with
         | None => reserves' !! i = reserves !! i
         | Some d => ∃ r r' lost, reserves !! i = Some r ∧ reserves' !! i = Some r' ∧
             defaulted_reserve d lost r r' ∧ (any = false → lost = 0)
         end) as Hall.
  { intros i. destruct (liabilities borrower !! i) as [d|] eqn:Hi.
    - destruct (Hin i d) as (r & r' & lost & Hr & Hdef & Hr'); [by apply bt_iter_elem|].
      pose proof (wf_reserves _ _ Hpool _ _ Hr) as Hwf.
      pose proof (wf_liabilities _ Hborrower _ _ Hi).
      exists r, r', lost. split_and!; [done|done|by eapply default_reserve_ok; try apply Hwf|].
      intros ->. destruct (Z.lt_ge_cases 0 lost) as [Hlt|].
      + assert (false = true) by (apply Hany; by exists i, d, r, r', lost). done.
      + apply (default_reserve_ok _ _ _ _ _ (wf_d_rate _ Hwf) (wf_b_rate _ Hwf)) in Hdef;
          [|done]. destruct Hdef. lia.
    - apply Hout. intros Hk. apply bt_keys_elem in Hk as [v Hv]. congruence. }
  split; [done|]. intros -> i r' Hr'. specialize (Hall i).
  destruct (liabilities borrower !! i).
  - destruct Hall as (r & r1 & lost & Hr & Hr1 & Hdef & Hz). rewrite Hr' in Hr1.
    injection Hr1 as <-. exists r. split; [done|]. destruct Hdef. auto.
  - exists r'. by rewrite <-Hall.
Qed.

(** What a default may leave of a reserve as the contract's conversions read
    it: every debt converts as before, and collateral for no more. *)
Definition haircut (r r' : Reserve) : Prop :=
  rs_asset r' = rs_asset r ∧ rs_config r' = rs_config r ∧ rs_scalar r' = rs_scalar r ∧
  rd_d_rate (rs_data r') = rd_d_rate (rs_data r) ∧
  0 ≤ rd_b_rate (rs_data r') ≤ rd_b_rate (rs_data r).

Lemma haircut_same r : wf_reserve r → haircut r r.
Proof. intros []. by unfold haircut. Qed.

Lemma project_default_haircut reserves prices borrower out :
  wf_pool reserves prices → wf_positions borrower →
  project_default reserves prices borrower = Ok out →
  ∀ i, option_relation haircut (λ _, False) (λ _, False) (reserves !! i) (out_reserves out !! i).
Proof.
  intros Hpool Hb Hok i.
  destruct (project_default_ok reserves prices borrower out Hpool Hb Hok)
    as [[-> _]|(_ & Hall & _)]; simpl.
  { destruct (reserves !! i) eqn:Hi; simpl; [|done].
    eapply haircut_same, wf_reserves; done. }
  specialize (Hall i). destruct (liabilities borrower !! i).
  - destruct Hall as (r & r' & lost & -> & -> & [] & _). simpl. by unfold haircut.
  - rewrite Hall. destruct (reserves !! i) eqn:Hi; simpl; [|done].
    eapply haircut_same, wf_reserves; done.
Qed.

Section haircut_values.
Context (reserves reserves' : gmap Z Reserve) (prices : OraclePrices).
Context (Hpool : wf_pool reserves prices).
Context (Hcut : ∀ i, option_relation haircut (λ _, False) (λ _, False)
  (reserves !! i) (reserves' !! i)).

Lemma haircut_entry f g e :
  (∀ p r r', wf_reserve r → 0 < p → haircut r r' → f p r' e.2 ≤ g p r e.2) →
  entry_value f reserves' prices e ≤ entry_value g reserves prices e.
Proof.
  intros Hfg. unfold entry_value. specialize (Hcut e.1).
  destruct (reserves !! e.1) as [r|] eqn:Hr; destruct (reserves' !! e.1) as [r'|];
    simpl in Hcut; try done.
  pose proof Hcut as [-> _]. destruct (op_prices prices !! rs_asset r) as [p|] eqn:Hp; [|done].
  destruct Hpool. eauto.
Qed.

Lemma haircut_entry_ge f g e :
  (∀ p r r', wf_reserve r → 0 < p → haircut r r' → g p r e.2 ≤ f p r' e.2) →
  entry_value g reserves prices e ≤ entry_value f reserves' prices e.
Proof.
  intros Hfg. unfold entry_value. specialize (Hcut e.1).
  destruct (reserves !! e.1) as [r|] eqn:Hr; destruct (reserves' !! e.1) as [r'|];
    simpl in Hcut; try done.
  pose proof Hcut as [-> _]. destruct (op_prices prices !! rs_asset r) as [p|] eqn:Hp; [|done].
  destruct Hpool. eauto.
Qed.

(** A liability is worth what it was. *)
Lemma haircut_liabilities m :
  side_value d_base reserves' prices m = side_value d_base reserves prices m.
Proof.
  apply Z.le_antisymm; apply zsum_le; intros e _; [apply haircut_entry|apply haircut_entry_ge];
    intros p r r' _ _ (_ & Hc & Hs & Hd & _); unfold d_base, d_asset; by rewrite Hc, Hs, Hd.
Qed.

Lemma haircut_b_base p r r' b :
  wf_reserve r → 0 < p → haircut r r' → 0 ≤ b → 0 ≤ b_base p r' b ≤ b_base p r b.
Proof.
  intros Hwf Hp (_ & Hc & Hs & _ & Hb) Hnn. unfold b_base. rewrite Hc, Hs.
  pose proof (wf_scalar _ Hwf). pose proof (wf_c_factor _ (wf_cfg _ Hwf)).
  assert (0 ≤ b_asset r' b ≤ b_asset r b) as Ha.
  { unfold b_asset. split; [apply fdiv_nonneg|apply fdiv_mono]; scalars; nia. }
  assert (0 ≤ b_asset r' b * rc_c_factor (rs_config r) / SCALAR_7
    ≤ b_asset r b * rc_c_factor (rs_config r) / SCALAR_7) as He.
  { split; [apply fdiv_nonneg|apply fdiv_mono]; scalars; nia. }
  split; [apply fdiv_nonneg|apply fdiv_mono]; nia.
Qed.

(** Collateral is worth something between nothing and what it was. *)
Lemma haircut_collateral m :
  nonneg_map m →
  0 ≤ side_value b_base reserves' prices m ≤ side_value b_base reserves prices m.
Proof.
  intros Hm. split.
  - apply zsum_nonneg. intros e He.
    transitivity (entry_value (λ _ _ _, 0) reserves prices e).
    { unfold entry_value. by repeat case_match. }
    apply haircut_entry_ge. intros p r r' Hwf Hp Hc. apply (haircut_b_base p r); try done.
    destruct e as [i a]. apply elem_of_map_to_list in He. by eapply Hm.
  - apply zsum_le. intros e He. apply haircut_entry.
    intros p r r' Hwf Hp Hc. apply haircut_b_base; try done.
    destruct e as [i a]. apply elem_of_map_to_list in He. by eapply Hm.
Qed.
End haircut_values.

(** ** Properties *)

(** Below its gate — no liabilities, or collateral still worth
    something — the default path changes nothing. Past it, every reserve the
    borrower owes in loses the whole debt from [d_supply], keeps its
    configuration, [d_rate] and credit, only ever burns b-tokens, and has its
    [b_rate] cut by at least what charges the suppliers for the debt that was
    destroyed rather than set off (or to zero); every other reserve is as it
    was. A default is reported exactly when some debt was destroyed, and
    without one no [b_rate] has moved. *)
Theorem project_default_spec (reserves : gmap Z Reserve) (prices : OraclePrices)
  (borrower : Positions) (out : DefaultOutcome)
  (Hpool : wf_pool reserves prices) (Hborrower : wf_positions borrower)
  (Hok : project_default reserves prices borrower = Ok out) :
  (out = mkDefaultOutcome reserves false ∧
    (liabilities borrower = ∅ ∨
     side_value b_raw reserves prices (collateral borrower) ≠ 0)) ∨
  (side_value b_raw reserves prices (collateral borrower) = 0 ∧
   (∀ i, match liabilities borrower !! i with
         | None => out_reserves out !! i = reserves !! i
         | Some d => ∃ r r' lost, reserves !! i = Some r ∧
             out_reserves out !! i = Some r' ∧ defaulted_reserve d lost r r' ∧
             (defaulted out = false → lost = 0)
         end) ∧
   (defaulted out = false → ∀ i r', out_reserves out !! i = Some r' →
      ∃ r, reserves !! i = Some r ∧ rd_b_rate (rs_data r') = rd_b_rate (rs_data r))).
Proof. by apply project_default_ok. Qed.

Definition broke_borrower : Positions :=
  mkPositions ∅ {[ 0 := 20000000; 1 := 9000000 ]} {[ 1 := 5000000 ]}.

Lemma broke_borrower_wf : wf_positions broke_borrower.
Proof.
  split; simpl; repeat first [apply nonneg_map_insert | apply nonneg_map_singleton
    | apply nonneg_map_empty]; lia.
Qed.

Definition broke_outcome : DefaultOutcome :=
  match project_default two_pool two_prices broke_borrower with
  | Ok out => out
  | Err _ => mkDefaultOutcome ∅ false
  end.

Lemma project_default_spec_witness :
  project_default two_pool two_prices broke_borrower = Ok broke_outcome ∧
  ∃ r r' lost, two_pool !! 1 = Some r ∧ out_reserves broke_outcome !! 1 = Some r' ∧
    defaulted_reserve 9000000 lost r r'.
Proof.
  split; [vm_compute; reflexivity|].
  destruct (project_default_spec two_pool two_prices broke_borrower broke_outcome)
    as [[Heq _]|(_ & Hall & _)];
    [apply two_pool_wf|apply broke_borrower_wf|vm_compute; reflexivity| |].
  - apply (f_equal defaulted) in Heq. vm_compute in Heq. discriminate.
  - destruct (Hall 1) as (r & r' & lost & H1 & H2 & H3 & _). exists r, r', lost.
    exact (conj H1 (conj H2 H3)).
Defined.

Definition cleared_outcome : DefaultOutcome :=
  match project_default two_pool two_prices
    (mkPositions ∅ {[ 1 := 4000000 ]} {[ 1 := 5000000 ]}) with
  | Ok out => out
  | Err _ => mkDefaultOutcome ∅ true
  end.

(** A set-off that clears every liability is not a no-op: no default is
    reported and no [b_rate] moves, but the b-tokens and the debt it burnt
    are gone from the reserve, so the reserves are not an unchanged clone. *)
Theorem set_off_without_default_moves_supplies :
  project_default two_pool two_prices
    (mkPositions ∅ {[ 1 := 4000000 ]} {[ 1 := 5000000 ]}) = Ok cleared_outcome ∧
  defaulted cleared_outcome = false ∧
  two_pool !! 1 = Some other_reserve ∧
  out_reserves cleared_outcome !! 1 = Some
    (set_d_supply (rd_d_supply (rs_data other_reserve) - 4000000)
      (set_b_supply (rd_b_supply (rs_data other_reserve) - 4006185) other_reserve)) ∧
  out_reserves cleared_outcome ≠ two_pool.
Proof.
  split_and!; [vm_compute; reflexivity..|].
  intros H. apply (f_equal (λ m : gmap Z Reserve, rd_d_supply ∘ rs_data <$> m !! 1)) in H.
  vm_compute in H. discriminate.
Qed.
