(* ===== verification/FillDelay.v ===== *)
(** * When to fill ([src/math/fill.rs], first half)

    The ledger an auction becomes worth filling at, in closed form, and the
    two sides of an auction as a position. *)

From S2P Require Import Prelude Fixed Reserve Position Auction.

Definition FORCE_FILL_MAX_DELAY : Z := 350.
Definition BPS : Z := 10000.

(** ** An auction as a position *)

Definition index_of (asset_index : gmap string Z) (asset : string) : result MathError Z :=
  ok_or (asset_index !! asset)
    (InvalidInput "an auction names an asset that is not a reserve of this pool").

Definition insert_indexed (asset_index : gmap string Z) (m : gmap Z Z)
    (entry : string * Z) : result MathError (gmap Z Z) :=
  let '(asset, amount) := entry in
  let? index := index_of asset_index asset in
  Ok (<[index := amount]> m).

Definition auction_positions (auction : AuctionData) (asset_index : gmap string Z)
  : result MathError Positions :=
  let? collateral := try_fold (insert_indexed asset_index) ∅ (bt_iter (lot auction)) in
  let? liabilities := try_fold (insert_indexed asset_index) ∅ (bt_iter (bid auction)) in
  Ok (mkPositions collateral liabilities ∅).

(** ** The earliest profitable delay *)

Definition fill_delay (lot_raw bid_raw profit_bps : Z) (force_fill : bool)
  : result MathError Z :=
  guard negb ((lot_raw <? 0) || (bid_raw <? 0))
    else InvalidInput "an auction's value is never negative";
  let ramp := RAMP_BLOCKS in
  let? margin := ok_or (checked_add BPS profit_bps) Overflow in
  let? delay :=
    if bid_raw =? 0 then Ok 0
    else if lot_raw =? 0 then Ok RAMP_END_BLOCKS
    else if bid_raw * margin <=? lot_raw * BPS then
      let? denominator := ok_or (checked_mul lot_raw BPS) Overflow in
      let? factor := ok_or (checked_mul ramp margin) Overflow in
      let? delay := mul_ceil bid_raw factor denominator in
      ok_or (to_u32 delay) Overflow
    else
      let? denominator := ok_or (checked_mul bid_raw margin) Overflow in
      let? factor := ok_or (checked_mul ramp BPS) Overflow in
      let? covered := mul_floor lot_raw factor denominator in
      let? covered := ok_or (to_u32 covered) Overflow in
      ok_or (u32_checked_sub RAMP_END_BLOCKS covered) Overflow in
  Ok (if force_fill then Z.min delay FORCE_FILL_MAX_DELAY else delay).

(** Cross-multiplied in 256 bits, with no rounding anywhere. *)
Definition meets_margin (delay lot_raw bid_raw profit_bps : Z) : bool :=
  let margin := BPS + profit_bps in
  bid_raw * bid_modifier delay * margin <=? lot_raw * lot_modifier delay * BPS.

Definition health_floor (min_health_factor multiplier : Z) : result MathError Z :=
  mul_ceil min_health_factor multiplier SCALAR_7.

Definition to_oracle_units (value oracle_scalar : Z) : result MathError Z :=
  mul_floor value oracle_scalar SCALAR_7.

(** ** Lemmas *)

(** The margin condition in the contract's steps of one two-hundredth: on the
    lot ramp the bid is whole, on the bid ramp the lot is. *)
Lemma meets_margin_lot_ramp d lot bid p :
  0 ≤ d ≤ 200 →
  meets_margin d lot bid p = (200 * (bid * (BPS + p)) <=? d * (lot * BPS)).
Proof.
  intros Hd. unfold meets_margin. rewrite bid_modifier_whole by (ramps; lia).
  unfold lot_modifier, RAMP_BLOCKS, PER_BLOCK_SCALAR.
  destruct (Z.leb_spec d 200); [|lia]. unfold SCALAR_7, BPS.
  apply eq_true_iff_eq. rewrite !Z.leb_le. lia.
Qed.

Lemma meets_margin_bid_ramp d lot bid p :
  200 ≤ d ≤ 400 →
  meets_margin d lot bid p = ((400 - d) * (bid * (BPS + p)) <=? 200 * (lot * BPS)).
Proof.
  intros Hd. unfold meets_margin. rewrite lot_modifier_whole by (ramps; lia).
  assert (bid_modifier d = (400 - d) * 50000) as -> by (ramps; repeat case_match; lia).
  unfold SCALAR_7, BPS. apply eq_true_iff_eq. rewrite !Z.leb_le. lia.
Qed.

Lemma meets_margin_mono d d' lot bid p :
  0 ≤ d ≤ d' → 0 ≤ lot → 0 ≤ bid → 0 ≤ p →
  meets_margin d lot bid p = true → meets_margin d' lot bid p = true.
Proof.
  intros Hd Hl Hb Hp. unfold meets_margin.
  pose proof (bid_modifier_anti d d' ltac:(lia)).
  pose proof (lot_modifier_mono d d' ltac:(lia)).
  pose proof (bid_modifier_range d'). pose proof (lot_modifier_range d ltac:(lia)).
  rewrite !Z.leb_le. intros H'. assert (0 ≤ BPS) by done.
  transitivity (bid * bid_modifier d * (BPS + p));
    [apply Z.mul_le_mono_nonneg_r, Z.mul_le_mono_nonneg_l; lia|].
  transitivity (lot * lot_modifier d * BPS); [done|].
  apply Z.mul_le_mono_nonneg_r, Z.mul_le_mono_nonneg_l; lia.
Qed.

(** The closed form, branch by branch. *)
Definition is_least_delay (lot bid p d : Z) : Prop :=
  0 ≤ d ≤ 400 ∧ meets_margin d lot bid p = true ∧
  ∀ d', 0 ≤ d' < d → meets_margin d' lot bid p = false.

Lemma least_delay_lot_ramp lot bid p :
  0 < lot → 0 < bid → 0 ≤ p → bid * (BPS + p) ≤ lot * BPS →
  is_least_delay lot bid p (cdiv (bid * (RAMP_BLOCKS * (BPS + p))) (lot * BPS)).
Proof.
  intros Hl Hb Hp Hle. assert (0 < BPS) as HB by done.
  set (x := bid * (BPS + p)) in *. set (y := lot * BPS) in *.
  assert (0 < y) as Hy by (unfold y; nia). assert (0 ≤ x) as Hx by (unfold x; nia).
  replace (bid * (RAMP_BLOCKS * (BPS + p))) with (200 * x) by (unfold x, RAMP_BLOCKS; lia).
  pose proof (cdiv_spec (200 * x) y Hy) as Hd.
  assert (0 ≤ cdiv (200 * x) y ≤ 200) as Hr by (split; [apply cdiv_nonneg|apply cdiv_le]; lia).
  split; [lia|]. rewrite meets_margin_lot_ramp by lia. fold x y. split; [lia|].
  intros d' Hd'. rewrite meets_margin_lot_ramp by lia. fold x y. nia.
Qed.

Lemma least_delay_bid_ramp lot bid p :
  0 ≤ lot → 0 < bid → 0 ≤ p → lot * BPS < bid * (BPS + p) →
  is_least_delay lot bid p
    (RAMP_END_BLOCKS - (lot * (RAMP_BLOCKS * BPS)) / (bid * (BPS + p))).
Proof.
  intros Hl Hb Hp Hlt. assert (0 < BPS) as HB by done.
  set (x := bid * (BPS + p)) in *.
  replace (lot * (RAMP_BLOCKS * BPS)) with (200 * (lot * BPS)) by (unfold RAMP_BLOCKS; lia).
  set (y := lot * BPS) in *. unfold RAMP_END_BLOCKS.
  assert (0 < x) as Hx by (unfold x; nia). assert (0 ≤ y) as Hy by (unfold y; nia).
  pose proof (fdiv_spec (200 * y) x Hx) as Hd. set (k := 200 * y / x) in *.
  assert (0 ≤ k < 200) as Hk by nia.
  split; [lia|]. rewrite meets_margin_bid_ramp by lia. fold x y. split; [nia|].
  intros d' Hd'. destruct (Z.le_gt_cases 200 d').
  - rewrite meets_margin_bid_ramp by lia. fold x y. nia.
  - rewrite meets_margin_lot_ramp by lia. fold x y. nia.
Qed.

Lemma fill_delay_ok lot bid p force d :
  0 ≤ p → fill_delay lot bid p force = Ok d →
  0 ≤ lot ∧ 0 ≤ bid ∧ ∃ d0, is_least_delay lot bid p d0 ∧
  d = if force then Z.min d0 FORCE_FILL_MAX_DELAY else d0.
Proof.
  intros Hp H. unfold fill_delay in H.
  destruct (_ || _) eqn:Hneg; [done|]. cbn [negb] in H.
  split; [lia|]. split; [lia|]. apply bind_ok in H as (margin & Hm & H).
  apply ok_or_ok, checked_add_some in Hm as [-> _].
  apply bind_ok in H as (d0 & Hd0 & H). injection H as <-.
  exists d0. split; [|done]. clear force.
  destruct (Z.eqb_spec bid 0) as [->|Hbid]; [injection Hd0 as <-|].
  { split; [lia|]. rewrite meets_margin_lot_ramp by lia. split; lia. }
  destruct (Z.eqb_spec lot 0) as [->|Hlot]; [injection Hd0 as <-|].
  { pose proof (least_delay_bid_ramp 0 bid p ltac:(lia) ltac:(lia) Hp) as Hl.
    rewrite !Z.mul_0_l, Z.div_0_l, Z.sub_0_r in Hl by (unfold BPS; lia).
    apply Hl. unfold BPS. lia. }
  destruct (Z.leb_spec (bid * (BPS + p)) (lot * BPS)) as [Hle|Hlt]; rust_inv; subst;
    repeat match goal with
    | H : mul_ceil _ _ _ = Ok _ |- _ => apply mul_ceil_ok in H as (_ & -> & _)
    | H : mul_floor _ _ _ = Ok _ |- _ => apply mul_floor_ok in H as (_ & -> & _)
    end.
  - apply least_delay_lot_ramp; lia.
  - apply least_delay_bid_ramp; lia.
Qed.

Lemma fill_delay_total lot bid p force :
  0 ≤ lot → 0 ≤ bid → is_u32 p → is_i128 (lot * BPS) → is_i128 (bid * (BPS + p)) →
  is_ok (fill_delay lot bid p force) = true.
Proof.
  intros Hl Hb Hp Hlot Hbid. unfold fill_delay.
  replace (_ || _) with false by lia. cbn [negb].
  assert (0 < BPS) as HB by done. assert (RAMP_BLOCKS = 200) as HR by done.
  unfold checked_add, checked_mul, u32_checked_sub.
  rewrite (to_i128_in (BPS + p)) by (unfold BPS; widths; lia). simpl ok_or. cbn [rbind].
  destruct (Z.eqb_spec bid 0); [done|]. destruct (Z.eqb_spec lot 0); [done|].
  rewrite !(to_i128_in (RAMP_BLOCKS * _)) by (rewrite HR; unfold BPS; widths; lia).
  destruct (Z.leb_spec (bid * (BPS + p)) (lot * BPS)).
  - rewrite to_i128_in by done. cbn [rbind ok_or].
    destruct (least_delay_lot_ramp lot bid p) as (Hr & _); try (widths; lia).
    rewrite mul_ceil_in; [|nia|done|apply is_i128_small; unfold u64_max; lia].
    cbn [rbind ok_or]. unfold to_u32. by rewrite (proj2 (in_u32_iff _)) by (widths; lia).
  - rewrite to_i128_in by done. cbn [rbind ok_or].
    destruct (least_delay_bid_ramp lot bid p) as (Hr & _); try (widths; lia).
    set (k := _ / _) in *. unfold RAMP_END_BLOCKS in *.
    assert (0 ≤ k) by (apply fdiv_nonneg; unfold BPS, RAMP_BLOCKS; widths; nia).
    rewrite mul_floor_in; [|widths; nia|done|apply is_i128_small; fold k; unfold u64_max; lia].
    fold k. cbn [rbind ok_or]. unfold to_u32.
    rewrite (proj2 (in_u32_iff k)) by (widths; lia). cbn [rbind ok_or].
    by rewrite (proj2 (in_u32_iff (400 - k))) by (widths; lia).
Qed.

(** A profitable fill is never planned too early, nor later than the
    margin needs. The delay [fill_delay] answers is the least one whose
    ramped lot pays for the ramped bid and the margin; every later delay pays
    for it too; a forced fill takes the earlier of that and
    [FORCE_FILL_MAX_DELAY]; and every auction whose two products fit an
    [i128] gets an answer, so the closed form never fails for want of a
    profitable ledger. *)
Theorem fill_delay_is_least lot bid p force :
  0 ≤ lot → 0 ≤ bid → is_u32 p → is_i128 (lot * BPS) → is_i128 (bid * (BPS + p)) →
  ∃ d0, fill_delay lot bid p force =
      Ok (if force then Z.min d0 FORCE_FILL_MAX_DELAY else d0) ∧
    0 ≤ d0 ≤ RAMP_END_BLOCKS ∧
    (∀ d, 0 ≤ d → meets_margin d lot bid p = (d0 <=? d)).
Proof.
  intros Hl Hb Hp Hlot Hbid.
  pose proof (fill_delay_total lot bid p force Hl Hb Hp Hlot Hbid) as Hok.
  assert (0 ≤ p) by (widths; lia).
  destruct (fill_delay lot bid p force) as [d|e] eqn:H'; [|done].
  apply fill_delay_ok in H' as (_ & _ & d0 & (Hr & Hd0 & Hleast) & ->); [|done].
  exists d0. split; [done|]. split; [done|]. intros d Hd.
  destruct (Z.leb_spec d0 d).
  - apply (meets_margin_mono d0 d); first [done | lia].
  - apply Hleast. lia.
Qed.

Lemma fill_delay_is_least_witness :
  fill_delay 1200000 1000000 1000 false = Ok 184 ∧ meets_margin 183 1200000 1000000 1000 = false.
Proof.
  destruct (fill_delay_is_least 1200000 1000000 1000 false) as (d0 & H & _ & Hd);
    [lia|lia|widths; lia|unfold BPS; widths; lia|unfold BPS; widths; lia|].
  assert (fill_delay 1200000 1000000 1000 false = Ok 184) as E by (vm_compute; reflexivity).
  split; [exact E|]. rewrite E in H. injection H as <-. by rewrite Hd.
Defined.
