(* ===== verification/Fill.v ===== *)
(** * Planning a fill ([src/math/fill.rs], second half)

    The requests that take an auction over while the filler's own position
    stays at or above its floor: the projection of one candidate, the searches
    over percents and ledgers, and the planner's rounds. *)

From S2P Require Import Prelude Fixed Reserve Position Auction Encode Setoff FillDelay.

Open Scope Z_scope.

(** ** Data *)

Inductive FillObjective : Type := FreeFill | EarliestProfitable.

Record FillTerms : Type := mkFillTerms {
  ft_min_collateral : Z;
  ft_max_positions : Z;
  ft_supply_allowed : bool;
  ft_primary_asset : string;
  ft_health_floor : Z;
  ft_profit_bps : Z;
  ft_force_fill : bool;
  ft_objective : FillObjective;
  ft_plan_iterations : Z;
}.

Record FillInputs : Type := mkFillInputs {
  fi_reserves : gmap Z Reserve;
  fi_asset_index : gmap string Z;
  fi_prices : OraclePrices;
  fi_filler : Positions;
  fi_borrower : Positions;
  fi_wallet : gmap string Z;
  fi_auction : AuctionData;
  fi_earliest_ledger : Z;
  fi_max_percent : FillPercent;
}.

Inductive FillAction : Type :=
| Repay (asset : string) (amount : Z)
| WithdrawAll (asset : string)
| SupplyCollateral (asset : string) (amount : Z).

Record FillDraft : Type := mkFillDraft {
  fd_fill_ledger : Z;
  fd_percent : FillPercent;
  fd_actions : list FillAction;
  fd_to_fill : AuctionData;
  fd_lot_value : Z;
  fd_bid_value : Z;
  fd_est_profit : Z;
  fd_spend : gmap string Z;
  fd_projected_health : option Z;
}.

Inductive FillSkip : Type :=
| Unprofitable | TooManyPositions | Unfunded | SupplyCapped | Health.

Inductive PlannedFill : Type :=
| Fill (draft : FillDraft)
| Skip (why : FillSkip).

Definition REPAY_ALLOWANCE_BPS : Z := 1.
Definition SUPPLY_ROUNDING_ALLOWANCE : Z := 2.

(** One candidate, projected. *)
Record Projection : Type := mkProjection {
  pj_to_fill : AuctionData;
  pj_positions : Positions;
  pj_actions : list FillAction;
  pj_spend : gmap string Z;
  pj_primary_available : Z;
  pj_data : PositionData;
}.

(** ** The projection *)

Definition reserve_for (inputs : FillInputs) (asset : string)
  : result MathError (Z * Reserve) :=
  let? index := ok_or (fi_asset_index inputs !! asset)
    (InvalidInput "a fill names an asset that is not a reserve of this pool") in
  let? reserve := ok_or (fi_reserves inputs !! index) (MissingReserve index) in
  Ok (index, reserve).

Definition add_to {K : Type} `{Countable K} (m : gmap K Z) (key : K) (amount : Z)
  : result MathError (gmap K Z) :=
  if amount =? 0 then Ok m
  else
    let? entry := ok_or (checked_add (get_or_zero m key) amount) Overflow in
    Ok (<[key := entry]> m).

Definition remove_from (m : gmap Z Z) (index amount : Z) : result MathError (gmap Z Z) :=
  match m !! index with
  | None => Ok m
  | Some held =>
      let? left' := ok_or (checked_sub held amount) Overflow in
      Ok (if 0 <? left' then <[index := left']> m else delete index m)
  end.

(** A loop over one side of the auction that moves each asset's amount into
    or out of a side of a position. *)
Definition move_side (inputs : FillInputs)
    (move : gmap Z Z → Z → Z → result MathError (gmap Z Z))
    (m : gmap Z Z) (side : gmap string Z) : result MathError (gmap Z Z) :=
  try_fold (λ m '(asset, tokens),
    let? (index, _) := reserve_for inputs asset in move m index tokens)
    m (bt_iter side).

Definition defaulted_reserves (inputs : FillInputs) (to_fill : AuctionData)
  : result MathError (gmap Z Reserve) :=
  let? collateral' := move_side inputs remove_from (collateral (fi_borrower inputs)) (lot to_fill) in
  let? liabilities' :=
    move_side inputs remove_from (liabilities (fi_borrower inputs)) (bid to_fill) in
  let? out := project_default (fi_reserves inputs) (fi_prices inputs)
    (mkPositions collateral' liabilities' (supply (fi_borrower inputs))) in
  Ok (out_reserves out).

(** What the loop over the repays carries. *)
Record Repaying : Type := mkRepaying {
  rp_liabilities : gmap Z Z;
  rp_wallet : gmap string Z;
  rp_spend : gmap string Z;
  rp_actions : list FillAction;
}.

Definition repay_bid (inputs : FillInputs) (s : Repaying) (entry : string * Z)
  : result MathError Repaying :=
  let '(asset, d_tokens) := entry in
  let held := get_or_zero (rp_wallet s) asset in
  if held <=? 0 then Ok s
  else
    let? (index, reserve) := reserve_for inputs asset in
    let? owed := to_asset_from_d_token reserve d_tokens in
    let? allowance := mul_floor owed REPAY_ALLOWANCE_BPS BPS in
    let? wanted := ok_or (checked_add owed allowance ≫= λ a, checked_add a 1) Overflow in
    let amount := Z.min wanted held in
    let owing := get_or_zero (rp_liabilities s) index in
    let? burnt := to_d_token_down reserve amount in
    let burnt := Z.min burnt owing in
    let? left' := ok_or (checked_sub owing burnt) Overflow in
    let liabilities' :=
      if 0 <? left' then <[index := left']> (rp_liabilities s)
      else delete index (rp_liabilities s) in
    let? rest := ok_or (checked_sub held amount) Overflow in
    let? spend := add_to (rp_spend s) asset amount in
    Ok (mkRepaying liabilities' (<[asset := rest]> (rp_wallet s)) spend
          (rp_actions s ++ [Repay asset amount])).

Definition withdraw_lot (inputs : FillInputs) (acc : gmap Z Z * list FillAction)
    (asset : string) : result MathError (gmap Z Z * list FillAction) :=
  let '(held, actions) := acc in
  let? (index, reserve) := reserve_for inputs asset in
  Ok (if rc_c_factor (rs_config reserve) =? 0
      then (delete index held, actions ++ [WithdrawAll asset]) else (held, actions)).

(** The supply of the primary asset, the last request of a fill. *)
Definition supply_primary (terms : FillTerms) (inputs : FillInputs) (supply : Z)
    (acc : gmap Z Z * list FillAction * gmap string Z)
  : result MathError (gmap Z Z * list FillAction * gmap string Z) :=
  let '(held, actions, spend) := acc in
  if 0 <? supply then
    let? (index, reserve) := reserve_for inputs (ft_primary_asset terms) in
    let? b_tokens := to_b_token_down reserve supply in
    if 0 <? b_tokens then
      let? held := add_to held index b_tokens in
      let? spend := add_to spend (ft_primary_asset terms) supply in
      Ok (held, actions ++ [SupplyCollateral (ft_primary_asset terms) supply], spend)
    else Ok acc
  else Ok acc.

Definition project (terms : FillTerms) (inputs : FillInputs) (ledger : Z)
    (percent : FillPercent) (supply : Z) : result MathError Projection :=
  let? scaled := scale_auction (fi_auction inputs) ledger (fp_get percent) in
  let filled := to_fill scaled in
  let? collateral' := move_side inputs add_to (collateral (fi_filler inputs)) (lot filled) in
  let? liabilities' := move_side inputs add_to (liabilities (fi_filler inputs)) (bid filled) in
  let? repaid := try_fold (repay_bid inputs)
    (mkRepaying liabilities' (fi_wallet inputs) ∅ []) (bt_iter (bid filled)) in
  let? (collateral', actions) :=
    try_fold (withdraw_lot inputs) (collateral', rp_actions repaid) (bt_keys (lot filled)) in
  let primary_available := Z.max (get_or_zero (rp_wallet repaid) (ft_primary_asset terms)) 0 in
  let supply := Z.min supply primary_available in
  let? (collateral', actions, spend) :=
    supply_primary terms inputs supply (collateral', actions, rp_spend repaid) in
  let positions := mkPositions collateral' (rp_liabilities repaid)
    (Position.supply (fi_filler inputs)) in
  let? reserves :=
    match remaining scaled with
    | None => defaulted_reserves inputs filled
    | Some _ => Ok (fi_reserves inputs)
    end in
  let? data := calculate_position_data reserves (fi_prices inputs) positions in
  Ok (mkProjection filled positions actions spend primary_available data).

(** ** Judging a projection *)

Definition no_liabilities (p : Positions) : bool := bool_decide (liabilities p = ∅).

Definition healthy (terms : FillTerms) (projection : Projection) : result MathError bool :=
  if no_liabilities (pj_positions projection) then Ok true
  else
    let? under := is_hf_under (pj_data projection) (ft_health_floor terms) in
    Ok (negb under && (ft_min_collateral terms <=? collateral_base (pj_data projection))).

Definition over_positions (terms : FillTerms) (inputs : FillInputs) (projection : Projection)
  : bool :=
  let before := effective_count (fi_filler inputs) in
  let after := effective_count (pj_positions projection) in
  (before <? after) &&
  match to_u32 after with
  | None => true
  | Some after => ft_max_positions terms <? after
  end.

Definition supply_for (terms : FillTerms) (inputs : FillInputs) (data : PositionData)
  : result MathError Z :=
  let? floor := mul_ceil (liability_base data) (ft_health_floor terms) SCALAR_7 in
  let wanted := Z.max floor (ft_min_collateral terms) in
  let? short := ok_or (checked_sub wanted (collateral_base data)) Overflow in
  let shortfall := Z.max short 0 in
  if shortfall =? 0 then Ok 0
  else
    let? (_, reserve) := reserve_for inputs (ft_primary_asset terms) in
    let c_factor := rc_c_factor (rs_config reserve) in
    if c_factor =? 0 then Ok 0
    else
      let? p := price (fi_prices inputs) (rs_asset reserve) in
      let? effective := mul_ceil shortfall (rs_scalar reserve) p in
      let? amount := div_ceil effective c_factor SCALAR_7 in
      ok_or (checked_add amount SUPPLY_ROUNDING_ALLOWANCE) Overflow.

(** ** The supply cap's headroom *)

Definition fits_cap (reserve : Reserve) (amount : Z) : result MathError bool :=
  let? minted := to_b_token_down reserve amount in
  let? after := ok_or (checked_add (rd_b_supply (rs_data reserve)) minted) Overflow in
  let? total := to_asset_from_b_token reserve after in
  Ok (total <=? rc_supply_cap (rs_config reserve)).

(** The [while low < high] loop. The range halves, so the width of an [i128]
    bounds the iterations ([cap_search_largest]). *)
Fixpoint cap_search (fuel : nat) (reserve : Reserve) (low high : Z) : result MathError Z :=
  match fuel with
  | O => Ok low
  | S fuel =>
      if low <? high then
        let mid := low + Z.quot (high - low) 2 + Z.land (high - low) 1 in
        let? fits := fits_cap reserve mid in
        if (fits : bool) then cap_search fuel reserve mid high
        else cap_search fuel reserve low (mid - 1)
      else Ok low
  end.

Definition supply_headroom (reserve : Reserve) (wanted : Z) : result MathError Z :=
  if wanted <=? 0 then Ok 0
  else
    let? fits := fits_cap reserve wanted in
    if (fits : bool) then Ok wanted else cap_search 128 reserve 0 wanted.

(** ** The searches *)

(** A [for] loop that returns the first answer. *)
Fixpoint try_find {E A B : Type} (f : A → result E (option B)) (l : list A)
  : result E (option B) :=
  match l with
  | [] => Ok None
  | a :: l' =>
      let? found := f a in
      match found with
      | Some b => Ok (Some b)
      | None => try_find f l'
      end
  end.

Definition percent_candidate (terms : FillTerms) (inputs : FillInputs) (ledger supply value : Z)
  : result MathError (option (FillPercent * Projection)) :=
  let? percent := map_err (λ _, InvalidInput "a fill percent is 1 to 100")
    (@fill_percent_try_from Empty_set value) in
  let? projection := project terms inputs ledger percent supply in
  let? ok := healthy terms projection in
  Ok (if (ok : bool) then Some (percent, projection) else None).

Definition largest_healthy_percent (terms : FillTerms) (inputs : FillInputs) (ledger : Z)
    (below : FillPercent) (supply : Z) : result MathError (option (FillPercent * Projection)) :=
  try_find (percent_candidate terms inputs ledger supply) (rev (seqZ 1 (fp_get below - 1))).

Definition ledger_candidate (terms : FillTerms) (inputs : FillInputs) (supply ledger : Z)
  : result MathError (option (Z * Projection)) :=
  let? projection := project terms inputs ledger (fi_max_percent inputs) supply in
  let? ok := healthy terms projection in
  Ok (if (ok : bool) then Some (ledger, projection) else None).

Definition first_healthy_ledger (terms : FillTerms) (inputs : FillInputs)
    (after last supply : Z) : result MathError (option (Z * Projection)) :=
  match u32_checked_add after 1 with
  | None => Ok None
  | Some first => try_find (ledger_candidate terms inputs supply) (seqZ first (last + 1 - first))
  end.

(** ** The plan *)

Definition draft (inputs : FillInputs) (ledger : Z) (percent : FillPercent)
    (projection : Projection) : result MathError FillDraft :=
  let? positions := auction_positions (pj_to_fill projection) (fi_asset_index inputs) in
  let? value := calculate_position_data (fi_reserves inputs) (fi_prices inputs) positions in
  let? est_profit :=
    ok_or (checked_sub (collateral_raw value) (liability_raw value)) Overflow in
  let? projected_health :=
    if no_liabilities (pj_positions projection) then Ok None
    else health_factor (pj_data projection) in
  Ok (mkFillDraft ledger percent (pj_actions projection) (pj_to_fill projection)
        (collateral_raw value) (liability_raw value) est_profit (pj_spend projection)
        projected_health).

Definition settle (terms : FillTerms) (inputs : FillInputs) (ledger : Z)
    (percent : FillPercent) (projection : Projection) : result MathError PlannedFill :=
  if over_positions terms inputs projection then Ok (Skip TooManyPositions)
  else
    let? draft := draft inputs ledger percent projection in
    Ok (if negb (ft_force_fill terms) && (fd_est_profit draft <=? 0)
        then Skip Unprofitable else Fill draft).

(** What the rounds carry: the supply sized so far, and what capped it. *)
Record Sizing : Type := mkSizing { sz_supply : Z; sz_unfunded : bool; sz_capped : bool }.

Definition verdict (s : Sizing) : PlannedFill :=
  Skip (if sz_capped s then SupplyCapped else if sz_unfunded s then Unfunded else Health).

(** Sizing a larger supply for an unhealthy projection. *)
Definition grow_supply (terms : FillTerms) (inputs : FillInputs) (projection : Projection)
    (s : Sizing) : result MathError Sizing :=
  let? more := supply_for terms inputs (pj_data projection) in
  let? wanted := ok_or (checked_add (sz_supply s) more) Overflow in
  let? (_, primary) := reserve_for inputs (ft_primary_asset terms) in
  let? room := supply_headroom primary wanted in
  let available := pj_primary_available projection in
  Ok (mkSizing (Z.min (Z.min wanted available) room)
        (sz_unfunded s || (available <? wanted))
        (sz_capped s || ((room <? wanted) && (room <? available)))).

(** The two searches, once no larger supply helps. *)
Definition search (terms : FillTerms) (inputs : FillInputs) (ledger last : Z) (s : Sizing)
  : result MathError PlannedFill :=
  let? lower := largest_healthy_percent terms inputs ledger (fi_max_percent inputs)
    (sz_supply s) in
  match lower with
  | Some (percent, projection) => settle terms inputs ledger percent projection
  | None =>
      let? later := first_healthy_ledger terms inputs ledger last (sz_supply s) in
      match later with
      | Some (later, projection) => settle terms inputs later (fi_max_percent inputs) projection
      | None => Ok (verdict s)
      end
  end.

Fixpoint rounds (n : nat) (terms : FillTerms) (inputs : FillInputs) (ledger last : Z)
    (s : Sizing) : result MathError PlannedFill :=
  match n with
  | O => Ok (verdict s)
  | S n =>
      let percent := fi_max_percent inputs in
      let? projection := project terms inputs ledger percent (sz_supply s) in
      if over_positions terms inputs projection then Ok (Skip TooManyPositions)
      else
        let? ok := healthy terms projection in
        if (ok : bool) then settle terms inputs ledger percent projection
        else if ft_supply_allowed terms then
          let? s' := grow_supply terms inputs projection s in
          if sz_supply s <? sz_supply s' then rounds n terms inputs ledger last s'
          else search terms inputs ledger last
                 (mkSizing (sz_supply s) (sz_unfunded s') (sz_capped s'))
        else search terms inputs ledger last s
  end.

Definition plan_fill (terms : FillTerms) (inputs : FillInputs) : result MathError PlannedFill :=
  let? positions := auction_positions (fi_auction inputs) (fi_asset_index inputs) in
  let? whole := calculate_position_data (fi_reserves inputs) (fi_prices inputs) positions in
  if collateral_raw whole =? 0 then Ok (Skip Unprofitable)
  else
    let start := block (fi_auction inputs) in
    let earliest := Z.max (fi_earliest_ledger inputs) start in
    let? delay :=
      match ft_objective terms with
      | FreeFill => Ok RAMP_END_BLOCKS
      | EarliestProfitable =>
          fill_delay (collateral_raw whole) (liability_raw whole) (ft_profit_bps terms)
            (ft_force_fill terms)
      end in
    let delay := if ft_force_fill terms then Z.min delay FORCE_FILL_MAX_DELAY else delay in
    let? aimed := ok_or (u32_checked_add start delay) Overflow in
    let ledger := Z.max aimed earliest in
    let reach := if ft_force_fill terms then FORCE_FILL_MAX_DELAY else RAMP_END_BLOCKS in
    let? reached := ok_or (u32_checked_add start reach) Overflow in
    let last := Z.max reached ledger in
    rounds (Z.to_nat (ft_plan_iterations terms)) terms inputs ledger last
      (mkSizing 0 false false).

(** ** Lemmas: the searches *)

Section try_find_lemmas.
Context {E A B : Type} (f : A → result E (option B)).

Lemma try_find_some l b :
  try_find f l = Ok (Some b) →
  ∃ l1 a l2, l = l1 ++ a :: l2 ∧ f a = Ok (Some b) ∧ ∀ x, x ∈ l1 → f x = Ok None.
Proof.
  induction l as [|a l IH]; simpl; [done|]. rewrite bind_ok. intros ([b'|] & Ha & H).
  - injection H as ->. exists [], a, l. split_and!; [done..|set_solver].
  - destruct (IH H) as (l1 & a' & l2 & -> & ? & Hl1).
    exists (a :: l1), a', l2. split_and!; [done..|]. set_solver.
Qed.

Lemma try_find_none l : try_find f l = Ok None → ∀ x, x ∈ l → f x = Ok None.
Proof.
  induction l as [|a l IH]; simpl; [set_solver|]. rewrite bind_ok.
  intros ([b'|] & Ha & H); [done|]. set_solver.
Qed.
End try_find_lemmas.

Lemma seqZ_split m n l1 a l2 :
  seqZ m n = l1 ++ a :: l2 → m ≤ a < m + n ∧ ∀ x, m ≤ x < a → x ∈ l1.
Proof.
  intros H. assert (a ∈ seqZ m n) as Ha by (rewrite H; set_solver). apply elem_of_seqZ in Ha.
  split; [done|]. intros x Hx.
  assert (seqZ m n !! Z.to_nat (a - m) = Some a) as Hi by (apply lookup_seqZ; lia).
  assert (seqZ m n !! length l1 = Some a) as Hj.
  { rewrite H, lookup_app_r by done. by rewrite Nat.sub_diag. }
  apply lookup_seqZ in Hj as [Hj _].
  assert (seqZ m n !! Z.to_nat (x - m) = Some x) as Hk by (apply lookup_seqZ; lia).
  rewrite H, lookup_app_l in Hk by lia. by eapply list_elem_of_lookup_2.
Qed.

Lemma rev_seqZ_split m n l1 a l2 :
  rev (seqZ m n) = l1 ++ a :: l2 → m ≤ a < m + n ∧ ∀ x, a < x < m + n → x ∈ l1.
Proof.
  intros H. apply (f_equal (@rev Z)) in H. rewrite rev_involutive, rev_app_distr in H. simpl in H.
  rewrite <-app_assoc in H. simpl in H.
  destruct (seqZ_split _ _ _ _ _ H) as [Ha _]. split; [done|]. intros x Hx.
  assert (x ∈ seqZ m n) as Hin by (apply elem_of_seqZ; lia). rewrite H in Hin.
  apply elem_of_app in Hin as [Hin|Hin].
  - exfalso. apply list_elem_of_lookup in Hin as [i Hi].
    assert (seqZ m n !! i = Some x) as Hi' by (rewrite H; by apply lookup_app_l_Some).
    assert (seqZ m n !! length (rev l2) = Some a) as Hj.
    { rewrite H, lookup_app_r by done. by rewrite Nat.sub_diag. }
    apply lookup_lt_Some in Hi. apply lookup_seqZ in Hi' as [? _], Hj as [? _]. lia.
  - apply elem_of_cons in Hin as [->|Hin]; [lia|]. by apply list_elem_of_In, in_rev, list_elem_of_In.
Qed.

(** The verdict of a candidate, whichever search asks. *)
Definition candidate (terms : FillTerms) (inputs : FillInputs) (ledger : Z)
    (percent : FillPercent) (supply : Z) (healthy' : bool) (projection : Projection) : Prop :=
  project terms inputs ledger percent supply = Ok projection ∧
  healthy terms projection = Ok healthy'.

Lemma percent_candidate_ok terms inputs ledger supply v o :
  percent_candidate terms inputs ledger supply v = Ok o →
  ∃ projection, candidate terms inputs ledger (mkFillPercent v) supply (bool_decide (is_Some o))
    projection ∧ (o = None ∨ o = Some (mkFillPercent v, projection)).
Proof.
  unfold percent_candidate, fill_percent_try_from. intros H.
  apply bind_ok in H as (percent & Hp & H). apply map_err_ok in Hp.
  assert (percent = mkFillPercent v) as -> by (repeat case_match; congruence).
  apply bind_ok in H as (projection & Hpj & H). apply bind_ok in H as (ok & Hok & H).
  injection H as <-. exists projection. destruct ok; (split; [split; [done|]; done|]); auto.
Qed.

Lemma ledger_candidate_ok terms inputs supply ledger o :
  ledger_candidate terms inputs supply ledger = Ok o →
  ∃ projection, candidate terms inputs ledger (fi_max_percent inputs) supply
    (bool_decide (is_Some o)) projection ∧ (o = None ∨ o = Some (ledger, projection)).
Proof.
  unfold ledger_candidate. intros H.
  apply bind_ok in H as (projection & Hpj & H). apply bind_ok in H as (ok & Hok & H).
  injection H as <-. exists projection. destruct ok; (split; [split; [done|]; done|]); auto.
Qed.

(** [largest_healthy_percent]: the largest, or none at all. *)
Lemma largest_healthy_percent_ok terms inputs ledger below supply o :
  largest_healthy_percent terms inputs ledger below supply = Ok o →
  match o with
  | Some (percent, projection) =>
      1 ≤ fp_get percent < fp_get below ∧
      candidate terms inputs ledger percent supply true projection ∧
      ∀ v, fp_get percent < v < fp_get below →
        ∃ p, candidate terms inputs ledger (mkFillPercent v) supply false p
  | None => ∀ v, 1 ≤ v < fp_get below →
      ∃ p, candidate terms inputs ledger (mkFillPercent v) supply false p
  end.
Proof.
  unfold largest_healthy_percent. destruct o as [[percent projection]|]; intros H.
  - apply try_find_some in H as (l1 & v & l2 & Hl & Hv & Hl1).
    apply rev_seqZ_split in Hl as [Hr Hbefore].
    apply percent_candidate_ok in Hv as (p & Hc & [?|Heq]); [done|].
    injection Heq as -> ->. simpl in *. split_and!; [lia|lia|done|].
    intros x Hx. specialize (Hl1 x (Hbefore x ltac:(lia))).
    apply percent_candidate_ok in Hl1 as (q & Hq & _). by exists q.
  - intros v Hv. eapply try_find_none in H.
    + apply percent_candidate_ok in H as (p & Hp & _). by exists p.
    + apply list_elem_of_In. rewrite <-in_rev. apply list_elem_of_In, elem_of_seqZ. lia.
Qed.

(** [first_healthy_ledger]: the first, or none at all. *)
Lemma first_healthy_ledger_ok terms inputs after last supply o :
  is_u32 after → is_u32 last →
  first_healthy_ledger terms inputs after last supply = Ok o →
  match o with
  | Some (ledger, projection) =>
      after < ledger ≤ last ∧
      candidate terms inputs ledger (fi_max_percent inputs) supply true projection ∧
      ∀ l, after < l < ledger →
        ∃ p, candidate terms inputs l (fi_max_percent inputs) supply false p
  | None => ∀ l, after < l ≤ last →
      ∃ p, candidate terms inputs l (fi_max_percent inputs) supply false p
  end.
Proof.
  intros Ha Hl. unfold first_healthy_ledger. destruct (u32_checked_add after 1) as [first|] eqn:Hf.
  2: { intros [= <-] l Hlt. exfalso. unfold u32_checked_add, to_u32 in Hf.
       case_match eqn:Hb; [done|]. unfold in_u32 in Hb. widths. lia. }
  apply u32_checked_add_some in Hf as [-> _].
  destruct o as [[ledger projection]|]; intros H.
  - apply try_find_some in H as (l1 & v & l2 & Hs & Hv & Hl1).
    apply seqZ_split in Hs as [Hr Hbefore].
    apply ledger_candidate_ok in Hv as (p & Hc & [?|Heq]); [done|].
    injection Heq as -> ->. split_and!; [lia|lia|done|].
    intros l Hlt. specialize (Hl1 l (Hbefore l ltac:(lia))).
    apply ledger_candidate_ok in Hl1 as (q & Hq & _). by exists q.
  - intros l Hlt. eapply try_find_none in H.
    + apply ledger_candidate_ok in H as (p & Hp & _). by exists p.
    + apply elem_of_seqZ. lia.
Qed.

(** ** Lemmas: the headroom *)

Section headroom.
Context (reserve : Reserve) (Hwf : wf_reserve reserve).

(** The b-tokens [amount] mints. *)
Definition minted (amount : Z) : Z := amount * SCALAR_12 / rd_b_rate (rs_data reserve).
Definition fits_spec (amount : Z) : bool :=
  b_asset reserve (rd_b_supply (rs_data reserve) + minted amount)
    <=? rc_supply_cap (rs_config reserve).

Lemma fits_cap_ok amount v :
  fits_cap reserve amount = Ok v →
  v = fits_spec amount ∧ rd_b_rate (rs_data reserve) ≠ 0 ∧
  is_i128 (rd_b_supply (rs_data reserve) + minted amount) ∧ is_i128 (minted amount).
Proof.
  unfold fits_cap. intros H. rust_inv. subst.
  match goal with H : to_asset_from_b_token _ _ = _ |- _ => apply asset_b_ok in H as -> end.
  conversions. fixed_inv. subst. done.
Qed.

(** A smaller amount is judged too, and fits when a larger one does. *)
Lemma minted_mono a a' : 0 < rd_b_rate (rs_data reserve) → a ≤ a' → minted a ≤ minted a'.
Proof. intros Hr Ha. unfold minted. apply fdiv_mono; [done|]. scalars. lia. Qed.

Lemma fits_spec_mono a a' :
  0 < rd_b_rate (rs_data reserve) → a ≤ a' → fits_spec a' = true → fits_spec a = true.
Proof.
  intros Hr Ha. unfold fits_spec. pose proof (minted_mono a a' Hr Ha).
  pose proof (b_asset_mono reserve Hwf (rd_b_supply (rs_data reserve) + minted a)
    (rd_b_supply (rs_data reserve) + minted a') ltac:(lia)). lia.
Qed.

Lemma fits_cap_smaller a w v :
  is_i128 (rd_b_rate (rs_data reserve)) →
  0 ≤ a ≤ w → fits_cap reserve w = Ok v → fits_cap reserve a = Ok (fits_spec a).
Proof.
  intros Hrate Ha H. pose proof (wf_b_rate _ Hwf) as Hr0. pose proof (wf_b_supply _ Hwf).
  pose proof H as Hw. apply fits_cap_ok in Hw as (_ & Hne & Hin & Him).
  pose proof (minted_mono a w ltac:(lia) ltac:(lia)) as Hmono.
  assert (0 ≤ minted a) by (apply fdiv_nonneg; scalars; lia).
  assert (0 ≤ minted w) by (apply fdiv_nonneg; scalars; lia).
  unfold fits_cap in *. conversions. rust_inv. subst.
  match goal with H : div_floor w _ _ = Ok _ |- _ => apply div_floor_ok in H as (_ & -> & _) end.
  match goal with H : mul_floor _ _ _ = Ok _ |- _ => apply mul_floor_ok in H as (_ & -> & Hbw) end.
  fold (minted w) in *.
  rewrite div_floor_in by (first [done | fold (minted a); widths; lia]).
  fold (minted a). simpl rbind. unfold checked_add. rewrite to_i128_in by (widths; lia).
  simpl rbind.
  pose proof (b_asset_mono reserve Hwf (rd_b_supply (rs_data reserve) + minted a)
    (rd_b_supply (rs_data reserve) + minted w) ltac:(lia)) as Hb.
  assert (0 ≤ b_asset reserve (rd_b_supply (rs_data reserve) + minted a)).
  { apply fdiv_nonneg; [done|]. nia. }
  unfold b_asset in *. rewrite mul_floor_in; [done|done|done|].
  fold (minted w) in Hbw. widths. lia.
Qed.

(** The search converges on the largest amount that fits, with fuel for the
    bits of its range. *)
Lemma cap_search_largest fuel low high w v :
  is_i128 (rd_b_rate (rs_data reserve)) →
  fits_cap reserve w = Ok v → 0 ≤ low ≤ high → high ≤ w → high - low < 2 ^ Z.of_nat fuel →
  ∃ best, cap_search fuel reserve low high = Ok best ∧ low ≤ best ≤ high ∧
    (low < best → fits_spec best = true) ∧ (∀ a, best < a ≤ high → fits_spec a = false).
Proof.
  intros Hrate Hw. revert low high.
  induction fuel as [|fuel IH]; intros low high Hlow Hhigh Hfuel.
  { simpl in *. exists low. split_and!; [done|lia..]. }
  cbn [cap_search]. destruct (Z.ltb_spec low high) as [Hlt|].
  2: { exists low. split_and!; [done|lia..]. }
  rewrite Nat2Z.inj_succ, Z.pow_succ_r in Hfuel by lia.
  change (Z.land (high - low) 1) with (Z.land (high - low) (Z.ones 1)). rewrite Z.land_ones by lia. rewrite Z.quot_div_nonneg by lia.
  change (2 ^ 1) with 2. set (mid := low + (high - low) / 2 + (high - low) mod 2).
  pose proof (Z.div_mod (high - low) 2 ltac:(lia)).
  pose proof (Z.mod_pos_bound (high - low) 2 ltac:(lia)).
  assert (low < mid ≤ high) as Hmid by (unfold mid; lia).
  rewrite (fits_cap_smaller mid w v) by (first [done | lia]). cbn [rbind].
  pose proof (wf_b_rate _ Hwf). apply fits_cap_ok in Hw as (_ & Hne & _).
  destruct (fits_spec mid) eqn:Hf.
  - destruct (IH mid high) as (best & -> & Hb & Hfit & Hmax); [lia|lia|unfold mid; lia|].
    exists best. split_and!; [done|lia|lia| |done].
    intros _. destruct (Z.eq_dec mid best) as [<-|]; [done|]. apply Hfit. lia.
  - destruct (IH low (mid - 1)) as (best & -> & Hb & Hfit & Hmax); [lia|lia|unfold mid; lia|].
    exists best. split_and!; [done|lia|lia|done|].
    intros a Ha. destruct (Z.le_gt_cases mid a); [|apply Hmax; lia].
    destruct (fits_spec a) eqn:Hfa; [|done].
    rewrite (fits_spec_mono mid a) in Hf by (first [done | lia]). done.
Qed.
End headroom.

(** ** What the contract makes of a plan's requests

    The reference the projection is held to: each request, as the pool
    executes it on the filler's own position. *)

Definition contract_request (inputs : FillInputs) (p : Positions) (action : FillAction)
  : result MathError Positions :=
  match action with
  | Repay asset amount =>
      let? (index, reserve) := reserve_for inputs asset in
      let? tokens := to_d_token_down reserve amount in
      let owing := get_or_zero (liabilities p) index in
      let owing' := owing - Z.min tokens owing in
      Ok (set_liabilities
            (if 0 <? owing' then <[index := owing']> (liabilities p)
             else delete index (liabilities p)) p)
  | WithdrawAll asset =>
      let? (index, _) := reserve_for inputs asset in
      Ok (set_collateral (delete index (collateral p)) p)
  | SupplyCollateral asset amount =>
      let? (index, reserve) := reserve_for inputs asset in
      let? tokens := to_b_token_down reserve amount in
      Ok (set_collateral (<[index := get_or_zero (collateral p) index + tokens]> (collateral p)) p)
  end.

(** What a request takes out of the wallet. *)
Definition action_spend (asset : string) (action : FillAction) : Z :=
  match action with
  | Repay a amount | SupplyCollateral a amount => if decide (a = asset) then amount else 0
  | WithdrawAll _ => 0
  end.

(** The amount a side moves at one reserve. *)
Definition side_at (inputs : FillInputs) (side : gmap string Z) (index : Z) : Z :=
  zsum (λ e : string * Z, if decide (fi_asset_index inputs !! e.1 = Some index) then e.2 else 0)
    (bt_iter side).

Lemma reserve_for_ok inputs asset index reserve :
  reserve_for inputs asset = Ok (index, reserve) ↔
  fi_asset_index inputs !! asset = Some index ∧ fi_reserves inputs !! index = Some reserve.
Proof.
  unfold reserve_for. rewrite bind_ok. setoid_rewrite bind_ok. setoid_rewrite ok_or_ok.
  naive_solver.
Qed.

Lemma add_to_ok {K} `{Countable K} (m : gmap K Z) key amount m' :
  add_to m key amount = Ok m' →
  (∀ k, get_or_zero m' k = get_or_zero m k + (if decide (k = key) then amount else 0)) ∧
  m' = if amount =? 0 then m else <[key := get_or_zero m key + amount]> m.
Proof.
  unfold add_to. intros H'. destruct (Z.eqb_spec amount 0) as [->|Hne].
  { injection H' as <-. split; [|done]. intros k. case_decide; lia. }
  rust_inv. subst. split; [|done]. intros k. unfold get_or_zero. case_decide as Hk.
  - subst. by rewrite lookup_insert_eq.
  - rewrite lookup_insert_ne by done. lia.
Qed.

Lemma move_add_ok inputs m side m' :
  move_side inputs add_to m side = Ok m' →
  ∀ i, get_or_zero m' i = get_or_zero m i + side_at inputs side i.
Proof.
  intros H i. unfold move_side, side_at in *.
  match type of H with try_fold ?f _ _ = _ =>
    pose proof (try_fold_prefix f (λ l m', get_or_zero m' i = get_or_zero m i +
      zsum (λ e : string * Z, if decide (fi_asset_index inputs !! e.1 = Some i) then e.2 else 0) l)
      m m' (bt_iter side)) as Hp end.
  apply Hp; [simpl; lia| |done]. clear Hp.
  intros l1 [asset v] l2 x y _ Hx Hstep.
  apply bind_ok in Hstep as ([index reserve] & Hres & Hstep).
  apply reserve_for_ok in Hres as [Hi _]. apply add_to_ok in Hstep as [Hy _].
  rewrite zsum_snoc, Hy, Hx. simpl. rewrite Hi.
  destruct (decide (i = index)) as [->|]; destruct (decide (Some _ = Some _)); try congruence; lia.
Qed.

Lemma remove_from_nonneg m index amount m' :
  nonneg_map m → remove_from m index amount = Ok m' → nonneg_map m'.
Proof.
  intros Hm H. unfold remove_from in H. destruct (m !! index) as [held|]; [|by injection H as <-].
  rust_inv. subst. destruct (Z.ltb_spec 0 (held - amount)).
  - apply nonneg_map_insert; [done|lia].
  - by apply nonneg_map_delete.
Qed.

Lemma move_remove_nonneg inputs m side m' :
  nonneg_map m → move_side inputs remove_from m side = Ok m' → nonneg_map m'.
Proof.
  intros Hm. apply try_fold_inv; [done|]. intros x y [asset v] _ Hx Hstep.
  apply bind_ok in Hstep as ([index reserve] & _ & Hstep). by eapply remove_from_nonneg.
Qed.

(** The reserves a full fill is valued against. *)
Lemma defaulted_reserves_haircut inputs filled reserves' :
  wf_pool (fi_reserves inputs) (fi_prices inputs) → wf_positions (fi_borrower inputs) →
  defaulted_reserves inputs filled = Ok reserves' →
  ∀ i, option_relation haircut (λ _, False) (λ _, False)
    (fi_reserves inputs !! i) (reserves' !! i).
Proof.
  intros Hpool [Hc Hl Hs] H. unfold defaulted_reserves in H.
  apply bind_ok in H as (c' & Hc' & H). apply bind_ok in H as (l' & Hl' & H).
  apply bind_ok in H as (out & Hout & H). injection H as <-.
  eapply project_default_haircut; [done| |done]. split; simpl; [..|done];
    eapply move_remove_nonneg; [exact Hc|exact Hc'|exact Hl|exact Hl'].
Qed.

(** ** The projection, step by step *)

(** What every step of the projection keeps: the wallet it debits never goes
    below zero where it was touched, [spend] is what was debited and what the
    requests spend, and the positions are the requests' effect. *)
Record projected (inputs : FillInputs) (p0 p : Positions) (wallet spend : gmap string Z)
    (actions : list FillAction) : Prop := mkProjected {
  pr_wallet : ∀ a, get_or_zero wallet a + get_or_zero spend a = get_or_zero (fi_wallet inputs) a;
  pr_held : ∀ a, get_or_zero spend a = 0 ∨ 0 ≤ get_or_zero wallet a;
  pr_spend : ∀ a, get_or_zero spend a = zsum (action_spend a) actions;
  pr_effect : try_fold (contract_request inputs) p0 actions = Ok p;
}.

Lemma projected_start inputs p0 : projected inputs p0 p0 (fi_wallet inputs) ∅ [].
Proof.
  assert (∀ a, get_or_zero (∅ : gmap string Z) a = 0) as H0
    by (intros; unfold get_or_zero; by rewrite lookup_empty).
  split; intros; rewrite ?H0; simpl; try lia; auto.
Qed.

Lemma get_insert {K} `{Countable K} (m : gmap K Z) k v k' :
  get_or_zero (<[k := v]> m) k' = if decide (k' = k) then v else get_or_zero m k'.
Proof.
  unfold get_or_zero. case_decide; subst; [by rewrite lookup_insert_eq|by rewrite lookup_insert_ne].
Qed.

(** A request that spends [amount] of [asset] from what is held. *)
Lemma projected_spend inputs p0 p p' wallet wallet' spend spend' actions action asset amount :
  projected inputs p0 p wallet spend actions →
  contract_request inputs p action = Ok p' →
  (∀ a, action_spend a action = if decide (asset = a) then amount else 0) →
  amount ≤ get_or_zero wallet asset →
  (∀ a, get_or_zero wallet' a
     = get_or_zero wallet a - (if decide (asset = a) then amount else 0)) →
  add_to spend asset amount = Ok spend' →
  projected inputs p0 p' wallet' spend' (actions ++ [action]).
Proof.
  intros [Hw Hh Hs He] Hc Ha Hamt Hw' Hsp. apply add_to_ok in Hsp as [Hsp _].
  split.
  - intros a. rewrite Hw', Hsp, <-(Hw a).
    destruct (decide (asset = a)), (decide (a = asset)); subst; try done; lia.
  - intros a. rewrite Hw', Hsp. destruct (decide (a = asset)) as [->|].
    + rewrite decide_True by done. right. lia.
    + rewrite decide_False by done. destruct (Hh a); [left|right]; lia.
  - intros a. rewrite zsum_snoc, Ha, Hsp, <-(Hs a).
    destruct (decide (asset = a)), (decide (a = asset)); subst; try done; lia.
  - rewrite try_fold_app, He. cbn [rbind try_fold]. by rewrite Hc.
Qed.

(** A request that spends nothing. *)
Lemma projected_free inputs p0 p p' wallet spend actions action :
  projected inputs p0 p wallet spend actions →
  contract_request inputs p action = Ok p' → (∀ a, action_spend a action = 0) →
  projected inputs p0 p' wallet spend (actions ++ [action]).
Proof.
  intros [Hw Hh Hs He] Hc Ha. split; [done..| |].
  - intros a. rewrite zsum_snoc, Ha, (Hs a). lia.
  - rewrite try_fold_app, He. cbn [rbind try_fold]. by rewrite Hc.
Qed.

Lemma repay_bid_ok inputs p0 c sup s e s' :
  repay_bid inputs s e = Ok s' →
  projected inputs p0 (mkPositions c (rp_liabilities s) sup) (rp_wallet s) (rp_spend s)
    (rp_actions s) →
  projected inputs p0 (mkPositions c (rp_liabilities s') sup) (rp_wallet s') (rp_spend s')
    (rp_actions s').
Proof.
  destruct e as [asset d]. unfold repay_bid. intros H Hp.
  destruct (Z.leb_spec (get_or_zero (rp_wallet s) asset) 0); [by injection H as <-|].
  apply bind_ok in H as ([index reserve] & Hres & H). apply bind_ok in H as (owed & _ & H).
  apply bind_ok in H as (allowance & _ & H). apply bind_ok in H as (wanted & _ & H).
  set (amount := Z.min wanted (get_or_zero (rp_wallet s) asset)) in *.
  apply bind_ok in H as (burnt & Hburnt & H). apply bind_ok in H as (rest & Hleft & H).
  apply ok_or_ok, checked_sub_some in Hleft as [-> _].
  apply bind_ok in H as (held & Hheld & H). apply ok_or_ok, checked_sub_some in Hheld as [-> _].
  apply bind_ok in H as (spend & Hspend & H). injection H as <-. cbn [rp_liabilities rp_wallet rp_spend rp_actions].
  eapply (projected_spend _ _ _ _ _ _ _ _ _ (Repay asset amount) asset amount);
    [exact Hp| |done|lia| |exact Hspend].
  - simpl. rewrite Hres. simpl. rewrite Hburnt. done.
  - intros a. rewrite get_insert. destruct (decide (asset = a)), (decide (a = asset)); subst;
      try done; lia.
Qed.

Lemma withdraw_lot_ok inputs p0 l sup wallet spend held actions asset held' actions' :
  withdraw_lot inputs (held, actions) asset = Ok (held', actions') →
  projected inputs p0 (mkPositions held l sup) wallet spend actions →
  projected inputs p0 (mkPositions held' l sup) wallet spend actions'.
Proof.
  unfold withdraw_lot. intros H Hp. apply bind_ok in H as ([index reserve] & Hres & H).
  destruct (_ =? 0); injection H as <- <-; [|done].
  eapply projected_free; [exact Hp| |done]. simpl. by rewrite Hres.
Qed.

Lemma supply_primary_ok terms inputs p0 l sup supply wallet held actions spend held' actions' spend' :
  supply_primary terms inputs supply (held, actions, spend) = Ok (held', actions', spend') →
  supply ≤ Z.max (get_or_zero wallet (ft_primary_asset terms)) 0 →
  projected inputs p0 (mkPositions held l sup) wallet spend actions →
  ∃ wallet', projected inputs p0 (mkPositions held' l sup) wallet' spend' actions'.
Proof.
  unfold supply_primary. intros H Hle Hp.
  destruct (Z.ltb_spec 0 supply); [|injection H as <- <- <-; by exists wallet].
  apply bind_ok in H as ([index reserve] & Hres & H). apply bind_ok in H as (tokens & Htok & H).
  destruct (Z.ltb_spec 0 tokens); [|injection H as <- <- <-; by exists wallet].
  apply bind_ok in H as (h & Hh & H). apply bind_ok in H as (sp & Hsp & H). injection H as <- <- <-.
  set (asset := ft_primary_asset terms) in *.
  exists (<[asset := get_or_zero wallet asset - supply]> wallet).
  eapply (projected_spend _ _ _ _ wallet _ _ _ _ (SupplyCollateral asset supply) asset supply);
    [exact Hp| |done|lia| |exact Hsp].
  - simpl. rewrite Hres. simpl. rewrite Htok. simpl. apply add_to_ok in Hh as [_ ->].
    by destruct (Z.eqb_spec tokens 0); [lia|].
  - intros a. rewrite get_insert. destruct (decide (asset = a)), (decide (a = asset)); subst;
      try done; lia.
Qed.

(** Everything a projection is. *)
Record projection_spec (terms : FillTerms) (inputs : FillInputs) (ledger : Z)
    (percent : FillPercent) (pj : Projection) : Prop := mkProjectionSpec {
  ps_fill : 1 ≤ fp_get percent ≤ 100 ∧ block (fi_auction inputs) ≤ ledger ∧
    pj_to_fill pj
      = to_fill (scaled_ref (fi_auction inputs) (ledger - block (fi_auction inputs))
          (fp_get percent));
  ps_filled : ∃ p0 wallet,
    (∀ i, get_or_zero (collateral p0) i
       = get_or_zero (collateral (fi_filler inputs)) i + side_at inputs (lot (pj_to_fill pj)) i) ∧
    (∀ i, get_or_zero (liabilities p0) i
       = get_or_zero (liabilities (fi_filler inputs)) i + side_at inputs (bid (pj_to_fill pj)) i) ∧
    projected inputs p0 (pj_positions pj) wallet (pj_spend pj) (pj_actions pj);
  ps_reserves : ∃ reserves,
    match remaining (scaled_ref (fi_auction inputs) (ledger - block (fi_auction inputs))
            (fp_get percent)) with
    | Some _ => reserves = fi_reserves inputs
    | None => defaulted_reserves inputs (pj_to_fill pj) = Ok reserves
    end ∧
    pj_data pj = position_value reserves (fi_prices inputs) (pj_positions pj);
}.

Lemma project_ok terms inputs ledger percent supply pj :
  0 ≤ fp_get percent →
  project terms inputs ledger percent supply = Ok pj →
  projection_spec terms inputs ledger percent pj.
Proof.
  intros Hpc H. unfold project in H.
  apply bind_ok in H as (scaled & Hscaled & H).
  apply scale_auction_ok in Hscaled as (Hp & Hb & ->); [|done].
  set (scaled := scaled_ref _ _ _) in *. set (filled := to_fill scaled) in *.
  apply bind_ok in H as (c0 & Hc0 & H). apply bind_ok in H as (l0 & Hl0 & H).
  apply bind_ok in H as (repaid & Hrep & H).
  apply bind_ok in H as ([c1 actions1] & Hwd & H).
  apply bind_ok in H as ([[c2 actions2] spend2] & Hsup & H).
  apply bind_ok in H as (reserves & Hres & H). apply bind_ok in H as (data & Hdata & H).
  injection H as <-. apply calculate_position_data_ok in Hdata as (_ & _ & Hdata).
  set (sup := Position.supply (fi_filler inputs)) in *.
  assert (projected inputs (mkPositions c0 l0 sup) (mkPositions c0 (rp_liabilities repaid) sup)
    (rp_wallet repaid) (rp_spend repaid) (rp_actions repaid)) as H1.
  { apply (try_fold_inv _ (λ s, projected inputs (mkPositions c0 l0 sup)
      (mkPositions c0 (rp_liabilities s) sup) (rp_wallet s) (rp_spend s) (rp_actions s)))
      in Hrep; [done|apply projected_start|]. intros x y a _ Hx Hs. by eapply repay_bid_ok. }
  assert (projected inputs (mkPositions c0 l0 sup) (mkPositions c1 (rp_liabilities repaid) sup)
    (rp_wallet repaid) (rp_spend repaid) actions1) as H2.
  { apply (try_fold_inv _ (λ s, projected inputs (mkPositions c0 l0 sup)
      (mkPositions s.1 (rp_liabilities repaid) sup) (rp_wallet repaid) (rp_spend repaid) s.2))
      in Hwd; [done..|]. intros [x1 x2] [y1 y2] a _ Hx Hs. by eapply withdraw_lot_ok. }
  eapply supply_primary_ok in Hsup as (wallet & H3); [|apply Z.le_min_r|exact H2].
  split; cbn [pj_to_fill pj_positions pj_spend pj_actions pj_data].
  - done.
  - exists (mkPositions c0 l0 sup), wallet. split_and!; [..|done];
      simpl; intros; by eapply move_add_ok.
  - exists reserves. split; [|done].
    fold scaled. destruct (remaining scaled); [congruence|done].
Qed.

(** No request spends what the wallet does not hold. *)
Lemma projected_bound inputs p0 p wallet spend actions a :
  projected inputs p0 p wallet spend actions →
  get_or_zero spend a ≤ Z.max (get_or_zero (fi_wallet inputs) a) 0.
Proof. intros [Hw Hh _ _]. specialize (Hw a). destruct (Hh a); lia. Qed.

(** ** Lemmas: what a projection holds is never negative *)

Lemma nonneg_map_update m i v :
  nonneg_map m → nonneg_map (if 0 <? v then <[i := v]> m else delete i m).
Proof.
  intros Hm. destruct (Z.ltb_spec 0 v); [apply nonneg_map_insert; [done|lia]|].
  by apply nonneg_map_delete.
Qed.

Lemma add_to_nonneg (m m' : gmap Z Z) key amount :
  nonneg_map m → 0 ≤ amount → add_to m key amount = Ok m' → nonneg_map m'.
Proof.
  intros Hm Ha H. apply add_to_ok in H as [_ ->]. destruct (_ =? 0); [done|].
  apply nonneg_map_insert; [done|]. pose proof (nonneg_map_get m key Hm). lia.
Qed.

Lemma filled_side_positive r percent scale m a v :
  filled_side r percent scale m !! a = Some v → 0 < v.
Proof.
  unfold filled_side. rewrite lookup_omap. destruct (m !! a) as [x|]; simpl; [|done].
  unfold positive. destruct (Z.ltb_spec 0 (ramped r percent scale x)); naive_solver.
Qed.

Lemma move_add_nonneg inputs m side m' :
  nonneg_map m → (∀ a v, side !! a = Some v → 0 < v) →
  move_side inputs add_to m side = Ok m' → nonneg_map m'.
Proof.
  intros Hm Hs. apply try_fold_inv; [done|]. intros x y [asset v] Hin Hx Hstep.
  apply bt_iter_elem, Hs in Hin.
  apply bind_ok in Hstep as ([index reserve] & _ & Hstep).
  eapply add_to_nonneg; [exact Hx| |exact Hstep]. lia.
Qed.

Lemma repay_bid_nonneg inputs s e s' :
  repay_bid inputs s e = Ok s' → nonneg_map (rp_liabilities s) → nonneg_map (rp_liabilities s').
Proof.
  destruct e as [asset d]. unfold repay_bid. intros H Hm.
  destruct (_ <=? 0); [by injection H as <-|].
  repeat (apply bind_ok in H as (? & ? & H)); try (destruct x as [index reserve]).
  repeat (apply bind_ok in H as (? & ? & H)). injection H as <-. cbn [rp_liabilities].
  by apply nonneg_map_update.
Qed.

Lemma project_nonneg terms inputs ledger percent supply pj :
  0 ≤ fp_get percent → wf_positions (fi_filler inputs) →
  project terms inputs ledger percent supply = Ok pj →
  nonneg_map (collateral (pj_positions pj)) ∧ nonneg_map (liabilities (pj_positions pj)).
Proof.
  intros Hpc [Hfc Hfl _] H. unfold project in H.
  apply bind_ok in H as (scaled & Hscaled & H).
  apply scale_auction_ok in Hscaled as (Hp & Hb & ->); [|done].
  apply bind_ok in H as (c0 & Hc0 & H). apply bind_ok in H as (l0 & Hl0 & H).
  apply move_add_nonneg in Hc0; [|done|intros a v; apply filled_side_positive].
  apply move_add_nonneg in Hl0; [|done|intros a v; apply filled_side_positive].
  apply bind_ok in H as (repaid & Hrep & H).
  apply bind_ok in H as ([c1 actions1] & Hwd & H).
  apply bind_ok in H as ([[c2 actions2] spend2] & Hsup & H).
  apply bind_ok in H as (reserves & _ & H). apply bind_ok in H as (data & _ & H).
  injection H as <-. simpl. split.
  - apply (try_fold_inv _ (λ s, nonneg_map s.1)) in Hwd; [|done|].
    2: { intros [x1 x2] [y1 y2] a _ Hx Hs. unfold withdraw_lot in Hs.
         apply bind_ok in Hs as ([? ?] & _ & Hs).
         destruct (_ =? 0); injection Hs as <- <-; [by apply nonneg_map_delete|done]. }
    unfold supply_primary in Hsup. destruct (_ <? _); [|by injection Hsup as <- <- <-].
    apply bind_ok in Hsup as ([? ?] & _ & Hsup). apply bind_ok in Hsup as (tokens & _ & Hsup).
    destruct (Z.ltb_spec 0 tokens); [|by injection Hsup as <- <- <-].
    apply bind_ok in Hsup as (h & Hh & Hsup). apply bind_ok in Hsup as (? & _ & Hsup).
    injection Hsup as <- _ _. eapply add_to_nonneg; [exact Hwd| |exact Hh]. lia.
  - apply (try_fold_inv _ (λ s, nonneg_map (rp_liabilities s))) in Hrep; [done|done|].
    intros x y a _ Hx Hs. by eapply repay_bid_nonneg.
Qed.

(** ** Lemmas: what a side is worth *)

(** No two assets of the pool share a reserve. *)
Definition one_reserve_each (asset_index : gmap string Z) : Prop :=
  ∀ a b i, asset_index !! a = Some i → asset_index !! b = Some i → a = b.

(** An entry of an auction at its own asset's reserve and price. *)
Definition asset_value (f : Z → Reserve → Z → Z) (inputs : FillInputs) (e : string * Z) : Z :=
  match fi_asset_index inputs !! e.1 with
  | Some i => entry_value f (fi_reserves inputs) (fi_prices inputs) (i, e.2)
  | None => 0
  end.

(** A side of an auction is worth the sum of its entries. *)
Definition handed_value (f : Z → Reserve → Z → Z) (inputs : FillInputs)
    (side : gmap string Z) : Z :=
  zsum (asset_value f inputs) (bt_iter side).

Lemma insert_indexed_entries asset_index side m :
  one_reserve_each asset_index →
  try_fold (insert_indexed asset_index) ∅ (bt_iter side) = Ok m →
  Forall (λ e, is_Some (asset_index !! e.1)) (bt_iter side) ∧
  map_to_list m ≡ₚ
    omap (λ e, (λ i, (i, e.2)) <$> asset_index !! e.1) (bt_iter side).
Proof.
  intros Hinj H. pose proof (bt_iter_NoDup_fst side) as Hnd.
  set (P := λ (l : list (string * Z)) (m : gmap Z Z),
    Forall (λ e, is_Some (asset_index !! e.1)) l ∧
    map_to_list m ≡ₚ omap (λ e, (λ i, (i, e.2)) <$> asset_index !! e.1) l ∧
    ∀ i, is_Some (m !! i) → ∃ a, a ∈ l.*1 ∧ asset_index !! a = Some i).
  enough (P (bt_iter side) m) by (unfold P in *; naive_solver).
  revert H. apply try_fold_prefix.
  { split; [constructor|]. rewrite map_to_list_empty. split; [done|].
    intros i [v Hv]. by rewrite lookup_empty in Hv. }
  intros l1 [a v] l2 x y Hl (Hk & Hp & Hd) Hstep. unfold insert_indexed, index_of in Hstep.
  apply bind_ok in Hstep as (i & Hi & Hstep). apply ok_or_ok in Hi. injection Hstep as <-.
  rewrite Hl, fmap_app in Hnd. apply NoDup_app in Hnd as (_ & Hnot & _).
  assert (x !! i = None) as Hfree.
  { destruct (x !! i) as [w|] eqn:Hx; [|done]. destruct (Hd i) as (b & Hb & Hbi); [by rewrite Hx|].
    rewrite (Hinj a b i Hi Hbi) in Hnot. destruct (Hnot b Hb). simpl. set_solver. }
  split; [|split].
  - apply Forall_app. split; [done|]. constructor; [by exists i|constructor].
  - rewrite map_to_list_insert, Hp, omap_app by done. simpl. rewrite Hi. simpl.
    by rewrite Permutation_app_comm.
  - intros j Hj. destruct (decide (j = i)) as [->|Hne].
    + exists a. split; [rewrite fmap_app; set_solver|done].
    + rewrite lookup_insert_ne in Hj by done. destruct (Hd j Hj) as (b & Hb & Hbj).
      exists b. split; [rewrite fmap_app; set_solver|done].
Qed.

Lemma insert_indexed_value f inputs side m :
  one_reserve_each (fi_asset_index inputs) →
  try_fold (insert_indexed (fi_asset_index inputs)) ∅ (bt_iter side) = Ok m →
  side_value f (fi_reserves inputs) (fi_prices inputs) m = handed_value f inputs side.
Proof.
  intros Hinj H. apply insert_indexed_entries in H as [Hk Hp]; [|done].
  unfold side_value, handed_value. rewrite Hp. clear Hp.
  induction Hk as [|[a v] l [i Hi] _ IH]; [done|]. simpl in Hi.
  cbn [omap list_omap]. simpl. rewrite Hi. simpl. f_equal; [|exact IH].
  unfold asset_value. simpl. by rewrite Hi.
Qed.

(** ** Lemmas: health *)

(** What the contract and the operator accept, exactly and unrounded. *)
Definition acceptable (terms : FillTerms) (p : Positions) (data : PositionData) : Prop :=
  liabilities p = ∅ ∨
  (liability_base data * ft_health_floor terms ≤ collateral_base data * SCALAR_7 ∧
   ft_min_collateral terms ≤ collateral_base data).

Lemma healthy_ok terms pj k b :
  0 < k → pd_scalar (pj_data pj) = SCALAR_7 * k →
  0 ≤ liability_base (pj_data pj) → 0 ≤ collateral_base (pj_data pj) →
  healthy terms pj = Ok b →
  b = true ↔ acceptable terms (pj_positions pj) (pj_data pj).
Proof.
  intros Hk Hs Hl Hc H. unfold healthy, no_liabilities, acceptable in *.
  destruct (bool_decide_reflect (liabilities (pj_positions pj) = ∅)) as [He|Hne].
  { injection H as <-. naive_solver. }
  apply bind_ok in H as (under & Hu & H). injection H as <-.
  assert (under = (collateral_base (pj_data pj) * SCALAR_7
    <? liability_base (pj_data pj) * ft_health_floor terms)) as ->.
  { destruct (Z.eq_dec (liability_base (pj_data pj)) 0) as [Hz|].
    - rewrite hf_under_none in Hu by done. injection Hu as <-. rewrite Hz. scalars. lia.
    - eapply hf_under_ok; [lia|exact Hk|exact Hs|exact Hu]. }
  split; [intros; right; lia|]. intros [?|?]; [done|lia].
Qed.

(** The values a projection is judged by. *)
Record valued (inputs : FillInputs) (pj : Projection) : Prop := mkValued {
  va_scalar : pd_scalar (pj_data pj) = op_scalar (fi_prices inputs);
  va_liability : liability_base (pj_data pj)
    = side_value d_base (fi_reserves inputs) (fi_prices inputs) (liabilities (pj_positions pj));
  va_liability_nonneg : 0 ≤ liability_base (pj_data pj);
  va_collateral : 0 ≤ collateral_base (pj_data pj)
    ≤ side_value b_base (fi_reserves inputs) (fi_prices inputs) (collateral (pj_positions pj));
}.

Lemma project_valued terms inputs ledger percent supply pj :
  0 ≤ fp_get percent → wf_pool (fi_reserves inputs) (fi_prices inputs) →
  wf_positions (fi_filler inputs) → wf_positions (fi_borrower inputs) →
  project terms inputs ledger percent supply = Ok pj → valued inputs pj.
Proof.
  intros Hpc Hpool Hf Hb H.
  destruct (project_nonneg _ _ _ _ _ _ Hpc Hf H) as [Hnc Hnl].
  apply project_ok in H as [_ _ (reserves & Hres & Hdata)]; [|done].
  assert (∀ i, option_relation haircut (λ _, False) (λ _, False)
    (fi_reserves inputs !! i) (reserves !! i)) as Hcut.
  { destruct (remaining _); [subst|by eapply defaulted_reserves_haircut].
    intros i. destruct (fi_reserves inputs !! i) eqn:Hi; simpl; [|done].
    eapply haircut_same, wf_reserves; done. }
  assert (0 ≤ side_value d_base (fi_reserves inputs) (fi_prices inputs)
    (liabilities (pj_positions pj))) as Hd.
  { apply (side_value_nonneg _ _ Hpool); [|done]. intros p r a Hr Hp Ha.
    pose proof (d_raw_nonneg p r Hr Hp a Ha). pose proof (d_raw_le_base p r Hr Hp a Ha). lia. }
  pose proof (haircut_liabilities _ _ _ Hpool Hcut (liabilities (pj_positions pj))) as Hl.
  pose proof (haircut_collateral _ _ _ Hpool Hcut (collateral (pj_positions pj)) Hnc) as Hc.
  split; rewrite Hdata; simpl; [done|done|lia|done].
Qed.

(** ** Lemmas: the rounds *)

Lemma settle_fill terms inputs ledger percent pj d :
  settle terms inputs ledger percent pj = Ok (Fill d) →
  over_positions terms inputs pj = false ∧ draft inputs ledger percent pj = Ok d ∧
  (ft_force_fill terms = false → 0 < fd_est_profit d).
Proof.
  unfold settle. destruct (over_positions terms inputs pj); [done|]. intros H.
  apply bind_ok in H as (d' & Hd & H).
  destruct (negb (ft_force_fill terms) && (fd_est_profit d' <=? 0)) eqn:Hb; [done|].
  injection H as ->. split_and!; [done..|]. intros Hf. rewrite Hf in Hb. simpl in Hb. lia.
Qed.

Lemma draft_ok inputs ledger percent pj d :
  draft inputs ledger percent pj = Ok d →
  fd_fill_ledger d = ledger ∧ fd_percent d = percent ∧ fd_actions d = pj_actions pj ∧
  fd_to_fill d = pj_to_fill pj ∧ fd_spend d = pj_spend pj ∧
  fd_est_profit d = fd_lot_value d - fd_bid_value d ∧
  (one_reserve_each (fi_asset_index inputs) →
    fd_lot_value d = handed_value b_raw inputs (lot (fd_to_fill d)) ∧
    fd_bid_value d = handed_value d_raw inputs (bid (fd_to_fill d))) ∧
  (if no_liabilities (pj_positions pj) then fd_projected_health d = None
   else health_factor (pj_data pj) = Ok (fd_projected_health d)).
Proof.
  unfold draft. intros H. apply bind_ok in H as (sides & Hs & H).
  apply bind_ok in H as (value & Hv & H). apply calculate_position_data_ok in Hv as (_ & _ & ->).
  apply bind_ok in H as (profit & Hp & H). apply ok_or_ok, checked_sub_some in Hp as [-> _].
  apply bind_ok in H as (health & Hh & H). injection H as <-. simpl.
  unfold auction_positions in Hs. apply bind_ok in Hs as (c & Hc & Hs).
  apply bind_ok in Hs as (l & Hl & Hs). injection Hs as <-. simpl.
  split_and!; try done.
  - intros Hinj. split; by apply insert_indexed_value.
  - destruct (no_liabilities _); [by injection Hh as <-|done].
Qed.

(** Where a planned fill was found. *)
Definition found (terms : FillTerms) (inputs : FillInputs) (ledger last : Z) (d : FillDraft)
  : Prop :=
  ∃ supply pj, candidate terms inputs (fd_fill_ledger d) (fd_percent d) supply true pj ∧
    settle terms inputs (fd_fill_ledger d) (fd_percent d) pj = Ok (Fill d) ∧
    ledger ≤ fd_fill_ledger d ≤ last ∧
    1 ≤ fp_get (fd_percent d) ≤ fp_get (fi_max_percent inputs).

(** Nothing the searches look at is healthy with [supply]. *)
Definition nothing_healthy (terms : FillTerms) (inputs : FillInputs) (ledger last supply : Z)
  : Prop :=
  (∃ pj, candidate terms inputs ledger (fi_max_percent inputs) supply false pj) ∧
  (∀ v, 1 ≤ v < fp_get (fi_max_percent inputs) →
     ∃ pj, candidate terms inputs ledger (mkFillPercent v) supply false pj) ∧
  (∀ l, ledger < l ≤ last →
     ∃ pj, candidate terms inputs l (fi_max_percent inputs) supply false pj).

(** A plan that gives up for want of health did so out of candidates, or out
    of rounds that each grew the supply. *)
Definition gave_up (n : nat) (terms : FillTerms) (inputs : FillInputs) (ledger last : Z)
    (s : Sizing) : Prop :=
  ∃ supply, sz_supply s ≤ supply ∧
    (sz_supply s + Z.of_nat n ≤ supply ∨ nothing_healthy terms inputs ledger last supply).

Lemma settle_cases terms inputs ledger percent pj o :
  settle terms inputs ledger percent pj = Ok o →
  match o with
  | Fill d => fd_fill_ledger d = ledger ∧ fd_percent d = percent
  | Skip why => why = TooManyPositions ∨ why = Unprofitable
  end.
Proof.
  intros H. destruct o as [d|why].
  - apply settle_fill in H as (_ & H & _). apply draft_ok in H as (? & ? & _). done.
  - unfold settle in H. destruct (over_positions _ _ _); [injection H as <-; auto|].
    apply bind_ok in H as (d & _ & H). destruct (_ && _); [injection H as <-; auto|done].
Qed.

Section rounds.
Context (terms : FillTerms) (inputs : FillInputs) (ledger last : Z).
Context (Hledger : is_u32 ledger) (Hlast : is_u32 last) (Hwindow : ledger ≤ last).
Context (Hmax : wf_percent (fi_max_percent inputs)).

(** What an outcome of the planner means, in one statement for both loops. *)
Definition outcome_ok (n : nat) (s : Sizing) (o : PlannedFill) : Prop :=
  match o with
  | Fill d => found terms inputs ledger last d
  | Skip why =>
      why = TooManyPositions ∨ why = Unprofitable ∨ gave_up n terms inputs ledger last s
  end.

Lemma settle_outcome n s l percent supply pj o :
  candidate terms inputs l percent supply true pj →
  settle terms inputs l percent pj = Ok o →
  ledger ≤ l ≤ last → 1 ≤ fp_get percent ≤ fp_get (fi_max_percent inputs) →
  outcome_ok n s o.
Proof.
  intros Hc H Hl Hp. pose proof (settle_cases _ _ _ _ _ _ H) as Hcases.
  destruct o as [d|why]; simpl in *.
  - destruct Hcases as [El Ep]. subst. exists supply, pj. done.
  - naive_solver.
Qed.

Lemma search_outcome n s o :
  (∃ pj, candidate terms inputs ledger (fi_max_percent inputs) (sz_supply s) false pj) →
  search terms inputs ledger last s = Ok o → outcome_ok n s o.
Proof.
  intros Hfirst H. unfold search in H.
  apply bind_ok in H as (lower & Hlow & H). apply largest_healthy_percent_ok in Hlow.
  destruct lower as [[percent pj]|].
  { destruct Hlow as (Hp & Hc & _). eapply settle_outcome; [exact Hc|exact H|lia|lia]. }
  apply bind_ok in H as (later & Hlater & H).
  apply first_healthy_ledger_ok in Hlater; [|done..]. unfold wf_percent in Hmax.
  destruct later as [[l pj]|].
  { destruct Hlater as (Hl & Hc & _). eapply settle_outcome; [exact Hc|exact H|lia|lia]. }
  injection H as <-. right. right. exists (sz_supply s). split; [lia|]. right. done.
Qed.

Lemma rounds_outcome n s o :
  rounds n terms inputs ledger last s = Ok o → outcome_ok n s o.
Proof.
  revert s. induction n as [|n IH]; intros s H.
  { injection H as <-. right. right. exists (sz_supply s). lia. }
  cbn [rounds] in H. apply bind_ok in H as (pj & Hpj & H).
  destruct (over_positions terms inputs pj); [injection H as <-; by left|].
  apply bind_ok in H as (ok & Hok & H). unfold wf_percent in Hmax. destruct ok.
  { eapply settle_outcome; [split; [exact Hpj|exact Hok]|exact H|lia|lia]. }
  assert (∃ pj, candidate terms inputs ledger (fi_max_percent inputs) (sz_supply s) false pj)
    as Hfirst by by exists pj.
  destruct (ft_supply_allowed terms); [|by eapply search_outcome].
  apply bind_ok in H as (s' & _ & H). destruct (Z.ltb_spec (sz_supply s) (sz_supply s')).
  - apply IH in H. destruct o as [d|why]; [done|].
    destruct H as [?|[?|(supply & Hs & Hor)]]; [by left|by right; left|].
    right. right. exists supply. split; [lia|]. destruct Hor; [left; lia|by right].
  - by apply (search_outcome (S n) (mkSizing (sz_supply s) (sz_unfunded s') (sz_capped s'))) in H.
Qed.
End rounds.

(** The window [plan_fill] searches. *)
Definition aim (inputs : FillInputs) : Z :=
  Z.max (fi_earliest_ledger inputs) (block (fi_auction inputs)).
Definition reach (terms : FillTerms) : Z :=
  if ft_force_fill terms then FORCE_FILL_MAX_DELAY else RAMP_END_BLOCKS.

Lemma plan_fill_outcome terms inputs o :
  0 ≤ ft_profit_bps terms → is_u32 (fi_earliest_ledger inputs) →
  is_u32 (block (fi_auction inputs)) → wf_percent (fi_max_percent inputs) →
  plan_fill terms inputs = Ok o →
  o = Skip Unprofitable ∨
  ∃ ledger, aim inputs ≤ ledger ≤ Z.max (block (fi_auction inputs) + reach terms) (aim inputs) ∧
    outcome_ok terms inputs ledger (Z.max (block (fi_auction inputs) + reach terms) ledger)
      (Z.to_nat (ft_plan_iterations terms)) (mkSizing 0 false false) o.
Proof.
  intros Hbps He Hb Hmax H. unfold plan_fill in H.
  apply bind_ok in H as (sides & _ & H). apply bind_ok in H as (whole & _ & H).
  destruct (_ =? 0); [injection H as <-; by left|].
  apply bind_ok in H as (delay & Hdelay & H).
  apply bind_ok in H as (aimed & Haimed & H). apply ok_or_ok, u32_checked_add_some in Haimed as [-> Ha].
  apply bind_ok in H as (reached & Hreached & H).
  apply ok_or_ok, u32_checked_add_some in Hreached as [-> Hr].
  fold (aim inputs) in H. fold (reach terms) in H, Hr.
  assert (0 ≤ delay ≤ RAMP_END_BLOCKS) as Hd.
  { destruct (ft_objective terms); [injection Hdelay as <-; done|].
    apply fill_delay_ok in Hdelay as (_ & _ & d0 & [Hd0 _] & ->); [|done].
    unfold RAMP_END_BLOCKS, FORCE_FILL_MAX_DELAY. case_match; lia. }
  right. eexists. split; [|eapply rounds_outcome; [..|exact H]]; try done;
    unfold aim, reach, RAMP_END_BLOCKS, FORCE_FILL_MAX_DELAY in *; widths;
    repeat case_match; lia.
Qed.

(** ** Properties *)

(** What a plan that fills has to satisfy. *)
Record safe_fill (terms : FillTerms) (inputs : FillInputs) (d : FillDraft) : Prop := mkSafeFill {
  sf_window : aim inputs ≤ fd_fill_ledger d
    ≤ Z.max (block (fi_auction inputs) + reach terms) (aim inputs);
  sf_percent : 1 ≤ fp_get (fd_percent d) ≤ fp_get (fi_max_percent inputs);
  sf_to_fill : fd_to_fill d
    = to_fill (scaled_ref (fi_auction inputs) (fd_fill_ledger d - block (fi_auction inputs))
        (fp_get (fd_percent d)));
  sf_spend : ∀ a, get_or_zero (fd_spend d) a = zsum (action_spend a) (fd_actions d) ∧
    get_or_zero (fd_spend d) a ≤ Z.max (get_or_zero (fi_wallet inputs) a) 0;
  sf_profit : fd_est_profit d = fd_lot_value d - fd_bid_value d ∧
    (ft_force_fill terms = false → 0 < fd_est_profit d);
  sf_values : one_reserve_each (fi_asset_index inputs) →
    fd_lot_value d = handed_value b_raw inputs (lot (fd_to_fill d)) ∧
    fd_bid_value d = handed_value d_raw inputs (bid (fd_to_fill d));
  sf_health : ∃ p0 p data,
    (∀ i, get_or_zero (collateral p0) i = get_or_zero (collateral (fi_filler inputs)) i
       + side_at inputs (lot (fd_to_fill d)) i) ∧
    (∀ i, get_or_zero (liabilities p0) i = get_or_zero (liabilities (fi_filler inputs)) i
       + side_at inputs (bid (fd_to_fill d)) i) ∧
    try_fold (contract_request inputs) p0 (fd_actions d) = Ok p ∧
    acceptable terms p data ∧
    liability_base data
      = side_value d_base (fi_reserves inputs) (fi_prices inputs) (liabilities p) ∧
    collateral_base data
      ≤ side_value b_base (fi_reserves inputs) (fi_prices inputs) (collateral p) ∧
    (effective_count (fi_filler inputs) < effective_count p →
       effective_count p ≤ ft_max_positions terms) ∧
    (liabilities p = ∅ → fd_projected_health d = None) ∧
    (liabilities p ≠ ∅ → health_factor data = Ok (fd_projected_health d));
}.

Lemma over_positions_false terms inputs pj :
  over_positions terms inputs pj = false →
  effective_count (fi_filler inputs) < effective_count (pj_positions pj) →
  effective_count (pj_positions pj) ≤ ft_max_positions terms.
Proof.
  unfold over_positions. intros H Hlt. rewrite (proj2 (Z.ltb_lt _ _) Hlt) in H. simpl in H.
  unfold to_u32 in H. destruct (in_u32 _); [lia|done].
Qed.

(** C1: every fill [plan_fill] plans is one the filler can carry. It lands
    inside the window of the objective and never before the earliest ledger;
    its percent is within the cap; it hands over what the contract's scaling
    says; its requests spend exactly [spend] and no more of any asset than
    the wallet holds; its lot and bid values are those of exactly what it hands
    over, each entry at its own asset's reserve and price (no two assets of a
    pool sharing a reserve), its estimated profit is what is left between them,
    and that is positive unless the pool forces fills; and the filler's position
    after the fill and every request, as the pool executes them in order, meets the exact health floor and minimum collateral (or
    owes nothing), valued with the debts as read and collateral no higher
    than as read, without raising the position count past the pool's cap; the
    health it projects is that position's, and none when nothing is owed. *)
Theorem planned_fill_is_safe (terms : FillTerms) (inputs : FillInputs) (d : FillDraft) (k : Z)
  (Hpool : wf_pool (fi_reserves inputs) (fi_prices inputs))
  (Hscalar : 0 < k ∧ op_scalar (fi_prices inputs) = SCALAR_7 * k)
  (Hfiller : wf_positions (fi_filler inputs)) (Hborrower : wf_positions (fi_borrower inputs))
  (Hbps : 0 ≤ ft_profit_bps terms)
  (Hledgers : is_u32 (fi_earliest_ledger inputs) ∧ is_u32 (block (fi_auction inputs)))
  (Hpercent : wf_percent (fi_max_percent inputs))
  (Hok : plan_fill terms inputs = Ok (Fill d)) :
  safe_fill terms inputs d.
Proof.
  destruct Hscalar as [Hk Hscalar], Hledgers as [He Hb].
  apply plan_fill_outcome in Hok as [?|(ledger & Hl & Hfound)]; [done| |done..].
  destruct Hfound as (supply & pj & [Hpj Hhealthy] & Hsettle & Hwin & Hp).
  apply settle_fill in Hsettle as (Hover & Hdraft & Hprofit).
  apply draft_ok in Hdraft as (_ & _ & Ha & Hf & Hs & He' & Hval & Hhf).
  assert (0 ≤ fp_get (fd_percent d)) as Hpc by lia.
  destruct (project_valued _ _ _ _ _ _ Hpc Hpool Hfiller Hborrower Hpj) as [Hv1 Hv2 Hv3 Hv4].
  apply project_ok in Hpj as [Hp1 (p0 & wallet & Hc0 & Hl0 & Hproj) _]; [|done].
  split; rewrite ?Ha, ?Hs, ?Hf in *; try done; [lia|apply Hp1| |].
  - intros a. pose proof (projected_bound _ _ _ _ _ _ a Hproj). by destruct Hproj.
  - exists p0, (pj_positions pj), (pj_data pj). split_and!; try done.
    + by destruct Hproj.
    + eapply (healthy_ok terms pj k true); try done; [congruence|lia].
    + apply Hv4.
    + by apply over_positions_false.
    + unfold no_liabilities in Hhf. by case_bool_decide.
    + unfold no_liabilities in Hhf. by case_bool_decide.
Qed.

(** The sample plan: the whole auction of a borrower in [two_pool], for a
    filler that already owes a little and holds some of the bid asset. *)
Definition fill_terms (objective : FillObjective) : FillTerms :=
  mkFillTerms 0 8 true "USDC" 12000000 500 false objective 5.
Definition fill_auction : AuctionData :=
  mkAuctionData {[ "XLM" := 20000000 ]} {[ "USDC" := 4000000 ]} 1000.
Definition fill_inputs : FillInputs :=
  mkFillInputs two_pool {[ "XLM" := 0; "USDC" := 1 ]} two_prices
    (mkPositions {[ 1 := 3000000 ]} {[ 0 := 10000000 ]} ∅) two_positions
    {[ "XLM" := 5000000; "USDC" := 50000000 ]} fill_auction 1010 (mkFillPercent 100).
Definition planned : FillDraft :=
  match plan_fill (fill_terms EarliestProfitable) fill_inputs with
  | Ok (Fill d) => d
  | _ => mkFillDraft 0 (mkFillPercent 0) [] fill_auction 0 0 0 ∅ None
  end.

Lemma broke_free_positions (p : Positions) :
  (∀ i a, collateral p !! i = Some a → 0 ≤ a) → (∀ i a, liabilities p !! i = Some a → 0 ≤ a) →
  supply p = ∅ → wf_positions p.
Proof. intros Hc Hl Hs. split; [done..|]. rewrite Hs. apply nonneg_map_empty. Qed.

Lemma fill_filler_wf : wf_positions (fi_filler fill_inputs).
Proof.
  apply broke_free_positions; [..|done]; intros i a; simpl;
    rewrite lookup_singleton_Some; lia.
Qed.

Lemma planned_fill_is_safe_witness :
  plan_fill (fill_terms EarliestProfitable) fill_inputs = Ok (Fill planned) ∧
  fd_fill_ledger planned = 1127 ∧ fd_actions planned = [Repay "XLM" 5000000] ∧
  safe_fill (fill_terms EarliestProfitable) fill_inputs planned ∧
  one_reserve_each (fi_asset_index fill_inputs) ∧
  fd_lot_value planned = handed_value b_raw fill_inputs (lot (fd_to_fill planned)) ∧
  0 < fd_lot_value planned < handed_value b_raw fill_inputs (lot fill_auction).
Proof.
  assert (plan_fill (fill_terms EarliestProfitable) fill_inputs = Ok (Fill planned)) as Hok
    by (vm_compute; reflexivity).
  split; [exact Hok|]. split; [vm_compute; reflexivity|]. split; [vm_compute; reflexivity|].
  enough (safe_fill (fill_terms EarliestProfitable) fill_inputs planned) as Hsafe.
  { split; [exact Hsafe|]. assert (one_reserve_each (fi_asset_index fill_inputs)) as Hone.
    { intros a b i Ha Hb. simpl in Ha, Hb.
      apply lookup_insert_Some in Ha as [[<- <-]|[_ [<- <-]%lookup_singleton_Some]];
        apply lookup_insert_Some in Hb as [[<- Hb]|[_ [<- Hb]%lookup_singleton_Some]]; done. }
    split; [exact Hone|]. split; [apply (sf_values _ _ _ Hsafe Hone)|].
    split; vm_compute; reflexivity. }
  apply (planned_fill_is_safe (fill_terms EarliestProfitable) fill_inputs planned 1).
  - apply two_pool_wf.
  - split; [lia|vm_compute; reflexivity].
  - apply fill_filler_wf.
  - apply two_positions_wf.
  - simpl. lia.
  - simpl. widths. lia.
  - unfold wf_percent. simpl. lia.
  - exact Hok.
Defined.

(** A plan that skips an auction for want of health, of funds or of
    supply-cap room looked at everything first. Either every one of its
    rounds grew the supply (the rounds ran out), or, with the supply it
    ended on, the candidate itself, every lower percent at that ledger and
    every later ledger of the window project unhealthy. *)
Theorem skipped_fill_was_searched (terms : FillTerms) (inputs : FillInputs) (why : FillSkip)
  (Hbps : 0 ≤ ft_profit_bps terms)
  (Hledgers : is_u32 (fi_earliest_ledger inputs) ∧ is_u32 (block (fi_auction inputs)))
  (Hpercent : wf_percent (fi_max_percent inputs))
  (Hok : plan_fill terms inputs = Ok (Skip why))
  (Hwhy : why = Health ∨ why = Unfunded ∨ why = SupplyCapped) :
  ∃ ledger supply,
    aim inputs ≤ ledger ≤ Z.max (block (fi_auction inputs) + reach terms) (aim inputs) ∧
    0 ≤ supply ∧
    (Z.max 0 (ft_plan_iterations terms) ≤ supply ∨
     nothing_healthy terms inputs ledger
       (Z.max (block (fi_auction inputs) + reach terms) ledger) supply).
Proof.
  destruct Hledgers as [He Hb].
  apply plan_fill_outcome in Hok as [Heq|(ledger & Hl & H)]; [injection Heq as ->; naive_solver| |done..].
  destruct H as [?|[?|(supply & Hs & Hor)]]; [naive_solver..|]. simpl in *.
  exists ledger, supply. split; [done|]. split; [done|]. destruct Hor; [left; lia|by right].
Qed.

(** The same auction, for a filler with an empty wallet and a floor out of
    reach. *)
Definition poor_terms : FillTerms :=
  mkFillTerms 0 8 true "USDC" 40000000 500 true EarliestProfitable 5.
Definition poor_inputs : FillInputs :=
  mkFillInputs two_pool {[ "XLM" := 0; "USDC" := 1 ]} two_prices
    (mkPositions {[ 1 := 3000000 ]} {[ 0 := 10000000 ]} ∅) two_positions
    ∅ fill_auction 1340 (mkFillPercent 3).

Lemma skipped_fill_was_searched_witness :
  plan_fill poor_terms poor_inputs = Ok (Skip Unfunded) ∧
  ∃ ledger supply,
    (5 ≤ supply ∨ nothing_healthy poor_terms poor_inputs ledger (Z.max 1350 ledger) supply).
Proof.
  assert (plan_fill poor_terms poor_inputs = Ok (Skip Unfunded)) as Hok
    by (vm_compute; reflexivity).
  split; [exact Hok|].
  destruct (skipped_fill_was_searched poor_terms poor_inputs Unfunded)
    as (ledger & supply & _ & _ & H);
    [simpl; lia|simpl; widths; lia|unfold wf_percent; simpl; lia|exact Hok|by right; left|].
  by exists ledger, supply.
Defined.

(** When the planner lowers the percent it takes the largest one whose
    exact projection is healthy, and when it waits it takes the first later
    ledger; an answer of none means that every candidate was projected and
    none is healthy. *)
Theorem searches_are_exhaustive (terms : FillTerms) (inputs : FillInputs)
  (ledger last supply : Z) (lower : option (FillPercent * Projection))
  (later : option (Z * Projection))
  (Hledgers : is_u32 ledger ∧ is_u32 last)
  (Hlower : largest_healthy_percent terms inputs ledger (fi_max_percent inputs) supply = Ok lower)
  (Hlater : first_healthy_ledger terms inputs ledger last supply = Ok later) :
  (∀ percent pj, lower = Some (percent, pj) →
     1 ≤ fp_get percent < fp_get (fi_max_percent inputs) ∧
     candidate terms inputs ledger percent supply true pj) ∧
  (∀ v, 1 ≤ v < fp_get (fi_max_percent inputs) →
     from_option (λ '(percent, _), fp_get percent < v) True lower →
     ∃ pj, candidate terms inputs ledger (mkFillPercent v) supply false pj) ∧
  (∀ l pj, later = Some (l, pj) → ledger < l ≤ last ∧
     candidate terms inputs l (fi_max_percent inputs) supply true pj) ∧
  (∀ l, ledger < l ≤ last → from_option (λ '(l', _), l < l') True later →
     ∃ pj, candidate terms inputs l (fi_max_percent inputs) supply false pj).
Proof.
  apply largest_healthy_percent_ok in Hlower. apply first_healthy_ledger_ok in Hlater; [|naive_solver..].
  split_and!.
  - intros percent pj ->. by destruct Hlower as (? & ? & _).
  - intros v Hv Hlt. destruct lower as [[percent pj]|]; [|by apply Hlower].
    destruct Hlower as (_ & _ & Hall). apply Hall. simpl in Hlt. lia.
  - by intros l pj ->; destruct Hlater as (? & ? & _).
  - intros l Hl Hlt. destruct later as [[l' pj]|]; [|by apply Hlater].
    destruct Hlater as (_ & _ & Hall). apply Hall. simpl in Hlt. lia.
Qed.

Definition searched_percent : option (FillPercent * Projection) :=
  match largest_healthy_percent (fill_terms FreeFill) fill_inputs 1150 (mkFillPercent 100) 0 with
  | Ok o => o
  | Err _ => None
  end.
Definition searched_ledger : option (Z * Projection) :=
  match first_healthy_ledger (fill_terms FreeFill) fill_inputs 1150 1160 0 with
  | Ok o => o
  | Err _ => None
  end.

Lemma searches_are_exhaustive_witness :
  (fst <$> searched_percent) = Some (mkFillPercent 99) ∧ (fst <$> searched_ledger) = Some 1151 ∧
  ∃ pj, candidate (fill_terms FreeFill) fill_inputs 1151 (mkFillPercent 100) 0 true pj.
Proof.
  split; [vm_compute; reflexivity|]. split; [vm_compute; reflexivity|].
  destruct (searches_are_exhaustive (fill_terms FreeFill) fill_inputs 1150 1160 0
    searched_percent searched_ledger) as (_ & _ & H & _).
  - widths. lia.
  - vm_compute. reflexivity.
  - vm_compute. reflexivity.
  - assert ((fst <$> searched_ledger) = Some 1151) as Hs by (vm_compute; reflexivity).
    destruct searched_ledger as [[l pj]|]; [|discriminate]. injection Hs as ->.
    destruct (H 1151 pj eq_refl) as [_ Hc]. exists pj. exact Hc.
Defined.

(** The supply cap's headroom is exact. Whenever the wanted amount
    converts, the search ends — within the bits of an [i128] — on the largest
    amount up to it that the contract's check after minting accepts: it fits
    unless it is zero, and every larger amount does not. *)
Theorem supply_headroom_is_largest (reserve : Reserve) (wanted : Z) (fits : bool)
  (Hwf : wf_reserve reserve) (Hrate : is_i128 (rd_b_rate (rs_data reserve)))
  (Hwanted : 0 < wanted ≤ i128_max) (Hok : fits_cap reserve wanted = Ok fits) :
  ∃ room, supply_headroom reserve wanted = Ok room ∧ 0 ≤ room ≤ wanted ∧
    (0 < room → fits_cap reserve room = Ok true) ∧
    (∀ a, room < a ≤ wanted → fits_cap reserve a = Ok false).
Proof.
  unfold supply_headroom. destruct (Z.leb_spec wanted 0); [lia|]. rewrite Hok. cbn [rbind].
  destruct fits.
  { exists wanted. split_and!; [done|lia..|done|intros; lia]. }
  destruct (cap_search_largest reserve Hwf 128 0 wanted wanted false)
    as (room & -> & Hr & Hfit & Hmax); try done; [lia|unfold i128_max in *; lia|].
  exists room. split_and!; [done|lia..| |].
  - intros Hpos. rewrite (fits_cap_smaller reserve Hwf room wanted false) by (done || lia).
    by rewrite Hfit.
  - intros a Ha. rewrite (fits_cap_smaller reserve Hwf a wanted false) by (done || lia).
    by rewrite Hmax.
Qed.

(** A reserve a few stroops under its cap. *)
Definition capped_reserve : Reserve :=
  mkReserve "USDC" (mkReserveConfig 1 7 9500000 9500000 4000000 7000000 100000 300000
    3000000 50000000 50 7654824802310530 true) sample_data 10000000.

Lemma supply_headroom_is_largest_witness :
  supply_headroom capped_reserve 1000000000 = Ok 46 ∧
  fits_cap capped_reserve 47 = Ok false.
Proof.
  destruct (supply_headroom_is_largest capped_reserve 1000000000 false)
    as (room & Hroom & _ & _ & Hmax).
  - split; [split|..]; simpl; scalars; lia.
  - simpl. widths. lia.
  - unfold i128_max. lia.
  - vm_compute. reflexivity.
  - assert (supply_headroom capped_reserve 1000000000 = Ok 46) as E by (vm_compute; reflexivity).
    rewrite E in Hroom. injection Hroom as <-. split; [exact E|]. apply Hmax. lia.
Defined.
