(* ===== verification/Unwind.v ===== *)
(** * Unwinding what fills left behind ([src/math/unwind.rs])

    Which of the filler's own debts to repay from its wallet and which of its
    collateral to withdraw: the three steps of [plan_unwind], as the code
    takes them. *)

From S2P Require Import Prelude Fixed Reserve Position FillDelay Fill.

(** ** Data *)

Definition HEALTH_MARGIN_BPS : Z := 50.
Definition DUST_FLOOR_BPS : Z := 100.
Definition BACKOFF_BPS : Z := 1.
Definition BACKOFF_ROUNDS : Z := 8.

Record UnwindTerms : Type := mkUnwindTerms {
  ut_primary_asset : string;
  ut_min_primary_collateral : Z;
  ut_min_health_factor : Z;
  ut_min_collateral : Z;
}.

Record UnwindInputs : Type := mkUnwindInputs {
  ui_reserves : gmap Z Reserve;
  ui_asset_index : gmap string Z;
  ui_prices : OraclePrices;
  ui_positions : Positions;
  ui_wallet : gmap string Z;
}.

Inductive UnwindAction : Type :=
| Repay (asset : string) (amount : Z)
| Withdraw (asset : string) (amount : Z)
| WithdrawAll (asset : string).

Record UnwindPlan : Type := mkUnwindPlan {
  up_actions : list UnwindAction;
  up_spend : gmap string Z;
  up_remaining_liabilities : list string;
  up_projected_health : option Z;
}.

(** [UnwindPlan::is_idle]. *)
Definition is_idle (self : UnwindPlan) : bool :=
  match up_actions self with [] => true | _ => false end.

(** The working positions and the requests taken so far. *)
Record Work : Type := mkWork { wk_positions : Positions; wk_actions : list UnwindAction }.

Definition push (w : Work) (p : Positions) (action : UnwindAction) : Work :=
  mkWork p (wk_actions w ++ [action]).

(** ** Helpers *)

Definition project (inputs : UnwindInputs) (positions : Positions)
  : result MathError PositionData :=
  calculate_position_data (ui_reserves inputs) (ui_prices inputs) positions.

Definition primary_index (terms : UnwindTerms) (inputs : UnwindInputs) : result MathError Z :=
  ok_or (ui_asset_index inputs !! ut_primary_asset terms)
    (InvalidInput "the primary asset is not a reserve of this pool").

Definition reserve_at (inputs : UnwindInputs) (index : Z) : result MathError Reserve :=
  ok_or (ui_reserves inputs !! index) (MissingReserve index).

Definition put (m : gmap Z Z) (index left' : Z) : gmap Z Z :=
  if 0 <? left' then <[index := left']> m else delete index m.

Definition after_withdrawal (inputs : UnwindInputs) (positions : Positions) (index amount : Z)
  : result MathError Positions :=
  let? reserve := reserve_at inputs index in
  let held := get_or_zero (collateral positions) index in
  let? burnt := to_b_token_up reserve amount in
  let burnt := Z.min burnt held in
  let? left' := ok_or (checked_sub held burnt) Overflow in
  Ok (set_collateral (put (collateral positions) index left') positions).

Definition primary_excess (terms : UnwindTerms) (inputs : UnwindInputs) (positions : Positions)
  : result MathError Z :=
  let? primary := primary_index terms inputs in
  let? reserve := reserve_at inputs primary in
  let held := get_or_zero (collateral positions) primary in
  if held <=? 0 then Ok 0
  else
    let? floor := to_b_token_up reserve (Z.max (ut_min_primary_collateral terms) 0) in
    let? goes := ok_or (checked_sub held floor) Overflow in
    if goes <=? 0 then Ok 0 else to_asset_from_b_token reserve goes.

Definition dust (terms : UnwindTerms) (amount : Z) : result MathError bool :=
  let? least := mul_floor (Z.max (ut_min_primary_collateral terms) 0) DUST_FLOOR_BPS BPS in
  Ok (amount <? least).

(** ** Step 1: repay *)

Record Repaid : Type := mkRepaid {
  re_positions : Positions;
  re_wallet : gmap string Z;
  re_actions : list UnwindAction;
  re_spend : gmap string Z;
}.

Definition repay_one (inputs : UnwindInputs) (s : Repaid) (index : Z)
  : result MathError Repaid :=
  let p := re_positions s in
  let? reserve := reserve_at inputs index in
  let asset := rs_asset reserve in
  let owing := get_or_zero (liabilities p) index in
  if owing <=? 0 then
    Ok (mkRepaid (set_liabilities (delete index (liabilities p)) p)
          (re_wallet s) (re_actions s) (re_spend s))
  else
    let held := get_or_zero (re_wallet s) asset in
    if held <=? 0 then Ok s
    else
      let? owed := to_asset_from_d_token reserve owing in
      let? allowance := mul_floor owed REPAY_ALLOWANCE_BPS BPS in
      let? wanted := ok_or (checked_add owed allowance ≫= λ a, checked_add a 1) Overflow in
      let amount := Z.min wanted held in
      let? burnt := to_d_token_down reserve amount in
      let burnt := Z.min burnt owing in
      let? left' := ok_or (checked_sub owing burnt) Overflow in
      let left' := if (left' =? 0) && (amount <? wanted) then owing else left' in
      let p := set_liabilities (put (liabilities p) index left') p in
      let? rest := ok_or (checked_sub held amount) Overflow in
      let? spend := add_to (re_spend s) asset amount in
      Ok (mkRepaid p (<[asset := rest]> (re_wallet s)) (re_actions s ++ [Repay asset amount]) spend).

Definition repay (inputs : UnwindInputs) : result MathError Repaid :=
  try_fold (repay_one inputs) (mkRepaid (ui_positions inputs) (ui_wallet inputs) [] ∅)
    (bt_keys (liabilities (ui_positions inputs))).

(** ** Step 2: nothing is owed *)

Definition withdraw_other (inputs : UnwindInputs) (primary : Z) (w : Work) (index : Z)
  : result MathError Work :=
  if index =? primary then Ok w
  else
    let p := wk_positions w in
    let empty := get_or_zero (collateral p) index <=? 0 in
    let? reserve := reserve_at inputs index in
    let p := set_collateral (delete index (collateral p)) p in
    Ok (if empty then mkWork p (wk_actions w) else push w p (WithdrawAll (rs_asset reserve))).

Definition withdraw_free (terms : UnwindTerms) (inputs : UnwindInputs) (w : Work)
  : result MathError Work :=
  let? primary := primary_index terms inputs in
  let? w := try_fold (withdraw_other inputs primary) w (bt_keys (collateral (wk_positions w))) in
  let p := wk_positions w in
  let held := get_or_zero (collateral p) primary in
  if held <=? 0 then Ok w
  else
    let? reserve := reserve_at inputs primary in
    if ut_min_primary_collateral terms <=? 0 then
      Ok (push w (set_collateral (delete primary (collateral p)) p)
            (WithdrawAll (rs_asset reserve)))
    else
      let? excess := primary_excess terms inputs p in
      let? stop := (if excess <=? 0 then Ok true else dust terms excess) in
      if (stop : bool) then Ok w
      else
        let? p := after_withdrawal inputs p primary excess in
        Ok (push w p (Withdraw (rs_asset reserve) excess)).

(** ** Step 3: debts are left *)

Record Bounds : Type := mkBounds { bo_margin : Z; bo_min_collateral : Z }.

Definition bounds_of (terms : UnwindTerms) : result MathError Bounds :=
  let? factor := ok_or (checked_add BPS HEALTH_MARGIN_BPS) Overflow in
  let? margin := mul_ceil (ut_min_health_factor terms) factor BPS in
  Ok (mkBounds margin (ut_min_collateral terms)).

Definition accepts (self : Bounds) (data : PositionData) : result MathError bool :=
  let? under := is_hf_under data (bo_margin self) in
  Ok (negb under && (bo_min_collateral self <=? collateral_base data)).

(** The candidates' order: tuples of value and index, compared as Rust
    compares them. *)
Definition valued_le (p q : Z * Z) : Prop := p.1 < q.1 ∨ (p.1 = q.1 ∧ p.2 ≤ q.2).
#[global] Instance valued_le_dec : RelDecision valued_le.
Proof. intros p q. unfold valued_le. apply _. Defined.

Record Order : Type := mkOrder {
  or_order : list Z;
  or_rest : list (Z * Z);
  or_holds_primary : bool;
}.

Definition place (inputs : UnwindInputs) (primary : Z) (debts : gmap Z Z) (o : Order)
    (entry : Z * Z) : result MathError Order :=
  let '(index, b_tokens) := entry in
  if b_tokens <=? 0 then Ok o
  else if index =? primary then Ok (mkOrder (or_order o) (or_rest o) true)
  else if bool_decide (is_Some (debts !! index)) then
    Ok (mkOrder (or_order o ++ [index]) (or_rest o) (or_holds_primary o))
  else
    let? reserve := reserve_at inputs index in
    let? p := price (ui_prices inputs) (rs_asset reserve) in
    let? effective := to_effective_asset_from_b_token reserve b_tokens in
    let? value := mul_floor p effective (rs_scalar reserve) in
    Ok (mkOrder (or_order o) (or_rest o ++ [(value, index)]) (or_holds_primary o)).

Definition candidates (terms : UnwindTerms) (inputs : UnwindInputs) (positions : Positions)
  : result MathError (list Z) :=
  let? primary := primary_index terms inputs in
  let? o := try_fold (place inputs primary (liabilities positions)) (mkOrder [] [] false)
    (bt_iter (collateral positions)) in
  Ok (or_order o ++ (merge_sort valued_le (or_rest o)).*2
        ++ (if or_holds_primary o then [primary] else [])).

(** Answers whether the withdrawal was taken, and the state it leaves. *)
Definition take_withdrawal (bounds : Bounds) (inputs : UnwindInputs) (w : Work)
    (index amount : Z) : result MathError (Work * bool) :=
  if amount <=? 0 then Ok (w, false)
  else
    let? next := after_withdrawal inputs (wk_positions w) index amount in
    let? data := project inputs next in
    let? ok := accepts bounds data in
    if (ok : bool) then
      let? reserve := reserve_at inputs index in
      Ok (push w next (Withdraw (rs_asset reserve) amount), true)
    else Ok (w, false).

(** The back-off loop, [0..=BACKOFF_ROUNDS]. *)
Fixpoint back_off (n : nat) (terms : UnwindTerms) (bounds : Bounds) (inputs : UnwindInputs)
    (is_primary : bool) (w : Work) (index amount : Z) : result MathError Work :=
  match n with
  | O => Ok w
  | S n =>
      let? stop := (if amount <=? 0 then Ok true
                    else if is_primary then dust terms amount else Ok false) in
      if (stop : bool) then Ok w
      else
        let? (w, taken) := take_withdrawal bounds inputs w index amount in
        if (taken : bool) then Ok w
        else
          let? cut := mul_ceil amount BACKOFF_BPS BPS in
          let? amount := ok_or (checked_sub amount cut) Overflow in
          back_off n terms bounds inputs is_primary w index amount
  end.

(** How many b-tokens of a candidate may go, by the formula, and whether the
    candidate is the primary. *)
Definition may_leave (terms : UnwindTerms) (bounds : Bounds) (inputs : UnwindInputs)
    (reserve : Reserve) (data : PositionData) (held index : Z)
  : result MathError (Z * bool) :=
  let? p := price (ui_prices inputs) (rs_asset reserve) in
  let? floor := mul_ceil (liability_base data) (bo_margin bounds) SCALAR_7 in
  let required := Z.max floor (bo_min_collateral bounds) in
  let? may_go := ok_or (checked_sub (collateral_base data) required) Overflow in
  let? effective := to_effective_asset_from_b_token reserve held in
  let? carries := mul_floor p effective (rs_scalar reserve) in
  let? stays_base := ok_or (checked_sub carries may_go) Overflow in
  let stays_base := Z.max stays_base 0 in
  let? stays_effective := mul_ceil stays_base (rs_scalar reserve) p in
  let? stays_asset := div_ceil stays_effective (rc_c_factor (rs_config reserve)) SCALAR_7 in
  let? stays := to_b_token_up reserve stays_asset in
  let? goes := ok_or (checked_sub held stays) Overflow in
  let? primary := primary_index terms inputs in
  if index =? primary then
    let? floor := to_b_token_up reserve (Z.max (ut_min_primary_collateral terms) 0) in
    let? above := ok_or (checked_sub held floor) Overflow in
    Ok (Z.min goes above, true)
  else Ok (goes, false).

Definition partial (terms : UnwindTerms) (bounds : Bounds) (inputs : UnwindInputs) (w : Work)
    (data : PositionData) (index : Z) : result MathError Work :=
  let? reserve := reserve_at inputs index in
  if rc_c_factor (rs_config reserve) =? 0 then Ok w
  else
    let held := get_or_zero (collateral (wk_positions w)) index in
    if held <=? 0 then Ok w
    else
      let? (goes, is_primary) := may_leave terms bounds inputs reserve data held index in
      if goes <=? 0 then Ok w
      else
        let? amount := to_asset_from_b_token reserve goes in
        back_off (Z.to_nat (BACKOFF_ROUNDS + 1)) terms bounds inputs is_primary w index amount.

Definition withdraw_candidate (terms : UnwindTerms) (bounds : Bounds) (inputs : UnwindInputs)
    (w : Work) (data : PositionData) (index : Z) : result MathError Work :=
  let? primary := primary_index terms inputs in
  if index =? primary then
    let? excess := primary_excess terms inputs (wk_positions w) in
    let? stop := (if excess <=? 0 then Ok true else dust terms excess) in
    if (stop : bool) then Ok w
    else
      let? (w, taken) := take_withdrawal bounds inputs w index excess in
      if (taken : bool) then Ok w else partial terms bounds inputs w data index
  else
    let? reserve := reserve_at inputs index in
    let p := wk_positions w in
    let whole := set_collateral (delete index (collateral p)) p in
    let? whole_data := project inputs whole in
    let? ok := accepts bounds whole_data in
    if (ok : bool) then Ok (push w whole (WithdrawAll (rs_asset reserve)))
    else partial terms bounds inputs w data index.

(** The walk over the candidates, with the [break] at the margin. *)
Fixpoint walk (terms : UnwindTerms) (bounds : Bounds) (inputs : UnwindInputs) (w : Work)
    (order : list Z) : result MathError Work :=
  match order with
  | [] => Ok w
  | index :: order =>
      let? data := project inputs (wk_positions w) in
      let? under := is_hf_under data (bo_margin bounds) in
      if (under : bool) then Ok w
      else
        let? w := withdraw_candidate terms bounds inputs w data index in
        walk terms bounds inputs w order
  end.

Definition withdraw_within_floor (terms : UnwindTerms) (inputs : UnwindInputs) (w : Work)
  : result MathError (Work * option Z) :=
  let? bounds := bounds_of terms in
  let? order := candidates terms inputs (wk_positions w) in
  let? w := walk terms bounds inputs w order in
  let? data := project inputs (wk_positions w) in
  let? health := health_factor data in
  Ok (w, health).

(** ** The plan *)

(** The working state a plan ends on, with the plan. *)
Definition run_unwind (terms : UnwindTerms) (inputs : UnwindInputs)
  : result MathError (UnwindPlan * Positions) :=
  let? repaid := repay inputs in
  let p := re_positions repaid in
  let? remaining_liabilities :=
    try_fold (λ names index, let? reserve := reserve_at inputs index in
                Ok (names ++ [rs_asset reserve])) [] (bt_keys (liabilities p)) in
  let w := mkWork p (re_actions repaid) in
  let? (w, projected_health) :=
    if bool_decide (liabilities p = ∅) then
      let? w := withdraw_free terms inputs w in Ok (w, None)
    else withdraw_within_floor terms inputs w in
  Ok (mkUnwindPlan (wk_actions w) (re_spend repaid) remaining_liabilities projected_health,
      wk_positions w).

Definition plan_unwind (terms : UnwindTerms) (inputs : UnwindInputs)
  : result MathError UnwindPlan :=
  let? (plan, _) := run_unwind terms inputs in Ok plan.

(** ** What the contract makes of an unwind's requests *)

Definition contract_request (inputs : UnwindInputs) (p : Positions) (action : UnwindAction)
  : result MathError Positions :=
  let reserve_named asset :=
    let? index := ok_or (ui_asset_index inputs !! asset) (InvalidInput "not a reserve") in
    let? reserve := reserve_at inputs index in Ok (index, reserve) in
  match action with
  | Repay asset amount =>
      let? (index, reserve) := reserve_named asset in
      let? tokens := to_d_token_down reserve amount in
      let owing := get_or_zero (liabilities p) index in
      Ok (set_liabilities (put (liabilities p) index (owing - Z.min tokens owing)) p)
  | Withdraw asset amount =>
      let? (index, _) := reserve_named asset in after_withdrawal inputs p index amount
  | WithdrawAll asset =>
      let? (index, _) := reserve_named asset in
      Ok (set_collateral (delete index (collateral p)) p)
  end.

Definition action_spend (asset : string) (action : UnwindAction) : Z :=
  match action with
  | Repay a amount => if decide (a = asset) then amount else 0
  | _ => 0
  end.

(** The pool's asset index and its reserves name each other. *)
Definition indexed (inputs : UnwindInputs) : Prop :=
  ∀ i r, ui_reserves inputs !! i = Some r → ui_asset_index inputs !! rs_asset r = Some i.

(** A pool stores no zero collateral. *)
Definition positive_map (m : gmap Z Z) : Prop := ∀ i a, m !! i = Some a → 0 < a.

Section unwind.
Context (terms : UnwindTerms) (inputs : UnwindInputs).
Context (Hpool : wf_pool (ui_reserves inputs) (ui_prices inputs)) (Hindexed : indexed inputs).

Lemma reserve_at_ok i r : reserve_at inputs i = Ok r ↔ ui_reserves inputs !! i = Some r.
Proof. apply ok_or_ok. Qed.

Lemma reserve_at_wf i r : reserve_at inputs i = Ok r → wf_reserve r.
Proof. intros H%reserve_at_ok. by eapply wf_reserves. Qed.

(** The least b-tokens of the primary an unwind leaves. *)
Definition floor_b_tokens (r : Reserve) : Z :=
  cdiv (Z.max (ut_min_primary_collateral terms) 0 * SCALAR_12) (rd_b_rate (rs_data r)).

Lemma b_up_ok r a t :
  wf_reserve r → to_b_token_up r a = Ok t →
  0 < rd_b_rate (rs_data r) ∧ t = cdiv (a * SCALAR_12) (rd_b_rate (rs_data r)).
Proof. intros [] H. conversions. fixed_inv. lia. Qed.

Lemma get_put m i v j :
  get_or_zero (put m i v) j = if decide (j = i) then Z.max v 0 else get_or_zero m j.
Proof.
  unfold put, get_or_zero. destruct (Z.ltb_spec 0 v); case_decide; subst;
    rewrite ?lookup_insert_eq, ?lookup_delete_eq, ?lookup_insert_ne, ?lookup_delete_ne by done;
    simpl; try done; lia.
Qed.

Lemma get_delete (m : gmap Z Z) i j :
  get_or_zero (delete i m) j = if decide (j = i) then 0 else get_or_zero m j.
Proof.
  unfold get_or_zero. case_decide; subst; by rewrite ?lookup_delete_eq, ?lookup_delete_ne by done.
Qed.

Lemma positive_get m i : positive_map m → 0 ≤ get_or_zero m i.
Proof. intros Hm. apply nonneg_map_get. intros j a Hj. specialize (Hm j a Hj). lia. Qed.

Lemma put_positive m i v : positive_map m → positive_map (put m i v).
Proof.
  intros Hm j a. unfold put. destruct (Z.ltb_spec 0 v).
  - rewrite lookup_insert_Some. naive_solver.
  - rewrite lookup_delete_Some. naive_solver.
Qed.

Lemma delete_positive m i : positive_map m → positive_map (delete i m).
Proof. intros Hm j a. rewrite lookup_delete_Some. naive_solver. Qed.

(** What a withdrawal leaves. *)
Lemma after_withdrawal_ok p i amount p' :
  positive_map (collateral p) → 0 ≤ amount → after_withdrawal inputs p i amount = Ok p' →
  ∃ r, reserve_at inputs i = Ok r ∧ 0 < rd_b_rate (rs_data r) ∧
    p' = set_collateral (put (collateral p) i (get_or_zero (collateral p) i
      - Z.min (cdiv (amount * SCALAR_12) (rd_b_rate (rs_data r)))
          (get_or_zero (collateral p) i))) p ∧
    0 ≤ cdiv (amount * SCALAR_12) (rd_b_rate (rs_data r)).
Proof.
  intros Hnn Ha H. unfold after_withdrawal in H. apply bind_ok in H as (r & Hr & H).
  apply bind_ok in H as (t & Ht & H). apply b_up_ok in Ht as [Hrate ->]; [|by eapply reserve_at_wf].
  apply bind_ok in H as (l & Hl & H). apply ok_or_ok, checked_sub_some in Hl as [-> _].
  injection H as <-. exists r. split_and!; try done. apply cdiv_nonneg; scalars; lia.
Qed.

(** ** One step down

    What every withdrawal keeps: debts and supply as they are, collateral
    only falling, and the primary never under its floor (or under what was
    there, when that was less). *)
Record step_down (w w' : Work) : Prop := mkStepDown {
  sd_liabilities : liabilities (wk_positions w') = liabilities (wk_positions w);
  sd_supply : supply (wk_positions w') = supply (wk_positions w);
  sd_positive : positive_map (collateral (wk_positions w'));
  sd_falls : ∀ i, get_or_zero (collateral (wk_positions w')) i
    ≤ get_or_zero (collateral (wk_positions w)) i;
  sd_floor : ∀ i r, ui_asset_index inputs !! ut_primary_asset terms = Some i →
    ui_reserves inputs !! i = Some r →
    Z.min (get_or_zero (collateral (wk_positions w)) i) (floor_b_tokens r)
      ≤ get_or_zero (collateral (wk_positions w')) i;
  sd_exec : ∃ actions, wk_actions w' = wk_actions w ++ actions ∧
    (∀ a, zsum (action_spend a) actions = 0) ∧
    ∀ l, try_fold (contract_request inputs) (set_liabilities l (wk_positions w)) actions
      = Ok (set_liabilities l (wk_positions w'));
}.

Lemma step_down_refl w : positive_map (collateral (wk_positions w)) → step_down w w.
Proof.
  intros Hnn. split; try done; [intros; lia|].
  exists []. split_and!; [by rewrite app_nil_r|done|done].
Qed.

Lemma step_down_trans w1 w2 w3 : step_down w1 w2 → step_down w2 w3 → step_down w1 w3.
Proof.
  intros [Hl1 Hs1 Hn1 Hf1 Hp1 (a1 & Ha1 & Hz1 & He1)] [Hl2 Hs2 Hn2 Hf2 Hp2 (a2 & Ha2 & Hz2 & He2)].
  split; [congruence..|done| | |].
  - intros i. etrans; eauto.
  - intros i r Hi Hr. specialize (Hp1 i r Hi Hr). specialize (Hp2 i r Hi Hr). lia.
  - exists (a1 ++ a2). split_and!.
    + by rewrite Ha2, Ha1, app_assoc.
    + intros a. by rewrite zsum_app, Hz1, Hz2.
    + intros l. rewrite try_fold_app, He1. apply He2.
Qed.

(** A withdrawal of an amount whose b-tokens leave the floor standing. *)
Lemma step_down_withdraw w i amount next r :
  positive_map (collateral (wk_positions w)) → 0 ≤ amount →
  reserve_at inputs i = Ok r → after_withdrawal inputs (wk_positions w) i amount = Ok next →
  (ui_asset_index inputs !! ut_primary_asset terms = Some i →
   cdiv (amount * SCALAR_12) (rd_b_rate (rs_data r))
     ≤ get_or_zero (collateral (wk_positions w)) i - floor_b_tokens r) →
  step_down w (push w next (Withdraw (rs_asset r) amount)).
Proof.
  intros Hnn Ha Hr H Hfloor. pose proof H as Hn.
  apply after_withdrawal_ok in Hn as (r' & Hr' & Hrate & -> & Hb); [|done..].
  assert (r' = r) as -> by congruence.
  pose proof (positive_get (collateral (wk_positions w)) i Hnn).
  split; simpl; try done.
  - by apply put_positive.
  - intros j. rewrite get_put. case_decide; subst; lia.
  - intros j r1 Hj Hr1. rewrite get_put. case_decide; subst; [|lia].
    apply reserve_at_ok in Hr. rewrite Hr in Hr1. injection Hr1 as <-. specialize (Hfloor Hj). lia.
  - exists [Withdraw (rs_asset r) amount]. split_and!; [done|done|].
    intros l. simpl. apply reserve_at_ok in Hr. rewrite (Hindexed _ _ Hr). simpl.
    apply reserve_at_ok in Hr. rewrite Hr. simpl.
    unfold after_withdrawal in *. rewrite Hr in *. simpl in *.
    apply bind_ok in H as (t & Ht & H). rewrite Ht. simpl.
    apply bind_ok in H as (v & Hv & H). rewrite Hv. simpl. by injection H as ->.
Qed.

(** A withdrawal of everything, of an asset with no floor to keep. *)
Lemma step_down_all w i r :
  positive_map (collateral (wk_positions w)) → reserve_at inputs i = Ok r →
  (ui_asset_index inputs !! ut_primary_asset terms = Some i →
     ut_min_primary_collateral terms ≤ 0) →
  step_down w (push w (set_collateral (delete i (collateral (wk_positions w))) (wk_positions w))
    (WithdrawAll (rs_asset r))).
Proof.
  intros Hnn Hr Hfloor. split; simpl; try done.
  - by apply delete_positive.
  - intros j. rewrite get_delete. pose proof (positive_get _ j Hnn). case_decide; subst; lia.
  - intros j r1 Hj Hr1. rewrite get_delete. case_decide; [subst|lia].
    unfold floor_b_tokens. rewrite Z.max_r, Z.mul_0_l, cdiv_zero by auto. lia.
  - exists [WithdrawAll (rs_asset r)]. split_and!; [done|done|].
    intros l. simpl. apply reserve_at_ok in Hr. rewrite (Hindexed _ _ Hr). simpl.
    apply reserve_at_ok in Hr. by rewrite Hr.
Qed.


(** ** Step 2 *)

Lemma primary_index_ok i :
  primary_index terms inputs = Ok i ↔ ui_asset_index inputs !! ut_primary_asset terms = Some i.
Proof. apply ok_or_ok. Qed.

(** The excess never reaches into the floor. *)
Lemma primary_excess_ok p e :
  primary_excess terms inputs p = Ok e → 0 < e →
  ∃ i r, primary_index terms inputs = Ok i ∧ reserve_at inputs i = Ok r ∧
    cdiv (e * SCALAR_12) (rd_b_rate (rs_data r))
      ≤ get_or_zero (collateral p) i - floor_b_tokens r.
Proof.
  unfold primary_excess. intros H He. apply bind_ok in H as (i & Hi & H).
  apply bind_ok in H as (r & Hr & H). exists i, r. split_and!; [done..|].
  destruct (_ <=? 0); [injection H as <-; lia|].
  apply bind_ok in H as (f & Hf & H). apply b_up_ok in Hf as [Hrate ->]; [|by eapply reserve_at_wf].
  apply bind_ok in H as (g & Hg & H). apply ok_or_ok, checked_sub_some in Hg as [-> _].
  destruct (_ <=? 0); [injection H as <-; lia|]. fold (floor_b_tokens r) in *.
  apply asset_b_ok in H as ->. unfold b_asset. apply ceil_of_floor; [done|lia].
Qed.

Lemma withdraw_other_ok primary w i w' :
  primary_index terms inputs = Ok primary →
  positive_map (collateral (wk_positions w)) →
  withdraw_other inputs primary w i = Ok w' →
  step_down w w' ∧ (i ≠ primary → get_or_zero (collateral (wk_positions w')) i = 0).
Proof.
  intros Hp Hpos H. unfold withdraw_other in H.
  destruct (Z.eqb_spec i primary) as [->|Hne].
  { injection H as <-. split; [by apply step_down_refl|done]. }
  apply bind_ok in H as (r & Hr & H).
  destruct (Z.leb_spec (get_or_zero (collateral (wk_positions w)) i) 0) as [Hz|Hz];
    injection H as <-.
  - assert (collateral (wk_positions w) !! i = None) as Hnone.
    { destruct (collateral (wk_positions w) !! i) as [a|] eqn:Ha; [|done].
      specialize (Hpos _ _ Ha). unfold get_or_zero in Hz. rewrite Ha in Hz. simpl in Hz. lia. }
    rewrite delete_id by done. destruct w as [[c l s] acts]. simpl in *.
    split; [by apply step_down_refl|]. intros _. unfold get_or_zero. by rewrite Hnone.
  - split.
    + apply step_down_all; [done..|]. intros Hi. apply primary_index_ok in Hi. congruence.
    + intros _. simpl. by rewrite get_delete, decide_True.
Qed.

Lemma withdraw_free_ok w w' :
  positive_map (collateral (wk_positions w)) →
  withdraw_free terms inputs w = Ok w' →
  step_down w w' ∧
  ∃ primary, primary_index terms inputs = Ok primary ∧
    ∀ i, i ≠ primary → collateral (wk_positions w') !! i = None.
Proof.
  intros Hpos H. unfold withdraw_free in H. apply bind_ok in H as (primary & Hprim & H).
  apply bind_ok in H as (w1 & Hfold & H).
  set (P := λ (l : list Z) (x : Work), step_down w x ∧
    ∀ i, i ∈ l → i ≠ primary → get_or_zero (collateral (wk_positions x)) i = 0).
  assert (P (bt_keys (collateral (wk_positions w))) w1) as [Hd Hz].
  { apply (try_fold_prefix (withdraw_other inputs primary) P w w1); [| |exact Hfold].
    - split; [by apply step_down_refl|set_solver].
    - intros l1 i l2 x y _ [Hx Hzx] Hstep.
      apply withdraw_other_ok in Hstep as [Hy Hi]; [|done|apply Hx].
      split; [by eapply step_down_trans|]. intros j [Hj|Hj]%elem_of_app Hne.
      + pose proof (sd_falls _ _ Hy j). specialize (Hzx j Hj Hne).
        pose proof (positive_get _ j (sd_positive _ _ Hy)). lia.
      + apply list_elem_of_singleton in Hj. subst. auto. }
  assert (∀ w2, step_down w1 w2 → step_down w w2 ∧
    ∃ primary, primary_index terms inputs = Ok primary ∧
      ∀ i, i ≠ primary → collateral (wk_positions w2) !! i = None) as Hfinish.
  { intros w2 H2. split; [by eapply step_down_trans|]. exists primary. split; [done|].
    intros i Hne. destruct (collateral (wk_positions w2) !! i) as [a|] eqn:Ha; [|done]. exfalso.
    pose proof (sd_positive _ _ H2 _ _ Ha) as Hap.
    pose proof (sd_falls _ _ H2 i) as Hf. unfold get_or_zero at 1 in Hf. rewrite Ha in Hf. simpl in Hf.
    destruct (decide (i ∈ bt_keys (collateral (wk_positions w)))) as [Hin|Hout].
    - rewrite Hz in Hf by done. lia.
    - rewrite bt_keys_elem in Hout. apply eq_None_not_Some in Hout.
      pose proof (sd_falls _ _ Hd i) as Hf'. unfold get_or_zero at 2 in Hf'.
      rewrite Hout in Hf'. simpl in Hf'. lia. }
  pose proof (sd_positive _ _ Hd) as Hpos1.
  destruct (_ <=? 0); [injection H as <-; by apply Hfinish, step_down_refl|].
  apply bind_ok in H as (r & Hr & H).
  destruct (Z.leb_spec (ut_min_primary_collateral terms) 0).
  { injection H as <-. by apply Hfinish, step_down_all. }
  apply bind_ok in H as (excess & Hex & H). apply bind_ok in H as (stop & Hstop & H).
  destruct stop; [injection H as <-; by apply Hfinish, step_down_refl|].
  destruct (Z.leb_spec excess 0); [done|].
  apply bind_ok in H as (next & Hnext & H). injection H as <-. apply Hfinish.
  apply primary_excess_ok in Hex as (i & r' & Hi & Hr' & Hle); [|done].
  eapply step_down_withdraw; [done|lia|exact Hr|exact Hnext|].
  intros _. congruence.
Qed.

(** ** Step 3 *)

Context (bounds : Bounds).

Definition accepted (w : Work) : Prop :=
  ∃ data, project inputs (wk_positions w) = Ok data ∧ accepts bounds data = Ok true.

(** Nothing moved, or what is left is within the bounds. *)
Definition down (w w' : Work) : Prop := step_down w w' ∧ (w' = w ∨ accepted w').

Lemma down_refl w : positive_map (collateral (wk_positions w)) → down w w.
Proof. split; [by apply step_down_refl|by left]. Qed.

Lemma down_trans w1 w2 w3 : down w1 w2 → down w2 w3 → down w1 w3.
Proof. intros [H1 O1] [H2 O2]. split; [by eapply step_down_trans|]. naive_solver. Qed.

Lemma take_withdrawal_ok w i amount w' taken r :
  positive_map (collateral (wk_positions w)) →
  reserve_at inputs i = Ok r →
  (ui_asset_index inputs !! ut_primary_asset terms = Some i →
   cdiv (amount * SCALAR_12) (rd_b_rate (rs_data r))
     ≤ get_or_zero (collateral (wk_positions w)) i - floor_b_tokens r) →
  take_withdrawal bounds inputs w i amount = Ok (w', taken) →
  down w w' ∧ (taken = false → w' = w).
Proof.
  intros Hpos Hr Hfloor H. unfold take_withdrawal in H.
  destruct (Z.leb_spec amount 0); [injection H as <- <-; split; [by apply down_refl|done]|].
  apply bind_ok in H as (next & Hnext & H). apply bind_ok in H as (data & Hdata & H).
  apply bind_ok in H as (ok & Hok & H).
  destruct ok; [|injection H as <- <-; split; [by apply down_refl|done]].
  rewrite Hr in H. injection H as <- <-. split; [|done]. split.
  - eapply step_down_withdraw; [done|lia|done|done|done].
  - right. by exists data.
Qed.

Lemma back_off_ok n is_primary w i amount w' r :
  positive_map (collateral (wk_positions w)) → reserve_at inputs i = Ok r →
  0 < rd_b_rate (rs_data r) →
  (ui_asset_index inputs !! ut_primary_asset terms = Some i →
   cdiv (amount * SCALAR_12) (rd_b_rate (rs_data r))
     ≤ get_or_zero (collateral (wk_positions w)) i - floor_b_tokens r) →
  back_off n terms bounds inputs is_primary w i amount = Ok w' → down w w'.
Proof.
  intros Hpos Hr Hrate. revert amount.
  induction n as [|n IH]; intros amount Hfloor H; [injection H as <-; by apply down_refl|].
  cbn [back_off] in H. apply bind_ok in H as (stop & Hstop & H).
  destruct stop; [injection H as <-; by apply down_refl|].
  assert (0 < amount) as Ha by (destruct (Z.leb_spec amount 0); [done|lia]).
  apply bind_ok in H as ([w1 taken] & Htake & H).
  eapply take_withdrawal_ok in Htake as [Hdown Hsame]; [|exact Hpos|exact Hr|exact Hfloor].
  destruct taken; [by injection H as <-|]. rewrite Hsame in H by done.
  apply bind_ok in H as (cut & Hcut & H). apply bind_ok in H as (amount' & Ham & H).
  apply ok_or_ok, checked_sub_some in Ham as [-> _]. apply mul_ceil_ok in Hcut as (_ & -> & _).
  eapply IH; [|exact H]. intros Hi. etrans; [|by apply Hfloor].
  assert (0 ≤ cdiv (amount * BACKOFF_BPS) BPS) by (apply cdiv_nonneg; [done|unfold BACKOFF_BPS; lia]).
  apply cdiv_mono; [done|]. scalars. lia.
Qed.

Lemma may_leave_ok r data held i goes is_primary :
  wf_reserve r → may_leave terms bounds inputs r data held i = Ok (goes, is_primary) →
  0 < rd_b_rate (rs_data r) ∧
  (ui_asset_index inputs !! ut_primary_asset terms = Some i → goes ≤ held - floor_b_tokens r).
Proof.
  intros Hwf H. unfold may_leave in H.
  repeat (apply bind_ok in H as (? & ? & H)).
  match goal with H : to_b_token_up _ _ = Ok _ |- _ => apply b_up_ok in H as [Hrate ->]; [|done] end.
  split; [done|]. intros Hi%primary_index_ok.
  match goal with H : primary_index _ _ = Ok ?x |- _ => assert (x = i) as -> by congruence end.
  rewrite Z.eqb_refl in H. apply bind_ok in H as (f & Hf & H).
  apply b_up_ok in Hf as [_ ->]; [|done]. fold (floor_b_tokens r) in H.
  apply bind_ok in H as (above & Hab & H). apply ok_or_ok, checked_sub_some in Hab as [-> _].
  injection H as <- <-. lia.
Qed.

Lemma partial_ok w data i w' :
  positive_map (collateral (wk_positions w)) →
  partial terms bounds inputs w data i = Ok w' → down w w'.
Proof.
  intros Hpos H. unfold partial in H. apply bind_ok in H as (r & Hr & H).
  destruct (_ =? 0); [injection H as <-; by apply down_refl|].
  destruct (_ <=? 0); [injection H as <-; by apply down_refl|].
  apply bind_ok in H as ([goes is_primary] & Hgoes & H).
  destruct (Z.leb_spec goes 0); [injection H as <-; by apply down_refl|].
  apply bind_ok in H as (amount & Ham & H). apply asset_b_ok in Ham as ->.
  apply may_leave_ok in Hgoes as [Hrate Hle]; [|by eapply reserve_at_wf].
  eapply back_off_ok; [done|exact Hr|done| |exact H]. intros Hi. etrans; [|by apply Hle].
  unfold b_asset. apply ceil_of_floor; done.
Qed.

Lemma withdraw_candidate_ok w data i w' :
  positive_map (collateral (wk_positions w)) →
  withdraw_candidate terms bounds inputs w data i = Ok w' → down w w'.
Proof.
  intros Hpos H. unfold withdraw_candidate in H. apply bind_ok in H as (primary & Hp & H).
  destruct (Z.eqb_spec i primary) as [->|Hne].
  - apply bind_ok in H as (excess & Hex & H). apply bind_ok in H as (stop & Hstop & H).
    destruct stop; [injection H as <-; by apply down_refl|].
    destruct (Z.leb_spec excess 0); [done|].
    apply primary_excess_ok in Hex as (j & r & Hj & Hr & Hle); [|done].
    assert (j = primary) as -> by congruence.
    apply bind_ok in H as ([w1 taken] & Htake & H).
    eapply take_withdrawal_ok in Htake as [Hdown Hsame]; [|exact Hpos|exact Hr|done].
    destruct taken; [by injection H as <-|]. rewrite Hsame in H by done. by eapply partial_ok.
  - apply bind_ok in H as (r & Hr & H). apply bind_ok in H as (wd & Hwd & H).
    apply bind_ok in H as (ok & Hok & H). destruct ok; [|by eapply partial_ok].
    injection H as <-. split; [|right; by exists wd].
    apply step_down_all; [done..|]. intros Hi. apply primary_index_ok in Hi. congruence.
Qed.

Lemma walk_ok order w w' :
  positive_map (collateral (wk_positions w)) →
  walk terms bounds inputs w order = Ok w' → down w w'.
Proof.
  revert w. induction order as [|i order IH]; intros w Hpos H; [injection H as <-; by apply down_refl|].
  cbn [walk] in H. apply bind_ok in H as (data & Hdata & H). apply bind_ok in H as (under & Hu & H).
  destruct under; [injection H as <-; by apply down_refl|].
  apply bind_ok in H as (w1 & Hw1 & H). apply withdraw_candidate_ok in Hw1; [|done].
  eapply down_trans; [exact Hw1|]. apply IH; [|done]. apply Hw1.
Qed.
End unwind.

(** ** Step 1 *)

(** A repay the plan counts as clearing a debt carries the whole allowance. *)
Definition allowance_of (r : Reserve) (owing : Z) : Z :=
  d_asset r owing + d_asset r owing * REPAY_ALLOWANCE_BPS / BPS + 1.

(** What step 1 keeps, [l] being the debts it has been through. *)
Record repaying (inputs : UnwindInputs) (l : list Z) (s : Repaid) : Prop := mkRepaying' {
  rg_collateral : collateral (re_positions s) = collateral (ui_positions inputs);
  rg_supply : supply (re_positions s) = supply (ui_positions inputs);
  rg_wallet : ∀ a, get_or_zero (re_wallet s) a + get_or_zero (re_spend s) a
    = get_or_zero (ui_wallet inputs) a;
  rg_held : ∀ a, get_or_zero (re_spend s) a = 0 ∨ 0 ≤ get_or_zero (re_wallet s) a;
  rg_spend : ∀ a, get_or_zero (re_spend s) a = zsum (action_spend a) (re_actions s);
  rg_exec : ∃ debts,
    try_fold (contract_request inputs) (ui_positions inputs) (re_actions s)
      = Ok (set_liabilities debts (ui_positions inputs)) ∧
    ∀ i, if decide (i ∈ l)
         then get_or_zero debts i ≤ get_or_zero (liabilities (re_positions s)) i
         else debts !! i = liabilities (ui_positions inputs) !! i ∧
              liabilities (re_positions s) !! i = liabilities (ui_positions inputs) !! i;
  rg_cleared : ∀ i d r, i ∈ l → liabilities (ui_positions inputs) !! i = Some d → 0 < d →
    ui_reserves inputs !! i = Some r → liabilities (re_positions s) !! i = None →
    Repay (rs_asset r) (allowance_of r d) ∈ re_actions s;
  rg_falls : ∀ i, get_or_zero (liabilities (re_positions s)) i
    ≤ get_or_zero (liabilities (ui_positions inputs)) i;
}.

Section repay.
Context (inputs : UnwindInputs).
Context (Hpool : wf_pool (ui_reserves inputs) (ui_prices inputs)) (Hindexed : indexed inputs).
Context (Hpos : nonneg_map (liabilities (ui_positions inputs))).

Lemma repaying_start :
  repaying inputs [] (mkRepaid (ui_positions inputs) (ui_wallet inputs) [] ∅).
Proof.
  assert (∀ a, get_or_zero (∅ : gmap string Z) a = 0) as H0
    by (intros; unfold get_or_zero; by rewrite lookup_empty).
  split; simpl; try done; try (intros; rewrite ?H0; simpl; auto; lia).
  - exists (liabilities (ui_positions inputs)). split; [by destruct inputs as [? ? ? [] ?]|].
    done.
  - intros i d r Hin. by apply not_elem_of_nil in Hin.
Qed.

(** A debt the step leaves as it is. *)
Lemma repaying_skip l s i :
  i ∉ l → repaying inputs l s → is_Some (liabilities (ui_positions inputs) !! i) →
  repaying inputs (l ++ [i]) s.
Proof.
  intros Hi [] [d Hd]. split; try done.
  - destruct rg_exec0 as (debts & He & Hall). exists debts. split; [done|].
    intros j. specialize (Hall j). destruct (decide (j ∈ l ++ [i])) as [Hj|Hj].
    + destruct (decide (j ∈ l)); [done|]. unfold get_or_zero. destruct Hall as [-> ->]. done.
    + rewrite decide_False in Hall by set_solver. done.
  - intros j d' r [Hj|Hj]%elem_of_app Hjd Hpd Hjr Hnone; [by eapply rg_cleared0|].
    apply list_elem_of_singleton in Hj. subst j. destruct rg_exec0 as (debts & _ & Hall).
    specialize (Hall i). rewrite decide_False in Hall by done. destruct Hall. congruence.
Qed.

(** A debt of nothing is dropped. *)
Lemma repaying_drop l s i :
  i ∉ l → repaying inputs l s → get_or_zero (liabilities (re_positions s)) i ≤ 0 →
  repaying inputs (l ++ [i])
    (mkRepaid (set_liabilities (delete i (liabilities (re_positions s))) (re_positions s))
       (re_wallet s) (re_actions s) (re_spend s)).
Proof.
  intros Hi [] Hz. destruct rg_exec0 as (debts & He & Hall).
  pose proof (Hall i) as Hsame. rewrite decide_False in Hsame by done. destruct Hsame as [Hdi Hli].
  assert (get_or_zero debts i = get_or_zero (liabilities (re_positions s)) i) as Hdeq
    by (unfold get_or_zero; by rewrite Hdi, Hli).
  split; simpl; try done.
  - exists debts. split; [done|]. intros j. specialize (Hall j). rewrite get_delete.
    destruct (decide (j ∈ l ++ [i])) as [Hj|Hj].
    + destruct (decide (j = i)) as [->|]; [lia|]. rewrite decide_True in Hall by set_solver. done.
    + rewrite decide_False in Hall by set_solver. rewrite lookup_delete_ne by set_solver. done.
  - intros j d r [Hj|Hj]%elem_of_app Hjd Hpd Hjr Hnone.
    + rewrite lookup_delete_ne in Hnone by set_solver. by eapply rg_cleared0.
    + apply list_elem_of_singleton in Hj. subst j. exfalso.
      unfold get_or_zero in Hz. rewrite Hli, Hjd in Hz. simpl in Hz. lia.
  - intros j. rewrite get_delete. case_decide; subst; [|apply rg_falls0].
    by apply nonneg_map_get.
Qed.

Lemma repay_one_ok l s i s' :
  i ∉ l → is_Some (liabilities (ui_positions inputs) !! i) →
  repay_one inputs s i = Ok s' → repaying inputs l s → repaying inputs (l ++ [i]) s'.
Proof.
  intros Hi Hsome H Hs. unfold repay_one in H. apply bind_ok in H as (r & Hr & H).
  destruct (Z.leb_spec (get_or_zero (liabilities (re_positions s)) i) 0).
  { injection H as <-. by apply repaying_drop. }
  destruct (Z.leb_spec (get_or_zero (re_wallet s) (rs_asset r)) 0).
  { injection H as <-. by apply repaying_skip. }
  set (owing := get_or_zero (liabilities (re_positions s)) i) in *.
  set (held := get_or_zero (re_wallet s) (rs_asset r)) in *.
  apply bind_ok in H as (owed & Howed & H). apply asset_d_ok in Howed as ->.
  apply bind_ok in H as (al & Hal & H). apply mul_floor_ok in Hal as (_ & -> & _).
  apply bind_ok in H as (wanted & Hwanted & H). apply ok_or_ok in Hwanted.
  apply bind_Some in Hwanted as (w1 & Hw1 & Hwanted).
  apply checked_add_some in Hw1 as [-> _], Hwanted as [-> _]. fold (allowance_of r owing) in H.
  set (amount := Z.min (allowance_of r owing) held) in *.
  apply bind_ok in H as (burnt & Hburnt & H). apply bind_ok in H as (lf & Hlf & H).
  apply ok_or_ok, checked_sub_some in Hlf as [-> _].
  apply bind_ok in H as (rest & Hrest & H). apply ok_or_ok, checked_sub_some in Hrest as [-> _].
  apply bind_ok in H as (sp & Hsp & H). apply add_to_ok in Hsp as [Hsp _]. injection H as <-.
  destruct Hs as [Hcol Hsup Hwal Hheld Hspend (debts & Hexec & Hdebts) Hclear Hfalls].
  pose proof (Hdebts i) as Hsame. rewrite decide_False in Hsame by done. destruct Hsame as [Hdi Hli].
  assert (get_or_zero debts i = owing) as Hdeq by (unfold owing, get_or_zero; by rewrite Hdi, Hli).
  set (lf := if (_ : bool) then owing else _).
  assert (owing - Z.min burnt owing ≤ lf ≤ owing) as Hlf.
  { assert (0 ≤ burnt).
    { conversions. apply div_floor_ok in Hburnt as (_ & -> & _).
      pose proof (reserve_at_wf inputs Hpool _ _ Hr) as Hwf. apply fdiv_nonneg; [apply Hwf|].
      assert (0 ≤ d_asset r owing) by (apply cdiv_nonneg; [done|]; pose proof (wf_d_rate _ Hwf); nia).
      assert (0 ≤ d_asset r owing * REPAY_ALLOWANCE_BPS / BPS)
        by (apply fdiv_nonneg; [done|]; unfold REPAY_ALLOWANCE_BPS; lia).
      assert (0 ≤ amount) by (unfold amount, allowance_of; lia). scalars. lia. }
    unfold lf. case_match; lia. }
  pose proof Hr as Hr'. apply reserve_at_ok in Hr'.
  split; simpl; try done.
  - intros a. rewrite get_insert, Hsp, <-(Hwal a). case_decide; subst; fold held; lia.
  - intros a. rewrite get_insert, Hsp. case_decide; subst; [right; lia|].
    destruct (Hheld a); [left|right]; lia.
  - intros a. rewrite zsum_snoc, Hsp, <-(Hspend a). simpl.
    destruct (decide (a = rs_asset r)), (decide (rs_asset r = a)); subst; try done; lia.
  - exists (put debts i (owing - Z.min burnt owing)). split.
    + rewrite try_fold_app, Hexec. cbn [rbind try_fold contract_request].
      rewrite (Hindexed _ _ Hr'). cbn [rbind ok_or]. rewrite Hr. cbn [rbind]. rewrite Hburnt.
      cbn [rbind liabilities set_liabilities]. by rewrite Hdeq.
    + intros j. specialize (Hdebts j). rewrite !get_put.
      destruct (decide (j ∈ l ++ [i])) as [Hj|Hj].
      * destruct (decide (j = i)) as [->|]; [lia|]. by rewrite decide_True in Hdebts by set_solver.
      * rewrite decide_False in Hdebts by set_solver. assert (j ≠ i) by set_solver.
        unfold put. destruct (0 <? _), (0 <? lf);
          by rewrite ?lookup_insert_ne, ?lookup_delete_ne by done.
  - intros j d r1 [Hj|Hj]%elem_of_app Hjd Hpd Hjr Hnone.
    + apply elem_of_app. left. eapply Hclear; try done.
      assert (j ≠ i) by set_solver. unfold put in Hnone.
      destruct (0 <? lf); by rewrite ?lookup_insert_ne, ?lookup_delete_ne in Hnone by done.
    + apply list_elem_of_singleton in Hj. subst j. assert (r1 = r) as -> by congruence.
      assert (owing = d) as <- by (unfold owing, get_or_zero; by rewrite Hli, Hjd).
      apply elem_of_app. right. apply list_elem_of_singleton. f_equal.
      unfold put in Hnone. destruct (Z.ltb_spec 0 lf); [by rewrite lookup_insert_eq in Hnone|].
      unfold lf in *. case_match; [lia|]. unfold amount in *. lia.
  - intros j. rewrite get_put. specialize (Hfalls j). case_decide; subst; [|done].
    fold owing in Hfalls. lia.
Qed.

Lemma repay_ok s : repay inputs = Ok s →
  repaying inputs (bt_keys (liabilities (ui_positions inputs))) s.
Proof.
  intros H. unfold repay in H.
  apply (try_fold_prefix (repay_one inputs) (repaying inputs)) in H; [done|apply repaying_start|].
  intros l1 i l2 x y Hl Hx Hstep.
  pose proof (bt_keys_NoDup (liabilities (ui_positions inputs))) as Hnd. rewrite Hl in Hnd.
  eapply repay_one_ok; [| |exact Hstep|exact Hx].
  - apply NoDup_app in Hnd as (_ & Hd & _). intros Hi. apply (Hd i Hi). left.
  - apply bt_keys_elem. rewrite Hl. set_solver.
Qed.
End repay.

(** ** The whole plan *)

Lemma set_liabilities_same (p : Positions) : set_liabilities (liabilities p) p = p.
Proof. by destruct p. Qed.

(** The names of the debts that are left, in reserve-index order. *)
Definition names_of (inputs : UnwindInputs) : list Z → list string → Prop :=
  Forall2 (λ i a, ∃ r, ui_reserves inputs !! i = Some r ∧ a = rs_asset r).

Lemma names_ok inputs l names :
  try_fold (λ names index, let? reserve := reserve_at inputs index in
              Ok (names ++ [rs_asset reserve])) [] l = Ok names → names_of inputs l names.
Proof.
  apply (try_fold_prefix _ (names_of inputs)); [constructor|].
  intros l1 i l2 x y _ Hx Hy. apply bind_ok in Hy as (r & Hr & Hy). injection Hy as <-.
  apply Forall2_app; [done|]. constructor; [|constructor]. exists r.
  split; [by apply reserve_at_ok|done].
Qed.

(** The two halves of a plan: step 1 and then a way down. *)
Lemma run_unwind_ok terms inputs plan p :
  wf_pool (ui_reserves inputs) (ui_prices inputs) → indexed inputs →
  positive_map (collateral (ui_positions inputs)) →
  nonneg_map (liabilities (ui_positions inputs)) →
  run_unwind terms inputs = Ok (plan, p) →
  ∃ s w, repaying inputs (bt_keys (liabilities (ui_positions inputs))) s ∧
    step_down terms inputs (mkWork (re_positions s) (re_actions s)) w ∧
    plan = mkUnwindPlan (wk_actions w) (re_spend s) (up_remaining_liabilities plan)
      (up_projected_health plan) ∧ p = wk_positions w ∧
    names_of inputs (bt_keys (liabilities p)) (up_remaining_liabilities plan) ∧
    if decide (liabilities p = ∅)
    then up_projected_health plan = None ∧
      ∃ primary, primary_index terms inputs = Ok primary ∧
        ∀ i, i ≠ primary → collateral p !! i = None
    else ∃ bounds data, bounds_of terms = Ok bounds ∧
      (collateral p = collateral (ui_positions inputs) ∨ accepts bounds data = Ok true) ∧
      project inputs p = Ok data ∧ health_factor data = Ok (up_projected_health plan).
Proof.
  intros Hpool Hidx Hcol Hliab H. unfold run_unwind in H.
  apply bind_ok in H as (s & Hs & H). apply repay_ok in Hs; [|done..].
  apply bind_ok in H as (names & Hnames & H). apply names_ok in Hnames.
  apply bind_ok in H as ([w health] & Hw & H). injection H as <- <-. exists s, w. split; [done|]. cbn [up_remaining_liabilities up_projected_health].
  assert (positive_map (collateral (wk_positions (mkWork (re_positions s) (re_actions s))))) as Hp
    by (simpl; by rewrite (rg_collateral _ _ _ Hs)).
  destruct (bool_decide_reflect (liabilities (re_positions s) = ∅)) as [He|Hne].
  - apply bind_ok in Hw as (w' & Hw & Heq). injection Heq as -> <-.
    apply withdraw_free_ok in Hw as [Hd Hgone]; [|done..].
    split; [done|]. split; [done|]. split; [done|].
    split; [by rewrite (sd_liabilities _ _ _ _ Hd)|].
    rewrite decide_True by (by rewrite (sd_liabilities _ _ _ _ Hd)). done.
  - unfold withdraw_within_floor in Hw. apply bind_ok in Hw as (bounds & Hb & Hw).
    apply bind_ok in Hw as (order & _ & Hw). apply bind_ok in Hw as (w' & Hw' & Hw).
    apply bind_ok in Hw as (data & Hdata & Hw). apply bind_ok in Hw as (hf & Hhf & Hw).
    injection Hw as <- <-. apply walk_ok in Hw' as [Hd Hor]; [|done..].
    split; [done|]. split; [done|]. split; [done|].
    split; [by rewrite (sd_liabilities _ _ _ _ Hd)|].
    rewrite decide_False by (by rewrite (sd_liabilities _ _ _ _ Hd)).
    exists bounds, data. split_and!; try done.
    destruct Hor as [->|(data' & Hdata' & Hacc)]; [left; apply (rg_collateral _ _ _ Hs)|right].
    congruence.
Qed.

(** ** Properties *)

(** What any plan promises about what it moves. *)
Record safe_unwind (terms : UnwindTerms) (inputs : UnwindInputs) (plan : UnwindPlan)
    (p : Positions) : Prop := mkSafeUnwind {
  su_spend : ∀ a, get_or_zero (up_spend plan) a = zsum (action_spend a) (up_actions plan) ∧
    get_or_zero (up_spend plan) a ≤ Z.max (get_or_zero (ui_wallet inputs) a) 0;
  su_exec : ∃ debts,
    try_fold (contract_request inputs) (ui_positions inputs) (up_actions plan)
      = Ok (set_liabilities debts p) ∧
    ∀ i, get_or_zero debts i ≤ get_or_zero (liabilities p) i;
  su_falls : ∀ i,
    get_or_zero (collateral p) i ≤ get_or_zero (collateral (ui_positions inputs)) i ∧
    get_or_zero (liabilities p) i ≤ get_or_zero (liabilities (ui_positions inputs)) i;
  su_floor : ∀ i r, ui_asset_index inputs !! ut_primary_asset terms = Some i →
    ui_reserves inputs !! i = Some r →
    Z.min (get_or_zero (collateral (ui_positions inputs)) i) (floor_b_tokens terms r)
      ≤ get_or_zero (collateral p) i;
}.

(** C21: an unwind only ever shrinks what it may. Its requests spend exactly
    [spend], never more of an asset than the wallet holds; the pool executes
    them, in order, to the collateral the plan projects and to debts no
    larger than it projects; no collateral and no debt grows; and the primary
    asset keeps at least the b-tokens its floor converts to, or all of what
    was there when that was less. *)
Theorem unwind_keeps_the_floor (terms : UnwindTerms) (inputs : UnwindInputs) (plan : UnwindPlan)
  (Hpool : wf_pool (ui_reserves inputs) (ui_prices inputs)) (Hindexed : indexed inputs)
  (Hcollateral : positive_map (collateral (ui_positions inputs)))
  (Hdebts : nonneg_map (liabilities (ui_positions inputs)))
  (Hok : plan_unwind terms inputs = Ok plan) :
  ∃ p, run_unwind terms inputs = Ok (plan, p) ∧ safe_unwind terms inputs plan p.
Proof.
  unfold plan_unwind in Hok. apply bind_ok in Hok as ([plan' p] & Hrun & Heq). injection Heq as ->.
  exists p. split; [done|].
  apply run_unwind_ok in Hrun as (s & w & Hs & Hw & Hplan & -> & _ & _); [|done..].
  rewrite Hplan. destruct Hs as [Hcol Hsup Hwal Hheld Hspend (debts & Hexec & Hle) _ Hfalls].
  destruct Hw as [Hl Hsu _ Hdown Hfloor (acts & Hacts & Hzero & Hex)]. simpl in *.
  split; cbn [up_spend up_actions].
  - intros a. rewrite Hacts, zsum_app, Hzero, <-Hspend. split; [lia|].
    specialize (Hwal a). destruct (Hheld a); lia.
  - exists debts. rewrite Hacts, try_fold_app, Hexec. cbn [rbind]. split.
    + specialize (Hex debts). rewrite <-Hex. f_equal. unfold set_liabilities. by rewrite Hcol, Hsup.
    + intros i. rewrite Hl. specialize (Hle i).
      destruct (decide (i ∈ _)); [done|]. destruct Hle as [Hd Hli].
      unfold get_or_zero. by rewrite Hd, Hli.
  - intros i. specialize (Hdown i). specialize (Hfalls i). rewrite Hcol in Hdown. rewrite Hl. done.
  - intros i r Hi Hr. specialize (Hfloor i r Hi Hr). by rewrite Hcol in Hfloor.
Qed.

Definition unwind_terms : UnwindTerms := mkUnwindTerms "USDC" 2000000 11000000 0.
Definition unwind_inputs : UnwindInputs :=
  mkUnwindInputs two_pool {[ "XLM" := 0; "USDC" := 1 ]} two_prices
    (mkPositions {[ 0 := 50000000; 1 := 10000000 ]} {[ 0 := 20000000 ]} ∅)
    {[ "XLM" := 30000000 ]}.
Definition capped_inputs : UnwindInputs :=
  mkUnwindInputs two_pool {[ "XLM" := 0; "USDC" := 1 ]} two_prices
    (mkPositions {[ 0 := 50000000; 1 := 10000000 ]} {[ 0 := 20000000; 1 := 9000000 ]} ∅)
    {[ "XLM" := 20031366 ]}.
Definition unwound (inputs : UnwindInputs) : UnwindPlan :=
  match plan_unwind unwind_terms inputs with
  | Ok plan => plan
  | Err _ => mkUnwindPlan [] ∅ [] None
  end.

Lemma positive_insert m i a : 0 < a → positive_map m → positive_map (<[i := a]> m).
Proof. intros Ha Hm j v. rewrite lookup_insert_Some. naive_solver. Qed.
Lemma positive_empty : positive_map ∅.
Proof. intros i a. by rewrite lookup_empty. Qed.

Ltac pool_entry :=
  repeat first [apply positive_insert | apply positive_empty | apply nonneg_map_insert
    | apply nonneg_map_empty]; lia.

Lemma two_pool_indexed positions wallet :
  indexed (mkUnwindInputs two_pool {[ "XLM" := 0; "USDC" := 1 ]} two_prices positions wallet).
Proof.
  intros i r. simpl. unfold two_pool. rewrite lookup_insert_Some.
  intros [[<- <-]|[_ [<- <-]%lookup_singleton_Some]]; vm_compute; reflexivity.
Qed.

Lemma unwind_keeps_the_floor_witness :
  plan_unwind unwind_terms unwind_inputs = Ok (unwound unwind_inputs) ∧
  up_actions (unwound unwind_inputs)
    = [Repay "XLM" 20033370; WithdrawAll "XLM"; Withdraw "USDC" 8000222] ∧
  ∃ p, safe_unwind unwind_terms unwind_inputs (unwound unwind_inputs) p.
Proof.
  assert (plan_unwind unwind_terms unwind_inputs = Ok (unwound unwind_inputs)) as Hok
    by (vm_compute; reflexivity).
  split; [exact Hok|]. split; [vm_compute; reflexivity|].
  destruct (unwind_keeps_the_floor unwind_terms unwind_inputs (unwound unwind_inputs))
    as (p & _ & Hp); [apply two_pool_wf|apply two_pool_indexed|pool_entry|pool_entry|exact Hok|].
  exists p. exact Hp.
Defined.

(** C22: while debts are left an unwind rests on the operator's margin. A
    plan that keeps a debt either withdraws nothing at all, or ends on a
    position whose health factor is not under the minimum plus
    [HEALTH_MARGIN_BPS] and whose effective collateral is at least
    [min_collateral]; either way the health it reports is that position's. A
    plan with no debt left reports none and leaves no collateral but the
    primary. [remaining_liabilities] names exactly the debts that are left. *)
Theorem unwind_rests_on_the_margin (terms : UnwindTerms) (inputs : UnwindInputs)
  (plan : UnwindPlan) (p : Positions)
  (Hpool : wf_pool (ui_reserves inputs) (ui_prices inputs)) (Hindexed : indexed inputs)
  (Hcollateral : positive_map (collateral (ui_positions inputs)))
  (Hdebts : nonneg_map (liabilities (ui_positions inputs)))
  (Hok : run_unwind terms inputs = Ok (plan, p))
  (data := position_value (ui_reserves inputs) (ui_prices inputs) p) :
  names_of inputs (bt_keys (liabilities p)) (up_remaining_liabilities plan) ∧
  (liabilities p = ∅ → up_projected_health plan = None ∧
     ∀ i, collateral p !! i ≠ None →
       ui_asset_index inputs !! ut_primary_asset terms = Some i) ∧
  (liabilities p ≠ ∅ → health_factor data = Ok (up_projected_health plan) ∧
     (collateral p = collateral (ui_positions inputs) ∨
      (is_hf_under data (cdiv (ut_min_health_factor terms * (BPS + HEALTH_MARGIN_BPS)) BPS)
         = Ok false ∧
       ut_min_collateral terms ≤ collateral_base data))).
Proof.
  apply run_unwind_ok in Hok as (s & w & _ & _ & _ & _ & Hnames & H); [|done..].
  split; [done|]. split.
  - intros He. rewrite decide_True in H by done. destruct H as (Hh & primary & Hp & Hgone).
    split; [done|]. intros i Hi. apply primary_index_ok in Hp.
    destruct (decide (i = primary)) as [->|Hne]; [done|]. by specialize (Hgone i Hne).
  - intros Hne. rewrite decide_False in H by done.
    destruct H as (bounds & data' & Hb & Hor & Hdata & Hh).
    apply calculate_position_data_ok in Hdata as (_ & _ & ->). fold data in Hor, Hh.
    split; [done|]. destruct Hor as [?|Hacc]; [by left|right].
    unfold bounds_of in Hb. apply bind_ok in Hb as (f & Hf & Hb).
    apply ok_or_ok, checked_add_some in Hf as [-> _]. apply bind_ok in Hb as (m & Hm & Hb).
    apply mul_ceil_ok in Hm as (_ & -> & _). injection Hb as <-.
    unfold accepts in Hacc. apply bind_ok in Hacc as (under & Hu & Hacc). simpl in *.
    injection Hacc as Hacc. destruct under; [done|]. split; [done|lia].
Qed.

Definition indebted_inputs : UnwindInputs :=
  mkUnwindInputs two_pool {[ "XLM" := 0; "USDC" := 1 ]} two_prices
    (mkPositions {[ 0 := 200000000; 1 := 10000000 ]} {[ 1 := 9000000 ]} ∅) ∅.
Definition indebted_run : UnwindPlan * Positions :=
  match run_unwind unwind_terms indebted_inputs with
  | Ok r => r
  | Err _ => (mkUnwindPlan [] ∅ [] None, empty_positions)
  end.

Lemma unwind_rests_on_the_margin_witness :
  run_unwind unwind_terms indebted_inputs = Ok indebted_run ∧
  up_actions indebted_run.1 = [Withdraw "XLM" 189011414] ∧
  health_factor (position_value two_pool two_prices indebted_run.2) = Ok (Some 11055000) ∧
  is_hf_under (position_value two_pool two_prices indebted_run.2) 11055000 = Ok false.
Proof.
  assert (run_unwind unwind_terms indebted_inputs = Ok (indebted_run.1, indebted_run.2)) as Hok
    by (vm_compute; reflexivity).
  split; [exact Hok|]. split; [vm_compute; reflexivity|].
  destruct (unwind_rests_on_the_margin unwind_terms indebted_inputs indebted_run.1 indebted_run.2)
    as (_ & _ & H); [apply two_pool_wf|apply two_pool_indexed|pool_entry|pool_entry|exact Hok|].
  destruct H as [Hh [Hsame|[Hu _]]].
  - intros He. apply (f_equal (λ m : gmap Z Z, m !! 1)) in He. vm_compute in He. discriminate.
  - exfalso. apply (f_equal (λ m : gmap Z Z, m !! 0)) in Hsame. vm_compute in Hsame. discriminate.
  - split.
    + etransitivity; [exact Hh|]. vm_compute. reflexivity.
    + exact Hu.
Defined.

(** A debt is only ever counted as cleared with its allowance. Whenever
    a plan no longer carries a debt the filler had, its requests include a
    repay of that asset for the whole debt, rounded up, plus one basis point
    of it and one unit — never the capped repay that interest could leave
    short. *)
Theorem cleared_debts_carry_the_allowance (terms : UnwindTerms) (inputs : UnwindInputs)
  (plan : UnwindPlan) (p : Positions)
  (Hpool : wf_pool (ui_reserves inputs) (ui_prices inputs)) (Hindexed : indexed inputs)
  (Hcollateral : positive_map (collateral (ui_positions inputs)))
  (Hdebts : nonneg_map (liabilities (ui_positions inputs)))
  (Hok : run_unwind terms inputs = Ok (plan, p)) :
  ∀ i d r, liabilities (ui_positions inputs) !! i = Some d → 0 < d →
    ui_reserves inputs !! i = Some r → liabilities p !! i = None →
    Repay (rs_asset r) (allowance_of r d) ∈ up_actions plan.
Proof.
  intros i d r Hi Hd Hr Hgone.
  apply run_unwind_ok in Hok as (s & w & Hs & Hw & Hplan & -> & _ & _); [|done..].
  rewrite Hplan. cbn [up_actions]. destruct (sd_exec _ _ _ _ Hw) as (acts & -> & _).
  rewrite (sd_liabilities _ _ _ _ Hw) in Hgone. apply elem_of_app. left.
  eapply (rg_cleared _ _ _ Hs); try done. apply bt_keys_elem. eauto.
Qed.

Definition unwound_run (inputs : UnwindInputs) : UnwindPlan * Positions :=
  match run_unwind unwind_terms inputs with
  | Ok r => r
  | Err _ => (mkUnwindPlan [] ∅ [] None, empty_positions)
  end.

(** The wallet of [capped_inputs] covers the debt but not its allowance: the
    plan repays it and still carries it. *)
Lemma cleared_debts_carry_the_allowance_witness :
  Repay "XLM" 20033370 ∈ up_actions (unwound_run unwind_inputs).1 ∧
  up_actions (unwound_run capped_inputs).1 = [Repay "XLM" 20031366] ∧
  liabilities (unwound_run capped_inputs).2 !! 0 = Some 20000000.
Proof.
  assert (run_unwind unwind_terms unwind_inputs
    = Ok ((unwound_run unwind_inputs).1, (unwound_run unwind_inputs).2)) as Hok
    by (vm_compute; reflexivity).
  split; [|split; vm_compute; reflexivity].
  pose proof (cleared_debts_carry_the_allowance unwind_terms unwind_inputs _ _
    two_pool_wf (two_pool_indexed _ _) ltac:(pool_entry) ltac:(pool_entry) Hok
    0 20000000 sample_reserve) as H.
  assert (allowance_of sample_reserve 20000000 = 20033370) as E by (vm_compute; reflexivity).
  rewrite E in H. apply H; vm_compute; reflexivity.
Defined.
