(* ===== verification/Inventory.v ===== *)
(** * The wallet inventory ([src/inventory.rs])

    Balances, the fee reserve and the reservation tokens plans hold. Every
    method locks the ledger for its whole body, so an execution of the program
    is a sequence of whole operations: a step relation over the ledger and the
    tokens that are alive. *)

From S2P Require Import Prelude.

(** ** Data *)

Record Ledger : Type := mkLedger {
  balances : gmap string Z;
  reserved : gmap string Z;
  read_at : option Z;
  fee_asset : string;
  fee_reserve : Z;
}.

Definition set_balances (m : gmap string Z) (l : Ledger) : Ledger :=
  mkLedger m (reserved l) (read_at l) (fee_asset l) (fee_reserve l).
Definition set_reserved (m : gmap string Z) (l : Ledger) : Ledger :=
  mkLedger (balances l) m (read_at l) (fee_asset l) (fee_reserve l).

Record Reservation : Type := mkReservation {
  amounts : gmap string Z;
  settled : bool;
}.

Inductive Settlement : Type :=
| Live (reservation : Reservation)
| DryRun.

Inductive InventoryError : Type :=
| InvalidAmount (asset : string) (amount : Z)
| Insufficient (asset : string) (needed available : Z).

(** ** Operations *)

(** [Ledger::available]. *)
Definition ledger_available (self : Ledger) (asset : string) : Z :=
  let withheld := if bool_decide (asset = fee_asset self) then fee_reserve self else 0 in
  Z.max (saturating_sub (saturating_sub (get_or_zero (balances self) asset)
    (get_or_zero (reserved self) asset)) withheld) 0.

Definition subtract (m : gmap string Z) (asset : string) (amount : Z) : gmap string Z :=
  match m !! asset with
  | Some value => <[asset := Z.max (saturating_sub value amount) 0]> m
  | None => m
  end.

(** [Inventory::new]. *)
Definition inventory_new (fee_asset : string) (fee_reserve : Z) : Ledger :=
  mkLedger ∅ ∅ None fee_asset fee_reserve.

Definition record_balances (m : gmap string Z) (at_ : Z) (self : Ledger) : Ledger :=
  mkLedger m (reserved self) (Some at_) (fee_asset self) (fee_reserve self).

(** Instants count from a fixed origin; a duration since a later instant
    saturates at zero. *)
Definition stale (self : Ledger) (now max_age : Z) : bool :=
  match read_at self with
  | None => true
  | Some read_at => max_age <? Z.max (now - read_at) 0
  end.

(** [Inventory::available]: every asset either map names. *)
Definition available (self : Ledger) : gmap string Z :=
  map_imap (λ asset _, Some (ledger_available self asset)) (balances self ∪ reserved self).

Definition check_claim (self : Ledger) (_ : ()) (entry : string * Z)
  : result InventoryError () :=
  let '(asset, needed) := entry in
  if needed <=? 0 then Err (InvalidAmount asset needed)
  else
    let available := ledger_available self asset in
    if available <? needed then Err (Insufficient asset needed available) else Ok ().

Definition hold (m : gmap string Z) (entry : string * Z) : gmap string Z :=
  <[entry.1 := saturating_add (get_or_zero m entry.1) entry.2]> m.

(** [Inventory::reserve]: every asset is checked before any is held. *)
Definition reserve (claims : gmap string Z) : stres Ledger InventoryError Reservation := λ self,
  match try_fold (check_claim self) () (bt_iter claims) with
  | Err e => (self, Err e)
  | Ok _ =>
      (set_reserved (foldl hold (reserved self) (bt_iter claims)) self,
       Ok (mkReservation claims false))
  end.

Definition give_back (self : Reservation) (ledger : Ledger) : Ledger :=
  set_reserved
    (foldl (λ m e, subtract m e.1 e.2) (reserved ledger) (bt_iter (amounts self))) ledger.

(** [Drop::drop]: what runs when a token goes out of scope. *)
Definition drop_token (self : Reservation) (ledger : Ledger) : Ledger :=
  if settled self then ledger else give_back self ledger.

(** [Reservation::consume] and [release] take the token by value: it is
    dropped, settled, when they return. *)
Definition consume (self : Reservation) (ledger : Ledger) : Ledger :=
  let self := mkReservation (amounts self) true in
  let ledger := foldl (λ l e,
    let l := set_reserved (subtract (reserved l) e.1 e.2) l in
    set_balances (subtract (balances l) e.1 e.2) l) ledger (bt_iter (amounts self)) in
  drop_token self ledger.

Definition release (self : Reservation) (ledger : Ledger) : Ledger :=
  let self := mkReservation (amounts self) true in
  drop_token self (give_back self ledger).

(** ** Executions

    The ledger and the tokens that are alive, by an identity of their own. *)

Record World : Type := mkWorld { w_ledger : Ledger; w_live : gmap positive Reservation }.

Inductive Event : Type :=
| Read (m : gmap string Z) (at_ : Z)
| Granted (id : positive) (claims : gmap string Z)
| Refused (claims : gmap string Z) (e : InventoryError)
| Consumed (id : positive)
| Released (id : positive)
| Dropped (id : positive).

Inductive inventory_step : World → Event → World → Prop :=
| step_read w m at_ :
    inventory_step w (Read m at_) (mkWorld (record_balances m at_ (w_ledger w)) (w_live w))
| step_granted w id claims l r :
    w_live w !! id = None → reserve claims (w_ledger w) = (l, Ok r) →
    inventory_step w (Granted id claims) (mkWorld l (<[id := r]> (w_live w)))
| step_refused w claims l e :
    reserve claims (w_ledger w) = (l, Err e) →
    inventory_step w (Refused claims e) (mkWorld l (w_live w))
| step_consumed w id r :
    w_live w !! id = Some r →
    inventory_step w (Consumed id) (mkWorld (consume r (w_ledger w)) (delete id (w_live w)))
| step_released w id r :
    w_live w !! id = Some r →
    inventory_step w (Released id) (mkWorld (release r (w_ledger w)) (delete id (w_live w)))
| step_dropped w id r :
    w_live w !! id = Some r →
    inventory_step w (Dropped id) (mkWorld (drop_token r (w_ledger w)) (delete id (w_live w))).

Inductive reachable (fee_asset : string) (fee_reserve : Z) : World → Prop :=
| reach_start : reachable fee_asset fee_reserve (mkWorld (inventory_new fee_asset fee_reserve) ∅)
| reach_step w e w' :
    reachable fee_asset fee_reserve w → inventory_step w e w' →
    (∀ m at_, e = Read m at_ → ∀ a v, m !! a = Some v → is_i128 v) →
    reachable fee_asset fee_reserve w'.

(** ** Lemmas: loops that touch each asset once *)

Lemma foldl_pointwise {K A B} `{Countable K, KeyOrder K} (f : gmap K A → K * B → gmap K A)
    (g : option A → B → option A) (m : gmap K A) (c : gmap K B) (a : K) :
  (∀ m k v, f m (k, v) !! k = g (m !! k) v) →
  (∀ m k v j, j ≠ k → f m (k, v) !! j = m !! j) →
  foldl f m (bt_iter c) !! a
  = match c !! a with Some v => g (m !! a) v | None => m !! a end.
Proof.
  intros Hat Hoff.
  assert (∀ l m, NoDup l.*1 →
    (∀ v, (a, v) ∈ l → foldl f m l !! a = g (m !! a) v) ∧
    (a ∉ l.*1 → foldl f m l !! a = m !! a)) as Hl.
  { clear m. induction l as [|[k w] l IH]; intros m Hnd; [set_solver|].
    simpl in Hnd. apply NoDup_cons in Hnd as [Hk Hnd]. simpl.
    destruct (IH (f m (k, w)) Hnd) as [Hin Hout]. split.
    - intros v [Heq|Hv]%elem_of_cons.
      + injection Heq as -> ->. rewrite Hout by done. apply Hat.
      + rewrite (Hin v Hv), Hoff; [done|]. intros ->. apply Hk, list_elem_of_fmap.
        by exists (k, v).
    - intros [Hne Hn]%not_elem_of_cons. rewrite Hout by done. by apply Hoff. }
  destruct (Hl (bt_iter c) m (bt_iter_NoDup_fst c)) as [Hin Hout].
  destruct (c !! a) as [v|] eqn:Hc; [by apply Hin, bt_iter_elem|].
  apply Hout. intros Hk. apply bt_keys_elem in Hk as [v Hv]. congruence.
Qed.

(** ** Lemmas: the claims and what settling them does *)

Lemma saturate_in z : is_i128 z → saturate_i128 z = z.
Proof. unfold saturate_i128. widths. lia. Qed.

Lemma subtract_at m a v :
  subtract m a v !! a = (λ value, Z.max (saturating_sub value v) 0) <$> m !! a.
Proof.
  unfold subtract. destruct (m !! a) eqn:Ha; simpl; [by rewrite lookup_insert_eq|done].
Qed.

Lemma subtract_off m a v j : j ≠ a → subtract m a v !! j = m !! j.
Proof. intros. unfold subtract. destruct (m !! a); [by rewrite lookup_insert_ne|done]. Qed.

Lemma get_hold m c a :
  is_i128 (get_or_zero m a + get_or_zero c a) →
  get_or_zero (foldl hold m (bt_iter c)) a = get_or_zero m a + get_or_zero c a.
Proof.
  intros Hi. unfold get_or_zero at 1.
  rewrite (foldl_pointwise hold (λ o v, Some (saturating_add (default 0 o) v))).
  - unfold get_or_zero in *. destruct (c !! a) as [v|] eqn:Hc; simpl in *; [|lia].
    unfold saturating_add. by rewrite saturate_in.
  - intros m' k v. unfold hold. simpl. by rewrite lookup_insert_eq.
  - intros m' k v j Hj. unfold hold. simpl. by rewrite lookup_insert_ne.
Qed.

Definition subtracted (m c : gmap string Z) : gmap string Z :=
  foldl (λ m e, subtract m e.1 e.2) m (bt_iter c).

Lemma get_subtracted m c a :
  is_i128 (get_or_zero m a) → 0 ≤ get_or_zero m a → 0 ≤ get_or_zero c a ≤ i128_max →
  get_or_zero (subtracted m c) a = Z.max (get_or_zero m a - get_or_zero c a) 0.
Proof.
  intros Hi Hm Hc. unfold get_or_zero at 1, subtracted.
  rewrite (foldl_pointwise _ (λ o v, (λ value, Z.max (saturating_sub value v) 0) <$> o)).
  - unfold get_or_zero in *. destruct (c !! a) as [v|]; destruct (m !! a) as [x|]; simpl in *; try lia.
    unfold saturating_sub. rewrite saturate_in by (widths; lia). done.
  - intros m' k v. apply subtract_at.
  - intros m' k v j Hj. by apply subtract_off.
Qed.

Lemma lookup_subtracted m c a :
  subtracted m c !! a
  = match c !! a with
    | Some v => (λ value, Z.max (saturating_sub value v) 0) <$> m !! a
    | None => m !! a
    end.
Proof.
  apply (foldl_pointwise _ (λ o v, (λ value, Z.max (saturating_sub value v) 0) <$> o)).
  - intros m' k v. apply subtract_at.
  - intros m' k v j Hj. by apply subtract_off.
Qed.

(** [consume] debits both maps, and its token's drop does nothing more. *)
Lemma consume_eq r l :
  consume r l = mkLedger (subtracted (balances l) (amounts r)) (subtracted (reserved l) (amounts r))
    (read_at l) (fee_asset l) (fee_reserve l).
Proof.
  unfold consume, drop_token, subtracted. simpl. destruct l as [b rs t fa fr]. simpl.
  generalize (bt_iter (amounts r)). intros es. revert b rs.
  induction es as [|[k v] es IH]; intros b rs; simpl; [done|]. apply IH.
Qed.

Lemma release_eq r l :
  release r l = set_reserved (subtracted (reserved l) (amounts r)) l ∧
  (settled r = false → drop_token r l = release r l).
Proof. split; [done|]. intros H. unfold drop_token. by rewrite H. Qed.

Definition withheld (l : Ledger) (a : string) : Z :=
  if decide (a = fee_asset l) then fee_reserve l else 0.

Lemma ledger_available_eq l a :
  is_i128 (get_or_zero (balances l) a) → 0 ≤ get_or_zero (reserved l) a → is_u64 (fee_reserve l) →
  ledger_available l a
  = Z.max (get_or_zero (balances l) a - get_or_zero (reserved l) a - withheld l a) 0.
Proof.
  intros Hb Hr Hf. unfold ledger_available, withheld, saturating_sub, saturate_i128.
  rewrite <-decide_bool_decide. widths. destruct (decide _); lia.
Qed.

Lemma check_claims_ok l c :
  try_fold (check_claim l) () (bt_iter c) = Ok () ↔
  ∀ a v, c !! a = Some v → 0 < v ≤ ledger_available l a.
Proof.
  assert (∀ es, try_fold (check_claim l) () es = Ok () ↔
    ∀ e, e ∈ es → 0 < e.2 ≤ ledger_available l e.1) as Hes.
  { induction es as [|[a v] es IH]; simpl; [set_solver|]. rewrite bind_ok.
    split.
    - intros ([] & Hc & H). pose proof (proj1 IH H) as Hrest. unfold check_claim in Hc.
      destruct (Z.leb_spec v 0); [done|]. destruct (Z.ltb_spec (ledger_available l a) v); [done|].
      intros e [->|He]%elem_of_cons; [simpl; lia|by apply Hrest].
    - intros H. exists (). split; [|apply (proj2 IH); set_solver].
      pose proof (H (a, v) ltac:(set_solver)). simpl in *. unfold check_claim.
      destruct (Z.leb_spec v 0); [lia|]. by destruct (Z.ltb_spec (ledger_available l a) v); [lia|]. }
  rewrite Hes. split.
  - intros H a v Ha. apply (H (a, v)). by apply bt_iter_elem.
  - intros H [a v] He. apply H. by apply bt_iter_elem.
Qed.

(** A refusal names the first asset that cannot be claimed. *)
Lemma check_claims_err l c e :
  try_fold (check_claim l) () (bt_iter c) = Err e →
  ∃ a v es1 es2, bt_iter c = es1 ++ (a, v) :: es2 ∧ c !! a = Some v ∧
    (∀ b w, (b, w) ∈ es1 → 0 < w ≤ ledger_available l b) ∧
    ((v ≤ 0 ∧ e = InvalidAmount a v) ∨
     (0 < v ∧ ledger_available l a < v ∧ e = Insufficient a v (ledger_available l a))).
Proof.
  assert (∀ es, try_fold (check_claim l) () es = Err e → ∃ a v es1 es2,
    es = es1 ++ (a, v) :: es2 ∧ (∀ b w, (b, w) ∈ es1 → 0 < w ≤ ledger_available l b) ∧
    ((v ≤ 0 ∧ e = InvalidAmount a v) ∨
     (0 < v ∧ ledger_available l a < v ∧ e = Insufficient a v (ledger_available l a)))) as Hes.
  { induction es as [|[a v] es IH]; simpl; [done|]. unfold check_claim at 1.
    destruct (Z.leb_spec v 0); simpl.
    { intros [= <-]. exists a, v, [], es. split; [done|]. split; [set_solver|]. auto. }
    destruct (Z.ltb_spec (ledger_available l a) v); simpl.
    { intros [= <-]. exists a, v, [], es. split; [done|]. split; [set_solver|]. auto. }
    intros H'. destruct (IH H') as (a' & v' & es1 & es2 & -> & Hb & Hor).
    exists a', v', ((a, v) :: es1), es2. split; [done|]. split; [|done].
    intros b w [Heq|Hin]%elem_of_cons; [injection Heq as -> ->; lia|by apply Hb]. }
  intros H. destruct (Hes _ H) as (a & v & es1 & es2 & Hc & Hb & Hor).
  exists a, v, es1, es2. split_and!; try done. apply bt_iter_elem. rewrite Hc. set_solver.
Qed.

(** ** The invariant of every execution *)

(** What the tokens that are alive claim of an asset. *)
Definition held (live : gmap positive Reservation) (a : string) : Z :=
  zsum (λ p : positive * Reservation, get_or_zero (amounts p.2) a) (map_to_list live).

Lemma held_insert live id r a :
  live !! id = None → held (<[id := r]> live) a = get_or_zero (amounts r) a + held live a.
Proof. intros H. unfold held. by rewrite map_to_list_insert. Qed.

Lemma held_delete live id r a :
  live !! id = Some r → held (delete id live) a = held live a - get_or_zero (amounts r) a.
Proof.
  intros H. rewrite <-(insert_delete_id live id r) at 2 by done.
  rewrite held_insert by apply lookup_delete_eq. lia.
Qed.

Definition positive_claims (m : gmap string Z) : Prop := ∀ a v, m !! a = Some v → 0 < v.

Lemma positive_claims_get m a : positive_claims m → 0 ≤ get_or_zero m a.
Proof. intros H. unfold get_or_zero. destruct (m !! a) eqn:E; simpl; [specialize (H _ _ E)|]; lia. Qed.

Lemma held_nonneg live a :
  (∀ id r, live !! id = Some r → positive_claims (amounts r)) → 0 ≤ held live a.
Proof.
  intros H. apply zsum_nonneg. intros [id r] Hin. apply elem_of_map_to_list in Hin.
  simpl. by eapply positive_claims_get, H.
Qed.

Lemma held_ge live id r a :
  (∀ id r, live !! id = Some r → positive_claims (amounts r)) → live !! id = Some r →
  0 ≤ get_or_zero (amounts r) a ≤ held live a.
Proof.
  intros H Hid. pose proof (held_delete live id r a Hid).
  assert (0 ≤ held (delete id live) a).
  { apply held_nonneg. intros i r'. rewrite lookup_delete_Some. naive_solver. }
  pose proof (positive_claims_get (amounts r) a (H _ _ Hid)). lia.
Qed.

Record inventory_inv (fee_asset' : string) (fee_reserve' : Z) (w : World) : Prop := mkInv {
  inv_fee : fee_asset (w_ledger w) = fee_asset' ∧ fee_reserve (w_ledger w) = fee_reserve';
  inv_live : ∀ id r, w_live w !! id = Some r → settled r = false ∧ positive_claims (amounts r);
  inv_reserved : ∀ a, get_or_zero (reserved (w_ledger w)) a = held (w_live w) a;
  inv_width : ∀ a, held (w_live w) a ≤ i128_max;
  inv_balances : ∀ a v, balances (w_ledger w) !! a = Some v → is_i128 v;
}.

Lemma balance_width (m : gmap string Z) a :
  (∀ a v, m !! a = Some v → is_i128 v) → is_i128 (get_or_zero m a).
Proof. intros H. unfold get_or_zero. destruct (m !! a) eqn:E; simpl; [eauto|widths; lia]. Qed.

Lemma subtracted_width m c a v :
  (∀ a v, m !! a = Some v → is_i128 v) → subtracted m c !! a = Some v → is_i128 v.
Proof.
  intros Hm. rewrite lookup_subtracted. destruct (m !! a) as [x|] eqn:Hx, (c !! a) as [y|];
    simpl; try done; intros [= <-]; [|by eapply Hm].
  unfold saturating_sub, saturate_i128. widths. lia.
Qed.

(** Settling a token takes exactly its claim off what is reserved. *)
Lemma settle_reserved fa fr w id r a :
  inventory_inv fa fr w → w_live w !! id = Some r →
  get_or_zero (subtracted (reserved (w_ledger w)) (amounts r)) a = held (delete id (w_live w)) a.
Proof.
  intros [_ Hlive Hres Hwidth _] Hid.
  assert (∀ id r, w_live w !! id = Some r → positive_claims (amounts r)) as Hpos by apply Hlive.
  pose proof (held_ge _ _ _ a Hpos Hid). specialize (Hwidth a).
  rewrite get_subtracted; rewrite ?Hres; [|widths; lia|lia|lia].
  rewrite (held_delete _ _ _ a Hid). lia.
Qed.

Lemma settled_inv fa fr w id l' r :
  inventory_inv fa fr w → w_live w !! id = Some r →
  reserved l' = subtracted (reserved (w_ledger w)) (amounts r) →
  fee_asset l' = fee_asset (w_ledger w) → fee_reserve l' = fee_reserve (w_ledger w) →
  (∀ a v, balances l' !! a = Some v → is_i128 v) →
  inventory_inv fa fr (mkWorld l' (delete id (w_live w))).
Proof.
  intros Hinv Hid Hr Hfa Hfr Hb. pose proof Hinv as [[Ha Hf] Hlive Hres Hwidth _].
  split; simpl.
  - by rewrite Hfa, Hfr.
  - intros i r'. rewrite lookup_delete_Some. naive_solver.
  - intros a. rewrite Hr. by eapply settle_reserved.
  - intros a. rewrite (held_delete _ _ _ a Hid).
    assert (∀ id r, w_live w !! id = Some r → positive_claims (amounts r)) as Hpos by apply Hlive.
    pose proof (held_ge _ _ _ a Hpos Hid). specialize (Hwidth a). lia.
  - done.
Qed.

(** What a grant establishes. *)
Lemma reserve_ok claims l l' r :
  reserve claims l = (l', Ok r) →
  r = mkReservation claims false ∧ (∀ a v, claims !! a = Some v → 0 < v ≤ ledger_available l a) ∧
  l' = set_reserved (foldl hold (reserved l) (bt_iter claims)) l.
Proof.
  unfold reserve. destruct (try_fold (check_claim l) () (bt_iter claims)) as [[]|e] eqn:Hc; [|done].
  intros [= <- <-]. split_and!; [done| |done]. by apply check_claims_ok.
Qed.

Lemma granted_inv fa fr w id claims l r :
  is_u64 fr → inventory_inv fa fr w → w_live w !! id = None →
  reserve claims (w_ledger w) = (l, Ok r) → inventory_inv fa fr (mkWorld l (<[id := r]> (w_live w))).
Proof.
  intros Hu [[Ha Hf] Hlive Hres Hwidth Hb] Hid H.
  apply reserve_ok in H as (-> & Hc & ->).
  assert (positive_claims claims) as Hpos by (intros a v Hv; specialize (Hc a v Hv); lia).
  assert (∀ a, 0 ≤ held (w_live w) a) as Hh by (intros a; apply held_nonneg; apply Hlive).
  assert (∀ a, get_or_zero claims a + held (w_live w) a ≤ i128_max) as Hsum.
  { intros a. specialize (Hh a). specialize (Hwidth a). unfold get_or_zero.
    destruct (claims !! a) as [v|] eqn:Hv; simpl; [|lia]. specialize (Hc a v Hv).
    pose proof (balance_width _ a Hb).
    rewrite ledger_available_eq in Hc by (rewrite ?Hres, ?Hf; done || lia).
    rewrite Hres in Hc. unfold withheld in Hc. destruct (decide _); widths; lia. }
  split; simpl.
  - done.
  - intros i r'. rewrite lookup_insert_Some. intros [[<- <-]|[_ Hi]]; [done|by eapply Hlive].
  - intros a. rewrite held_insert by done. simpl. rewrite get_hold; rewrite Hres; [lia|].
    specialize (Hsum a). specialize (Hh a). pose proof (positive_claims_get claims a Hpos).
    widths. lia.
  - intros a. rewrite held_insert by done. simpl. apply Hsum.
  - done.
Qed.

Lemma refused_same claims l l' e : reserve claims l = (l', Err e) → l' = l.
Proof. unfold reserve. by case_match; intros [= <-]. Qed.

Lemma reachable_inv fa fr w : is_u64 fr → reachable fa fr w → inventory_inv fa fr w.
Proof.
  intros Hu H. induction H as [|w e w' _ IH Hstep Hread].
  - split; simpl; [done|intros; by rewrite lookup_empty in *|..].
    + intros a. unfold get_or_zero, held. by rewrite lookup_empty, map_to_list_empty.
    + intros a. unfold held. rewrite map_to_list_empty. done.
    + intros a v. by rewrite lookup_empty.
  - destruct Hstep as [w m at_|w id claims l r Hid Hr|w claims l e Hr|w id r Hid|w id r Hid|w id r Hid].
    + destruct IH as [Hfee Hlive Hres Hwidth Hb]. split; simpl; try done. by apply (Hread m at_).
    + by eapply granted_inv.
    + apply refused_same in Hr as ->. by destruct IH.
    + eapply settled_inv; try done; rewrite consume_eq; simpl; try done.
      intros a v. apply subtracted_width. apply IH.
    + eapply settled_inv; try done. apply IH.
    + assert (settled r = false) as Hs by by eapply IH.
      rewrite (proj2 (release_eq r _) Hs). eapply settled_inv; try done. apply IH.
Qed.

(** ** Properties *)

(** What an event does to an asset's balance and to what is held of it. A read
    replaces the balance and no claim; a grant holds what it claims, and only
    what the balance covers beside every other claim and the fee reserve; a
    token settled once takes its own claim off what is held, and off the balance
    — not below zero — when it was consumed. *)
Definition moves (w : World) (e : Event) (w' : World) (a : string) : Prop :=
  let balance u := get_or_zero (balances (w_ledger u)) a in
  let claims u := held (w_live u) a in
  match e with
  | Read m _ => balance w' = get_or_zero m a ∧ claims w' = claims w
  | Granted id c =>
      balance w' = balance w ∧ claims w' = claims w + get_or_zero c a ∧
      ∀ v, c !! a = Some v → 0 < v ∧ claims w' + withheld (w_ledger w) a ≤ balance w'
  | Refused _ _ => balance w' = balance w ∧ claims w' = claims w
  | Consumed id =>
      ∃ r, w_live w !! id = Some r ∧ w_live w' !! id = None ∧
        claims w' = claims w - get_or_zero (amounts r) a ∧
        balance w' = match amounts r !! a with
                     | Some v => Z.max (balance w - v) 0
                     | None => balance w
                     end
  | Released id | Dropped id =>
      ∃ r, w_live w !! id = Some r ∧ w_live w' !! id = None ∧
        claims w' = claims w - get_or_zero (amounts r) a ∧ balance w' = balance w
  end.

Lemma consumed_balance l r a :
  (∀ b v, balances l !! b = Some v → is_i128 v) → positive_claims (amounts r) →
  get_or_zero (balances (consume r l)) a =
  match amounts r !! a with
  | Some v => Z.max (get_or_zero (balances l) a - v) 0
  | None => get_or_zero (balances l) a
  end.
Proof.
  intros Hb Hp. rewrite consume_eq. simpl. unfold get_or_zero. rewrite lookup_subtracted.
  destruct (amounts r !! a) as [v|] eqn:Hv; [|done]. specialize (Hp _ _ Hv).
  destruct (balances l !! a) as [x|] eqn:Hx; simpl; [|lia]. specialize (Hb _ _ Hx).
  unfold saturating_sub, saturate_i128. widths. lia.
Qed.

Lemma inventory_step_moves fa fr w e w' a :
  is_u64 fr → inventory_inv fa fr w → inventory_step w e w' → moves w e w' a.
Proof.
  intros Hu Hinv Hstep. pose proof Hinv as [[Ha Hf] Hlive Hres Hwidth Hb].
  destruct Hstep as [w m at_|w id claims l r Hid Hr|w claims l e Hr|w id r Hid|w id r Hid|w id r Hid];
    simpl in *.
  - done.
  - apply reserve_ok in Hr as (-> & Hc & ->). simpl. rewrite held_insert by done. simpl.
    split; [done|]. split; [lia|]. intros v Hv. specialize (Hc _ _ Hv).
    rewrite ledger_available_eq, Hres in Hc;
      [|by apply balance_width|rewrite Hres; apply held_nonneg; apply Hlive|by rewrite Hf].
    unfold get_or_zero at 1. rewrite Hv. simpl. lia.
  - by apply refused_same in Hr as ->.
  - exists r. rewrite lookup_delete_eq, (held_delete _ _ _ a Hid), consumed_balance; try done.
    by eapply Hlive.
  - exists r. by rewrite lookup_delete_eq, (held_delete _ _ _ a Hid).
  - exists r. rewrite lookup_delete_eq, (held_delete _ _ _ a Hid).
    unfold drop_token. by destruct (settled r).
Qed.

(** C29: the ledger accounts for every live claim and nothing else. In every
    execution, whatever was read, granted, refused, consumed, released or
    dropped, what is reserved of an asset is exactly the sum of the tokens
    that are alive, no saturation ever bites, and what is available is the
    balance less those claims and the fee reserve, never below zero. So a
    balance read or spent below what is held leaves nothing available, and no
    claim is taken back for it; and each event moves the balance and the claims
    by what it stands for, a grant never holding more than the balance covers. *)
Theorem inventory_accounts_exactly (fa : string) (fr : Z) (w : World)
  (Hfr : is_u64 fr) (Hreach : reachable fa fr w) (a : string) :
  get_or_zero (reserved (w_ledger w)) a = held (w_live w) a ∧
  0 ≤ held (w_live w) a ≤ i128_max ∧
  ledger_available (w_ledger w) a
    = Z.max (get_or_zero (balances (w_ledger w)) a - held (w_live w) a
               - (if decide (a = fa) then fr else 0)) 0 ∧
  ∀ e w', inventory_step w e w' → moves w e w' a.
Proof.
  apply reachable_inv in Hreach as Hinv; [|done].
  pose proof Hinv as [[<- <-] Hlive Hres Hwidth Hb].
  assert (0 ≤ held (w_live w) a) by (apply held_nonneg; apply Hlive).
  split_and!; [apply Hres|done|apply Hwidth| |].
  - rewrite ledger_available_eq; rewrite ?Hres; [done| |done|done]. by apply balance_width.
  - intros e w'. by eapply inventory_step_moves.
Qed.

Definition sample_world : World :=
  mkWorld (mkLedger {[ "XLM" := 900; "USDC" := 50 ]} {[ "XLM" := 300 ]} (Some 7) "XLM" 100)
    {[ 1%positive := mkReservation {[ "XLM" := 300 ]} false ]}.

Lemma sample_world_reachable : reachable "XLM" 100 sample_world.
Proof.
  set (w1 := mkWorld (record_balances {[ "XLM" := 900; "USDC" := 50 ]} 7
    (inventory_new "XLM" 100)) ∅).
  apply (reach_step _ _ w1 (Granted 1 {[ "XLM" := 300 ]})).
  - apply (reach_step _ _ (mkWorld (inventory_new "XLM" 100) ∅)
      (Read {[ "XLM" := 900; "USDC" := 50 ]} 7)); [constructor|constructor|].
    intros m at_ [= <- <-] a v Hv. apply is_i128_small.
    apply lookup_insert_Some in Hv as [[_ <-]|[_ [_ <-]%lookup_singleton_Some]];
      unfold u64_max; lia.
  - assert (w_live w1 !! 1%positive = None) as Hfree by done.
    pose proof (step_granted w1 1%positive {[ "XLM" := 300 ]} (w_ledger sample_world)
      (mkReservation {[ "XLM" := 300 ]} false) Hfree) as Hstep.
    replace (mkWorld (w_ledger sample_world) _) with sample_world in Hstep by done.
    apply Hstep. vm_compute. reflexivity.
  - done.
Qed.

Lemma inventory_accounts_exactly_witness :
  ledger_available (w_ledger sample_world) "XLM" = 500 ∧
  held (w_live sample_world) "XLM" = 300.
Proof.
  destruct (inventory_accounts_exactly "XLM" 100 sample_world ltac:(widths; lia)
    sample_world_reachable "XLM") as (Hr & _ & Ha & _).
  rewrite <-Hr in Ha |- *. split; [|vm_compute; reflexivity].
  etransitivity; [exact Ha|]. vm_compute. reflexivity.
Defined.

(** A reservation is granted exactly when every claim is positive and no
    larger than what is free, so two plans can never both hold the same
    balance; a grant takes each claim off what is free and touches no
    balance; a refusal changes nothing and names the first asset, in key
    order, whose claim is not positive or too large, with what was free. *)
Theorem reserve_grants_what_is_free (fa : string) (fr : Z) (w : World) (claims : gmap string Z)
  (Hfr : is_u64 fr) (Hreach : reachable fa fr w) :
  match reserve claims (w_ledger w) with
  | (l, Ok r) =>
      amounts r = claims ∧ settled r = false ∧ balances l = balances (w_ledger w) ∧
      (∀ a v, claims !! a = Some v → 0 < v ≤ ledger_available (w_ledger w) a) ∧
      ∀ a, ledger_available l a = ledger_available (w_ledger w) a - get_or_zero claims a
  | (l, Err e) => l = w_ledger w ∧
      ∃ a v es1 es2, bt_iter claims = es1 ++ (a, v) :: es2 ∧
        (∀ b x, (b, x) ∈ es1 → 0 < x ≤ ledger_available (w_ledger w) b) ∧
        ((v ≤ 0 ∧ e = InvalidAmount a v) ∨
         (0 < v ∧ ledger_available (w_ledger w) a < v ∧
          e = Insufficient a v (ledger_available (w_ledger w) a)))
  end.
Proof.
  pose proof (reachable_inv _ _ _ Hfr Hreach) as Hinv.
  destruct (reserve claims (w_ledger w)) as [l [r|e]] eqn:H.
  - set (id := fresh (dom (w_live w))).
    assert (w_live w !! id = None) as Hid by (apply not_elem_of_dom, is_fresh).
    pose proof (granted_inv _ _ _ id _ _ _ Hfr Hinv Hid H) as Hinv'.
    apply reserve_ok in H as (-> & Hc & ->). split_and!; try done. intros a.
    assert (0 ≤ get_or_zero claims a) as Hnn
      by (apply positive_claims_get; intros b v Hb; specialize (Hc b v Hb); lia).
    destruct Hinv as [[Hfa Hf] Hlive Hres Hwidth Hb], Hinv' as [_ _ Hres' _ _]. simpl in Hres'.
    assert (0 ≤ held (w_live w) a) by (apply held_nonneg; apply Hlive).
    assert (0 ≤ held (<[id:=mkReservation claims false]> (w_live w)) a) by
      (rewrite held_insert by done; simpl; lia).
    rewrite !ledger_available_eq; simpl; rewrite ?Hres, ?Hres', ?Hf; try done;
      try by apply balance_width.
    rewrite held_insert by done. simpl. unfold withheld. simpl.
    assert (get_or_zero claims a = default 0 (claims !! a)) as Hg by done.
    destruct (claims !! a) as [v|] eqn:Hv; simpl in Hg;
      rewrite !Hg; [|case_match; lia].
    specialize (Hc a v Hv). rewrite ledger_available_eq in Hc; rewrite ?Hres, ?Hf; try done;
      try by apply balance_width.
    rewrite Hres in Hc. unfold withheld in Hc. rewrite ?Hf in Hc. lia.
  - unfold reserve in H. destruct (try_fold _ _ _) as [[]|e'] eqn:Hc; [done|].
    injection H as <- <-. split; [done|].
    apply check_claims_err in Hc as (a & v & es1 & es2 & Hes & _ & Hb & Hor).
    exists a, v, es1, es2. done.
Qed.

Lemma reserve_grants_what_is_free_witness :
  ledger_available (reserve {[ "XLM" := 500 ]} (w_ledger sample_world)).1 "XLM" = 0 ∧
  (reserve {[ "XLM" := 501 ]} (w_ledger sample_world)).2 = Err (Insufficient "XLM" 501 500).
Proof.
  split; [|vm_compute; reflexivity].
  pose proof (reserve_grants_what_is_free "XLM" 100 sample_world {[ "XLM" := 500 ]}
    ltac:(widths; lia) sample_world_reachable) as H.
  destruct (reserve {[ "XLM" := 500 ]} (w_ledger sample_world)) as [l [r|e]] eqn:E.
  - destruct H as (_ & _ & _ & _ & Ha). simpl. etransitivity; [apply Ha|]. vm_compute. reflexivity.
  - vm_compute in E. discriminate.
Defined.

(** Every token settles exactly once. Dropping an unsettled token is
    releasing it; either puts its claim, no more and no less, back into what
    is free; consuming it takes the claim off both the reservations and the
    balance, so that where the balance covers the claim what is free to
    others does not move; and the drop that follows a settlement does
    nothing. *)
Theorem tokens_settle_once (fa : string) (fr : Z) (w : World) (id : positive) (r : Reservation)
  (Hfr : is_u64 fr) (Hreach : reachable fa fr w) (Hid : w_live w !! id = Some r) (a : string) :
  drop_token r (w_ledger w) = release r (w_ledger w) ∧
  get_or_zero (reserved (release r (w_ledger w))) a
    = held (w_live w) a - get_or_zero (amounts r) a ∧
  balances (release r (w_ledger w)) = balances (w_ledger w) ∧
  get_or_zero (reserved (consume r (w_ledger w))) a
    = held (w_live w) a - get_or_zero (amounts r) a ∧
  (get_or_zero (amounts r) a ≤ get_or_zero (balances (w_ledger w)) a →
   get_or_zero (balances (consume r (w_ledger w))) a
     = get_or_zero (balances (w_ledger w)) a - get_or_zero (amounts r) a ∧
   ledger_available (consume r (w_ledger w)) a = ledger_available (w_ledger w) a).
Proof.
  pose proof (reachable_inv _ _ _ Hfr Hreach) as Hinv.
  pose proof (settle_reserved _ _ _ _ _ a Hinv Hid) as Hset.
  rewrite (held_delete _ _ _ a Hid) in Hset.
  destruct Hinv as [[Hfa Hf] Hlive Hres Hwidth Hb].
  assert (∀ id r, w_live w !! id = Some r → positive_claims (amounts r)) as Hpos by apply Hlive.
  pose proof (held_ge _ _ _ a Hpos Hid) as Hge. specialize (Hwidth a).
  split_and!; [apply (proj2 (release_eq r _)); by eapply Hlive|exact Hset|done| |].
  { rewrite consume_eq. exact Hset. }
  intros Hle. pose proof (balance_width _ a Hb) as Hba.
  assert (get_or_zero (balances (consume r (w_ledger w))) a
    = get_or_zero (balances (w_ledger w)) a - get_or_zero (amounts r) a) as Hbal.
  { rewrite consume_eq. simpl. rewrite get_subtracted; [lia|done|lia|lia]. }
  split; [done|]. rewrite consume_eq in *. simpl in Hbal.
  rewrite !ledger_available_eq; simpl; rewrite ?Hset, ?Hres, ?Hbal, ?Hf; try done; try lia;
    unfold withheld in *; simpl; rewrite ?Hf; first [lia | widths; lia].
Qed.

Definition sample_token : Reservation := mkReservation {[ "XLM" := 300 ]} false.

Lemma tokens_settle_once_witness :
  get_or_zero (reserved (release sample_token
    (w_ledger sample_world))) "XLM" = 0 ∧
  get_or_zero (balances (consume sample_token
    (w_ledger sample_world))) "XLM" = 600.
Proof.
  destruct (tokens_settle_once "XLM" 100 sample_world 1 sample_token
    ltac:(widths; lia) sample_world_reachable ltac:(vm_compute; reflexivity) "XLM")
    as (_ & Hr & _ & _ & Hc).
  split; [etransitivity; [exact Hr|]; vm_compute; reflexivity|].
  destruct Hc as [Hb _]; [vm_compute; discriminate|].
  etransitivity; [exact Hb|]. vm_compute. reflexivity.
Defined.
