(* ===== verification/Io.v ===== *)
(** * Effectful code

    The async functions of the program talk to the network, the clock and each
    other. They are interaction trees over the calls they make, and what such a
    function does is the set of its traces: every finite run, finished or still
    going, whatever the environment answers. *)

From S2P Require Import Prelude.
From ITree Require Export ITree Interp.Interp.

Open Scope Z_scope.

Abbreviation io E A := (itree E A).
Notation "'await' x := m 'in' k" := (ITree.bind m (fun x => k))
  (at level 10, x pattern, m at level 200, k at level 200,
   format "'[v' 'await'  x  :=  m  'in' '/' k ']'") : rust_scope.

Definition perform {E : Type → Type} {A : Type} (e : E A) : io E A := ITree.trigger e.

(** The [?] operator in an async function. *)
Definition try_await {E : Type → Type} {F A B : Type} (m : io E (result F A))
    (k : A → io E (result F B)) : io E (result F B) :=
  await r := m in match r with Ok a => k a | Err e => Ret (Err e) end.
Notation "'await?' x := m 'in' k" := (try_await m (fun x => k))
  (at level 10, x pattern, m at level 200, k at level 200,
   format "'[v' 'await?'  x  :=  m  'in' '/' k ']'") : rust_scope.

(** ** Traces

    [log] is what a trace records of a call and its answer. [runs n t tr o]
    says that [t] has a run of at most [n] steps that records [tr], finished
    with [Some r] or still going with [None]. *)

Section traces.
Context {E : Type → Type} {Obs : Type} (log : ∀ X : Type, E X → X → Obs).

Fixpoint runs {R : Type} (n : nat) (t : itree E R) (tr : list Obs) (o : option R) : Prop :=
  (tr = [] ∧ o = None) ∨
  match n with
  | O => False
  | S n =>
      match observe t with
      | RetF r => tr = [] ∧ o = Some r
      | TauF u => runs n u tr o
      | VisF e k => ∃ x tr', tr = log _ e x :: tr' ∧ runs n (k x) tr' o
      end
  end.

Definition traces {R : Type} (t : itree E R) (tr : list Obs) (o : option R) : Prop :=
  ∃ n, runs n t tr o.

(** Every run of [t] satisfies [P]. *)
Definition always {R : Type} (P : list Obs → option R → Prop) (t : itree E R) : Prop :=
  ∀ n tr o, runs n t tr o → P tr o.

Lemma runs_start {R} n (t : itree E R) : runs n t [] None.
Proof. destruct n; by left. Qed.

Lemma runs_ret {R} n (r : R) tr o :
  runs n (Ret r) tr o → tr = [] ∧ (o = None ∨ o = Some r).
Proof. destruct n; simpl; naive_solver. Qed.

Lemma runs_tau {R} n (t : itree E R) tr o :
  runs (S n) (Tau t) tr o → runs n t tr o.
Proof. intros [[-> ->]|H]; [apply runs_start|done]. Qed.

Lemma observe_bind {A B} (t : itree E A) (k : A → itree E B) :
  observe (ITree.bind t k)
  = match observe t with
    | RetF r => observe (k r)
    | TauF u => TauF (ITree.bind u k)
    | VisF e h => VisF e (λ x, ITree.bind (h x) k)
    end.
Proof.
  transitivity (observe (match observe t with
    | RetF r => k r
    | TauF u => Tau (ITree.bind u k)
    | VisF e h => Vis e (λ x, ITree.bind (h x) k)
    end)); [reflexivity|]. by destruct (observe t).
Qed.

Lemma runs_mono {R} n m (t : itree E R) tr o : (n ≤ m)%nat → runs n t tr o → runs m t tr o.
Proof.
  revert m t tr. induction n as [|n IH]; intros m t tr Hle.
  - intros [[-> ->]|[]]. apply runs_start.
  - destruct m as [|m]; [lia|]. simpl. intros [?|H]; [by left|right].
    destruct (observe t); [done|apply IH; [lia|done]|].
    destruct H as (x & tr' & ? & H). exists x, tr'. split; [done|]. apply IH; [lia|done].
Qed.

(** A run of a sequence is a run of its first part, or one of all of it and
    then one of the rest. *)
Lemma runs_bind {A B} n (t : itree E A) (k : A → itree E B) tr o :
  runs n (ITree.bind t k) tr o →
  (runs n t tr None ∧ o = None) ∨
  ∃ r tr1 tr2, tr = tr1 ++ tr2 ∧ runs n t tr1 (Some r) ∧ runs n (k r) tr2 o.
Proof.
  revert t tr. induction n as [|n IH]; intros t tr.
  { intros [[-> ->]|[]]. left. split; [apply runs_start|done]. }
  cbn [runs]. rewrite observe_bind. intros [[-> ->]|H]; [left; split; [by left|done]|].
  destruct (observe t) as [r|u|X e h] eqn:Ht.
  - right. exists r, [], tr. split; [done|]. split; [by right|]. right. done.
  - destruct (IH _ _ H) as [[H1 ->]|(r & tr1 & tr2 & -> & H1 & H2)].
    + left. split; [|done]. right. done.
    + right. exists r, tr1, tr2. split; [done|]. split; [by right|].
      apply (runs_mono n (S n) _ _ _ ltac:(lia)) in H2. done.
  - destruct H as (x & tr' & -> & H).
    destruct (IH _ _ H) as [[H1 ->]|(r & tr1 & tr2 & -> & H1 & H2)].
    + left. split; [|done]. right. by exists x, tr'.
    + right. exists r, (log _ e x :: tr1), tr2. split; [done|]. split.
      * right. by exists x, tr1.
      * apply (runs_mono n (S n) _ _ _ ltac:(lia)) in H2. done.
Qed.

(** A run cut short is a run. *)
Lemma runs_prefix {R} n (t : itree E R) tr1 tr2 o : runs n t (tr1 ++ tr2) o → runs n t tr1 None.
Proof.
  revert t tr1. induction n as [|n IH]; intros t tr1.
  - intros [[[-> _]%app_eq_nil _]|[]]. apply runs_start.
  - intros [[[-> _]%app_eq_nil _]|Hr]; [apply runs_start|].
    destruct tr1 as [|ob tr1]; [apply runs_start|]. right.
    destruct (observe t) as [r|u|X e k]; [by destruct Hr|by eapply IH|].
    destruct Hr as (x & tr' & [= -> <-] & Hr). exists x, tr1. split; [done|]. by eapply IH.
Qed.

Lemma runs_perform_inv {A} n (e : E A) tr o :
  runs n (perform e) tr o → tr = [] ∧ o = None ∨ ∃ x, tr = [log _ e x] ∧ (o = None ∨ o = Some x).
Proof.
  destruct n as [|n]; [intros [[-> ->]|[]]; by left|].
  intros [[-> ->]|(x & tr' & -> & Hr)]; [by left|right]. exists x.
  by apply runs_ret in Hr as [-> Ho].
Qed.

(** ** Reasoning about every run *)

Lemma always_weaken {R} (P Q : list Obs → option R → Prop) (t : itree E R) :
  always P t → (∀ tr o, P tr o → Q tr o) → always Q t.
Proof. intros H HPQ n tr o Hr. by eapply HPQ, H. Qed.

Lemma always_ret {R} (P : list Obs → option R → Prop) r :
  P [] None → P [] (Some r) → always P (Ret r).
Proof. intros H1 H2 n tr o Hr. apply runs_ret in Hr as [-> [-> | ->]]; done. Qed.

Lemma always_perform {A} (P : list Obs → option A → Prop) (e : E A) :
  P [] None → (∀ x, P [log _ e x] None ∧ P [log _ e x] (Some x)) → always P (perform e).
Proof.
  intros H0 H n tr o Hr. destruct n as [|n]; [by destruct Hr as [[-> ->]|[]]|].
  destruct Hr as [[-> ->]|(x & tr' & -> & Hr)]; [done|].
  apply runs_ret in Hr as [-> [-> | ->]]; apply H.
Qed.

Lemma always_bind {A B} (P : list Obs → option A → Prop) (Q : list Obs → option B → Prop)
    (t : itree E A) (k : A → itree E B) :
  always P t →
  (∀ tr, P tr None → Q tr None) →
  (∀ r tr1, P tr1 (Some r) → always (λ tr2 o, Q (tr1 ++ tr2) o) (k r)) →
  always Q (ITree.bind t k).
Proof.
  intros Ht Hnone Hk n tr o Hr.
  apply runs_bind in Hr as [[Hr ->]|(r & tr1 & tr2 & -> & H1 & H2)].
  - by eapply Hnone, Ht.
  - eapply Hk; [by eapply Ht|done].
Qed.

(** A loop: every run of the body from a state the invariant allows leads to
    the end or to such a state again. *)
Lemma always_iter {I R} (Inv : I → list Obs → Prop) (Q : list Obs → option R → Prop)
    (body : I → itree E (I + R)) (i : I) :
  Inv i [] →
  (∀ i tr0, Inv i tr0 → always (λ tr o,
     match o with
     | None => Q (tr0 ++ tr) None
     | Some (inl i') => Inv i' (tr0 ++ tr) ∧ Q (tr0 ++ tr) None
     | Some (inr r) => Q (tr0 ++ tr) (Some r) ∧ Q (tr0 ++ tr) None
     end) (body i)) →
  always Q (ITree.iter body i).
Proof.
  intros Hi Hbody n tr o.
  cut (∀ n i tr0 tr o, Inv i tr0 → runs n (ITree.iter body i) tr o → Q (tr0 ++ tr) o).
  { intros H Hr. apply (H n i [] tr o Hi Hr). }
  clear n i tr o Hi. intros n. induction (lt_wf n) as [n _ IH]. intros i tr0 tr o Hinv Hr.
  assert (runs n (ITree.bind (body i)
    (λ lr, match lr with inl l => Tau (ITree.iter body l) | inr r => Ret r end)) tr o) as Hb
    by (destruct n; exact Hr).
  apply runs_bind in Hb as [[Hb ->]|(lr & tr1 & tr2 & -> & H1 & H2)].
  - apply (Hbody i tr0 Hinv) in Hb. done.
  - apply (Hbody i tr0 Hinv) in H1. destruct lr as [i'|r].
    + destruct H1 as [Hinv' Hq]. destruct n as [|n].
      { destruct H2 as [[-> ->]|[]]. by rewrite app_nil_r. }
      destruct H2 as [[-> ->]|H2]; [by rewrite app_nil_r|]. simpl in H2.
      rewrite app_assoc. apply (IH n ltac:(lia) i'); done.
    + destruct H1 as [Hs Hn]. apply runs_ret in H2 as [-> [-> | ->]]; by rewrite app_nil_r.
Qed.

Lemma always_and {R} (P Q : list Obs → option R → Prop) (t : itree E R) :
  always P t → always Q t → always (λ tr o, P tr o ∧ Q tr o) t.
Proof. intros HP HQ n tr o Hr. split; [by eapply HP|by eapply HQ]. Qed.

(** The [?] operator. *)
Lemma always_try {F A B} (P : list Obs → option (result F A) → Prop)
    (Q : list Obs → option (result F B) → Prop)
    (t : itree E (result F A)) (k : A → itree E (result F B)) :
  always P t →
  (∀ tr, P tr None → Q tr None) →
  (∀ e tr, P tr (Some (Err e)) → Q tr None ∧ Q tr (Some (Err e))) →
  (∀ a tr1, P tr1 (Some (Ok a)) → always (λ tr2 o, Q (tr1 ++ tr2) o) (k a)) →
  always Q (try_await t k).
Proof.
  intros Ht Hnone Herr Hk. unfold try_await. eapply always_bind; [exact Ht|done|].
  intros [a|e] tr1 HP; [by apply Hk|]. destruct (Herr e tr1 HP).
  apply always_ret; by rewrite app_nil_r.
Qed.

(** ** Programs all of whose events satisfy a predicate *)

Definition only {R : Type} (φ : Obs → Prop) (t : itree E R) : Prop :=
  always (λ tr _, Forall φ tr) t.

Lemma only_ret {R} φ (r : R) : only φ (Ret r).
Proof. apply always_ret; constructor. Qed.

Lemma only_perform {A} φ (e : E A) : (∀ x, φ (log _ e x)) → only φ (perform e).
Proof. intros H. apply always_perform; [constructor|]. intros x. split; repeat constructor; apply H. Qed.

Lemma only_bind {A B} φ (t : itree E A) (k : A → itree E B) :
  only φ t → (∀ r, only φ (k r)) → only φ (ITree.bind t k).
Proof.
  intros Ht Hk. eapply always_bind; [exact Ht|done|]. intros r tr1 Htr.
  eapply always_weaken; [apply Hk|]. intros tr2 o Htr2. by apply Forall_app.
Qed.

Lemma only_try {F A B} φ (t : itree E (result F A)) (k : A → itree E (result F B)) :
  only φ t → (∀ r, only φ (k r)) → only φ (try_await t k).
Proof. intros Ht Hk. apply only_bind; [done|]. intros [a|e]; [apply Hk|apply only_ret]. Qed.

Lemma only_iter {I R} φ (body : I → itree E (I + R)) (i : I) :
  (∀ i, only φ (body i)) → only φ (ITree.iter body i).
Proof.
  intros Hb. apply (always_iter (λ _ tr, Forall φ tr)); [constructor|].
  intros j tr0 Htr0. eapply always_weaken; [apply Hb|]. intros tr o Htr.
  assert (Forall φ (tr0 ++ tr)) by by apply Forall_app. by destruct o as [[?|?]|].
Qed.

Lemma only_weaken {R} (φ ψ : Obs → Prop) (t : itree E R) :
  only φ t → (∀ x, φ x → ψ x) → only ψ t.
Proof.
  intros H Hw. eapply always_weaken; [exact H|]. intros tr o Htr. by apply (Forall_impl φ).
Qed.

(** ** What a program has recorded when it returns *)

Definition returns {R : Type} (t : itree E R) (Q : list Obs → R → Prop) : Prop :=
  always (λ tr o, match o with Some r => Q tr r | None => True end) t.

Lemma returns_weaken {R} (t : itree E R) (P Q : list Obs → R → Prop) :
  returns t P → (∀ tr r, P tr r → Q tr r) → returns t Q.
Proof. intros H Hw. eapply always_weaken; [exact H|]. intros tr [r|]; [apply Hw|done]. Qed.

Lemma returns_ret {R} (r : R) (Q : list Obs → R → Prop) : Q [] r → returns (Ret r) Q.
Proof. intros. by apply always_ret. Qed.

Lemma returns_bind {A B} (t : itree E A) (k : A → itree E B) P (Q : list Obs → B → Prop) :
  returns t P → (∀ r tr1, P tr1 r → returns (k r) (λ tr2, Q (tr1 ++ tr2))) →
  returns (ITree.bind t k) Q.
Proof. intros Ht Hk. eapply always_bind; [exact Ht|done|]. intros r tr1 HP. by apply Hk. Qed.

Lemma returns_try {F A B} (t : itree E (result F A)) (k : A → itree E (result F B)) P
    (Q : list Obs → result F B → Prop) :
  returns t P → (∀ tr e, P tr (Err e) → Q tr (Err e)) →
  (∀ a tr1, P tr1 (Ok a) → returns (k a) (λ tr2, Q (tr1 ++ tr2))) →
  returns (try_await t k) Q.
Proof.
  intros Ht He Hk. eapply returns_bind; [exact Ht|]. intros [a|e] tr1 HP; [by apply Hk|].
  apply returns_ret. rewrite app_nil_r. by apply He.
Qed.

Lemma returns_try_ret {F A B} (r : result F A) (k : A → itree E (result F B))
    (Q : list Obs → result F B → Prop) :
  match r with Ok a => returns (k a) Q | Err e => Q [] (Err e) end →
  returns (try_await (Ret r) k) Q.
Proof.
  intros H. apply (returns_try _ _ (λ tr r', tr = [] ∧ r' = r)); [by apply returns_ret|..].
  - intros tr e [-> <-]. done.
  - intros a tr1 [-> <-]. done.
Qed.

Lemma returns_perform {A} (e : E A) (Q : list Obs → A → Prop) :
  (∀ x, Q [log _ e x] x) → returns (perform e) Q.
Proof. intros H. by apply always_perform. Qed.

Lemma returns_iter {I R} (Inv : I → list Obs → Prop) (body : I → itree E (I + R)) (i : I)
    (Q : list Obs → R → Prop) :
  Inv i [] →
  (∀ i tr0, Inv i tr0 → returns (body i) (λ tr r, match r with
     | inl i' => Inv i' (tr0 ++ tr) | inr r => Q (tr0 ++ tr) r end)) →
  returns (ITree.iter body i) Q.
Proof.
  intros Hi Hb. apply (always_iter Inv); [done|]. intros j tr0 Hj.
  eapply always_weaken; [by apply Hb|]. intros tr [[i'|r]|]; simpl; auto.
Qed.

(** ** Programs that follow a protocol

    A protocol is a step relation on its states, labelled by what a trace
    records. [follows q t Q]: from state [q] the protocol allows every trace of
    [t], and a run that ends with [r] can leave it in a state that [Q r]
    allows. *)

Section protocol.
Context {S : Type} (step : S → Obs → S → Prop).

Inductive steps : S → list Obs → S → Prop :=
| steps_nil q : steps q [] q
| steps_cons q o q1 tr q2 : step q o q1 → steps q1 tr q2 → steps q (o :: tr) q2.

Lemma steps_app q tr1 q1 tr2 q2 : steps q tr1 q1 → steps q1 tr2 q2 → steps q (tr1 ++ tr2) q2.
Proof. induction 1; [done|]. intros. econstructor; eauto. Qed.

Lemma steps_split q tr1 tr2 q2 :
  steps q (tr1 ++ tr2) q2 → ∃ q1, steps q tr1 q1 ∧ steps q1 tr2 q2.
Proof.
  revert q. induction tr1 as [|o tr1 IH]; intros q; simpl; [exists q; split; [constructor|done]|].
  inversion 1 as [|? ? q1 ? ? Hs Hss]; subst. apply IH in Hss as (q3 & H1 & H2).
  exists q3. split; [by econstructor|done].
Qed.

(** Rule induction from the left end: what holds at the start and is kept by
    every step holds after every run. *)
Lemma steps_invariant (P : list Obs → S → Prop) q0 :
  P [] q0 →
  (∀ tr q o q', steps q0 tr q → P tr q → step q o q' → P (tr ++ [o]) q') →
  ∀ tr q, steps q0 tr q → P tr q.
Proof.
  intros H0 Hstep tr. induction tr as [|o tr IH] using rev_ind; intros q Hs.
  { by inversion Hs; subst. }
  apply steps_split in Hs as (q1 & H1 & H2). inversion H2 as [|? ? q2 ? ? Ho Hnil]; subst.
  inversion Hnil; subst. eapply Hstep; [exact H1|by apply IH|done].
Qed.

Definition follows {R : Type} (q : S) (t : itree E R) (Q : R → S → Prop) : Prop :=
  always (λ tr o, ∃ q', steps q tr q' ∧
    match o with Some r => Q r q' | None => True end) t.

Lemma follows_ret {R} q (r : R) (Q : R → S → Prop) : Q r q → follows q (Ret r) Q.
Proof. intros H. apply always_ret; exists q; split; try done; constructor. Qed.

Lemma follows_perform {A} q (e : E A) (Q : A → S → Prop) :
  (∀ x, ∃ q', step q (log _ e x) q' ∧ Q x q') → follows q (perform e) Q.
Proof.
  intros H. apply always_perform; [exists q; split; [constructor|done]|].
  intros x. destruct (H x) as (q' & Hs & HQ).
  split; exists q'; (split; [econstructor; [done|constructor]|done]).
Qed.

Lemma follows_bind {A B} q (t : itree E A) (k : A → itree E B) (P : A → S → Prop)
    (Q : B → S → Prop) :
  follows q t P → (∀ r q', P r q' → follows q' (k r) Q) → follows q (ITree.bind t k) Q.
Proof.
  intros Ht Hk. eapply always_bind; [exact Ht|done|]. intros r tr1 (q1 & H1 & HP).
  eapply always_weaken; [by apply (Hk r q1)|]. intros tr2 o (q2 & H2 & HQ).
  exists q2. split; [by eapply steps_app|done].
Qed.

Lemma follows_try {F A B} q (t : itree E (result F A)) (k : A → itree E (result F B))
    (P : result F A → S → Prop) (Q : result F B → S → Prop) :
  follows q t P → (∀ e q', P (Err e) q' → Q (Err e) q') →
  (∀ a q', P (Ok a) q' → follows q' (k a) Q) → follows q (try_await t k) Q.
Proof.
  intros Ht He Hk. eapply follows_bind; [exact Ht|].
  intros [a|e] q' HP; [by apply Hk|]. by apply follows_ret, He.
Qed.

(** A call and what comes after its answer. *)
Lemma follows_call {A B} q (e : E A) (k : A → itree E B) (Q : B → S → Prop) :
  (∀ x, ∃ q', step q (log _ e x) q' ∧ follows q' (k x) Q) →
  follows q (ITree.bind (perform e) k) Q.
Proof.
  intros H. apply (follows_bind _ _ _ (λ x q', step q (log _ e x) q' ∧ follows q' (k x) Q)).
  - apply follows_perform. intros x. destruct (H x) as (q' & Hs & Hf). by exists q'.
  - by intros x q' [_ Hf].
Qed.

Lemma follows_call_try {F A B} q (e : E (result F A)) (k : A → itree E (result F B))
    (Q : result F B → S → Prop) :
  (∀ x, ∃ q', step q (log _ e x) q' ∧
     match x with Ok a => follows q' (k a) Q | Err err => Q (Err err) q' end) →
  follows q (try_await (perform e) k) Q.
Proof.
  intros H. apply follows_call. intros [a|err]; [apply (H (Ok a))|].
  destruct (H (Err err)) as (q' & Hs & HQ). exists q'. split; [done|by apply follows_ret].
Qed.

Lemma follows_try_ret {F A B} q (r : result F A) (k : A → itree E (result F B))
    (Q : result F B → S → Prop) :
  match r with Ok a => follows q (k a) Q | Err err => Q (Err err) q end →
  follows q (try_await (Ret r) k) Q.
Proof.
  intros H. apply (follows_try _ _ _ (λ r' q', r' = r ∧ q' = q)); [by apply follows_ret|..].
  - intros e q' [<- ->]. done.
  - intros a q' [<- ->]. done.
Qed.

Lemma follows_iter {I R} (Inv : I → S → Prop) q (body : I → itree E (I + R)) (i : I)
    (Q : R → S → Prop) :
  Inv i q →
  (∀ i q, Inv i q → follows q (body i) (λ r q', match r with
     | inl i' => Inv i' q' | inr r => Q r q' end)) →
  follows q (ITree.iter body i) Q.
Proof.
  intros Hi Hb. apply (always_iter (λ i tr, ∃ q', steps q tr q' ∧ Inv i q')).
  { exists q. split; [constructor|done]. }
  intros j tr0 (q1 & H1 & Hinv). eapply always_weaken; [by apply (Hb j q1)|].
  intros tr o (q2 & H2 & HQ). assert (steps q (tr0 ++ tr) q2) by by eapply steps_app.
  destruct o as [[i'|r]|]; [split..|]; by exists q2.
Qed.

Lemma follows_weaken {R} q (t : itree E R) (P Q : R → S → Prop) :
  follows q t P → (∀ r q', P r q' → Q r q') → follows q t Q.
Proof.
  intros H Hw. eapply always_weaken; [exact H|]. intros tr [r|] (q' & Hs & HP); exists q'; (split; [done|]); [by apply Hw|done].
Qed.
End protocol.

(** ** Programs that only make some calls

    [emits P t]: whatever it is answered, every call [t] makes satisfies [P]. *)

Section emits.
Context (P : Obs → Prop).

Definition emits {R : Type} (t : itree E R) : Prop := always (λ tr _, Forall P tr) t.

Lemma emits_ret {R} (r : R) : emits (Ret r).
Proof. by apply always_ret. Qed.

Lemma emits_perform {A} (e : E A) : (∀ x, P (log _ e x)) → emits (perform e).
Proof. intros H. apply always_perform; [done|]. intros x. split; by repeat constructor. Qed.

Lemma emits_bind {A B} (t : itree E A) (k : A → itree E B) :
  emits t → (∀ a, emits (k a)) → emits (ITree.bind t k).
Proof.
  intros Ht Hk. eapply always_bind; [exact Ht|done|]. intros r tr1 H1.
  eapply always_weaken; [apply Hk|]. intros tr2 o H2. by apply Forall_app.
Qed.

Lemma emits_try {F A B} (t : itree E (result F A)) (k : A → itree E (result F B)) :
  emits t → (∀ a, emits (k a)) → emits (try_await t k).
Proof. intros Ht Hk. apply emits_bind; [done|]. intros [a|e]; [apply Hk|apply emits_ret]. Qed.

Lemma emits_iter {I R} (body : I → itree E (I + R)) i :
  (∀ i, emits (body i)) → emits (ITree.iter body i).
Proof.
  intros Hb. apply (always_iter (λ _ tr, Forall P tr)); [done|]. intros j tr0 H0.
  eapply always_weaken; [apply Hb|]. intros tr [[i'|r]|] H1;
    (assert (Forall P (tr0 ++ tr)) by (by apply Forall_app)); by repeat split.
Qed.

Lemma emits_always {R} (Q : list Obs → option R → Prop) (t : itree E R) :
  always Q t → (∀ tr o, Q tr o → Forall P tr) → emits t.
Proof. intros Ht HQ. eapply always_weaken; [exact Ht|done]. Qed.

(** Where such a call changes nothing, it follows. *)
Lemma emits_follows {S R} (step : S → Obs → S → Prop) q (t : itree E R) :
  emits t → (∀ o, P o → step q o q) → follows step q t (λ _ q', q' = q).
Proof.
  intros Ht Hq. eapply always_weaken; [exact Ht|]. intros tr o Htr. exists q.
  split; [|by destruct o]. induction Htr; econstructor; eauto.
Qed.

(** ... and where such calls keep a set of states, it stays there. *)
Lemma emits_within {S R} (step : S → Obs → S → Prop) (Inv : S → Prop) q (t : itree E R) :
  emits t → Inv q → (∀ q o, Inv q → P o → ∃ q', step q o q' ∧ Inv q') →
  follows step q t (λ _ q', Inv q').
Proof.
  intros Ht Hi Hq. eapply always_weaken; [exact Ht|]. intros tr o Htr.
  assert (∃ q', steps step q tr q' ∧ Inv q') as (q' & Hs & Hi').
  { clear -Htr Hi Hq. revert q Hi. induction Htr as [|o1 tr Ho _ IH]; intros q Hi.
    - exists q. split; [constructor|done].
    - destruct (Hq q o1 Hi Ho) as (q1 & H1 & Hi1). destruct (IH q1 Hi1) as (q' & Hs & Hi').
      exists q'. split; [by econstructor|done]. }
  exists q'. split; [done|by destruct o].
Qed.
End emits.

(** ** Programs in a world

    A world that answers the calls and changes by them, other tasks' changes
    included. [under w t J Q]: in every run of [t] from [w] that the world
    allows, [J] holds of the world all along and [Q] at the end. *)

Section world.
Context {S : Type} (step : S → Obs → S → Prop).

Definition under {R : Type} (w : S) (t : itree E R) (J : S → Prop) (Q : R → S → Prop) : Prop :=
  always (λ tr o, ∀ w', steps step w tr w' →
    J w' ∧ match o with Some r => Q r w' | None => True end) t.

Lemma steps_nil_inv w w' : steps step w [] w' → w' = w.
Proof. by inversion 1. Qed.

Lemma steps_cons_inv w o tr w' :
  steps step w (o :: tr) w' → ∃ w1, step w o w1 ∧ steps step w1 tr w'.
Proof. inversion 1; subst. eauto. Qed.

Lemma under_ret {R} w (r : R) (J : S → Prop) (Q : R → S → Prop) :
  J w → Q r w → under w (Ret r) J Q.
Proof. intros HJ HQ. apply always_ret; intros w' ->%steps_nil_inv; done. Qed.

Lemma under_perform {A} w (e : E A) (J : S → Prop) (Q : A → S → Prop) :
  J w → (∀ x w', step w (log _ e x) w' → J w' ∧ Q x w') → under w (perform e) J Q.
Proof.
  intros HJ H. apply always_perform; [by intros w' ->%steps_nil_inv|].
  intros x. split; intros w' (w1 & Hs & ->%steps_nil_inv)%steps_cons_inv; destruct (H x w1 Hs); done.
Qed.

Lemma under_bind {A B} w (t : itree E A) (k : A → itree E B) (J : S → Prop) (P : A → S → Prop)
    (Q : B → S → Prop) :
  under w t J P → (∀ r w', J w' → P r w' → under w' (k r) J Q) → under w (ITree.bind t k) J Q.
Proof.
  intros Ht Hk n tr o Hr w' Hs.
  apply runs_bind in Hr as [[Hr ->]|(r & tr1 & tr2 & -> & H1 & H2)]; [by apply (Ht _ _ _ Hr)|].
  apply steps_split in Hs as (w1 & Hs1 & Hs2). destruct (Ht _ _ _ H1 w1 Hs1) as [HJ HP].
  by apply (Hk r w1 HJ HP _ _ _ H2).
Qed.

Lemma under_try {F A B} w (t : itree E (result F A)) (k : A → itree E (result F B))
    (J : S → Prop) (P : result F A → S → Prop) (Q : result F B → S → Prop) :
  under w t J P → (∀ e w', J w' → P (Err e) w' → Q (Err e) w') →
  (∀ a w', J w' → P (Ok a) w' → under w' (k a) J Q) → under w (try_await t k) J Q.
Proof.
  intros Ht He Hk. eapply under_bind; [exact Ht|].
  intros [a|e] w' HJ HP; [by apply Hk|]. apply under_ret; [done|by apply He].
Qed.

Lemma under_try_ret {F A B} w (r : result F A) (k : A → itree E (result F B))
    (J : S → Prop) (Q : result F B → S → Prop) :
  J w → match r with Ok a => under w (k a) J Q | Err e => Q (Err e) w end →
  under w (try_await (Ret r) k) J Q.
Proof.
  intros HJ H. apply (under_try _ _ _ _ (λ r' w', r' = r ∧ w' = w)); [by apply under_ret|..].
  - intros e w' _ [<- ->]. done.
  - intros a w' _ [<- ->]. done.
Qed.

(** What every step keeps, a run keeps. *)
Lemma steps_keep (keep : S → S → Prop) `{!PreOrder keep} w tr w' :
  (∀ w o w', step w o w' → keep w w') → steps step w tr w' → keep w w'.
Proof. intros Hk Hs. induction Hs; [done|]. etrans; [by eapply Hk|done]. Qed.

Lemma under_keep {R} (keep : S → S → Prop) `{!PreOrder keep} w (t : itree E R)
    (J : S → Prop) (Q : R → S → Prop) :
  (∀ w o w', step w o w' → keep w w') → under w t J Q →
  under w t (λ w', keep w w' ∧ J w') (λ r w', keep w w' ∧ Q r w').
Proof.
  intros Hk H n tr o Hr w' Hs. destruct (H _ _ _ Hr w' Hs) as [HJ HQ].
  assert (keep w w') by (by eapply steps_keep). split; [done|]. by destruct o.
Qed.

Lemma under_iter {I R} (Inv : I → S → Prop) (body : I → itree E (I + R)) (i : I) w
    (J : S → Prop) (Q : R → S → Prop) :
  Inv i w →
  (∀ i w', Inv i w' → under w' (body i) J
     (λ r w2, match r with inl i' => Inv i' w2 | inr r => Q r w2 end)) →
  J w →
  under w (ITree.iter body i) J Q.
Proof.
  intros Hi Hb HJ.
  apply (always_iter (λ i tr0, ∀ w', steps step w tr0 w' → J w' ∧ Inv i w')).
  { intros w' ->%steps_nil_inv. done. }
  intros j tr0 Hj n tr o Hr.
  assert (∀ w', steps step w (tr0 ++ tr) w' → ∃ w1, J w1 ∧ Inv j w1 ∧ steps step w1 tr w') as Hmid.
  { intros w' (w1 & Hs1 & Hs2)%steps_split. destruct (Hj w1 Hs1). by exists w1. }
  destruct o as [[i'|r]|]; [split..|];
    intros w' (w1 & HJ1 & Hi1 & Hs)%Hmid; destruct (Hb _ _ Hi1 _ _ _ Hr w' Hs); by try split.
Qed.

Lemma under_weaken {R} w (t : itree E R) (J J' : S → Prop) (P Q : R → S → Prop) :
  under w t J P → (∀ w', J w' → J' w') → (∀ r w', J w' → P r w' → Q r w') → under w t J' Q.
Proof.
  intros H HJ HQ. eapply always_weaken; [exact H|]. intros tr o Ho w' Hs.
  destruct (Ho w' Hs) as [HJw Hr]. split; [by apply HJ|]. destruct o; [by apply HQ|done].
Qed.

(** What a program has recorded when it returns, in a world. *)
Lemma under_returns {R} w (t : itree E R) (P : list Obs → R → Prop) (J : S → Prop)
    (Q : R → S → Prop) :
  returns t P → (∀ tr w', steps step w tr w' → J w') →
  (∀ tr r w', steps step w tr w' → P tr r → Q r w') → under w t J Q.
Proof.
  intros Ht HJ HQ n tr o Hr w' Hs. split; [by eapply HJ|].
  destruct o as [r|]; [|done]. eapply HQ; [done|]. by apply (Ht _ _ _ Hr).
Qed.
End world.

(** A program that follows one protocol follows another that simulates it. *)
Lemma follows_map {S T R} (step1 : S → Obs → S → Prop) (step2 : T → Obs → T → Prop)
    (f : S → T) q (t : itree E R) (Q : R → S → Prop) :
  (∀ q o q', step1 q o q' → step2 (f q) o (f q')) →
  follows step1 q t Q →
  follows step2 (f q) t (λ r q', ∃ p, q' = f p ∧ Q r p).
Proof.
  intros Hsim H. eapply always_weaken; [exact H|]. intros tr o (q' & Hs & HQ).
  exists (f q'). split.
  - clear H HQ. induction Hs; [constructor|]. econstructor; [by apply Hsim|done].
  - destruct o; [by exists q'|done].
Qed.

(** A program that follows a protocol, in a world that answers it: what ties
    the protocol's state to the world's is kept. *)
Lemma follows_under {S W R} (step : S → Obs → S → Prop) (world : W → Obs → W → Prop)
    (Inv : S → W → Prop) q w (t : itree E R) (Q : R → S → Prop) :
  follows step q t Q → Inv q w →
  (∀ q o q' w w', step q o q' → world w o w' → Inv q w → Inv q' w') →
  under world w t (λ w', ∃ q', Inv q' w') (λ r w', ∃ q', Q r q' ∧ Inv q' w').
Proof.
  intros H Hi Hk n tr o Hr w' Hw. destruct (H _ _ _ Hr) as (q' & Hs & HQ).
  assert (Inv q' w') as Hi'.
  { clear H HQ Hr. revert w Hi Hw. induction Hs as [q|q o1 q1 tr q2 H1 _ IH]; intros w Hi.
    - by intros ->%steps_nil_inv.
    - intros (w1 & Hw1 & Hw)%steps_cons_inv. eapply IH; [by eapply Hk|done]. }
  split; [by exists q'|]. destruct o as [r|]; [by exists q'|done].
Qed.

(** ** Running a program against an environment

    The environment is a state machine that answers every call. *)

Context {W : Type} (answer : ∀ X : Type, E X → W → X * W).

Fixpoint drive {R : Type} (n : nat) (w : W) (t : itree E R) : list Obs * option (R * W) :=
  match n with
  | 0%nat => ([], None)
  | S n =>
      match observe t with
      | RetF r => ([], Some (r, w))
      | TauF u => drive n w u
      | VisF e k =>
          let '(x, w) := answer _ e w in
          let '(tr, o) := drive n w (k x) in (log _ e x :: tr, o)
      end
  end.

Lemma drive_runs {R} n w (t : itree E R) tr o :
  drive n w t = (tr, o) → runs n t tr (fst <$> o).
Proof.
  revert w t tr. induction n as [|n IH]; intros w t tr.
  { intros H. injection H as <- <-. by left. }
  cbn [drive runs].
  destruct (observe t) as [r|u|X e k].
  - intros [= <- <-]. by right.
  - intros H. right. by eapply IH.
  - destruct (answer X e w) as [x w'], (drive n w' (k x)) as [tr' o'] eqn:Hd.
    intros [= <- <-]. right. exists x, tr'. split; [done|]. by eapply IH.
Qed.

Lemma drive_mono {R} n m w (t : itree E R) tr res :
  (n ≤ m)%nat → drive n w t = (tr, Some res) → drive m w t = (tr, Some res).
Proof.
  revert m w t tr. induction n as [|n IH]; intros m w t tr Hle; [done|].
  destruct m as [|m]; [lia|]. cbn [drive]. destruct (observe t) as [r|u|X e k]; [done|..].
  - apply IH. lia.
  - destruct (answer X e w) as [x w']. destruct (drive n w' (k x)) as [tr' o'] eqn:Hd.
    intros [= <- ->]. by rewrite (IH m w' _ _ ltac:(lia) Hd).
Qed.

Lemma drive_bind {A B} n m w w1 (t : itree E A) (k : A → itree E B) tr1 tr2 r res :
  drive n w t = (tr1, Some (r, w1)) → drive m w1 (k r) = (tr2, Some res) →
  drive (n + m) w (ITree.bind t k) = (tr1 ++ tr2, Some res).
Proof.
  intros H1 H2. revert w t tr1 H1. induction n as [|n IH]; intros w t tr1; [done|].
  cbn [drive Nat.add]. rewrite observe_bind. destruct (observe t) as [r'|u|X e h].
  - intros [= <- -> ->]. apply (drive_mono m (S (n + m)) _ _ _ _ ltac:(lia)) in H2.
    cbn [drive] in H2. done.
  - apply IH.
  - destruct (answer X e w) as [x w']. destruct (drive n w' (h x)) as [tr' o'] eqn:Hd.
    intros [= <- ->]. by rewrite (IH w' _ tr' Hd).
Qed.

(** [ends w t Q]: against the environment started in [w], the program ends,
    and what it did, its result and the world it leaves satisfy [Q]. *)
Definition ends {R : Type} (w : W) (t : itree E R) (Q : list Obs → R → W → Prop) : Prop :=
  ∃ n tr r w', drive n w t = (tr, Some (r, w')) ∧ Q tr r w'.

Lemma ends_weaken {R} w (t : itree E R) (P Q : list Obs → R → W → Prop) :
  ends w t P → (∀ tr r w', P tr r w' → Q tr r w') → ends w t Q.
Proof. intros (n & tr & r & w' & Hd & HP) HPQ. exists n, tr, r, w'. auto. Qed.

Lemma ends_ret {R} w (r : R) (Q : list Obs → R → W → Prop) : Q [] r w → ends w (Ret r) Q.
Proof. intros H. by exists 1%nat, [], r, w. Qed.

Lemma ends_bind {A B} w (t : itree E A) (k : A → itree E B) P (Q : list Obs → B → W → Prop) :
  ends w t P →
  (∀ tr1 r w1, P tr1 r w1 → ends w1 (k r) (λ tr2, Q (tr1 ++ tr2))) →
  ends w (ITree.bind t k) Q.
Proof.
  intros (n & tr1 & r & w1 & H1 & HP) Hk.
  destruct (Hk tr1 r w1 HP) as (m & tr2 & r' & w2 & H2 & HQ).
  exists (n + m)%nat, (tr1 ++ tr2), r', w2. split; [by eapply drive_bind|done].
Qed.

Lemma ends_call {A B} w (e : E A) (k : A → itree E B) (Q : list Obs → B → W → Prop) :
  ends (answer _ e w).2 (k (answer _ e w).1) (λ tr, Q (log _ e (answer _ e w).1 :: tr)) →
  ends w (ITree.bind (perform e) k) Q.
Proof.
  intros H. apply (ends_bind _ _ _ (λ tr x w1, tr = [log _ e x] ∧ (x, w1) = answer _ e w)).
  - exists 2%nat, [log _ e (answer _ e w).1], (answer _ e w).1, (answer _ e w).2.
    cbn. destruct (answer _ e w). done.
  - intros tr1 x w1 [-> Hx]. rewrite <- Hx in H. done.
Qed.

Lemma ends_iter {I R} w (body : I → itree E (I + R)) i (Q : list Obs → R → W → Prop) :
  ends w (body i) (λ tr0 r w', match r with
    | inl i' => ends w' (ITree.iter body i') (λ tr, Q (tr0 ++ tr))
    | inr r => Q tr0 r w'
    end) →
  ends w (ITree.iter body i) Q.
Proof.
  intros H. cut (ends w (ITree.bind (body i)
    (λ lr, match lr with inl l => Tau (ITree.iter body l) | inr r => Ret r end)) Q).
  { intros (n & tr & r & w' & Hd & HQ). exists n, tr, r, w'. split; [|done].
    destruct n; exact Hd. }
  eapply ends_bind; [exact H|]. intros tr1 [i'|r] w1 Hr.
  - destruct Hr as (n & tr & r & w' & Hd & HQ). exists (S n), tr, r, w'. by split.
  - apply ends_ret. by rewrite app_nil_r.
Qed.

(** ** Programs that end, whatever the environment answers *)

Definition halts {R : Type} (w : W) (t : itree E R) : Prop := ends w t (λ _ _ _, True).

Lemma halts_ret {R} w (r : R) : halts w (Ret r).
Proof. by apply ends_ret. Qed.

Lemma halts_bind {A B} w (t : itree E A) (k : A → itree E B) :
  halts w t → (∀ w r, halts w (k r)) → halts w (ITree.bind t k).
Proof. intros Ht Hk. eapply ends_bind; [exact Ht|]. intros tr1 r w1 _. apply Hk. Qed.

Lemma halts_perform {A} w (e : E A) : halts w (perform e).
Proof.
  destruct (answer _ e w) as [x w'] eqn:Ha.
  exists 2%nat, [log _ e x], x, w'. cbn. by rewrite Ha.
Qed.

Lemma halts_try {F A B} w (t : itree E (result F A)) (k : A → itree E (result F B)) :
  halts w t → (∀ w a, halts w (k a)) → halts w (try_await t k).
Proof. intros Ht Hk. apply halts_bind; [done|]. intros w1 [a|e]; [apply Hk|apply halts_ret]. Qed.

(** A loop whose every turn ends and brings a measure down. *)
Lemma halts_iter {I R} (size : I → nat) (body : I → itree E (I + R)) w i :
  (∀ w i, ends w (body i) (λ _ r _,
     match r with inl i' => (size i' < size i)%nat | inr _ => True end)) →
  halts w (ITree.iter body i).
Proof.
  intros Hb. remember (size i) as n eqn:Hn. revert w i Hn.
  induction (lt_wf n) as [n _ IH]. intros w i ->.
  apply ends_iter. eapply ends_weaken; [apply Hb|]. intros tr [i'|r] w' Hlt; [|done].
  eapply ends_weaken; [by eapply (IH (size i'))|done].
Qed.
End traces.

Arguments runs {E Obs} log {R} n t tr o : simpl never.

(** ** Programs over part of the calls

    [translate h t] makes the calls of [t] through [h]. *)

Section translated.
Context {E F : Type → Type} {Obs1 Obs2 : Type}.
Context (log1 : ∀ X : Type, E X → X → Obs1) (log2 : ∀ X : Type, F X → X → Obs2).
Context (h : ∀ X : Type, E X → F X) (f : Obs1 → Obs2).
Context (Hlog : ∀ X (e : E X) x, log2 X (h X e) x = f (log1 X e x)).

Lemma runs_translate {R} n (t : itree E R) tr o :
  runs log2 n (translate h t) tr o → ∃ tr1, tr = map f tr1 ∧ runs log1 n t tr1 o.
Proof.
  revert t tr. induction n as [|n IH]; intros t tr.
  { intros [[-> ->]|[]]. exists []. split; [done|]. by left. }
  intros [[-> ->]|Hr]; [exists []; split; [done|by left]|].
  change (observe (translate h t)) with (observe (translateF h (translate h (T:=R)) (observe t))) in Hr.
  destruct (observe t) as [r|u|X e k] eqn:Ht; simpl in Hr.
  - destruct Hr as [-> ->]. exists []. split; [done|]. right. by rewrite Ht.
  - destruct (IH u tr Hr) as (tr1 & -> & H1). exists tr1. split; [done|]. right. by rewrite Ht.
  - destruct Hr as (x & tr' & -> & Hr). destruct (IH (k x) tr' Hr) as (tr1 & -> & H1).
    exists (log1 _ e x :: tr1). split; [by rewrite Hlog|]. right. rewrite Ht. by exists x, tr1.
Qed.

(** A translated program in a world: its runs are the program's own. *)
Lemma under_translate {S R} (step : S → Obs2 → S → Prop) (w : S) (t : itree E R)
    (P : list Obs1 → R → Prop) (J : S → Prop) (Q : R → S → Prop) :
  returns log1 t P →
  (∀ tr w', steps step w (map f tr) w' → J w') →
  (∀ tr r w', steps step w (map f tr) w' → P tr r → Q r w') →
  under log2 step w (translate h t) J Q.
Proof.
  intros Ht HJ HQ n tr o (tr1 & -> & Hr)%runs_translate w' Hs. split; [by eapply HJ|].
  destruct o as [r|]; [|done]. eapply HQ; [done|]. by apply (Ht _ _ _ Hr).
Qed.

Lemma follows_translate {S T R} (step1 : S → Obs1 → S → Prop) (step2 : T → Obs2 → T → Prop)
    (g : S → T) q (t : itree E R) (Q : R → S → Prop) :
  (∀ q o q', step1 q o q' → step2 (g q) (f o) (g q')) →
  follows log1 step1 q t Q →
  follows log2 step2 (g q) (translate h t) (λ r q', ∃ p, q' = g p ∧ Q r p).
Proof.
  intros Hsim H n tr o Hr. apply runs_translate in Hr as (tr1 & -> & Hr).
  apply H in Hr as (q' & Hs & HQ). exists (g q'). split.
  - clear H HQ. induction Hs; [constructor|]. econstructor; [by apply Hsim|done].
  - destruct o; [by exists q'|done].
Qed.

Lemma returns_translate {R} (t : itree E R) (P : list Obs1 → R → Prop) :
  returns log1 t P → returns log2 (translate h t) (λ tr r, ∃ tr1, tr = map f tr1 ∧ P tr1 r).
Proof.
  intros Ht n tr o (tr1 & -> & Hr)%runs_translate. destruct o as [r|]; [|done].
  exists tr1. split; [done|]. by apply (Ht _ _ _ Hr).
Qed.

Lemma emits_translate {R} (P : Obs2 → Prop) (t : itree E R) :
  (∀ o, P (f o)) → emits log2 P (translate h t).
Proof.
  intros HP n tr o (tr1 & -> & _)%runs_translate. apply Forall_forall.
  by intros o2 (o1 & -> & _)%list_elem_of_fmap.
Qed.

(** A machine that only collects a program's calls lets it run, and what the
    program returns is told of what was collected. *)
Lemma follows_collect {S R} (step : S → Obs2 → S → Prop) (q : S) (add : list Obs1 → S)
    (t : itree E R) (P : list Obs1 → R → Prop) :
  returns log1 t P → add [] = q → (∀ tr o, step (add tr) (f o) (add (tr ++ [o]))) →
  follows log2 step q (translate h t) (λ r q', ∃ tr, q' = add tr ∧ P tr r).
Proof.
  intros Ht Hq Hstep n tr o (tr1 & -> & Hr)%runs_translate. exists (add tr1). split.
  - rewrite <- Hq. clear Hr. change tr1 with ([] ++ tr1) at 2. generalize (@nil Obs1).
    induction tr1 as [|o1 tr1 IH]; intros tr0; simpl; [rewrite app_nil_r; constructor|].
    econstructor; [apply Hstep|]. specialize (IH (tr0 ++ [o1])). by rewrite <- app_assoc in IH.
  - destruct o as [r|]; [|done]. exists tr1. split; [done|]. by apply (Ht _ _ _ Hr).
Qed.

(** ... in a larger world, of which its calls change its own part as they do
    alone. *)
Lemma under_embed {S T R} (step1 : S → Obs1 → S → Prop) (step2 : T → Obs2 → T → Prop)
    (part : T → S) (keep : T → T → Prop) `{!PreOrder keep} q (t : itree E R)
    (J : S → Prop) (Q : R → S → Prop) :
  (∀ q o q', step2 q (f o) q' → step1 (part q) o (part q') ∧ keep q q') →
  under log1 step1 (part q) t J Q →
  under log2 step2 q (translate h t) (λ q', keep q q' ∧ J (part q'))
    (λ r q', keep q q' ∧ Q r (part q')).
Proof.
  intros Hsim H n tr o (tr1 & -> & Hr)%runs_translate q' Hs.
  assert (steps step1 (part q) tr1 (part q') ∧ keep q q') as [Hs1 Hk].
  { clear H Hr. revert q Hs. induction tr1 as [|o1 tr1 IH]; intros q; simpl.
    - intros ->%steps_nil_inv. split; [constructor|done].
    - intros (q1 & [H1 Hk1]%Hsim & [H2 Hk2]%IH)%steps_cons_inv.
      split; [by econstructor|by etrans]. }
  destruct (H _ _ _ Hr (part q') Hs1) as [HJ HQ]. split; [done|]. by destruct o.
Qed.

(** ... and it ends where the program it translates does. *)
Lemma halts_translate {W R} (answer : ∀ X : Type, F X → W → X * W) w (t : itree E R) :
  halts log1 (λ X e, answer X (h X e)) w t → halts log2 answer w (translate h t).
Proof.
  intros (n & tr & r & w' & Hd & _). exists n, (map f tr), r, w'. split; [|done].
  revert t w tr Hd. induction n as [|n IH]; intros t w tr; [done|]. cbn [drive].
  change (observe (translate h t)) with (observe (translateF h (translate h (T:=R)) (observe t))).
  destruct (observe t) as [r1|u|X e k]; cbn.
  - by intros [= <- -> ->].
  - apply IH.
  - destruct (answer X (h X e) w) as [x w1].
    destruct (drive log1 (λ X e, answer X (h X e)) n w1 (k x)) as [tr1 o] eqn:Hd.
    intros [= <- ->]. by rewrite (IH _ _ _ Hd), Hlog.
Qed.
End translated.

(** ** A machine, or a world, with what was seen of it

    Paired with the calls made so far, the end of a program is told both ways:
    where it left the machine, and by which calls. *)

Section logged.
Context {E : Type → Type} {Obs : Type} (log : ∀ X : Type, E X → X → Obs).
Context {S : Type} (step : S → Obs → S → Prop).

Definition logged (w : S * list Obs) (o : Obs) (w' : S * list Obs) : Prop :=
  step w.1 o w'.1 ∧ w'.2 = w.2 ++ [o].

Lemma steps_logged w tr w' h : steps step w tr w' → steps logged (w, h) tr (w', h ++ tr).
Proof.
  intros Hs. revert h. induction Hs as [w|w o w1 tr w2 Ho _ IH]; intros h.
  - rewrite app_nil_r. constructor.
  - apply (steps_cons _ _ _ (w1, h ++ [o])); [by split|]. specialize (IH (h ++ [o])).
    by rewrite <- app_assoc in IH.
Qed.

Lemma logged_steps w tr w' : steps logged w tr w' → steps step w.1 tr w'.1 ∧ w'.2 = w.2 ++ tr.
Proof.
  induction 1 as [w|w o w1 tr w2 [Ho Hh1] _ [IH Hh2]].
  - split; [constructor|by rewrite app_nil_r].
  - split; [by econstructor|]. by rewrite Hh2, Hh1, <- app_assoc.
Qed.

Lemma follows_logged {R} q (t : itree E R) (Q : R → S → Prop) :
  follows log step q t Q →
  follows log logged (q, []) t (λ r w, Q r w.1 ∧ traces log t w.2 (Some r)).
Proof.
  intros H n tr o Hr. destruct (H _ _ _ Hr) as (q' & Hs & HQ). exists (q', tr).
  split; [by apply (steps_logged _ _ _ [])|]. destruct o; [|done]. split; [done|by exists n].
Qed.

Lemma under_logged {R} w h (t : itree E R) (J : S → Prop) (Q : R → S → Prop)
    (P : list Obs → R → Prop) :
  under log step w t J Q → returns log t P →
  under log logged (w, h) t (λ w', (∃ tr, w'.2 = h ++ tr) ∧ J w'.1)
    (λ r w', ∃ tr, w'.2 = h ++ tr ∧ Q r w'.1 ∧ P tr r).
Proof.
  intros Hu Hp n tr o Hr w' [Hs Hh]%logged_steps. destruct (Hu _ _ _ Hr _ Hs) as [HJ HQ].
  split; [by split; [exists tr|]|]. destruct o as [r|]; [|done].
  exists tr. split; [done|]. split; [done|]. by apply (Hp _ _ _ Hr).
Qed.

Lemma unlogged_under {R} w h (t : itree E R) (J : S → Prop) (Q : R → S → Prop) :
  under log logged (w, h) t (λ w', J w'.1) (λ r w', Q r w'.1) → under log step w t J Q.
Proof.
  intros Hu n tr o Hr w' Hs. exact (Hu _ _ _ Hr _ (steps_logged _ _ _ h Hs)).
Qed.
End logged.
