(* ===== verification/Chain.v ===== *)
(** * The chain layer's vocabulary ([src/chain/mod.rs], [src/chain/rpc.rs])

    Transaction hashes, ledger windows, the errors of the chain layer and what
    the RPC answers. What [stellar_xdr] and [reqwest] define stays abstract. *)

From Stdlib Require Import Ascii.
From stdpp Require Import pretty.
From S2P Require Import Prelude Fixed Encode.
Open Scope Z_scope.

(** ** What other crates define *)

Class Xdr : Type := {
  Operation : Type;
  ScVal : Type;
  SorobanTransactionData : Type;
  SorobanAuthorizationEntry : Type;
  DiagnosticEvent : Type;
  TransactionResult : Type;
  TransactionEnvelope : Type;
  XdrLibraryError : Type;
  TransportError : Type;
  (** [TransactionResultResult::TxBadSeq]. *)
  is_bad_seq : TransactionResult → bool;
  (** The authorisation entries of an [InvokeHostFunction] operation, and the
      operation with others. *)
  invoke_auth : Operation → option (list SorobanAuthorizationEntry);
  set_invoke_auth : list SorobanAuthorizationEntry → Operation → Operation;
  (** The [RestoreFootprint] operation. *)
  restore_footprint : Operation;
}.

(** ** Transaction hashes

    Thirty-two bytes. *)

Record TxHash : Type := mkTxHash { hash_bytes : list Z }.
#[global] Instance TxHash_eq_dec : EqDecision TxHash.
Proof. solve_decision. Defined.

Definition hex_digit (d : Z) : Ascii.ascii :=
  Ascii.ascii_of_N (Z.to_N (if d <? 10 then 48 + d else 87 + d)).

Definition byte_hex (b : Z) : string :=
  String (hex_digit (b / 16)) (String (hex_digit (b mod 16)) EmptyString).

(** [TxHash::to_hex]. *)
Fixpoint hex_of (bytes : list Z) : string :=
  match bytes with
  | [] => EmptyString
  | b :: bytes => String.append (byte_hex b) (hex_of bytes)
  end.
Definition to_hex (self : TxHash) : string := hex_of (hash_bytes self).

(** [char::to_digit(16)]. *)
Definition to_digit (c : Ascii.ascii) : option Z :=
  let n := Z.of_N (Ascii.N_of_ascii c) in
  if (48 <=? n) && (n <=? 57) then Some (n - 48)
  else if (97 <=? n) && (n <=? 102) then Some (n - 87)
  else if (65 <=? n) && (n <=? 70) then Some (n - 55)
  else None.

Fixpoint digits (acc : Z) (text : string) : option Z :=
  match text with
  | EmptyString => Some acc
  | String c text => d ← to_digit c; let v := 16 * acc + d in
      if 255 <? v then None else digits v text
  end.

(** [u8::from_str_radix(text, 16)]: an optional plus sign, then at least one
    digit. *)
Definition from_str_radix_16 (text : string) : option Z :=
  match text with
  | EmptyString => None
  | String c rest =>
      if bool_decide (c = "+"%char) then
        match rest with EmptyString => None | _ => digits 0 rest end
      else digits 0 text
  end.

(** [std::str::from_utf8] of two bytes. *)
Definition utf8_pair (a b : Ascii.ascii) : bool :=
  let a := Z.of_N (Ascii.N_of_ascii a) in
  let b := Z.of_N (Ascii.N_of_ascii b) in
  ((a <? 128) && (b <? 128)) ||
  ((194 <=? a) && (a <=? 223) && (128 <=? b) && (b <=? 191)).

(** ** Ledger windows *)

Record LedgerWindow : Type := mkLedgerWindow { min_ledger : Z; max_ledger : Z }.

(** ** Errors *)

Inductive ChainError `{Xdr} : Type :=
| Transport (e : TransportError)
| Http (status : Z)
| Rpc (code : Z) (message : string)
| Shape (message : string)
| LedgerMoved (first second : Z)
| NoAccount (account : string)
| XdrFailure (e : XdrError XdrLibraryError)
| MathFailure (e : MathError)
| Config (what : string)
| SecretKey
| Simulation_ (message : string) (contract_error : option Z)
| Restore (message : string)
| RestoreUnknown (hash : TxHash) (sequence : Z) (window : LedgerWindow)
| Rejected (message : string)
| BadSequence.

(** [LedgerWindow::try_new]. *)
Definition window_try_new `{Xdr} (min_ledger max_ledger : Z) : result ChainError LedgerWindow :=
  if min_ledger <? max_ledger then Ok (mkLedgerWindow min_ledger max_ledger)
  else Err (Config "a ledger window needs min_ledger < max_ledger").

Section from_hex.
Context `{Xdr}.
(** [{:?}] of a string, which only the error's text carries. *)
Context (debug_str : string → string).

Fixpoint from_pairs (text : string) : result ChainError (list Z) :=
  match text with
  | String a (String b rest) =>
      let pair := String a (String b EmptyString) in
      guard utf8_pair a b else Shape "transaction hash is not ascii";
      let? byte := ok_or (from_str_radix_16 pair)
        (Shape (String.append "transaction hash digit " (debug_str pair))) in
      let? bytes := from_pairs rest in
      Ok (byte :: bytes)
  | _ => Ok []
  end.

(** [TxHash::from_hex]. *)
Definition from_hex (text : string) : result ChainError TxHash :=
  guard (String.length text =? 64)%nat
    else Shape (String.append "transaction hash has "
      (String.append (pretty (Z.of_nat (String.length text))) " characters, expected 64"));
  let? bytes := from_pairs text in
  Ok (mkTxHash bytes).
End from_hex.

(** ** What the RPC answers *)

Section answers.
Context `{Xdr}.

Record Account : Type := mkAccount { ac_sequence : Z; ac_latest_ledger : Z }.

Record FeeStats : Type := mkFeeStats {
  soroban_percentile_70 : Z;
  soroban_percentile_90 : Z;
  fs_latest_ledger : Z;
}.

Record RestorePreamble : Type := mkRestorePreamble {
  rp_transaction_data : SorobanTransactionData;
  rp_min_resource_fee : Z;
}.

Record SimulatedCall : Type := mkSimulatedCall {
  sc_return_value : ScVal;
  sc_auth : list SorobanAuthorizationEntry;
  sc_transaction_data : SorobanTransactionData;
  sc_min_resource_fee : Z;
  sc_restore : option RestorePreamble;
}.

Inductive SimulationOutcome : Type :=
| SimSuccess (call : SimulatedCall)
| SimFailure (message : string) (contract_error : option Z).

Record Simulation : Type := mkSimulation {
  sim_latest_ledger : Z;
  sim_events : list DiagnosticEvent;
  sim_outcome : SimulationOutcome;
}.

Inductive SendOutcome : Type :=
| Pending
| Duplicate
| TryAgainLater
| SendError (result : option TransactionResult) (contract_error : option Z).

Record SendStatus : Type := mkSendStatus {
  ss_hash : TxHash;
  ss_latest_ledger : Z;
  ss_outcome : SendOutcome;
}.

Inductive TransactionStatus : Type :=
| NotFound (latest_ledger oldest_ledger : Z)
| Success (ledger latest_ledger : Z) (return_value : option ScVal)
| Failed (ledger latest_ledger : Z) (result : TransactionResult) (contract_error : option Z).
End answers.

(** ** Lemmas: hashes *)

Definition is_byte (b : Z) : Prop := 0 ≤ b < 256.

Definition wf_hash (h : TxHash) : Prop := length (hash_bytes h) = 32%nat ∧ Forall is_byte (hash_bytes h).

(** Every byte, one by one. *)
Definition all_bytes : list Z := seqZ 0 256.

Lemma is_byte_in b : is_byte b ↔ b ∈ all_bytes.
Proof. unfold all_bytes. rewrite elem_of_seqZ. unfold is_byte. lia. Qed.

Definition to_upper (c : Ascii.ascii) : Ascii.ascii :=
  let n := Ascii.N_of_ascii c in
  if ((97 <=? n) && (n <=? 122))%N then Ascii.ascii_of_N (n - 32) else c.

Fixpoint upper (s : string) : string :=
  match s with EmptyString => EmptyString | String c s => String (to_upper c) (upper s) end.

Definition byte_reads (b : Z) : bool :=
  match byte_hex b with
  | String x (String y EmptyString) =>
      utf8_pair x y && utf8_pair (to_upper x) (to_upper y) &&
      bool_decide (from_str_radix_16 (byte_hex b) = Some b) &&
      bool_decide (from_str_radix_16 (upper (byte_hex b)) = Some b)
  | _ => false
  end.

Lemma all_bytes_read : forallb byte_reads all_bytes = true.
Proof. vm_compute. reflexivity. Qed.

Lemma byte_reads_true b : is_byte b → byte_reads b = true.
Proof.
  intros Hb. pose proof all_bytes_read as H. rewrite forallb_forall in H.
  apply H, list_elem_of_In. by apply is_byte_in.
Qed.

Lemma from_pairs_step `{Xdr} debug_str x y rest v bytes :
  utf8_pair x y = true → from_str_radix_16 (String x (String y EmptyString)) = Some v →
  from_pairs debug_str rest = Ok bytes →
  from_pairs debug_str (String x (String y rest)) = Ok (v :: bytes).
Proof.
  intros Hu Hv Hr. cbn [from_pairs]. rewrite Hu. cbv zeta. rewrite Hv. cbn [ok_or rbind].
  by rewrite Hr.
Qed.

Lemma from_pairs_hex `{Xdr} debug_str bytes :
  Forall is_byte bytes →
  from_pairs debug_str (hex_of bytes) = Ok bytes ∧
  from_pairs debug_str (upper (hex_of bytes)) = Ok bytes.
Proof.
  induction 1 as [|b bytes Hb _ [IH1 IH2]]; [done|].
  pose proof (byte_reads_true b Hb) as Hr. unfold byte_reads, byte_hex in Hr.
  apply andb_true_iff in Hr as [[[H1 H2]%andb_true_iff H3]%andb_true_iff H4].
  apply bool_decide_eq_true in H3, H4.
  split; apply from_pairs_step; done.
Qed.

Lemma length_hex bytes : String.length (hex_of bytes) = (2 * length bytes)%nat.
Proof.
  induction bytes as [|b bytes IH]; [done|].
  change (S (S (String.length (hex_of bytes))) = (2 * S (length bytes))%nat). rewrite IH. lia.
Qed.

Lemma length_upper s : String.length (upper s) = String.length s.
Proof. induction s as [|c s IH]; simpl; [done|]. by rewrite IH. Qed.

Lemma digits_range acc text v : 0 ≤ acc → digits acc text = Some v → acc ≤ 255 → is_byte v.
Proof.
  revert acc. induction text as [|c text IH]; intros acc Ha H Hle.
  { injection H as <-. unfold is_byte. lia. }
  simpl in H. apply bind_Some in H as (d & Hd & H).
  assert (0 ≤ d) by (unfold to_digit in Hd; repeat case_match; simplify_eq; lia).
  destruct (Z.ltb_spec 255 (16 * acc + d)); [done|]. eapply IH; [|exact H|]; lia.
Qed.

Lemma from_pairs_ok `{Xdr} debug_str n text bytes :
  String.length text = (2 * n)%nat → from_pairs debug_str text = Ok bytes →
  length bytes = n ∧ Forall is_byte bytes.
Proof.
  revert text bytes. induction n as [|n IH]; intros text bytes Hlen Hok.
  { destruct text; [|done]. by injection Hok as <-. }
  destruct text as [|a [|b text]]; [done|simpl in Hlen; lia|].
  cbn [from_pairs] in Hok. destruct (utf8_pair a b); [|done].
  apply bind_ok in Hok as (byte & Hb & Hok). apply ok_or_ok in Hb.
  apply bind_ok in Hok as (rest & Hr & Hok). injection Hok as <-.
  simpl in Hlen. destruct (IH text rest) as [Hl Hf]; [lia|done|].
  split; [simpl; lia|]. constructor; [|done]. unfold from_str_radix_16 in Hb.
  case_bool_decide; by eapply digits_range in Hb.
Qed.

(** ** Properties *)

(** A hash survives the wire. Rendering a transaction hash gives 64
    hexadecimal digits that parse back to it, in either case; and whatever
    parses has exactly 64 characters and gives 32 bytes. *)
Theorem tx_hash_round_trip `{Xdr} (debug_str : string → string) (h : TxHash) (text : string)
  (Hwf : wf_hash h) :
  String.length (to_hex h) = 64%nat ∧
  from_hex debug_str (to_hex h) = Ok h ∧ from_hex debug_str (upper (to_hex h)) = Ok h ∧
  (∀ h', from_hex debug_str text = Ok h' → String.length text = 64%nat ∧ wf_hash h').
Proof.
  destruct h as [bytes], Hwf as [Hlen Hb]. simpl in *. unfold to_hex. simpl.
  destruct (from_pairs_hex debug_str bytes Hb) as [H1 H2].
  unfold from_hex. rewrite length_upper, length_hex, Hlen. simpl.
  rewrite H1, H2. split_and!; [done..|]. intros h' Hh.
  destruct (Nat.eqb_spec (String.length text) 64) as [He|]; [|done].
  apply bind_ok in Hh as (bs & Hbs & Hh). injection Hh as <-. split; [done|].
  by apply (from_pairs_ok _ 32) in Hbs.
Qed.

(** A concrete reading of the other crates. *)
#[global] Instance unit_xdr : Xdr := {|
  Operation := string; ScVal := Z; SorobanTransactionData := Z; SorobanAuthorizationEntry := Z;
  DiagnosticEvent := (); TransactionResult := bool; TransactionEnvelope := string * Z * Z;
  XdrLibraryError := (); TransportError := (); is_bad_seq := λ b, b;
  invoke_auth := λ _, Some []; set_invoke_auth := λ _ o, o; restore_footprint := "restore"
|}.

Lemma tx_hash_round_trip_witness :
  from_hex id (upper (to_hex (mkTxHash (seqZ 171 32)))) = Ok (mkTxHash (seqZ 171 32)).
Proof.
  assert (wf_hash (mkTxHash (seqZ 171 32))) as Hwf.
  { split; [vm_compute; reflexivity|]. simpl. apply Forall_forall. intros b Hb.
    apply elem_of_seqZ in Hb. unfold is_byte. lia. }
  destruct (tx_hash_round_trip id (mkTxHash (seqZ 171 32)) EmptyString Hwf) as (_ & _ & H & _).
  exact H.
Defined.

(** A character that is not a digit is not always refused. A plus sign
    in front of one digit parses, since that is what the integer parser
    accepts, so 64 characters that are no hash read as one. *)
Theorem tx_hash_accepts_a_sign `{Xdr} (debug_str : string → string) :
  from_hex debug_str
    "+f00000000000000000000000000000000000000000000000000000000000000"
  = Ok (mkTxHash (15 :: replicate 31 0)).
Proof. vm_compute. reflexivity. Qed.
