(* ===== verification/Operations.v ===== *)
(** * The operations the bot sends ([src/chain/xdr/encode.rs],
    [src/chain/pool.rs])

    The pool's three calls, packed into the values of [stellar_xdr]. Those
    values and the conversions that crate defines on them are class
    [ScValues]; what is packed into what, and which failure surfaces, is the
    program's. *)

From S2P Require Import Prelude Fixed Encode Chain.
Open Scope Z_scope.

Class ScValues `{Xdr} : Type := {
  ScSymbol : Type;
  ScAddress : Type;
  (** [ScSymbol::try_from] and [ScAddress]'s [FromStr]. *)
  sc_symbol_try_from : string → option ScSymbol;
  sc_address_parse : string → result XdrLibraryError ScAddress;
  (** The variants of [ScVal] the program builds. *)
  scv_symbol : ScSymbol → ScVal;
  scv_address : ScAddress → ScVal;
  scv_u32 : Z → ScVal;
  scv_i128 : Z → ScVal;
  (** [ScVal::Vec] of [ScVec::try_from], [ScVal::Map] of [ScMap::sorted_from]. *)
  scv_vec : list ScVal → result XdrLibraryError ScVal;
  scv_map : list (ScVal * ScVal) → result XdrLibraryError ScVal;
  (** The [InvokeHostFunction] operation with no authorisation, whose argument
      vector is bounded. *)
  invoke_host_function : ScAddress → ScSymbol → list ScVal → result XdrLibraryError Operation;
}.

Section operations.
Context `{ScValues}.

Abbreviation xresult A := (result (XdrError XdrLibraryError) A).

Definition from_xdr {A : Type} (r : result XdrLibraryError A) : xresult A := map_err Encode.Xdr r.

Definition symbol_of (text : string) : xresult ScSymbol :=
  ok_or (sc_symbol_try_from text) (XdrSymbol text).

(** [symbol], [sc_address], [address], [vec], [map], [i128_val],
    [stellar_asset]. *)
Definition symbol (text : string) : xresult ScVal :=
  let? s := symbol_of text in Ok (scv_symbol s).
Definition sc_address (strkey : string) : xresult ScAddress := from_xdr (sc_address_parse strkey).
Definition address (strkey : string) : xresult ScVal :=
  let? a := sc_address strkey in Ok (scv_address a).
Definition vec (items : list ScVal) : xresult ScVal := from_xdr (scv_vec items).
Definition map_val (entries : list (ScVal * ScVal)) : xresult ScVal := from_xdr (scv_map entries).
Definition i128_val (value : Z) : ScVal := scv_i128 value.

Definition stellar_asset (asset : string) : xresult ScVal :=
  let? s := symbol "Stellar" in
  let? a := address asset in
  vec [s; a].

(** [invoke_contract_op]. *)
Definition invoke_contract_op (contract function : string) (args : list ScVal)
  : xresult Operation :=
  let? function_name := symbol_of function in
  let? contract_address := sc_address contract in
  from_xdr (invoke_host_function contract_address function_name args).

(** [request]. *)
Definition request (r : Request) : xresult ScVal :=
  let? k_address := symbol "address" in
  let? v_address := address (Encode.address r) in
  let? k_amount := symbol "amount" in
  let? k_type := symbol "request_type" in
  map_val [(k_address, v_address); (k_amount, i128_val (amount r));
           (k_type, scv_u32 (request_type_code (request_type r)))].

(** [iter().map(f).collect::<Result<Vec<_>, _>>()]. *)
Definition collect {E A B : Type} (f : A → result E B) (l : list A) : result E (list B) :=
  try_fold (λ bs a, let? b := f a in Ok (bs ++ [b])) [] l.

(** [submit_op], [new_auction_op] and [bad_debt_op]. *)
Definition submit_op (pool from spender to : string) (requests : list Request)
  : xresult Operation :=
  let? requests := collect request requests in
  let? from := address from in
  let? spender := address spender in
  let? to := address to in
  let? requests := vec requests in
  invoke_contract_op pool "submit" [from; spender; to; requests].

Definition new_auction_op (pool user : string) (bid lot : list string) (percent : FillPercent)
  : xresult Operation :=
  let addresses := λ assets, let? l := collect address assets in vec l in
  let? user := address user in
  let? bid := addresses bid in
  let? lot := addresses lot in
  invoke_contract_op pool "new_auction"
    [scv_u32 (auction_type_code UserLiquidation); user; bid; lot; scv_u32 (fp_get percent)].

Definition bad_debt_op (pool user : string) : xresult Operation :=
  let? user := address user in
  invoke_contract_op pool "bad_debt" [user].
End operations.

(** [collect] answers each element's result, in order. *)
Lemma collect_ok {E A B : Type} (f : A → result E B) l bs :
  collect f l = Ok bs → Forall2 (λ a b, f a = Ok b) l bs.
Proof.
  intros Hc. apply (try_fold_prefix _ (λ l bs, Forall2 (λ a b, f a = Ok b) l bs)) in Hc;
    [done|constructor|].
  intros l1 a l2 x y _ Hx (b & Hb & [= <-])%bind_ok.
  apply Forall2_app; [done|]. by repeat constructor.
Qed.
