(* ===== verification/Decode.v ===== *)
(** * Ledger entries and their keys ([src/chain/xdr/decode.rs],
    [src/chain/xdr/keys.rs])

    The bot's decoders and ledger keys. Which variant a value of [stellar_xdr]
    is belongs to that crate: [scv_case] is what a [match] on it sees. What is
    read from which field, at which width, and which failure surfaces, is the
    program's. *)

From S2P Require Import Prelude Fixed Reserve Position Auction Encode Chain Operations.
Open Scope Z_scope.

(** What a [match] on an [ScVal] sees of it, for the variants the program
    names; [Int128Parts] is its two halves. *)
Inductive ScCase (Val Symbol Address : Type) : Type :=
| CaseSymbol (s : Symbol)
| CaseAddress (a : Address)
| CaseU32 (n : Z)
| CaseU64 (n : Z)
| CaseI128 (hi lo : Z)
| CaseBool (b : bool)
| CaseString (text : string)
| CaseVec (items : option (list Val))
| CaseMap (entries : option (list (Val * Val)))
| CaseContractInstance (storage : option (list (Val * Val)))
| CaseVoid
| CaseOther.
Arguments CaseSymbol {_ _ _} s.
Arguments CaseAddress {_ _ _} a.
Arguments CaseU32 {_ _ _} n.
Arguments CaseU64 {_ _ _} n.
Arguments CaseI128 {_ _ _} hi lo.
Arguments CaseBool {_ _ _} b.
Arguments CaseString {_ _ _} text.
Arguments CaseVec {_ _ _} items.
Arguments CaseMap {_ _ _} entries.
Arguments CaseContractInstance {_ _ _} storage.
Arguments CaseVoid {_ _ _}.
Arguments CaseOther {_ _ _}.

(** The depth and length an XDR read or write is bounded to. *)
Record Limits : Type := mkLimits { lim_depth : Z; lim_len : Z }.
Definition XDR_LIMITS : Limits := mkLimits 500 1048576.

Class ScDecode `{ScValues} : Type := {
  scv_case : ScVal → ScCase ScVal ScSymbol ScAddress;
  (** [to_utf8_string_lossy] of a symbol, [to_string] of an address, and the
      [{:?}] renderings the error texts carry. *)
  sc_symbol_text : ScSymbol → string;
  sc_address_text : ScAddress → string;
  debug_scval : ScVal → string;
  debug_sc_entry : ScVal * ScVal → string;
  LedgerEntryData : Type;
  (** The value of [LedgerEntryData::ContractData]. *)
  contract_data_val : LedgerEntryData → option ScVal;
  debug_entry : LedgerEntryData → string;
  LedgerKey : Type;
  ledger_key_contract_data : ScAddress → ScVal → bool → LedgerKey;
  scv_ledger_key_contract_instance : ScVal;
  (** [to_xdr_base64] of a key, [from_xdr_base64] of an entry. *)
  key_to_xdr_base64 : Limits → LedgerKey → result XdrLibraryError string;
  entry_from_xdr_base64 : Limits → string → result XdrLibraryError LedgerEntryData;
  (** The v1 envelope, without a signature, of a transaction of one operation
      with no preconditions and no memo: its source's key, fee and sequence
      number. *)
  unsigned_envelope : list Z → Z → Z → Operation → result XdrLibraryError TransactionEnvelope;
  (** An [ScVal] holds its integers at their width. *)
  scv_case_u32 v n : scv_case v = CaseU32 n → is_u32 n;
  scv_case_u64 v n : scv_case v = CaseU64 n → is_u64 n;
  scv_case_i128 v hi lo : scv_case v = CaseI128 hi lo →
    - 2 ^ 63 ≤ hi < 2 ^ 63 ∧ is_u64 lo;
}.

(** ** Data *)

Inductive PoolStatus : Type :=
| AdminActive | Active | AdminOnIce | OnIce | AdminFrozen | Frozen | Setup.

(** [PoolStatus::code]. *)
Definition pool_status_code (self : PoolStatus) : Z :=
  match self with
  | AdminActive => 0 | Active => 1 | AdminOnIce => 2 | OnIce => 3
  | AdminFrozen => 4 | Frozen => 5 | Setup => 6
  end.

(** [PoolStatus::try_from]. *)
Definition pool_status_try_from {X : Type} (value : Z) : result (XdrError X) PoolStatus :=
  if value =? 0 then Ok AdminActive
  else if value =? 1 then Ok Active
  else if value =? 2 then Ok AdminOnIce
  else if value =? 3 then Ok OnIce
  else if value =? 4 then Ok AdminFrozen
  else if value =? 5 then Ok Frozen
  else if value =? 6 then Ok Setup
  else Err (XdrShape "pool status 0..=6" (pretty.pretty value)).

Record PoolConfig : Type := mkPoolConfig {
  pc_oracle : string;
  pc_bstop_rate : Z;
  pc_status : PoolStatus;
  pc_max_positions : Z;
  pc_min_collateral : Z;
}.

Record PoolInstance : Type := mkPoolInstance {
  pi_admin : string;
  pi_backstop : string;
  pi_blnd_token : string;
  pi_name : string;
  pi_config : PoolConfig;
}.

Record PriceData : Type := mkPriceData { pd_price : Z; pd_timestamp : Z }.

Section decode.
Context `{ScDecode}.

Abbreviation xresult A := (result (XdrError XdrLibraryError) A).
Abbreviation Fields := (gmap string ScVal).

(** [shape]. *)
Definition shape {A : Type} (expected : string) (got : ScVal) : xresult A :=
  Err (XdrShape expected (debug_scval got)).

Definition contract_value (entry : LedgerEntryData) : xresult ScVal :=
  ok_or (contract_data_val entry) (XdrShape "contract data" (debug_entry entry)).

(** [as_i128]: the signed high half above the unsigned low one. *)
Definition as_i128 (hi lo : Z) : Z := Z.lor (Z.shiftl hi 64) lo.

(** [.map(f).collect()] into a [Result<BTreeMap<_, _>, _>]: the first failure
    wins, and so does the last entry of a key. *)
Definition collect_map {K V A E : Type} `{Countable K} (f : A → result E (K * V)) (l : list A)
  : result E (gmap K V) :=
  try_fold (λ m a, let? (k, v) := f a in Ok (<[k := v]> m)) ∅ l.

Definition fields (value : ScVal) : xresult Fields :=
  match scv_case value with
  | CaseMap (Some entries) =>
      collect_map (λ entry,
        match scv_case entry.1 with
        | CaseSymbol name => Ok (sc_symbol_text name, entry.2)
        | _ => shape "symbol key" entry.1
        end) entries
  | _ => shape "struct map" value
  end.

Definition field (fields : Fields) (name : string) : xresult ScVal :=
  ok_or (fields !! name) (XdrMissingField name).

Definition u32_field (fields : Fields) (name : string) : xresult Z :=
  let? v := field fields name in
  match scv_case v with CaseU32 value => Ok value | _ => shape "u32" v end.

Definition u64_field (fields : Fields) (name : string) : xresult Z :=
  let? v := field fields name in
  match scv_case v with CaseU64 value => Ok value | _ => shape "u64" v end.

Definition i128_field (fields : Fields) (name : string) : xresult Z :=
  let? v := field fields name in
  match scv_case v with CaseI128 hi lo => Ok (as_i128 hi lo) | _ => shape "i128" v end.

Definition bool_field (fields : Fields) (name : string) : xresult bool :=
  let? v := field fields name in
  match scv_case v with CaseBool value => Ok value | _ => shape "bool" v end.

Definition address_field (fields : Fields) (name : string) : xresult string :=
  let? v := field fields name in
  match scv_case v with CaseAddress a => Ok (sc_address_text a) | _ => shape "address" v end.

(** One entry of a side of [Positions], and of [AuctionData]. *)
Definition index_entry (entry : ScVal * ScVal) : xresult (Z * Z) :=
  match scv_case entry.1, scv_case entry.2 with
  | CaseU32 index, CaseI128 hi lo => Ok (index, as_i128 hi lo)
  | _, _ => Err (XdrShape "u32 to i128 entry" (debug_sc_entry entry))
  end.

Definition index_map (value : ScVal) : xresult (gmap Z Z) :=
  match scv_case value with
  | CaseMap (Some entries) => collect_map index_entry entries
  | _ => shape "index map" value
  end.

Definition address_entry (entry : ScVal * ScVal) : xresult (string * Z) :=
  match scv_case entry.1, scv_case entry.2 with
  | CaseAddress asset, CaseI128 hi lo => Ok (sc_address_text asset, as_i128 hi lo)
  | _, _ => Err (XdrShape "address to i128 entry" (debug_sc_entry entry))
  end.

Definition address_map (value : ScVal) : xresult (gmap string Z) :=
  match scv_case value with
  | CaseMap (Some entries) => collect_map address_entry entries
  | _ => shape "address map" value
  end.

(** The symbol-keyed part of the instance's storage. *)
Definition instance_storage (storage : option (list (ScVal * ScVal))) : Fields :=
  foldl (λ m entry,
    match scv_case entry.1 with
    | CaseSymbol name => <[sc_symbol_text name := entry.2]> m
    | _ => m
    end) ∅ (default [] storage).

Definition pool_instance (entry : LedgerEntryData) : xresult PoolInstance :=
  let? value := contract_value entry in
  match scv_case value with
  | CaseContractInstance stored =>
      let storage := instance_storage stored in
      let? config := field storage "Config" in
      let? config_fields := fields config in
      let? name_value := field storage "Name" in
      let? name := match scv_case name_value with
                   | CaseString text => Ok text
                   | _ => shape "string" name_value
                   end in
      let? admin := address_field storage "Admin" in
      let? backstop := address_field storage "Backstop" in
      let? blnd_token := address_field storage "BLNDTkn" in
      let? oracle := address_field config_fields "oracle" in
      let? bstop_rate := u32_field config_fields "bstop_rate" in
      let? code := u32_field config_fields "status" in
      let? status := pool_status_try_from code in
      let? max_positions := u32_field config_fields "max_positions" in
      let? min_collateral := i128_field config_fields "min_collateral" in
      Ok (mkPoolInstance admin backstop blnd_token name
            (mkPoolConfig oracle bstop_rate status max_positions min_collateral))
  | _ => Err (XdrShape "contract instance" (debug_entry entry))
  end.

Definition reserve_list (entry : LedgerEntryData) : xresult (list string) :=
  let? value := contract_value entry in
  match scv_case value with
  | CaseVec (Some items) =>
      collect (λ item, match scv_case item with
                       | CaseAddress a => Ok (sc_address_text a)
                       | _ => shape "address" item
                       end) items
  | _ => shape "vector of addresses" value
  end.

(** The [_value] decoders read a value wherever it came from, the others the
    value of a stored entry. *)
Definition reserve_config_value (value : ScVal) : xresult ReserveConfig :=
  let? fields := fields value in
  let? index := u32_field fields "index" in
  let? decimals := u32_field fields "decimals" in
  let? c_factor := u32_field fields "c_factor" in
  let? l_factor := u32_field fields "l_factor" in
  let? util := u32_field fields "util" in
  let? max_util := u32_field fields "max_util" in
  let? r_base := u32_field fields "r_base" in
  let? r_one := u32_field fields "r_one" in
  let? r_two := u32_field fields "r_two" in
  let? r_three := u32_field fields "r_three" in
  let? reactivity := u32_field fields "reactivity" in
  let? supply_cap := i128_field fields "supply_cap" in
  let? enabled := bool_field fields "enabled" in
  Ok (mkReserveConfig index decimals c_factor l_factor util max_util r_base r_one r_two r_three
        reactivity supply_cap enabled).

Definition reserve_data_value (value : ScVal) : xresult ReserveData :=
  let? fields := fields value in
  let? d_rate := i128_field fields "d_rate" in
  let? b_rate := i128_field fields "b_rate" in
  let? ir_mod := i128_field fields "ir_mod" in
  let? b_supply := i128_field fields "b_supply" in
  let? d_supply := i128_field fields "d_supply" in
  let? backstop_credit := i128_field fields "backstop_credit" in
  let? last_time := u64_field fields "last_time" in
  Ok (mkReserveData d_rate b_rate ir_mod b_supply d_supply backstop_credit last_time).

Definition reserve_value (value : ScVal) : xresult Reserve :=
  let? fields := fields value in
  let? asset := address_field fields "asset" in
  let? config := field fields "config" in
  let? config := reserve_config_value config in
  let? data := field fields "data" in
  let? data := reserve_data_value data in
  let? scalar := i128_field fields "scalar" in
  Ok (mkReserve asset config data scalar).

Definition positions_value (value : ScVal) : xresult Positions :=
  let? fields := fields value in
  let? collateral := field fields "collateral" in
  let? collateral := index_map collateral in
  let? liabilities := field fields "liabilities" in
  let? liabilities := index_map liabilities in
  let? supply := field fields "supply" in
  let? supply := index_map supply in
  Ok (mkPositions collateral liabilities supply).

Definition auction_value (value : ScVal) : xresult AuctionData :=
  let? fields := fields value in
  let? bid := field fields "bid" in
  let? bid := address_map bid in
  let? lot := field fields "lot" in
  let? lot := address_map lot in
  let? block := u32_field fields "block" in
  Ok (mkAuctionData bid lot block).

Definition stored {A : Type} (decode : ScVal → xresult A) (entry : LedgerEntryData) : xresult A :=
  let? value := contract_value entry in decode value.

Definition reserve_config : LedgerEntryData → xresult ReserveConfig := stored reserve_config_value.
Definition reserve_data : LedgerEntryData → xresult ReserveData := stored reserve_data_value.
Definition positions : LedgerEntryData → xresult Positions := stored positions_value.
Definition auction : LedgerEntryData → xresult AuctionData := stored auction_value.

(** [price_data]: [None] is the oracle's own [None]. *)
Definition price_data (value : ScVal) : xresult (option PriceData) :=
  match scv_case value with
  | CaseVoid => Ok None
  | _ =>
      let? fields := fields value in
      let? price := i128_field fields "price" in
      let? timestamp := u64_field fields "timestamp" in
      Ok (Some (mkPriceData price timestamp))
  end.

Definition decimals (value : ScVal) : xresult Z :=
  match scv_case value with CaseU32 n => Ok n | _ => shape "u32" value end.

(** ** Ledger keys ([src/chain/xdr/keys.rs]) *)

Inductive Durability : Type := Persistent | Temporary.

Definition contract_data (pool : string) (key : ScVal) (durability : Durability)
  : xresult LedgerKey :=
  let? contract := sc_address pool in
  Ok (ledger_key_contract_data contract key
        match durability with Persistent => true | Temporary => false end).

Definition instance_key (pool : string) : xresult LedgerKey :=
  contract_data pool scv_ledger_key_contract_instance Persistent.

Definition reserve_list_key (pool : string) : xresult LedgerKey :=
  let? key := symbol "ResList" in contract_data pool key Persistent.

(** A key of a name and an address, in persistent storage. *)
Definition named_key (name pool addressee : string) : xresult LedgerKey :=
  let? name := symbol name in
  let? addressee := address addressee in
  let? key := vec [name; addressee] in
  contract_data pool key Persistent.

Definition reserve_config_key (pool asset : string) : xresult LedgerKey :=
  named_key "ResConfig" pool asset.
Definition reserve_data_key (pool asset : string) : xresult LedgerKey :=
  named_key "ResData" pool asset.
Definition positions_key (pool user : string) : xresult LedgerKey :=
  named_key "Positions" pool user.

Definition auction_key (pool user : string) (auction_type : AuctionType) : xresult LedgerKey :=
  let? k_type := symbol "auct_type" in
  let? k_user := symbol "user" in
  let? v_user := address user in
  let? key := map_val [(k_type, scv_u32 (auction_type_code auction_type)); (k_user, v_user)] in
  let? name := symbol "Auction" in
  let? key := vec [name; key] in
  contract_data pool key Temporary.

(** [to_base64] of a key and [from_base64] of an entry. *)
Definition to_base64 (key : LedgerKey) : xresult string := from_xdr (key_to_xdr_base64 XDR_LIMITS key).
Definition from_base64 (text : string) : xresult LedgerEntryData :=
  from_xdr (entry_from_xdr_base64 XDR_LIMITS text).

(** [simulation_envelope]: the RPC checks neither the source nor its sequence
    number when it simulates. *)
Definition simulation_envelope (operation : Operation) : xresult TransactionEnvelope :=
  from_xdr (unsigned_envelope (replicate 32 0) 100 0 operation).
End decode.

(** ** Well-typed values

    What is decoded holds its integers at the width of the contract's type. *)

Definition typed_side (m : gmap Z Z) : Prop := map_Forall (λ i a, is_u32 i ∧ is_i128 a) m.

Record typed_positions (p : Positions) : Prop := mkTypedPositions {
  typed_collateral : typed_side (collateral p);
  typed_liabilities : typed_side (liabilities p);
  typed_supply : typed_side (supply p);
}.

Record typed_auction (a : AuctionData) : Prop := mkTypedAuction {
  typed_bid : map_Forall (λ _ v, is_i128 v) (bid a);
  typed_lot : map_Forall (λ _ v, is_i128 v) (lot a);
  typed_block : is_u32 (block a);
}.

Record typed_config (c : ReserveConfig) : Prop := mkTypedConfig {
  typed_u32s : Forall is_u32
    [rc_index c; rc_decimals c; rc_c_factor c; rc_l_factor c; rc_util c; rc_max_util c;
     rc_r_base c; rc_r_one c; rc_r_two c; rc_r_three c; rc_reactivity c];
  typed_supply_cap : is_i128 (rc_supply_cap c);
}.

Record typed_data (d : ReserveData) : Prop := mkTypedData {
  typed_i128s : Forall is_i128
    [rd_d_rate d; rd_b_rate d; rd_ir_mod d; rd_b_supply d; rd_d_supply d; rd_backstop_credit d];
  typed_last_time : is_u64 (rd_last_time d);
}.

Section typed.
Context `{ScDecode}.

Lemma as_i128_value hi lo : is_u64 lo → as_i128 hi lo = hi * 2 ^ 64 + lo.
Proof.
  intros Hlo. unfold as_i128. assert (Z.land (Z.shiftl hi 64) lo = 0) as Hland.
  { apply Z.bits_inj'. intros n Hn. rewrite Z.land_spec, Z.bits_0.
    destruct (decide (n < 64)) as [Hlt|Hge].
    - rewrite Z.shiftl_spec_low by lia. done.
    - assert (2 ^ 64 ≤ 2 ^ n) by (apply Z.pow_le_mono_r; lia).
      assert (Z.testbit lo n = false) as ->; [|apply andb_false_r].
      apply Z.testbit_false; [lia|]. rewrite Z.div_small; [done|]. widths. lia. }
  rewrite <- Z.lxor_lor, <- Z.add_nocarry_lxor by done. by rewrite Z.shiftl_mul_pow2 by lia.
Qed.

Lemma as_i128_typed v hi lo : scv_case v = CaseI128 hi lo → is_i128 (as_i128 hi lo).
Proof.
  intros Hv. apply scv_case_i128 in Hv as [Hhi Hlo]. rewrite as_i128_value by done.
  widths. lia.
Qed.

Lemma u32_field_typed fs name n : u32_field fs name = Ok n → is_u32 n.
Proof.
  unfold u32_field. intros Hf. rust_inv. destruct (scv_case x) eqn:E; simplify_eq/=.
  by eapply scv_case_u32.
Qed.

Lemma u64_field_typed fs name n : u64_field fs name = Ok n → is_u64 n.
Proof.
  unfold u64_field. intros Hf. rust_inv. destruct (scv_case x) eqn:E; simplify_eq/=.
  by eapply scv_case_u64.
Qed.

Lemma i128_field_typed fs name n : i128_field fs name = Ok n → is_i128 n.
Proof.
  unfold i128_field. intros Hf. rust_inv. destruct (scv_case x) eqn:E; simplify_eq/=.
  by eapply as_i128_typed.
Qed.

Lemma collect_map_all {K V A E} `{Countable K} (P : K → V → Prop) (f : A → result E (K * V))
    (l : list A) m :
  (∀ a k v, f a = Ok (k, v) → P k v) → collect_map f l = Ok m → map_Forall P m.
Proof.
  intros Hf Hm. unfold collect_map in Hm.
  eapply (try_fold_inv _ (λ m, map_Forall P m)); [apply map_Forall_empty| |exact Hm].
  intros b b' a _ Hb Hstep. apply bind_ok in Hstep as ([k v] & Ha & [= <-]).
  apply map_Forall_insert_2; eauto.
Qed.

Lemma index_map_typed v m : index_map v = Ok m → typed_side m.
Proof.
  unfold index_map. destruct (scv_case v) as [| | | | | | | |[l|]| | |]; try done.
  apply collect_map_all. unfold index_entry. intros [a b] i n. simpl.
  destruct (scv_case a) eqn:Ea; try done. destruct (scv_case b) eqn:Eb; try done.
  intros [= <- <-]. eauto using scv_case_u32, as_i128_typed.
Qed.

Lemma address_map_typed v m : address_map v = Ok m → map_Forall (λ _ n, is_i128 n) m.
Proof.
  unfold address_map. destruct (scv_case v) as [| | | | | | | |[l|]| | |]; try done.
  apply collect_map_all. unfold address_entry. intros [a b] i n. simpl.
  destruct (scv_case a) eqn:Ea; try done. destruct (scv_case b) eqn:Eb; try done.
  intros [= <- <-]. eauto using as_i128_typed.
Qed.
#[local] Hint Resolve u32_field_typed u64_field_typed i128_field_typed index_map_typed
  address_map_typed : core.

Lemma stored_ok {A} (decode : ScVal → result (XdrError XdrLibraryError) A) entry a :
  stored decode entry = Ok a ↔
  ∃ v, contract_data_val entry = Some v ∧ decode v = Ok a.
Proof. unfold stored, contract_value. rewrite bind_ok. by setoid_rewrite ok_or_ok. Qed.

Lemma positions_value_typed v p : positions_value v = Ok p → typed_positions p.
Proof. unfold positions_value. intros Hp. rust_inv. subst. split; eauto. Qed.

Lemma auction_value_typed v a : auction_value v = Ok a → typed_auction a.
Proof. unfold auction_value. intros Ha. rust_inv. subst. split; eauto. Qed.

Lemma reserve_config_value_typed v c : reserve_config_value v = Ok c → typed_config c.
Proof.
  unfold reserve_config_value. intros Hc. rust_inv. subst.
  split; simpl; [|by eauto]. repeat (apply Forall_cons_2; [by eauto|]). done.
Qed.

Lemma reserve_data_value_typed v d : reserve_data_value v = Ok d → typed_data d.
Proof.
  unfold reserve_data_value. intros Hd. rust_inv. subst.
  split; simpl; [|by eauto]. repeat (apply Forall_cons_2; [by eauto|]). done.
Qed.
End typed.

(** ** A concrete reading of the values

    Values as trees, keys as their text, and stored entries as the names of a
    table's values. *)

Inductive Tree : Type :=
| TSymbol (s : string)
| TAddress (a : string)
| TU32 (n : Z)
| TU64 (n : Z)
| TI128 (n : Z)
| TBool (b : bool)
| TString (s : string)
| TVec (l : list Tree)
| TMap (l : list (Tree * Tree))
| TInstance (l : list (Tree * Tree))
| TVoid.

Definition tree_case (t : Tree) : ScCase Tree string string :=
  match t with
  | TSymbol s => CaseSymbol s
  | TAddress a => CaseAddress a
  | TU32 n => if in_u32 n then CaseU32 n else CaseOther
  | TU64 n => if in_u64 n then CaseU64 n else CaseOther
  | TI128 n => if in_i128 n then CaseI128 (n / 2 ^ 64) (n mod 2 ^ 64) else CaseOther
  | TBool b => CaseBool b
  | TString s => CaseString s
  | TVec l => CaseVec (Some l)
  | TMap l => CaseMap (Some l)
  | TInstance l => CaseContractInstance (Some l)
  | TVoid => CaseVoid
  end.

Fixpoint tree_text (t : Tree) : string :=
  match t with
  | TSymbol s | TAddress s | TString s => s
  | TU32 n | TU64 n | TI128 n => pretty.pretty n
  | TVec l => String.concat "," (map tree_text l)
  | TMap l => String.concat "," (map (λ e, tree_text e.2) l)
  | _ => EmptyString
  end.

#[global] Instance tree_xdr : Xdr := {|
  Operation := string * string * list Tree; ScVal := Tree; SorobanTransactionData := ();
  SorobanAuthorizationEntry := (); DiagnosticEvent := (); TransactionResult := bool;
  TransactionEnvelope := string * string * list Tree; XdrLibraryError := ();
  TransportError := (); is_bad_seq := λ b, b;
  invoke_auth := λ _, Some []; set_invoke_auth := λ _ o, o;
  restore_footprint := (EmptyString, "restore", [])
|}.

#[global] Instance tree_values : ScValues := {|
  ScSymbol := string; ScAddress := string; sc_symbol_try_from := Some; sc_address_parse := Ok;
  scv_symbol := TSymbol; scv_address := TAddress; scv_u32 := TU32; scv_i128 := TI128;
  scv_vec := λ l, Ok (TVec l); scv_map := λ l, Ok (TMap l);
  invoke_host_function := λ a s l, Ok (a, s, l)
|}.

Lemma tree_case_u32 t n : tree_case t = CaseU32 n → is_u32 n.
Proof.
  destruct t; simpl; try done; case_match; try done. intros [= <-].
  unfold in_u32, in_i128 in *. widths. lia.
Qed.

Lemma tree_case_u64 t n : tree_case t = CaseU64 n → is_u64 n.
Proof.
  destruct t; simpl; try done; case_match; try done. intros [= <-].
  unfold in_u64 in *. widths. lia.
Qed.

Lemma tree_case_i128 t hi lo : tree_case t = CaseI128 hi lo → - 2 ^ 63 ≤ hi < 2 ^ 63 ∧ is_u64 lo.
Proof.
  destruct t as [| | | |n| | | | | |]; simpl; try done; case_match eqn:Hr; try done.
  intros [= <- <-]. unfold in_i128 in Hr. widths.
  split; [|pose proof (Z.mod_pos_bound n (2 ^ 64)); lia].
  split; [apply Z.div_le_lower_bound; lia|apply Z.div_lt_upper_bound; lia].
Qed.

Definition tree_decode (table : string → option Tree) : ScDecode := {|
  scv_case := tree_case : ScVal → ScCase ScVal ScSymbol ScAddress;
  sc_symbol_text := id; sc_address_text := id; debug_scval := tree_text;
  debug_sc_entry := λ e, tree_text e.1;
  LedgerEntryData := string; contract_data_val := table; debug_entry := id;
  LedgerKey := string;
  ledger_key_contract_data := λ a key _, String.concat "/" [a; tree_text key];
  scv_ledger_key_contract_instance := TSymbol "instance";
  key_to_xdr_base64 := λ _, Ok; entry_from_xdr_base64 := λ _, Ok;
  unsigned_envelope := λ _ _ _, Ok;
  scv_case_u32 := tree_case_u32; scv_case_u64 := tree_case_u64; scv_case_i128 := tree_case_i128
|}.

Definition tree_side (l : list (Z * Z)) : Tree := TMap (map (λ '(i, a), (TU32 i, TI128 a)) l).

Definition tree_positions (c l s : list (Z * Z)) : Tree :=
  TMap [(TSymbol "collateral", tree_side c); (TSymbol "liabilities", tree_side l);
        (TSymbol "supply", tree_side s)].

(** ** Properties *)

(** Whatever the chain stores, a decoded entry holds every index, factor and
    ledger as a [u32], every time as a [u64] and every amount as an [i128]. *)
Theorem decoded_is_typed `{ScDecode} (entry : LedgerEntryData) :
  (∀ p, positions entry = Ok p → typed_positions p) ∧
  (∀ a, auction entry = Ok a → typed_auction a) ∧
  (∀ c, reserve_config entry = Ok c → typed_config c) ∧
  (∀ d, reserve_data entry = Ok d → typed_data d).
Proof.
  repeat split_and; intros x (v & _ & Hv)%stored_ok.
  - by eapply positions_value_typed.
  - by eapply auction_value_typed.
  - by eapply reserve_config_value_typed.
  - by eapply reserve_data_value_typed.
Qed.

Lemma decoded_is_typed_witness :
  typed_positions (mkPositions {[ 3 := - 5 ]} {[ 1 := i128_max ]} ∅).
Proof.
  apply (@decoded_is_typed _ _
    (tree_decode (λ _, Some (tree_positions [(3, - 5)] [(1, i128_max)] []))) EmptyString).
  vm_compute. reflexivity.
Defined.
