(* ===== verification/Events.v ===== *)
(** * Pool events ([src/chain/xdr/events.rs])

    What a contract event of the pool decodes to, and the accounts it may have
    changed. An event the bot does not model is no event; one it models, in a
    shape it does not, is an error. *)

From S2P Require Import Prelude Fixed Auction Encode Chain Operations Decode.
Open Scope Z_scope.

Inductive PoolEvent : Type :=
| EvSupply (asset from : string) (amount b_tokens : Z)
| EvWithdraw (asset from : string) (amount b_tokens : Z)
| EvSupplyCollateral (asset from : string) (amount b_tokens : Z)
| EvWithdrawCollateral (asset from : string) (amount b_tokens : Z)
| EvBorrow (asset from : string) (amount d_tokens : Z)
| EvRepay (asset from : string) (amount d_tokens : Z)
| EvFlashLoan (asset from contract : string) (amount d_tokens : Z)
| EvNewAuction (auction_type : AuctionType) (user : string) (percent : Z) (auction : AuctionData)
| EvFillAuction (auction_type : AuctionType) (user filler : string) (fill_percent : Z)
    (filled : AuctionData)
| EvDeleteAuction (auction_type : AuctionType) (user : string)
| EvBadDebt (user asset : string) (d_tokens : Z)
| EvDefaultedDebt (asset : string) (d_tokens : Z)
| EvDebtSetoff (asset : string) (b_tokens_burned d_tokens_repaid : Z)
| EvCollateralOrphaned (user asset : string) (b_tokens : Z)
| EvOrphanSettled (asset : string) (b_tokens : Z)
| EvSetReserve (asset : string) (index : Z)
| EvSetStatus (status : PoolStatus).

(** [PoolEvent::affected_accounts]. *)
Definition affected_accounts (self : PoolEvent) : list string :=
  match self with
  | EvSupply _ from _ _ | EvWithdraw _ from _ _ | EvSupplyCollateral _ from _ _
  | EvWithdrawCollateral _ from _ _ | EvBorrow _ from _ _ | EvRepay _ from _ _
  | EvFlashLoan _ from _ _ _ => [from]
  | EvNewAuction _ user _ _ | EvDeleteAuction _ user | EvCollateralOrphaned user _ _
  | EvBadDebt user _ _ => [user]
  | EvFillAuction _ user filler _ _ => [user; filler]
  | EvDefaultedDebt _ _ | EvDebtSetoff _ _ _ | EvOrphanSettled _ _ | EvSetReserve _ _
  | EvSetStatus _ => []
  end.

Section events.
Context `{ScDecode}.

Abbreviation xresult A := (result (XdrError XdrLibraryError) A).

Definition as_address (value : ScVal) : xresult string :=
  match scv_case value with CaseAddress a => Ok (sc_address_text a) | _ => shape "address" value end.
Definition as_u32 (value : ScVal) : xresult Z :=
  match scv_case value with CaseU32 n => Ok n | _ => shape "u32" value end.
Definition as_i128 (value : ScVal) : xresult Z :=
  match scv_case value with
  | CaseI128 hi lo => Ok (Decode.as_i128 hi lo)
  | _ => shape "i128" value
  end.

(** The data vector of an event, and its items once their number is known. *)
Definition data (value : ScVal) (expected : nat) : xresult (list ScVal) :=
  match scv_case value with
  | CaseVec (Some items) =>
      if (length items =? expected)%nat then Ok items else shape "event data vector" value
  | _ => shape "event data vector" value
  end.

Definition topics_text (topics : list ScVal) : string :=
  String.append (pretty.pretty (Z.of_nat (length topics))) " topics".

Definition topic (topics : list ScVal) (index : nat) : xresult ScVal :=
  ok_or (topics !! index) (XdrShape "another topic" (topics_text topics)).

Definition require_topics (topics : list ScVal) (expected : nat) (message : string) : xresult () :=
  if (length topics =? expected)%nat then Ok () else Err (XdrShape message (topics_text topics)).

(** [&items[i]]: [data] has checked the length. *)
Definition item (value : ScVal) (items : list ScVal) (i : nat) : ScVal := default value (items !! i).

Definition topic_address (topics : list ScVal) (index : nat) : xresult string :=
  let? t := topic topics index in as_address t.

Definition two_sided (topics : list ScVal) (value : ScVal) (message : string)
  : xresult (string * string * Z * Z) :=
  let? _ := require_topics topics 3 message in
  let? asset := topic_address topics 1 in
  let? from := topic_address topics 2 in
  let? items := data value 2 in
  let? a := as_i128 (item value items 0) in
  let? b := as_i128 (item value items 1) in
  Ok (asset, from, a, b).

Definition two_sided_event (make : string → string → Z → Z → PoolEvent) (topics : list ScVal)
    (value : ScVal) (message : string) : xresult (option PoolEvent) :=
  let? (asset, from, a, b) := two_sided topics value message in
  Ok (Some (make asset from a b)).

Definition decode_position_event (name : string) (topics : list ScVal) (value : ScVal)
  : xresult (option PoolEvent) :=
  if bool_decide (name = "supply") then
    two_sided_event EvSupply topics value "supply with 3 topics"
  else if bool_decide (name = "withdraw") then
    two_sided_event EvWithdraw topics value "withdraw with 3 topics"
  else if bool_decide (name = "supply_collateral") then
    two_sided_event EvSupplyCollateral topics value "supply_collateral with 3 topics"
  else if bool_decide (name = "withdraw_collateral") then
    two_sided_event EvWithdrawCollateral topics value "withdraw_collateral with 3 topics"
  else if bool_decide (name = "borrow") then
    two_sided_event EvBorrow topics value "borrow with 3 topics"
  else if bool_decide (name = "repay") then
    two_sided_event EvRepay topics value "repay with 3 topics"
  else if bool_decide (name = "flash_loan") then
    let? _ := require_topics topics 4 "flash_loan with 4 topics" in
    let? items := data value 2 in
    let? asset := topic_address topics 1 in
    let? from := topic_address topics 2 in
    let? contract := topic_address topics 3 in
    let? amount := as_i128 (item value items 0) in
    let? d_tokens := as_i128 (item value items 1) in
    Ok (Some (EvFlashLoan asset from contract amount d_tokens))
  else Ok None.

Definition topic_auction_type (topics : list ScVal) : xresult AuctionType :=
  let? t := topic topics 1 in
  let? code := as_u32 t in
  auction_type_try_from code.

Definition decode_auction_event (name : string) (topics : list ScVal) (value : ScVal)
  : xresult (option PoolEvent) :=
  if bool_decide (name = "new_auction") then
    let? _ := require_topics topics 3 "new_auction with 3 topics" in
    let? items := data value 2 in
    let? auction_type := topic_auction_type topics in
    let? user := topic_address topics 2 in
    let? percent := as_u32 (item value items 0) in
    let? auction := auction_value (item value items 1) in
    Ok (Some (EvNewAuction auction_type user percent auction))
  else if bool_decide (name = "fill_auction") then
    let? _ := require_topics topics 3 "fill_auction with 3 topics" in
    let? items := data value 3 in
    let? auction_type := topic_auction_type topics in
    let? user := topic_address topics 2 in
    let? filler := as_address (item value items 0) in
    let? fill_percent := as_i128 (item value items 1) in
    let? filled := auction_value (item value items 2) in
    Ok (Some (EvFillAuction auction_type user filler fill_percent filled))
  else if bool_decide (name = "delete_auction") then
    let? _ := require_topics topics 3 "delete_auction with 3 topics" in
    match scv_case value with
    | CaseVoid =>
        let? auction_type := topic_auction_type topics in
        let? user := topic_address topics 2 in
        Ok (Some (EvDeleteAuction auction_type user))
    | _ => shape "delete_auction with void data" value
    end
  else Ok None.

Definition decode_admin_event (name : string) (topics : list ScVal) (value : ScVal)
  : xresult (option PoolEvent) :=
  if bool_decide (name = "bad_debt") then
    let? _ := require_topics topics 3 "bad_debt with 3 topics" in
    let? user := topic_address topics 1 in
    let? asset := topic_address topics 2 in
    let? d_tokens := as_i128 value in
    Ok (Some (EvBadDebt user asset d_tokens))
  else if bool_decide (name = "defaulted_debt") then
    let? _ := require_topics topics 2 "defaulted_debt with 2 topics" in
    let? asset := topic_address topics 1 in
    let? d_tokens := as_i128 value in
    Ok (Some (EvDefaultedDebt asset d_tokens))
  else if bool_decide (name = "debt_setoff") then
    let? _ := require_topics topics 2 "debt_setoff with 2 topics" in
    let? items := data value 2 in
    let? asset := topic_address topics 1 in
    let? b_tokens_burned := as_i128 (item value items 0) in
    let? d_tokens_repaid := as_i128 (item value items 1) in
    Ok (Some (EvDebtSetoff asset b_tokens_burned d_tokens_repaid))
  else if bool_decide (name = "collateral_orphaned") then
    let? _ := require_topics topics 3 "collateral_orphaned with 3 topics" in
    let? user := topic_address topics 1 in
    let? asset := topic_address topics 2 in
    let? b_tokens := as_i128 value in
    Ok (Some (EvCollateralOrphaned user asset b_tokens))
  else if bool_decide (name = "orphan_settled") then
    let? _ := require_topics topics 2 "orphan_settled with 2 topics" in
    let? asset := topic_address topics 1 in
    let? b_tokens := as_i128 value in
    Ok (Some (EvOrphanSettled asset b_tokens))
  else if bool_decide (name = "set_reserve") then
    let? _ := require_topics topics 1 "set_reserve with 1 topic" in
    let? items := data value 2 in
    let? asset := as_address (item value items 0) in
    let? index := as_u32 (item value items 1) in
    Ok (Some (EvSetReserve asset index))
  else if bool_decide (name = "set_status") then
    if (length topics =? 1)%nat || (length topics =? 2)%nat then
      let? code := as_u32 value in
      let? status := pool_status_try_from code in
      Ok (Some (EvSetStatus status))
    else Err (XdrShape "set_status with 1 or 2 topics" (topics_text topics))
  else Ok None.

(** The event's name: its first topic, when that is a symbol. *)
Definition name_of (topics : list ScVal) : option string :=
  match head topics with
  | Some t => match scv_case t with CaseSymbol name => Some (sc_symbol_text name) | _ => None end
  | None => None
  end.

Definition decode_pool_event (topics : list ScVal) (value : ScVal) : xresult (option PoolEvent) :=
  match name_of topics with
  | None => Ok None
  | Some name =>
      let? found := decode_position_event name topics value in
      match found with
      | Some event => Ok (Some event)
      | None =>
          let? found := decode_auction_event name topics value in
          match found with
          | Some event => Ok (Some event)
          | None => decode_admin_event name topics value
          end
      end
  end.
End events.

(** ** The layout of each event

    What the decoder accepts, written down event by event: the name, the
    topics after it, and the data. *)

Inductive Slot : Type :=
| SlotAddress (a : string)
| SlotU32 (n : Z)
| SlotI128 (n : Z)
| SlotAuction (d : AuctionData).

Inductive Datum : Type :=
| DataVec (slots : list Slot)
| DataOne (slot : Slot)
| DataVoid.

Record Layout : Type := mkLayout {
  ly_name : string;
  ly_topics : list Slot;
  ly_spare : nat;  (* further topics the event may have *)
  ly_data : Datum;
}.

Definition moved (name asset from : string) (a b : Z) : Layout :=
  mkLayout name [SlotAddress asset; SlotAddress from] 0 (DataVec [SlotI128 a; SlotI128 b]).

Definition layout (e : PoolEvent) : Layout :=
  match e with
  | EvSupply asset from a b => moved "supply" asset from a b
  | EvWithdraw asset from a b => moved "withdraw" asset from a b
  | EvSupplyCollateral asset from a b => moved "supply_collateral" asset from a b
  | EvWithdrawCollateral asset from a b => moved "withdraw_collateral" asset from a b
  | EvBorrow asset from a b => moved "borrow" asset from a b
  | EvRepay asset from a b => moved "repay" asset from a b
  | EvFlashLoan asset from contract a b =>
      mkLayout "flash_loan" [SlotAddress asset; SlotAddress from; SlotAddress contract] 0
        (DataVec [SlotI128 a; SlotI128 b])
  | EvNewAuction t user percent auction =>
      mkLayout "new_auction" [SlotU32 (auction_type_code t); SlotAddress user] 0
        (DataVec [SlotU32 percent; SlotAuction auction])
  | EvFillAuction t user filler percent filled =>
      mkLayout "fill_auction" [SlotU32 (auction_type_code t); SlotAddress user] 0
        (DataVec [SlotAddress filler; SlotI128 percent; SlotAuction filled])
  | EvDeleteAuction t user =>
      mkLayout "delete_auction" [SlotU32 (auction_type_code t); SlotAddress user] 0 DataVoid
  | EvBadDebt user asset d =>
      mkLayout "bad_debt" [SlotAddress user; SlotAddress asset] 0 (DataOne (SlotI128 d))
  | EvDefaultedDebt asset d =>
      mkLayout "defaulted_debt" [SlotAddress asset] 0 (DataOne (SlotI128 d))
  | EvDebtSetoff asset b d =>
      mkLayout "debt_setoff" [SlotAddress asset] 0 (DataVec [SlotI128 b; SlotI128 d])
  | EvCollateralOrphaned user asset b =>
      mkLayout "collateral_orphaned" [SlotAddress user; SlotAddress asset] 0
        (DataOne (SlotI128 b))
  | EvOrphanSettled asset b =>
      mkLayout "orphan_settled" [SlotAddress asset] 0 (DataOne (SlotI128 b))
  | EvSetReserve asset index =>
      mkLayout "set_reserve" [] 0 (DataVec [SlotAddress asset; SlotU32 index])
  | EvSetStatus status =>
      mkLayout "set_status" [] 1 (DataOne (SlotU32 (pool_status_code status)))
  end.

Definition position_names : list string :=
  ["supply"; "withdraw"; "supply_collateral"; "withdraw_collateral"; "borrow"; "repay";
   "flash_loan"].
Definition auction_names : list string := ["new_auction"; "fill_auction"; "delete_auction"].
Definition admin_names : list string :=
  ["bad_debt"; "defaulted_debt"; "debt_setoff"; "collateral_orphaned"; "orphan_settled";
   "set_reserve"; "set_status"].
Definition modelled_names : list string := position_names ++ auction_names ++ admin_names.

Section layouts.
Context `{ScDecode}.

Definition fits (slot : Slot) (value : ScVal) : Prop :=
  match slot with
  | SlotAddress a => as_address value = Ok a
  | SlotU32 n => as_u32 value = Ok n
  | SlotI128 n => as_i128 value = Ok n
  | SlotAuction d => auction_value value = Ok d
  end.

Definition data_fits (d : Datum) (value : ScVal) : Prop :=
  match d with
  | DataVec slots => ∃ items, scv_case value = CaseVec (Some items) ∧ Forall2 fits slots items
  | DataOne slot => fits slot value
  | DataVoid => scv_case value = CaseVoid
  end.

Definition laid_out (e : PoolEvent) (topics : list ScVal) (value : ScVal) : Prop :=
  let ly := layout e in
  (∃ t ts spare, topics = t :: ts ++ spare ∧ Forall2 fits (ly_topics ly) ts ∧
     (length spare ≤ ly_spare ly)%nat) ∧
  data_fits (ly_data ly) value.

(** ** Lemmas *)

Lemma data_ok value n items :
  data value n = Ok items ↔ scv_case value = CaseVec (Some items) ∧ length items = n.
Proof.
  unfold data. destruct (scv_case value) as [| | | | | | |[l|]| | | |]; try naive_solver.
  destruct (Nat.eqb_spec (length l) n); naive_solver.
Qed.

Lemma require_topics_ok topics n message u :
  require_topics topics n message = Ok u ↔ length topics = n.
Proof.
  unfold require_topics. destruct u, (Nat.eqb_spec (length topics) n); naive_solver.
Qed.

Lemma auction_type_ok {X} n t :
  auction_type_try_from (X:=X) n = Ok t ↔ n = auction_type_code t.
Proof.
  unfold auction_type_try_from. repeat case_match; destruct t; simpl; naive_solver lia.
Qed.

Lemma pool_status_ok {X} n s :
  pool_status_try_from (X:=X) n = Ok s ↔ n = pool_status_code s.
Proof.
  unfold pool_status_try_from. repeat case_match; destruct s; simpl; naive_solver lia.
Qed.

(** Lists of a known length, and of items of a known fit. *)
Ltac spell_lists :=
  repeat match goal with
  | H : length ?l = S _ |- _ => destruct l as [|? l]; [discriminate H|simpl in H; injection H as H]
  | H : length ?l = 0%nat |- _ => apply length_zero_iff_nil in H as ->
  | H : require_topics _ _ _ = Ok _ |- _ => apply require_topics_ok in H
  | H : data _ _ = Ok _ |- _ => apply data_ok in H as [? H]
  | H : Forall2 fits _ _ |- _ => inversion H; clear H; subst
  end.

Ltac read_event :=
  rust_inv; spell_lists; simpl in *; unfold topic_address, topic_auction_type, topic in *; simpl in *;
  rust_inv; simplify_eq/=;
  repeat match goal with
  | H : auction_type_try_from _ = Ok _ |- _ => apply auction_type_ok in H as ->
  | H : pool_status_try_from _ = Ok _ |- _ => apply pool_status_ok in H as ->
  end.

Ltac lay_out :=
  split; [eexists _, _, []; rewrite app_nil_r; split; [done|]; split; [by repeat constructor|done]|];
  first [by eexists; split; [done|repeat constructor]|done].

Ltac read_branch :=
  subst; read_event; split; [done|]; split; [set_solver|]; lay_out.

Lemma decode_position_read name topics value e :
  decode_position_event name topics value = Ok (Some e) →
  name = ly_name (layout e) ∧ name ∈ position_names ∧ laid_out e topics value.
Proof.
  unfold decode_position_event, two_sided_event, two_sided.
  intros Hd. repeat (case_bool_decide; [read_branch|]). done.
Qed.

Lemma decode_auction_read name topics value e :
  decode_auction_event name topics value = Ok (Some e) →
  name = ly_name (layout e) ∧ name ∈ auction_names ∧ laid_out e topics value.
Proof.
  unfold decode_auction_event. intros Hd. repeat (case_bool_decide; [try read_branch|]); [|done].
  subst. read_event. destruct (scv_case value) eqn:?; try (by unfold shape in Hd).
  read_branch.
Qed.

Lemma decode_admin_read name topics value e :
  head topics ≠ None → decode_admin_event name topics value = Ok (Some e) →
  name = ly_name (layout e) ∧ name ∈ admin_names ∧ laid_out e topics value.
Proof.
  unfold decode_admin_event. intros Hhead Hd. do 6 (case_bool_decide; [read_branch|]).
  case_bool_decide; [|done]. subst. destruct topics as [|t ts]; [done|]. rust_inv; simplify_eq.
  apply pool_status_ok in Hstep0 as ->. split; [done|]. split; [set_solver|]. split; [|done].
  exists t, [], ts. split; [done|]. split; [constructor|]. simpl in *. lia.
Qed.

Lemma data_of value n items :
  scv_case value = CaseVec (Some items) → length items = n → data value n = Ok items.
Proof. intros. by apply data_ok. Qed.

(** The decoder of an event's family reads back every layout of it. *)
Lemma decode_laid_out e topics value :
  laid_out e topics value →
  let name := ly_name (layout e) in
  (decode_position_event name topics value = Ok (Some e) ∧ name ∈ position_names) ∨
  (decode_auction_event name topics value = Ok (Some e) ∧ name ∈ auction_names) ∨
  (decode_admin_event name topics value = Ok (Some e) ∧ name ∈ admin_names).
Proof.
  intros [(t & ts & spare & -> & Hts & Hspare) Hdata].
  destruct e; simpl in *;
    [left|left|left|left|left|left|left|right; left|right; left|right; left|
     right; right|right; right|right; right|right; right|right; right|right; right|right; right];
    (split; [|set_solver]).
  all: unfold moved in *; simpl in *; repeat match goal with
    | H : ∃ _, _ |- _ => destruct H as (? & ? & ?)
    end; spell_lists; rewrite ?app_nil_r;
    try (destruct spare; [|simpl in Hspare; lia]); simpl in *.
  all: unfold decode_position_event, two_sided_event, two_sided, decode_auction_event,
    decode_admin_event; simpl; rewrite ?bool_decide_eq_true_2, ?bool_decide_eq_false_2 by done.
  all: try erewrite data_of by done; unfold topic_auction_type, topic_address, topic, item; simpl.
  all: repeat (match goal with
    | H : ?x = Ok _ |- context [?x] => rewrite H
    | H : scv_case ?x = _ |- context [scv_case ?x] => rewrite H
    | |- context [auction_type_try_from (auction_type_code ?t)] =>
        rewrite (proj2 (auction_type_ok _ t) eq_refl)
    | |- context [pool_status_try_from (pool_status_code ?t)] =>
        rewrite (proj2 (pool_status_ok _ t) eq_refl)
    end; simpl); try done.
  destruct spare as [|? [|]]; simpl in *; [done|done|lia].
Qed.

Lemma position_unnamed name topics value :
  decode_position_event name topics value = Ok None ↔ name ∉ position_names.
Proof.
  unfold decode_position_event, two_sided_event, position_names.
  repeat case_bool_decide; subst; (split; [intros Hd|try set_solver]); try set_solver; rust_inv.
Qed.

Lemma auction_unnamed name topics value :
  decode_auction_event name topics value = Ok None ↔ name ∉ auction_names.
Proof.
  unfold decode_auction_event, auction_names.
  repeat case_bool_decide; subst; (split; [intros Hd|try set_solver]); try set_solver; rust_inv.
  unfold shape in Hd. destruct (scv_case value); rust_inv.
Qed.

Lemma admin_unnamed name topics value :
  decode_admin_event name topics value = Ok None ↔ name ∉ admin_names.
Proof.
  unfold decode_admin_event, admin_names.
  repeat case_bool_decide; subst; (split; [intros Hd|try set_solver]); try set_solver; rust_inv.
Qed.

Lemma names_disjoint name :
  (name ∈ position_names → name ∉ auction_names ++ admin_names) ∧
  (name ∈ auction_names → name ∉ admin_names).
Proof. split; intros Hn; repeat (apply elem_of_cons in Hn as [-> | Hn]); try (by apply elem_of_nil in Hn); set_solver. Qed.
End layouts.

Section exact.
Context `{ScDecode}.

(** C36: the event decoder is exact: it answers an event where the topics and the
    data have precisely that event's layout, nothing where the first topic
    names no event the bot models, and an error in every other case. *)
Theorem decode_pool_event_exact (topics : list ScVal) (value : ScVal) :
  (∀ e, decode_pool_event topics value = Ok (Some e) ↔
     name_of topics = Some (ly_name (layout e)) ∧ laid_out e topics value) ∧
  (decode_pool_event topics value = Ok None ↔
     ∀ name, name_of topics = Some name → name ∉ modelled_names).
Proof.
  unfold decode_pool_event, modelled_names. destruct (name_of topics) as [name|] eqn:Hname;
    [|naive_solver].
  assert (head topics ≠ None) as Hhead by (unfold name_of in Hname; by destruct (head topics)).
  destruct (names_disjoint name) as [Hp Ha].
  pose proof (position_unnamed name topics value) as Np.
  pose proof (auction_unnamed name topics value) as Na.
  pose proof (admin_unnamed name topics value) as Nd. split.
  - intros e. split.
    + intros Hd. rust_inv. destruct x as [e'|]; simplify_eq/=.
      { apply decode_position_read in Hstep as (-> & _ & ?). done. }
      rust_inv. destruct x as [e'|]; simplify_eq/=.
      { apply decode_auction_read in Hstep0 as (-> & _ & ?). done. }
      apply decode_admin_read in Hd as (-> & _ & ?); done.
    + intros [[= ->] Hl]. destruct (decode_laid_out _ _ _ Hl) as [[-> _]|[[Hd Hin]|[Hd Hin]]]; [done|..].
      * rewrite (proj2 Np); [simpl; by rewrite Hd|]. intros Hx. by apply Hp, not_elem_of_app in Hx as [].
      * rewrite (proj2 Np); [simpl|intros Hx; by apply Hp, not_elem_of_app in Hx as []].
        rewrite (proj2 Na); [done|]. intros Hx. by apply Ha in Hx.
  - trans (name ∉ position_names ++ auction_names ++ admin_names);
      [|split; [by intros ? ? [= <-]|intros Hn; by apply Hn]].
    rewrite !not_elem_of_app, <- Np, <- Na, <- Nd.
    destruct (decode_position_event name topics value) as [[e|]|err]; simpl; [naive_solver|..|naive_solver].
    destruct (decode_auction_event name topics value) as [[e|]|err]; simpl; naive_solver.
Qed.
End exact.
