(* ===== verification/Rpc.v ===== *)
(** * Batched ledger reads ([src/chain/rpc.rs])

    [RpcClient::ledger_entries] over the calls it makes: batches of the RPC's
    cap, one ledger for all of them, and only the entries that were asked
    for. *)

From S2P Require Import Prelude Fixed Encode Chain Operations Decode Io.
Open Scope Z_scope.

Definition ENTRY_BATCH : nat := 200.

Section rpc.
Context `{ScDecode}.

Record RawEntry : Type := mkRawEntry {
  re_key : string;
  re_xdr : string;
  re_last_modified_ledger_seq : Z;
  re_live_until_ledger_seq : option Z;
}.

Record RawEntries : Type := mkRawEntries {
  raw_latest_ledger : Z;
  raw_entries : list RawEntry;
}.

Record LedgerEntry : Type := mkLedgerEntry {
  le_data : LedgerEntryData;
  le_last_modified_ledger : Z;
  le_live_until_ledger : option Z;
}.

Record LedgerEntries : Type := mkLedgerEntries {
  les_latest_ledger : Z;
  les_entries : gmap string LedgerEntry;
}.

(** What [RpcClient::call], and the decoding of its answer, fail with. *)
Inductive CallError : Type :=
| CallTransport (e : TransportError)
| CallHttp (status : Z)
| CallRpc (code : Z) (message : string)
| CallShape (message : string)
| CallXdr (e : XdrError XdrLibraryError).

Definition of_call (e : CallError) : ChainError :=
  match e with
  | CallTransport e => Transport e
  | CallHttp status => Http status
  | CallRpc code message => Rpc code message
  | CallShape message => Shape message
  | CallXdr e => XdrFailure e
  end.

(** The chain reads: [getLedgerEntries] of encoded keys, and a simulation. *)
Variant ReadE : Type → Type :=
| GetEntries (keys : list string) : ReadE (result CallError RawEntries)
| SimulateView (envelope : TransactionEnvelope) : ReadE (result CallError Simulation).

(** What a trace records. *)
Inductive Read : Type :=
| REntries (keys : list string) (r : result CallError RawEntries)
| RView (envelope : TransactionEnvelope) (r : result CallError Simulation).

Definition read (X : Type) (e : ReadE X) : X → Read :=
  match e in ReadE X return X → Read with
  | GetEntries keys => REntries keys
  | SimulateView envelope => RView envelope
  end.

Abbreviation prog A := (io ReadE (result ChainError A)).

Definition call {A : Type} (e : ReadE (result CallError A)) : prog A :=
  await answer := perform e in Ret (map_err of_call answer).

(** The conversion [?] makes of an [XdrError]. *)
Definition chain_of {A : Type} (r : result (XdrError XdrLibraryError) A) : result ChainError A :=
  map_err XdrFailure r.

(** [LedgerEntries::get]. *)
Definition get (self : LedgerEntries) (key : LedgerKey) : result ChainError (option LedgerEntry) :=
  let? text := chain_of (to_base64 key) in
  Ok (les_entries self !! text).

(** The loop over one answer: an entry that was not requested is dropped. *)
Definition keep_entry (requested : list string) (entries : gmap string LedgerEntry)
    (entry : RawEntry) : result ChainError (gmap string LedgerEntry) :=
  if bool_decide (re_key entry ∉ requested) then Ok entries
  else
    let? data := chain_of (from_base64 (re_xdr entry)) in
    Ok (<[re_key entry := mkLedgerEntry data (re_last_modified_ledger_seq entry)
            (re_live_until_ledger_seq entry)]> entries).

(** What an answer's ledger makes of the ledger of the earlier ones. *)
Definition one_ledger (latest_ledger : option Z) (answered : Z) : result ChainError (option Z) :=
  match latest_ledger with
  | None => Ok (Some answered)
  | Some first => if first =? answered then Ok latest_ledger else Err (LedgerMoved first answered)
  end.

Fixpoint read_batches (requested : list string) (batches : list (list string))
    (latest_ledger : option Z) (entries : gmap string LedgerEntry) : prog LedgerEntries :=
  match batches with
  | [] => Ret (Ok (mkLedgerEntries (default 0 latest_ledger) entries))
  | batch :: batches =>
      await? raw := call (GetEntries batch) in
      await? latest_ledger := Ret (one_ledger latest_ledger (raw_latest_ledger raw)) in
      await? entries := Ret (try_fold (keep_entry requested) entries (raw_entries raw)) in
      read_batches requested batches latest_ledger entries
  end.

(** [RpcClient::ledger_entries]. *)
Definition ledger_entries (keys : list LedgerKey) : prog LedgerEntries :=
  match keys with
  | [] => Ret (Err (Config "getLedgerEntries needs at least one key"))
  | _ =>
      await? encoded_keys := Ret (chain_of (collect to_base64 keys)) in
      read_batches encoded_keys (chunks ENTRY_BATCH encoded_keys) None ∅
  end.
End rpc.

(** ** What a read was told

    [told tr key entry]: an answer of the trace carries that entry.
    [untold tr key]: the trace asks for the key and no answer carries it. *)

Section told.
Context `{ScDecode}.

Definition at_ledger (ledger : Z) (o : Read) : Prop :=
  match o with
  | REntries _ (Ok raw) => raw_latest_ledger raw = ledger
  | RView _ (Ok simulation) => sim_latest_ledger simulation = ledger
  | _ => False
  end.

(** Two answers of the trace describe different ledgers. *)
Definition moved (tr : list Read) : Prop :=
  ∃ o1 o2 l1 l2, o1 ∈ tr ∧ o2 ∈ tr ∧ at_ledger l1 o1 ∧ at_ledger l2 o2 ∧ l1 ≠ l2.

(** A moved ledger is an error only after such answers. *)
Definition fair_error (tr : list Read) (e : ChainError) : Prop :=
  match e with LedgerMoved _ _ => moved tr | _ => True end.

Definition carries (x : RawEntry) (key : string) (entry : LedgerEntry) : Prop :=
  re_key x = key ∧ from_base64 (re_xdr x) = Ok (le_data entry).

Definition told (tr : list Read) (key : string) (entry : LedgerEntry) : Prop :=
  ∃ keys raw x, REntries keys (Ok raw) ∈ tr ∧ x ∈ raw_entries raw ∧ carries x key entry.

Definition unanswered (tr : list Read) (key : string) : Prop :=
  ∀ keys raw x, REntries keys (Ok raw) ∈ tr → x ∈ raw_entries raw → re_key x ≠ key.

Definition asked (tr : list Read) (key : string) : Prop :=
  ∃ keys r, REntries keys r ∈ tr ∧ key ∈ keys.

Definition untold (tr : list Read) (key : string) : Prop := asked tr key ∧ unanswered tr key.

Record entries_told (requested : list string) (tr : list Read) (es : LedgerEntries) : Prop := {
  et_ledger : Forall (at_ledger (les_latest_ledger es)) tr;
  et_some : tr ≠ [];
  et_told k e : les_entries es !! k = Some e → told tr k e;
  et_untold k : k ∈ requested → les_entries es !! k = None → untold tr k;
}.

Lemma moved_mono tr tr1 tr2 : moved tr → moved (tr1 ++ tr ++ tr2).
Proof. intros (o1 & o2 & l1 & l2 & ? & ? & ?). exists o1, o2, l1, l2. set_solver. Qed.

Lemma fair_error_mono tr tr1 tr2 e : fair_error tr e → fair_error (tr1 ++ tr ++ tr2) e.
Proof. destruct e; simpl; try done. apply moved_mono. Qed.

Lemma fair_error_app tr1 tr2 e : fair_error tr2 e → fair_error (tr1 ++ tr2) e.
Proof. intros He. apply (fair_error_mono _ tr1 []) in He. by rewrite app_nil_r in He. Qed.

Lemma told_mono tr tr1 tr2 k e : told tr k e → told (tr1 ++ tr ++ tr2) k e.
Proof. intros (keys & raw & x & ? & ?). exists keys, raw, x. set_solver. Qed.

Lemma fair_chain_of {A} tr (r : result (XdrError XdrLibraryError) A) e :
  chain_of r = Err e → fair_error tr e.
Proof. destruct r; simpl; [done|]. by intros [= <-]. Qed.

(** Entries gathered from the answers so far. *)
Record gathered (requested : list string) (tr : list Read) (latest : option Z)
    (entries : gmap string LedgerEntry) : Prop := {
  ga_ledger : match latest with
              | Some l => Forall (at_ledger l) tr ∧ tr ≠ []
              | None => tr = []
              end;
  ga_told k e : entries !! k = Some e → told tr k e;
  ga_untold k : k ∈ requested → entries !! k = None → unanswered tr k;
}.

Lemma keep_entries_ok requested entries raws entries' :
  try_fold (keep_entry requested) entries raws = Ok entries' →
  (∀ k e, entries' !! k = Some e → entries !! k = Some e ∨ ∃ x, x ∈ raws ∧ carries x k e) ∧
  (∀ k, k ∈ requested → entries' !! k = None →
     entries !! k = None ∧ ∀ x, x ∈ raws → re_key x ≠ k).
Proof.
  intros Hf. apply (try_fold_prefix _ (λ l m,
    (∀ k e, m !! k = Some e → entries !! k = Some e ∨ ∃ x, x ∈ l ∧ carries x k e) ∧
    (∀ k, k ∈ requested → m !! k = None → entries !! k = None ∧ ∀ x, x ∈ l → re_key x ≠ k)))
    in Hf; [done|set_solver|].
  intros l1 a l2 m m' _ [Ht Hu] Hk. unfold keep_entry in Hk.
  destruct (bool_decide (re_key a ∉ requested)) eqn:Hreq.
  { injection Hk as <-. apply bool_decide_eq_true in Hreq. split; [set_solver|].
    intros k Hin Hm. destruct (Hu k Hin Hm) as [? Hx]. split; [done|].
    intros x [Hin1|Heq]%elem_of_app; [by apply Hx|]. set_solver. }
  apply bind_ok in Hk as (data & Hdata & [= <-]). apply map_err_ok in Hdata. split.
  - intros k e [[<- <-]|[Hne Hm]]%lookup_insert_Some.
    + right. exists a. split; [set_solver|]. by split.
    + apply Ht in Hm. set_solver.
  - intros k Hin [Hm Hne]%lookup_insert_None. destruct (Hu k Hin Hm) as [? Hx].
    split; [done|]. set_solver.
Qed.

Lemma gathered_step requested tr latest entries keys raw latest' entries' :
  gathered requested tr latest entries →
  one_ledger latest (raw_latest_ledger raw) = Ok latest' →
  try_fold (keep_entry requested) entries (raw_entries raw) = Ok entries' →
  gathered requested (tr ++ [REntries keys (Ok raw)]) latest' entries'.
Proof.
  intros [Hl Ht Hu] Hone (Ht' & Hu')%keep_entries_ok. split.
  - unfold one_ledger in Hone. destruct latest as [first|].
    + rust_inv. subst. destruct Hl. split; [|by destruct tr].
      apply Forall_app. split; [done|]. constructor; [|done]. simpl. lia.
    + injection Hone as <-. subst. by repeat constructor.
  - intros k e [Hm|(x & Hx & Hc)]%Ht'.
    + apply (told_mono _ []), Ht, Hm.
    + exists keys, raw, x. set_solver.
  - intros k Hin [Hm Hx]%Hu'; [|done]. intros ks r x [Hr|Hr]%elem_of_app Hin'.
    + by eapply Hu.
    + apply list_elem_of_singleton in Hr as [= -> ->]. by apply Hx.
Qed.

Lemma call_returns {A} (e : ReadE (result CallError A)) (Q : list Read → result ChainError A → Prop) :
  (∀ a, Q [read _ e (Ok a)] (Ok a)) →
  (∀ err tr, (∀ a b, err ≠ LedgerMoved a b) → Q tr (Err err)) →
  returns read (call e) Q.
Proof.
  intros Hok Herr. eapply returns_bind; [apply (returns_perform _ e (λ tr x, tr = [read _ e x]));
    done|].
  intros x tr1 ->. apply returns_ret. rewrite app_nil_r. destruct x as [a|err]; simpl; [done|].
  apply Herr. by destruct err.
Qed.

Definition batch_result (requested : list string) (tr : list Read)
    (r : result ChainError LedgerEntries) : Prop :=
  match r with
  | Ok es => entries_told requested tr es
  | Err e => fair_error tr e
  end.

Lemma one_ledger_moved requested tr latest entries keys raw e :
  gathered requested tr latest entries →
  one_ledger latest (raw_latest_ledger raw) = Err e →
  fair_error (tr ++ [REntries keys (Ok raw)]) e.
Proof.
  intros [Hl _ _] Hone. unfold one_ledger in Hone. destruct latest as [first|]; [|done].
  destruct (Z.eqb_spec first (raw_latest_ledger raw)) as [|Hne]; [done|]. injection Hone as <-.
  destruct Hl as [Hl Hne']. destruct tr as [|o tr]; [done|]. apply Forall_cons_1 in Hl as [Ho _].
  exists o, (REntries keys (Ok raw)), first, (raw_latest_ledger raw). set_solver.
Qed.

Lemma keep_entries_fair requested entries raws e tr :
  try_fold (keep_entry requested) entries raws = Err e → fair_error tr e.
Proof.
  revert entries. induction raws as [|x raws IH]; intros entries; simpl; [done|].
  destruct (keep_entry requested entries x) as [m|err] eqn:Hk; simpl; [apply IH|].
  intros [= <-]. unfold keep_entry in Hk. destruct (bool_decide _); [done|].
  destruct (from_base64 (re_xdr x)); simplify_eq/=. done.
Qed.

Lemma read_batches_returns requested batches tr0 latest entries :
  gathered requested tr0 latest entries →
  (batches ≠ [] ∨ latest ≠ None) →
  (∀ k, k ∈ requested → asked tr0 k ∨ k ∈ concat batches) →
  returns read (read_batches requested batches latest entries)
    (λ tr, batch_result requested (tr0 ++ tr)).
Proof.
  revert tr0 latest entries. induction batches as [|batch batches IH];
    intros tr0 latest entries Hg Hsome Hasked; simpl.
  - apply returns_ret. rewrite app_nil_r. destruct Hg as [Hl Ht Hu]. destruct latest as [l|];
      [|naive_solver]. destruct Hl. split; simpl; try done.
    intros k Hin Hm. split; [|by apply Hu].
    destruct (Hasked k Hin) as [|Hx]; [done|by apply elem_of_nil in Hx].
  - eapply returns_try; [apply (call_returns (GetEntries batch) (λ tr r, match r with
        | Ok raw => tr = [REntries batch (Ok raw)]
        | Err e => ∀ a b, e ≠ LedgerMoved a b end)); naive_solver|..].
    { intros tr e He. destruct e; try done. by destruct (He first second). }
    intros raw tr1 ->. apply returns_try_ret.
    destruct (one_ledger latest _) as [latest'|e] eqn:Hone.
    2: { simpl. rewrite ?app_nil_r. by eapply one_ledger_moved. }
    apply returns_try_ret. destruct (try_fold _ _ _) as [entries'|e] eqn:Hkeep.
    2: { simpl. by eapply keep_entries_fair. }
    eapply returns_weaken; [apply (IH (tr0 ++ [REntries batch (Ok raw)]))|].
    + by eapply gathered_step.
    + right. unfold one_ledger in Hone. destruct latest; [|by simplify_eq].
      destruct (_ =? _); by simplify_eq.
    + intros k Hin. destruct (Hasked k Hin) as [(ks & r & ? & ?)|Hb].
      * left. exists ks, r. set_solver.
      * simpl in Hb. apply elem_of_app in Hb as [Hb|Hb]; [|by right].
        left. exists batch, (Ok raw). set_solver.
    + intros tr r. cbv beta. by rewrite <- app_assoc.
Qed.

(** Every entry read is one an answer carried, every requested key without an
    entry was asked for and answered by none, all at one ledger. *)
Lemma ledger_entries_returns keys :
  returns read (ledger_entries keys) (λ tr r, match r with
    | Ok es => ∃ encoded, collect to_base64 keys = Ok encoded ∧ entries_told encoded tr es
    | Err e => fair_error tr e
    end).
Proof.
  unfold ledger_entries. destruct keys as [|key keys]; [by apply returns_ret|].
  remember (key :: keys) as all eqn:Hall. apply returns_try_ret.
  destruct (chain_of (collect to_base64 all)) as [encoded|e] eqn:Henc; [|by eapply fair_chain_of].
  apply map_err_ok in Henc. assert (encoded ≠ []) as Hne.
  { apply collect_ok in Henc. subst. by inversion Henc. }
  eapply returns_weaken; [apply (read_batches_returns encoded _ [])|].
  - split; [done|set_solver|]. intros k _ _ ks raw x Hx. by apply elem_of_nil in Hx.
  - left. unfold chunks. destruct encoded; [done|]. done.
  - intros k Hin. right. by rewrite concat_chunks by (unfold ENTRY_BATCH; lia).
  - intros tr [es|e]; simpl; [|done]. by exists encoded.
Qed.

(** ** Every read ends *)

Context {W : Type} (answer : ∀ X : Type, ReadE X → W → X * W).

Lemma call_halts {A} w (e : ReadE (result CallError A)) : halts read answer w (call e).
Proof. apply halts_bind; [apply halts_perform|]. intros. apply halts_ret. Qed.

Lemma read_batches_halts requested batches latest entries w :
  halts read answer w (read_batches requested batches latest entries).
Proof.
  revert latest entries w. induction batches as [|batch batches IH]; intros latest entries w; simpl;
    [apply halts_ret|].
  apply halts_try; [apply call_halts|]. intros w1 raw.
  apply halts_try; [apply halts_ret|]. intros w2 latest'.
  apply halts_try; [apply halts_ret|]. intros w3 entries'. apply IH.
Qed.

Lemma ledger_entries_halts keys w : halts read answer w (ledger_entries keys).
Proof.
  unfold ledger_entries. destruct keys; [apply halts_ret|].
  apply halts_try; [apply halts_ret|]. intros w1 encoded. apply read_batches_halts.
Qed.
End told.
