(* ===== verification/Snapshot.v ===== *)
(** * Pool snapshots ([src/chain/pool.rs])

    One ledger's view of a pool: the batched reads, the oracle's prices, the
    refusal of a moved ledger and its bounded retry; and the valuation of the
    positions in it, reserves accrued to one instant. *)

From S2P Require Import Prelude Fixed Reserve Position Auction Encode Chain Operations Decode.
From S2P Require Import Io Rpc.
Open Scope Z_scope.

Record PoolSnapshot : Type := mkPoolSnapshot {
  ps_ledger : Z;
  ps_pool : string;
  ps_instance : PoolInstance;
  ps_reserves : gmap Z Reserve;
  ps_asset_index : gmap string Z;
  ps_prices : OraclePrices;
  ps_price_timestamps : gmap string Z;
  ps_positions : gmap string Positions;
}.

(** ** Valuation *)

(** [Iterator::max]. *)
Definition iter_max (l : list Z) : option Z :=
  match l with [] => None | x :: l => Some (foldl Z.max x l) end.

(** [PoolSnapshot::valued_at]. *)
Definition valued_at (self : PoolSnapshot) (close_time : Z) : Z :=
  Z.max (default 0
    (iter_max (map (λ e : Z * Reserve, rd_last_time (rs_data e.2)) (bt_iter (ps_reserves self)))))
    close_time.

(** [PoolSnapshot::accrued_reserves]. *)
Definition accrue_entry (bstop_rate at_ : Z) (reserves : gmap Z Reserve) (entry : Z * Reserve)
  : result MathError (gmap Z Reserve) :=
  match accrue bstop_rate at_ entry.2 with
  | (reserve, Ok _) => Ok (<[entry.1 := reserve]> reserves)
  | (_, Err e) => Err e
  end.

Definition accrued_reserves (self : PoolSnapshot) (at_ : Z) : result MathError (gmap Z Reserve) :=
  let at_ := valued_at self at_ in
  try_fold (accrue_entry (pc_bstop_rate (pi_config (ps_instance self))) at_)
    (ps_reserves self) (bt_iter (ps_reserves self)).

Section snapshot.
Context `{ScDecode}.

Abbreviation prog A := (io ReadE (result ChainError A)).

(** [PoolSnapshot::position_data]. *)
Definition position_data (self : PoolSnapshot) (user : string) (close_time : Z)
  : result ChainError (option PositionData) :=
  match ps_positions self !! user with
  | None => Ok None
  | Some positions =>
      if is_empty positions then Ok None
      else
        let? reserves := map_err MathFailure (accrued_reserves self close_time) in
        let? data := map_err MathFailure
                       (calculate_position_data reserves (ps_prices self) positions) in
        Ok (Some data)
  end.

(** ** The reader *)

Definition SNAPSHOT_ATTEMPTS : Z := 3.

Definition same_ledger (expected actual : Z) : result ChainError () :=
  if expected =? actual then Ok () else Err (LedgerMoved expected actual).

Context (pool : string).

(** [PoolReader::view]: the ledger and the value of a view call. *)
Definition view (contract function : string) (args : list ScVal) : prog (Z * ScVal) :=
  await? op := Ret (chain_of (invoke_contract_op contract function args)) in
  await? envelope := Ret (chain_of (simulation_envelope op)) in
  await? simulation := call (SimulateView envelope) in
  Ret (match sim_outcome simulation with
       | SimSuccess call => Ok (sim_latest_ledger simulation, sc_return_value call)
       | SimFailure message contract_error => Err (Simulation_ message contract_error)
       end).

Definition missing {A : Type} (subject what : string) : result ChainError A :=
  Err (Shape (String.concat " " [subject; "has no"; what; "entry"])).

(** [entries.get(&key)?.ok_or_else(missing)?.data], decoded. *)
Definition required {A : Type} (entries : LedgerEntries) (key : LedgerKey) (subject what : string)
    (decode : LedgerEntryData → result (XdrError XdrLibraryError) A) : result ChainError A :=
  let? entry := get entries key in
  match entry with
  | Some entry => chain_of (decode (le_data entry))
  | None => missing subject what
  end.

(** [PoolReader::shape]. *)
Definition pool_shape : prog (Z * PoolInstance * list string) :=
  await? instance_key := Ret (chain_of (instance_key pool)) in
  await? list_key := Ret (chain_of (reserve_list_key pool)) in
  await? entries := ledger_entries [instance_key; list_key] in
  Ret (let subject := String.append "pool " pool in
       let? instance := required entries instance_key subject "instance" pool_instance in
       let? assets := required entries list_key subject "reserve list" reserve_list in
       Ok (les_latest_ledger entries, instance, assets)).

(** The loop over the assets in [PoolReader::prices]. *)
Fixpoint asset_prices (oracle : string) (assets : list string) (ledger : Z)
    (prices timestamps : gmap string Z) : prog (gmap string Z * gmap string Z) :=
  match assets with
  | [] => Ret (Ok (prices, timestamps))
  | asset :: assets =>
      await? arg := Ret (chain_of (stellar_asset asset)) in
      await? (at_, value) := view oracle "lastprice" [arg] in
      await? _ := Ret (same_ledger ledger at_) in
      await? found := Ret (chain_of (price_data value)) in
      match found with
      | Some price =>
          asset_prices oracle assets ledger (<[asset := Decode.pd_price price]> prices)
            (<[asset := pd_timestamp price]> timestamps)
      | None => asset_prices oracle assets ledger prices timestamps
      end
  end.

(** [PoolReader::prices]. *)
Definition pool_prices (oracle : string) (assets : list string) (ledger : Z)
  : prog (OraclePrices * gmap string Z) :=
  await? (at_, decimals) := view oracle "decimals" [] in
  await? _ := Ret (same_ledger ledger at_) in
  await? decimals := Ret (chain_of (Decode.decimals decimals)) in
  await? (prices, timestamps) := asset_prices oracle assets ledger ∅ ∅ in
  Ret (let? prices := map_err MathFailure (oracle_new decimals prices) in
       Ok (prices, timestamps)).

(** The keys of one attempt's second read. *)
Definition reserve_keys (asset : string) : result ChainError (list LedgerKey) :=
  let? config := chain_of (reserve_config_key pool asset) in
  let? data := chain_of (reserve_data_key pool asset) in
  Ok [config; data].

Definition wanted_keys (assets users : list string) : result ChainError (list LedgerKey) :=
  let? reserves := collect reserve_keys assets in
  let? users := collect (λ user, chain_of (positions_key pool user)) users in
  Ok (concat reserves ++ users).

(** The loop over the assets in [snapshot_once]: one reserve, and its place. *)
Definition build_reserve (entries : LedgerEntries) (asset : string) : result ChainError Reserve :=
  let subject := String.append "reserve " asset in
  let? config_key := chain_of (reserve_config_key pool asset) in
  let? config := required entries config_key subject "config" reserve_config in
  let? data_key := chain_of (reserve_data_key pool asset) in
  let? data := required entries data_key subject "data" reserve_data in
  map_err MathFailure (Reserve.new asset config data).

Definition read_reserve (entries : LedgerEntries) (built : gmap Z Reserve * gmap string Z)
    (asset : string) : result ChainError (gmap Z Reserve * gmap string Z) :=
  let? reserve := build_reserve entries asset in
  let index := rc_index (rs_config reserve) in
  match built.1 !! index with
  | Some _ => Err (Shape (String.concat "" ["pool "; pool; " lists two reserves with index ";
                                              pretty.pretty index]))
  | None => Ok (<[index := reserve]> built.1, <[asset := index]> built.2)
  end.

(** The loop over the users. *)
Definition read_user (entries : LedgerEntries) (found : gmap string Positions) (user : string)
  : result ChainError (gmap string Positions) :=
  let? key := chain_of (positions_key pool user) in
  let? entry := get entries key in
  let? user_positions := match entry with
                         | Some entry => chain_of (positions (le_data entry))
                         | None => Ok empty_positions
                         end in
  Ok (<[user := user_positions]> found).

(** [PoolReader::snapshot_once]. *)
Definition snapshot_once (users : list string) : prog PoolSnapshot :=
  await? (ledger, instance, assets) := pool_shape in
  await? wanted := Ret (wanted_keys assets users) in
  await? entries := ledger_entries wanted in
  await? _ := Ret (same_ledger ledger (les_latest_ledger entries)) in
  await? (reserves, asset_index) := Ret (try_fold (read_reserve entries) (∅, ∅) assets) in
  await? positions := Ret (try_fold (read_user entries) ∅ users) in
  await? (prices, price_timestamps) := pool_prices (pc_oracle (pi_config instance)) assets ledger in
  Ret (Ok (mkPoolSnapshot ledger pool instance reserves asset_index prices price_timestamps
             positions)).

(** [PoolReader::snapshot]. *)
Definition snapshot_attempt (users : list string) (attempt : Z)
  : io ReadE (Z + result ChainError PoolSnapshot) :=
  await answer := snapshot_once users in
  Ret (match answer with
       | Err (LedgerMoved _ _) =>
           if attempt <? SNAPSHOT_ATTEMPTS then inl (attempt + 1) else inr answer
       | other => inr other
       end).

Definition snapshot (users : list string) : prog PoolSnapshot :=
  ITree.iter (snapshot_attempt users) 1.

(** [PoolReader::auction]. *)
Definition read_auction (user : string) (auction_type : AuctionType)
  : prog (option (Z * AuctionData)) :=
  await? key := Ret (chain_of (auction_key pool user auction_type)) in
  await? entries := ledger_entries [key] in
  Ret (let? entry := get entries key in
       match entry with
       | Some entry =>
           let? auction := chain_of (Decode.auction (le_data entry)) in
           Ok (Some (les_latest_ledger entries, auction))
       | None => Ok None
       end).

(** [PoolReader::balance]. *)
Definition read_balance (token account : string) : prog (Z * Z) :=
  await? arg := Ret (chain_of (address account)) in
  await? (ledger, value) := view token "balance" [arg] in
  Ret (match scv_case value with
       | CaseI128 hi lo => Ok (ledger, as_i128 hi lo)
       | _ => chain_of (shape "i128 balance" value)
       end).
End snapshot.

(** ** Lemmas: one instant *)

(** [t] is the later of [x] and the newest of the [times]. *)
Lemma iter_max_spec l :
  match iter_max l with
  | None => l = []
  | Some m => m ∈ l ∧ ∀ x, x ∈ l → x ≤ m
  end.
Proof.
  destruct l as [|x l]; [done|]. simpl. revert x. induction l as [|y l IH]; intros x; simpl.
  { split; [set_solver|]. intros z ->%list_elem_of_singleton. lia. }
  destruct (IH (Z.max x y)) as [Hin Hle]. split.
  - apply elem_of_cons in Hin as [Heq|]; [|set_solver]. rewrite Heq.
    destruct (Z.max_spec x y) as [[_ ->]|[_ ->]]; set_solver.
  - assert (Z.max x y ≤ foldl Z.max (Z.max x y) l) by (apply Hle; set_solver).
    intros z Hz. rewrite !elem_of_cons in Hz. destruct Hz as [-> |[-> |Hz]]; [lia..|].
    apply Hle. set_solver.
Qed.

Lemma valued_at_spec s t :
  t ≤ valued_at s t ∧
  (∀ i r, ps_reserves s !! i = Some r → rd_last_time (rs_data r) ≤ valued_at s t) ∧
  (valued_at s t = t ∨ valued_at s t = 0 ∨
   ∃ i r, ps_reserves s !! i = Some r ∧ valued_at s t = rd_last_time (rs_data r)).
Proof.
  unfold valued_at. pose proof (iter_max_spec
    (map (λ e : Z * Reserve, rd_last_time (rs_data e.2)) (bt_iter (ps_reserves s)))) as Hm.
  destruct (iter_max _) as [m|]; simpl.
  - destruct Hm as [Hin Hle]. split; [lia|]. split.
    + intros i r Hr. assert (rd_last_time (rs_data r) ≤ m); [|lia]. apply Hle.
      apply list_elem_of_fmap. exists (i, r). by rewrite bt_iter_elem.
    + destruct (Z.max_spec m t) as [[_ ->]|[_ ->]]; [by left|]. right. right.
      apply list_elem_of_fmap in Hin as ([i r] & -> & Hin). rewrite bt_iter_elem in Hin. eauto.
  - apply map_eq_nil in Hm. split; [lia|]. split; [|lia]. intros i r Hr.
    assert ((i, r) ∈ bt_iter (ps_reserves s)) as Hin by by rewrite bt_iter_elem.
    rewrite Hm in Hin. by apply elem_of_nil in Hin.
Qed.

Lemma valued_at_idemp s t : valued_at s (valued_at s t) = valued_at s t.
Proof. unfold valued_at. lia. Qed.

Lemma accrued_reserves_clamped s t : accrued_reserves s (valued_at s t) = accrued_reserves s t.
Proof. unfold accrued_reserves. by rewrite valued_at_idemp. Qed.

Lemma accrued_reserves_ok s t rs :
  accrued_reserves s t = Ok rs →
  dom rs = dom (ps_reserves s) ∧
  ∀ i r, ps_reserves s !! i = Some r → ∃ r', rs !! i = Some r' ∧
    accrue (pc_bstop_rate (pi_config (ps_instance s))) (valued_at s t) r = (r', Ok ()).
Proof.
  unfold accrued_reserves. set (bstop := pc_bstop_rate _). set (now := valued_at s t). set (m := ps_reserves s). cbv zeta.
  intros Hf. apply (try_fold_prefix _ (λ l x,
    (∀ i r, (i, r) ∈ l → ∃ r', x !! i = Some r' ∧ accrue bstop now r = (r', Ok ())) ∧
    dom x = dom m)) in Hf.
  - destruct Hf as [Hf Hdom]. split; [done|]. intros i r Hr. apply Hf. by rewrite bt_iter_elem.
  - split; [|done]. by intros i r Hin%elem_of_nil.
  - intros l1 [i0 r0] l2 x y Hl [Hx Hdom] Hstep. unfold accrue_entry in Hstep. simpl in Hstep.
    destruct (accrue bstop now r0) as [r' [[]|]] eqn:Hacc; [|done]. injection Hstep as <-.
    assert (∀ i r, (i, r) ∈ l1 ++ (i0, r0) :: l2 → m !! i = Some r) as Hm
      by (rewrite <- Hl; intros i r; by rewrite bt_iter_elem).
    pose proof (Hm i0 r0 ltac:(set_solver)) as Hm0. split.
    + intros i r Hin. destruct (decide (i = i0)) as [->|Hne].
      * pose proof (Hm i0 r ltac:(set_solver)) as Hm1. simplify_eq. exists r'.
        by rewrite lookup_insert_eq.
      * rewrite lookup_insert_ne by done. apply Hx. apply elem_of_app in Hin as [|Hin]; [done|].
        apply list_elem_of_singleton in Hin. simplify_eq.
    + rewrite dom_insert_L, Hdom. apply elem_of_dom_2 in Hm0. set_solver.
Qed.

Record wf_snapshot (s : PoolSnapshot) : Prop := mkWfSnapshot {
  wf_snap_reserves : ∀ i r, ps_reserves s !! i = Some r → wf_reserve r;
  wf_snap_rate : 0 ≤ pc_bstop_rate (pi_config (ps_instance s)) < SCALAR_7;
}.

(** ** What a snapshot is made of *)

Section view_of.
Context `{ScDecode} (pool : string).

#[local] Arguments ledger_entries : simpl never.

(** [a] is what an answer of the trace holds under the key. *)
Definition entry_read {A : Type} (tr : list Read)
    (key : result (XdrError XdrLibraryError) LedgerKey)
    (decode : LedgerEntryData → result (XdrError XdrLibraryError) A) (a : A) : Prop :=
  ∃ k text entry, key = Ok k ∧ to_base64 k = Ok text ∧ told tr text entry ∧
    decode (le_data entry) = Ok a.

(** A user's positions: what the chain holds, or none where a read asked for
    them and found nothing. *)
Definition user_read (tr : list Read) (user : string) (p : Positions) : Prop :=
  entry_read tr (positions_key pool user) positions p ∨
  p = empty_positions ∧
  ∃ k text tr1 tr2 tr3, positions_key pool user = Ok k ∧ to_base64 k = Ok text ∧
    tr = tr1 ++ tr2 ++ tr3 ∧ untold tr2 text.

Definition view_envelope (contract function : string) (args : list ScVal)
  : result (XdrError XdrLibraryError) TransactionEnvelope :=
  let? op := invoke_contract_op contract function args in
  simulation_envelope op.

(** The trace holds a view call and its value. *)
Definition viewed (tr : list Read) (contract function : string) (args : list ScVal)
    (value : ScVal) : Prop :=
  ∃ envelope simulation call,
    RView envelope (Ok simulation) ∈ tr ∧ view_envelope contract function args = Ok envelope ∧
    sim_outcome simulation = SimSuccess call ∧ sc_return_value call = value.

Definition price_read (tr : list Read) (oracle asset : string) (p : Z) : Prop :=
  ∃ arg value found, stellar_asset asset = Ok arg ∧ viewed tr oracle "lastprice" [arg] value ∧
    price_data value = Ok (Some found) ∧ p = Decode.pd_price found.

Record reserve_read (tr : list Read) (s : PoolSnapshot) (i : Z) (r : Reserve) : Prop := {
  rr_index : i = rc_index (rs_config r);
  rr_config : entry_read tr (reserve_config_key pool (rs_asset r)) reserve_config (rs_config r);
  rr_data : entry_read tr (reserve_data_key pool (rs_asset r)) reserve_data (rs_data r);
  rr_scalar : pow10 (rc_decimals (rs_config r)) = Ok (rs_scalar r);
  rr_asset_index : ps_asset_index s !! rs_asset r = Some i;
}.

(** Every field of the snapshot was read in the trace, all of it at the
    snapshot's ledger. *)
Record one_ledger_view (users : list string) (tr : list Read) (s : PoolSnapshot) : Prop := {
  ov_ledger : Forall (at_ledger (ps_ledger s)) tr;
  ov_some : tr ≠ [];
  ov_instance : entry_read tr (instance_key pool) pool_instance (ps_instance s);
  ov_reserves i r : ps_reserves s !! i = Some r → reserve_read tr s i r;
  ov_users u : u ∈ users → ∃ p, ps_positions s !! u = Some p ∧ user_read tr u p;
  ov_prices a p : op_prices (ps_prices s) !! a = Some p →
    price_read tr (pc_oracle (pi_config (ps_instance s))) a p;
}.

(** ** Lemmas *)

Lemma entry_read_mono {A} tr tr1 tr2 key (decode : _ → result (XdrError XdrLibraryError) A) a :
  entry_read tr key decode a → entry_read (tr1 ++ tr ++ tr2) key decode a.
Proof. intros (k & text & entry & ? & ? & ? & ?). exists k, text, entry. eauto using told_mono. Qed.

Lemma user_read_mono tr tr1 tr2 u p : user_read tr u p → user_read (tr1 ++ tr ++ tr2) u p.
Proof.
  intros [Hr|[-> (k & text & t1 & t2 & t3 & ? & ? & -> & ?)]]; [left; by apply entry_read_mono|right].
  split; [done|]. exists k, text, (tr1 ++ t1), t2, (t3 ++ tr2).
  split; [done|]. split; [done|]. split; [|done]. by rewrite <- !app_assoc.
Qed.

Lemma price_read_mono tr tr1 tr2 oracle a p :
  price_read tr oracle a p → price_read (tr1 ++ tr ++ tr2) oracle a p.
Proof.
  intros (arg & v & found & ? & (env & sim & call & ? & ?) & ?). exists arg, v, found.
  split; [done|]. split; [|done]. exists env, sim, call. set_solver.
Qed.

Lemma view_returns contract function args :
  returns read (view contract function args) (λ tr r, match r with
    | Ok (ledger, value) => Forall (at_ledger ledger) tr ∧ tr ≠ [] ∧
        viewed tr contract function args value
    | Err e => ∀ a b, e ≠ LedgerMoved a b
    end).
Proof.
  unfold view. apply returns_try_ret.
  destruct (invoke_contract_op contract function args) as [op|e] eqn:Hop; simpl; [|done].
  apply returns_try_ret. destruct (simulation_envelope op) as [env|e] eqn:Henv;
    simpl; [|done].
  eapply returns_try; [apply (call_returns (SimulateView env) (λ tr r, match r with
      | Ok sim => tr = [RView env (Ok sim)]
      | Err e => ∀ a b, e ≠ LedgerMoved a b end)); naive_solver|done|].
  intros sim tr1 ->. apply returns_ret. rewrite app_nil_r.
  destruct (sim_outcome sim) as [call|message code] eqn:Hout; [|done].
  split; [by repeat constructor|]. split; [done|]. exists env, sim, call.
  split; [by apply list_elem_of_singleton|]. split; [|done].
  unfold view_envelope. by rewrite Hop.
Qed.

Lemma same_ledger_fair tr ledger at_ tr1 e :
  Forall (at_ledger ledger) tr → tr ≠ [] → Forall (at_ledger at_) tr1 → tr1 ≠ [] →
  same_ledger ledger at_ = Err e → fair_error (tr ++ tr1) e.
Proof.
  unfold same_ledger. intros Htr Hne Htr1 Hne1. destruct (Z.eqb_spec ledger at_); [done|].
  intros [= <-]. destruct tr as [|o1 tr]; [done|]. destruct tr1 as [|o2 tr1]; [done|].
  exists o1, o2, ledger, at_. repeat (apply Forall_cons_1 in Htr as [? _]).
  apply Forall_cons_1 in Htr1 as [? _]. set_solver.
Qed.

Lemma same_ledger_ok ledger at_ u : same_ledger ledger at_ = Ok u → at_ = ledger.
Proof. unfold same_ledger. by destruct (Z.eqb_spec ledger at_). Qed.

(** The prices read so far, at one ledger. *)
Definition priced (oracle : string) (ledger : Z) (tr : list Read) (prices : gmap string Z) : Prop :=
  Forall (at_ledger ledger) tr ∧ tr ≠ [] ∧
  ∀ a p, prices !! a = Some p → price_read tr oracle a p.

Lemma priced_app oracle ledger tr tr1 prices :
  priced oracle ledger tr prices → Forall (at_ledger ledger) tr1 →
  priced oracle ledger (tr ++ tr1) prices.
Proof.
  intros (Hl & Hne & Hp) Hl1. split; [by apply Forall_app|]. split; [by destruct tr|].
  intros a p Ha. apply (price_read_mono _ []). by apply Hp.
Qed.

Lemma asset_prices_returns oracle assets ledger tr0 prices timestamps :
  priced oracle ledger tr0 prices →
  returns read (asset_prices oracle assets ledger prices timestamps) (λ tr r, match r with
    | Ok (prices, _) => priced oracle ledger (tr0 ++ tr) prices
    | Err e => fair_error (tr0 ++ tr) e
    end).
Proof.
  revert tr0 prices timestamps. induction assets as [|asset assets IH]; intros tr0 prices ts Hp; simpl.
  { apply returns_ret. by rewrite app_nil_r. }
  apply returns_try_ret. destruct (stellar_asset asset) as [arg|e] eqn:Harg; simpl; [|done].
  eapply returns_try; [apply view_returns| |].
  { intros tr e He. destruct e; try done. by destruct (He first second). }
  intros [at_ value] tr1 (Hl1 & Hne1 & Hv). apply returns_try_ret.
  destruct (same_ledger ledger at_) as [u|e] eqn:Hsame.
  2: { rewrite app_nil_r. destruct Hp as (? & ? & _). by eapply same_ledger_fair. }
  apply same_ledger_ok in Hsame as ->. apply returns_try_ret.
  destruct (chain_of (price_data value)) as [found|e] eqn:Hprice; [|by eapply fair_chain_of].
  apply map_err_ok in Hprice. destruct found as [found|].
  - eapply returns_weaken; [apply (IH (tr0 ++ tr1))|intros tr r; cbv beta; by rewrite <- app_assoc].
    destruct (priced_app _ _ _ _ _ Hp Hl1) as (? & ? & Hp'). split; [done|]. split; [done|].
    intros a p [[<- <-]|[_ Ha]]%lookup_insert_Some; [|by apply Hp'].
    exists arg, value, found. split; [done|]. split; [|done].
    destruct Hv as (env & sim & call & ? & ?). exists env, sim, call. set_solver.
  - eapply returns_weaken; [apply (IH (tr0 ++ tr1))|intros tr r; cbv beta; by rewrite <- app_assoc].
    by apply priced_app.
Qed.

Lemma pool_prices_returns oracle assets ledger tr0 :
  Forall (at_ledger ledger) tr0 → tr0 ≠ [] →
  returns read (pool_prices oracle assets ledger) (λ tr r, match r with
    | Ok (prices, _) => priced oracle ledger (tr0 ++ tr) (op_prices prices)
    | Err e => fair_error (tr0 ++ tr) e
    end).
Proof.
  intros Hl Hne. unfold pool_prices. eapply returns_try; [apply view_returns| |].
  { intros tr e He. destruct e; try done. by destruct (He first second). }
  intros [at_ value] tr1 (Hl1 & Hne1 & _). apply returns_try_ret.
  destruct (same_ledger ledger at_) as [u|e] eqn:Hsame.
  2: { rewrite app_nil_r. by eapply same_ledger_fair. }
  apply same_ledger_ok in Hsame as ->. apply returns_try_ret.
  destruct (chain_of (Decode.decimals value)) as [decimals|e] eqn:Hd; [|by eapply fair_chain_of].
  eapply returns_try; [apply (asset_prices_returns oracle assets ledger (tr0 ++ tr1))| |].
  - split; [by apply Forall_app|]. split; [by destruct tr0|done].
  - intros tr e He. by rewrite app_assoc.
  - intros [prices ts] tr2 Hp. apply returns_ret. rewrite app_nil_r, app_assoc.
    destruct (oracle_new decimals prices) as [o|e] eqn:Ho; simpl; [|done].
    unfold oracle_new in Ho. rust_inv. by subst.
Qed.

Lemma required_ok {A} entries k subject what
    (decode : _ → result (XdrError XdrLibraryError) A) a :
  required entries k subject what decode = Ok a →
  ∃ text entry, to_base64 k = Ok text ∧ les_entries entries !! text = Some entry ∧
    decode (le_data entry) = Ok a.
Proof.
  unfold required, get, chain_of. intros Hr. rust_inv. subst.
  destruct (les_entries entries !! _) as [entry|] eqn:He; [|done].
  apply map_err_ok in Hr. eauto.
Qed.

Lemma required_fair {A} entries k subject what
    (decode : _ → result (XdrError XdrLibraryError) A) tr e :
  required entries k subject what decode = Err e → fair_error tr e.
Proof.
  unfold required, get. destruct (to_base64 k) as [text|err]; simpl; [|by intros [= <-]].
  destruct (_ !! text); simpl; [by apply fair_chain_of|by intros [= <-]].
Qed.

Lemma required_read {A} requested tr entries key k subject what
    (decode : _ → result (XdrError XdrLibraryError) A) a :
  entries_told requested tr entries → key = Ok k →
  required entries k subject what decode = Ok a → entry_read tr key decode a.
Proof.
  intros Het Hk (text & entry & Ht & He & Hd)%required_ok.
  exists k, text, entry. repeat split; try done. by eapply et_told.
Qed.

Lemma pool_shape_returns :
  returns read (pool_shape pool) (λ tr r, match r with
    | Ok (ledger, instance, _) => Forall (at_ledger ledger) tr ∧ tr ≠ [] ∧
        entry_read tr (instance_key pool) pool_instance instance
    | Err e => fair_error tr e
    end).
Proof.
  unfold pool_shape. apply returns_try_ret.
  destruct (instance_key pool) as [k1|e] eqn:Hk1; simpl; [|done]. apply returns_try_ret.
  destruct (reserve_list_key pool) as [k2|e] eqn:Hk2; simpl; [|done].
  eapply returns_try; [apply ledger_entries_returns|done|]. intros es tr1 (encoded & _ & Het).
  apply returns_ret. rewrite app_nil_r.
  destruct (required es k1 _ _ _) as [instance|e] eqn:H2; simpl; [|by eapply required_fair].
  destruct (required es k2 _ _ _) as [assets|e] eqn:H3; simpl; [|by eapply required_fair].
  split; [by eapply et_ledger|]. split; [by eapply et_some|]. by eapply required_read.
Qed.

(** The reserves built so far: each where its own configuration puts it. *)
Definition built_from (entries : LedgerEntries) (built : gmap Z Reserve * gmap string Z) : Prop :=
  (∀ i r, built.1 !! i = Some r → i = rc_index (rs_config r) ∧
     build_reserve pool entries (rs_asset r) = Ok r ∧ built.2 !! rs_asset r = Some i) ∧
  (∀ a i, built.2 !! a = Some i → ∃ r, built.1 !! i = Some r ∧ rs_asset r = a).

Lemma build_reserve_asset entries asset r :
  build_reserve pool entries asset = Ok r → rs_asset r = asset.
Proof. unfold build_reserve, Reserve.new. intros Hb. rust_inv. by subst. Qed.

Lemma read_reserves_ok entries assets built :
  try_fold (read_reserve pool entries) (∅, ∅) assets = Ok built → built_from entries built.
Proof.
  intros Hf. eapply (try_fold_inv _ (built_from entries)); [|clear built Hf|exact Hf].
  { split; simpl; set_solver. }
  intros built built' asset _ [Hb Hi] (r & Hr & Hs)%bind_ok.
  pose proof (build_reserve_asset _ _ _ Hr) as Ha. subst asset. cbv zeta in Hs.
  destruct (built.1 !! rc_index (rs_config r)) as [|] eqn:Hfree; [done|]. injection Hs as <-.
  assert (∀ i, built.2 !! rs_asset r ≠ Some i) as Hnew.
  { intros i Hin. destruct (Hi _ _ Hin) as (r' & Hr' & Heq).
    destruct (Hb _ _ Hr') as (-> & Hr2 & _). rewrite Heq, Hr in Hr2. injection Hr2 as ->.
    by rewrite Hfree in Hr'. }
  split; simpl.
  - intros i r' [[<- <-]|[Hne Hr']]%lookup_insert_Some; [by rewrite lookup_insert_eq|].
    destruct (Hb _ _ Hr') as (? & ? & Hin). split; [done|]. split; [done|].
    rewrite lookup_insert_ne; [done|]. intros Heq. rewrite <- Heq in Hin. by eapply Hnew.
  - intros a i [[<- <-]|[Hne Hin]]%lookup_insert_Some; [exists r; by rewrite lookup_insert_eq|].
    destruct (Hi _ _ Hin) as (r' & Hr' & <-). exists r'. split; [|done].
    rewrite lookup_insert_ne; [done|]. intros Heq. by rewrite Heq, Hr' in Hfree.
Qed.

Lemma read_users_ok entries users found :
  try_fold (read_user pool entries) ∅ users = Ok found →
  ∀ u, u ∈ users → ∃ p k text, found !! u = Some p ∧ positions_key pool u = Ok k ∧
    to_base64 k = Ok text ∧
    match les_entries entries !! text with
    | Some entry => positions (le_data entry) = Ok p
    | None => p = empty_positions
    end.
Proof.
  intros Hf. eapply (try_fold_prefix _ (λ l found, ∀ u, u ∈ l → ∃ p k text, found !! u = Some p ∧
    positions_key pool u = Ok k ∧ to_base64 k = Ok text ∧
    match les_entries entries !! text with
    | Some entry => positions (le_data entry) = Ok p
    | None => p = empty_positions
    end)); [by intros u Hu%elem_of_nil| |exact Hf].
  intros l1 a l2 m m' _ Hm Hr u Hu. unfold read_user, get, chain_of in Hr. rust_inv. subst.
  rename x into k, x2 into text, x1 into found_positions.
  destruct (decide (u = a)) as [->|Hne].
  - exists found_positions, k, text. rewrite lookup_insert_eq. split; [done|]. split; [done|].
    split; [done|]. destruct (les_entries entries !! text) as [entry|];
      [by apply map_err_ok in Hstep1|by injection Hstep1].
  - rewrite lookup_insert_ne by done. apply Hm. set_solver.
Qed.

Lemma read_reserve_fair entries assets built tr e :
  try_fold (read_reserve pool entries) built assets = Err e → fair_error tr e.
Proof.
  revert built. induction assets as [|a assets IH]; intros built; simpl; [done|].
  destruct (read_reserve pool entries built a) as [b|err] eqn:Hr; simpl; [apply IH|].
  intros [= <-]. unfold read_reserve in Hr.
  destruct (build_reserve pool entries a) as [r|err'] eqn:Hb; simpl in Hr.
  { destruct (built.1 !! _); [|done]. by injection Hr as <-. }
  injection Hr as <-. unfold build_reserve in Hb.
  destruct (reserve_config_key pool a); [|by injection Hb as <-]. simpl in Hb.
  destruct (required entries _ _ _ reserve_config) eqn:Hc; simpl in Hb;
    [|injection Hb as <-; by eapply required_fair].
  destruct (reserve_data_key pool a); [|by injection Hb as <-]. simpl in Hb.
  destruct (required entries _ _ _ reserve_data) eqn:Hd; simpl in Hb;
    [|injection Hb as <-; by eapply required_fair].
  destruct (Reserve.new _ _ _); [done|]. by injection Hb as <-.
Qed.

Lemma read_user_fair entries users found tr e :
  try_fold (read_user pool entries) found users = Err e → fair_error tr e.
Proof.
  revert found. induction users as [|u users IH]; intros found; simpl; [done|].
  destruct (read_user pool entries found u) as [b|err] eqn:Hr; simpl; [apply IH|].
  intros [= <-]. unfold read_user, get in Hr.
  destruct (positions_key pool u); [|by injection Hr as <-]. simpl in Hr.
  destruct (to_base64 _); [|by injection Hr as <-]. simpl in Hr.
  destruct (_ !! _); simpl in Hr; [|done]. destruct (positions _); [done|]. by injection Hr as <-.
Qed.

Lemma collect_fair {A B} (f : A → result ChainError B) l tr e :
  (∀ a e, f a = Err e → fair_error tr e) → collect f l = Err e → fair_error tr e.
Proof.
  intros Hf. unfold collect. cut (∀ bs, try_fold (λ bs a, let? b := f a in Ok (bs ++ [b])) bs l = Err e →
    fair_error tr e); [eauto|]. induction l as [|a l IH]; intros bs; simpl; [done|].
  destruct (f a) as [b|err] eqn:Hfa; simpl; [apply IH|]. intros [= <-]. by eapply Hf.
Qed.

Lemma wanted_fair assets users tr e : wanted_keys pool assets users = Err e → fair_error tr e.
Proof.
  unfold wanted_keys. destruct (collect (reserve_keys pool) assets) as [ks|err] eqn:Hk; simpl.
  - destruct (collect _ users) as [us|err] eqn:Hu; simpl; [done|]. intros [= <-].
    eapply collect_fair; [|exact Hu]. intros a e'. apply fair_chain_of.
  - intros [= <-]. eapply collect_fair; [|exact Hk]. intros a e'. unfold reserve_keys.
    destruct (reserve_config_key pool a); simpl; [|by intros [= <-]].
    destruct (reserve_data_key pool a); simpl; [done|by intros [= <-]].
Qed.

(** The users of a snapshot were among the keys its second read asked for. *)
Lemma wanted_users assets users wanted encoded u k text :
  wanted_keys pool assets users = Ok wanted → collect to_base64 wanted = Ok encoded →
  u ∈ users → positions_key pool u = Ok k → to_base64 k = Ok text → text ∈ encoded.
Proof.
  unfold wanted_keys. intros Hw He Hu Hk Ht. rust_inv. subst.
  apply collect_ok in He, Hstep0.
  assert (k ∈ x0) as Hin.
  { apply list_elem_of_lookup in Hu as (i & Hi).
    destruct (Forall2_lookup_l _ _ _ _ _ Hstep0 Hi) as (k' & Hk' & Heq).
    apply map_err_ok in Heq. rewrite Hk in Heq. injection Heq as <-.
    by eapply list_elem_of_lookup_2. }
  assert (k ∈ concat x ++ x0) as Hin' by set_solver.
  apply list_elem_of_lookup in Hin' as (i & Hi).
  destruct (Forall2_lookup_l _ _ _ _ _ He Hi) as (t & Ht' & Heq).
  rewrite Ht in Heq. injection Heq as <-. by eapply list_elem_of_lookup_2.
Qed.

(** An entry read, as the later part of an attempt's trace shows it. *)
Lemma entry_told_read {A} requested tr entries key k text entry
    (decode : _ → result (XdrError XdrLibraryError) A) a :
  entries_told requested tr entries → key = Ok k → to_base64 k = Ok text →
  les_entries entries !! text = Some entry → decode (le_data entry) = Ok a →
  entry_read tr key decode a.
Proof. intros Het ? ? ? ?. exists k, text, entry. repeat split; try done. by eapply et_told. Qed.

Lemma built_reserves_read requested tr entries assets reserves asset_index s i r :
  entries_told requested tr entries →
  try_fold (read_reserve pool entries) (∅, ∅) assets = Ok (reserves, asset_index) →
  ps_asset_index s = asset_index → reserves !! i = Some r → reserve_read tr s i r.
Proof.
  intros Het [Hb _]%read_reserves_ok Hidx Hr. destruct (Hb _ _ Hr) as (-> & Hbuild & Hin).
  simpl in Hin. unfold build_reserve, Reserve.new, chain_of in Hbuild.
  rust_inv; subst; simpl in *. destruct r as [asset c d sc]; simpl in *. injection Hbuild as -> -> ->.
  split; simpl; [done|by eapply required_read|by eapply required_read|done|done].
Qed.

Definition attempt_result (users : list string) (tr : list Read)
    (r : result ChainError PoolSnapshot) : Prop :=
  match r with
  | Ok s => one_ledger_view users tr s
  | Err e => fair_error tr e
  end.

Lemma snapshot_once_returns users : returns read (snapshot_once pool users) (attempt_result users).
Proof.
  unfold snapshot_once. eapply returns_try; [apply pool_shape_returns|done|].
  intros [[ledger instance] assets] tr1 (Hl1 & Hne1 & Hinst). apply returns_try_ret.
  destruct (wanted_keys pool assets users) as [wanted|e] eqn:Hw.
  2: { by eapply wanted_fair. }
  eapply returns_try; [apply ledger_entries_returns| |].
  { intros tr e He. by apply fair_error_app. }
  intros entries tr2 (encoded & Henc & Het). apply returns_try_ret.
  destruct (same_ledger ledger _) as [u|e] eqn:Hsame.
  2: { rewrite app_nil_r. eapply same_ledger_fair; try done; [by eapply et_ledger|by eapply et_some]. }
  apply same_ledger_ok in Hsame. apply returns_try_ret.
  destruct (try_fold (read_reserve pool entries) (∅, ∅) assets) as [[reserves index]|e] eqn:Hres;
    [|by eapply read_reserve_fair]. apply returns_try_ret.
  destruct (try_fold (read_user pool entries) ∅ users) as [found|e] eqn:Husers;
    [|by eapply read_user_fair].
  pose proof (et_ledger _ _ _ Het) as Hl2. rewrite Hsame in Hl2.
  eapply returns_try; [apply (pool_prices_returns _ _ _ (tr1 ++ tr2))| |].
  - by apply Forall_app.
  - by destruct tr1.
  - intros tr e He. by rewrite app_assoc.
  - intros [prices ts] tr3 (Hl & Hne & Hp). apply returns_ret. rewrite app_nil_r.
    rewrite app_assoc. split; simpl; try done.
    + rewrite <- app_assoc. by apply (entry_read_mono _ []).
    + intros i r Hr. assert (reserve_read tr2 (mkPoolSnapshot ledger pool instance reserves index
        prices ts found) i r) as [? ? ? ? ?] by by eapply built_reserves_read.
      rewrite <- app_assoc. split; try done; by apply entry_read_mono.
    + intros u' Hu'. destruct (read_users_ok _ _ _ Husers u' Hu') as (p & k & text & ? & ? & ? & He).
      exists p. split; [done|]. rewrite <- app_assoc. apply user_read_mono.
      destruct (les_entries entries !! text) as [entry|] eqn:Hentry.
      * left. by eapply entry_told_read.
      * right. split; [done|]. exists k, text, [], tr2, []. split; [done|]. split; [done|].
        split; [by rewrite app_nil_r|]. eapply et_untold; [done| |done].
        by eapply wanted_users.
Qed.

(** What an answer of [snapshot] says of its reads: the attempts that saw the
    ledger move, then the one that answers. *)
Definition snapshot_result (users : list string) (tr : list Read)
    (r : result ChainError PoolSnapshot) : Prop :=
  ∃ retried last,
    tr = concat retried ++ last ∧ Forall moved retried ∧
    match r with
    | Ok s => (length retried ≤ 2)%nat ∧ one_ledger_view users last s
    | Err (LedgerMoved _ _) => length retried = 2%nat ∧ moved last
    | Err _ => (length retried ≤ 2)%nat
    end.

Lemma snapshot_returns users : returns read (snapshot pool users) (snapshot_result users).
Proof.
  apply (returns_iter _ (λ attempt tr, ∃ retried, tr = concat retried ∧ Forall moved retried ∧
    attempt = Z.of_nat (length retried) + 1 ∧ (length retried ≤ 2)%nat)).
  { exists []. split; [done|]. split; [constructor|]. simpl. lia. }
  intros attempt tr0 (retried & -> & Hm & -> & Hle).
  eapply returns_bind; [apply snapshot_once_returns|]. intros r tr1 Hr. apply returns_ret.
  rewrite app_nil_r. destruct r as [s|e]; [by exists retried, tr1|].
  destruct e; try by exists retried, tr1. simpl in Hr.
  destruct (Z.ltb_spec (Z.of_nat (length retried) + 1) SNAPSHOT_ATTEMPTS) as [Hlt|Hge];
    unfold SNAPSHOT_ATTEMPTS in *.
  - exists (retried ++ [tr1]). rewrite concat_app, length_app. simpl. rewrite app_nil_r.
    split; [done|]. split; [by apply Forall_app; repeat constructor|]. lia.
  - exists retried, tr1. repeat split; try done. lia.
Qed.

(** What an answer of [read_auction] says: the entry under the auction's key in
    the ledger answered, or that no entry is there. *)
Definition auction_result (user : string) (t : AuctionType) (tr : list Read)
    (r : result ChainError (option (Z * AuctionData))) : Prop :=
  match r with
  | Ok found => ∃ key k, auction_key pool user t = Ok key ∧ to_base64 key = Ok k ∧
      match found with
      | Some (ledger, auction) => Forall (at_ledger ledger) tr ∧
          ∃ entry, told tr k entry ∧ Decode.auction (le_data entry) = Ok auction
      | None => untold tr k
      end
  | Err _ => True
  end.

Lemma read_auction_returns user t : returns read (read_auction pool user t) (auction_result user t).
Proof.
  unfold read_auction. apply returns_try_ret.
  destruct (auction_key pool user t) as [key|e] eqn:Hkey; [|done]. simpl.
  eapply returns_try; [apply ledger_entries_returns|done|].
  intros entries tr (encoded & Henc & Het). apply returns_ret. rewrite app_nil_r.
  apply collect_ok in Henc.
  inversion Henc as [|? k ? tl Hk Hnil Hal Hbl]. inversion Hnil. subst. clear Henc Hnil.
  unfold get. rewrite Hk. simpl.
  destruct (les_entries entries !! k) as [entry|] eqn:Hentry; simpl.
  - destruct (Decode.auction (le_data entry)) as [auction|e] eqn:Ha; simpl; [|done].
    exists key, k. split; [done|]. split; [done|]. split; [by eapply et_ledger|].
    exists entry. split; [by eapply et_told|done].
  - exists key, k. split; [done|]. split; [done|]. apply (et_untold _ _ _ Het); [constructor|exact Hentry].
Qed.

(** ** Every attempt ends *)

Section ending.
Context {W : Type} (answer : ∀ X : Type, ReadE X → W → X * W).

Ltac halt := first
  [apply halts_ret|apply call_halts|apply ledger_entries_halts
  |apply halts_try; [halt|intros ? ?; cbv beta; halt]
  |match goal with |- halts _ _ _ (let '(_, _) := ?p in _) => destruct p; halt end
  |match goal with |- halts _ _ _ (match ?p with Some _ => _ | None => _ end) =>
     destruct p; halt end
  |solve [eauto]].

Lemma view_halts contract function args w : halts read answer w (view contract function args).
Proof. unfold view. halt. Qed.
#[local] Hint Resolve view_halts : core.

Lemma asset_prices_halts oracle assets ledger prices ts w :
  halts read answer w (asset_prices oracle assets ledger prices ts).
Proof. revert prices ts w. induction assets as [|a assets IH]; intros prices ts w; simpl; halt. Qed.
#[local] Hint Resolve asset_prices_halts : core.

Lemma pool_prices_halts oracle assets ledger w :
  halts read answer w (pool_prices oracle assets ledger).
Proof. unfold pool_prices. halt. Qed.

Lemma pool_shape_halts w : halts read answer w (pool_shape pool).
Proof. unfold pool_shape. halt. Qed.
#[local] Hint Resolve pool_prices_halts pool_shape_halts : core.

Lemma snapshot_once_halts users w : halts read answer w (snapshot_once pool users).
Proof. unfold snapshot_once. halt. Qed.

Lemma snapshot_halts users w : halts read answer w (snapshot pool users).
Proof.
  apply (halts_iter _ _ (λ attempt, Z.to_nat (SNAPSHOT_ATTEMPTS - attempt))). intros w1 attempt.
  eapply ends_bind; [apply snapshot_once_halts|]. intros tr r w2 _. apply ends_ret.
  destruct r as [s|[]]; try done. destruct (Z.ltb_spec attempt SNAPSHOT_ATTEMPTS); [lia|done].
Qed.

Lemma read_auction_halts user t w : halts read answer w (read_auction pool user t).
Proof. unfold read_auction. halt. Qed.

Lemma read_balance_halts token account w : halts read answer w (read_balance token account).
Proof. unfold read_balance. halt. Qed.
End ending.

(** ** Properties *)

(** C25: a snapshot describes one ledger. At most two attempts, each of which saw
    two reads at different ledgers, come before the one that answers; every
    field of what that one answers — the configuration, each reserve, each
    requested user's positions, each price — was read in it, and every one of
    its reads was at the snapshot's ledger. A moved ledger is answered only
    after three attempts that saw one. And it always answers. *)
Theorem snapshot_is_one_ledger (users : list string) :
  (∀ W (answer : ∀ X : Type, ReadE X → W → X * W) w,
     halts read answer w (snapshot pool users)) ∧
  returns read (snapshot pool users) (λ tr r, ∃ retried last,
    tr = concat retried ++ last ∧ Forall moved retried ∧
    match r with
    | Ok s => (length retried ≤ 2)%nat ∧ one_ledger_view users last s
    | Err (LedgerMoved _ _) => length retried = 2%nat ∧ moved last
    | Err _ => (length retried ≤ 2)%nat
    end).
Proof.
  split; [intros; apply snapshot_halts|exact (snapshot_returns users)].
Qed.
End view_of.

(** Positions are valued at one instant: the later of the tick asked for and
    the newest reserve of the snapshot, so that no reserve is accrued
    backwards. Every reserve a valuation uses is that snapshot's, accrued to
    that instant as accrual promises; the position data are computed from those
    and from nothing else; and asking for the instant itself changes nothing. *)
Theorem valuation_is_at_one_instant `{Xdr} (s : PoolSnapshot) (close_time : Z)
    (rs : gmap Z Reserve) (user : string) (p : Positions)
    (Hwf : wf_snapshot s) (Hrs : accrued_reserves s close_time = Ok rs)
    (Hp : ps_positions s !! user = Some p) :
  let now := valued_at s close_time in
  close_time ≤ now ∧
  (∀ i r, ps_reserves s !! i = Some r → rd_last_time (rs_data r) ≤ now) ∧
  dom rs = dom (ps_reserves s) ∧
  (∀ i r, ps_reserves s !! i = Some r → ∃ r', rs !! i = Some r' ∧ accrued_to now r r') ∧
  position_data s user close_time =
    (if is_empty p then Ok None
     else map_err MathFailure
       (let? data := calculate_position_data rs (ps_prices s) p in Ok (Some data))) ∧
  position_data s user now = position_data s user close_time.
Proof.
  destruct (valued_at_spec s close_time) as (Hle & Hlast & _).
  destruct (accrued_reserves_ok _ _ _ Hrs) as [Hdom Hacc]. cbv zeta.
  split; [done|]. split; [done|]. split; [done|]. split.
  { intros i r Hr. destruct (Hacc i r Hr) as (r' & Hr' & Ha). exists r'. split; [done|].
    eapply accrue_accrued_to; [by eapply wf_snap_reserves|by apply wf_snap_rate|done]. }
  unfold position_data. rewrite Hp, accrued_reserves_clamped, Hrs. split; [|done].
  destruct (is_empty p); [done|]. simpl. by destruct (calculate_position_data _ _ _).
Qed.

Definition sample_instance : PoolInstance :=
  mkPoolInstance "admin" "backstop" "BLND" "sample"
    (mkPoolConfig "oracle" 1000000 Active 8 0).

Definition sample_snapshot : PoolSnapshot :=
  mkPoolSnapshot 500 "pool" sample_instance two_pool {[ "XLM" := 0; "USDC" := 1 ]} two_prices
    {[ "XLM" := 1700000000; "USDC" := 1700000000 ]}
    {[ "alice" := two_positions; "bob" := empty_positions ]}.

Lemma valuation_is_at_one_instant_witness :
  ∃ rs, accrued_reserves sample_snapshot 0 = Ok rs ∧
    position_data (H:=tree_xdr) sample_snapshot "alice" (valued_at sample_snapshot 0) =
    position_data sample_snapshot "alice" 0.
Proof.
  assert (wf_snapshot sample_snapshot) as Hwf.
  { split; [apply two_pool_wf|]. vm_compute. split; [discriminate|reflexivity]. }
  eexists. split; [vm_compute; reflexivity|].
  eapply (valuation_is_at_one_instant sample_snapshot 0 _ "alice" two_positions Hwf);
    [vm_compute; reflexivity|reflexivity].
Defined.
