(* ===== verification/Store.v ===== *)
(** * The store ([src/store.rs], [migrations/])

    The tables, the rows' columns as the database holds them, and every query
    as the state change and the answer it is. Amount maps are JSON objects of
    decimal text; [serde_json] is class [Json], [sqlx] its error type. *)

From Stdlib Require Import Ascii.
From stdpp Require Import pretty sorting.
From S2P Require Import Prelude Fixed Position Auction Encode Decode.
Open Scope Z_scope.

(** ** Rows as the bot has them *)

Record Cursor : Type := mkCursor { cu_ledger : Z; cu_paging_token : option string }.

(** [events_cursor]. *)
Definition events_cursor (pool : string) : string := String.append "events:" pool.

Record TrackedUser : Type := mkTrackedUser {
  tu_pool : string;
  tu_account : string;
  tu_health_factor : Z;
  tu_collateral : gmap Z Z;
  tu_liabilities : gmap Z Z;
  tu_updated_ledger : Z;
  tu_recheck_ledger : option Z;
}.

Inductive Side : Type := OnCollateral | OnLiability.

Inductive CreationKind : Type := CreatedAuction | CreatedBadDebt.

(** [CreationKind::as_str]. *)
Definition creation_kind_str (self : CreationKind) : string :=
  match self with CreatedAuction => "auction" | CreatedBadDebt => "bad_debt" end.

Record CreationRecord : Type := mkCreationRecord {
  cr_kind : CreationKind;
  cr_pool : string;
  cr_account : string;
  cr_percent : option FillPercent;
  cr_bid : list string;
  cr_lot : list string;
  cr_ledger : Z;
  cr_dry_run : bool;
  cr_tx_hash : option string;
}.

Record TrackedAuction : Type := mkTrackedAuction {
  ta_pool : string;
  ta_account : string;
  ta_auction_type : AuctionType;
  ta_start_ledger : Z;
  ta_fill_ledger : option Z;
  ta_percent : option FillPercent;
  ta_bid : gmap string Z;
  ta_lot : gmap string Z;
  ta_updated_ledger : Z;
}.

Record FillRecord : Type := mkFillRecord {
  fr_pool : string;
  fr_account : string;
  fr_auction_type : AuctionType;
  fr_fill_ledger : Z;
  fr_percent : FillPercent;
  fr_bid : gmap string Z;
  fr_lot : gmap string Z;
  fr_bid_value : Z;
  fr_lot_value : Z;
  fr_est_profit : Z;
  fr_dry_run : bool;
}.

(** ** Decimal text

    [to_string] and [parse] of the integer types. *)

Definition dec_digit (c : ascii) : option Z :=
  let n := Z.of_nat (nat_of_ascii c) in
  if (48 <=? n) && (n <=? 57) then Some (n - 48) else None.

Fixpoint dec_digits (acc : Z) (text : string) : option Z :=
  match text with
  | EmptyString => Some acc
  | String c text => dec_digit c ≫= λ d, dec_digits (10 * acc + d) text
  end.

(** Digits, at least one. *)
Definition dec_number (text : string) : option Z :=
  match text with EmptyString => None | _ => dec_digits 0 text end.

Definition within (lo hi : Z) (value : option Z) : option Z :=
  value ≫= λ z, if (lo <=? z) && (z <=? hi) then Some z else None.

Definition parse_i128 (text : string) : option Z :=
  within i128_min i128_max
    (match text with
     | String "+" digits => dec_number digits
     | String "-" digits => Z.opp <$> dec_number digits
     | _ => dec_number text
     end).

Definition parse_u32 (text : string) : option Z :=
  within 0 u32_max
    (match text with
     | String "+" digits => dec_number digits
     | _ => dec_number text
     end).

(** ** JSON and errors *)

Class Json : Type := {
  Value : Type;
  v_string : string → Value;
  v_object : gmap string Value → Value;
  as_object : Value → option (gmap string Value);
  as_str : Value → option string;
  as_object_object m : as_object (v_object m) = Some m;
  as_str_string s : as_str (v_string s) = Some s;
  SqlxError : Type;
  check_violation : SqlxError;
  unique_violation : SqlxError;
}.

Inductive StoreError `{Json} : Type :=
| Query (e : SqlxError)
| Decimal (column value : string)
| JsonColumn (column detail : string).

Section columns.
Context `{Json}.
(** The [{:?}] rendering of a string in error texts. *)
Context (debug_str : string → string).

Abbreviation sresult A := (result StoreError A).

(** [decimal]. *)
Definition decimal (text : option string) (column : string) : sresult Z :=
  let? text := ok_or text (Decimal column "NULL") in
  ok_or (parse_i128 text) (Decimal column text).

(** [ledger]: a [bigint] column as a [u32]. *)
Definition ledger (value : Z) (column : string) : sresult Z :=
  ok_or (to_u32 value) (Decimal column (pretty value)).

(** [index_amounts_to_json] and [index_amounts_from_json]. *)
Definition index_amounts_to_json (amounts : gmap Z Z) : Value :=
  v_object (list_to_map (map (λ e : Z * Z, (pretty e.1, v_string (pretty e.2))) (bt_iter amounts))).

Definition amount_from (column key : string) (amount : Value) : sresult Z :=
  let? text := ok_or (as_str amount)
    (JsonColumn column (String.concat "" ["amount for "; key; " is not a string"])) in
  ok_or (parse_i128 text)
    (JsonColumn column (String.concat "" ["amount for "; key; " is not an integer"])).

Definition index_amounts_from_json (value : Value) (column : string) : sresult (gmap Z Z) :=
  let? object := ok_or (as_object value) (JsonColumn column "not an object") in
  collect_map (λ e : string * Value,
    let? index := ok_or (parse_u32 e.1)
      (JsonColumn column (String.concat "" ["key "; debug_str e.1; " is not a reserve index"])) in
    let? amount := amount_from column e.1 e.2 in
    Ok (index, amount)) (bt_iter object).

(** [asset_amounts_to_json] and [asset_amounts_from_json]. *)
Definition asset_amounts_to_json (amounts : gmap string Z) : Value :=
  v_object (list_to_map (map (λ e : string * Z, (e.1, v_string (pretty e.2))) (bt_iter amounts))).

Definition asset_amounts_from_json (value : Value) (column : string) : sresult (gmap string Z) :=
  let? object := ok_or (as_object value) (JsonColumn column "not an object") in
  collect_map (λ e : string * Value,
    let? amount := amount_from column e.1 e.2 in
    Ok (e.1, amount)) (bt_iter object).

(** [auction_type_code] and the [_from_code] readers of [smallint] columns. *)
Definition type_code (auction_type : AuctionType) : Z := auction_type_code auction_type.

Definition auction_type_from_code (code : Z) : sresult AuctionType :=
  let error := Decimal "auction_type" (pretty code) in
  let? value := ok_or (to_u32 code) error in
  map_err (λ _, error) (auction_type_try_from (X:=()) value).

Definition percent_from_code (code : Z) : sresult FillPercent :=
  let error := Decimal "percent" (pretty code) in
  let? value := ok_or (to_u32 code) error in
  map_err (λ _, error) (fill_percent_try_from (X:=()) value).

(** [i16::try_from] of a percent. *)
Definition percent_code (percent : FillPercent) : sresult Z :=
  if (- 32768 <=? fp_get percent) && (fp_get percent <=? 32767) then Ok (fp_get percent)
  else Err (Decimal "percent" (pretty (fp_get percent))).

(** [.map(f).transpose()]. *)
Definition traverse {A B : Type} (f : A → sresult B) (o : option A) : sresult (option B) :=
  match o with
  | None => Ok None
  | Some a => let? b := f a in Ok (Some b)
  end.
End columns.

(** ** The tables ([migrations/])

    What each row holds besides its primary key. *)

Section tables.
Context `{Json}.
Context (debug_str : string → string).

Record UserRow : Type := mkUserRow {
  ur_health_factor : Z;
  ur_collateral : Value;
  ur_liabilities : Value;
  ur_updated_ledger : Z;
  ur_recheck_ledger : option Z;
}.

Record AuctionRow : Type := mkAuctionRow {
  ar_start_ledger : Z;
  ar_fill_ledger : option Z;
  ar_percent : option Z;
  ar_bid : Value;
  ar_lot : Value;
  ar_updated_ledger : Z;
}.

(** The rows of the audit tables are what was recorded, their [tx_hash], and
    nothing the bot reads back. *)
Record CreationRow : Type := mkCreationRow {
  cw_record : CreationRecord;
  cw_tx_hash : option string;
}.

Record FillRow : Type := mkFillRow {
  fw_record : FillRecord;
  fw_tx_hash : option string;
}.

Record Db : Type := mkDb {
  db_cursors : gmap string (Z * option string);
  db_users : gmap (string * string) UserRow;
  db_auctions : gmap (string * string * Z) AuctionRow;
  db_creations : gmap Z CreationRow;
  db_next_creation : Z;
  db_fills : gmap Z FillRow;
  db_next_fill : Z;
}.

Definition with_cursors (m : gmap string (Z * option string)) (d : Db) : Db :=
  mkDb m (db_users d) (db_auctions d) (db_creations d) (db_next_creation d) (db_fills d)
    (db_next_fill d).
Definition with_users (m : gmap (string * string) UserRow) (d : Db) : Db :=
  mkDb (db_cursors d) m (db_auctions d) (db_creations d) (db_next_creation d) (db_fills d)
    (db_next_fill d).
Definition with_auctions (m : gmap (string * string * Z) AuctionRow) (d : Db) : Db :=
  mkDb (db_cursors d) (db_users d) m (db_creations d) (db_next_creation d) (db_fills d)
    (db_next_fill d).
Definition with_creations (m : gmap Z CreationRow) (next : Z) (d : Db) : Db :=
  mkDb (db_cursors d) (db_users d) (db_auctions d) m next (db_fills d) (db_next_fill d).
Definition with_fills (m : gmap Z FillRow) (next : Z) (d : Db) : Db :=
  mkDb (db_cursors d) (db_users d) (db_auctions d) (db_creations d) (db_next_creation d) m next.

Definition empty_db : Db := mkDb ∅ ∅ ∅ ∅ 1 ∅ 1.

Abbreviation sresult A := (result StoreError A).
Abbreviation query A := (stres Db StoreError A).

Definition set_recheck (recheck : option Z) (row : UserRow) : UserRow :=
  mkUserRow (ur_health_factor row) (ur_collateral row) (ur_liabilities row)
    (ur_updated_ledger row) recheck.

(** ** Cursors *)

Definition cursor (name : string) : query (option Cursor) := st_gets (λ d,
  traverse (λ row : Z * option string,
    let? l := ledger row.1 "ledger" in Ok (mkCursor l row.2)) (db_cursors d !! name)).

Definition set_cursor (name : string) (c : Cursor) : query () :=
  st_modify (λ d, with_cursors (<[name := (cu_ledger c, cu_paging_token c)]> (db_cursors d)) d).

(** ** Users *)

(** A row as a [TrackedUser], the conversion every query shares. *)
Definition user_of (pool account : string) (row : UserRow) : sresult TrackedUser :=
  let? health_factor := decimal (Some (pretty (ur_health_factor row))) "health_factor" in
  let? collateral := index_amounts_from_json debug_str (ur_collateral row) "collateral" in
  let? liabilities := index_amounts_from_json debug_str (ur_liabilities row) "liabilities" in
  let? updated_ledger := ledger (ur_updated_ledger row) "updated_ledger" in
  let? recheck_ledger := traverse (λ v, ledger v "recheck_ledger") (ur_recheck_ledger row) in
  Ok (mkTrackedUser pool account health_factor collateral liabilities updated_ledger
        recheck_ledger).

(** [upsert_user] writes every column but [recheck_ledger]. *)
Definition upsert_user (user : TrackedUser) : query () := st_modify (λ d,
  let key := (tu_pool user, tu_account user) in
  with_users (<[key := mkUserRow (tu_health_factor user)
      (index_amounts_to_json (tu_collateral user)) (index_amounts_to_json (tu_liabilities user))
      (tu_updated_ledger user) (db_users d !! key ≫= ur_recheck_ledger)]> (db_users d)) d).

Definition delete_user (pool account : string) : query bool := λ d,
  (with_users (delete (pool, account) (db_users d)) d,
   Ok (bool_decide (is_Some (db_users d !! (pool, account))))).

Definition user (pool account : string) : query (option TrackedUser) := st_gets (λ d,
  traverse (user_of pool account) (db_users d !! (pool, account))).

(** The pool's rows under a condition. *)
Definition pool_users (pool : string) (where_ : string → UserRow → bool) (d : Db)
  : list (string * UserRow) :=
  omap (λ e : string * string * UserRow,
    if bool_decide (e.1.1 = pool) && where_ e.1.2 e.2 then Some (e.1.2, e.2) else None)
    (map_to_list (db_users d)).

Definition read_users (pool : string) (rows : list (string * UserRow)) : sresult (list TrackedUser) :=
  try_fold (λ us (e : string * UserRow), let? u := user_of pool e.1 e.2 in Ok (us ++ [u])) [] rows.

(** [(health_factor, account)] of a row, compared with another's. *)
Definition health_lt (h1 : Z) (a1 : string) (h2 : Z) (a2 : string) : bool :=
  (h1 <? h2) || ((h1 =? h2) && String.ltb a1 a2).

Definition by_health (e1 e2 : string * UserRow) : Prop :=
  health_lt (ur_health_factor e2.2) e2.1 (ur_health_factor e1.2) e1.1 = false.
#[export] Instance by_health_dec : RelDecision by_health.
Proof. intros e1 e2. unfold by_health. apply _. Defined.

Definition users_below_health (pool : string) (threshold limit : Z) (after : option (Z * string))
  : query (list TrackedUser) := st_gets (λ d,
  let rows := pool_users pool (λ account row,
    (ur_health_factor row <? threshold) &&
    match after with
    | None => true
    | Some (h, a) => health_lt h a (ur_health_factor row) account
    end) d in
  read_users pool (take (Z.to_nat limit) (merge_sort by_health rows))).

(** [users_stale] orders by ledger alone: [ties] is the order the database has
    the rows of one ledger in. *)
Definition by_staleness (e1 e2 : string * UserRow) : Prop :=
  ur_updated_ledger e1.2 ≤ ur_updated_ledger e2.2.
#[export] Instance by_staleness_dec : RelDecision by_staleness.
Proof. intros e1 e2. unfold by_staleness. apply _. Defined.

Definition users_stale (ties : list (string * UserRow) → list (string * UserRow))
    (pool : string) (updated_before limit : Z) : query (list TrackedUser) := st_gets (λ d,
  let rows := pool_users pool (λ _ row, ur_updated_ledger row <? updated_before) d in
  read_users pool (take (Z.to_nat limit) (merge_sort by_staleness (ties rows)))).

Definition count_users (pool : string) : query Z := st_gets (λ d,
  Ok (Z.of_nat (length (pool_users pool (λ _ _, true) d)))).

(** [GREATEST(recheck_ledger, ledger)]: a null counts for nothing. *)
Definition greatest (recheck : option Z) (ledger : Z) : option Z :=
  Some (match recheck with None => ledger | Some r => Z.max r ledger end).

Definition flag_row (ledger : Z) (row : UserRow) : UserRow :=
  set_recheck (greatest (ur_recheck_ledger row) ledger) row.

Definition flag_recheck (pool account : string) (ledger : Z) : query () := st_modify (λ d,
  with_users (alter (flag_row ledger) (pool, account) (db_users d)) d).

Definition by_recheck (e1 e2 : string * UserRow) : Prop :=
  health_lt (default 0 (ur_recheck_ledger e2.2)) e2.1 (default 0 (ur_recheck_ledger e1.2)) e1.1
  = false.
#[export] Instance by_recheck_dec : RelDecision by_recheck.
Proof. intros e1 e2. unfold by_recheck. apply _. Defined.

Definition users_needing_recheck (pool : string) (limit : Z) : query (list TrackedUser) :=
  st_gets (λ d,
  let rows := pool_users pool (λ _ row, bool_decide (is_Some (ur_recheck_ledger row))) d in
  read_users pool (take (Z.to_nat limit) (merge_sort by_recheck rows))).

(** [jsonb_exists]: the object has the key. *)
Definition jsonb_exists (value : Value) (key : string) : bool :=
  match as_object value with
  | Some object => bool_decide (is_Some (object !! key))
  | None => false
  end.

Definition exposed (index : Z) (side : Side) (row : UserRow) : bool :=
  jsonb_exists (match side with
                | OnCollateral => ur_collateral row
                | OnLiability => ur_liabilities row
                end) (pretty index).

Definition flag_exposed_to (pool : string) (index : Z) (side : Side) (ledger : Z) : query Z := λ d,
  let hit := λ (key : string * string) row, bool_decide (key.1 = pool) && exposed index side row in
  (with_users (map_imap (λ key row, Some (if hit key row then flag_row ledger row else row))
     (db_users d)) d,
   Ok (Z.of_nat (length (pool_users pool (λ _ row, exposed index side row) d)))).

Definition clear_recheck (pool account : string) (flagged_at : Z) : query bool := λ d,
  match db_users d !! (pool, account) with
  | Some row =>
      if bool_decide (ur_recheck_ledger row = Some flagged_at)
      then (with_users (<[(pool, account) := set_recheck None row]> (db_users d)) d, Ok true)
      else (d, Ok false)
  | None => (d, Ok false)
  end.

(** ** Creations *)

(** The check on [percent] columns: null, or 1 to 100. *)
Definition percent_check (percent : option Z) : bool :=
  match percent with None => true | Some p => (1 <=? p) && (p <=? 100) end.

(** [record_creation], with the table's checks on kind and percent. *)
Definition record_creation (creation : CreationRecord) : query Z := λ d,
  match traverse percent_code (cr_percent creation) with
  | Err e => (d, Err e)
  | Ok percent =>
      let ok := percent_check percent &&
                match cr_kind creation, percent with
                | CreatedAuction, Some _ | CreatedBadDebt, None => true
                | _, _ => false
                end in
      if ok : bool then
        let id := db_next_creation d in
        (with_creations (<[id := mkCreationRow creation (cr_tx_hash creation)]> (db_creations d))
           (id + 1) d, Ok id)
      else (with_creations (db_creations d) (db_next_creation d + 1) d, Err (Query check_violation))
  end.

Definition attach_creation_tx (id : Z) (tx_hash : string) : query bool := λ d,
  match db_creations d !! id with
  | Some (mkCreationRow record None) =>
      (with_creations (<[id := mkCreationRow record (Some tx_hash)]> (db_creations d))
         (db_next_creation d) d, Ok true)
  | _ => (d, Ok false)
  end.

(** ** Auctions *)

Definition auction_of (pool account : string) (code : Z) (row : AuctionRow)
  : sresult TrackedAuction :=
  let? auction_type := auction_type_from_code code in
  let? start_ledger := ledger (ar_start_ledger row) "start_ledger" in
  let? fill_ledger := traverse (λ v, ledger v "fill_ledger") (ar_fill_ledger row) in
  let? percent := traverse percent_from_code (ar_percent row) in
  let? bid := asset_amounts_from_json (ar_bid row) "bid" in
  let? lot := asset_amounts_from_json (ar_lot row) "lot" in
  let? updated_ledger := ledger (ar_updated_ledger row) "updated_ledger" in
  Ok (mkTrackedAuction pool account auction_type start_ledger fill_ledger percent bid lot
        updated_ledger).

Definition auction_key (pool account : string) (auction_type : AuctionType) : string * string * Z :=
  (pool, account, type_code auction_type).

Definition upsert_auction (auction : TrackedAuction) : query () := λ d,
  match traverse percent_code (ta_percent auction) with
  | Err e => (d, Err e)
  | Ok percent =>
      if percent_check percent then
        (with_auctions
           (<[auction_key (ta_pool auction) (ta_account auction) (ta_auction_type auction) :=
              mkAuctionRow (ta_start_ledger auction) (ta_fill_ledger auction) percent
                (asset_amounts_to_json (ta_bid auction)) (asset_amounts_to_json (ta_lot auction))
                (ta_updated_ledger auction)]> (db_auctions d)) d, Ok ())
      else (d, Err (Query check_violation))
  end.

Definition delete_auction (pool account : string) (auction_type : AuctionType) : query bool := λ d,
  let key := auction_key pool account auction_type in
  (with_auctions (delete key (db_auctions d)) d,
   Ok (bool_decide (is_Some (db_auctions d !! key)))).

Definition auction (pool account : string) (auction_type : AuctionType)
  : query (option TrackedAuction) := st_gets (λ d,
  traverse (auction_of pool account (type_code auction_type))
    (db_auctions d !! auction_key pool account auction_type)).

Definition by_start (e1 e2 : string * Z * AuctionRow) : Prop :=
  let before := λ e1 e2 : string * Z * AuctionRow,
    (ar_start_ledger e1.2 <? ar_start_ledger e2.2) ||
    ((ar_start_ledger e1.2 =? ar_start_ledger e2.2) &&
     (String.ltb e1.1.1 e2.1.1 || (String.eqb e1.1.1 e2.1.1 && (e1.1.2 <? e2.1.2)))) in
  before e2 e1 = false.
#[export] Instance by_start_dec : RelDecision by_start.
Proof. intros e1 e2. unfold by_start. apply _. Defined.

Definition open_auctions (pool : string) : query (list TrackedAuction) := st_gets (λ d,
  let rows := omap (λ e : string * string * Z * AuctionRow,
    if bool_decide (e.1.1.1 = pool) then Some (e.1.1.2, e.1.2, e.2) else None)
    (map_to_list (db_auctions d)) in
  try_fold (λ l (e : string * Z * AuctionRow),
    let? a := auction_of pool e.1.1 e.1.2 e.2 in Ok (l ++ [a])) [] (merge_sort by_start rows)).

Definition set_fill_plan (pool account : string) (auction_type : AuctionType)
    (plan : option (Z * FillPercent)) : query bool := λ d,
  match traverse (λ p : Z * FillPercent, percent_code p.2) plan with
  | Err e => (d, Err e)
  | Ok percent =>
      let key := auction_key pool account auction_type in
      let held := bool_decide (is_Some (db_auctions d !! key)) in
      if held && negb (percent_check percent) then (d, Err (Query check_violation))
      else
      (with_auctions (alter (λ row, mkAuctionRow (ar_start_ledger row) (fst <$> plan) percent
         (ar_bid row) (ar_lot row) (ar_updated_ledger row)) key (db_auctions d)) d,
       Ok held)
  end.

(** ** Fills *)

Definition record_fill (fill : FillRecord) : query Z := λ d,
  match percent_code (fr_percent fill) with
  | Err e => (d, Err e)
  | Ok percent =>
      let id := db_next_fill d in
      if percent_check (Some percent)
      then (with_fills (<[id := mkFillRow fill None]> (db_fills d)) (id + 1) d, Ok id)
      else (with_fills (db_fills d) (id + 1) d, Err (Query check_violation))
  end.

(** [fills.tx_hash] is unique. *)
Definition attach_fill_tx (id : Z) (tx_hash : string) : query bool := λ d,
  match db_fills d !! id with
  | Some (mkFillRow record None) =>
      if existsb (λ e : Z * FillRow, bool_decide (fw_tx_hash e.2 = Some tx_hash))
           (map_to_list (db_fills d))
      then (d, Err (Query unique_violation))
      else (with_fills (<[id := mkFillRow record (Some tx_hash)]> (db_fills d)) (db_next_fill d) d,
            Ok true)
  | _ => (d, Ok false)
  end.
(** ** Every call on the store *)

Variant StoreE : Type → Type :=
| QCursor (name : string) : StoreE (option Cursor)
| QSetCursor (name : string) (c : Cursor) : StoreE ()
| QUpsertUser (u : TrackedUser) : StoreE ()
| QDeleteUser (pool account : string) : StoreE bool
| QUser (pool account : string) : StoreE (option TrackedUser)
| QUsersBelowHealth (pool : string) (threshold limit : Z) (after : option (Z * string))
  : StoreE (list TrackedUser)
| QUsersStale (pool : string) (updated_before limit : Z) : StoreE (list TrackedUser)
| QCountUsers (pool : string) : StoreE Z
| QFlagRecheck (pool account : string) (ledger : Z) : StoreE ()
| QUsersNeedingRecheck (pool : string) (limit : Z) : StoreE (list TrackedUser)
| QFlagExposedTo (pool : string) (index : Z) (side : Side) (ledger : Z) : StoreE Z
| QClearRecheck (pool account : string) (flagged_at : Z) : StoreE bool
| QRecordCreation (creation : CreationRecord) : StoreE Z
| QAttachCreationTx (id : Z) (tx_hash : string) : StoreE bool
| QUpsertAuction (a : TrackedAuction) : StoreE ()
| QDeleteAuction (pool account : string) (t : AuctionType) : StoreE bool
| QAuction (pool account : string) (t : AuctionType) : StoreE (option TrackedAuction)
| QOpenAuctions (pool : string) : StoreE (list TrackedAuction)
| QSetFillPlan (pool account : string) (t : AuctionType) (plan : option (Z * FillPercent))
  : StoreE bool
| QRecordFill (fill : FillRecord) : StoreE Z
| QAttachFillTx (id : Z) (tx_hash : string) : StoreE bool.

(** What a call the database serves does; [ties] is the order it happens to
    have rows of one ledger in. *)
Definition run_store (ties : list (string * UserRow) → list (string * UserRow)) {A : Type}
    (q : StoreE A) : query A :=
  match q in StoreE A return query A with
  | QCursor name => cursor name
  | QSetCursor name c => set_cursor name c
  | QUpsertUser u => upsert_user u
  | QDeleteUser pool account => delete_user pool account
  | QUser pool account => user pool account
  | QUsersBelowHealth pool threshold limit after => users_below_health pool threshold limit after
  | QUsersStale pool updated_before limit => users_stale ties pool updated_before limit
  | QCountUsers pool => count_users pool
  | QFlagRecheck pool account l => flag_recheck pool account l
  | QUsersNeedingRecheck pool limit => users_needing_recheck pool limit
  | QFlagExposedTo pool index side l => flag_exposed_to pool index side l
  | QClearRecheck pool account flagged_at => clear_recheck pool account flagged_at
  | QRecordCreation creation => record_creation creation
  | QAttachCreationTx id tx_hash => attach_creation_tx id tx_hash
  | QUpsertAuction a => upsert_auction a
  | QDeleteAuction pool account t => delete_auction pool account t
  | QAuction pool account t => auction pool account t
  | QOpenAuctions pool => open_auctions pool
  | QSetFillPlan pool account t plan => set_fill_plan pool account t plan
  | QRecordFill fill => record_fill fill
  | QAttachFillTx id tx_hash => attach_fill_tx id tx_hash
  end.
End tables.

(** ** Lemmas: text *)

Ltac by_digit d :=
  let Hd := fresh in intros Hd;
  assert (d = 0 ∨ d = 1 ∨ d = 2 ∨ d = 3 ∨ d = 4 ∨ d = 5 ∨ d = 6 ∨ d = 7 ∨ d = 8 ∨ d = 9)%N
    as Hcases by lia; clear Hd;
  repeat (destruct Hcases as [-> |Hcases]; [reflexivity|]); by subst.

Lemma dec_digit_char d : (d < 10)%N → dec_digit (pretty_N_char d) = Some (Z.of_N d).
Proof.
  by_digit d.
Qed.

Lemma dec_digits_pretty x s : dec_digits 0 (pretty_N_go x s) = dec_digits (Z.of_N x) s.
Proof.
  revert s. induction (N.lt_wf_0 x) as [x _ IH]. intros s.
  destruct (decide (x = 0%N)) as [->|Hx]; [done|].
  rewrite pretty_N_go_step by lia. rewrite IH by (apply N.div_lt; lia). simpl.
  rewrite dec_digit_char by (apply N.mod_lt; lia). simpl. f_equal.
  rewrite N2Z.inj_div, N2Z.inj_mod. pose proof (Z.div_mod (Z.of_N x) 10). lia.
Qed.

(** A number's text is digits: it is not empty and starts with no sign. *)
Lemma pretty_N_go_head x s : (0 < x)%N →
  ∃ d t, (d < 10)%N ∧ pretty_N_go x s = String (pretty_N_char d) t.
Proof.
  revert s. induction (N.lt_wf_0 x) as [x _ IH]. intros s Hx.
  rewrite pretty_N_go_step by lia. destruct (decide (x `div` 10 = 0)%N) as [H0|H0].
  - rewrite H0, pretty_N_go_0. eexists _, _. split; [|done]. apply N.mod_lt. lia.
  - apply IH; [apply N.div_lt; lia|by apply N.neq_0_lt_0].
Qed.

Lemma pretty_nonneg z : 0 ≤ z →
  ∃ d t, (d < 10)%N ∧ pretty z = String (pretty_N_char d) t ∧ dec_number (pretty z) = Some z.
Proof.
  intros Hz. destruct z as [|p|p]; [by exists 0%N, EmptyString| |lia].
  change (pretty (Z.pos p)) with (pretty (N.pos p)). unfold pretty, pretty_N.
  rewrite decide_False by done. destruct (pretty_N_go_head (N.pos p) "") as (d & t & Hd & Ht); [done|].
  exists d, t. split; [done|]. split; [done|]. unfold dec_number. rewrite Ht, <- Ht.
  by rewrite dec_digits_pretty.
Qed.

Lemma digit_head_i128 d t : (d < 10)%N →
  parse_i128 (String (pretty_N_char d) t) =
  within i128_min i128_max (dec_number (String (pretty_N_char d) t)).
Proof.
  by_digit d.
Qed.

Lemma digit_head_u32 d t : (d < 10)%N →
  parse_u32 (String (pretty_N_char d) t) =
  within 0 u32_max (dec_number (String (pretty_N_char d) t)).
Proof.
  by_digit d.
Qed.

Lemma within_some lo hi z : lo ≤ z ≤ hi → within lo hi (Some z) = Some z.
Proof. intros Hz. unfold within. simpl. by rewrite (proj2 (andb_true_iff _ _)) by lia. Qed.

Lemma parse_i128_within z : parse_i128 (pretty z) = within i128_min i128_max (Some z).
Proof.
  destruct (decide (0 ≤ z)) as [Hpos|Hneg].
  - destruct (pretty_nonneg z Hpos) as (d & t & Hd & Ht & Hn). rewrite Ht, digit_head_i128 by done.
    by rewrite <- Ht, Hn.
  - destruct (pretty_nonneg (- z)) as (d & t & Hd & Ht & Hn); [lia|].
    destruct z as [|p|p]; [lia|lia|].
    change (pretty (Z.neg p)) with (String "-" (pretty (- Z.neg p))). unfold parse_i128.
    by rewrite Hn.
Qed.

Lemma parse_i128_pretty z : is_i128 z → parse_i128 (pretty z) = Some z.
Proof. intros Hz. rewrite parse_i128_within. by apply within_some. Qed.

Lemma parse_u32_pretty z : is_u32 z → parse_u32 (pretty z) = Some z.
Proof.
  intros Hz. destruct (pretty_nonneg z) as (d & t & Hd & Ht & Hn); [widths; lia|].
  rewrite Ht, digit_head_u32 by done. rewrite <- Ht, Hn. by apply within_some.
Qed.

Lemma pretty_u32_inj a b : is_u32 a → is_u32 b → pretty a = pretty b → a = b.
Proof. intros Ha Hb Heq. apply parse_u32_pretty in Ha, Hb. congruence. Qed.

(** ** Lemmas: amount maps *)

(** Collecting a list whose entries are all entries of [m], and all of them. *)
Lemma collect_map_onto {K V A E} `{Countable K} (f : A → result E (K * V)) (l : list A)
    (m : gmap K V) :
  (∀ e, e ∈ l → ∃ i a, f e = Ok (i, a) ∧ m !! i = Some a) →
  (∀ i a, m !! i = Some a → ∃ e, e ∈ l ∧ f e = Ok (i, a)) →
  collect_map f l = Ok m.
Proof.
  intros Hin Hall.
  cut (∃ m', collect_map f l = Ok m' ∧ m' ⊆ m ∧
    ∀ e i a, e ∈ l → f e = Ok (i, a) → m' !! i = Some a).
  { intros (m' & -> & Hsub & Hm'). f_equal. apply (anti_symm (⊆)); [done|].
    apply map_subseteq_spec. intros i a Ha. destruct (Hall i a Ha) as (e & He & Hf). eauto. }
  clear Hall. unfold collect_map.
  cut (∀ l m0, (∀ e, e ∈ l → ∃ i a, f e = Ok (i, a) ∧ m !! i = Some a) → m0 ⊆ m →
    ∃ m', try_fold (λ m a, let? (k, v) := f a in Ok (<[k := v]> m)) m0 l = Ok m' ∧
      m0 ⊆ m' ∧ m' ⊆ m ∧ ∀ e i a, e ∈ l → f e = Ok (i, a) → m' !! i = Some a).
  { intros Hcut. destruct (Hcut l ∅) as (m' & ? & _ & ? & ?); [done|apply map_empty_subseteq|eauto]. }
  clear l Hin. intros l. induction l as [|e l IH]; intros m0 Hin Hsub; simpl.
  { exists m0. split; [done|]. split; [done|]. split; [done|]. by intros e i a He%elem_of_nil. }
  destruct (Hin e) as (i & a & Hf & Hm); [set_solver|]. rewrite Hf. simpl.
  destruct (IH (<[i := a]> m0)) as (m' & Hfold & Hsub0 & Hsub' & Hm'); [set_solver|by apply insert_subseteq_l|].
  exists m'. split; [done|].
  assert (m' !! i = Some a) as Hia.
  { eapply lookup_weaken; [|exact Hsub0]. by rewrite lookup_insert_eq. }
  split; [|split; [done|]].
  - apply map_subseteq_spec. intros j b Hj. destruct (decide (i = j)) as [->|Hne].
    + pose proof (lookup_weaken _ _ _ _ Hj Hsub). by simplify_eq.
    + eapply lookup_weaken; [|exact Hsub0]. by rewrite lookup_insert_ne.
  - intros e' i' a' [->|He]%elem_of_cons Hf'; [|by eapply Hm'].
    rewrite Hf in Hf'. by injection Hf' as <- <-.
Qed.

Section round_trips.
Context `{Json} (debug_str : string → string).

Lemma index_amounts_round_trip m column :
  typed_side m → index_amounts_from_json debug_str (index_amounts_to_json m) column = Ok m.
Proof.
  intros Hm. unfold index_amounts_from_json, index_amounts_to_json.
  rewrite as_object_object. simpl. set (object := list_to_map _).
  assert (∀ k v, object !! k = Some v ↔
    ∃ i a, k = pretty i ∧ v = v_string (pretty a) ∧ m !! i = Some a) as Hobj.
  { intros k v. unfold object. rewrite <- elem_of_list_to_map.
    - rewrite list_elem_of_fmap. split.
      + intros ([i a] & Heq & Hin). rewrite bt_iter_elem in Hin. simplify_eq. eauto.
      + intros (i & a & -> & -> & Hia). exists (i, a). by rewrite bt_iter_elem.
    - rewrite <- list_fmap_compose. rewrite (list_fmap_ext _ (pretty ∘ fst)) by done.
      rewrite list_fmap_compose. apply NoDup_fmap_2_strong; [|apply bt_iter_NoDup_fst].
      intros i j ([i' a] & -> & Hi)%list_elem_of_fmap ([j' b] & -> & Hj)%list_elem_of_fmap.
      rewrite bt_iter_elem in Hi, Hj. apply pretty_u32_inj; [by eapply Hm|by eapply Hm]. }
  apply collect_map_onto.
  - intros [k v] Hin. rewrite bt_iter_elem in Hin. apply Hobj in Hin as (i & a & -> & -> & Hia).
    destruct (Hm i a Hia) as [Hi Ha]. exists i, a. split; [|done]. simpl.
    rewrite parse_u32_pretty by done. simpl. unfold amount_from. rewrite as_str_string. simpl.
    by rewrite parse_i128_pretty.
  - intros i a Hia. exists (pretty i, v_string (pretty a)). rewrite bt_iter_elem, Hobj.
    split; [by exists i, a|]. destruct (Hm i a Hia) as [Hi Ha]. simpl.
    rewrite parse_u32_pretty by done. simpl. unfold amount_from. rewrite as_str_string. simpl.
    by rewrite parse_i128_pretty.
Qed.

Lemma asset_amounts_round_trip m column :
  map_Forall (λ _ a, is_i128 a) m → asset_amounts_from_json (asset_amounts_to_json m) column = Ok m.
Proof.
  intros Hm. unfold asset_amounts_from_json, asset_amounts_to_json.
  rewrite as_object_object. simpl. set (object := list_to_map _).
  assert (∀ k v, object !! k = Some v ↔ ∃ a, v = v_string (pretty a) ∧ m !! k = Some a) as Hobj.
  { intros k v. unfold object. rewrite <- elem_of_list_to_map.
    - rewrite list_elem_of_fmap. split.
      + intros ([i a] & Heq & Hin). rewrite bt_iter_elem in Hin. simplify_eq. eauto.
      + intros (a & -> & Hia). exists (k, a). by rewrite bt_iter_elem.
    - rewrite <- list_fmap_compose. apply bt_iter_NoDup_fst. }
  apply collect_map_onto.
  - intros [k v] Hin. rewrite bt_iter_elem in Hin. apply Hobj in Hin as (a & -> & Hia).
    exists k, a. split; [|done]. unfold amount_from. simpl. rewrite as_str_string. simpl.
    rewrite parse_i128_pretty; [done|by eapply Hm].
  - intros k a Hia. exists (k, v_string (pretty a)). rewrite bt_iter_elem, Hobj.
    split; [by exists a|]. unfold amount_from. simpl. rewrite as_str_string. simpl.
    rewrite parse_i128_pretty; [done|by eapply Hm].
Qed.
End round_trips.

(** ** Well-typed tables *)

Section typed.
Context `{Json} (debug_str : string → string).

Definition is_side (v : Value) : Prop := ∃ m, typed_side m ∧ v = index_amounts_to_json m.
Definition is_amounts (v : Value) : Prop :=
  ∃ m, map_Forall (λ _ a, is_i128 a) m ∧ v = asset_amounts_to_json m.
Definition optional (P : Z → Prop) (o : option Z) : Prop := ∀ z, o = Some z → P z.

Record wf_user_row (row : UserRow) : Prop := {
  wu_health : is_i128 (ur_health_factor row);
  wu_collateral : is_side (ur_collateral row);
  wu_liabilities : is_side (ur_liabilities row);
  wu_updated : is_u32 (ur_updated_ledger row);
  wu_recheck : optional is_u32 (ur_recheck_ledger row);
}.

Record wf_auction_row (code : Z) (row : AuctionRow) : Prop := {
  wa_type : 0 ≤ code ≤ 2;
  wa_start : is_u32 (ar_start_ledger row);
  wa_fill : optional is_u32 (ar_fill_ledger row);
  wa_percent : optional (λ p, 1 ≤ p ≤ 100) (ar_percent row);
  wa_bid : is_amounts (ar_bid row);
  wa_lot : is_amounts (ar_lot row);
  wa_updated : is_u32 (ar_updated_ledger row);
}.

Record wf_db (d : Db) : Prop := {
  wd_cursors : map_Forall (λ _ c, is_u32 c.1) (db_cursors d);
  wd_users : map_Forall (λ _ row, wf_user_row row) (db_users d);
  wd_auctions : map_Forall (λ k row, wf_auction_row k.2 row) (db_auctions d);
}.

Record typed_user (u : TrackedUser) : Prop := {
  tt_health : is_i128 (tu_health_factor u);
  tt_collateral : typed_side (tu_collateral u);
  tt_liabilities : typed_side (tu_liabilities u);
  tt_updated : is_u32 (tu_updated_ledger u);
}.

Record typed_tracked (a : TrackedAuction) : Prop := {
  ty_start : is_u32 (ta_start_ledger a);
  ty_fill : optional is_u32 (ta_fill_ledger a);
  ty_percent p : ta_percent a = Some p → wf_percent p;
  ty_bid : map_Forall (λ _ v, is_i128 v) (ta_bid a);
  ty_lot : map_Forall (λ _ v, is_i128 v) (ta_lot a);
  ty_updated : is_u32 (ta_updated_ledger a);
}.

(** The arguments of a call, at the types the bot passes them. *)
Definition typed_call {A : Type} (q : StoreE A) : Prop :=
  match q with
  | QSetCursor _ c => is_u32 (cu_ledger c)
  | QUpsertUser u => typed_user u
  | QFlagRecheck _ _ l | QFlagExposedTo _ _ _ l => is_u32 l
  | QRecordCreation c =>
      match cr_kind c with
      | CreatedAuction => ∃ p, cr_percent c = Some p ∧ wf_percent p
      | CreatedBadDebt => cr_percent c = None
      end
  | QUpsertAuction a => typed_tracked a
  | QSetFillPlan _ _ _ plan => ∀ l p, plan = Some (l, p) → is_u32 l ∧ wf_percent p
  | QRecordFill f => wf_percent (fr_percent f)
  | _ => True
  end.

Lemma decimal_pretty z column : is_i128 z → decimal (Some (pretty z)) column = Ok z.
Proof. intros Hz. unfold decimal. simpl. by rewrite parse_i128_pretty. Qed.

Lemma ledger_ok z column : is_u32 z → ledger z column = Ok z.
Proof. intros Hz. unfold ledger. by rewrite (proj2 (to_u32_some z z)). Qed.

Lemma traverse_ledger o column :
  optional is_u32 o → traverse (λ v, ledger v column) o = Ok o.
Proof. destruct o as [z|]; simpl; [|done]. intros Hz. rewrite ledger_ok by (by apply Hz). done. Qed.

Lemma percent_code_ok p : wf_percent p → percent_code p = Ok (fp_get p).
Proof. intros Hp. unfold percent_code, wf_percent in *. case_match; [done|lia]. Qed.

Lemma percent_from_ok z : 1 ≤ z ≤ 100 → percent_from_code z = Ok (mkFillPercent z).
Proof.
  intros Hz. unfold percent_from_code. rewrite (proj2 (to_u32_some z z)) by (widths; lia). simpl.
  by rewrite (proj2 (fill_percent_ok (X:=()) z (mkFillPercent z))) by done.
Qed.

Lemma percent_check_ok p : wf_percent p → percent_check (Some (fp_get p)) = true.
Proof. unfold wf_percent, percent_check. lia. Qed.

Lemma auction_type_from_ok z : 0 ≤ z ≤ 2 →
  ∃ t, auction_type_from_code z = Ok t ∧ type_code t = z.
Proof.
  intros Hz. unfold auction_type_from_code. rewrite (proj2 (to_u32_some z z)) by (widths; lia). simpl.
  assert (z = 0 ∨ z = 1 ∨ z = 2) as [-> |[-> | ->]] by lia; by eexists.
Qed.

Lemma type_from_code t : auction_type_from_code (type_code t) = Ok t.
Proof. by destruct t. Qed.

(** A well-formed row reads back. *)
Lemma user_of_ok pool account row :
  wf_user_row row → ∃ c l, user_of debug_str pool account row =
    Ok (mkTrackedUser pool account (ur_health_factor row) c l (ur_updated_ledger row)
          (ur_recheck_ledger row)) ∧
    ur_collateral row = index_amounts_to_json c ∧ ur_liabilities row = index_amounts_to_json l.
Proof.
  intros [Hh (c & Hc & Ec) (l & Hl & El) Hu Hr]. exists c, l. split; [|done]. unfold user_of.
  rewrite decimal_pretty by done. simpl. rewrite Ec, El, !index_amounts_round_trip by done. simpl.
  rewrite ledger_ok by done. simpl. by rewrite traverse_ledger.
Qed.

Lemma auction_of_ok pool account code row :
  wf_auction_row code row → is_ok (auction_of pool account code row) = true.
Proof.
  intros [Ht Hs Hf Hp (b & Hb & Eb) (l & Hl & El) Hu]. unfold auction_of.
  destruct (auction_type_from_ok code Ht) as (t & -> & _). simpl. rewrite ledger_ok by done. simpl.
  rewrite traverse_ledger by done. simpl. destruct (ar_percent row) as [p|]; simpl.
  - rewrite percent_from_ok by (by apply Hp). simpl.
    by rewrite Eb, El, !asset_amounts_round_trip, ledger_ok.
  - by rewrite Eb, El, !asset_amounts_round_trip, ledger_ok.
Qed.

Lemma rows_read_ok pool rows :
  (∀ e, e ∈ rows → wf_user_row e.2) → is_ok (read_users debug_str pool rows) = true.
Proof.
  intros Hrows. unfold read_users. destruct (try_fold_total (λ us (e : string * UserRow),
    let? u := user_of debug_str pool e.1 e.2 in Ok (us ++ [u])) (λ _, True) [] rows) as (us & -> & _);
    [done|..|done].
  intros us e He _. destruct (user_of_ok pool e.1 e.2) as (c & l & -> & _); [by apply Hrows|].
  simpl. eauto.
Qed.

Lemma pool_users_wf pool where_ d e :
  wf_db d → e ∈ pool_users pool where_ d → wf_user_row e.2.
Proof.
  intros Hd (([p a] & row) & Hin & He)%list_elem_of_omap.
  apply elem_of_map_to_list in Hin. simpl in He. destruct (_ && _); [|done].
  injection He as <-. by eapply wd_users.
Qed.

Lemma read_pool_users pool where_ d rows n :
  wf_db d → rows ≡ₚ pool_users pool where_ d →
  is_ok (read_users debug_str pool (take n rows)) = true.
Proof.
  intros Hd Hp. apply rows_read_ok. intros e He. apply (pool_users_wf pool where_ d); [done|].
  rewrite <- Hp, <- (take_drop n rows). apply elem_of_app. by left.
Qed.

Lemma with_users_wf m d :
  wf_db d → map_Forall (λ _ row, wf_user_row row) m → wf_db (with_users m d).
Proof. by intros [? ? ?] ?. Qed.
Lemma with_auctions_wf m d :
  wf_db d → map_Forall (λ k row, wf_auction_row k.2 row) m → wf_db (with_auctions m d).
Proof. by intros [? ? ?] ?. Qed.

Lemma flag_row_wf l row : is_u32 l → wf_user_row row → wf_user_row (flag_row l row).
Proof.
  intros Hl [? ? ? ? Hr]. split; simpl; try done. intros z [= <-].
  destruct (ur_recheck_ledger row) as [r|]; [|done]. specialize (Hr r eq_refl). widths. lia.
Qed.

(** What a call promises: the tables stay well-formed, and the only failure of
    its own is a transaction hash recorded twice. *)
Definition goes_right {A : Type} (r : Db * result StoreError A) : Prop :=
  wf_db r.1 ∧ match r.2 with Ok _ => True | Err e => e = Query unique_violation end.

Lemma goes_right_read {A} d (r : result StoreError A) :
  wf_db d → is_ok r = true → goes_right (d, r).
Proof. intros Hd Hr. split; [done|]. by destruct r. Qed.

Lemma users_calls_go_right d :
  wf_db d →
  (∀ u, typed_user u → goes_right (upsert_user u d)) ∧
  (∀ pool account, goes_right (delete_user pool account d)) ∧
  (∀ pool account l, is_u32 l → goes_right (flag_recheck pool account l d)) ∧
  (∀ pool i side l, is_u32 l → goes_right (flag_exposed_to pool i side l d)) ∧
  (∀ pool account l, goes_right (clear_recheck pool account l d)).
Proof.
  intros Hd. repeat split_and.
  - intros u [? ? ? ?]. split; [|done]. apply with_users_wf; [done|].
    apply map_Forall_insert_2; [|by apply Hd]. split; simpl; try done; [by exists (tu_collateral u)|by exists (tu_liabilities u)|].
    intros z. destruct (db_users d !! _) as [row|] eqn:Hrow; [|done]. simpl.
    by apply (wd_users _ Hd _ _ Hrow).
  - intros pool account. split; [|done]. apply with_users_wf; [done|].
    by apply map_Forall_delete, Hd.
  - intros pool account l Hl. split; [|done]. apply with_users_wf; [done|].
    intros k row. rewrite lookup_alter_Some. intros [(_ & row' & Hrow & ->)|[_ Hrow]].
    + by eapply flag_row_wf, wd_users.
    + by eapply wd_users.
  - intros pool i side l Hl. split; [|done]. apply with_users_wf; [done|].
    intros k row. rewrite map_lookup_imap. destruct (db_users d !! k) as [row'|] eqn:Hrow; [|done].
    simpl. intros [= <-]. pose proof (wd_users _ Hd _ _ Hrow).
    destruct (_ && _); [by apply flag_row_wf|done].
  - intros pool account l. unfold clear_recheck.
    destruct (db_users d !! _) as [row|] eqn:Hrow; [|by apply goes_right_read].
    case_bool_decide; [|by apply goes_right_read]. split; [|done].
    apply with_users_wf; [done|]. apply map_Forall_insert_2; [|by apply Hd].
    destruct (wd_users _ Hd _ _ Hrow). by split.
Qed.

Lemma auctions_calls_go_right d :
  wf_db d →
  (∀ a, typed_tracked a → goes_right (upsert_auction a d)) ∧
  (∀ pool account t, goes_right (delete_auction pool account t d)) ∧
  (∀ pool account t plan, (∀ l p, plan = Some (l, p) → is_u32 l ∧ wf_percent p) →
     goes_right (set_fill_plan pool account t plan d)).
Proof.
  intros Hd. repeat split_and.
  - intros a [? ? Hp ? ? ?]. unfold upsert_auction.
    assert (∃ p, traverse percent_code (ta_percent a) = Ok p ∧ percent_check p = true ∧
      optional (λ p, 1 ≤ p ≤ 100) p) as (p & -> & -> & Hopt).
    { destruct (ta_percent a) as [p|]; simpl; [|by exists None].
      rewrite percent_code_ok by (by apply Hp). simpl. eexists. split; [done|].
      rewrite percent_check_ok by (by apply Hp). split; [done|]. intros z [= <-]. by apply Hp. }
    split; [|done]. apply with_auctions_wf; [done|]. apply map_Forall_insert_2; [|by apply Hd].
    split; simpl; try done; [by destruct (ta_auction_type a)|by exists (ta_bid a)|by exists (ta_lot a)].
  - intros pool account t. split; [|done]. apply with_auctions_wf; [done|].
    by apply map_Forall_delete, Hd.
  - intros pool account t plan Hplan. unfold set_fill_plan.
    assert (∃ p, traverse (λ p : Z * FillPercent, percent_code p.2) plan = Ok p ∧
      percent_check p = true ∧ optional (λ p, 1 ≤ p ≤ 100) p) as (p & -> & -> & Hopt).
    { destruct plan as [[l p]|]; simpl; [|by exists None].
      destruct (Hplan l p eq_refl). rewrite percent_code_ok by done. simpl. eexists. split; [done|].
      rewrite percent_check_ok by done. split; [done|]. by intros z [= <-]. }
    rewrite andb_false_r. split; [|done]. apply with_auctions_wf; [done|].
    intros k row. rewrite lookup_alter_Some. intros [(_ & row' & Hrow & ->)|[_ Hrow]];
      [|by eapply wd_auctions].
    destruct (wd_auctions _ Hd _ _ Hrow). split; simpl; try done.
    intros z Hz. destruct plan as [[l q]|]; [|done]. injection Hz as <-. by eapply Hplan.
Qed.

Lemma reads_go_right ties d :
  (∀ l, ties l ≡ₚ l) → wf_db d →
  (∀ name, goes_right (cursor name d)) ∧
  (∀ pool account, goes_right (user debug_str pool account d)) ∧
  (∀ pool h n after, goes_right (users_below_health debug_str pool h n after d)) ∧
  (∀ pool l n, goes_right (users_stale debug_str ties pool l n d)) ∧
  (∀ pool n, goes_right (users_needing_recheck debug_str pool n d)) ∧
  (∀ pool account t, goes_right (auction pool account t d)) ∧
  (∀ pool, goes_right (open_auctions pool d)).
Proof.
  intros Hties Hd. repeat split_and; intros; apply goes_right_read; try done.
  - destruct (db_cursors d !! name) as [[l t]|] eqn:Hc; [|done]. simpl.
    pose proof (wd_cursors _ Hd _ _ Hc). by rewrite ledger_ok.
  - destruct (db_users d !! _) as [row|] eqn:Hrow; [|done]. simpl.
    destruct (user_of_ok pool account row) as (c & l & -> & _); [by eapply wd_users|done].
  - eapply read_pool_users; [done|]. apply merge_sort_Permutation.
  - eapply read_pool_users; [done|]. by rewrite merge_sort_Permutation.
  - eapply read_pool_users; [done|]. apply merge_sort_Permutation.
  - destruct (db_auctions d !! _) as [row|] eqn:Hrow; [|done]. simpl.
    pose proof (auction_of_ok pool account _ row (wd_auctions _ Hd _ _ Hrow)) as Ha.
    simpl in Ha. by destruct (auction_of pool account _ row).
  - cbv beta zeta. match goal with |- is_ok (try_fold ?f ?b ?l) = true =>
      destruct (try_fold_total f (λ _, True) b l) as (x & -> & _); [done| |done] end.
    intros x e He _. rewrite merge_sort_Permutation in He.
    apply list_elem_of_omap in He as ([[[p a] c] row] & Hin & He). simpl in He.
    apply elem_of_map_to_list in Hin. case_bool_decide; [|done]. injection He as <-. simpl.
    pose proof (auction_of_ok pool a c row (wd_auctions _ Hd _ _ Hin)) as Ha.
    destruct (auction_of pool a c row); [simpl; eauto|done].
Qed.

(** C31: the store is type-sound. From well-formed tables, every call the bot
    makes — at the types it makes it — leaves well-formed tables, and every
    row it reads decodes: no stored amount, ledger, percent or kind is one the
    bot cannot read back. The only failure the database itself can answer is
    a transaction hash attached to two fills. *)
Theorem store_is_type_sound (ties : list (string * UserRow) → list (string * UserRow))
    (A : Type) (q : StoreE A) (d : Db)
    (Hties : ∀ l, ties l ≡ₚ l) (Hd : wf_db d) (Hq : typed_call q) :
  goes_right (run_store debug_str ties q d).
Proof.
  destruct (users_calls_go_right d Hd) as (? & ? & ? & ? & ?).
  destruct (auctions_calls_go_right d Hd) as (? & ? & ?).
  destruct (reads_go_right ties d Hties Hd) as (? & ? & ? & ? & ? & ? & ?).
  destruct q; simpl in *; auto.
  - split; [|done]. destruct Hd. split; simpl; try done. by apply map_Forall_insert_2.
  - by apply goes_right_read.
  - unfold record_creation. destruct (cr_kind creation).
    + destruct Hq as (p & -> & Hp). simpl. rewrite percent_code_ok by done. simpl.
      unfold wf_percent in Hp. rewrite (proj2 (andb_true_iff _ _)) by lia. split; [by destruct Hd|done].
    + rewrite Hq. split; [by destruct Hd|done].
  - unfold attach_creation_tx. destruct (db_creations d !! id) as [[r [t|]]|];
      (split; [by destruct Hd|done]).
  - unfold record_fill. rewrite percent_code_ok, percent_check_ok by done.
    split; [by destruct Hd|done].
  - unfold attach_fill_tx. destruct (db_fills d !! id) as [[r [t|]]|];
      [by split; [destruct Hd|]| |by split; [destruct Hd|]].
    destruct (existsb _ _); (split; [by destruct Hd|done]).
Qed.

Definition with_recheck (recheck : option Z) (u : TrackedUser) : TrackedUser :=
  mkTrackedUser (tu_pool u) (tu_account u) (tu_health_factor u) (tu_collateral u)
    (tu_liabilities u) (tu_updated_ledger u) recheck.

Definition key_of (u : TrackedUser) : string * string := (tu_pool u, tu_account u).

Lemma user_of_upserted pool account u recheck :
  typed_user u → optional is_u32 recheck →
  user_of debug_str pool account (mkUserRow (tu_health_factor u)
    (index_amounts_to_json (tu_collateral u)) (index_amounts_to_json (tu_liabilities u))
    (tu_updated_ledger u) recheck) =
  Ok (mkTrackedUser pool account (tu_health_factor u) (tu_collateral u) (tu_liabilities u)
        (tu_updated_ledger u) recheck).
Proof.
  intros [? ? ? ?] Hr. unfold user_of. simpl. rewrite decimal_pretty by done. simpl.
  rewrite !index_amounts_round_trip by done. simpl. rewrite ledger_ok by done. simpl.
  by rewrite traverse_ledger.
Qed.

Lemma old_recheck_typed d u :
  wf_db d → optional is_u32 (db_users d !! key_of u ≫= ur_recheck_ledger).
Proof.
  intros Hd z. destruct (db_users d !! key_of u) as [row|] eqn:Hrow; [|done]. simpl.
  by apply (wd_users _ Hd _ _ Hrow).
Qed.

Lemma read_upserted_user d u :
  wf_db d → typed_user u →
  let d' := (upsert_user u d).1 in
  user debug_str (tu_pool u) (tu_account u) d' =
    (d', Ok (Some (with_recheck (db_users d !! key_of u ≫= ur_recheck_ledger) u))).
Proof.
  intros Hd Hu. cbv zeta. unfold user, st_gets, upsert_user, st_modify. simpl.
  rewrite lookup_insert_eq. simpl. rewrite user_of_upserted; [done|done|].
  by apply (old_recheck_typed d u).
Qed.

Lemma read_upserted_auction d a :
  typed_tracked a →
  ∃ d', upsert_auction a d = (d', Ok ()) ∧
    auction (ta_pool a) (ta_account a) (ta_auction_type a) d' = (d', Ok (Some a)) ∧
    ∀ k, k ≠ auction_key (ta_pool a) (ta_account a) (ta_auction_type a) →
      db_auctions d' !! k = db_auctions d !! k.
Proof.
  intros [? ? Hp ? ? ?]. destruct a as [pool account t start fill percent b l updated]. simpl in *.
  unfold upsert_auction, auction, st_gets. simpl.
  destruct percent as [p|]; simpl.
  - rewrite percent_code_ok by (by apply Hp). cbn [rbind]. rewrite percent_check_ok by (by apply Hp).
    eexists. split; [done|]. simpl. split; [|intros k Hk; by rewrite lookup_insert_ne].
    rewrite lookup_insert_eq. simpl. unfold auction_of. simpl. rewrite type_from_code. simpl.
    rewrite ledger_ok by done. simpl. rewrite traverse_ledger by done. simpl.
    rewrite percent_from_ok by (by apply Hp). simpl.
    rewrite !asset_amounts_round_trip by done. simpl. rewrite ledger_ok by done. simpl.
    by destruct p.
  - eexists. split; [done|]. simpl. split; [|intros k Hk; by rewrite lookup_insert_ne].
    rewrite lookup_insert_eq. simpl. unfold auction_of. simpl. rewrite type_from_code. simpl.
    rewrite ledger_ok by done. simpl. rewrite traverse_ledger by done. simpl.
    rewrite !asset_amounts_round_trip by done. simpl. by rewrite ledger_ok.
Qed.

(** C37: what is written reads back exactly, through decimal text and JSON:
    every amount an [i128] holds, every ledger and every percent. A user's row
    keeps the recheck flag it had, and writing one row leaves the others. *)
Theorem rows_round_trip (d : Db) (u : TrackedUser) (a : TrackedAuction)
    (Hd : wf_db d) (Hu : typed_user u) (Ha : typed_tracked a) :
  (let d' := (upsert_user u d).1 in
   user debug_str (tu_pool u) (tu_account u) d' =
     (d', Ok (Some (with_recheck (db_users d !! key_of u ≫= ur_recheck_ledger) u))) ∧
   (∀ k, k ≠ key_of u → db_users d' !! k = db_users d !! k) ∧
   db_auctions d' = db_auctions d) ∧
  ∃ d', upsert_auction a d = (d', Ok ()) ∧
    auction (ta_pool a) (ta_account a) (ta_auction_type a) d' = (d', Ok (Some a)) ∧
    ∀ k, k ≠ auction_key (ta_pool a) (ta_account a) (ta_auction_type a) →
      db_auctions d' !! k = db_auctions d !! k.
Proof.
  split; [|by apply read_upserted_auction]. cbv zeta. split; [by apply read_upserted_user|].
  split; [|done]. intros k Hk. simpl. by rewrite lookup_insert_ne.
Qed.
End typed.

(** ** A concrete reading of JSON *)

Inductive JsonTree : Type :=
| JString (s : string)
| JObject (l : list (string * JsonTree)).

#[global, refine] Instance tree_json : Json := {|
  Value := JsonTree; v_string := JString; v_object := λ m, JObject (map_to_list m);
  as_object := λ v, match v with JObject l => Some (list_to_map l) | _ => None end;
  as_str := λ v, match v with JString s => Some s | _ => None end;
  SqlxError := bool; check_violation := false; unique_violation := true
|}.
Proof.
  - intros m. by rewrite list_to_map_to_list.
  - done.
Defined.

Definition sample_user : TrackedUser :=
  mkTrackedUser "pool" "alice" 12345678 {[ 0 := i128_max; 7 := 1 ]} {[ 1 := - 3 ]} 500 None.

Definition sample_tracked : TrackedAuction :=
  mkTrackedAuction "pool" "alice" UserLiquidation 480 None (Some (mkFillPercent 40))
    {[ "USDC" := 1000 ]} {[ "XLM" := 9000 ]} 500.

Lemma sample_user_typed : typed_user sample_user.
Proof.
  split; simpl; [widths; lia| | |widths; lia].
  - intros i a [[<- <-]|[_ [<- <-]%lookup_singleton_Some]]%lookup_insert_Some; widths; lia.
  - intros i a [<- <-]%lookup_singleton_Some. widths. lia.
Qed.

Lemma sample_tracked_typed : typed_tracked sample_tracked.
Proof.
  split; simpl; [widths; lia|done|intros p [= <-]; unfold wf_percent; simpl; lia| | |widths; lia];
    intros i a [<- <-]%lookup_singleton_Some; widths; lia.
Qed.

Lemma empty_db_wf : wf_db empty_db.
Proof. split; apply map_Forall_empty. Qed.

Lemma rows_round_trip_witness :
  let d' := (upsert_user sample_user empty_db).1 in
  user id "pool" "alice" d' = (d', Ok (Some sample_user)).
Proof.
  exact (proj1 (proj1 (rows_round_trip id empty_db sample_user sample_tracked empty_db_wf
    sample_user_typed sample_tracked_typed))).
Defined.

Lemma store_is_type_sound_witness :
  let d' := (upsert_user sample_user empty_db).1 in
  goes_right (run_store id id (QFlagExposedTo "pool" 7 OnCollateral 501) d').
Proof.
  apply (store_is_type_sound id id Z (QFlagExposedTo "pool" 7 OnCollateral 501)).
  - reflexivity.
  - apply (users_calls_go_right empty_db empty_db_wf). exact sample_user_typed.
  - simpl. widths. lia.
Defined.
