(* ===== verification/Rows.v ===== *)
(** * What the store's ordered, bounded selections take

    Shared by the tasks that take the store's oldest rows a batch at a time. *)

From Stdlib Require Import Sorting.Sorted.
From stdpp Require Import sorting.
From S2P Require Import Prelude Store.
Open Scope Z_scope.

(** ** Lemmas: what a bounded, ordered selection takes *)

Section selection.
Context {A : Type} (key : A → Z).

Definition below (T : Z) (x : A) : Prop := key x < T.
#[export] Instance below_dec T x : Decision (below T x).
Proof. unfold below. apply _. Defined.

Lemma sorted_impl {B : Type} (R R' : B → B → Prop) (l : list B) :
  (∀ x y, R x y → R' x y) → Sorted R l → Sorted R' l.
Proof.
  intros Hi. induction 1 as [|x l Hs IH Hh]; constructor; [done|].
  destruct Hh; constructor. by apply Hi.
Qed.

(** The first of an ordered list hold as many old ones as there are, or are
    all old. *)
Lemma sorted_split T l :
  StronglySorted (λ x y, key x ≤ key y) l →
  ∃ l1 l2, l = l1 ++ l2 ∧ Forall (below T) l1 ∧ Forall (λ x, ¬ below T x) l2.
Proof.
  induction 1 as [|x l Hs IH Hx]; [by exists [], []|].
  destruct IH as (l1 & l2 & -> & H1 & H2). destruct (decide (below T x)) as [Hb|Hb].
  - exists (x :: l1), l2. by repeat constructor.
  - exists [], (x :: l1 ++ l2). split; [done|]. split; [done|]. constructor; [done|].
    eapply Forall_impl; [exact Hx|]. unfold below in *. intros y Hy. simpl in Hy. lia.
Qed.

Lemma filter_all (P : A → Prop) `{!∀ x, Decision (P x)} l : Forall P l → filter P l = l.
Proof. induction 1 as [|x l Hx _ IH]; [done|]. by rewrite filter_cons_True, IH. Qed.
Lemma filter_none (P : A → Prop) `{!∀ x, Decision (P x)} l : Forall (λ x, ¬ P x) l → filter P l = [].
Proof. induction 1 as [|x l Hx _ IH]; [done|]. by rewrite filter_cons_False. Qed.

Lemma sorted_take T n l :
  StronglySorted (λ x y, key x ≤ key y) l →
  length (filter (below T) (take n l)) = (n `min` length (filter (below T) l))%nat.
Proof.
  intros (l1 & l2 & -> & H1 & H2)%(sorted_split T).
  rewrite filter_app, take_app, filter_app, !length_app.
  rewrite (filter_none _ l2), (filter_none _ (take _ l2)) by (try apply Forall_take; done).
  rewrite !filter_all by (try apply Forall_take; done). simpl. rewrite length_take. lia.
Qed.
End selection.

(** ** The rows of a pool *)

Section rows.
Context `{Json} (debug_str : string → string).

(** The database serves a call, in some order of rows of one ledger; a failure
    may be reported before or after the statement took effect. *)
Definition served {A : Type} (q : StoreE A) (d : Db) (r : result StoreError A) (d' : Db) : Prop :=
  match r with
  | Ok a => ∃ ties, (∀ l, ties l ≡ₚ l) ∧ run_store debug_str ties q d = (d', Ok a)
  | Err _ => d' = d ∨ ∃ ties, (∀ l, ties l ≡ₚ l) ∧ d' = (run_store debug_str ties q d).1
  end.

Lemma elem_of_pool_users pool where_ d e :
  e ∈ pool_users pool where_ d ↔
  db_users d !! (pool, e.1) = Some e.2 ∧ where_ e.1 e.2 = true.
Proof.
  unfold pool_users. rewrite list_elem_of_omap. split.
  - intros ([[p a] row] & Hin & He). apply elem_of_map_to_list in Hin. simpl in He.
    case_bool_decide; [|done]. simpl in He. destruct (where_ a row) eqn:Hw; [|done].
    injection He as <-. by subst.
  - intros [Hl Hw]. exists (pool, e.1, e.2). split; [by apply elem_of_map_to_list|]. simpl.
    rewrite bool_decide_eq_true_2, Hw by done. by destruct e.
Qed.

Lemma pool_users_nodup pool where_ d : NoDup (pool_users pool where_ d).*1.
Proof.
  apply NoDup_fmap_fst.
  - intros a r1 r2 [Ha _]%elem_of_pool_users [Hb _]%elem_of_pool_users. simpl in *. congruence.
  - unfold pool_users.
    assert (∀ l : list (string * string * UserRow), NoDup l.*1 →
      NoDup (omap (λ e : string * string * UserRow,
        if bool_decide (e.1.1 = pool) && where_ e.1.2 e.2 then Some (e.1.2, e.2) else None) l)
      ) as Hgen.
    { induction l as [|[[p a] row] l IH]; intros Hnd; [constructor|].
      apply NoDup_cons in Hnd as [Hn Hnd]. simpl. case_bool_decide as Hp; simpl; [|by apply IH].
      simpl in Hp. subst p. destruct (where_ a row); [|by apply IH].
      apply NoDup_cons. split; [|by apply IH].
      intros ([[p b] row'] & Hin & He)%list_elem_of_omap. apply Hn. simpl in *.
      case_bool_decide; [|done]. simpl in He. destruct (where_ b row'); [|done].
      injection He as -> ->. subst. apply list_elem_of_fmap. by exists (pool, a, row). }
    apply Hgen, NoDup_fst_map_to_list.
Qed.

(** The keys of a pool's rows. *)
Definition keys_of (pool : string) (accounts : list string) : gset (string * string) :=
  list_to_set (pair pool <$> accounts).

Lemma elem_of_keys pool accounts k : k ∈ keys_of pool accounts ↔ k.1 = pool ∧ k.2 ∈ accounts.
Proof.
  unfold keys_of. rewrite elem_of_list_to_set, list_elem_of_fmap. destruct k as [p a]. simpl.
  split; [by intros (b & [= -> ->] & Hb)|intros [-> Ha]; by exists a].
Qed.

Lemma size_keys pool accounts : NoDup accounts → size (keys_of pool accounts) = length accounts.
Proof.
  intros Hnd. unfold keys_of. rewrite size_list_to_set, length_fmap; [done|].
  apply NoDup_fmap_2; [|done]. by intros a b [= ->].
Qed.

Lemma fst_filter_nodup {B} (P : string * B → Prop) `{!∀ x, Decision (P x)} l :
  NoDup l.*1 → NoDup (filter P l).*1.
Proof.
  intros Hnd. eapply sublist_NoDup; [exact Hnd|]. apply fmap_sublist, sublist_filter.
Qed.

(** Of rows in order of [f], the first [n] hold [n] of those below [T], or them
    all. *)
Lemma selection_takes (f : string * UserRow → Z) (T : Z) (pool : string)
    (old : gset (string * string)) (rows : list (string * UserRow)) (n : nat) :
  NoDup rows.*1 → StronglySorted (λ x y, f x ≤ f y) rows →
  old = keys_of pool (filter (below f T) rows).*1 →
  size (old ∖ keys_of pool (take n rows).*1) = (size old - n)%nat.
Proof.
  intros Hnd Hs Hold.
  assert (∀ e e', e ∈ rows → e' ∈ rows → e.1 = e'.1 → e = e') as Hinj.
  { intros [a r] [a' r'] Hin Hin' Heq. simpl in Heq. subst a'. f_equal.
    apply list_elem_of_lookup in Hin as (i & Hi), Hin' as (i' & Hi').
    assert (i = i') as <-.
    { eapply NoDup_lookup; [exact Hnd|by rewrite list_lookup_fmap, Hi|by rewrite list_lookup_fmap, Hi']. }
    congruence. }
  assert (NoDup (take n rows).*1) as Hnt.
  { rewrite fmap_take. eapply sublist_NoDup; [exact Hnd|]. apply sublist_take. }
  assert (∀ e, e ∈ take n rows → e ∈ rows) as Htake.
  { intros e He. rewrite <- (take_drop n rows). apply elem_of_app. by left. }
  assert (old ∩ keys_of pool (take n rows).*1 = keys_of pool (filter (below f T) (take n rows)).*1) as Heq.
  { rewrite Hold. apply set_eq. intros k.
    rewrite elem_of_intersection, !elem_of_keys, !list_elem_of_fmap. split.
    - intros [[Hk (e & He & [Hbe Hin]%list_elem_of_filter)] [_ (e' & He' & Hin')]]. split; [done|].
      exists e'. split; [done|]. apply list_elem_of_filter. split; [|done].
      rewrite (Hinj e' e); [done|by apply Htake|done|congruence].
    - intros (Hk & e & He & [Hbe Hin]%list_elem_of_filter). repeat split; try done.
      + exists e. split; [done|]. apply list_elem_of_filter. split; [done|by apply Htake].
      + by exists e. }
  rewrite size_difference_alt, Heq, Hold, !size_keys by (by apply fst_filter_nodup).
  rewrite !length_fmap, sorted_take by done. lia.
Qed.

Lemma read_users_each (pool : string) (rows : list (string * UserRow)) (us : list TrackedUser) :
  read_users debug_str pool rows = Ok us →
  Forall2 (λ (e : string * UserRow) u, user_of debug_str pool e.1 e.2 = Ok u) rows us.
Proof.
  intros Hr. apply (try_fold_prefix _ (λ l us,
    Forall2 (λ (e : string * UserRow) u, user_of debug_str pool e.1 e.2 = Ok u) l us)) in Hr;
    [done|constructor|].
  intros l1 e l2 us1 us2 _ Hus (u & Hu & [= <-])%bind_ok. apply Forall2_app; [done|].
  by constructor.
Qed.

(** What a row's conversion keeps of it. *)
Lemma user_of_row (pool account : string) (row : UserRow) (u : TrackedUser) :
  user_of debug_str pool account row = Ok u →
  tu_account u = account ∧ tu_health_factor u = ur_health_factor row ∧
  tu_recheck_ledger u = ur_recheck_ledger row.
Proof.
  unfold user_of. intros Hu. rust_inv. subst. split; [done|]. simpl.
  split.
  - unfold decimal in *. simpl in *. apply ok_or_ok in Hstep. rewrite parse_i128_within in Hstep.
    unfold within in Hstep. simpl in Hstep. destruct (_ && _); [congruence|done].
  - destruct (ur_recheck_ledger row) as [f|]; simpl in *; [|congruence]. rust_inv.
    unfold ledger in *. rust_inv. congruence.
Qed.

Lemma read_users_accounts (pool : string) (rows : list (string * UserRow)) (us : list TrackedUser) :
  read_users debug_str pool rows = Ok us → map tu_account us = rows.*1.
Proof.
  intros Hr%read_users_each. induction Hr as [|[a row] u rows us Hu _ IH]; [done|].
  apply user_of_row in Hu as [Ha _]. simpl. by rewrite Ha, IH.
Qed.

End rows.

(** ** The order of the health queries *)

Section health.
Context `{Json}.

Lemma ltb_le a b : String.ltb a b = false ↔ string_le b a.
Proof.
  unfold String.ltb, string_le, String.leb. rewrite (String.compare_antisym b a).
  destruct (String.compare a b); simpl; naive_solver.
Qed.

Lemma health_lt_false h1 a1 h2 a2 :
  health_lt h1 a1 h2 a2 = false ↔ h2 < h1 ∨ (h1 = h2 ∧ string_le a2 a1).
Proof.
  unfold health_lt. rewrite orb_false_iff, andb_false_iff, Z.ltb_ge, Z.eqb_neq, ltb_le.
  split; [|intros [?|[-> ?]]; (split; [lia|]); auto; left; lia].
  intros [Hle [Hne|Ha]]; [left; lia|]. destruct (Z.eq_dec h1 h2); [by right|left; lia].
Qed.

#[export] Instance by_health_trans : Transitive by_health.
Proof.
  intros [a1 r1] [a2 r2] [a3 r3]. unfold by_health. rewrite !health_lt_false. simpl.
  intros [?|[? ?]] [?|[? ?]]; [left; lia..|]. right. split; [lia|by etrans].
Qed.

#[export] Instance by_health_total : Total by_health.
Proof.
  intros [a1 r1] [a2 r2]. unfold by_health. rewrite !health_lt_false. simpl.
  destruct (Z.lt_trichotomy (ur_health_factor r1) (ur_health_factor r2)) as [?|[?|?]];
    [left; by left| |right; by left].
  destruct (total string_le a1 a2); [left; right|right; right]; split; done || lia.
Qed.

(** Rows of two accounts are in a strict order. *)
Lemma by_health_strict e1 e2 :
  by_health e1 e2 → e1.1 ≠ e2.1 →
  health_lt (ur_health_factor e1.2) e1.1 (ur_health_factor e2.2) e2.1 = true.
Proof.
  unfold by_health. intros Hle Hne. apply not_false_iff_true. intros Hge.
  apply health_lt_false in Hle, Hge. destruct Hle as [?|[? Ha]], Hge as [?|[? Hb]]; try lia.
  apply Hne. by apply (String.leb_antisym _ _ Ha Hb).
Qed.
End health.
