(* ===== verification/Submit.v ===== *)
(** * Submitting transactions ([src/chain/tx.rs], [src/queue.rs])

    The one write path — sequence, build, simulate, restore, assemble, sign,
    send, poll, classify — and the queue that owns the order submissions go
    out in. Both are interaction trees over the RPC, the signing key, the
    clocks, the shutdown flag and the queue's two channels. *)

From stdpp Require Import pretty.
From S2P Require Import Prelude Fixed Encode Io Chain.
Open Scope Z_scope.

(** ** Data ([src/chain/tx.rs]) *)

Definition TIME_BOUND_SECS : Z := 300.
Definition SECOND : Z := 1000000000.

(** Durations are nanoseconds. *)
Record TxConfig : Type := mkTxConfig {
  base_fee : Z;
  high_fee : Z;
  poll_ledgers : Z;
  poll_interval : Z;
  send_retry_pause : Z;
  wait_cap : Z;
}.

(** [TxConfig::new]. *)
Definition tx_config_new (base_fee high_fee poll_ledgers : Z) : TxConfig :=
  mkTxConfig base_fee high_fee poll_ledgers SECOND SECOND
    (10 * SECOND * u32_saturating_add poll_ledgers 1).

Inductive Priority : Type := Normal | High.

Section data.
Context `{Xdr}.

(** The fields of an unsigned transaction this code chooses. *)
Record Transaction : Type := mkTransaction {
  tx_fee : Z;
  tx_seq_num : Z;
  tx_max_time : Z;
  tx_window : LedgerWindow;
  tx_operation : Operation;
  tx_data : option SorobanTransactionData;
}.

Record Prepared : Type := mkPrepared {
  pr_envelope : TransactionEnvelope;
  pr_hash : TxHash;
  pr_sequence : Z;
  pr_window : LedgerWindow;
  pr_fee : Z;
  pr_resource_fee : Z;
}.

Inductive TxOutcome : Type :=
| TxSucceeded (hash : TxHash) (ledger : Z) (return_value : option ScVal)
| TxFailed (hash : TxHash) (ledger : Z) (contract_error : option Z) (result : TransactionResult)
| TxExpired (hash : TxHash) (window : LedgerWindow) (latest_ledger : Z)
| TxUnknown (hash : TxHash) (sequence : Z) (window : LedgerWindow).

Inductive Judgment : Type :=
| Accepted
| Refused (contract_error : option Z) (message : string)
| NeedsRestore.

(** [TxOutcome::status] and [TxOutcome::hash]. *)
Definition outcome_status (self : TxOutcome) : string :=
  match self with
  | TxSucceeded _ _ _ => "succeeded"
  | TxFailed _ _ _ _ => "failed"
  | TxExpired _ _ _ => "expired"
  | TxUnknown _ _ _ => "unknown"
  end.

Definition outcome_hash (self : TxOutcome) : TxHash :=
  match self with
  | TxSucceeded h _ _ | TxFailed h _ _ _ | TxExpired h _ _ | TxUnknown h _ _ => h
  end.

(** ** Data ([src/queue.rs]) *)

Record Submission : Type := mkSubmission {
  sub_operation : Operation;
  sub_priority : Priority;
  sub_label : string;
  sub_retries : Z;
}.

Inductive QueueError : Type :=
| Closed
| ShuttingDown
| QueueChain (e : ChainError).

Record RetryPolicy : Type := mkRetryPolicy {
  rt_initial : Z;
  rt_max : Z;
  rt_resolve_pause : Z;
}.

(** ** The calls *)

Variant NetE : Type → Type :=
| RpcAccount : NetE (result ChainError Account)
| RpcFeeStats : NetE (result ChainError FeeStats)
| RpcSimulate (tx : Transaction) : NetE (result ChainError Simulation)
| RpcSend (envelope : TransactionEnvelope) : NetE (result ChainError SendStatus)
| RpcTransaction (hash : TxHash) : NetE (result ChainError TransactionStatus)
| Sign (tx : Transaction) : NetE (result ChainError (TransactionEnvelope * TxHash))
| UnixNow : NetE (option Z)
| InstantNow : NetE Z
| Sleep (pause : Z) : NetE ()
| ShutdownFlag : NetE bool
| Receive : NetE (option Submission)
| Respond (answer : result QueueError TxOutcome) : NetE ().

(** What a trace records. *)
Inductive Seen : Type :=
| SAccount (r : result ChainError Account)
| SSimulate (tx : Transaction) (r : result ChainError Simulation)
| SSend (envelope : TransactionEnvelope) (r : result ChainError SendStatus)
| SPoll (hash : TxHash) (r : result ChainError TransactionStatus)
| SSign (tx : Transaction) (r : result ChainError (TransactionEnvelope * TxHash))
| SInstant (t : Z)
| SShutdown (b : bool)
| SReceive (s : option Submission)
| SRespond (answer : result QueueError TxOutcome)
| SOther.

Definition seen (X : Type) (e : NetE X) : X → Seen :=
  match e in NetE X return X → Seen with
  | RpcAccount => SAccount
  | RpcFeeStats => λ _, SOther
  | RpcSimulate tx => SSimulate tx
  | RpcSend envelope => SSend envelope
  | RpcTransaction hash => SPoll hash
  | Sign tx => SSign tx
  | UnixNow => λ _, SOther
  | InstantNow => SInstant
  | Sleep _ => λ _, SOther
  | ShutdownFlag => SShutdown
  | Receive => SReceive
  | Respond answer => λ _, SRespond answer
  end.

(** ** Pure parts *)

(** [total_fee]. *)
Definition total_fee (inclusion resource_fee : Z) : result ChainError Z :=
  ok_or (to_u32 resource_fee ≫= λ resource, u32_checked_add inclusion resource)
    (Shape (String.append "fee " (String.append (pretty inclusion) (String.append " + "
      (String.append (pretty resource_fee) " does not fit the transaction's u32"))))).

(** [Submitter::inclusion_fee]. *)
Definition inclusion_fee (config : TxConfig) (fees : FeeStats) (priority : Priority) : Z :=
  match priority with
  | Normal => Z.max (soroban_percentile_70 fees) (base_fee config)
  | High => Z.max (soroban_percentile_90 fees) (high_fee config)
  end.

Definition i64_max : Z := 9223372036854775807.
Definition next_sequence (sequence : Z) : result ChainError Z :=
  if sequence + 1 <=? i64_max then Ok (sequence + 1)
  else Err (Shape "the account sequence overflows i64").

Definition classify (status : TransactionStatus) (hash : TxHash) (window : LedgerWindow)
  : option TxOutcome :=
  match status with
  | Success ledger _ return_value => Some (TxSucceeded hash ledger return_value)
  | Failed ledger _ result contract_error => Some (TxFailed hash ledger contract_error result)
  | NotFound latest_ledger oldest_ledger =>
      if (max_ledger window <=? latest_ledger) && (oldest_ledger <=? min_ledger window)
      then Some (TxExpired hash window latest_ledger) else None
  end.

Definition is_transient (error : ChainError) : bool :=
  match error with
  | Transport _ => true
  | Http status => (status =? 429) || ((500 <=? status) && (status <=? 599))
  | _ => false
  end.

Definition sent_nothing (error : ChainError) : bool :=
  match error with
  | Rejected _ | Transport _ | Http _ | Rpc _ _ | LedgerMoved _ _ => true
  | _ => false
  end.

Definition is_unknown (outcome : TxOutcome) : bool :=
  match outcome with TxUnknown _ _ _ => true | _ => false end.
End data.

(** ** The submitter ([src/chain/tx.rs]) *)

Section submitter.
Context `{Xdr} (config : TxConfig).
(** The latest [Instant] the platform represents, and the [{:?}] renderings
    that only error texts carry. *)
Context (instant_max : Z).
Context (debug_outcome : TxOutcome → string).
Context (debug_rejection : option TransactionResult → option Z → string).

Abbreviation prog A := (io NetE (result ChainError A)).

Definition lift {A : Type} (r : result ChainError A) : prog A := Ret r.

Definition instant_checked_add (t d : Z) : option Z :=
  if t + d <=? instant_max then Some (t + d) else None.

(** [unix_now]: the clock answers nothing when it is before 1970. *)
Definition unix_now : prog Z :=
  await now := perform UnixNow in
  Ret (ok_or now (Config "the system clock is before 1970")).

(** [Submitter::unsigned]. *)
Definition unsigned (operation : Operation) (sequence latest_ledger fee : Z)
  : prog (Transaction * LedgerWindow) :=
  await? now := unix_now in
  await? window := lift (
    let? max_ledger := ok_or
      (u32_checked_add latest_ledger (poll_ledgers config) ≫= λ l, u32_checked_add l 1)
      (Config "the ledger bound overflows u32") in
    window_try_new latest_ledger max_ledger) in
  Ret (Ok (mkTransaction fee sequence (Z.min (now + TIME_BOUND_SECS) u64_max) window
             operation None, window)).

(** [Submitter::simulate_call]. *)
Definition simulate_call (operation : Operation) (sequence latest_ledger : Z)
  : prog (SimulatedCall * Z) :=
  await? (tx, _) := unsigned operation sequence latest_ledger 100 in
  await? simulation := perform (RpcSimulate tx) in
  Ret (match sim_outcome simulation with
       | SimSuccess call => Ok (call, sim_latest_ledger simulation)
       | SimFailure message contract_error => Err (Simulation_ message contract_error)
       end).

(** [Submitter::assemble]. *)
Definition assemble (tx : Transaction) (call : SimulatedCall) (inclusion : Z)
  : result ChainError Transaction :=
  let? fee := total_fee inclusion (sc_min_resource_fee call) in
  let operation :=
    match invoke_auth (tx_operation tx) with
    | Some [] =>
        match sc_auth call with
        | [] => tx_operation tx
        | auth => set_invoke_auth auth (tx_operation tx)
        end
    | _ => tx_operation tx
    end in
  Ok (mkTransaction fee (tx_seq_num tx) (tx_max_time tx) (tx_window tx) operation
        (Some (sc_transaction_data call))).

(** [Submitter::send]: the loop carries whether it has retried. *)
Definition send (prepared : Prepared) : prog () :=
  ITree.iter (λ retried : bool,
    await status := perform (RpcSend (pr_envelope prepared)) in
    match status with
    | Err e => Ret (inr (Err e))
    | Ok status =>
        match ss_outcome status with
        | Pending | Duplicate =>
            Ret (inr (if decide (ss_hash status = pr_hash prepared) then Ok ()
              else Err (Shape (String.append "sendTransaction returned hash "
                (String.append (to_hex (ss_hash status)) (String.append " for envelope hash "
                  (to_hex (pr_hash prepared))))))))
        | TryAgainLater =>
            if retried then Ret (inr (Err (Rejected "TRY_AGAIN_LATER twice")))
            else await _ := perform (Sleep (send_retry_pause config)) in Ret (inl true)
        | SendError result contract_error =>
            Ret (inr (Err (if from_option is_bad_seq false result then BadSequence
                           else Rejected (debug_rejection result contract_error))))
        end
    end) false.

(** [Submitter::wait_for]: its deadline, then its loop, whose end is
    [poll_again] unless the answer or a permanent error ends it. *)
Definition poll_again (hash : TxHash) (sequence : Z) (window : LedgerWindow) (deadline : Z)
  : io NetE (() + result ChainError TxOutcome) :=
  await now := perform InstantNow in
  if deadline <=? now then Ret (inr (Ok (TxUnknown hash sequence window)))
  else await _ := perform (Sleep (poll_interval config)) in Ret (inl ()).

Definition poll_loop (hash : TxHash) (sequence : Z) (window : LedgerWindow) (deadline : Z)
  : prog TxOutcome :=
  ITree.iter (λ _ : (),
    await status := perform (RpcTransaction hash) in
    match status with
    | Ok status =>
        match classify status hash window with
        | Some outcome => Ret (inr (Ok outcome))
        | None => poll_again hash sequence window deadline
        end
    | Err error =>
        if is_transient error then poll_again hash sequence window deadline
        else Ret (inr (Ok (TxUnknown hash sequence window)))
    end) ().

Definition wait_for (hash : TxHash) (sequence : Z) (window : LedgerWindow) : prog TxOutcome :=
  await now := perform InstantNow in
  await deadline :=
    match instant_checked_add now (wait_cap config) with
    | Some deadline => Ret deadline
    | None => perform InstantNow
    end in
  poll_loop hash sequence window deadline.

(** [Submitter::wait]. *)
Definition wait (prepared : Prepared) : prog TxOutcome :=
  wait_for (pr_hash prepared) (pr_sequence prepared) (pr_window prepared).

(** Signing and hashing an envelope. *)
Definition seal (tx : Transaction) (sequence : Z) (window : LedgerWindow) (resource_fee : Z)
  : prog Prepared :=
  await? (envelope, hash) := perform (Sign tx) in
  Ret (Ok (mkPrepared envelope hash sequence window (tx_fee tx) resource_fee)).

(** [Submitter::restore]. *)
Definition restore (preamble : RestorePreamble) (sequence latest_ledger inclusion : Z)
  : prog () :=
  await? fee := lift (total_fee inclusion (rp_min_resource_fee preamble)) in
  await? (tx, window) := unsigned restore_footprint sequence latest_ledger fee in
  let tx := mkTransaction (tx_fee tx) (tx_seq_num tx) (tx_max_time tx) (tx_window tx)
    (tx_operation tx) (Some (rp_transaction_data preamble)) in
  await? prepared := seal tx sequence window (rp_min_resource_fee preamble) in
  let lost := RestoreUnknown (pr_hash prepared) (pr_sequence prepared) (pr_window prepared) in
  await sent := send prepared in
  match sent with
  | Err BadSequence => Ret (Err BadSequence)
  | Err (Rejected why) => Ret (Err (Rejected why))
  | Err _ => Ret (Err lost)
  | Ok _ =>
      await? outcome := wait prepared in
      Ret (match outcome with
           | TxSucceeded _ _ _ => Ok ()
           | TxUnknown hash sequence window => Err (RestoreUnknown hash sequence window)
           | other => Err (Restore (debug_outcome other))
           end)
  end.

(** [Submitter::prepare]: the first simulation, the restore it may ask for,
    and the second. *)
Definition simulate_restored (operation : Operation) (account : Account) (inclusion : Z)
  : prog (SimulatedCall * Z * Z) :=
  await? sequence := lift (next_sequence (ac_sequence account)) in
  await? (call, latest_ledger) := simulate_call operation sequence (ac_latest_ledger account) in
  match sc_restore call with
  | None => Ret (Ok (call, latest_ledger, sequence))
  | Some preamble =>
      await? _ := restore preamble sequence latest_ledger inclusion in
      await? sequence := lift (next_sequence sequence) in
      await? (call, latest_ledger) := simulate_call operation sequence latest_ledger in
      match sc_restore call with
      | Some _ => Ret (Err (Restore "archived entries remain after a restore"))
      | None => Ret (Ok (call, latest_ledger, sequence))
      end
  end.

Definition prepare (operation : Operation) (priority : Priority) : prog Prepared :=
  await? account := perform RpcAccount in
  await? fees := perform RpcFeeStats in
  let inclusion := inclusion_fee config fees priority in
  await? (call, latest_ledger, sequence) := simulate_restored operation account inclusion in
  await? (tx, window) := unsigned operation sequence latest_ledger 0 in
  await? tx := lift (assemble tx call inclusion) in
  seal tx sequence window (sc_min_resource_fee call).

(** [Submitter::simulate_only]. *)
Definition simulate_only (operation : Operation) : prog Judgment :=
  await? account := perform RpcAccount in
  await? sequence := lift (next_sequence (ac_sequence account)) in
  await answer := simulate_call operation sequence (ac_latest_ledger account) in
  Ret (match answer with
       | Ok (call, _) => Ok (match sc_restore call with Some _ => NeedsRestore | None => Accepted end)
       | Err (Simulation_ message contract_error) => Ok (Refused contract_error message)
       | Err other => Err other
       end).

(** [Submitter::submit]. *)
Definition submit (operation : Operation) (priority : Priority) : prog TxOutcome :=
  await? prepared := prepare operation priority in
  await? _ := send prepared in
  wait prepared.

(** ** The queue ([src/queue.rs]) *)

Context (policy : RetryPolicy).

Definition duration_max : Z := (u64_max + 1) * SECOND - 1.

(** [RetryPolicy::DEFAULT] and the roles' budgets. *)
Definition default_policy : RetryPolicy := mkRetryPolicy SECOND (30 * SECOND) SECOND.
Definition CREATION_RETRIES : Z := 3.
Definition FILL_RETRIES : Z := 10.
Definition UNWIND_RETRIES : Z := 2.

Definition pause_unless_shutdown (pause : Z) : io NetE bool :=
  await _ := perform (Sleep pause) in
  await stopping := perform ShutdownFlag in
  Ret (negb stopping).

Definition resolve (prepared : Prepared) : prog TxOutcome :=
  ITree.iter (λ _ : (),
    await outcome := wait_for (pr_hash prepared) (pr_sequence prepared) (pr_window prepared) in
    match outcome with
    | Err e => Ret (inr (Err e))
    | Ok outcome =>
        if negb (is_unknown outcome) then Ret (inr (Ok outcome))
        else
          await stopping := perform ShutdownFlag in
          if (stopping : bool) then Ret (inr (Ok outcome))
          else
            await go_on := pause_unless_shutdown (rt_resolve_pause policy) in
            Ret (if (go_on : bool) then inl () else inr (Ok outcome))
    end) ().

Definition attempt (submission : Submission) : prog TxOutcome :=
  await? prepared := prepare (sub_operation submission) (sub_priority submission) in
  await sent := send prepared in
  match sent with
  | Err BadSequence => Ret (Err BadSequence)
  | Err (Rejected why) => Ret (Err (Rejected why))
  | _ => resolve prepared
  end.

(** The loop carries the retries left and the next pause. *)
Definition submit_until_settled (submission : Submission)
  : io NetE (result QueueError TxOutcome) :=
  ITree.iter (λ '(retries_left, pause),
    await outcome := attempt submission in
    match outcome with
    | Ok outcome => Ret (inr (Ok outcome))
    | Err error =>
        if sent_nothing error && (0 <? retries_left) then
          await go_on := pause_unless_shutdown pause in
          Ret (if (go_on : bool)
               then inl (retries_left - 1, Z.min (Z.min (2 * pause) duration_max) (rt_max policy))
               else inr (Err (QueueChain error)))
        else Ret (inr (Err (QueueChain error)))
    end) (sub_retries submission, Z.min (rt_initial policy) (rt_max policy)).

Definition run_queue_with : io NetE () :=
  ITree.iter (λ _ : (),
    await queued := perform Receive in
    match queued with
    | None => Ret (inr ())
    | Some submission =>
        await stopping := perform ShutdownFlag in
        await outcome :=
          if (stopping : bool) then Ret (Err ShuttingDown) else submit_until_settled submission in
        await _ := perform (Respond outcome) in
        Ret (inl ())
    end) ().
End submitter.

(** What the last poll of a transaction said, if any. *)
Abbreviation polled := (option (result ChainError TransactionStatus)).

(** What was simulated last, if anything, and what came of it. *)
Abbreviation simulated := (option (Transaction * result ChainError Simulation)).

(** ** Lemmas: what each part may do *)

Section facts.
Context `{Xdr} (config : TxConfig) (instant_max : Z).

Abbreviation all_runs := (always seen).

(** Neither a signature nor a submission. *)
Definition unsigned_event (s : Seen) : Prop :=
  match s with SSign _ _ | SSend _ _ => False | _ => True end.
(** ** Polling

    The protocol of [wait_for]: polls of one hash and clock reads, the state
    being what the last poll said. *)

Inductive poll_step (hash : TxHash) : polled → Seen → polled → Prop :=
| poll_answer last r : poll_step hash last (SPoll hash r) (Some r)
| poll_instant last t : poll_step hash last (SInstant t) last
| poll_pause last : poll_step hash last SOther last.

(** What [wait_for] may answer after [last]. *)
Definition settles (hash : TxHash) (sequence : Z) (window : LedgerWindow) (last : polled)
    (r : result ChainError TxOutcome) : Prop :=
  r = Ok (TxUnknown hash sequence window) ∨
  ∃ status outcome, last = Some (Ok status) ∧ r = Ok outcome ∧
    classify status hash window = Some outcome.

Lemma wait_for_follows hash sequence window last :
  follows seen (poll_step hash) last (wait_for config instant_max hash sequence window)
    (λ r last', settles hash sequence window last' r).
Proof.
  unfold wait_for. apply follows_call. intros now. exists last. split; [constructor|].
  apply (follows_bind _ _ _ _ _ (λ _ _, True)).
  { destruct (instant_checked_add _ _ _); [by apply follows_ret|].
    apply follows_perform. intros t. exists last. split; [constructor|done]. }
  intros deadline l _. apply (follows_iter _ _ (λ _ _, True)); [done|].
  clear. intros [] l _. apply follows_call. intros status. exists (Some status).
  split; [constructor|].
  assert (follows seen (poll_step hash) (Some status)
    (poll_again config hash sequence window deadline)
    (λ r l', match r with inl _ => True | inr r => settles hash sequence window l' r end))
    as Hagain.
  { apply follows_call. intros t. exists (Some status). split; [constructor|].
    destruct (_ <=? _); [apply follows_ret; by left|].
    apply follows_call. intros []. exists (Some status). split; [constructor|].
    by apply follows_ret. }
  destruct status as [status|error].
  - destruct (classify status hash window) as [outcome|] eqn:Hc; [|done].
    apply follows_ret. right. by exists status, outcome.
  - destruct (is_transient error); [done|]. apply follows_ret. by left.
Qed.

(** The last poll a trace records. *)
Fixpoint last_poll (last : polled) (tr : list Seen) : polled :=
  match tr with
  | [] => last
  | SPoll _ r :: tr => last_poll (Some r) tr
  | _ :: tr => last_poll last tr
  end.

(** A poll of [hash], a clock read or a pause. *)
Definition polling (hash : TxHash) (s : Seen) : Prop :=
  match s with SPoll h _ => h = hash | SInstant _ | SOther => True | _ => False end.

Lemma poll_steps_last hash last tr last' :
  steps (poll_step hash) last tr last' → last' = last_poll last tr ∧ Forall (polling hash) tr.
Proof.
  induction 1 as [|l o l1 tr l2 Hs _ [-> IH]]; [done|].
  destruct Hs; (split; [done|by constructor]).
Qed.

(** C23: a status is what the last poll proves, and never more. [wait_for] only
    polls its own hash, never fails, and ends with [Succeeded], [Failed] or
    [Expired] only when the last answer says so: [Expired] needs a [NOT_FOUND]
    from an RPC whose ledgers reach past the window and still back to its
    start. Anything less is [Unknown], with what the caller needs to go on. *)
Theorem wait_for_proves_its_answer hash sequence window :
  all_runs (λ tr o, Forall (polling hash) tr ∧
    match o with
    | None => True
    | Some (Err _) => False
    | Some (Ok (TxSucceeded h ledger v)) => h = hash ∧
        ∃ latest, last_poll None tr = Some (Ok (Success ledger latest v))
    | Some (Ok (TxFailed h ledger code result)) => h = hash ∧
        ∃ latest, last_poll None tr = Some (Ok (Failed ledger latest result code))
    | Some (Ok (TxExpired h w latest)) => h = hash ∧ w = window ∧
        ∃ oldest, last_poll None tr = Some (Ok (NotFound latest oldest)) ∧
          max_ledger window ≤ latest ∧ oldest ≤ min_ledger window
    | Some (Ok (TxUnknown h s w)) => h = hash ∧ s = sequence ∧ w = window
    end) (wait_for config instant_max hash sequence window).
Proof.
  eapply always_weaken; [apply (wait_for_follows hash sequence window None)|].
  intros tr o (last & Hs & Ho). apply poll_steps_last in Hs as [-> Hf]. split; [done|].
  destruct o as [r|]; [|done].
  destruct Ho as [->|(status & outcome & Hl & -> & Hc)]; [done|].
  destruct status as [latest oldest|ledger latest v|ledger latest res code]; simpl in Hc.
  - destruct (_ && _) eqn:Hb; [|done]. injection Hc as <-. split_and!; [done..|].
    exists oldest. split; [done|]. apply andb_true_iff in Hb. lia.
  - injection Hc as <-. eauto.
  - injection Hc as <-. eauto.
Qed.

(** The last simulation a trace records. *)
Fixpoint last_simulation (last : simulated) (tr : list Seen) : simulated :=
  match tr with
  | [] => last
  | SSimulate tx r :: tr => last_simulation (Some (tx, r)) tr
  | _ :: tr => last_simulation last tr
  end.

Inductive dry_step : simulated → Seen → simulated → Prop :=
| dry_simulate last tx r : dry_step last (SSimulate tx r) (Some (tx, r))
| dry_account last r : dry_step last (SAccount r) last
| dry_clock last : dry_step last SOther last.

Lemma dry_steps_last last tr last' :
  steps dry_step last tr last' → last' = last_simulation last tr ∧ Forall unsigned_event tr.
Proof.
  induction 1 as [|l o l1 tr l2 Hs _ [-> IH]]; [done|].
  destruct Hs; (split; [done|by constructor]).
Qed.

(** What the contract said. *)
Definition judgment_of (r : result ChainError Simulation) : option Judgment :=
  match r with
  | Ok simulation =>
      match sim_outcome simulation with
      | SimSuccess call =>
          Some (match sc_restore call with Some _ => NeedsRestore | None => Accepted end)
      | SimFailure message code => Some (Refused code message)
      end
  | Err (Simulation_ message code) => Some (Refused code message)
  | Err _ => None
  end.

(** In any machine where reading the account and the clocks changes nothing,
    [simulate_only] takes at most the one step of a simulation of its
    operation, and answers what that one said. *)
Section once.
Context {S : Type} (step : S → Seen → S → Prop) (operation : Operation) (q : S).
Context (next : Transaction → result ChainError Simulation → S).
Context (Haccount : ∀ r, step q (SAccount r) q) (Hother : step q SOther q).
Context (Hsimulate : ∀ tx r, tx_operation tx = operation → step q (SSimulate tx r) (next tx r)).

Lemma unsigned_once sequence latest fee :
  follows seen step q (unsigned config operation sequence latest fee)
    (λ r q', q' = q ∧ match r with
      | Ok (tx, _) => tx_operation tx = operation
      | Err (Simulation_ _ _) => False
      | Err _ => True
      end).
Proof.
  unfold unsigned, unix_now. apply (follows_bind _ _ _ _ _ (λ r q', q' = q ∧
    match r with Err (Simulation_ _ _) => False | _ => True end)).
  { apply follows_call. intros now. exists q. split; [apply Hother|].
    apply follows_ret. by destruct now. }
  intros [now|e] l [-> He]; [|by apply follows_ret]. unfold lift. apply follows_try_ret.
  destruct (u32_checked_add latest _ ≫= _) as [m|]; [|done]. cbn [ok_or rbind].
  unfold window_try_new. destruct (latest <? m); [|done]. by apply follows_ret.
Qed.

Definition once (r : result ChainError Judgment) (q' : S) : Prop :=
  match r with
  | Ok judgment => ∃ tx r, q' = next tx r ∧ tx_operation tx = operation ∧
      judgment_of r = Some judgment
  | Err _ => q' = q ∨ ∃ tx r, q' = next tx r ∧ tx_operation tx = operation
  end.

Lemma simulate_only_once : follows seen step q (simulate_only config operation) once.
Proof.
  apply follows_call_try. intros [account|e]; (eexists; split; [apply Haccount|]); [|by left].
  unfold lift. apply follows_try_ret. destruct (next_sequence _) as [sequence|]; [|by left].
  apply (follows_bind _ _ _ _ _ (λ r q', match r with
    | Ok (call, _) => ∃ tx r, q' = next tx r ∧ tx_operation tx = operation ∧
        judgment_of r = Some (match sc_restore call with Some _ => NeedsRestore | None => Accepted end)
    | Err (Simulation_ message code) => ∃ tx r, q' = next tx r ∧
        tx_operation tx = operation ∧ judgment_of r = Some (Refused code message)
    | Err _ => q' = q ∨ ∃ tx r, q' = next tx r ∧ tx_operation tx = operation end)).
  - unfold simulate_call. eapply follows_bind; [apply unsigned_once|].
    intros [[tx w]|e] l [-> Hr]; [|apply follows_ret; destruct e; by try left].
    apply follows_call. intros r. eexists. split; [by apply Hsimulate|].
    destruct r as [sim|e]; [|apply follows_ret; destruct e; eauto 6].
    apply follows_ret. destruct (sim_outcome sim) eqn:Hs; simpl;
      exists tx, (Ok sim); simpl; by rewrite Hs.
  - intros [[call latest]|e] l Hr; apply follows_ret; [done|]. by destruct e.
Qed.
End once.

(** The judgment [r] is what the last simulation, of [operation], said. *)
Definition judged_by (operation : Operation) (r : result ChainError Judgment) (last : simulated)
  : Prop :=
  match r with
  | Ok judgment => ∃ tx r, last = Some (tx, r) ∧ tx_operation tx = operation ∧
      judgment_of r = Some judgment
  | Err _ => True
  end.

Lemma simulate_only_dry operation last :
  follows seen dry_step last (simulate_only config operation) (judged_by operation).
Proof.
  eapply follows_weaken;
    [apply (simulate_only_once _ _ _ (λ tx r, Some (tx, r))); intros; constructor|].
  by intros [judgment|e] last'.
Qed.

Lemma simulate_only_halts {W} (answer : ∀ X : Type, NetE X → W → X * W) operation w :
  halts seen answer w (simulate_only config operation).
Proof.
  unfold simulate_only.
  apply halts_try; [apply halts_perform|]. intros w1 account.
  apply halts_try; [apply halts_ret|]. intros w2 sequence.
  apply halts_bind; [|intros; apply halts_ret]. unfold simulate_call, unsigned, unix_now.
  apply halts_bind.
  - apply halts_try; [apply halts_bind; [apply halts_perform|intros; apply halts_ret]|].
    intros w3 now. apply halts_try; [apply halts_ret|intros; apply halts_ret].
  - intros w3 [[tx window]|e]; [|apply halts_ret].
    apply halts_bind; [apply halts_perform|]. intros w4 [sim|e]; apply halts_ret.
Qed.

(** The one call a dry run may make. [simulate_only] never signs and never
    sends, whatever it is answered; and the judgment it gives is what the
    simulation of the operation, at the account's next sequence number, said —
    a refusal of the contract is an answer, not an error. *)
Theorem simulate_only_signs_nothing operation :
  all_runs (λ tr o, Forall unsigned_event tr ∧
    ∀ judgment, o = Some (Ok judgment) → ∃ tx r,
      last_simulation None tr = Some (tx, r) ∧ tx_operation tx = operation ∧
      judgment_of r = Some judgment) (simulate_only config operation).
Proof.
  eapply always_weaken; [apply (simulate_only_dry operation None)|].
  intros tr o (last & [-> Hf]%dry_steps_last & Ho). split; [done|]. by intros j ->.
Qed.

(** ** Polling ends *)

Fixpoint polls (tr : list Seen) : Z :=
  match tr with
  | [] => 0
  | SPoll _ _ :: tr => 1 + polls tr
  | _ :: tr => polls tr
  end.

Lemma polls_app tr1 tr2 : polls (tr1 ++ tr2) = polls tr1 + polls tr2.
Proof. induction tr1 as [|[] tr1 IH]; cbn [polls app]; lia. Qed.

Section clock.
Context {W : Type} (answer : ∀ X : Type, NetE X → W → X * W) (clock : W → Z).

(** A clock that calls do not turn back, that [Instant::now] reads and that a
    sleep moves on by at least its length. *)
Definition keeps_time : Prop :=
  (∀ X (e : NetE X) w, clock w ≤ clock (answer _ e w).2) ∧
  (∀ w, clock w ≤ (answer _ InstantNow w).1 ≤ clock (answer _ InstantNow w).2) ∧
  (∀ pause w, clock w + pause ≤ clock (answer _ (Sleep pause) w).2).

(** The polls a wait of [left] nanoseconds can make. *)
Definition poll_bound (left n : Z) : Prop :=
  (n - 1) * poll_interval config <= Z.max 0 left + poll_interval config - 1.

Lemma poll_bound_step left left' n :
  0 < poll_interval config → 0 < left → left' + poll_interval config ≤ left →
  poll_bound left' n → poll_bound left (1 + n).
Proof.
  unfold poll_bound. intros Hi Hl Hs Hb. destruct (decide (left' ≤ 0)); [|nia].
  assert (n - 1 ≤ 0) by nia. nia.
Qed.

Lemma poll_bound_count left m n :
  0 < poll_interval config → 0 ≤ m → left ≤ 10 * poll_interval config * m →
  poll_bound left n → n ≤ 10 * m + 1.
Proof.
  unfold poll_bound. generalize (poll_interval config). intros i Hi Hm Hl Hb.
  assert ((n - 1) * i ≤ 10 * m * i + i - 1) by lia. clear Hl Hb. nia.
Qed.

Lemma poll_loop_ends hash sequence window deadline w :
  keeps_time → 0 < poll_interval config →
  ends seen answer w (poll_loop config hash sequence window deadline)
    (λ tr r w', poll_bound (deadline - clock w) (polls tr)).
Proof.
  intros (Hmono & Hnow & Hsleep) Hi.
  remember (Z.to_nat (deadline - clock w)) as m eqn:Hm. revert w Hm.
  induction (lt_wf m) as [m _ IH]. intros w Hm.
  apply ends_iter, ends_call. cbv beta.
  set (status := (answer _ (RpcTransaction hash) w).1).
  set (w1 := (answer _ (RpcTransaction hash) w).2).
  assert (clock w ≤ clock w1) as H1 by apply Hmono.
  pose (Post := λ (tr : list Seen) (r : () + result ChainError TxOutcome) (w' : W),
    match r with
    | inl _ => ends seen answer w' (poll_loop config hash sequence window deadline)
        (λ tr' _ _, poll_bound (deadline - clock w) (polls ((SPoll hash status :: tr) ++ tr')))
    | inr _ => poll_bound (deadline - clock w) (polls (SPoll hash status :: tr))
    end).
  assert (∀ r, ends seen answer w1 (Ret (inr r)) Post) as Hdone.
  { intros r. apply ends_ret. unfold Post, poll_bound. cbn [polls]. lia. }
  assert (ends seen answer w1 (poll_again config hash sequence window deadline) Post) as Hagain.
  { apply ends_call. set (now := (answer _ InstantNow w1).1).
    set (w2 := (answer _ InstantNow w1).2). pose proof (Hnow w1) as H2. fold now w2 in H2.
    destruct (deadline <=? now) eqn:Hd.
    { apply ends_ret. unfold Post, poll_bound. cbn [polls seen]. lia. }
    apply ends_call, ends_ret. cbv beta.
    pose proof (Hsleep (poll_interval config) w2) as H3.
    set (w3 := (answer _ (Sleep (poll_interval config)) w2).2) in *.
    destruct (IH (Z.to_nat (deadline - clock w3)) ltac:(lia) w3 eq_refl)
      as (n & tr & r & w' & Hdr & Hb).
    exists n, tr, r, w'. split; [done|]. revert Hb.
    cbn [polls app seen]. apply poll_bound_step; lia. }
  eapply ends_weaken; [destruct status as [status'|error]; [destruct (classify _ _ _)|
    destruct (is_transient error)]; done|].
  intros tr [[]|r] w' Hr; exact Hr.
Qed.

(** [wait_for] always comes back: against any clock that a sleep moves on,
    whatever the RPC answers, it ends, and with the production timings after
    at most ten polls per ledger of the window, and one more. *)
Theorem wait_for_ends hash sequence window w base high ledgers :
  config = tx_config_new base high ledgers → 0 ≤ ledgers → keeps_time →
  ends seen answer w (wait_for config instant_max hash sequence window)
    (λ tr r w', polls tr ≤ 10 * Z.min (ledgers + 1) u32_max + 1).
Proof.
  intros Hc Hl Htime. pose proof Htime as (Hmono & Hnow & _).
  pose proof (f_equal poll_interval Hc) as Hpi. pose proof (f_equal wait_cap Hc) as Hcap.
  assert (wait_cap config = 10 * poll_interval config * Z.min (ledgers + 1) u32_max) as Hw.
  { by rewrite Hcap, Hpi. }
  assert (0 < poll_interval config) as Hi by by rewrite Hpi.
  assert (0 ≤ Z.min (ledgers + 1) u32_max) as Hm by (unfold u32_max; lia).
  revert Hm Hw. generalize (Z.min (ledgers + 1) u32_max). intros m Hm Hw.
  clear Hc Hpi Hcap Hl.
  unfold wait_for. apply ends_call. pose proof (Hnow w) as H1.
  set (now := (answer _ InstantNow w).1) in *. set (w1 := (answer _ InstantNow w).2) in *.
  apply (ends_bind _ _ _ _ _ (λ tr d w', polls tr = 0 ∧ d - clock w' ≤ wait_cap config)).
  { unfold instant_checked_add. destruct (_ <=? _).
    { apply ends_ret. cbn [polls]. lia. }
    pose proof (Hnow w1) as H2. exists 2%nat, [seen _ InstantNow (answer _ InstantNow w1).1],
      (answer _ InstantNow w1).1, (answer _ InstantNow w1).2.
    cbn. destruct (answer _ InstantNow w1) as [t w2]. cbn in *. split; [done|].
    split; [done|]. nia. }
  intros tr1 d w2 [Htr1 Hd]. destruct (poll_loop_ends hash sequence window d w2 Htime Hi)
    as (n & tr & r & w' & Hdr & Hb).
  exists n, tr, r, w'. split; [done|]. cbn [polls seen]. rewrite polls_app, Htr1.
  apply (poll_bound_count (d - clock w2)); [done..|lia|done].
Qed.
End clock.
End facts.

(** *** Witnesses *)

(** An environment with a clock for its world: a sleep takes its time, and the
    RPC never finds the transaction. *)
Definition idle_network (X : Type) (e : NetE X) : Z → X * Z :=
  match e in NetE X return Z → X * Z with
  | RpcAccount => λ t, (Err SecretKey, t)
  | RpcFeeStats => λ t, (Err SecretKey, t)
  | RpcSimulate _ => λ t, (Err SecretKey, t)
  | RpcSend _ => λ t, (Err SecretKey, t)
  | RpcTransaction _ => λ t, (Ok (NotFound 100 90), t)
  | Sign _ => λ t, (Err SecretKey, t)
  | UnixNow => λ t, (Some t, t)
  | InstantNow => λ t, (t, t)
  | Sleep pause => λ t, ((), t + Z.max 0 pause)
  | ShutdownFlag => λ t, (false, t)
  | Receive => λ t, (None, t)
  | Respond _ => λ t, ((), t)
  end.

Lemma wait_for_ends_witness :
  ends seen idle_network 0
    (wait_for (tx_config_new 100 200 5) (10 ^ 20) (mkTxHash []) 7 (mkLedgerWindow 100 106))
    (λ tr r w', polls tr ≤ 10 * Z.min (5 + 1) u32_max + 1).
Proof.
  apply (wait_for_ends (tx_config_new 100 200 5) (10 ^ 20) idle_network id
    (mkTxHash []) 7 (mkLedgerWindow 100 106) 0 100 200 5 eq_refl); [lia|].
  split_and!; [intros X e w; destruct e; unfold id; simpl; lia|intros w; unfold id; simpl; lia|].
  intros pause w. unfold id. simpl. lia.
Defined.
