(* ===== verification/Protocol.v ===== *)
(** * What the submission queue promises ([src/queue.rs])

    The queue's contract as a state machine over what it does: one submission
    at a time, nothing of the write path while a transaction of the key may be
    in flight, an answer only the chain's own last word justifies. The queue
    refines it. *)

From S2P Require Import Prelude Fixed Encode Io Chain Submit.
Open Scope Z_scope.

(** ** The contract *)

Section contract.
Context `{Xdr} (config : TxConfig).

(** The states of the queue's key. [budget] is how many more times the account
    may be read for the submission, [next] the sequence number the last read
    (and a restore since) leaves free, [own] whether a transaction is the
    submission's rather than a restore. *)
Inductive QState : Type :=
| QIdle
| QClosed
| QRefused
| QDequeued (s : Submission)
| QWorking (s : Submission) (budget next : Z)
| QSealed (s : Submission) (budget next : Z) (own : bool) (tx : Transaction)
    (envelope : TransactionEnvelope) (hash : TxHash)
| QPending (s : Submission) (budget next : Z) (own : bool) (tx : Transaction) (hash : TxHash)
    (stopping : bool) (last : polled).

(** Nothing of the key is in flight. *)
Inductive quiet : QState → Submission → Z → Z → Prop :=
| quiet_working s b next : quiet (QWorking s b next) s b next
| quiet_sealed s b next own tx e h : quiet (QSealed s b next own tx e h) s b next
| quiet_restored s b next tx h st ledger latest v :
    quiet (QPending s b next false tx h st (Some (Ok (Success ledger latest v)))) s b (next + 1).

(** What is signed: for the next sequence number, in a window of
    [poll_ledgers] + 1 ledgers, for a fee of 32 bits, the submission's own
    operation — with the simulated authorisation when it has none — or a
    restore. *)
Definition sealable (s : Submission) (next : Z) (own : bool) (tx : Transaction) : Prop :=
  tx_seq_num tx = next ∧ next ≤ i64_max ∧
  max_ledger (tx_window tx) = min_ledger (tx_window tx) + poll_ledgers config + 1 ∧
  tx_fee tx ≤ u32_max ∧
  if own then
    tx_operation tx = sub_operation s ∨
    ∃ auth, invoke_auth (sub_operation s) = Some [] ∧
      tx_operation tx = set_invoke_auth auth (sub_operation s)
  else tx_operation tx = restore_footprint.

(** The answers to [sendTransaction] that prove the envelope was not taken.
    The RPC client itself never answers [BadSequence] or [Rejected], which are
    this layer's own words for such an answer. *)
Definition refusal (r : result ChainError SendStatus) : bool :=
  match r with
  | Ok status => match ss_outcome status with
                 | TryAgainLater | SendError _ _ => true | _ => false end
  | Err BadSequence | Err (Rejected _) => true
  | Err _ => false
  end.

Definition budget_of (s : Submission) : Z := 1 + Z.max 0 (sub_retries s).

(** The sequence number an account's answer leaves free. *)
Definition free_sequence (r : result ChainError Account) (next : Z) : Prop :=
  match r with Ok account => next = ac_sequence account + 1 | Err _ => True end.

Inductive qstep : QState → Seen → QState → Prop :=
| q_receive s : qstep QIdle (SReceive (Some s)) (QDequeued s)
| q_close : qstep QIdle (SReceive None) QClosed
| q_stop s : qstep (QDequeued s) (SShutdown true) QRefused
| q_refuse : qstep QRefused (SRespond (Err ShuttingDown)) QIdle
| q_begin s : qstep (QDequeued s) (SShutdown false) (QWorking s (budget_of s) 0)
| q_account q s b next r next' :
    quiet q s b next → 0 < b → free_sequence r next' →
    qstep q (SAccount r) (QWorking s (b - 1) next')
| q_simulate q s b next tx r :
    quiet q s b next → tx_operation tx = sub_operation s → tx_seq_num tx = next →
    qstep q (SSimulate tx r) q
| q_sign q s b next own tx e h :
    quiet q s b next → sealable s next own tx →
    qstep q (SSign tx (Ok (e, h))) (QSealed s b next own tx e h)
| q_unsigned q s b next own tx err :
    quiet q s b next → sealable s next own tx → qstep q (SSign tx (Err err)) q
| q_refused s b next own tx e h r :
    refusal r = true →
    qstep (QSealed s b next own tx e h) (SSend e r) (QSealed s b next own tx e h)
| q_sent s b next own tx e h r :
    refusal r = false →
    qstep (QSealed s b next own tx e h) (SSend e r) (QPending s b next own tx h false None)
| q_poll s b next own tx h st last r :
    qstep (QPending s b next own tx h st last) (SPoll h r)
      (QPending s b next own tx h st (Some r))
| q_flag s b next own tx h st last stop :
    qstep (QPending s b next own tx h st last) (SShutdown stop)
      (QPending s b next own tx h (st || stop) last)
| q_instant s b next own tx h st last t :
    qstep (QPending s b next own tx h st last) (SInstant t) (QPending s b next own tx h st last)
| q_wait s b next own tx h st last :
    qstep (QPending s b next own tx h st last) SOther (QPending s b next own tx h st last)
| q_quiet_flag q s b next stop : quiet q s b next → qstep q (SShutdown stop) q
| q_quiet_wait q s b next : quiet q s b next → qstep q SOther q
| q_settled s b next tx h st status outcome :
    classify status h (tx_window tx) = Some outcome →
    qstep (QPending s b next true tx h st (Some (Ok status))) (SRespond (Ok outcome)) QIdle
| q_interrupted s b next tx h last :
    qstep (QPending s b next true tx h true last)
      (SRespond (Ok (TxUnknown h (tx_seq_num tx) (tx_window tx)))) QIdle
| q_failed q s b next e : quiet q s b next → qstep q (SRespond (Err (QueueChain e))) QIdle
| q_restore_lost s b next tx h st last :
    qstep (QPending s b next false tx h st last)
      (SRespond (Err (QueueChain (RestoreUnknown h (tx_seq_num tx) (tx_window tx))))) QIdle
| q_restore_failed s b next tx h st status outcome message :
    classify status h (tx_window tx) = Some outcome →
    qstep (QPending s b next false tx h st (Some (Ok status)))
      (SRespond (Err (QueueChain (Restore message)))) QIdle.
End contract.

Create HintDb queue.
#[export] Hint Constructors quiet qstep : queue.

(** ** The queue follows it *)

Section refinement.
Context `{Xdr} (config : TxConfig) (instant_max : Z).
Context (debug_outcome : TxOutcome → string).
Context (debug_rejection : option TransactionResult → option Z → string).
Context (policy : RetryPolicy).

Abbreviation upholds := (follows seen (qstep config)).

Lemma unsigned_follows q s b next operation sequence latest fee :
  quiet q s b next →
  upholds q (unsigned config operation sequence latest fee) (λ r q', q' = q ∧
    match r with
    | Ok (tx, w) => tx_fee tx = fee ∧ tx_seq_num tx = sequence ∧ tx_operation tx = operation ∧
        tx_window tx = w ∧ max_ledger w = min_ledger w + poll_ledgers config + 1
    | Err _ => True
    end).
Proof.
  intros Hq. unfold unsigned, unix_now. apply (follows_bind _ _ _ _ _ (λ _ q', q' = q)).
  { apply follows_call. intros now. exists q. split; [by eapply q_quiet_wait|].
    by apply follows_ret. }
  intros [now|e] q1 ->; [|by apply follows_ret].
  apply follows_bind with (λ r q', q' = q ∧ match r with
    | Ok w => max_ledger w = min_ledger w + poll_ledgers config + 1 | Err _ => True end).
  - unfold lift. apply follows_ret. split; [done|]. destruct (u32_checked_add latest _ ≫= _) as [m|] eqn:Hm;
      cbn [ok_or rbind]; [|done].
    unfold window_try_new. destruct (latest <? m); [|done]. cbn [max_ledger min_ledger].
    apply bind_Some in Hm as (l & Hl & Hm). apply u32_checked_add_some in Hl as [-> _].
    by apply u32_checked_add_some in Hm as [-> _].
  - intros [w|e] q' [-> Hw]; by apply follows_ret.
Qed.

Lemma simulate_call_follows q s b next latest :
  quiet q s b next →
  upholds q (simulate_call config (sub_operation s) next latest) (λ r q', q' = q).
Proof.
  intros Hq. unfold simulate_call. eapply follows_try; [by eapply unsigned_follows|naive_solver|].
  intros [tx w] q' (-> & _ & Hseq & Hop & _). apply follows_call_try. intros r. exists q.
  split; [by eapply q_simulate|]. destruct r; [|done]. by apply follows_ret.
Qed.

(** A refusal is an error and the key is free; anything else may be in
    flight. *)
Lemma send_follows s b next own tx prepared :
  upholds (QSealed s b next own tx (pr_envelope prepared) (pr_hash prepared))
    (send config debug_rejection prepared) (λ r q',
      match r with
      | Err BadSequence | Err (Rejected _) =>
          q' = QSealed s b next own tx (pr_envelope prepared) (pr_hash prepared)
      | _ => q' = QPending s b next own tx (pr_hash prepared) false None
      end).
Proof.
  set (sealed := QSealed _ _ _ _ _ _ _).
  unfold send. apply (follows_iter _ _ (λ _ q, q = sealed)); [done|].
  intros retried q ->. apply follows_call. intros [status|e].
  - destruct (refusal (Ok status)) eqn:Hr.
    + exists sealed. split; [by constructor|]. simpl in Hr.
      destruct (ss_outcome status) as [| | |res code]; [done..| |].
      * destruct retried; [by apply follows_ret|]. apply follows_call. intros [].
        exists sealed. split; [eapply q_quiet_wait; constructor|by apply follows_ret].
      * apply follows_ret. by destruct (from_option _ _ _).
    + eexists. split; [by constructor|]. simpl in Hr.
      destruct (ss_outcome status); [..|done]; try done; apply follows_ret; by destruct (decide _).
  - destruct (refusal (Err e)) eqn:Hr; eexists; (split; [by constructor|]); apply follows_ret;
      by destruct e.
Qed.

Lemma seal_follows q s b next own tx sequence window resource_fee :
  quiet q s b next → sealable config s next own tx →
  upholds q (seal tx sequence window resource_fee) (λ r q',
    match r with
    | Ok p => q' = QSealed s b next own tx (pr_envelope p) (pr_hash p) ∧
        pr_sequence p = sequence ∧ pr_window p = window
    | Err _ => q' = q
    end).
Proof.
  intros Hq Hs. unfold seal. apply follows_call_try. intros [[e h]|err].
  - eexists. split; [by eapply q_sign|]. by apply follows_ret.
  - exists q. split; [by eapply q_unsigned|done].
Qed.

Lemma wait_for_pending s b next own tx h st last sequence window :
  upholds (QPending s b next own tx h st last)
    (wait_for config instant_max h sequence window) (λ r q', ∃ last',
      q' = QPending s b next own tx h st last' ∧ settles h sequence window last' r).
Proof.
  apply (follows_map _ (poll_step h) _ (QPending s b next own tx h st));
    [|apply wait_for_follows]. by destruct 1; constructor.
Qed.

Lemma total_fee_bounded inclusion resource_fee fee :
  total_fee inclusion resource_fee = Ok fee → fee ≤ u32_max.
Proof.
  unfold total_fee. intros H1%ok_or_ok. apply bind_Some in H1 as (r & _ & H1).
  apply u32_checked_add_some in H1 as [-> H1]. unfold is_u32 in H1. lia.
Qed.

(** A submission that failed: the key is free again, or the failure is final
    and its answer allowed. *)
Definition failing (b : Z) (s : Submission) (e : ChainError) (q : QState) : Prop :=
  (∃ next, quiet q s b next) ∨
  (sent_nothing e = false ∧ qstep config q (SRespond (Err (QueueChain e))) QIdle).

Lemma restore_follows q s b next preamble latest inclusion :
  quiet q s b next → next ≤ i64_max →
  upholds q (restore config instant_max debug_outcome debug_rejection preamble next latest inclusion)
    (λ r q', match r with
      | Ok _ => quiet q' s b (next + 1)
      | Err e => failing b s e q'
      end).
Proof.
  intros Hq Hnext. unfold restore.
  assert (∀ e, failing b s e q) as Hstill by (left; eauto).
  apply follows_try with (λ r q', q' = q ∧ match r with Ok fee => fee ≤ u32_max | Err _ => True end).
  { unfold lift. apply follows_ret. split; [done|].
    destruct (total_fee _ _) eqn:Hf; [|done]. by eapply total_fee_bounded. }
  { by intros e q' [-> _]. }
  intros fee q' [-> Hfee]. eapply follows_try; [by eapply unsigned_follows|naive_solver|].
  intros [tx window] q' (-> & <- & Hseq & Hop & Hw & Hwidth). cbn [tx_fee tx_seq_num].
  set (tx' := mkTransaction _ _ _ _ _ _).
  eapply follows_try.
  { apply (seal_follows q s b next false tx'); [done|]. subst window. by repeat split. }
  { by intros e q' ->. }
  intros prepared q' (-> & Hps & Hpw).
  eapply follows_bind; [apply send_follows|].
  intros sent q' Hsent.
  assert (∀ st last, failing b s (RestoreUnknown (pr_hash prepared) (pr_sequence prepared)
    (pr_window prepared)) (QPending s b next false tx' (pr_hash prepared) st last)) as Hlost.
  { intros st last. rewrite Hps, Hpw, <- Hseq, <- Hw. right. split; [done|].
    apply (q_restore_lost config s b (tx_seq_num tx) tx'). }
  destruct sent as [[]|e]; [|destruct e; subst q'; apply follows_ret;
    solve [apply Hlost | left; eexists; constructor]].
  subst q'. unfold wait. eapply follows_try; [apply wait_for_pending|..].
  { intros e q' (last & -> & [?|(? & ? & _ & ? & _)]); done. }
  intros outcome q' (last & -> & Hset). apply follows_ret.
  destruct Hset as [[= ->]|(status & outcome' & -> & [= <-] & Hc)]; [apply Hlost|].
  assert (classify status (pr_hash prepared) (tx_window tx') = Some outcome) as Hc'.
  { by rewrite <- Hc, Hpw, <- Hw. }
  destruct outcome as [hash ledger v|h l c res|h w l|h sq w];
    [|right; split; [done|by eapply q_restore_failed]..|].
  - destruct status as [l o|l lt v'|l lt res code]; simpl in Hc; [by destruct (_ && _)| |done].
    constructor.
  - exfalso. clear -Hc. by destruct status; simpl in Hc; [destruct (_ && _)|..].
Qed.

Lemma next_sequence_follows q n :
  upholds q (lift (next_sequence n)) (λ r q', q' = q ∧
    match r with Ok m => m = n + 1 ∧ m ≤ i64_max | Err _ => True end).
Proof.
  unfold lift, next_sequence. apply follows_ret. split; [done|].
  destruct (_ <=? _) eqn:Hle; [|done]. split; [done|]. by apply Z.leb_le.
Qed.

Lemma simulate_restored_follows q s b account inclusion :
  quiet q s b (ac_sequence account + 1) →
  upholds q (simulate_restored config instant_max debug_outcome debug_rejection
      (sub_operation s) account inclusion)
    (λ r q', match r with
      | Ok (_, _, sequence) => quiet q' s b sequence ∧ sequence ≤ i64_max
      | Err e => failing b s e q'
      end).
Proof.
  intros Hq. unfold simulate_restored.
  assert (∀ e, failing b s e q) as Hstill by (left; eauto).
  eapply follows_try; [apply next_sequence_follows|by intros e q' [-> _]|].
  intros sequence q' (-> & -> & Hle).
  eapply follows_try; [by apply (simulate_call_follows q s b)|by intros e q' ->|].
  intros [call latest] q' ->.
  destruct (sc_restore call) as [preamble|]; [|by apply follows_ret].
  eapply follows_try; [by apply restore_follows|done|].
  intros [] q' Hq'. simpl in Hq'.
  assert (∀ e, failing b s e q') as Hstill' by (left; eauto).
  eapply follows_try; [apply next_sequence_follows|by intros e q'' [-> _]|].
  intros sequence' q'' (-> & -> & Hle').
  eapply follows_try; [by apply (simulate_call_follows q' s b)|by intros e q'' ->|].
  intros [call' latest'] q'' ->. by destruct (sc_restore call'); apply follows_ret.
Qed.

(** What [prepare] leaves: the signed transaction of the submission, in the
    state in which it may be sent. *)
Definition prepared_state (s : Submission) (b : Z) (p : Prepared) (q : QState) : Prop :=
  ∃ next tx, q = QSealed s b next true tx (pr_envelope p) (pr_hash p) ∧
    pr_sequence p = tx_seq_num tx ∧ pr_window p = tx_window tx.

Lemma assemble_sealable s next inclusion call tx tx' :
  assemble tx call inclusion = Ok tx' → tx_operation tx = sub_operation s →
  tx_seq_num tx = next → next ≤ i64_max →
  max_ledger (tx_window tx) = min_ledger (tx_window tx) + poll_ledgers config + 1 →
  sealable config s next true tx' ∧ tx_seq_num tx' = tx_seq_num tx ∧
    tx_window tx' = tx_window tx.
Proof.
  unfold assemble. intros (fee & Hfee%total_fee_bounded & [= <-])%bind_ok Hop Hseq Hle Hw.
  repeat split; try done. cbn [tx_operation]. rewrite Hop.
  destruct (invoke_auth (sub_operation s)) as [[|a l]|] eqn:Ha; [|by left..].
  destruct (sc_auth call) as [|a l]; [by left|]. right. by eexists.
Qed.

Lemma prepare_follows q s b next :
  quiet q s b next → 0 < b →
  upholds q (prepare config instant_max debug_outcome debug_rejection
      (sub_operation s) (sub_priority s))
    (λ r q', match r with
      | Ok p => prepared_state s (b - 1) p q'
      | Err e => failing (b - 1) s e q'
      end).
Proof.
  intros Hq Hb. unfold prepare. apply follows_call_try. intros [account|e]; cycle 1.
  { exists (QWorking s (b - 1) 0). split; [by eapply q_account|]. left. eexists. constructor. }
  set (q1 := QWorking s (b - 1) (ac_sequence account + 1)).
  assert (quiet q1 s (b - 1) (ac_sequence account + 1)) as Hq1 by constructor.
  exists q1. split; [by eapply q_account|]. apply follows_call_try. intros r.
  exists q1. split; [by eapply q_quiet_wait|]. destruct r as [fees|e]; [|left; eauto].
  eapply follows_try; [by apply simulate_restored_follows|done|].
  intros [[call latest] sequence] q2 [Hq2 Hle].
  assert (∀ e, failing (b - 1) s e q2) as Hstill by (left; eauto).
  eapply follows_try; [by eapply unsigned_follows|by intros e q3 [-> _]|].
  intros [tx w] q3 (-> & _ & Hseq & Hop & <- & Hw).
  unfold lift. apply follows_try_ret. destruct (assemble tx call _) as [tx'|e] eqn:Ha; [|done].
  apply (assemble_sealable s sequence) in Ha as (Hs & Hsq & Hwd); [|done..].
  eapply follows_weaken; [by apply (seal_follows q2 s (b - 1) sequence true)|].
  intros [p|e] q' Hp; [|by subst q']. destruct Hp as (-> & Hps & Hpw).
  exists sequence, tx'. split; [done|]. destruct Hs as (Hs & _). by rewrite Hps, Hpw, Hs, Hwd.
Qed.

(** ** The queue *)

(** The submission's outcome, which the contract lets the queue answer. *)
Definition settled (s : Submission) (outcome : TxOutcome) (q : QState) : Prop :=
  qstep config q (SRespond (Ok outcome)) QIdle.

Lemma resolve_follows s b next tx prepared :
  pr_sequence prepared = tx_seq_num tx → pr_window prepared = tx_window tx →
  upholds (QPending s b next true tx (pr_hash prepared) false None)
    (resolve config instant_max policy prepared)
    (λ r q', match r with Ok outcome => settled s outcome q' | Err _ => False end).
Proof.
  intros Hseq Hw. unfold resolve. rewrite Hseq, Hw.
  apply (follows_iter _ _ (λ _ q, ∃ st last,
    q = QPending s b next true tx (pr_hash prepared) st last)); [eauto|].
  intros [] q (st & last & ->).
  eapply follows_bind; [apply wait_for_pending|].
  intros r q' (last' & -> & Hset).
  destruct Hset as [->|(status & outcome & -> & -> & Hc)].
  - cbn [is_unknown negb]. apply follows_call. intros stopping. eexists. split; [constructor|].
    destruct stopping; [apply follows_ret; rewrite orb_true_r; constructor|].
    unfold pause_unless_shutdown. rewrite orb_false_r.
    apply (follows_bind _ _ _ _ _ (λ go_on q', ∃ st',
      q' = QPending s b next true tx (pr_hash prepared) st' last' ∧ (go_on = false → st' = true))).
    { apply follows_call. intros []. eexists. split; [constructor|].
      apply follows_call. intros stopping. eexists. split; [constructor|].
      apply follows_ret. eexists. split; [done|]. intros Hs%negb_false_iff.
      by rewrite Hs, orb_true_r. }
    intros go_on q' (st' & -> & Hgo). apply follows_ret. destruct go_on; [by eauto|].
    rewrite Hgo; [constructor|done].
  - assert (is_unknown outcome = false) as ->.
    { clear -Hc. destruct status; simpl in Hc; [destruct (_ && _); [|done]|..]; by simplify_eq/=. }
    cbn [negb]. apply follows_ret. by constructor.
Qed.

Lemma attempt_follows q s b next :
  quiet q s b next → 0 < b →
  upholds q (attempt config instant_max debug_outcome debug_rejection policy s)
    (λ r q', match r with
      | Ok outcome => settled s outcome q'
      | Err e => failing (b - 1) s e q'
      end).
Proof.
  intros Hq Hb. unfold attempt. eapply follows_try; [by eapply prepare_follows|done|].
  intros prepared q' (n & tx & -> & Hseq & Hw).
  eapply follows_bind; [apply send_follows|]. intros sent q'' Hsent.
  assert (upholds (QPending s (b - 1) n true tx (pr_hash prepared) false None)
    (resolve config instant_max policy prepared) (λ r q', match r with
      | Ok outcome => settled s outcome q'
      | Err e => failing (b - 1) s e q'
      end)) as Hresolve.
  { eapply follows_weaken; [by apply resolve_follows|]. by intros [] q'. }
  destruct sent as [[]|e]; [by subst|].
  destruct e; subst; try done; apply follows_ret; left; eexists; constructor.
Qed.

Lemma submit_until_settled_follows s :
  upholds (QWorking s (budget_of s) 0)
    (submit_until_settled config instant_max debug_outcome debug_rejection policy s)
    (λ r q', qstep config q' (SRespond r) QIdle).
Proof.
  unfold submit_until_settled.
  apply (follows_iter _ _ (λ '(n, _) q, ∃ b next, quiet q s b next ∧ 1 + Z.max 0 n ≤ b)).
  { exists (budget_of s), 0. split; [constructor|]. unfold budget_of. lia. }
  intros [n pause] q (b & next & Hq & Hb).
  eapply follows_bind; [apply (attempt_follows q s b next); [done|lia]|].
  intros [outcome|e] q' Hr; [by apply follows_ret|].
  destruct (sent_nothing e && (0 <? n)) eqn:Hs.
  - apply andb_true_iff in Hs as [Hs Hn]. apply Z.ltb_lt in Hn.
    destruct Hr as [[next' Hq']|[? _]]; [|congruence].
    apply (follows_bind _ _ _ _ _ (λ _ q2, q2 = q')).
    { unfold pause_unless_shutdown. apply follows_call. intros []. exists q'.
      split; [by eapply q_quiet_wait|]. apply follows_call. intros stop. exists q'.
      split; [by eapply q_quiet_flag|by apply follows_ret]. }
    intros go_on q2 ->. apply follows_ret. destruct go_on; [|by eapply q_failed].
    exists (b - 1), next'. split; [done|lia].
  - apply follows_ret. destruct Hr as [[next' Hq']|[_ ?]]; [by eapply q_failed|done].
Qed.

Lemma run_queue_follows :
  upholds QIdle (run_queue_with config instant_max debug_outcome debug_rejection policy)
    (λ _ q', q' = QClosed).
Proof.
  unfold run_queue_with. apply (follows_iter _ _ (λ _ q, q = QIdle)); [done|].
  intros [] q ->. apply follows_call. intros [s|]; cycle 1.
  { eexists. split; [constructor|by apply follows_ret]. }
  eexists. split; [constructor|]. apply follows_call. intros stopping.
  exists (if stopping then QRefused else QWorking s (budget_of s) 0).
  split; [destruct stopping; constructor|].
  apply (follows_bind _ _ _ _ _ (λ r q', qstep config q' (SRespond r) QIdle)).
  { destruct stopping; [apply follows_ret; constructor|apply submit_until_settled_follows]. }
  intros outcome q' Hq'. apply follows_call. intros []. exists QIdle.
  split; [done|by apply follows_ret].
Qed.
End refinement.

(** ** What the contract gives *)

(** The submissions received and the answers sent take turns. *)
Fixpoint in_turn `{Xdr} (owing : bool) (tr : list Seen) : bool :=
  match tr with
  | [] => true
  | SReceive (Some _) :: tr => negb owing && in_turn true tr
  | SReceive None :: tr => negb owing && bool_decide (tr = [])
  | SRespond _ :: tr => owing && in_turn false tr
  | _ :: tr => in_turn owing tr
  end.

(** Neither a submission received nor an answer. *)
Definition within `{Xdr} (s : Seen) : Prop :=
  match s with SReceive _ | SRespond _ => False | _ => True end.

(** Every envelope that was not refused was signed for a restore; [signed] is
    what was signed last. *)
Fixpoint only_restores_left `{Xdr} (signed : option Transaction) (tr : list Seen) : Prop :=
  match tr with
  | [] => True
  | SSign tx (Ok _) :: tr => only_restores_left (Some tx) tr
  | SSend _ r :: tr =>
      (refusal r = true ∨ ∃ tx, signed = Some tx ∧ tx_operation tx = restore_footprint) ∧
      only_restores_left signed tr
  | _ :: tr => only_restores_left signed tr
  end.

Section consequences.
Context `{Xdr} (config : TxConfig).

Definition owing (q : QState) : bool :=
  match q with QIdle | QClosed => false | _ => true end.

Lemma quiet_owing q s b next : quiet q s b next → owing q = true.
Proof. by destruct 1. Qed.

Lemma closed_steps tr q : steps (qstep config) QClosed tr q → tr = [].
Proof.
  inversion 1 as [|? ? ? ? ? Hs]; [done|]. exfalso. inversion Hs; subst; try done;
    match goal with H : quiet QClosed _ _ _ |- _ => inversion H end.
Qed.

Lemma steps_in_turn q tr q' : steps (qstep config) q tr q' → in_turn (owing q) tr = true.
Proof.
  induction 1 as [|q o q1 tr q2 Hs Hss IH]; [done|].
  destruct Hs; try (erewrite quiet_owing by eassumption); simpl in *; try done;
    try (erewrite quiet_owing in IH by eassumption); try done.
  apply closed_steps in Hss as ->. done.
Qed.

Lemma pending_stays s b next tx h st last tr q :
  steps (qstep config) (QPending s b next true tx h st last) tr q → Forall within tr →
  ∃ st' last', q = QPending s b next true tx h st' last'.
Proof.
  remember (QPending s b next true tx h st last) as p eqn:Hp. intros Hss. revert st last Hp.
  induction Hss as [|p o q1 tr q2 Hs Hss IH]; intros st last -> Hw; [by eauto|].
  apply Forall_cons in Hw as [Ho Hw].
  inversion Hs; subst; try done; try (by eapply IH);
    match goal with H : quiet _ _ _ _ |- _ => inversion H end.
Qed.

(** The transaction signed last is the state's. *)
Definition signed_in (q : QState) (signed : option Transaction) : Prop :=
  match q with
  | QSealed _ _ _ own tx _ _ =>
      signed = Some tx ∧ (own = false → tx_operation tx = restore_footprint)
  | _ => True
  end.

Lemma failed_not_pending s b next tx h st last e :
  ¬ qstep config (QPending s b next true tx h st last) (SRespond (Err (QueueChain e))) QIdle.
Proof. inversion 1; match goal with H : quiet _ _ _ _ |- _ => inversion H end. Qed.

Lemma failed_leaves_restores q tr q' e signed :
  steps (qstep config) q tr q' → Forall within tr → signed_in q signed →
  qstep config q' (SRespond (Err (QueueChain e))) QIdle → only_restores_left signed tr.
Proof.
  intros Hss. revert signed.
  induction Hss as [|q o q1 tr q2 Hs Hss IH]; intros signed Hw Hin Hend; [done|].
  apply Forall_cons in Hw as [Ho Hw].
  destruct Hs; simpl in *; try done; try (by apply IH).
  - apply IH; [done| |done]. split; [done|]. intros ->. by destruct H1 as (_ & _ & _ & _ & ?).
  - split; [by left|by apply IH].
  - destruct own.
    + exfalso. destruct (pending_stays _ _ _ _ _ _ _ _ _ Hss Hw) as (st & last & ->).
      by eapply failed_not_pending.
    + destruct Hin as [-> Hop]. split; [right; by exists tx; auto|by apply IH].
Qed.
End consequences.

(** ** Properties *)

Section properties.
Context `{Xdr} (config : TxConfig) (instant_max : Z).
Context (debug_outcome : TxOutcome → string).
Context (debug_rejection : option TransactionResult → option Z → string).
Context (policy : RetryPolicy).

Abbreviation queue := (run_queue_with config instant_max debug_outcome debug_rejection policy).

(** C4: the queue refines its contract. Whatever the RPC, the clocks, the
    signing key and the shutdown flag answer, everything it does is a run of
    the contract's state machine. So the account is read at most
    once per attempt the submission's budget allows, and only while nothing of
    the key is in flight; every transaction carries the next free sequence
    number, a window of [poll_ledgers] + 1 ledgers and a fee that fits 32 bits,
    and invokes the submission's operation or restores entries; once the
    submission's own transaction may have left, the queue only polls for it;
    and it answers what the last poll proves of that transaction, [Unknown]
    when a shutdown interrupted it, or an error when nothing of the submission
    is in flight. It ends when, and only when, the senders are gone. *)
Theorem queue_refines_contract :
  follows seen (qstep config) QIdle queue (λ _ q, q = QClosed).
Proof. apply run_queue_follows. Qed.

(** First come, first served, one at a time. The queue answers every
    submission exactly once, before it takes the next. *)
Theorem queue_serves_in_turn : always seen (λ tr _, in_turn false tr = true) queue.
Proof.
  eapply always_weaken; [apply run_queue_follows|]. intros tr o (q & Hs & _).
  by apply steps_in_turn in Hs.
Qed.

(** A chain error spends nothing of the submission. Between a submission
    and the [QueueError::Chain] that answers it, every envelope the network
    did not provably refuse is a restore's. *)
Theorem chain_errors_spend_nothing :
  always seen (λ tr _, ∀ before s between e,
    tr = before ++ SReceive (Some s) :: between ++ [SRespond (Err (QueueChain e))] →
    Forall within between → only_restores_left None between) queue.
Proof.
  eapply always_weaken; [apply run_queue_follows|].
  intros tr o (q & Hs & _) before s between e -> Hw.
  apply steps_split in Hs as (q1 & _ & Hs).
  inversion Hs as [|? ? q2 ? ? Hrec Hs2]; subst. apply steps_split in Hs2 as (q3 & Hb & Hlast).
  inversion Hlast as [|? ? q4 ? ? Hresp Hnil]; subst. inversion Hnil; subst.
  eapply failed_leaves_restores; [exact Hb|done| |].
  - inversion Hrec. done.
  - assert (q = QIdle) as <- by by inversion Hresp. exact Hresp.
Qed.
End properties.

(** ** A restore in flight *)

(** An environment whose world counts the submissions received. The account
    and the fees never change; the first submission's simulation asks for a
    restore, whose [sendTransaction] answer is lost; nothing is ever found. *)
Definition lossy_network (X : Type) (e : NetE X) : Z → X * Z :=
  match e in NetE X return Z → X * Z with
  | RpcAccount => λ w, (Ok (mkAccount 10 100), w)
  | RpcFeeStats => λ w, (Ok (mkFeeStats 100 200 100), w)
  | RpcSimulate _ => λ w, (Ok (mkSimulation 100 [] (SimSuccess (mkSimulatedCall 0 [] 0 50
      (if w =? 1 then Some (mkRestorePreamble 0 70) else None)))), w)
  | RpcSend _ => λ w, (Err (Transport ()), w)
  | RpcTransaction _ => λ w, (Ok (NotFound 100 90), w)
  | Sign tx => λ w, (Ok ((tx_operation tx, tx_seq_num tx, tx_fee tx), mkTxHash [w]), w)
  | UnixNow => λ w, (Some 1700000000, w)
  | InstantNow => λ w, (0, w)
  | Sleep _ => λ w, ((), w)
  | ShutdownFlag => λ w, (false, w)
  | Receive => λ w, (Some (mkSubmission (if w =? 0 then "first" else "second") Normal "" 0), w + 1)
  | Respond _ => λ w, ((), w)
  end.

Definition lossy_run (n : nat) : list Seen * option (() * Z) :=
  drive seen lossy_network n 0
    (run_queue_with (tx_config_new 100 200 5) (10 ^ 20) (λ _, "") (λ _ _, "") default_policy).

Definition is_poll (s : Seen) : bool := match s with SPoll _ _ => true | _ => false end.

Definition lossy_trace : list Seen := take 19 (lossy_run 40).1.

(** The transactions the two submissions' first envelopes carry. *)
Definition lossy_restore : Transaction :=
  mkTransaction 170 11 1700000300 (mkLedgerWindow 100 106) restore_footprint (Some 0).
Definition lossy_second : Transaction :=
  mkTransaction 150 11 1700000300 (mkLedgerWindow 100 106) ("second" : Operation) (Some 0).

(** A restore of unknown outcome does not hold the key. There is a run in
    which the envelope of the first submission's restore is sent and its answer
    lost; the submission is answered [RestoreUnknown]; and the second one is
    then prepared, signed and sent for the very sequence number the restore
    may yet consume, with no poll of the restore in between. *)
Theorem restore_in_flight_frees_the_key :
  ∃ before e1 h1 between e2 h2,
    traces seen (run_queue_with (tx_config_new 100 200 5) (10 ^ 20) (λ _, "") (λ _ _, "")
        default_policy)
      (before ++ [SSign lossy_restore (Ok (e1, h1)); SSend e1 (Err (Transport ()));
         SRespond (Err (QueueChain (RestoreUnknown h1 (tx_seq_num lossy_restore)
           (tx_window lossy_restore))));
         SReceive (Some (mkSubmission "second" Normal "" 0))] ++
       between ++ [SSign lossy_second (Ok (e2, h2)); SSend e2 (Err (Transport ()))]) None ∧
    tx_operation lossy_restore = restore_footprint ∧ tx_operation lossy_second = "second" ∧
    tx_seq_num lossy_second = tx_seq_num lossy_restore ∧
    existsb is_poll between = false.
Proof.
  exists (take 7 lossy_trace), ("restore", 11, 170), (mkTxHash [1]),
    (take 6 (drop 11 lossy_trace)), ("second", 11, 150), (mkTxHash [2]).
  split; [|vm_compute; by repeat split].
  assert (drive seen lossy_network 20 0 (run_queue_with (tx_config_new 100 200 5) (10 ^ 20)
    (λ _, "") (λ _ _, "") default_policy) = (lossy_trace, None)) as Hd.
  { vm_compute. reflexivity. }
  apply drive_runs in Hd. exists 20%nat.
  match goal with |- runs _ _ _ ?tr _ => replace tr with lossy_trace end; [exact Hd|].
  vm_compute. reflexivity.
Qed.
