(* ===== verification/Poller.v ===== *)
(** * The ledger poller ([src/ledger.rs])

    One pass asks for the chain's head, reads every pool event since the
    cursor, sends each one and then the ledger's tick, and moves the cursor
    once the tracker has applied it. The loop around it backs off on failures.
    Both are interaction trees over the RPC, the store, the channel to the
    tracker and the shutdown flag. *)

From stdpp Require Import pretty.
From S2P Require Import Prelude Fixed Auction Encode Chain Operations Decode Events Store Io.
Open Scope Z_scope.

(** ** What it reads and sends ([src/chain/rpc.rs]) *)

Record Health : Type := mkHealth {
  hl_status : string;
  hl_latest_ledger : Z;
  hl_latest_ledger_close_time : Z;
  hl_oldest_ledger : Z;
  hl_ledger_retention_window : Z;
}.

Record LatestLedger : Type := mkLatestLedger {
  ll_sequence : Z;
  ll_protocol_version : Z;
  ll_close_time : Z;
}.

Record EventQuery : Type := mkEventQuery {
  eq_start_ledger : option Z;
  eq_cursor : option string;
  eq_contract_ids : list string;
  eq_limit : Z;
}.

Section wire.
Context `{Xdr}.

Record Event : Type := mkEvent {
  ev_ledger : Z;
  ev_id : string;
  ev_tx_hash : TxHash;
  ev_contract_id : string;
  ev_in_successful_contract_call : bool;
  ev_topics : list ScVal;
  ev_value : ScVal;
}.

Record Events : Type := mkEvents {
  evs_latest_ledger : Z;
  evs_cursor : option string;
  evs_events : list Event;
}.
End wire.

(** ** Data ([src/ledger.rs]) *)

Record LedgerTick : Type := mkLedgerTick { lt_sequence : Z; lt_close_time : Z }.

(** A tick's acknowledgement channel is the answer of [AwaitAck]. *)
Inductive PollerMessage : Type :=
| MEvent (pool : string) (ledger : Z) (event : PoolEvent)
| MTick (pool : string) (tick : LedgerTick)
| MGap (pool : string) (from oldest : Z).

Record PollerConfig : Type := mkPollerConfig {
  pc_poll_interval : Z;
  pc_page_limit : Z;
  pc_min_backoff : Z;
  pc_max_backoff : Z;
}.

(** [PollerConfig::new]; durations are nanoseconds. *)
Definition poller_config_new (poll_interval : Z) : PollerConfig :=
  mkPollerConfig poll_interval 200 1000000000 30000000000.

Definition LIVENESS_INTERVALS : Z := 5.
Definition RPC_FAILING_AFTER : Z := 5.
Definition MAX_PAGES : Z := 10000.

(** [PollerConfig::liveness_deadline]. *)
Definition liveness_deadline (self : PollerConfig) : Z :=
  pc_poll_interval self * LIVENESS_INTERVALS + pc_max_backoff self.

Record DrainOutcome : Type := mkDrainOutcome {
  drained : bool;
  dr_pages : Z;
  stall_reason : option string;
}.

Section poller.
Context `{ScDecode} {StoreError : Type}.

Inductive LedgerError : Type :=
| LChain (e : ChainError)
| LStore (e : StoreError)
| LClosed
| LNotApplied (ledger : Z).

(** How the pause after a pass ends: its time is up, or the shutdown flag
    changed — [ok] unless its sender is gone — and now reads [flag]. *)
Inductive PauseEnd : Type := Elapsed | Changed (ok flag : bool).

Variant PollE : Type → Type :=
| RpcHealth : PollE (result ChainError Health)
| RpcLatestLedger : PollE (result ChainError LatestLedger)
| RpcEvents (query : EventQuery) : PollE (result ChainError Events)
| StoreCursor (name : string) : PollE (result StoreError (option Cursor))
| StoreSetCursor (name : string) (cursor : Cursor) : PollE (result StoreError ())
| ChannelSend (message : PollerMessage) : PollE bool
| AwaitAck : PollE bool
| MetricHeartbeat (pool : string) : PollE ()
| MetricLedgerHead (pool : string) (sequence : Z) : PollE ()
| NotifyRpcFailing (pool : string) (failures : Z) (error : LedgerError) : PollE ()
| StopFlag : PollE bool
| Pause (wait : Z) : PollE PauseEnd.

(** What a trace records. *)
Inductive Noted : Type :=
| NHealth (r : result ChainError Health)
| NLatest (r : result ChainError LatestLedger)
| NEvents (query : EventQuery) (r : result ChainError Events)
| NCursor (name : string) (r : result StoreError (option Cursor))
| NSetCursor (name : string) (cursor : Cursor) (r : result StoreError ())
| NSend (message : PollerMessage) (ok : bool)
| NAck (applied : bool)
| NHeartbeat
| NHead (sequence : Z)
| NNotify (failures : Z)
| NStop (stopping : bool)
| NPause (wait : Z) (ended : PauseEnd).

Definition noted (X : Type) (e : PollE X) : X → Noted :=
  match e in PollE X return X → Noted with
  | RpcHealth => NHealth
  | RpcLatestLedger => NLatest
  | RpcEvents query => NEvents query
  | StoreCursor name => NCursor name
  | StoreSetCursor name cursor => NSetCursor name cursor
  | ChannelSend message => NSend message
  | AwaitAck => NAck
  | MetricHeartbeat _ => λ _, NHeartbeat
  | MetricLedgerHead _ sequence => λ _, NHead sequence
  | NotifyRpcFailing _ failures _ => λ _, NNotify failures
  | StopFlag => NStop
  | Pause wait => NPause wait
  end.

(** ** The poller ([src/ledger.rs]) *)

Context (pool : string) (config : PollerConfig).
(** Whether this run has a recorder and a notifier. *)
Context (metrics notifier : bool).

Abbreviation prog A := (io PollE (result LedgerError A)).

(** [send]. *)
Definition send_down (message : PollerMessage) : prog () :=
  await sent := perform (ChannelSend message) in
  Ret (if (sent : bool) then Ok () else Err LClosed).

(** The message one event becomes, if any. *)
Definition message_of (event : Event) : option PollerMessage :=
  if bool_decide (ev_contract_id event ≠ pool) || negb (ev_in_successful_contract_call event)
  then None
  else
    match decode_pool_event (ev_topics event) (ev_value event) with
    | Ok (Some decoded) => Some (MEvent pool (ev_ledger event) decoded)
    | _ => None
    end.

Fixpoint send_events (events : list Event) : prog () :=
  match events with
  | [] => Ret (Ok ())
  | event :: events =>
      match message_of event with
      | Some message => await? _ := send_down message in send_events events
      | None => send_events events
      end
  end.

(** What a page says about the next: [None] to go on, with its cursor. *)
Definition page_verdict (pages : Z) (request_cursor : option string) (page : Events)
  : string + DrainOutcome :=
  if Z.of_nat (length (evs_events page)) <? pc_page_limit config then
    inr (mkDrainOutcome true pages None)
  else if MAX_PAGES <=? pages then inr (mkDrainOutcome false pages (Some "page cap reached"))
  else
    match evs_cursor page with
    | Some next =>
        if bool_decide (Some next = request_cursor)
        then inr (mkDrainOutcome false pages (Some "cursor did not advance"))
        else inl next
    | None => inr (mkDrainOutcome false pages (Some "full page returned no cursor"))
    end.

Definition page_query (start : Z) (request_cursor : option string) : EventQuery :=
  mkEventQuery (match request_cursor with None => Some start | Some _ => None end)
    request_cursor [pool]
    (pc_page_limit config).

(** [LedgerPoller::drain_events]: the loop carries the cursor of the request
    just sent and the pages fetched. *)
Definition drain_body (start : Z) (state : option string * Z)
  : io PollE (option string * Z + result LedgerError DrainOutcome) :=
  let '(request_cursor, pages) := state in
  let pages := pages + 1 in
  await page := perform (RpcEvents (page_query start request_cursor)) in
  match page with
  | Err e => Ret (inr (Err (LChain e)))
  | Ok page =>
      await sent := send_events (evs_events page) in
      Ret (match sent with
           | Err e => inr (Err e)
           | Ok _ =>
               match page_verdict pages request_cursor page with
               | inl next => inl (Some next, pages)
               | inr outcome => inr (Ok outcome)
               end
           end)
  end.

Definition drain_events (start : Z) : prog DrainOutcome := ITree.iter (drain_body start) (None, 0).

(** [poll_once]: where to start, and the gap it may have to report. The gap
    last reported is the poller's one field that changes. *)
Definition find_start (gap_reported_at : option Z) (oldest head : Z) (stored : option Cursor)
  : io PollE (option Z * result LedgerError Z) :=
  match stored with
  | None => Ret (gap_reported_at, Ok head)
  | Some cursor =>
      let start := u32_saturating_add (cu_ledger cursor) 1 in
      if start <? oldest then
        if bool_decide (gap_reported_at = Some (cu_ledger cursor)) then
          Ret (gap_reported_at, Ok oldest)
        else
          await sent := send_down (MGap pool (cu_ledger cursor) oldest) in
          Ret (match sent with
               | Ok _ => (Some (cu_ledger cursor), Ok oldest)
               | Err e => (gap_reported_at, Err e)
               end)
      else Ret (gap_reported_at, Ok start)
  end.

(** [poll_once]: the tick, its acknowledgement and the cursor. *)
Definition commit (head : LatestLedger) (outcome : DrainOutcome) : prog (option LedgerTick) :=
  if negb (drained outcome) then Ret (Ok None)
  else
    let tick := mkLedgerTick (ll_sequence head) (ll_close_time head) in
    await? _ := send_down (MTick pool tick) in
    await applied := perform AwaitAck in
    if negb applied then Ret (Err (LNotApplied (ll_sequence head)))
    else
      await stored := perform (StoreSetCursor (events_cursor pool)
        (mkCursor (ll_sequence head) None)) in
      Ret (match stored with Ok _ => Ok (Some tick) | Err e => Err (LStore e) end).

(** [LedgerPoller::poll_once]. *)
Definition poll_once (gap_reported_at : option Z)
  : io PollE (option Z * result LedgerError (option LedgerTick)) :=
  await health := perform RpcHealth in
  match health with
  | Err e => Ret (gap_reported_at, Err (LChain e))
  | Ok health =>
  await head := perform RpcLatestLedger in
  match head with
  | Err e => Ret (gap_reported_at, Err (LChain e))
  | Ok head =>
  await _ := (if metrics then perform (MetricLedgerHead pool (ll_sequence head)) else Ret ()) in
  await stored := perform (StoreCursor (events_cursor pool)) in
  match stored with
  | Err e => Ret (gap_reported_at, Err (LStore e))
  | Ok stored =>
  await (gap_reported_at, start) :=
    find_start gap_reported_at (hl_oldest_ledger health) (ll_sequence head) stored in
  match start with
  | Err e => Ret (gap_reported_at, Err e)
  | Ok start =>
      if ll_sequence head <? start then Ret (gap_reported_at, Ok None)
      else
        await answer := (await? outcome := drain_events start in commit head outcome) in
        Ret (gap_reported_at, answer)
  end end end end.

(** The rest of an iteration of [run]: the wait it takes, and the backoff and
    failures it carries on; nothing when the tracker is gone. *)
Definition after_pass (backoff failures : Z) (answer : result LedgerError (option LedgerTick))
  : io PollE (option (Z * Z * Z)) :=
  match answer with
  | Ok _ => Ret (Some (pc_poll_interval config, pc_min_backoff config, 0))
  | Err LClosed => Ret None
  | Err error =>
      let failures := u32_saturating_add failures 1 in
      await _ :=
        (if (failures =? RPC_FAILING_AFTER) && notifier
         then perform (NotifyRpcFailing pool failures error) else Ret ()) in
      Ret (Some (backoff, Z.min (backoff * 2) (pc_max_backoff config), failures))
  end.

(** [LedgerPoller::run]. *)
Definition run : prog () :=
  ITree.iter (λ '(gap_reported_at, backoff, failures),
    await _ := (if metrics then perform (MetricHeartbeat pool) else Ret ()) in
    await stopping := perform StopFlag in
    if (stopping : bool) then Ret (inr (Ok ()))
    else
      await (gap_reported_at, answer) := poll_once gap_reported_at in
      await next := after_pass backoff failures answer in
      match next with
      | None => Ret (inr (Ok ()))
      | Some (wait, backoff, failures) =>
          await ended := perform (Pause wait) in
          Ret (match ended with
               | Elapsed => inl (gap_reported_at, backoff, failures)
               | Changed ok flag =>
                   if negb ok || flag then inr (Ok ())
                   else inl (gap_reported_at, backoff, failures)
               end)
      end) (None, pc_min_backoff config, 0).
End poller.
