(* ===== verification/PollerContract.v ===== *)
(** * What the ledger poller promises ([src/ledger.rs])

    A pass as a state machine: head, cursor, at most one gap, every page's
    events in order, the tick, its acknowledgement, the cursor. The loop around
    it as the counters that pace it. The poller refines it. *)

From S2P Require Import Prelude Fixed Auction Encode Chain Operations Decode Events Store Io Poller.
Open Scope Z_scope.

(** ** The contract *)

Section contract.
Context `{ScDecode} {StoreError : Type} (pool : string) (config : PollerConfig) (notifier : bool).

Abbreviation noted_event := (@Noted _ StoreError).

Inductive Phase : Type :=
| PReady
| PBegun
| PHealthy (oldest : Z)
| PHeaded (oldest : Z) (head : LatestLedger)
| PLost (from oldest : Z) (head : LatestLedger)
| PPlaced (head : LatestLedger) (start : Z)
| PPaging (head : LatestLedger) (start pages : Z) (todo : list PollerMessage)
    (verdict : string + DrainOutcome)
| PTicked (head : LatestLedger)
| PAcked (head : LatestLedger)
| PDone
| PFailed
| PNotified
| PClosed.

(** The gap last reported, the failures in a row, the next backoff. *)
Record PState : Type := mkPState {
  ps_gap : option Z;
  ps_failures : Z;
  ps_backoff : Z;
  ps_phase : Phase;
}.

(** The messages a page's events become. *)
Definition messages (events : list Event) : list PollerMessage :=
  omap (message_of pool) events.

Definition paging (head : LatestLedger) (start pages : Z) (request : option string)
    (page : Events) : Phase :=
  PPaging head start pages (messages (evs_events page)) (page_verdict config pages request page).

Definition tick_of (head : LatestLedger) : LedgerTick :=
  mkLedgerTick (ll_sequence head) (ll_close_time head).

(** The phases in which a pass has ended well. *)
Definition passed (phase : Phase) : Prop :=
  match phase with
  | PDone => True
  | PPlaced head start => ll_sequence head < start
  | PPaging _ _ _ [] (inr outcome) => drained outcome = false
  | _ => False
  end.

Definition pause_stops (ended : PauseEnd) : bool :=
  match ended with Elapsed => false | Changed ok flag => negb ok || flag end.
Definition resume (ended : PauseEnd) : Phase := if pause_stops ended then PClosed else PReady.

(** One step of a pass: the gap and the phase. *)
Inductive pass_step : option Z * Phase → noted_event → option Z * Phase → Prop :=
| p_health g h : pass_step (g, PBegun) (NHealth (Ok h)) (g, PHealthy (hl_oldest_ledger h))
| p_health_failed g e : pass_step (g, PBegun) (NHealth (Err e)) (g, PFailed)
| p_head g oldest head : pass_step (g, PHealthy oldest) (NLatest (Ok head)) (g, PHeaded oldest head)
| p_head_failed g oldest e : pass_step (g, PHealthy oldest) (NLatest (Err e)) (g, PFailed)
| p_gauge g oldest head :
    pass_step (g, PHeaded oldest head) (NHead (ll_sequence head)) (g, PHeaded oldest head)
| p_cursor_failed g oldest head e :
    pass_step (g, PHeaded oldest head) (NCursor (events_cursor pool) (Err e)) (g, PFailed)
| p_no_cursor g oldest head :
    pass_step (g, PHeaded oldest head) (NCursor (events_cursor pool) (Ok None))
      (g, PPlaced head (ll_sequence head))
| p_cursor g oldest head cursor :
    oldest ≤ u32_saturating_add (cu_ledger cursor) 1 →
    pass_step (g, PHeaded oldest head) (NCursor (events_cursor pool) (Ok (Some cursor)))
      (g, PPlaced head (u32_saturating_add (cu_ledger cursor) 1))
| p_gap_known oldest head cursor :
    u32_saturating_add (cu_ledger cursor) 1 < oldest →
    pass_step (Some (cu_ledger cursor), PHeaded oldest head)
      (NCursor (events_cursor pool) (Ok (Some cursor)))
      (Some (cu_ledger cursor), PPlaced head oldest)
| p_lost g oldest head cursor :
    u32_saturating_add (cu_ledger cursor) 1 < oldest → g ≠ Some (cu_ledger cursor) →
    pass_step (g, PHeaded oldest head) (NCursor (events_cursor pool) (Ok (Some cursor)))
      (g, PLost (cu_ledger cursor) oldest head)
| p_gap g from oldest head :
    pass_step (g, PLost from oldest head) (NSend (MGap pool from oldest) true)
      (Some from, PPlaced head oldest)
| p_gap_closed g from oldest head :
    pass_step (g, PLost from oldest head) (NSend (MGap pool from oldest) false) (g, PClosed)
| p_first_page g head start page :
    start ≤ ll_sequence head →
    pass_step (g, PPlaced head start) (NEvents (page_query pool config start None) (Ok page))
      (g, paging head start 1 None page)
| p_first_failed g head start e :
    start ≤ ll_sequence head →
    pass_step (g, PPlaced head start) (NEvents (page_query pool config start None) (Err e))
      (g, PFailed)
| p_event g head start pages message todo verdict :
    pass_step (g, PPaging head start pages (message :: todo) verdict) (NSend message true)
      (g, PPaging head start pages todo verdict)
| p_event_closed g head start pages message todo verdict :
    pass_step (g, PPaging head start pages (message :: todo) verdict) (NSend message false)
      (g, PClosed)
| p_next_page g head start pages next page :
    pass_step (g, PPaging head start pages [] (inl next))
      (NEvents (page_query pool config start (Some next)) (Ok page))
      (g, paging head start (pages + 1) (Some next) page)
| p_next_failed g head start pages next e :
    pass_step (g, PPaging head start pages [] (inl next))
      (NEvents (page_query pool config start (Some next)) (Err e)) (g, PFailed)
| p_tick g head start pages outcome :
    drained outcome = true →
    pass_step (g, PPaging head start pages [] (inr outcome))
      (NSend (MTick pool (tick_of head)) true) (g, PTicked head)
| p_tick_closed g head start pages outcome :
    drained outcome = true →
    pass_step (g, PPaging head start pages [] (inr outcome))
      (NSend (MTick pool (tick_of head)) false) (g, PClosed)
| p_applied g head : pass_step (g, PTicked head) (NAck true) (g, PAcked head)
| p_not_applied g head : pass_step (g, PTicked head) (NAck false) (g, PFailed)
| p_commit g head :
    pass_step (g, PAcked head)
      (NSetCursor (events_cursor pool) (mkCursor (ll_sequence head) None) (Ok ())) (g, PDone)
| p_commit_failed g head e :
    pass_step (g, PAcked head)
      (NSetCursor (events_cursor pool) (mkCursor (ll_sequence head) None) (Err e)) (g, PFailed).

(** The loop around the passes. *)
Inductive run_step : PState → noted_event → PState → Prop :=
| r_heartbeat g f b : run_step (mkPState g f b PReady) NHeartbeat (mkPState g f b PReady)
| r_begin g f b : run_step (mkPState g f b PReady) (NStop false) (mkPState g f b PBegun)
| r_stop g f b : run_step (mkPState g f b PReady) (NStop true) (mkPState g f b PClosed)
| r_pass g p o g' p' f b :
    pass_step (g, p) o (g', p') → run_step (mkPState g f b p) o (mkPState g' f b p')
| r_passed g f b p ended :
    passed p →
    run_step (mkPState g f b p) (NPause (pc_poll_interval config) ended)
      (mkPState g 0 (pc_min_backoff config) (resume ended))
| r_notify g f b :
    u32_saturating_add f 1 = RPC_FAILING_AFTER →
    run_step (mkPState g f b PFailed) (NNotify RPC_FAILING_AFTER) (mkPState g f b PNotified)
| r_backoff g f b p ended :
    p = PNotified ∨ p = PFailed ∧ (notifier = true → u32_saturating_add f 1 ≠ RPC_FAILING_AFTER) →
    run_step (mkPState g f b p) (NPause b ended)
      (mkPState g (u32_saturating_add f 1) (Z.min (b * 2) (pc_max_backoff config)) (resume ended)).
End contract.

(** ** The poller follows it *)

Section refinement.
Context `{ScDecode} {StoreError : Type} (pool : string) (config : PollerConfig).
Context (metrics notifier : bool).

Abbreviation step := (pass_step (StoreError:=StoreError) pool config).
Abbreviation upholds := (follows (noted (StoreError:=StoreError)) step).
Abbreviation lerror := (@LedgerError _ StoreError).

(** How a failed pass leaves the contract. *)
Definition failed_as (e : lerror) (p : Phase) : Prop :=
  match e with LClosed => p = PClosed | _ => p = PFailed end.

Lemma send_down_follows q q' message :
  step q (NSend message true) q' → step q (NSend message false) (q.1, PClosed) →
  upholds q (send_down message)
    (λ r p, match r with Ok _ => p = q' | Err e => p = (q.1, PClosed) ∧ e = LClosed end).
Proof.
  intros Hok Hno. unfold send_down. apply follows_call. intros sent.
  exists (if sent then q' else (q.1, PClosed)). split; [by destruct sent|].
  destruct sent; by apply follows_ret.
Qed.

Lemma send_events_follows g head start pages verdict events :
  upholds (g, PPaging head start pages (messages pool events) verdict)
    (send_events pool events)
    (λ r p, match r with
      | Ok _ => p = (g, PPaging head start pages [] verdict)
      | Err e => p = (g, PClosed) ∧ e = LClosed
      end).
Proof.
  induction events as [|event events IH]; simpl; [by apply follows_ret|].
  unfold messages. simpl. destruct (message_of _ event) as [message|]; [|apply IH].
  eapply follows_try; [apply (send_down_follows _
    (g, PPaging head start pages (messages pool events) verdict));
    constructor|done|].
  by intros _ p ->.
Qed.

Lemma drain_events_follows g head start :
  start ≤ ll_sequence head →
  upholds (g, PPlaced head start) (drain_events pool config start)
    (λ r p, match r with
      | Ok outcome => ∃ pages, p = (g, PPaging head start pages [] (inr outcome))
      | Err e => p.1 = g ∧ failed_as e p.2
      end).
Proof.
  intros Hle. unfold drain_events.
  apply (follows_iter _ _ (λ '(request, pages) p,
    (request = None ∧ pages = 0 ∧ p = (g, PPlaced head start)) ∨
    ∃ next, request = Some next ∧ p = (g, PPaging head start pages [] (inl next)))); [by left|].
  intros [request pages] p Hp. apply follows_call.
  assert (∀ r, ∃ p', step p (NEvents (page_query pool config start request) r) p' ∧
    p' = (g, match r with
      | Ok page => paging pool config head start (pages + 1) request page
      | Err _ => PFailed end)) as Hpage.
  { intros r. eexists; split; [|done].
    destruct Hp as [(-> & -> & ->)|(next & -> & ->)], r; by constructor. }
  intros r. destruct (Hpage r) as (p' & Hs & ->). eexists. split; [exact Hs|].
  destruct r as [page|e]; [|by apply follows_ret].
  eapply follows_bind; [apply send_events_follows|].
  intros [[]|e] p' Hp'; [subst p'|destruct Hp' as [-> ->]]; apply follows_ret; [|done].
  destruct (page_verdict _ _ _ _) as [next|outcome]; [right|]; by eexists.
Qed.

(** Where the cursor read puts the pass. *)
Definition located (g : option Z) (oldest : Z) (head : LatestLedger) (stored : option Cursor)
  : option Z * Phase :=
  match stored with
  | None => (g, PPlaced head (ll_sequence head))
  | Some cursor =>
      if u32_saturating_add (cu_ledger cursor) 1 <? oldest then
        if bool_decide (g = Some (cu_ledger cursor)) then (g, PPlaced head oldest)
        else (g, PLost (cu_ledger cursor) oldest head)
      else (g, PPlaced head (u32_saturating_add (cu_ledger cursor) 1))
  end.

Lemma located_step g oldest head stored :
  step (g, PHeaded oldest head) (NCursor (events_cursor pool) (Ok stored))
    (located g oldest head stored).
Proof.
  destruct stored as [cursor|]; simpl; [|constructor].
  destruct (Z.ltb_spec (u32_saturating_add (cu_ledger cursor) 1) oldest); [|by constructor].
  case_bool_decide; [subst g|]; by constructor.
Qed.

Lemma find_start_follows g oldest head stored :
  upholds (located g oldest head stored) (find_start pool g oldest (ll_sequence head) stored)
    (λ r p, p.1 = r.1 ∧ match r.2 with
      | Ok start => p.2 = PPlaced head start
      | Err e => failed_as e p.2
      end).
Proof.
  destruct stored as [cursor|]; simpl; [|by apply follows_ret].
  destruct (_ <? oldest); [|by apply follows_ret].
  case_bool_decide; [by apply follows_ret|].
  eapply follows_bind; [apply (send_down_follows _
    (Some (cu_ledger cursor), PPlaced head oldest)); constructor|].
  intros [[]|e] p Hp; apply follows_ret; [by subst p|]. by destruct Hp as [-> ->].
Qed.

Lemma commit_follows g head start pages outcome :
  upholds (g, PPaging head start pages [] (inr outcome)) (commit pool head outcome)
    (λ r p, p.1 = g ∧ match r with Ok _ => passed p.2 | Err e => failed_as e p.2 end).
Proof.
  unfold commit. destruct (drained outcome) eqn:Hd; cbn [negb]; [|by apply follows_ret].
  eapply follows_try; [apply (send_down_follows _ (g, PTicked head)); by constructor|..].
  { by intros e p [-> ->]. }
  intros _ p ->. apply follows_call. intros applied.
  exists (g, if applied then PAcked head else PFailed). split; [destruct applied; constructor|].
  destruct applied; cbn [negb]; [|by apply follows_ret].
  apply follows_call. intros r. exists (g, match r with Ok _ => PDone | Err _ => PFailed end).
  split; [destruct r as [[]|]; constructor|]. destruct r; by apply follows_ret.
Qed.

Lemma poll_once_follows g :
  upholds (g, PBegun) (poll_once pool config metrics g)
    (λ r p, p.1 = r.1 ∧ match r.2 with Ok _ => passed p.2 | Err e => failed_as e p.2 end).
Proof.
  unfold poll_once. apply follows_call. intros [health|e];
    (eexists; split; [constructor|]); [|by apply follows_ret].
  apply follows_call. intros [head|e]; (eexists; split; [constructor|]); [|by apply follows_ret].
  set (oldest := hl_oldest_ledger health).
  apply (follows_bind _ _ _ _ _ (λ _ p, p = (g, PHeaded oldest head))).
  { destruct metrics; [|by apply follows_ret]. apply follows_perform. intros [].
    eexists. split; [constructor|done]. }
  intros _ p ->. apply follows_call. intros [stored|e]; cycle 1.
  { eexists. split; [constructor|by apply follows_ret]. }
  eexists. split; [apply located_step|].
  eapply follows_bind; [apply find_start_follows|].
  intros [g' [start|e]] [g1 p1] [Hg Hp]; simpl in Hg, Hp; subst g1; [subst p1|by apply follows_ret].
  destruct (Z.ltb_spec (ll_sequence head) start) as [Hlt|Hle]; [by apply follows_ret|].
  apply (follows_bind _ _ _ _ _ (λ r p, p.1 = g' ∧
    match r with Ok _ => passed p.2 | Err e => failed_as e p.2 end)).
  - eapply follows_try; [by apply drain_events_follows|done|].
    intros outcome p (pages & ->). apply commit_follows.
  - intros answer p Hp. by apply follows_ret.
Qed.

Abbreviation turn := (run_step (StoreError:=StoreError) pool config notifier).

(** The wait [next] is the one the contract sets. *)
Definition paced (g : option Z) (next : option (Z * Z * Z)) (q : PState) : Prop :=
  match next with
  | None => ps_phase q = PClosed
  | Some (wait, b, f) => ∀ ended, turn q (NPause wait ended) (mkPState g f b (resume ended))
  end.

Lemma run_follows :
  follows (noted (StoreError:=StoreError))
    (run_step pool config notifier)
    (mkPState None 0 (pc_min_backoff config) PReady)
    (run pool config metrics notifier)
    (λ r q, r = Ok () ∧ ps_phase q = PClosed).
Proof.
  unfold run. apply (follows_iter _ _ (λ '(g, b, f) q, q = mkPState g f b PReady)); [done|].
  intros [[g b] f] q ->.
  apply (follows_bind _ _ _ _ _ (λ _ q, q = mkPState g f b PReady)).
  { destruct metrics; [|by apply follows_ret]. apply follows_perform. intros [].
    eexists. split; [constructor|done]. }
  intros _ q ->. apply follows_call. intros [];
    (eexists; split; [constructor|]); [by apply follows_ret|].
  eapply follows_bind.
  { apply (follows_map _ (pass_step pool config) _
      (λ p, mkPState p.1 f b p.2) (g, PBegun)); [|apply poll_once_follows].
    intros [g1 p1] n [g2 p2] Hs. by constructor. }
  intros [g' answer] q' ([g1 p] & -> & Hg & Hp). simpl in Hg, Hp. subst g1.
  cbn [fst snd].
  apply (follows_bind _ _ _ _ _ (paced g')).
  { destruct answer as [tick|e]; simpl in Hp.
    - apply follows_ret. intros ended. by constructor.
    - set (f1 := u32_saturating_add f 1).
      assert (∀ e : lerror, e ≠ LClosed → failed_as e p →
        follows (noted (StoreError:=StoreError)) (run_step pool config notifier)
          (mkPState g' f b p)
          (await _ := (if (f1 =? RPC_FAILING_AFTER) && notifier
             then perform (NotifyRpcFailing pool f1 e) else Ret ()) in
           Ret (Some (b, Z.min (b * 2) (pc_max_backoff config), f1)))
          (paced g')) as Hfail.
      { clear Hp. intros e' Hne Hp. assert (p = PFailed) as -> by by destruct e'.
        destruct ((f1 =? RPC_FAILING_AFTER) && notifier) eqn:Hn.
        - apply andb_true_iff in Hn as [Hn _]. apply Z.eqb_eq in Hn.
          apply follows_call. intros []. exists (mkPState g' f b PNotified).
          split; [cbn [noted]; rewrite Hn; by constructor|].
          apply follows_ret. intros ended. constructor. by left.
        - apply (follows_bind _ _ _ _ _ (λ _ q, q = mkPState g' f b PFailed));
            [by apply follows_ret|].
          intros _ q ->. apply follows_ret. intros ended. constructor. right.
          split; [done|]. intros ->. apply andb_false_iff in Hn as [Hn|?]; [|done].
          by apply Z.eqb_neq in Hn. }
      destruct e; try (by apply Hfail). simpl. by apply follows_ret. }
  intros [[[wait b'] f']|] q Hq; [|by apply follows_ret].
  apply follows_call. intros ended. eexists. split; [apply Hq|]. apply follows_ret.
  unfold resume, pause_stops. destruct ended as [|ok flag]; [done|]. by destruct (_ || _).
Qed.
End refinement.

(** ** What a trace says of a pass *)

Section history.
Context `{ScDecode} {StoreError : Type} (pool : string) (config : PollerConfig) (notifier : bool).

Abbreviation history_of := (list (@Noted _ StoreError)).

(** The events sent down, and the pages read, in order. *)
Definition delivered (tr : history_of) : list PollerMessage :=
  omap (λ n, match n with
    | NSend (MEvent p l e) true => Some (MEvent p l e) | _ => None end) tr.

Definition pages_read (tr : history_of) : list (EventQuery * Events) :=
  omap (λ n, match n with NEvents query (Ok page) => Some (query, page) | _ => None end) tr.

Definition events_read (pages : list (EventQuery * Events)) : list Event :=
  pages ≫= λ p, evs_events p.2.

(** Every page was asked for with the cursor the one before it ended at, the
    first one from [start]. *)
Fixpoint chained (start : Z) (request : option string) (pages : list (EventQuery * Events))
  : Prop :=
  match pages with
  | [] => True
  | (query, page) :: pages =>
      query = page_query pool config start request ∧ chained start (evs_cursor page) pages
  end.

Definition short (page : Events) : Prop :=
  Z.of_nat (length (evs_events page)) < pc_page_limit config.

Definition gap_reported (tr : history_of) (from : Z) : Prop :=
  ∃ oldest, NSend (MGap pool from oldest) true ∈ tr.

(** Where a pass starts: at the head without a cursor, else right after the
    cursor, or further on once that gap has been reported. *)
Definition starts_at (tr : history_of) (stored : option Cursor) (head : LatestLedger) (start : Z)
  : Prop :=
  match stored with
  | None => start = ll_sequence head
  | Some cursor =>
      start = u32_saturating_add (cu_ledger cursor) 1 ∨
      (u32_saturating_add (cu_ledger cursor) 1 < start ∧ gap_reported tr (cu_ledger cursor))
  end.

(** Nothing of another pass, and no tick yet. *)
Definition within_pass (n : @Noted _ StoreError) : Prop :=
  match n with NCursor _ _ | NSetCursor _ _ _ | NSend (MTick _ _) _ => False | _ => True end.

(** A pass that has read its range in full and sent all of it. *)
Definition caught_up (tr : history_of) (stored : option Cursor) (head : LatestLedger) (start : Z)
    (pass : history_of) : Prop :=
  starts_at tr stored head start ∧ start ≤ ll_sequence head ∧
  Forall within_pass pass ∧ chained start None (pages_read pass) ∧
  (∃ page, snd <$> last (pages_read pass) = Some page ∧ short page) ∧
  delivered pass = messages pool (events_read (pages_read pass)).

(** The trace of a pass since it read the cursor. *)
Definition since_cursor (tr : history_of) (stored : option Cursor) (pass : history_of) : Prop :=
  ∃ earlier, tr = earlier ++ NCursor (events_cursor pool) (Ok stored) :: pass.

Lemma since_cursor_snoc tr stored pass n :
  since_cursor tr stored pass → since_cursor (tr ++ [n]) stored (pass ++ [n]).
Proof. intros [earlier ->]. exists earlier. by rewrite <- app_assoc. Qed.

Lemma delivered_app tr1 tr2 : delivered (tr1 ++ tr2) = delivered tr1 ++ delivered tr2.
Proof. apply omap_app. Qed.
Lemma pages_read_app tr1 tr2 : pages_read (tr1 ++ tr2) = pages_read tr1 ++ pages_read tr2.
Proof. apply omap_app. Qed.

Lemma gap_reported_app tr n from : gap_reported tr from → gap_reported (tr ++ [n]) from.
Proof. intros [oldest Hin]. exists oldest. apply elem_of_app. by left. Qed.

Lemma gap_reported_snoc tr from oldest :
  gap_reported (tr ++ [NSend (MGap pool from oldest) true]) from.
Proof. exists oldest. apply elem_of_app. right. by left. Qed.

Lemma starts_at_app tr n stored head start :
  starts_at tr stored head start → starts_at (tr ++ [n]) stored head start.
Proof.
  unfold starts_at. destruct stored; [|done]. intros [?|[? ?]]; [by left|right].
  split; [done|by apply gap_reported_app].
Qed.

Lemma chained_snoc start request pages query page :
  chained start request pages →
  query = page_query pool config start (match last pages with
    | Some (_, page) => evs_cursor page | None => request end) →
  chained start request (pages ++ [(query, page)]).
Proof.
  revert request. induction pages as [|[q p] pages IH]; intros request; simpl; [by intros _ ->|].
  intros [-> Hc] ->. split; [done|]. apply IH; [done|].
  destruct pages as [|x pages]; [done|]. simpl. by destruct (last _) as [[]|] eqn:Hl;
    [|apply last_None in Hl].
Qed.

(** What the trace says in each phase. *)
Definition told (tr : history_of) (phase : Phase) : Prop :=
  match phase with
  | PLost from oldest head => ∃ cursor,
      since_cursor tr (Some cursor) [] ∧ from = cu_ledger cursor ∧
      u32_saturating_add (cu_ledger cursor) 1 < oldest
  | PPlaced head start => ∃ stored pass,
      since_cursor tr stored pass ∧ starts_at tr stored head start ∧
      Forall within_pass pass ∧ pages_read pass = [] ∧ delivered pass = []
  | PPaging head start pages todo verdict => ∃ stored pass query page request,
      since_cursor tr stored pass ∧ starts_at tr stored head start ∧
      start ≤ ll_sequence head ∧ Forall within_pass pass ∧
      chained start None (pages_read pass) ∧ last (pages_read pass) = Some (query, page) ∧
      verdict = page_verdict config pages request page ∧
      delivered pass ++ todo = messages pool (events_read (pages_read pass))
  | PTicked head => ∃ stored pass start,
      since_cursor tr stored (pass ++ [NSend (MTick pool (tick_of head)) true]) ∧
      caught_up tr stored head start pass
  | PAcked head => ∃ stored pass start,
      since_cursor tr stored (pass ++ [NSend (MTick pool (tick_of head)) true; NAck true]) ∧
      caught_up tr stored head start pass
  | _ => True
  end.

Abbreviation turn := (run_step (StoreError:=StoreError) pool config notifier).
Abbreviation step := (pass_step (StoreError:=StoreError) pool config).

Lemma page_verdict_next pages request page next :
  page_verdict config pages request page = inl next → evs_cursor page = Some next.
Proof.
  unfold page_verdict. destruct (_ <? _); [done|]. destruct (_ <=? _); [done|].
  destruct (evs_cursor page); [|done]. case_bool_decide; [done|]. congruence.
Qed.

Lemma page_verdict_drained pages request page outcome :
  page_verdict config pages request page = inr outcome → drained outcome = true → short page.
Proof.
  unfold page_verdict, short. destruct (Z.ltb_spec (Z.of_nat (length (evs_events page)))
    (pc_page_limit config)); [done|].
  destruct (_ <=? _); [by intros [= <-]|]. destruct (evs_cursor page); [|by intros [= <-]].
  case_bool_decide; [|done]. by intros [= <-].
Qed.

Lemma messages_app l1 l2 :
  messages pool (l1 ++ l2) =
  messages pool l1 ++ messages pool l2.
Proof. apply omap_app. Qed.

Lemma message_of_event event message :
  message_of pool event = Some message →
  ∃ p l e, message = MEvent p l e.
Proof.
  unfold message_of. destruct (_ || _); [done|].
  destruct (decode_pool_event _ _) as [[d|]|]; [|done..]. intros [= <-]. eauto.
Qed.

Lemma messages_are_events events message :
  message ∈ messages pool events → ∃ p l e, message = MEvent p l e.
Proof. intros (event & _ & Hm)%list_elem_of_omap. by eapply message_of_event. Qed.

(** The page just read is the next of its pass. *)
Lemma told_page tr stored pass head start pages request page :
  since_cursor tr stored pass → starts_at tr stored head start → start ≤ ll_sequence head →
  Forall within_pass pass → chained start None (pages_read pass) →
  delivered pass = messages pool (events_read (pages_read pass)) →
  request = match last (pages_read pass) with Some (_, page) => evs_cursor page | None => None end →
  told (tr ++ [NEvents (page_query pool config start request) (Ok page)])
    (paging pool config head start pages request page).
Proof.
  intros Hs Hst Hle Hw Hc Hd Hr. exists stored,
    (pass ++ [NEvents (page_query pool config start request) (Ok page)]),
    (page_query pool config start request), page, request.
  rewrite delivered_app, pages_read_app. cbn [pages_read omap list_omap app delivered].
  split_and!; [by apply since_cursor_snoc|by apply starts_at_app|done|..].
  - apply Forall_app. by repeat constructor.
  - apply chained_snoc; [done|]. by rewrite Hr.
  - apply last_snoc.
  - done.
  - rewrite app_nil_r, Hd. unfold events_read. rewrite bind_app, messages_app. simpl.
    by rewrite app_nil_r.
Qed.

(** What is sent down counts as delivered only if it is an event. *)
Lemma delivered_event tr p l e :
  delivered (tr ++ [NSend (MEvent p l e) true]) = delivered tr ++ [MEvent p l e].
Proof. by rewrite delivered_app. Qed.

Lemma pages_read_quiet tr n :
  (∀ query page, n ≠ NEvents query (Ok page)) → pages_read (tr ++ [n]) = pages_read tr.
Proof.
  intros Hn. rewrite pages_read_app. destruct n; try apply app_nil_r.
  destruct r; [|apply app_nil_r]. by edestruct Hn.
Qed.

Lemma told_step tr g p n g' p' :
  step (g, p) n (g', p') → told tr p →
  (∀ from, g = Some from → gap_reported tr from) →
  told (tr ++ [n]) p' ∧ (∀ from, g' = Some from → gap_reported (tr ++ [n]) from).
Proof.
  intros Hs Ht Hg.
  assert (∀ from, g = Some from → gap_reported (tr ++ [n]) from) as Hg'.
  { intros from Hf. by apply gap_reported_app, Hg. }
  inversion Hs; subst; (split; [|try exact Hg']); try exact I; simpl in Ht.
  - exists None, []. split_and!; [by exists tr|done..].
  - exists (Some cursor), []. split_and!; [by exists tr|by left|done..].
  - exists (Some cursor), []. split_and!; [by exists tr| |done..]. right. split; [done|].
    by apply Hg'.
  - exists cursor. split_and!; [by exists tr|done..].
  - destruct Ht as (cursor & Hc & -> & Hlt). exists (Some cursor), [NSend (MGap pool (cu_ledger cursor) oldest) true].
    split_and!; [by apply (since_cursor_snoc _ _ [])| |by repeat constructor|done..].
    right. split; [done|apply gap_reported_snoc].
  - intros from' [= <-]. apply gap_reported_snoc.
  - destruct Ht as (stored & pass & Hc & Hst & Hw & Hp & Hd). apply (told_page _ stored pass);
      rewrite ?Hp, ?Hd; done.
  - destruct Ht as (stored & pass & query & page & request & Hc & Hst & Hle & Hw & Hch & Hl & Hv & Hd).
    assert (∃ p l e, message = MEvent p l e) as (p & l & e & ->).
    { eapply messages_are_events. rewrite <- Hd. apply elem_of_app. right. by left. }
    exists stored, (pass ++ [NSend (MEvent p l e) true]), query, page, request.
    rewrite delivered_event, pages_read_quiet by done. rewrite <- app_assoc.
    split_and!; try done; [by apply since_cursor_snoc|by apply starts_at_app|].
    apply Forall_app. by repeat constructor.
  - destruct Ht as (stored & pass & query & page' & request & Hc & Hst & Hle & Hw & Hch & Hl & Hv & Hd).
    rewrite app_nil_r in Hd. apply (told_page _ stored pass); try done. rewrite Hl.
    symmetry. by eapply page_verdict_next.
  - destruct Ht as (stored & pass & query & page & request & Hc & Hst & Hle & Hw & Hch & Hl & Hv & Hd).
    rewrite app_nil_r in Hd. exists stored, pass, start.
    split; [by apply since_cursor_snoc|]. split_and!; try done; [by apply starts_at_app|].
    exists page. rewrite Hl. split; [done|]. by eapply page_verdict_drained.
  - destruct Ht as (stored & pass & start & Hc & Hst & Hcaught). exists stored, pass, start.
    split; [|split; [by apply starts_at_app|done]].
    apply (since_cursor_snoc _ _ _ (NAck true)) in Hc. by rewrite <- app_assoc in Hc.
Qed.

(** What the trace of a run says of the state it is in. *)
Lemma run_told tr q :
  steps turn (mkPState None 0 (pc_min_backoff config) PReady) tr q →
  told tr (ps_phase q) ∧ (∀ from, ps_gap q = Some from → gap_reported tr from).
Proof.
  revert tr q. apply (steps_invariant _ (λ tr q, told tr (ps_phase q) ∧
    (∀ from, ps_gap q = Some from → gap_reported tr from))); [done|].
  intros tr q n q' _ [Ht Hg] Hs.
  assert (∀ from, ps_gap q = Some from → gap_reported (tr ++ [n]) from) as Hg'.
  { intros from Hf. by apply gap_reported_app, Hg. }
  inversion Hs; subst; simpl in *; try done; [by eapply told_step|..];
    unfold resume; by destruct (pause_stops _).
Qed.

(** A write of the cursor ends a pass that was told in full. *)
Definition committed (before : history_of) (name : string) (cursor : Cursor)
    (stored : option Cursor) (pass : history_of) (head : LatestLedger) (start : Z) : Prop :=
  since_cursor before stored (pass ++ [NSend (MTick pool (tick_of head)) true; NAck true]) ∧
  caught_up before stored head start pass ∧
  name = events_cursor pool ∧ cursor = mkCursor (ll_sequence head) None.

Lemma write_committed before name cursor r after q :
  steps turn (mkPState None 0 (pc_min_backoff config) PReady)
    (before ++ NSetCursor name cursor r :: after) q →
  ∃ stored pass head start, committed before name cursor stored pass head start.
Proof.
  intros Hs. apply steps_split in Hs as (q1 & Hbefore & Hs). apply run_told in Hbefore as [Ht _].
  inversion Hs as [|? ? q2 ? ? Hstep _]; subst.
  inversion Hstep as [| | |? ? ? ? ? ? ? Hp| | |]; subst.
  simpl in Ht. inversion Hp; subst; destruct Ht as (stored & pass & start & Hc & Hcaught);
    by exists stored, pass, head, start.
Qed.

(** A poller speaks of its own pool only. *)
Definition message_pool (m : PollerMessage) : string :=
  match m with MEvent p _ _ | MTick p _ | MGap p _ _ => p end.

Definition own (n : @Noted _ StoreError) : Prop :=
  match n with NSend m _ => message_pool m = pool | _ => True end.

Lemma messages_own events : Forall (λ m, message_pool m = pool) (messages pool events).
Proof.
  apply Forall_forall. intros m (event & _ & Hm)%list_elem_of_omap. revert Hm. unfold message_of.
  destruct (_ || _); [done|]. destruct (decode_pool_event _ _) as [[d|]|]; [|done..].
  by intros [= <-].
Qed.

Lemma run_own tr q :
  steps turn (mkPState None 0 (pc_min_backoff config) PReady) tr q → Forall own tr.
Proof.
  intros Hs. cut (Forall own tr ∧ match ps_phase q with
    | PPaging _ _ _ todo _ => Forall (λ m, message_pool m = pool) todo | _ => True end);
    [by intros [? _]|].
  revert tr q Hs. apply (steps_invariant _ (λ tr q, Forall own tr ∧ match ps_phase q with
    | PPaging _ _ _ todo _ => Forall (λ m, message_pool m = pool) todo | _ => True end)); [done|].
  intros tr q n q' _ [Ht Hq] Hs. rewrite Forall_app, Forall_singleton.
  inversion Hs as [| | |? ? ? ? ? ? ? Hp| | |]; subst; simpl in *; unfold resume;
    try (by split; [|destruct (pause_stops _)]); try done.
  inversion Hp; subst; simpl in *; try done; try (by apply Forall_cons in Hq as [? ?]);
    split; try done; apply messages_own.
Qed.
End history.

(** ** Paging ends *)

Section paging.
Context `{ScDecode} {StoreError : Type} (pool : string) (config : PollerConfig).
Context {W : Type} (answer : ∀ X : Type, @PollE _ StoreError X → W → X * W).

Fixpoint queries (tr : list (@Noted _ StoreError)) : Z :=
  match tr with
  | [] => 0
  | NEvents _ _ :: tr => 1 + queries tr
  | _ :: tr => queries tr
  end.

Lemma queries_app tr1 tr2 : queries (tr1 ++ tr2) = queries tr1 + queries tr2.
Proof. induction tr1 as [|[] tr1 IH]; cbn [queries app]; lia. Qed.

Lemma send_down_ends w message :
  ends noted answer w (send_down message) (λ tr r w', queries tr = 0).
Proof. unfold send_down. apply ends_call, ends_ret. reflexivity. Qed.

Lemma send_events_ends w events :
  ends noted answer w (send_events pool events) (λ tr r w', queries tr = 0).
Proof.
  revert w. induction events as [|event events IH]; intros w; simpl; [by apply ends_ret|].
  destruct (message_of _ event); [|apply IH].
  eapply ends_bind; [apply send_down_ends|]. intros tr1 [[]|e] w1 Htr1;
    [|apply ends_ret; by rewrite app_nil_r].
  eapply ends_weaken; [apply IH|]. intros tr2 r w2 Htr2. cbv beta in *. rewrite queries_app. lia.
Qed.

Definition drain_loop (start : Z) (state : option string * Z)
  : io PollE (result (@LedgerError _ StoreError) DrainOutcome) :=
  ITree.iter (drain_body pool config start) state.

Lemma drain_loop_ends start request pages w :
  0 ≤ pages < MAX_PAGES →
  ends noted answer w (drain_loop start (request, pages))
    (λ tr r w', queries tr ≤ MAX_PAGES - pages).
Proof.
  remember (Z.to_nat (MAX_PAGES - pages)) as m eqn:Hm. revert request pages w Hm.
  induction (lt_wf m) as [m _ IH]. intros request pages w Hm Hp.
  apply ends_iter. unfold drain_body. apply ends_call.
  destruct (answer _ _ w) as [[page|e] w1]; cbn [fst snd]; [|apply ends_ret; cbn [queries noted]; lia].
  eapply ends_bind; [apply send_events_ends|]. intros tr1 [[]|e] w2 Htr1;
    apply ends_ret; cbn [queries noted app]; rewrite ?app_nil_r; [|lia].
  destruct (page_verdict _ _ _ _) as [next|outcome] eqn:Hv;
    [|cbn [queries noted app]; rewrite ?app_nil_r; lia].
  assert (pages + 1 < MAX_PAGES) as Hlt.
  { unfold page_verdict in Hv. destruct (_ <? _); [done|].
    by destruct (Z.leb_spec MAX_PAGES (pages + 1)). }
  eapply ends_weaken; [apply (IH (Z.to_nat (MAX_PAGES - (pages + 1)))); lia|].
  intros tr2 r w3 Htr2. cbv beta in *. cbn [queries app]. rewrite queries_app, Htr1. lia.
Qed.
End paging.

(** ** Properties *)

Section properties.
Context `{ScDecode} {StoreError : Type} (pool : string) (config : PollerConfig).
Context (metrics notifier : bool).

Abbreviation poller := (run (StoreError:=StoreError) pool config metrics notifier).

(** C27: the poller refines its contract. Whatever the RPC, the store, the
    tracker and the shutdown flag answer, everything it does is a run of the
    contract's state machine: head before events, events in the order and by
    the pages the RPC gave them, at most one gap per stale cursor, the tick
    after a short page, the cursor after the acknowledgement; the poll interval
    after a pass that ended well, the doubling backoff up to its ceiling after
    one that failed, one notification per run of failures. It never fails, and
    ends only for a shutdown or a tracker that is gone. *)
Theorem poller_refines_contract :
  follows (noted (StoreError:=StoreError)) (run_step pool config notifier)
    (mkPState None 0 (pc_min_backoff config) PReady) poller
    (λ r q, r = Ok () ∧ ps_phase q = PClosed).
Proof. apply run_follows. Qed.

(** The cursor never moves past what was applied, and nothing before it is
    skipped. Every write of the cursor names the head its pass read, and comes
    right after the tracker acknowledged the tick for that head; in that pass,
    the pages were read one from another, from right after the stored cursor —
    or from further on, once the gap was reported — to a short one, and exactly
    the modelled events on them were sent, in order. *)
Theorem cursor_commits_what_was_applied :
  always noted (λ tr _, ∀ before name cursor r after,
    tr = before ++ NSetCursor name cursor r :: after →
    ∃ stored pass head start,
      committed pool config before name cursor stored pass head start) poller.
Proof.
  eapply always_weaken; [apply run_follows|].
  intros tr o (q & Hs & _) before name cursor r after ->. by eapply write_committed.
Qed.
End properties.

(** Paging ends. Against any RPC and any tracker, one range is read in at
    most [MAX_PAGES] requests. *)
Theorem paging_ends `{ScDecode} {StoreError W : Type} (pool : string) (config : PollerConfig)
    (answer : ∀ X : Type, @PollE _ StoreError X → W → X * W) (w : W) (start : Z) :
  ends noted answer w (drain_events pool config start)
    (λ tr r w', queries tr ≤ MAX_PAGES).
Proof.
  eapply ends_weaken; [apply (drain_loop_ends pool config answer start None 0)|].
  - unfold MAX_PAGES. lia.
  - intros tr r w' Hq. cbv beta in Hq. lia.
Qed.
