(* ===== verification/Heartbeat.v ===== *)
(** * Heartbeats while a future runs ([src/ledger.rs])

    [heartbeat_while] races a future against a ticker and stamps every pool
    each time the ticker fires. The future is an interaction tree; the wrapped
    one makes the same calls, gets the same answers and returns the same
    result. So the poller as it is written, with its passes and the wait for an
    acknowledgement wrapped, does what [Poller.run] does. *)

From S2P Require Import Prelude Fixed Auction Encode Chain Operations Decode Events Store Io Poller.
Open Scope Z_scope.

(** ** Building runs *)

Section building.
Context {E : Type → Type} {Obs : Type} (log : ∀ X : Type, E X → X → Obs).

Lemma traces_start {R} (t : itree E R) : traces log t [] None.
Proof. exists 0%nat. apply runs_start. Qed.

Lemma traces_tau {R} (t u : itree E R) tr o :
  observe t = TauF u → traces log u tr o → traces log t tr o.
Proof. intros Ht [n Hr]. exists (S n). right. by rewrite Ht. Qed.

Lemma traces_vis {R X} (t : itree E R) (e : E X) k x tr o :
  observe t = VisF e k → traces log (k x) tr o → traces log t (log _ e x :: tr) o.
Proof. intros Ht [n Hr]. exists (S n). right. rewrite Ht. by exists x, tr. Qed.

Lemma traces_ret {R} (t : itree E R) r : observe t = RetF r → traces log t [] (Some r).
Proof. intros Ht. exists 1%nat. right. by rewrite Ht. Qed.

Lemma traces_bind {A B} (t : itree E A) (k : A → itree E B) tr1 r tr2 o :
  traces log t tr1 (Some r) → traces log (k r) tr2 o → traces log (ITree.bind t k) (tr1 ++ tr2) o.
Proof.
  intros [n Hr] Hk. revert t tr1 Hr. induction n as [|n IH]; intros t tr1 Hr.
  - by destruct Hr as [[_ [=]]|[]].
  - destruct Hr as [[_ [=]]|Hr]. pose proof (observe_bind t k) as Hb.
    destruct (observe t) as [r'|u|X e h] eqn:Ht.
    + destruct Hr as [-> [= <-]]. destruct Hk as [m Hm]. exists m. destruct m as [|m]; [exact Hm|].
      simpl in Hm |- *. unfold runs in *. simpl in *. by rewrite Hb.
    + eapply traces_tau; [exact Hb|]. by apply IH.
    + destruct Hr as (x & tr' & -> & Hr). simpl.
      eapply (traces_vis _ _ (λ x, ITree.bind (h x) k)); [exact Hb|]. by apply IH.
Qed.

Lemma traces_bind_none {A B} (t : itree E A) (k : A → itree E B) tr :
  traces log t tr None → traces log (ITree.bind t k) tr None.
Proof.
  intros [n Hr]. revert t tr Hr. induction n as [|n IH]; intros t tr Hr.
  - destruct Hr as [[-> _]|[]]. apply traces_start.
  - destruct Hr as [[-> _]|Hr]; [apply traces_start|]. pose proof (observe_bind t k) as Hb.
    destruct (observe t) as [r'|u|X e h] eqn:Ht.
    + by destruct Hr as [_ [=]].
    + eapply traces_tau; [exact Hb|]. by apply IH.
    + destruct Hr as (x & tr' & -> & Hr).
      eapply (traces_vis _ _ (λ x, ITree.bind (h x) k)); [exact Hb|]. by apply IH.
Qed.

Lemma traces_iter {I R} (body : I → itree E (I + R)) i tr o :
  traces log (ITree.bind (body i)
    (λ lr, match lr with inl l => Tau (ITree.iter body l) | inr r => Ret r end)) tr o →
  traces log (ITree.iter body i) tr o.
Proof. intros [n Hr]. exists n. destruct n; exact Hr. Qed.
End building.

(** ** The wrapper *)

Section wrapper.
Context {E : Type → Type} {Obs : Type} (log : ∀ X : Type, E X → X → Obs).

(** The calls of the future, which branch of the [select!] is taken — the
    ticker's, or the future goes on — and the stamps. *)
Variant BeatE : Type → Type :=
| BInner (X : Type) (e : E X) : BeatE X
| BSelect : BeatE bool
| BHeartbeat (pool : string) : BeatE ().

Inductive BeatObs : Type :=
| OInner (o : Obs)
| OSelect (ticked : bool)
| OBeat (pool : string).

Definition beat_log (X : Type) (e : BeatE X) : X → BeatObs :=
  match e in BeatE X return X → BeatObs with
  | BInner _ e => λ x, OInner (log _ e x)
  | BSelect => OSelect
  | BHeartbeat pool => λ _, OBeat pool
  end.

(** The ticker's period: the interval, but no less than a millisecond, since
    a period of zero panics. *)
Definition heartbeat_period (interval : Z) : Z := Z.max interval 1000000.

Fixpoint beat_all (pools : list string) : io BeatE () :=
  match pools with
  | [] => Ret ()
  | pool :: pools => await _ := perform (BHeartbeat pool) in beat_all pools
  end.

(** One turn of the loop: the ticker's branch, or the next step of [fut]. *)
Definition beat_body {A : Type} (metrics : bool) (pools : list string) (fut : io E A)
  : io BeatE (io E A + A) :=
  await ticked := perform BSelect in
  if (ticked : bool) then
    await _ := (if metrics then beat_all pools else Ret ()) in
    Ret (inl fut)
  else
    match observe fut with
    | RetF output => Ret (inr output)
    | TauF fut => Ret (inl fut)
    | VisF e k => await x := perform (BInner _ e) in Ret (inl (k x))
    end.

(** [heartbeat_while]. *)
Definition heartbeat_while {A : Type} (metrics : bool) (pools : list string) (fut : io E A)
  : io BeatE A :=
  ITree.iter (beat_body metrics pools) fut.

Definition inner (tr : list BeatObs) : list Obs :=
  omap (λ o, match o with OInner o => Some o | _ => None end) tr.
Definition beats (tr : list BeatObs) : list string :=
  omap (λ o, match o with OBeat pool => Some pool | _ => None end) tr.
Definition ticks (tr : list BeatObs) : nat :=
  length (filter (λ o, o = true) (omap (λ o, match o with OSelect b => Some b | _ => None end) tr)).

Lemma inner_app tr1 tr2 : inner (tr1 ++ tr2) = inner tr1 ++ inner tr2.
Proof. apply omap_app. Qed.
Lemma beats_app tr1 tr2 : beats (tr1 ++ tr2) = beats tr1 ++ beats tr2.
Proof. apply omap_app. Qed.
Lemma ticks_app tr1 tr2 : ticks (tr1 ++ tr2) = (ticks tr1 + ticks tr2)%nat.
Proof. unfold ticks. by rewrite omap_app, filter_app, length_app. Qed.

Lemma ticks_select tr : ticks (OSelect true :: tr) = S (ticks tr).
Proof. reflexivity. Qed.

(** ** It answers what the future answers

    [erases t' t]: without its stamps, whatever [t'] does is something [t]
    does. *)
Definition erases {A : Type} (t' : io BeatE A) (t : io E A) : Prop :=
  always beat_log (λ tr o, traces log t (inner tr) o) t'.

Lemma erases_ret {A} (r : A) : erases (Ret r) (Ret r).
Proof. apply always_ret; [apply traces_start|by apply traces_ret]. Qed.

Lemma erases_inner {X} (e : E X) : erases (perform (BInner _ e)) (perform e).
Proof.
  apply always_perform; [apply traces_start|]. intros x.
  split; apply (traces_vis log (perform e) e (λ x, Ret x) x []); try reflexivity;
    [apply traces_start|by apply traces_ret].
Qed.

Lemma erases_bind {A B} (t' : io BeatE A) t (k' : A → io BeatE B) k :
  erases t' t → (∀ r, erases (k' r) (k r)) → erases (ITree.bind t' k') (ITree.bind t k).
Proof.
  intros Ht Hk. eapply always_bind; [exact Ht|..].
  - intros tr. apply traces_bind_none.
  - intros r tr1 H1. eapply always_weaken; [apply Hk|]. intros tr2 o H2.
    rewrite inner_app. eapply traces_bind; [exact H1|exact H2].
Qed.

(** The rest of a program, after what has been done of it. *)
Definition rest_of {A : Type} (t : io E A) (tr0 : list BeatObs) (rest : io E A) : Prop :=
  ∀ tr o, traces log rest tr o → traces log t (inner tr0 ++ tr) o.

Lemma rest_so_far {A} (t : io E A) tr0 rest : rest_of t tr0 rest → traces log t (inner tr0) None.
Proof. intros Hr. rewrite <- (app_nil_r (inner tr0)). apply Hr, traces_start. Qed.

Lemma erases_iter {I R} (body' : I → io BeatE (I + R)) body i :
  (∀ i, erases (body' i) (body i)) → erases (ITree.iter body' i) (ITree.iter body i).
Proof.
  intros Hb. apply (always_iter _ (λ j tr0, rest_of (ITree.iter body i) tr0 (ITree.iter body j))).
  { by intros tr o. }
  intros j tr0 Hj. eapply always_weaken; [apply Hb|]. intros tr o Htr.
  assert (∀ lr tr2 o2, traces log (body j) (inner tr) (Some lr) →
    traces log (match lr with inl l => Tau (ITree.iter body l) | inr r => Ret r end) tr2 o2 →
    traces log (ITree.iter body i) (inner (tr0 ++ tr) ++ tr2) o2) as Hgo.
  { intros lr tr2 o2 H1 H2. rewrite inner_app, <- app_assoc. apply Hj, traces_iter.
    eapply traces_bind; [exact H1|exact H2]. }
  destruct o as [[l|r]|].
  - split; [|rewrite <- (app_nil_r (inner _)); eapply Hgo; [exact Htr|apply traces_start]].
    intros tr2 o2 H2. eapply Hgo; [exact Htr|]. by eapply traces_tau.
  - split; rewrite <- (app_nil_r (inner _)); (eapply Hgo; [exact Htr|]);
      [by apply traces_ret|apply traces_start].
  - rewrite inner_app. by apply Hj, traces_iter, traces_bind_none.
Qed.

Lemma beat_all_beats pools :
  always beat_log (λ tr o, inner tr = [] ∧ beats tr `prefix_of` pools ∧ ticks tr = 0%nat ∧
    (o = Some () → beats tr = pools)) (beat_all pools).
Proof.
  induction pools as [|pool pools IH]; simpl.
  { apply always_ret; split_and!; try done; apply prefix_nil. }
  eapply (always_bind _ (λ tr o, tr = [] ∧ o = None ∨ tr = [OBeat pool])).
  - apply always_perform; [by left|]. intros []. split; by right.
  - intros tr [[-> _]| ->]; (split_and!; try done); [apply prefix_nil|].
    simpl. apply prefix_cons, prefix_nil.
  - intros [] tr1 [[_ [=]]| ->]. eapply always_weaken; [apply IH|].
    intros tr o (Hi & Hb & Ht & Ho). simpl. split_and!; [done|by apply prefix_cons|done|].
    intros Hs. unfold beats. simpl. f_equal. by apply Ho.
Qed.

(** The stamps of [n] ticks, the last maybe cut short. *)
Definition stamped (metrics : bool) (pools : list string) (tr : list BeatObs) : Prop :=
  if metrics then ∃ full cut, beats tr = full ++ cut ∧ cut `prefix_of` pools ∧
    (full = concat (replicate (ticks tr) pools) ∧ cut = [] ∨
     ∃ n, ticks tr = S n ∧ full = concat (replicate n pools))
  else beats tr = [].

Definition all_stamped (metrics : bool) (pools : list string) (tr : list BeatObs) : Prop :=
  beats tr = if metrics then concat (replicate (ticks tr) pools) else [].

Lemma all_stamped_stamped metrics pools tr : all_stamped metrics pools tr → stamped metrics pools tr.
Proof.
  unfold all_stamped, stamped. destruct metrics; [|done]. intros ->.
  exists (concat (replicate (ticks tr) pools)), []. rewrite app_nil_r.
  split_and!; [done|apply prefix_nil|by left].
Qed.

(** What one more step of the future adds. *)
Lemma unstamped metrics pools tr0 tr :
  all_stamped metrics pools tr0 → beats tr = [] → ticks tr = 0%nat →
  all_stamped metrics pools (tr0 ++ tr).
Proof.
  unfold all_stamped. intros H0 Hb Ht. by rewrite beats_app, ticks_app, Hb, Ht, app_nil_r, Nat.add_0_r.
Qed.

Lemma tick_stamps metrics pools tr0 tr o :
  all_stamped metrics pools tr0 → ticks tr = 1%nat →
  (if metrics then beats tr `prefix_of` pools ∧ (o = Some () → beats tr = pools) else beats tr = []) →
  stamped metrics pools (tr0 ++ tr) ∧ (o = Some () → all_stamped metrics pools (tr0 ++ tr)).
Proof.
  unfold all_stamped, stamped. intros H0 Ht Hb. rewrite beats_app, ticks_app, Ht, H0.
  destruct metrics; [|by rewrite Hb].
  destruct Hb as [Hp Hall]. split.
  - exists (concat (replicate (ticks tr0) pools)), (beats tr). split_and!; [done|done|].
    right. exists (ticks tr0). split; [lia|done].
  - intros Ho. rewrite (Hall Ho), Nat.add_1_r, replicate_S_end, concat_app. simpl. by rewrite app_nil_r.
Qed.

(** What holds of every trace of the wrapper, and after whole turns of it. *)
Definition beating {A} metrics pools (t : io E A) (tr : list BeatObs) (o : option A) : Prop :=
  traces log t (inner tr) o ∧ stamped metrics pools tr ∧ (o ≠ None → all_stamped metrics pools tr).

Definition turned {A} metrics pools (t fut : io E A) (tr : list BeatObs) : Prop :=
  rest_of t tr fut ∧ all_stamped metrics pools tr.

Lemma turned_beating {A} metrics pools (t fut : io E A) tr :
  turned metrics pools t fut tr → beating metrics pools t tr None.
Proof. intros [Hr Ha]. split_and!; [by eapply rest_so_far|by apply all_stamped_stamped|done]. Qed.

(** A call and its answer, or no answer yet. *)
Lemma call_runs {X} (e : BeatE X) (P : list BeatObs → option X → Prop) :
  P [] None → (∀ x, P [beat_log X e x] None ∧ P [beat_log X e x] (Some x)) →
  always beat_log P (perform e).
Proof. apply always_perform. Qed.

Lemma tick_branch {A} metrics pools (t fut : io E A) tr0 :
  turned metrics pools t fut tr0 →
  always beat_log (λ tr o, beating metrics pools t (tr0 ++ OSelect true :: tr) None ∧
    (o = Some () → turned metrics pools t fut (tr0 ++ OSelect true :: tr)))
    (if metrics then beat_all pools else Ret ()).
Proof.
  intros [Hrest Hall]. apply (always_weaken _ (λ tr o, inner tr = [] ∧ ticks tr = 0%nat ∧
    (if metrics then beats tr `prefix_of` pools ∧ (o = Some () → beats tr = pools) else beats tr = []))).
  { destruct metrics; [|by apply always_ret]. eapply always_weaken; [apply beat_all_beats|].
    intros tr o (? & ? & ? & ?). by split_and!. }
  intros tr o (Hi & Ht & Hb).
  destruct (tick_stamps metrics pools tr0 (OSelect true :: tr) o) as [Hs Ha];
    [done|by rewrite ticks_select, Ht|exact Hb|].
  assert (rest_of t (tr0 ++ OSelect true :: tr) fut) as Hr.
  { intros tr2 o2 H2'. rewrite inner_app. simpl. rewrite Hi, app_nil_r. by apply Hrest. }
  split; [split_and!; [by eapply rest_so_far|done|done]|]. intros Ho. split; [done|by apply Ha].
Qed.

(** The future makes one more step. *)
Lemma turned_step {A} metrics pools (t fut fut' : io E A) tr0 tr :
  turned metrics pools t fut tr0 → beats tr = [] → ticks tr = 0%nat →
  (∀ tr2 o, traces log fut' tr2 o → traces log fut (inner tr ++ tr2) o) →
  turned metrics pools t fut' (tr0 ++ tr).
Proof.
  intros [Hrest Hall] Hb Ht Hf. split; [|by apply unstamped].
  intros tr2 o H2'. rewrite inner_app, <- app_assoc. by apply Hrest, Hf.
Qed.

Lemma step_branch {A} metrics pools (t fut : io E A) tr0 :
  turned metrics pools t fut (tr0 ++ [OSelect false]) →
  always beat_log (λ tr o,
    match o with
    | Some (inr r) => beating metrics pools t ((tr0 ++ [OSelect false]) ++ tr) (Some r)
    | Some (inl fut') => turned metrics pools t fut' ((tr0 ++ [OSelect false]) ++ tr)
    | None => True
    end ∧ beating metrics pools t ((tr0 ++ [OSelect false]) ++ tr) None)
    (match observe fut with
     | RetF output => Ret (inr output)
     | TauF fut => Ret (inl fut)
     | VisF e k => await x := perform (BInner _ e) in Ret (inl (k x))
     end).
Proof.
  set (tr1 := tr0 ++ [OSelect false]). intros Hturned.
  pose proof (turned_beating _ _ _ _ _ Hturned) as Hnow.
  destruct (observe fut) as [r|u|X e k] eqn:Hf.
  - apply always_ret; rewrite app_nil_r; [done|]. split; [|done]. destruct Hturned as [Hrest Ha].
    split_and!; [|by apply all_stamped_stamped|done].
    rewrite <- (app_nil_r (inner tr1)). by apply Hrest, traces_ret.
  - apply always_ret; (split; [done|by rewrite app_nil_r]) || rewrite app_nil_r. split; [|done].
    rewrite <- (app_nil_r tr1). apply (turned_step _ _ _ fut); [done..|].
    intros tr2 o2 H2'. by apply (traces_tau log fut u).
  - assert (∀ x, turned metrics pools t (k x) (tr1 ++ [OInner (log _ e x)])) as Hx.
    { intros x. apply (turned_step _ _ _ fut); [done..|]. intros tr2 o2 H2'.
      by apply (traces_vis log fut e k). }
    eapply (always_bind _ (λ tr o, tr = [] ∧ o = None ∨
      ∃ x, tr = [OInner (log _ e x)] ∧ (o = None ∨ o = Some x))).
    + apply call_runs; [by left|]. intros x. split; right; exists x; (split; [done|]); [by left|by right].
    + intros tr [[-> _]|(x & -> & _)]; (split; [done|]); [by rewrite app_nil_r|].
      by eapply turned_beating.
    + intros x tr [[_ [=]]|(x' & -> & [[=]|[= <-]])].
      apply always_ret; rewrite app_nil_r; split; try done; by eapply turned_beating.
Qed.

Lemma heartbeat_while_beats {A} metrics pools (t : io E A) :
  always beat_log (beating metrics pools t) (heartbeat_while metrics pools t).
Proof.
  apply (always_iter _ (λ fut tr0, turned metrics pools t fut tr0)).
  { split; [by intros tr o|]. unfold all_stamped. by destruct metrics. }
  intros fut tr0 Hturned. pose proof (turned_beating _ _ _ _ _ Hturned) as Hnow.
  assert (turned metrics pools t fut (tr0 ++ [OSelect false])) as Hfalse
    by by apply (turned_step _ _ _ fut).
  unfold beat_body. eapply (always_bind _ (λ tr o, tr = [] ∧ o = None ∨
    ∃ b, tr = [OSelect b] ∧ (o = None ∨ o = Some b))).
  - apply call_runs; [by left|]. intros b. split; right; exists b; (split; [done|]); [by left|by right].
  - intros tr [[-> _]|([] & -> & _)]; [by rewrite app_nil_r| |by eapply turned_beating].
    by apply (tick_branch _ _ _ _ _ Hturned 0%nat [] None (runs_start _ _ _)).
  - intros b tr [[_ [=]]|(b' & -> & [[=]|[= <-]])]. destruct b.
    + eapply always_bind; [apply (tick_branch _ _ _ _ _ Hturned)|by intros tr [Hb _]|].
      intros [] tr [Hb Ht]. specialize (Ht eq_refl).
      apply always_ret; rewrite app_nil_r; [exact Hb|by split].
    + eapply always_weaken; [apply (step_branch _ _ _ _ _ Hfalse)|].
      intros tr [[fut'|r]|] [Ho Hb]; rewrite <- ?app_assoc in Ho; rewrite <- app_assoc in Hb;
        [exact (conj Ho Hb)|exact (conj Ho Hb)|exact Hb].
Qed.
End wrapper.

Arguments BeatE E X : clear implicits.

(** ** The poller, stamped *)

Section poller.
Context `{ScDecode} {StoreError : Type} (pool : string) (config : PollerConfig).
Context (metrics notifier : bool).

Abbreviation calls := (PollE (StoreError:=StoreError)).
Abbreviation log := (noted (StoreError:=StoreError)).

(** A part of the poller outside of any wait. *)
Definition plain {A : Type} (t : io calls A) : io (BeatE calls) A := translate BInner t.

(** [LedgerPoller::await_ack]. *)
Definition await_ack : io (BeatE calls) bool := heartbeat_while metrics [pool] (perform AwaitAck).

(** [LedgerPoller::run], with its passes stamped. The wait for an
    acknowledgement is stamped within its pass, which is. *)
Definition beating_run : io (BeatE calls) (result (LedgerError (StoreError:=StoreError)) ()) :=
  ITree.iter (λ '(gap_reported_at, backoff, failures),
    await _ := plain (if metrics then perform (MetricHeartbeat pool) else Ret ()) in
    await stopping := plain (perform StopFlag) in
    if (stopping : bool) then Ret (inr (Ok ()))
    else
      await (gap_reported_at, answer) :=
        heartbeat_while metrics [pool] (poll_once pool config metrics gap_reported_at) in
      await next := plain (after_pass pool config notifier backoff failures answer) in
      match next with
      | None => Ret (inr (Ok ()))
      | Some (wait, backoff, failures) =>
          await ended := plain (perform (Pause wait)) in
          Ret (match ended with
               | Elapsed => inl (gap_reported_at, backoff, failures)
               | Changed ok flag =>
                   if negb ok || flag then inr (Ok ())
                   else inl (gap_reported_at, backoff, failures)
               end)
      end) (None, pc_min_backoff config, 0).

Lemma erases_plain {A} (t : io calls A) : erases log (plain t) t.
Proof.
  intros n tr o Hr.
  apply (runs_translate log (beat_log log) BInner OInner (λ _ _ _, eq_refl)) in Hr as (tr1 & -> & Hr).
  assert (inner (map OInner tr1) = tr1) as ->; [|by exists n].
  clear Hr. induction tr1 as [|o1 tr1 IH]; [done|].
  change (o1 :: inner (map OInner tr1) = o1 :: tr1). by rewrite IH.
Qed.

Lemma erases_wait {A} (t : io calls A) : erases log (heartbeat_while metrics [pool] t) t.
Proof. eapply always_weaken; [apply heartbeat_while_beats|]. by intros tr o [Ht _]. Qed.

(** The stamps change nothing. Whatever the poller with its waits wrapped does
    is, without the stamps, something [Poller.run] does: the properties of the
    one are properties of the other. *)
Theorem beating_run_erases : erases log beating_run (run pool config metrics notifier).
Proof.
  apply erases_iter. intros [[gap backoff] failures].
  apply erases_bind; [apply erases_plain|]. intros _.
  apply erases_bind; [apply erases_plain|]. intros []; [apply erases_ret|].
  apply erases_bind; [apply erases_wait|]. intros [gap' answer].
  apply erases_bind; [apply erases_plain|]. intros [[[wait backoff'] failures']|]; [|apply erases_ret].
  apply erases_bind; [apply erases_plain|]. intros ended. apply erases_ret.
Qed.

(** A wait is stamped while it lasts, answers what it waits for, and its
    ticker's period is one a ticker takes. *)
Theorem await_ack_answers (interval : Z) :
  0 < heartbeat_period interval ∧
  always (beat_log log) (beating log metrics [pool] (perform AwaitAck)) await_ack.
Proof. split; [unfold heartbeat_period; lia|apply heartbeat_while_beats]. Qed.
End poller.
