(* ===== verification/Tracker.v ===== *)
(** * The event tracker ([src/tracker.rs])

    What the chain says, applied to what the bot stores: an event's auction
    bookkeeping, the re-reading of accounts, and the seeding of a pool. The
    programs call the chain, the store and the seed sources. *)

From Stdlib Require Import Ascii.
From stdpp Require Import pretty.
From S2P Require Import Prelude Fixed Reserve Position Auction Encode Chain Operations Decode.
From S2P Require Import Events Store Poller Io Rpc Snapshot.
Open Scope Z_scope.

(** ** Data *)

Record RefreshOutcome : Type := mkRefreshOutcome { rf_tracked : Z; rf_removed : Z }.

Record SeedOutcome : Type := mkSeedOutcome {
  so_refresh : RefreshOutcome;
  so_failed_sources : Z;
  so_stopped_early : bool;
}.

(** [SeedOutcome::is_complete]. *)
Definition is_complete (self : SeedOutcome) : bool :=
  (so_failed_sources self =? 0) && negb (so_stopped_early self).

(** [render_decimal7], for the non-negative values it is given. *)
Definition pad7 (text : string) : string :=
  String.append (String.concat "" (replicate (7 - String.length text) "0")) text.

(** [trim_end_matches] of a character. *)
Fixpoint trim_end (c : Ascii.ascii) (text : string) : string :=
  match text with
  | EmptyString => EmptyString
  | String d rest =>
      match trim_end c rest with
      | EmptyString => if Ascii.eqb d c then EmptyString else String d EmptyString
      | trimmed => String d trimmed
      end
  end.

Definition render_decimal7 (value : Z) : string :=
  let whole := Z.quot value SCALAR_7 in
  let fraction := Z.rem value SCALAR_7 in
  if fraction =? 0 then pretty whole
  else String.concat "" [pretty whole; "."; trim_end "0" (pad7 (pretty fraction))].

(** [snippet]: at most [BODY_SNIPPET] bytes, ended on a character boundary. *)
Definition BODY_SNIPPET : nat := 200.

Definition is_char_boundary (text : string) (index : nat) : bool :=
  match index with
  | O => true
  | _ =>
      if (index =? String.length text)%nat then true
      else
        match String.get index text with
        | Some c =>
            let b := Z.of_nat (Ascii.nat_of_ascii c) in (b <? 128) || (192 <=? b)
        | None => false
        end
  end.

Fixpoint boundary_at_most (text : string) (end_ : nat) : nat :=
  if is_char_boundary text end_ then end_
  else match end_ with O => O | S end_ => boundary_at_most text end_ end.

Definition snippet (text : string) : string :=
  if (String.length text <=? BODY_SNIPPET)%nat then text
  else String.concat "" [String.substring 0 (boundary_at_most text BODY_SNIPPET) text; "... (";
                         pretty (Z.of_nat (String.length text)); " bytes total)"].

(** ** Seed sources *)

Definition SEED_PAGE_LIMIT : Z := 500.
Definition SEED_PAGE_CAP : Z := 200.
Definition SEED_PAGE_PAUSE : Z := 200000000.

Record AnalyticsPage : Type := mkAnalyticsPage {
  ap_positions : list string;  (* the [accountId] of each *)
  ap_next_cursor : option string;
}.

Record AnalyticsSeed : Type := mkAnalyticsSeed {
  as_base_url : string;
  as_health_factor_max : string;
}.

(** [AnalyticsSeed::new], the client aside. *)
Definition analytics_new (base_url : string) (health_factor_max : Z) : AnalyticsSeed :=
  mkAnalyticsSeed (trim_end "/" base_url) (render_decimal7 health_factor_max).

(** [FileSeed]: the parsed file. *)
Record FileSeed : Type := mkFileSeed { fs_accounts : gmap string (list string) }.

Inductive SeedSource : Type :=
| Analytics (seed : AnalyticsSeed)
| FileSource (seed : FileSeed).

Section tracker.
Context `{ScDecode} `{Json}.
(** [reqwest]'s error, and [serde_json]'s reading of a page. *)
Context {HttpError : Type} (parse_page : string → result string AnalyticsPage).

Inductive SeedError : Type :=
| SeedHttp (e : HttpError)
| SeedStatus (status : Z)
| SeedShape (text : string)
| SeedFile (text : string).

Inductive TrackerError : Type :=
| TrChain (e : ChainError)
| TrStore (e : StoreError)
| TrMath (e : MathError).

(** ** The calls *)

Variant TrackE : Type → Type :=
| TRead (X : Type) (e : ReadE X) : TrackE X
| TStore (A : Type) (q : StoreE A) : TrackE (result StoreError A)
| THttpGet (url : string) (query : list (string * string))
  : TrackE (result HttpError (Z * result HttpError string))
| TSleep (pause : Z) : TrackE ()
| TShutdown : TrackE bool.

Inductive Tracked : Type :=
| DRead (r : Read)
| DStore (A : Type) (q : StoreE A) (r : result StoreError A)
| DHttpGet (url : string) (query : list (string * string))
    (r : result HttpError (Z * result HttpError string))
| DSleep (pause : Z)
| DShutdown (b : bool).

Definition tracked (X : Type) (e : TrackE X) : X → Tracked :=
  match e in TrackE X return X → Tracked with
  | TRead _ e => λ x, DRead (read _ e x)
  | TStore _ q => DStore _ q
  | THttpGet url query => DHttpGet url query
  | TSleep pause => λ _, DSleep pause
  | TShutdown => DShutdown
  end.

Abbreviation prog A := (io TrackE (result TrackerError A)).

(** A read of the chain, and a call of the store, with the error [?] makes. *)
Definition chain_read {A : Type} (m : io ReadE (result ChainError A)) : prog A :=
  await r := translate TRead m in Ret (map_err TrChain r).
Definition store_call {A : Type} (q : StoreE A) : prog A :=
  await r := perform (TStore A q) in Ret (map_err TrStore r).

(** ** Applying an event *)

(** The row of an auction as the chain holds it: no fill plan of its own. *)
Definition auction_row (pool user : string) (auction_type : AuctionType) (auction : AuctionData)
    (ledger : Z) : TrackedAuction :=
  mkTrackedAuction pool user auction_type (block auction) None None (bid auction) (lot auction)
    ledger.

(** [Tracker::apply]. *)
Definition apply (pool : string) (ledger : Z) (event : PoolEvent) : prog (list string) :=
  await? _ :=
    match event with
    | EvNewAuction auction_type user _ auction =>
        store_call (QUpsertAuction (auction_row pool user auction_type auction ledger))
    | EvFillAuction auction_type user _ fill_percent _ =>
        if 100 <=? fill_percent then
          await? _ := store_call (QDeleteAuction pool user auction_type) in Ret (Ok ())
        else
          await? found := chain_read (read_auction pool user auction_type) in
          match found with
          | Some (at_, remaining) =>
              store_call (QUpsertAuction (auction_row pool user auction_type remaining at_))
          | None => await? _ := store_call (QDeleteAuction pool user auction_type) in Ret (Ok ())
          end
    | EvDeleteAuction auction_type user =>
        await? _ := store_call (QDeleteAuction pool user auction_type) in Ret (Ok ())
    | _ => Ret (Ok ())
    end in
  Ret (Ok (affected_accounts event)).

(** ** Re-reading accounts *)

(** The body of [refresh]'s loop up to its writes: the row of an account, or
    none when it owes nothing. *)
Definition health_of (snapshot : PoolSnapshot) (valued_at : Z) (account : string)
  : result TrackerError (option Z) :=
  let owes := match ps_positions snapshot !! account with
              | Some positions => negb (bool_decide (liabilities positions = ∅))
              | None => false
              end in
  if owes then
    let? data := map_err TrChain (position_data snapshot account valued_at) in
    match data with
    | Some data => map_err TrMath (health_factor data)
    | None => Ok None
    end
  else Ok None.

Definition revalue (pool : string) (snapshot : PoolSnapshot) (valued_at : Z) (account : string)
  : result TrackerError (option TrackedUser) :=
  let? health := health_of snapshot valued_at account in
  match ps_positions snapshot !! account, health with
  | Some positions, Some health =>
      let? health_factor := map_err TrMath
        (mul_floor health SCALAR_7 (op_scalar (ps_prices snapshot))) in
      Ok (Some (mkTrackedUser pool account health_factor (collateral positions)
            (liabilities positions) (ps_ledger snapshot) None))
  | _, _ => Ok None
  end.

Fixpoint refresh_each (pool : string) (snapshot : PoolSnapshot) (valued_at : Z)
    (accounts : list string) (outcome : RefreshOutcome) : prog RefreshOutcome :=
  match accounts with
  | [] => Ret (Ok outcome)
  | account :: accounts =>
      await? row := Ret (revalue pool snapshot valued_at account) in
      match row with
      | Some row =>
          await? _ := store_call (QUpsertUser row) in
          refresh_each pool snapshot valued_at accounts
            (mkRefreshOutcome (rf_tracked outcome + 1) (rf_removed outcome))
      | None =>
          await? removed := store_call (QDeleteUser pool account) in
          refresh_each pool snapshot valued_at accounts
            (if removed : bool
             then mkRefreshOutcome (rf_tracked outcome) (rf_removed outcome + 1)
             else outcome)
      end
  end.

(** [Tracker::refresh]. *)
Definition refresh (pool : string) (accounts : list string) (tick : LedgerTick)
  : prog RefreshOutcome :=
  match accounts with
  | [] => Ret (Ok (mkRefreshOutcome 0 0))
  | _ =>
      await? found := chain_read (snapshot pool accounts) in
      refresh_each pool found (valued_at found (lt_close_time tick)) accounts
        (mkRefreshOutcome 0 0)
  end.

(** [Tracker::refresh_stale]. *)
Definition refresh_stale (pool : string) (tick : LedgerTick) (updated_before batch : Z)
  : prog RefreshOutcome :=
  await? stale := store_call (QUsersStale pool updated_before batch) in
  refresh pool (map tu_account stale) tick.

(** ** Seeding *)

(** One turn of [AnalyticsSeed::accounts]'s loop: the accounts so far, the
    cursor and the pages read. *)
Definition page_query (seed : AnalyticsSeed) (pool : string) (cursor : option string)
  : list (string * string) :=
  [("healthFactorMax", as_health_factor_max seed); ("poolId", pool);
   ("limit", pretty SEED_PAGE_LIMIT)] ++
  match cursor with Some cursor => [("cursor", cursor)] | None => [] end.

Definition positions_url (seed : AnalyticsSeed) : string :=
  String.append (as_base_url seed) "/v1/analytics/state/positions".

Definition read_page (status_and_text : Z * result HttpError string)
  : result SeedError AnalyticsPage :=
  let '(status, text) := status_and_text in
  if negb ((200 <=? status) && (status <? 300)) then Err (SeedStatus status)
  else
    let? text := map_err SeedHttp text in
    match parse_page text with
    | Ok page => Ok page
    | Err error => Err (SeedShape (snippet (String.concat "" [error; ": "; text])))
    end.

Definition page_turn (seed : AnalyticsSeed) (pool : string)
    (state : list string * option string * Z)
  : io TrackE ((list string * option string * Z) + result SeedError (list string)) :=
  let '(accounts, cursor, pages) := state in
  let pages := pages + 1 in
  await response := perform (THttpGet (positions_url seed) (page_query seed pool cursor)) in
  match (let? response := map_err SeedHttp response in read_page response) with
  | Err e => Ret (inr (Err e))
  | Ok body =>
      let accounts := accounts ++ ap_positions body in
      match ap_next_cursor body with
      | None => Ret (inr (Ok accounts))
      | Some next =>
          if SEED_PAGE_CAP <=? pages then Ret (inr (Ok accounts))
          else
            await _ := perform (TSleep SEED_PAGE_PAUSE) in
            Ret (inl (accounts, Some next, pages))
      end
  end.

(** [AnalyticsSeed::accounts], [FileSeed::accounts], [SeedSource::accounts]. *)
Definition analytics_accounts (seed : AnalyticsSeed) (pool : string)
  : io TrackE (result SeedError (list string)) :=
  ITree.iter (page_turn seed pool) ([], None, 0).

Definition file_accounts (seed : FileSeed) (pool : string) : list string :=
  default [] (fs_accounts seed !! pool).

Definition source_accounts (self : SeedSource) (pool : string)
  : io TrackE (result SeedError (list string)) :=
  match self with
  | Analytics seed => analytics_accounts seed pool
  | FileSource seed => Ret (Ok (file_accounts seed pool))
  end.

(** The loop over the sources in [Tracker::seed]. *)
Fixpoint collect_sources (pool : string) (sources : list SeedSource) (accounts : gset string)
    (failed : Z) : io TrackE (gset string * Z) :=
  match sources with
  | [] => Ret (accounts, failed)
  | source :: sources =>
      await found := source_accounts source pool in
      match found with
      | Ok found => collect_sources pool sources (accounts ∪ list_to_set found) failed
      | Err _ => collect_sources pool sources accounts (failed + 1)
      end
  end.

Fixpoint seed_chunks (pool : string) (tick : LedgerTick) (batches : list (list string))
    (outcome : SeedOutcome) : prog SeedOutcome :=
  match batches with
  | [] => Ret (Ok outcome)
  | chunk :: batches =>
      await stop := perform TShutdown in
      if stop : bool
      then Ret (Ok (mkSeedOutcome (so_refresh outcome) (so_failed_sources outcome) true))
      else
        await? result := refresh pool chunk tick in
        seed_chunks pool tick batches
          (mkSeedOutcome
             (mkRefreshOutcome (rf_tracked (so_refresh outcome) + rf_tracked result)
                (rf_removed (so_refresh outcome) + rf_removed result))
             (so_failed_sources outcome) (so_stopped_early outcome))
  end.

(** [accounts.into_iter().collect()] of the [BTreeSet]: in order. *)
Definition set_iter (s : gset string) : list string := merge_sort string_le (elements s).

(** [Tracker::seed]. *)
Definition seed (pool : string) (sources : list SeedSource) (tick : LedgerTick) (batch : Z)
  : prog SeedOutcome :=
  await (accounts, failed) := collect_sources pool sources ∅ 0 in
  seed_chunks pool tick (chunks (Z.to_nat (Z.max batch 1)) (set_iter accounts))
    (mkSeedOutcome (mkRefreshOutcome 0 0) failed false).
End tracker.
