(* ===== verification/TrackerContract.v ===== *)
(** * What the tracker promises ([src/tracker.rs])

    A world of the chain's answers and the tables, in which other tasks flag
    users and plan fills meanwhile. In it, applying an event and re-reading
    accounts leave the tables as the chain has it, replays change nothing, and
    repeated stale passes reach every row. *)

From stdpp Require Import pretty sorting.
From S2P Require Import Prelude Fixed Reserve Position Auction Encode Chain Operations Decode.
From S2P Require Import Events Store Rows Poller Io Rpc Snapshot Tracker.
Open Scope Z_scope.

Section world.
Context `{ScDecode} `{Json} (debug_str : string → string) {HttpError : Type}.

(** ** The world *)

Abbreviation served := (Rows.served debug_str).

(** The tracker's own part of the tables: all of [users] but the recheck flag,
    all of [auctions] but the fill plan. *)
Definition user_columns (row : UserRow) : Z * Value * Value * Z :=
  (ur_health_factor row, ur_collateral row, ur_liabilities row, ur_updated_ledger row).
Definition auction_columns (row : AuctionRow) : Z * Value * Value * Z :=
  (ar_start_ledger row, ar_bid row, ar_lot row, ar_updated_ledger row).

Definition user_view (d : Db) : gmap (string * string) (Z * Value * Value * Z) :=
  user_columns <$> db_users d.
Definition auction_view (d : Db) : gmap (string * string * Z) (Z * Value * Value * Z) :=
  auction_columns <$> db_auctions d.

(** What other tasks change is not the tracker's. *)
Definition alike (d d' : Db) : Prop :=
  user_view d = user_view d' ∧ auction_view d = auction_view d'.

#[export] Instance alike_equivalence : Equivalence alike.
Proof.
  split; [by intros d|by intros d d' [? ?]|].
  intros d1 d2 d3 [Ha Hb] [Hc Hd]. split; by etrans.
Qed.
#[export] Instance user_view_proper : Proper (alike ==> eq) user_view.
Proof. by intros d d' [? ?]. Qed.
#[export] Instance auction_view_proper : Proper (alike ==> eq) auction_view.
Proof. by intros d d' [? ?]. Qed.

Definition World : Type := (list Read * Db)%type.

Definition world_step (w : World) (o : Tracked (HttpError:=HttpError)) (w' : World) : Prop :=
  match o with
  | DRead r => w'.1 = w.1 ++ [r] ∧ alike w.2 w'.2
  | DStore _ q r => w'.1 = w.1 ∧ ∃ d, alike w.2 d ∧ served q d r w'.2
  | _ => w'.1 = w.1 ∧ alike w.2 w'.2
  end.

Abbreviation holds_under := (under (tracked (HttpError:=HttpError)) world_step).

(** ** Lemmas: reads and calls *)

Lemma reads_steps w tr w' :
  steps world_step w (map DRead tr) w' → w'.1 = w.1 ++ tr ∧ alike w.2 w'.2.
Proof.
  revert w. induction tr as [|r tr IH]; intros w; simpl.
  - intros ->%steps_nil_inv. by rewrite app_nil_r.
  - intros (w1 & [Hh1 Ha] & Hs)%steps_cons_inv. destruct (IH _ Hs) as [Hh2 Hb].
    rewrite Hh2, Hh1, <- app_assoc. split; [done|by etrans].
Qed.

Lemma chain_read_under {A} (m : io ReadE (result ChainError A)) P w (J : World → Prop)
    (Q : result TrackerError A → World → Prop) :
  returns read m P →
  (∀ tr d, alike w.2 d → J (w.1 ++ tr, d)) →
  (∀ tr r d, alike w.2 d → P tr r → Q (map_err TrChain r) (w.1 ++ tr, d)) →
  holds_under w (chain_read m) J Q.
Proof.
  intros Hm HJ HQ. unfold chain_read.
  eapply (under_bind _ _ _ _ _ _ (λ r w', Q (map_err TrChain r) w'));
    [eapply (under_translate read tracked TRead DRead); [done|exact Hm|..]|].
  - intros tr [h d] [Hh Hd]%reads_steps. simpl in *. subst. by apply HJ.
  - intros tr r [h d] [Hh Hd]%reads_steps HP. simpl in *. subst. by apply HQ.
  - intros r w' HJ' HQ'. by apply under_ret.
Qed.

Lemma store_call_under {A} (q : StoreE A) w (J : World → Prop)
    (Q : result TrackerError A → World → Prop) :
  J w →
  (∀ d r d', alike w.2 d → served q d r d' → J (w.1, d') ∧ Q (map_err TrStore r) (w.1, d')) →
  holds_under w (store_call q) J Q.
Proof.
  intros HJ Hq. unfold store_call.
  eapply under_bind; [apply (under_perform _ _ _ _ _ (λ r w', Q (map_err TrStore r) w')); [done|]|].
  - intros r [h d'] [Hh (d & Ha & Hs)]. simpl in *. subst. by eapply Hq.
  - intros r w' HJ' HQ'. by apply under_ret.
Qed.

(** ** Re-reading accounts *)

Abbreviation Rows := (gmap (string * string) (Z * Value * Value * Z)).

Section refresh.
Context (pool : string) (s : PoolSnapshot) (valued_at : Z).

Definition columns_of (u : TrackedUser) : Z * Value * Value * Z :=
  (tu_health_factor u, index_amounts_to_json (tu_collateral u),
   index_amounts_to_json (tu_liabilities u), tu_updated_ledger u).

(** The row the snapshot gives an account, if any. *)
Definition row_of (account : string) : option (Z * Value * Value * Z) :=
  match revalue pool s valued_at account with
  | Ok (Some u) => Some (columns_of u)
  | _ => None
  end.

(** Every account's row is the snapshot's, and every other row what it was. *)
Definition described (accounts : list string) (before after : Rows) : Prop :=
  ∀ k, after !! k =
    if bool_decide (k.1 = pool ∧ k.2 ∈ accounts) then row_of k.2 else before !! k.

(** Every row is what it was or, where the account could be valued, the
    snapshot's. *)
Definition touched (accounts : list string) (before after : Rows) : Prop :=
  ∀ k, after !! k = before !! k ∨
    (k.1 = pool ∧ k.2 ∈ accounts ∧ is_ok (revalue pool s valued_at k.2) = true ∧
     after !! k = row_of k.2).

Definition all_valued (accounts : list string) : Prop :=
  ∀ a, a ∈ accounts → is_ok (revalue pool s valued_at a) = true.

Lemma described_nil v : described [] v v.
Proof. intros k. rewrite bool_decide_eq_false_2; [done|]. set_solver. Qed.

Lemma described_touched accounts more v0 v :
  described accounts v0 v → all_valued accounts → touched (accounts ++ more) v0 v.
Proof.
  intros Hd Hok k. rewrite (Hd k). case_bool_decide as Hk; [right|by left].
  destruct Hk. split; [done|]. split; [set_solver|]. split; [by apply Hok|done].
Qed.

Lemma described_idemp accounts v0 v1 v2 :
  described accounts v0 v1 → described accounts v1 v2 → v2 = v1.
Proof.
  intros Ha Hb. apply map_eq. intros k. rewrite (Hb k), (Ha k). by case_bool_decide.
Qed.

Lemma described_snoc accounts a v0 v v' :
  described accounts v0 v →
  (∀ k, k ≠ (pool, a) → v' !! k = v !! k) → v' !! (pool, a) = row_of a →
  described (accounts ++ [a]) v0 v'.
Proof.
  intros Hd Hne Heq k. destruct (decide (k = (pool, a))) as [->|Hk].
  - rewrite Heq. simpl. rewrite bool_decide_eq_true_2; [done|]. set_solver.
  - rewrite Hne, (Hd k) by done. destruct k as [p b]. simpl.
    rewrite (bool_decide_ext (p = pool ∧ b ∈ accounts ++ [a]) (p = pool ∧ b ∈ accounts)); [done|].
    rewrite elem_of_app, list_elem_of_singleton. naive_solver.
Qed.

Lemma revalue_key account u :
  revalue pool s valued_at account = Ok (Some u) → key_of u = (pool, account).
Proof.
  unfold revalue. intros Hr. rust_inv. destruct (ps_positions s !! account); [|by destruct x].
  destruct x; [|done]. rust_inv. by subst.
Qed.

Lemma row_of_some account u :
  revalue pool s valued_at account = Ok (Some u) → row_of account = Some (columns_of u).
Proof. unfold row_of. by intros ->. Qed.
Lemma row_of_none account :
  revalue pool s valued_at account = Ok None → row_of account = None.
Proof. unfold row_of. by intros ->. Qed.
End refresh.

(** What the store's writes do to the tracker's part of the tables. *)
Lemma served_upsert_user u d r d' :
  served (QUpsertUser u) d r d' →
  auction_view d' = auction_view d ∧
  (user_view d' = <[key_of u := columns_of u]> (user_view d) ∨
   (is_ok r = false ∧ user_view d' = user_view d)).
Proof.
  assert (user_view (upsert_user u d).1 = <[key_of u := columns_of u]> (user_view d)) as Hup
    by (unfold user_view; simpl; by rewrite fmap_insert).
  destruct r as [a|e]; simpl.
  - intros (ties & _ & Hrun). simpl in Hrun. injection Hrun as <- _. auto.
  - intros [-> |(ties & _ & ->)]; auto.
Qed.

Lemma served_delete_user p a d r d' :
  served (QDeleteUser p a) d r d' →
  auction_view d' = auction_view d ∧
  (user_view d' = delete (p, a) (user_view d) ∨
   (is_ok r = false ∧ user_view d' = user_view d)).
Proof.
  assert (user_view (delete_user p a d).1 = delete (p, a) (user_view d)) as Hdel
    by (unfold user_view; simpl; by rewrite fmap_delete).
  destruct r as [b|e]; simpl.
  - intros (ties & _ & Hrun). simpl in Hrun. injection Hrun as <- _. auto.
  - intros [-> |(ties & _ & ->)]; auto.
Qed.

(** One account's row, written or deleted. *)
Lemma described_written pool s at_ accounts a u v0 v :
  described pool s at_ accounts v0 v → revalue pool s at_ a = Ok (Some u) →
  described pool s at_ (accounts ++ [a]) v0 (<[key_of u := columns_of u]> v).
Proof.
  intros Hd Hr. rewrite (revalue_key _ _ _ _ _ Hr).
  eapply described_snoc; [exact Hd|intros k Hk; by rewrite lookup_insert_ne|].
  by rewrite lookup_insert_eq, (row_of_some _ _ _ _ _ Hr).
Qed.

Lemma described_deleted pool s at_ accounts a v0 v :
  described pool s at_ accounts v0 v → revalue pool s at_ a = Ok None →
  described pool s at_ (accounts ++ [a]) v0 (delete (pool, a) v).
Proof.
  intros Hd Hr.
  eapply described_snoc; [exact Hd|intros k Hk; by rewrite lookup_delete_ne|].
  by rewrite lookup_delete_eq, (row_of_none _ _ _ _ Hr).
Qed.

Definition rows_tracked (pool : string) (s : PoolSnapshot) (at_ : Z) (accounts : list string) : Z :=
  Z.of_nat (length (omap (row_of pool s at_) accounts)).

Lemma rows_tracked_cons pool s at_ a todo :
  rows_tracked pool s at_ (a :: todo) =
  match row_of pool s at_ a with Some _ => 1 | None => 0 end + rows_tracked pool s at_ todo.
Proof.
  unfold rows_tracked. set (f := row_of pool s at_).
  change (omap f (a :: todo)) with (match f a with Some y => y :: omap f todo | None => omap f todo end).
  destruct (f a); cbn [length]; lia.
Qed.

Lemma all_valued_snoc pool s at_ accounts a row :
  all_valued pool s at_ accounts → revalue pool s at_ a = Ok row →
  all_valued pool s at_ (accounts ++ [a]).
Proof.
  intros Hok Hr b [Hb|Hb]%elem_of_app; [by apply Hok|].
  apply list_elem_of_singleton in Hb as ->. by rewrite Hr.
Qed.

(** A call that does to the rows what [f] does, the row of [a] being next. *)
Lemma row_call_under {A} (q : StoreE A) (f : Rows → Rows) pool s at_ done todo a row w v0 av0 :
  (∀ d r d', served q d r d' → auction_view d' = auction_view d ∧
     (user_view d' = f (user_view d) ∨ (is_ok r = false ∧ user_view d' = user_view d))) →
  (∀ v, described pool s at_ done v0 v → described pool s at_ (done ++ [a]) v0 (f v)) →
  described pool s at_ done v0 (user_view w.2) → all_valued pool s at_ done →
  revalue pool s at_ a = Ok row → auction_view w.2 = av0 →
  holds_under w (store_call q)
    (λ w', w'.1 = w.1 ∧ auction_view w'.2 = av0 ∧
       touched pool s at_ (done ++ a :: todo) v0 (user_view w'.2))
    (λ r w', w'.1 = w.1 ∧ auction_view w'.2 = av0 ∧
       (is_ok r = true → described pool s at_ (done ++ [a]) v0 (user_view w'.2))).
Proof.
  intros Hq Hf Hd Hok Hr Hav. apply store_call_under.
  { split; [done|]. split; [done|]. by apply described_touched. }
  intros d r d' [Hu Ha] [Hav' Hs]%Hq. simpl. rewrite Hav', <- Ha. rewrite <- Hu in Hs.
  split; [split; [done|]; split; [done|]|split; [done|]; split; [done|]].
  - destruct Hs as [-> |[_ ->]]; [|by apply described_touched].
    rewrite (assoc_L (++) done [a] todo : done ++ a :: todo = _).
    apply described_touched; [by apply Hf|by eapply all_valued_snoc].
  - destruct r; [|done]. intros _. destruct Hs as [-> |[? _]]; [by apply Hf|done].
Qed.

Lemma refresh_each_under pool s at_ todo :
  ∀ done outcome (w : World) v0 av0,
  described pool s at_ done v0 (user_view w.2) → all_valued pool s at_ done →
  auction_view w.2 = av0 →
  holds_under w (refresh_each pool s at_ todo outcome)
    (λ w', w'.1 = w.1 ∧ auction_view w'.2 = av0 ∧
       touched pool s at_ (done ++ todo) v0 (user_view w'.2))
    (λ r w', match r with
      | Ok o => described pool s at_ (done ++ todo) v0 (user_view w'.2) ∧
          all_valued pool s at_ (done ++ todo) ∧
          rf_tracked o = rf_tracked outcome + rows_tracked pool s at_ todo
      | Err _ => True
      end).
Proof.
  induction todo as [|a todo IH]; intros done outcome w v0 av0 Hd Hok Hav.
  { simpl. rewrite app_nil_r. apply under_ret.
    - split; [done|]. split; [done|]. rewrite <- (app_nil_r done). by apply described_touched.
    - split; [done|]. split; [done|]. unfold rows_tracked. cbn. lia. }
  cbn [refresh_each]. apply under_try_ret.
  { split; [done|]. split; [done|]. by apply described_touched. }
  destruct (revalue pool s at_ a) as [row|e] eqn:Hr; [|done].
  assert (∀ o' w', w'.1 = w.1 → auction_view w'.2 = av0 →
    described pool s at_ (done ++ [a]) v0 (user_view w'.2) →
    rf_tracked o' = rf_tracked outcome + match row_of pool s at_ a with Some _ => 1 | None => 0 end →
    holds_under w' (refresh_each pool s at_ todo o')
      (λ w', w'.1 = w.1 ∧ auction_view w'.2 = av0 ∧
         touched pool s at_ (done ++ a :: todo) v0 (user_view w'.2))
      (λ r w', match r with
        | Ok o => described pool s at_ (done ++ a :: todo) v0 (user_view w'.2) ∧
            all_valued pool s at_ (done ++ a :: todo) ∧
            rf_tracked o = rf_tracked outcome + rows_tracked pool s at_ (a :: todo)
        | Err _ => True
        end)) as Hnext.
  { intros o' w' Hh Hav' Hd' Ho. rewrite <- Hh, rows_tracked_cons.
    eapply under_weaken; [apply (IH (done ++ [a]) o' w' v0 av0); [done|by eapply all_valued_snoc|done]|..].
    - intros w2. by rewrite <- app_assoc.
    - intros [o|e] w2 _; [|done]. rewrite <- app_assoc. intros (? & ? & ->). split; [done|].
      split; [done|]. lia. }
  destruct row as [u|].
  - eapply under_try; [eapply row_call_under; [apply served_upsert_user|..|done]; try done|done|].
    + intros v Hv. by apply described_written.
    + intros [] w' _ (Hh & Hav' & Hd'). apply Hnext; [done|done|by apply Hd'|].
      by rewrite (row_of_some _ _ _ _ _ Hr).
  - eapply under_try; [eapply row_call_under; [apply served_delete_user|..|done]; try done|done|].
    + intros v Hv. by apply described_deleted.
    + intros removed w' _ (Hh & Hav' & Hd'). apply Hnext; [done|done|by apply Hd'|].
      rewrite (row_of_none _ _ _ _ Hr). destruct removed; simpl; lia.
Qed.

(** The reads between two worlds answered [snapshot] with [s]. *)
Definition snapshot_taken (pool : string) (accounts : list string) (w w' : World)
    (s : PoolSnapshot) : Prop :=
  ∃ tr, w'.1 = w.1 ++ tr ∧ snapshot_result pool accounts tr (Ok s).

(** What a re-reading may leave at any point, and what it promises on its
    return. *)
Definition rereading (pool : string) (accounts : list string) (tick : LedgerTick)
    (w w' : World) : Prop :=
  auction_view w'.2 = auction_view w.2 ∧
  (user_view w'.2 = user_view w.2 ∨
   ∃ s, snapshot_taken pool accounts w w' s ∧
     touched pool s (valued_at s (lt_close_time tick)) accounts (user_view w.2) (user_view w'.2)).

Definition reread (pool : string) (accounts : list string) (tick : LedgerTick)
    (o : RefreshOutcome) (w w' : World) : Prop :=
  accounts = [] ∧ user_view w'.2 = user_view w.2 ∧ rf_tracked o = 0 ∨
  ∃ s, snapshot_taken pool accounts w w' s ∧
    all_valued pool s (valued_at s (lt_close_time tick)) accounts ∧
    described pool s (valued_at s (lt_close_time tick)) accounts
      (user_view w.2) (user_view w'.2) ∧
    rf_tracked o = rows_tracked pool s (valued_at s (lt_close_time tick)) accounts.

Lemma refresh_under pool accounts tick w :
  holds_under w (refresh pool accounts tick) (rereading pool accounts tick w)
    (λ r w', match r with Ok o => reread pool accounts tick o w w' | Err _ => True end).
Proof.
  unfold refresh. destruct accounts as [|a accounts].
  { apply under_ret; [split; [done|by left]|by left]. }
  generalize (a :: accounts). intros all.
  eapply (under_try _ _ _ _ _ _ (λ (r : result TrackerError PoolSnapshot) (w' : World), match r with
    | Ok s => snapshot_taken pool all w w' s ∧ alike w.2 w'.2 | Err _ => True end)).
  - eapply chain_read_under; [apply snapshot_returns|..].
    + intros tr d [Hu Ha]. split; [done|by left].
    + intros tr [s|e] d Ha Hr; [|done]. split; [by exists tr|done].
  - done.
  - intros s w' _ [Ht [Hu Ha]]. eapply under_weaken.
    + apply (refresh_each_under pool s _ all [] _ w'); [apply described_nil|by intros b ?%elem_of_nil|done].
    + intros w2 (Hh & Hav & Htd). split; [by rewrite Hav, Ha|right]. exists s.
      unfold snapshot_taken in *. rewrite Hh, Hu. by split.
    + intros [o|e] w2 (Hh & _ & _); [|done]. intros (Hd & Hok & Ho). right. exists s.
      unfold snapshot_taken in *. rewrite Hh, Hu. split; [done|]. split; [done|]. by split.
Qed.

(** ** Applying an event *)

Abbreviation AuctionRows := (gmap (string * string * Z) (Z * Value * Value * Z)).

(** What an event says of an auction's row: its key, and the row or its
    absence; [found] is what the chain has of a partially filled one. *)
Definition row_written (ledger : Z) (a : AuctionData) : Z * Value * Value * Z :=
  (block a, asset_amounts_to_json (bid a), asset_amounts_to_json (lot a), ledger).

Abbreviation Booking := (option (string * string * Z * option (Z * Value * Value * Z))).

Definition booking (pool : string) (ledger : Z) (event : PoolEvent)
    (found : option (Z * AuctionData)) : Booking :=
  match event with
  | EvNewAuction t user _ a => Some (Store.auction_key pool user t, Some (row_written ledger a))
  | EvFillAuction t user _ percent _ =>
      Some (Store.auction_key pool user t,
        if 100 <=? percent then None else (λ e : Z * AuctionData, row_written e.1 e.2) <$> found)
  | EvDeleteAuction t user => Some (Store.auction_key pool user t, None)
  | _ => None
  end.

Definition book (b : Booking) (v : AuctionRows) : AuctionRows :=
  match b with Some (k, row) => partial_alter (λ _, row) k v | None => v end.

Definition book_all (bs : list Booking) (v : AuctionRows) : AuctionRows := foldl (λ v b, book b v) v bs.

(** Only a partial fill asks the chain. *)
Definition reads_of (pool : string) (event : PoolEvent) (tr : list Read)
    (found : option (Z * AuctionData)) : Prop :=
  match event with
  | EvFillAuction t user _ percent _ =>
      if 100 <=? percent then tr = [] ∧ found = None
      else auction_result pool user t tr (Ok found)
  | _ => tr = [] ∧ found = None
  end.

Definition booked (pool : string) (ledger : Z) (event : PoolEvent) (w w' : World) : Prop :=
  ∃ tr found, w'.1 = w.1 ++ tr ∧ reads_of pool event tr found ∧
    auction_view w'.2 = book (booking pool ledger event found) (auction_view w.2).

Lemma book_lookup b v k :
  book b v !! k = match b with
    | Some (k', row) => if bool_decide (k = k') then row else v !! k
    | None => v !! k
    end.
Proof.
  destruct b as [[k' row]|]; [|done]. simpl. case_bool_decide; subst.
  - by rewrite lookup_partial_alter_eq.
  - by rewrite lookup_partial_alter_ne.
Qed.

Lemma book_all_agree bs : ∀ v1 v2 : AuctionRows,
  (∀ k, k ∉ omap (fmap fst) bs → v1 !! k = v2 !! k) → book_all bs v1 = book_all bs v2.
Proof.
  induction bs as [|b bs IH]; intros v1 v2 Hag; [apply map_eq; intros k; apply Hag; set_solver|].
  apply IH. intros k Hk. rewrite !book_lookup. destruct b as [[k' row]|].
  - case_bool_decide; [done|]. apply Hag. change (k ∉ k' :: omap (fmap fst) bs). set_solver.
  - by apply Hag.
Qed.

Lemma book_all_other bs : ∀ (v : AuctionRows) k,
  k ∉ omap (fmap fst) bs → book_all bs v !! k = v !! k.
Proof.
  induction bs as [|b bs IH]; intros v k Hk; [done|]. unfold book_all. simpl.
  destruct b as [[k' row]|]; [change (k ∉ k' :: omap (fmap fst) bs) in Hk|change (k ∉ omap (fmap fst) bs) in Hk].
  - unfold book_all in IH. rewrite IH by set_solver. rewrite book_lookup, bool_decide_eq_false_2; [done|].
    set_solver.
  - by apply IH.
Qed.

Lemma served_upsert_auction a d r d' :
  ta_percent a = None →
  served (QUpsertAuction a) d r d' →
  user_view d' = user_view d ∧
  (auction_view d' = <[Store.auction_key (ta_pool a) (ta_account a) (ta_auction_type a) :=
     (ta_start_ledger a, asset_amounts_to_json (ta_bid a), asset_amounts_to_json (ta_lot a),
      ta_updated_ledger a)]> (auction_view d) ∨
   (is_ok r = false ∧ auction_view d' = auction_view d)).
Proof.
  intros Hnone.
  assert (auction_view (upsert_auction a d).1 = <[Store.auction_key (ta_pool a) (ta_account a)
    (ta_auction_type a) := (ta_start_ledger a, asset_amounts_to_json (ta_bid a),
    asset_amounts_to_json (ta_lot a), ta_updated_ledger a)]> (auction_view d) ∧
    user_view (upsert_auction a d).1 = user_view d) as [Hup Hu].
  { unfold auction_view, upsert_auction. rewrite Hnone. simpl. by rewrite fmap_insert. }
  destruct r as [b|e]; simpl.
  - intros (ties & _ & Hrun). simpl in Hrun. rewrite Hrun in Hup, Hu. auto.
  - intros [-> |(ties & _ & ->)]; auto.
Qed.

Lemma served_delete_auction p u t d r d' :
  served (QDeleteAuction p u t) d r d' →
  user_view d' = user_view d ∧
  (auction_view d' = delete (Store.auction_key p u t) (auction_view d) ∨
   (is_ok r = false ∧ auction_view d' = auction_view d)).
Proof.
  assert (auction_view (delete_auction p u t d).1 = delete (Store.auction_key p u t) (auction_view d))
    as Hdel by (unfold auction_view; simpl; by rewrite fmap_delete).
  destruct r as [b|e]; simpl.
  - intros (ties & _ & Hrun). simpl in Hrun. injection Hrun as <- _. auto.
  - intros [-> |(ties & _ & ->)]; auto.
Qed.

(** The tail of [apply]: one write of an auction's row, after reads [tr]. *)
Lemma book_call_under {A} (q : StoreE A) pool ledger event found tr w w1 :
  (∀ d r d', served q d r d' → user_view d' = user_view d ∧
     (auction_view d' = book (booking pool ledger event found) (auction_view d) ∨
      (is_ok r = false ∧ auction_view d' = auction_view d))) →
  w1.1 = w.1 ++ tr → alike w.2 w1.2 → reads_of pool event tr found →
  holds_under w1 (store_call q)
    (λ w', user_view w'.2 = user_view w.2 ∧
       (auction_view w'.2 = auction_view w.2 ∨ booked pool ledger event w w'))
    (λ r w', is_ok r = true → booked pool ledger event w w').
Proof.
  intros Hq Hh [Hu Ha] Hreads. apply store_call_under; [by split; [|left]|].
  intros d r d' [Hu' Ha'] [Hu'' Hs]%Hq. simpl.
  assert (auction_view d' = book (booking pool ledger event found) (auction_view w.2) →
    booked pool ledger event w (w1.1, d')) as Hb by (intros; by exists tr, found).
  rewrite Ha, Ha' in Hb. rewrite Hu'', <- Hu', <- Hu, Ha, Ha'. split.
  - split; [done|]. destruct Hs as [?|[_ ?]]; auto.
  - destruct r; [|done]. intros _. destruct Hs as [?|[? _]]; auto. done.
Qed.

Lemma apply_under pool ledger event w :
  holds_under w (apply pool ledger event)
    (λ w', user_view w'.2 = user_view w.2 ∧
       (auction_view w'.2 = auction_view w.2 ∨ booked pool ledger event w w'))
    (λ r w', match r with
      | Ok accounts => accounts = affected_accounts event ∧ booked pool ledger event w w'
      | Err _ => True
      end).
Proof.
  unfold apply.
  eapply (under_try _ _ _ _ _ _ (λ (r : result TrackerError ()) (w' : World),
    is_ok r = true → booked pool ledger event w w')); [|done|].
  2: { intros u w' HJ Hb. apply under_ret; [done|]. split; [done|by apply Hb]. }
  assert (∀ t user w1 tr found,
    booking pool ledger event found = Some (Store.auction_key pool user t, None) →
    w1.1 = w.1 ++ tr → alike w.2 w1.2 → reads_of pool event tr found →
    holds_under w1 (await? _ := store_call (QDeleteAuction pool user t) in Ret (Ok ()))
      (λ w', user_view w'.2 = user_view w.2 ∧
         (auction_view w'.2 = auction_view w.2 ∨ booked pool ledger event w w'))
      (λ r w', is_ok r = true → booked pool ledger event w w')) as Hdelete.
  { intros t user w1 tr found Hbook Hh Ha Hreads.
    eapply under_try; [eapply (book_call_under _ _ _ _ found tr)|..]; try done.
    - intros d r d' Hs. rewrite Hbook. by apply (served_delete_auction pool user t _ r).
    - intros b w' HJ Hb. apply under_ret; [done|]. intros _. by apply Hb. }
  destruct event; try (apply under_ret; [by split; [|left]|]; intros _; exists [], None;
    by rewrite app_nil_r).
  - eapply (book_call_under _ _ _ _ None []); [|by rewrite app_nil_r|done|done].
    intros d r d' Hs. by apply (served_upsert_auction _ _ r) in Hs.
  - simpl. destruct (100 <=? fill_percent) eqn:Hfull.
    { eapply (Hdelete _ _ _ [] None); simpl; rewrite ?Hfull, ?app_nil_r; done. }
    eapply (under_try _ _ _ _ _ _ (λ (r : result TrackerError (option (Z * AuctionData))) (w' : World),
      match r with Ok found => ∃ tr, w'.1 = w.1 ++ tr ∧ alike w.2 w'.2 ∧
        auction_result pool user auction_type tr (Ok found) | Err _ => True end)).
    + eapply chain_read_under; [apply read_auction_returns|..].
      * intros tr d [Hu Ha]. split; [done|by left].
      * intros tr [found|e] d Ha Hr; [by exists tr|done].
    + done.
    + intros found w1 _ (tr & Hh & Ha & Hr). destruct found as [[at_ remaining]|].
      * eapply (book_call_under _ _ _ _ (Some (at_, remaining)) tr); [|done|done|simpl; by rewrite Hfull].
        intros d r d' Hs. simpl. rewrite Hfull. by apply (served_upsert_auction _ _ r) in Hs.
      * eapply (Hdelete _ _ _ tr None); simpl; rewrite ?Hfull; done.
  - eapply (Hdelete _ _ _ [] None); [done|by rewrite app_nil_r|done|done].
Qed.

(** ** Endings *)

Section ending.
Context {W : Type} (answer : ∀ X : Type, TrackE (HttpError:=HttpError) X → W → X * W).

Lemma store_call_halts {A} (q : StoreE A) w : halts tracked answer w (store_call q).
Proof. apply halts_bind; [apply halts_perform|intros; apply halts_ret]. Qed.

Lemma refresh_each_halts pool s at_ accounts : ∀ outcome w,
  halts tracked answer w (refresh_each pool s at_ accounts outcome).
Proof.
  induction accounts as [|a accounts IH]; intros outcome w; [apply halts_ret|].
  cbn [refresh_each]. apply halts_try; [apply halts_ret|]. intros w1 [row|]; cbv beta;
    (apply halts_try; [apply store_call_halts|intros; apply IH]).
Qed.

Lemma chain_read_halts {A} (m : io ReadE (result ChainError A)) w :
  (∀ answer : ∀ X : Type, ReadE X → W → X * W, halts read answer w m) →
  halts tracked answer w (chain_read m).
Proof.
  intros Hm. apply halts_bind; [|intros; apply halts_ret].
  by apply (halts_translate read tracked TRead DRead).
Qed.

Lemma refresh_halts pool accounts tick w : halts tracked answer w (refresh pool accounts tick).
Proof.
  unfold refresh. destruct accounts as [|a accounts]; [apply halts_ret|].
  apply halts_try; [|intros; apply refresh_each_halts].
  apply chain_read_halts. intros. apply snapshot_halts.
Qed.

Lemma apply_halts pool ledger event w : halts tracked answer w (apply pool ledger event).
Proof.
  assert (∀ w t user, halts tracked answer w
    (await? _ := store_call (QDeleteAuction pool user t) in Ret (Ok ()))) as Hdelete.
  { intros. apply halts_try; [apply store_call_halts|intros; apply halts_ret]. }
  unfold apply. apply halts_try; [|intros; apply halts_ret].
  destruct event; try apply halts_ret; try apply store_call_halts; try apply Hdelete.
  destruct (100 <=? fill_percent); [apply Hdelete|]. apply halts_try.
  - apply chain_read_halts. intros. apply read_auction_halts.
  - intros w1 [[at_ remaining]|]; [apply store_call_halts|apply Hdelete].
Qed.
End ending.

(** Replaying any prefix of what was booked, and then all of it, changes
    nothing. *)
Lemma book_all_replay (bs : list Booking) (n : nat) (v : AuctionRows) :
  book_all bs (book_all (take n bs) v) = book_all bs v.
Proof.
  apply book_all_agree. intros k Hk. apply book_all_other. intros Hin. apply Hk.
  rewrite <- (take_drop n bs), omap_app. apply elem_of_app. by left.
Qed.

(** ** Properties *)

(** C10: re-reading accounts makes the store say of them what the chain said. It
    always ends. When it succeeds, one snapshot of one ledger was read, every
    account could be valued in it, and each of their rows is exactly what that
    snapshot gives: written when the account owes something, gone when it does
    not. While it runs, and when it fails, every row is either the
    snapshot's or untouched, other pools' and other accounts' rows always
    untouched, and no auction's row is changed. *)
Theorem refresh_recomputes (pool : string) (accounts : list string) (tick : LedgerTick) (w : World) :
  (∀ W (answer : ∀ X : Type, TrackE X → W → X * W) w,
     halts (tracked (HttpError:=HttpError)) answer w (refresh pool accounts tick)) ∧
  holds_under w (refresh pool accounts tick) (rereading pool accounts tick w)
    (λ r w', match r with Ok o => reread pool accounts tick o w w' | Err _ => True end).
Proof. split; [intros; apply refresh_halts|apply refresh_under]. Qed.

(** C28: applying an event books its auction, and nothing else. It always ends.
    A creation writes the auction's row, a deletion and a complete fill remove
    it, a partial fill makes it what the chain has at the ledger it was read
    at; any other event leaves the table alone. No user's row is changed, the
    accounts answered are the event's, and until it succeeds the table is the
    old one or already the new one. Replaying a part of a sequence of events
    and then the whole of it ends where the whole alone ends. *)
Theorem event_books_its_auction (pool : string) (ledger : Z) (event : PoolEvent) (w : World) :
  (∀ W (answer : ∀ X : Type, TrackE X → W → X * W) w,
     halts (tracked (HttpError:=HttpError)) answer w (apply pool ledger event)) ∧
  holds_under w (apply pool ledger event)
    (λ w', user_view w'.2 = user_view w.2 ∧
       (auction_view w'.2 = auction_view w.2 ∨ booked pool ledger event w w'))
    (λ r w', match r with
      | Ok accounts => accounts = affected_accounts event ∧ booked pool ledger event w w'
      | Err _ => True
      end) ∧
  ∀ (bs : list Booking) (n : nat) v, book_all bs (book_all (take n bs) v) = book_all bs v.
Proof.
  split; [intros; apply apply_halts|]. split; [apply apply_under|]. apply book_all_replay.
Qed.
End world.
