(* ===== verification/TrackerLoop.v ===== *)
(** * The tracker's task ([src/service.rs])

    The messages of every pool's poller, applied in order: an event's accounts
    wait for their pool's next tick, a tick is acknowledged once its whole
    effect is in the store, a gap reseeds its pool. And the seeding of the
    pools no store has followed yet, before any poller starts. *)

From S2P Require Import Prelude Fixed Auction Encode Chain Operations Decode Events Store.
From S2P Require Import Poller Io Rpc Snapshot Tracker.
Open Scope Z_scope.

(** ** Data *)

Record Cadence : Type := mkCadence {
  cd_user_refresh_ledgers : Z;
  cd_refresh_batch : Z;
  cd_full_scan_ledgers : Z;
  cd_scan_health_factor : Z;
  cd_phase : Z;
}.

Definition FULL_SCAN_REPORT_LIMIT : Z := 20.

(** [scan_phase]: [random] is what the generator draws from [0..period]. *)
Definition scan_phase (random : Z → Z) (period : Z) : Z :=
  if period =? 0 then 0 else random period.

(** [scan_due]; the sum wraps at 32 bits. *)
Definition bucket (phase period ledger : Z) : Z := (ledger + phase) `mod` 2 ^ 32 / period.

Definition scan_due (ledger : Z) (last : option Z) (phase period : Z) : bool :=
  if period =? 0 then false
  else match last with
       | None => true
       | Some last => bucket phase period last <? bucket phase period ledger
       end.

Record LoopState : Type := mkLoopState {
  ls_pending : gmap string (gset string);
  ls_unapplied : gset string;
  ls_needs_reseed : gset string;
  ls_last_scan : gmap string Z;
}.

(** [state.pending.entry(pool).or_default().extend(accounts)], and the other
    changes to one field. *)
Definition add_pending (pool : string) (accounts : list string) (s : LoopState) : LoopState :=
  mkLoopState
    (<[pool := default ∅ (ls_pending s !! pool) ∪ list_to_set accounts]> (ls_pending s))
    (ls_unapplied s) (ls_needs_reseed s) (ls_last_scan s).
Definition take_pending (pool : string) (s : LoopState) : list string * bool * LoopState :=
  (set_iter (default ∅ (ls_pending s !! pool)), bool_decide (pool ∈ ls_unapplied s),
   mkLoopState (delete pool (ls_pending s)) (ls_unapplied s ∖ {[pool]}) (ls_needs_reseed s)
     (ls_last_scan s)).
Definition mark_unapplied (pool : string) (s : LoopState) : LoopState :=
  mkLoopState (ls_pending s) ({[pool]} ∪ ls_unapplied s) (ls_needs_reseed s) (ls_last_scan s).
Definition owe_reseed (pool : string) (s : LoopState) : LoopState :=
  mkLoopState (ls_pending s) (ls_unapplied s) ({[pool]} ∪ ls_needs_reseed s) (ls_last_scan s).
Definition clear_reseed (pool : string) (s : LoopState) : LoopState :=
  mkLoopState (ls_pending s) (ls_unapplied s) (ls_needs_reseed s ∖ {[pool]}) (ls_last_scan s).
Definition set_last_scan (pool : string) (ledger : Z) (s : LoopState) : LoopState :=
  mkLoopState (ls_pending s) (ls_unapplied s) (ls_needs_reseed s)
    (<[pool := ledger]> (ls_last_scan s)).

(** The loop's state, and the ledger its [watch] publishes. *)
Record Loop : Type := mkLoop { lp_state : LoopState; lp_published : LedgerTick }.
Definition with_state (f : LoopState → LoopState) (lp : Loop) : Loop :=
  mkLoop (f (lp_state lp)) (lp_published lp).

(** [tick_tx.send_if_modified]. *)
Definition publish (tick : LedgerTick) (lp : Loop) : Loop :=
  if lt_sequence (lp_published lp) <? lt_sequence tick then mkLoop (lp_state lp) tick else lp.

(** The notifications the loop raises. *)
Inductive LoopNote : Type :=
| StockWasmDetected (pool user asset : string)
| EventGap (pool : string) (from oldest : Z).

Section loop.
Context `{ScDecode} `{Json} {HttpError : Type} (parse_page : string → result string AnalyticsPage).

(** ** The calls *)

Variant LoopE : Type → Type :=
| LTrack (X : Type) (e : TrackE (HttpError:=HttpError) X) : LoopE X
| LLatest : LoopE (result ChainError LatestLedger)
| LRecv : LoopE (option PollerMessage)
| LNotify (n : LoopNote) : LoopE ()
| LAck (pool : string) (tick : LedgerTick) : LoopE ()
| LPublish (tick : LedgerTick) : LoopE ().

Inductive LoopObs : Type :=
| OTrack (o : Tracked (HttpError:=HttpError))
| OLatest (r : result ChainError LatestLedger)
| ORecv (message : option PollerMessage)
| ONotify (n : LoopNote)
| OAck (pool : string) (tick : LedgerTick)
| OPublish (tick : LedgerTick).

Definition loop_log (X : Type) (e : LoopE X) : X → LoopObs :=
  match e in LoopE X return X → LoopObs with
  | LTrack _ e => λ x, OTrack (tracked _ e x)
  | LLatest => OLatest
  | LRecv => ORecv
  | LNotify n => λ _, ONotify n
  | LAck pool tick => λ _, OAck pool tick
  | LPublish tick => λ _, OPublish tick
  end.

Abbreviation prog A := (io LoopE (result TrackerError A)).

Definition track {A : Type} (m : io (TrackE (HttpError:=HttpError)) A) : io LoopE A :=
  translate LTrack m.

(** [rpc.latest_ledger().await?], as the tick a seed is valued at. *)
Definition head_tick : prog LedgerTick :=
  await head := perform LLatest in
  Ret (let? head := map_err TrChain head in
       Ok (mkLedgerTick (ll_sequence head) (ll_close_time head))).

Context (seed_sources : list SeedSource) (cadence : Cadence).

(** ** Ticks *)

(** [regauge_users]: the count goes to a gauge. *)
Definition regauge_users (pool : string) : prog () :=
  await? _ := track (store_call (QCountUsers pool)) in Ret (Ok ()).

Fixpoint flag_accounts (pool : string) (accounts : list string) (ledger : Z) : prog () :=
  match accounts with
  | [] => Ret (Ok ())
  | account :: accounts =>
      await? _ := track (store_call (QFlagRecheck pool account ledger)) in
      flag_accounts pool accounts ledger
  end.

(** [apply_tick], up to the full scan. *)
Definition settle_tick (pool : string) (accounts : list string) (tick : LedgerTick) : prog () :=
  await? _ := track (refresh pool accounts tick) in
  await? _ := flag_accounts pool accounts (lt_sequence tick) in
  let updated_before :=
    u32_saturating_sub (lt_sequence tick) (cd_user_refresh_ledgers cadence) in
  await? stale_rows :=
    track (store_call (QUsersStale pool updated_before (cd_refresh_batch cadence))) in
  let stale_accounts := map tu_account stale_rows in
  await? _ := track (refresh pool stale_accounts tick) in
  await? _ := flag_accounts pool stale_accounts (lt_sequence tick) in
  if bool_decide (accounts ≠ []) || bool_decide (stale_accounts ≠ [])
  then regauge_users pool else Ret (Ok ()).

(** [full_scan]: the report is logged; an owed seed is retried. *)
Definition full_scan (pool : string) (tick : LedgerTick) (s : LoopState)
  : io LoopE (LoopState * result TrackerError ()) :=
  await reported :=
    (await? _ := track (store_call (QUsersBelowHealth pool (cd_scan_health_factor cadence)
                   FULL_SCAN_REPORT_LIMIT None)) in
     regauge_users pool) in
  match reported with
  | Err e => Ret (s, Err e)
  | Ok _ =>
      if bool_decide (pool ∈ ls_needs_reseed s) then
        await seeded :=
          (await? outcome :=
             track (seed parse_page pool seed_sources tick (cd_refresh_batch cadence)) in
           await? _ := regauge_users pool in Ret (Ok outcome)) in
        Ret (match seeded with
             | Err e => (s, Err e)
             | Ok outcome =>
                 (if so_failed_sources outcome =? 0 then clear_reseed pool s else s, Ok ())
             end)
      else Ret (s, Ok ())
  end.

(** [apply_tick]. *)
Definition apply_tick (pool : string) (accounts : list string) (tick : LedgerTick) (s : LoopState)
  : io LoopE (LoopState * result TrackerError ()) :=
  await settled := settle_tick pool accounts tick in
  match settled with
  | Err e => Ret (s, Err e)
  | Ok _ =>
      if scan_due (lt_sequence tick) (ls_last_scan s !! pool) (cd_phase cadence)
           (cd_full_scan_ledgers cadence)
      then
        await (s, scanned) := full_scan pool tick s in
        Ret (match scanned with
             | Err (TrStore e) => (s, Err (TrStore e))
             | _ => (set_last_scan pool (lt_sequence tick) s, Ok ())
             end)
      else Ret (s, Ok ())
  end.

(** ** Messages *)

Definition handle_event (pool : string) (ledger : Z) (event : PoolEvent) (lp : Loop)
  : io LoopE (Loop * result TrackerError ()) :=
  await applied := track (apply pool ledger event) in
  match applied with
  | Ok accounts =>
      await _ := (match event with
                  | EvBadDebt user asset _ => perform (LNotify (StockWasmDetected pool user asset))
                  | _ => Ret ()
                  end) in
      Ret (with_state (add_pending pool accounts) lp, Ok ())
  | Err error => Ret (with_state (mark_unapplied pool) lp, Err error)
  end.

Definition handle_tick (pool : string) (tick : LedgerTick) (lp : Loop)
  : io LoopE (Loop * result TrackerError ()) :=
  let '(accounts, unapplied, s) := take_pending pool (lp_state lp) in
  await (s, applied) := apply_tick pool accounts tick s in
  let lp := mkLoop s (lp_published lp) in
  match applied with
  | Err error => Ret (with_state (add_pending pool accounts) lp, Err error)
  | Ok _ =>
      if (unapplied : bool) then Ret (lp, Ok ())
      else
        await _ := perform (LAck pool tick) in
        await _ := (if lt_sequence (lp_published lp) <? lt_sequence tick
                    then perform (LPublish tick) else Ret ()) in
        Ret (publish tick lp, Ok ())
  end.

Definition handle_gap (pool : string) (from oldest : Z) (lp : Loop)
  : io LoopE (Loop * result TrackerError ()) :=
  await _ := perform (LNotify (EventGap pool from oldest)) in
  let lp := with_state (owe_reseed pool) lp in
  await seeded :=
    (await? tick := head_tick in
     await? outcome :=
       track (seed parse_page pool seed_sources tick (cd_refresh_batch cadence)) in
     await? _ := regauge_users pool in Ret (Ok outcome)) in
  Ret (match seeded with
       | Err e => (lp, Err e)
       | Ok outcome =>
           (if so_failed_sources outcome =? 0 then with_state (clear_reseed pool) lp else lp,
            Ok ())
       end).

(** [handle_message]. *)
Definition handle_message (message : PollerMessage) (lp : Loop)
  : io LoopE (Loop * result TrackerError ()) :=
  match message with
  | MEvent pool ledger event => handle_event pool ledger event lp
  | MTick pool tick => handle_tick pool tick lp
  | MGap pool from oldest => handle_gap pool from oldest lp
  end.

(** [tracker_loop]. *)
Definition tracker_turn (lp : Loop) : io LoopE (Loop + result TrackerError ()) :=
  await message := perform LRecv in
  match message with
  | None => Ret (inr (Ok ()))
  | Some message =>
      await (lp, handled) := handle_message message lp in
      Ret (match handled with
           | Err (TrStore e) => inr (Err (TrStore e))
           | _ => inl lp
           end)
  end.

Definition tracker_loop (lp : Loop) : prog () := ITree.iter tracker_turn lp.

(** ** Seeding at startup *)

(** What stops the start: the chain's head, or the store. *)
Inductive SeedFailure : Type :=
| SfChain (e : ChainError)
| SfStore (e : StoreError)
| SfTracker (e : TrackerError).

Definition stored {A : Type} (q : StoreE A) : io LoopE (result SeedFailure A) :=
  await r := track (perform (TStore A q)) in Ret (map_err SfStore r).

(** One pool that was never followed: whether its seed is complete. *)
Definition seed_new_pool (pool : string) (batch : Z) : io LoopE (result SeedFailure bool) :=
  await head := perform LLatest in
  match head with
  | Err e => Ret (Err (SfChain e))
  | Ok head =>
      let tick := mkLedgerTick (ll_sequence head) (ll_close_time head) in
      await seeded := track (seed parse_page pool seed_sources tick batch) in
      match seeded with
      | Err (TrStore e) => Ret (Err (SfTracker (TrStore e)))
      | Err _ => Ret (Ok false)
      | Ok outcome =>
          await? _ :=
            (if is_complete outcome
             then stored (QSetCursor (events_cursor pool) (mkCursor (ll_sequence head) None))
             else Ret (Ok ())) in
          await? _ := stored (QCountUsers pool) in
          Ret (Ok (is_complete outcome))
      end
  end.

(** [seed_pools_needing_it]. *)
Fixpoint seed_pools_needing_it (pools : list string) (batch : Z) (incomplete : gset string)
  : io LoopE (result SeedFailure (gset string)) :=
  match pools with
  | [] => Ret (Ok incomplete)
  | pool :: pools =>
      await stop := track (perform TShutdown) in
      if stop : bool then Ret (Ok incomplete)
      else
        await? user_count := stored (QCountUsers pool) in
        await? cursor := stored (QCursor (events_cursor pool)) in
        if negb (user_count =? 0) && bool_decide (is_Some cursor)
        then seed_pools_needing_it pools batch incomplete
        else
          await? complete := seed_new_pool pool batch in
          seed_pools_needing_it pools batch
            (if (complete : bool) then incomplete else {[pool]} ∪ incomplete)
  end.
End loop.
