(* ===== verification/SeedContract.v ===== *)
(** * What a seed reaches ([src/tracker.rs], [src/service.rs])

    A seed of a pool, told by its calls: the pages each source served, to the
    last or to the first that was refused, then the accounts they listed re-read
    in batches. And what the tracker's task makes of one: a pool owes a reseed
    from its gap until a seed has reached every source. *)

From S2P Require Import Prelude Fixed Reserve Position Auction Encode Chain Operations Decode.
From S2P Require Import Events Store Rows Poller Io Rpc Snapshot Tracker TrackerLoop.
Open Scope Z_scope.

Section seeds.
Context `{ScDecode} `{Json} {HttpError : Type} (parse_page : string → result string AnalyticsPage).

Abbreviation Tracked := (Tracked (HttpError:=HttpError)).
Abbreviation track_log := (tracked (HttpError:=HttpError)).

(** ** What is read *)

(** A page was served: a success, whose text reads as the page. *)
Definition served_page (r : result HttpError (Z * result HttpError string)) (page : AnalyticsPage)
  : Prop :=
  ∃ status text, r = Ok (status, Ok text) ∧ 200 ≤ status < 300 ∧ parse_page text = Ok page.

(** The pages of a pool, from a cursor and with some read before it: to the last
    one or the cap, the accounts in their order; or to one that was refused. *)
Inductive pages_read (source : AnalyticsSeed) (pool : string)
  : option string → Z → list Tracked → option (list string) → Prop :=
| pages_last cursor n r page :
    served_page r page → ap_next_cursor page = None ∨ SEED_PAGE_CAP ≤ n + 1 →
    pages_read source pool cursor n
      [DHttpGet (positions_url source) (page_query source pool cursor) r] (Some (ap_positions page))
| pages_more cursor n r page next tr found :
    served_page r page → ap_next_cursor page = Some next → n + 1 < SEED_PAGE_CAP →
    pages_read source pool (Some next) (n + 1) tr found →
    pages_read source pool cursor n
      (DHttpGet (positions_url source) (page_query source pool cursor) r
       :: DSleep SEED_PAGE_PAUSE :: tr)
      (app (ap_positions page) <$> found)
| pages_refused cursor n r :
    (∀ page, ¬ served_page r page) →
    pages_read source pool cursor n
      [DHttpGet (positions_url source) (page_query source pool cursor) r] None.

(** A source: its accounts of the pool, or nothing of one that was not reached.
    A file was read when the service started. *)
Definition source_read (pool : string) (source : SeedSource) (tr : list Tracked)
    (found : option (list string)) : Prop :=
  match source with
  | Analytics source => pages_read source pool None 0 tr found
  | FileSource file => tr = [] ∧ found = Some (default [] (fs_accounts file !! pool))
  end.

(** The sources in their order: the accounts listed, each once, and how many of
    the sources were not reached. *)
Inductive sources_read (pool : string)
  : list SeedSource → list Tracked → gset string → Z → Prop :=
| sources_none : sources_read pool [] [] ∅ 0
| sources_reached source sources part found tr accounts n :
    source_read pool source part (Some found) → sources_read pool sources tr accounts n →
    sources_read pool (source :: sources) (part ++ tr) (list_to_set found ∪ accounts) n
| sources_missed source sources part tr accounts n :
    source_read pool source part None → sources_read pool sources tr accounts n →
    sources_read pool (source :: sources) (part ++ tr) accounts (n + 1).

(** The batches re-read in turn, until one fails or the task is told to stop. *)
Inductive rereads (pool : string) (tick : LedgerTick)
  : list (list string) → list Tracked → option TrackerError → Prop :=
| rereads_done : rereads pool tick [] [] None
| rereads_told batch batches : rereads pool tick (batch :: batches) [DShutdown true] None
| rereads_next batch batches part o tr failure :
    traces track_log (refresh pool batch tick) part (Some (Ok o)) →
    rereads pool tick batches tr failure →
    rereads pool tick (batch :: batches) (DShutdown false :: part ++ tr) failure
| rereads_failed batch batches part e :
    traces track_log (refresh pool batch tick) part (Some (Err e)) →
    rereads pool tick (batch :: batches) (DShutdown false :: part) (Some e).

(** A seed: every source read, [n] of them not reached; then every account that
    was listed re-read, in batches no larger than asked for. *)
Definition seed_run (pool : string) (sources : list SeedSource) (tick : LedgerTick) (batch : Z)
    (tr : list Tracked) (n : Z) (failure : option TrackerError) : Prop :=
  ∃ part rest accounts batches,
    tr = part ++ rest ∧ sources_read pool sources part accounts n ∧
    concat batches ≡ₚ elements accounts ∧
    Forall (λ b, Z.of_nat (length b) ≤ Z.max batch 1) batches ∧
    rereads pool tick batches rest failure.

(** ** Lemmas *)

Lemma read_page_served r page :
  (let? response := map_err SeedHttp r in read_page parse_page response) = Ok page ↔
  served_page r page.
Proof.
  unfold served_page. destruct r as [[status text]|e]; simpl; [|split; [done|naive_solver]].
  destruct (Z.leb_spec 200 status), (Z.ltb_spec status 300); simpl;
    try (split; [done|intros (? & ? & [= <- ->] & ? & _); lia]).
  destruct text as [text|e]; simpl; [|split; [done|naive_solver]].
  destruct (parse_page text) as [p|e] eqn:Hp; split; try done.
  - intros [= <-]. by exists status, text.
  - intros (? & ? & [= <- <-] & _ & Hq). congruence.
  - intros (? & ? & [= <- <-] & _ & Hq). congruence.
Qed.

Lemma read_page_refused r e :
  (let? response := map_err SeedHttp r in read_page parse_page response) = Err e →
  ∀ page, ¬ served_page r page.
Proof. intros He page Hp%read_page_served. congruence. Qed.

(** The accounts gathered before a cursor, put before those after it. *)
Definition gathered (before : list string) (found : option (list string))
    (r : result (SeedError (HttpError:=HttpError)) (list string)) : Prop :=
  match found, r with
  | Some found, Ok accounts => accounts = before ++ found
  | None, Err _ => True
  | _, _ => False
  end.

Lemma analytics_returns source pool :
  returns track_log (analytics_accounts parse_page source pool)
    (λ tr r, ∃ found, pages_read source pool None 0 tr found ∧ gathered [] found r).
Proof.
  apply (returns_iter _ (λ '(before, cursor, n) tr0, ∀ tr found r,
    pages_read source pool cursor n tr found → gathered before found r →
    ∃ all, pages_read source pool None 0 (tr0 ++ tr) all ∧ gathered [] all r)).
  { intros tr found r Hp Hg. by exists found. }
  intros [[before cursor] n] tr0 Hinv. unfold page_turn.
  eapply returns_bind; [by apply (returns_perform _ _ (λ tr r,
    tr = [DHttpGet (positions_url source) (page_query source pool cursor) r]))|].
  intros response tr1 ->. cbv zeta.
  destruct (let? response := _ in _) as [page|e] eqn:Hpage.
  2: { apply returns_ret. rewrite app_nil_r. eapply Hinv; [|by instantiate (1 := None)].
       apply pages_refused. by eapply read_page_refused. }
  apply read_page_served in Hpage.
  assert (ap_next_cursor page = None ∨ SEED_PAGE_CAP ≤ n + 1 →
    ∃ all, pages_read source pool None 0
      (tr0 ++ [DHttpGet (positions_url source) (page_query source pool cursor) response]) all ∧
      gathered [] all (Ok (before ++ ap_positions page))) as Hlast.
  { intros Hend. eapply Hinv; [by apply pages_last|done]. }
  destruct (ap_next_cursor page) as [next|] eqn:Hnext.
  2: { apply returns_ret. rewrite app_nil_r. apply Hlast. by left. }
  destruct (Z.leb_spec SEED_PAGE_CAP (n + 1)).
  { apply returns_ret. rewrite app_nil_r. apply Hlast. by right. }
  eapply returns_bind; [by apply (returns_perform _ _ (λ tr _, tr = [DSleep SEED_PAGE_PAUSE]))|].
  intros [] tr2 ->. apply returns_ret. intros tr found r Hp Hg. rewrite app_nil_r, <- app_assoc.
  eapply Hinv; [by eapply pages_more|]. destruct found as [found|], r; simpl in *; try done.
  by rewrite Hg, app_assoc.
Qed.

Lemma source_returns pool source :
  returns track_log (source_accounts parse_page source pool)
    (λ tr r, ∃ found, source_read pool source tr found ∧ gathered [] found r).
Proof.
  destruct source as [source|file]; [apply analytics_returns|]. apply returns_ret.
  by exists (Some (file_accounts file pool)).
Qed.

Lemma collect_returns pool sources : ∀ accounts0 failed,
  returns track_log (collect_sources parse_page pool sources accounts0 failed) (λ tr r,
    ∃ accounts n, sources_read pool sources tr accounts n ∧ r = (accounts0 ∪ accounts, failed + n)).
Proof.
  induction sources as [|source sources IH]; intros accounts0 failed.
  { apply returns_ret. exists ∅, 0. split; [constructor|]. f_equal; [set_solver|lia]. }
  cbn [collect_sources]. eapply returns_bind; [apply source_returns|].
  intros r part (found & Hread & Hg).
  destruct found as [found|], r as [listed|e]; try done; simpl in Hg; subst;
    (eapply returns_weaken; [apply IH|]); intros tr r (accounts & n & Hs & ->).
  - eexists _, _. split; [by eapply sources_reached|]. f_equal. set_solver.
  - eexists _, _. split; [by eapply sources_missed|]. f_equal. lia.
Qed.

Lemma seed_chunks_returns pool tick batches : ∀ outcome,
  returns track_log (seed_chunks pool tick batches outcome) (λ tr r,
    match r with
    | Ok o => so_failed_sources o = so_failed_sources outcome ∧ rereads pool tick batches tr None
    | Err e => rereads pool tick batches tr (Some e)
    end).
Proof.
  induction batches as [|batch batches IH]; intros outcome; [by apply returns_ret; split; [|constructor]|].
  cbn [seed_chunks]. eapply returns_bind; [by apply (returns_perform _ _ (λ tr b, tr = [DShutdown b]))|].
  intros [] tr ->; [apply returns_ret; split; [done|constructor]|].
  eapply (returns_try _ _ _ (λ tr r, traces track_log (refresh pool batch tick) tr (Some r))).
  - intros n tr [r|] Hr; [by exists n|done].
  - intros tr e Hr. by apply rereads_failed.
  - intros o part Hr. eapply returns_weaken; [apply IH|]. intros tr [o'|e].
    + intros [Hf Hs]. split; [done|]. exact (rereads_next _ _ _ _ _ _ _ _ Hr Hs).
    + intros Hs. exact (rereads_next _ _ _ _ _ _ _ _ Hr Hs).
Qed.

Lemma seed_returns pool sources tick batch :
  returns track_log (seed parse_page pool sources tick batch) (λ tr r,
    match r with
    | Ok o => seed_run pool sources tick batch tr (so_failed_sources o) None
    | Err e => ∃ n, seed_run pool sources tick batch tr n (Some e)
    end).
Proof.
  unfold seed. eapply returns_bind; [apply collect_returns|].
  intros r part (accounts & n & Hs & ->). rewrite union_empty_l_L.
  set (batches := chunks (Z.to_nat (Z.max batch 1)) (set_iter accounts)).
  assert (concat batches ≡ₚ elements accounts ∧
    Forall (λ b, Z.of_nat (length b) ≤ Z.max batch 1) batches) as [Hc Hl].
  { split; [unfold batches; rewrite concat_chunks by lia; apply merge_sort_Permutation|].
    eapply Forall_impl; [apply chunks_length; lia|]. simpl. lia. }
  eapply returns_weaken; [apply seed_chunks_returns|]. intros tr [o|e]; cbn [so_failed_sources].
  - intros [-> Hr]. rewrite Z.add_0_l. by exists part, tr, accounts, batches.
  - intros Hr. by exists n, part, tr, accounts, batches.
Qed.

(** ** The task's seeds *)

Context (seed_sources : list SeedSource) (cadence : Cadence).

Abbreviation LoopObs := (LoopObs (HttpError:=HttpError)).
Abbreviation log := (loop_log (HttpError:=HttpError)).
Abbreviation run_of pool tick :=
  (seed_run pool seed_sources tick (cd_refresh_batch cadence)).

(** The pools that owe a reseed after a seed of [pool]. *)
Definition after_seed (pool : string) (n : Z) (failure : option TrackerError) (owed : gset string)
  : gset string :=
  if (n =? 0) && bool_decide (failure = None) then owed ∖ {[pool]} else owed.

(** A message, by its calls: who owes a reseed once it is handled. A tick whose
    scan is due, of a pool that owes one, seeds it; a gap owes one and seeds its
    pool at the chain's head; only a seed that reached every source, and re-read
    what they listed without failing, takes it off. A message that failed leaves
    what was owed. *)
Definition reseeds_owed (message : PollerMessage) (lp : Loop) (tr : list LoopObs)
    (r : Loop * result TrackerError ()) : Prop :=
  let owed := ls_needs_reseed (lp_state lp) in
  let owed' := ls_needs_reseed (lp_state r.1) in
  match message with
  | MEvent _ _ _ => owed' = owed
  | MTick pool tick =>
      if is_ok r.2 && bool_decide (pool ∈ owed) &&
         scan_due (lt_sequence tick) (ls_last_scan (lp_state lp) !! pool) (cd_phase cadence)
           (cd_full_scan_ledgers cadence)
      then ∃ h1 seg h2 n failure, tr = h1 ++ map OTrack seg ++ h2 ∧
             run_of pool tick seg n failure ∧ owed' = after_seed pool n failure owed
      else owed' = owed
  | MGap pool from oldest =>
      match r.2 with
      | Ok _ =>
          ∃ head seg h2 n, tr = ONotify (EventGap pool from oldest) :: OLatest (Ok head) ::
              map OTrack seg ++ h2 ∧
            run_of pool (mkLedgerTick (ll_sequence head) (ll_close_time head)) seg n None ∧
            owed' = after_seed pool n None ({[pool]} ∪ owed)
      | Err _ => owed' = {[pool]} ∪ owed
      end
  end.

Lemma store_errors {A} (q : StoreE A) :
  returns log (track (store_call q)) (λ _ r, match r with Err e => ∃ s, e = TrStore s | Ok _ => True end).
Proof.
  eapply returns_weaken.
  - apply (returns_translate track_log log LTrack OTrack (λ _ _ _, eq_refl) _
      (λ _ r, match r with Err e => ∃ s, e = TrStore s | Ok _ => True end)).
    eapply returns_bind; [by apply (returns_perform _ _ (λ _ _, True))|].
    intros [a|s] tr _; apply returns_ret; [done|by exists s].
  - by intros tr r (tr1 & _ & Hr).
Qed.

Lemma regauge_errors pool :
  returns log (regauge_users pool) (λ _ r, match r with Err e => ∃ s, e = TrStore s | Ok _ => True end).
Proof.
  eapply returns_try; [apply store_errors|by intros tr e He|]. intros n tr _. by apply returns_ret.
Qed.

(** A seed, and the count of the pool's users after it. *)
Lemma seed_then_gauge_returns pool tick :
  returns log
    (await? outcome := track (seed parse_page pool seed_sources tick (cd_refresh_batch cadence)) in
     await? _ := regauge_users pool in Ret (Ok outcome))
    (λ tr r, match r with
     | Ok o => ∃ seg h2, tr = map OTrack seg ++ h2 ∧ run_of pool tick seg (so_failed_sources o) None
     | Err (TrStore _) => True
     | Err e => ∃ seg n, tr = map OTrack seg ∧ run_of pool tick seg n (Some e)
     end).
Proof.
  eapply returns_try.
  - apply (returns_translate track_log log LTrack OTrack (λ _ _ _, eq_refl)), seed_returns.
  - intros tr e (seg & -> & n & Hs). destruct e; [|done|]; by exists seg, n.
  - intros o tr (seg & -> & Hs). eapply returns_try; [apply regauge_errors| |].
    + by intros tr e [s ->].
    + intros [] h2 _. apply returns_ret. rewrite app_nil_r. by exists seg, h2.
Qed.

Lemma full_scan_returns pool tick s :
  returns log (full_scan parse_page seed_sources cadence pool tick s) (λ tr r,
    match r.2 with
    | Err (TrStore _) => ls_needs_reseed r.1 = ls_needs_reseed s
    | _ =>
        if bool_decide (pool ∈ ls_needs_reseed s)
        then ∃ h1 seg h2 n failure, tr = h1 ++ map OTrack seg ++ h2 ∧
               run_of pool tick seg n failure ∧
               ls_needs_reseed r.1 = after_seed pool n failure (ls_needs_reseed s)
        else ls_needs_reseed r.1 = ls_needs_reseed s
    end).
Proof.
  unfold full_scan. eapply (returns_bind _ _ _
    (λ _ r, match r with Err e => ∃ s, e = TrStore s | Ok _ => True end)).
  { eapply returns_try; [apply store_errors|by intros tr e He|].
    intros us tr _. apply regauge_errors. }
  intros [ []|e] h1 He; [|destruct He as [e' ->]; by apply returns_ret].
  destruct (bool_decide (pool ∈ ls_needs_reseed s)); [|by apply returns_ret].
  eapply returns_bind; [apply seed_then_gauge_returns|]. intros [o|e] tr Hs; apply returns_ret;
    rewrite app_nil_r; cbn [fst snd].
  - destruct Hs as (seg & h2 & -> & Hs). exists h1, seg, h2, (so_failed_sources o), None.
    split; [done|]. split; [done|]. unfold after_seed. rewrite bool_decide_eq_true_2, andb_true_r by done.
    by destruct (_ =? 0).
  - destruct e; try done; destruct Hs as (seg & n & -> & Hs); exists h1, seg, [];
      eexists n, _; rewrite app_nil_r; (split; [done|]); (split; [exact Hs|]);
      unfold after_seed; by rewrite bool_decide_eq_false_2, andb_false_r.
Qed.

Lemma apply_tick_returns pool accounts tick s :
  returns log (apply_tick parse_page seed_sources cadence pool accounts tick s) (λ tr r,
    if is_ok r.2 && bool_decide (pool ∈ ls_needs_reseed s) &&
       scan_due (lt_sequence tick) (ls_last_scan s !! pool) (cd_phase cadence)
         (cd_full_scan_ledgers cadence)
    then ∃ h1 seg h2 n failure, tr = h1 ++ map OTrack seg ++ h2 ∧ run_of pool tick seg n failure ∧
           ls_needs_reseed r.1 = after_seed pool n failure (ls_needs_reseed s)
    else ls_needs_reseed r.1 = ls_needs_reseed s).
Proof.
  unfold apply_tick. eapply (returns_bind _ _ _ (λ _ _, True)); [by intros n tr [r|]|].
  intros [ []|e] h1 _; [|by apply returns_ret].
  destruct (scan_due _ _ _ _); [|apply returns_ret; by rewrite andb_false_r].
  eapply returns_bind; [apply full_scan_returns|]. intros [s1 r] tr Hr. apply returns_ret.
  rewrite andb_true_r, app_nil_r. cbn [fst snd] in Hr.
  assert (∀ (b : bool) owed' (P : list LoopObs → Prop),
    (if b then ∃ h1 seg h2 n failure, tr = h1 ++ map OTrack seg ++ h2 ∧ run_of pool tick seg n failure ∧
       owed' = after_seed pool n failure (ls_needs_reseed s) else owed' = ls_needs_reseed s) →
    (if b then ∃ h0 seg h2 n failure, h1 ++ tr = h0 ++ map OTrack seg ++ h2 ∧
       run_of pool tick seg n failure ∧ owed' = after_seed pool n failure (ls_needs_reseed s)
     else owed' = ls_needs_reseed s)) as Hlater.
  { intros [] owed' _; [|done]. intros (h0 & seg & h2 & n & failure & -> & Hs & Ho).
    exists (h1 ++ h0), seg, h2, n, failure. by rewrite <- app_assoc. }
  destruct r as [u|[e|e|e]]; cbn [fst snd is_ok andb]; first [by apply (Hlater _ _ (λ _, True)) | done].
Qed.

Lemma handle_message_returns message lp :
  returns log (handle_message parse_page seed_sources cadence message lp)
    (reseeds_owed message lp).
Proof.
  destruct message as [pool ledger event|pool tick|pool from oldest]; simpl.
  - eapply (returns_bind _ _ _ (λ _ _, True)); [by intros n tr [r|]|]. intros [a|e] tr _; [|by apply returns_ret].
    eapply (returns_bind _ _ _ (λ _ _, True)); [by intros n tr2 [r|]|]. intros [] tr2 _. by apply returns_ret.
  - unfold handle_tick, take_pending. eapply returns_bind; [apply apply_tick_returns|].
    intros [s [ []|e]] tr Hr; [|by apply returns_ret]. cbv zeta.
    destruct (bool_decide (pool ∈ ls_unapplied (lp_state lp))).
    { apply returns_ret. rewrite app_nil_r. exact Hr. }
    assert (∀ h, reseeds_owed (MTick pool tick) lp (tr ++ h)
      (publish tick (mkLoop s (lp_published lp)), Ok ())) as Hend.
    { intros h. unfold reseeds_owed. cbn [fst snd] in *.
      replace (lp_state (publish tick (mkLoop s (lp_published lp)))) with s
        by (unfold publish; by destruct (_ <? _)).
      revert Hr. destruct (_ && _); [|done]. intros (h1 & seg & h2 & n & failure & -> & Hs & Ho).
      exists h1, seg, (h2 ++ h), n, failure. by rewrite <- !app_assoc. }
    eapply (returns_bind _ _ _ (λ _ _, True)); [by intros n tr2 [r|]|]. intros [] tr2 _.
    eapply (returns_bind _ _ _ (λ _ _, True)); [by intros n tr3 [r|]|]. intros [] tr3 _.
    apply returns_ret. apply Hend.
  - unfold handle_gap.
    eapply returns_bind; [by apply (returns_perform _ _ (λ tr _, tr = [ONotify (EventGap pool from oldest)]))|].
    intros [] tr ->. cbv zeta.
    eapply (returns_bind _ _ _ (λ tr r, match r with
      | Ok o => ∃ head seg h2, tr = OLatest (Ok head) :: map OTrack seg ++ h2 ∧
          run_of pool (mkLedgerTick (ll_sequence head) (ll_close_time head)) seg (so_failed_sources o) None
      | Err _ => True end)).
    + eapply (returns_try _ _ _ (λ tr r, match r with
        | Ok t => ∃ head, tr = [OLatest (Ok head)] ∧
            t = mkLedgerTick (ll_sequence head) (ll_close_time head)
        | Err _ => True end)); [|done|].
      { unfold head_tick. eapply returns_bind; [by apply (returns_perform _ _ (λ tr r, tr = [OLatest r]))|].
        intros [head|e] tr ->; apply returns_ret; [by exists head|done]. }
      intros t tr (head & -> & ->). eapply returns_weaken; [apply seed_then_gauge_returns|].
      intros tr [o|e]; [|done]. intros (seg & h2 & -> & Hs). by exists head, seg, h2.
    + intros [o|e] tr Hs; apply returns_ret; rewrite app_nil_r; [|done].
      destruct Hs as (head & seg & h2 & -> & Hs). simpl.
      exists head, seg, h2, (so_failed_sources o). split; [done|]. split; [done|].
      unfold after_seed. rewrite bool_decide_eq_true_2, andb_true_r by done. by destruct (_ =? 0).
Qed.
End seeds.
