(* ===== verification/TrackerLoopContract.v ===== *)
(** * What the tracker's task promises ([src/service.rs])

    The world of the tracker with the acknowledgements the task has given. In
    it every message has the effect its handler promises, a tick is
    acknowledged exactly when its effect is in the store, and acknowledged
    ticks bring every row of a pool up to date. *)

From stdpp Require Import sorting.
From S2P Require Import Prelude Fixed Reserve Position Auction Encode Chain Operations Decode.
From S2P Require Import Events Store Rows Poller Io Rpc Snapshot Tracker TrackerContract TrackerLoop.
From S2P Require Import SeedContract.
Open Scope Z_scope.

Section world.
Context `{ScDecode} `{Json} (debug_str : string → string) {HttpError : Type}.

Abbreviation World := TrackerContract.World.
Abbreviation holds_under := (under (tracked (HttpError:=HttpError)) (world_step debug_str)).

(** ** The rows behind a ledger *)

(** The accounts of a pool whose rows are older than a ledger. *)
Definition is_behind (pool : string) (T : Z) (e : string * string * (Z * Value * Value * Z)) : Prop :=
  e.1.1 = pool ∧ e.2.2 < T.
#[export] Instance is_behind_dec pool T e : Decision (is_behind pool T e).
Proof. unfold is_behind. apply _. Defined.

Definition behind (pool : string) (T : Z) (d : Db) : gset (string * string) :=
  dom (filter (is_behind pool T) (user_view d)).

#[export] Instance behind_proper pool T : Proper (alike ==> eq) (behind pool T).
Proof. intros d d' Ha. unfold behind. by rewrite Ha. Qed.

Lemma elem_of_behind pool T d k :
  k ∈ behind pool T d ↔ k.1 = pool ∧ ∃ c, user_view d !! k = Some c ∧ c.2 < T.
Proof.
  unfold behind. rewrite elem_of_dom. split.
  - intros [c [Hc [Hp Ht]]%map_lookup_filter_Some]. eauto.
  - intros (Hp & c & Hc & Ht). exists c. by apply map_lookup_filter_Some.
Qed.

Lemma user_view_some d k c :
  user_view d !! k = Some c ↔ ∃ row, db_users d !! k = Some row ∧ c = user_columns row.
Proof. unfold user_view. rewrite lookup_fmap_Some. naive_solver. Qed.

Definition updated (e : string * UserRow) : Z := ur_updated_ledger e.2.

Lemma behind_of_rows pool T d rows :
  rows ≡ₚ pool_users pool (λ _ row, ur_updated_ledger row <? T) d →
  behind pool T d = keys_of pool rows.*1.
Proof.
  intros Hp. apply set_eq. intros k. rewrite elem_of_behind, elem_of_keys, Hp, list_elem_of_fmap.
  split; intros [Hk He]; (split; [done|]).
  - destruct He as (c & (row & Hrow & ->)%user_view_some & Hlt). exists (k.2, row). split; [done|].
    apply elem_of_pool_users. simpl. rewrite <- Hk. destruct k. split; [done|]. by apply Z.ltb_lt.
  - destruct He as ([a row] & Ha & [Hrow Hlt]%elem_of_pool_users). destruct k as [p b].
    simpl in *. subst. exists (user_columns row). split; [|by apply Z.ltb_lt].
    apply user_view_some. by exists row.
Qed.

Lemma rows_below pool T before d rows :
  T ≤ before → rows ≡ₚ pool_users pool (λ _ row, ur_updated_ledger row <? before) d →
  filter (below updated T) rows ≡ₚ pool_users pool (λ _ row, ur_updated_ledger row <? T) d.
Proof.
  intros Hle Hp. rewrite Hp. apply NoDup_Permutation.
  - eapply NoDup_fmap_1, fst_filter_nodup, pool_users_nodup.
  - eapply NoDup_fmap_1, pool_users_nodup.
  - intros e. rewrite list_elem_of_filter, !elem_of_pool_users. unfold below, updated.
    rewrite !Z.ltb_lt. naive_solver lia.
Qed.

(** Of a sorted selection, the first [n] hold [n] of the rows behind [T], or
    them all. *)
Lemma selection_behind pool T before d rows n :
  T ≤ before → rows ≡ₚ pool_users pool (λ _ row, ur_updated_ledger row <? before) d →
  StronglySorted (λ x y, updated x ≤ updated y) rows →
  size (behind pool T d ∖ keys_of pool (take n rows).*1) = (size (behind pool T d) - n)%nat.
Proof.
  intros Hle Hp Hs. apply (selection_takes updated T); [rewrite Hp; apply pool_users_nodup|done|].
  by apply behind_of_rows, (rows_below pool T before).
Qed.

#[export] Instance by_staleness_trans : Transitive by_staleness.
Proof. intros x y z. unfold by_staleness. lia. Qed.
#[export] Instance by_staleness_total : Total by_staleness.
Proof. intros x y. unfold by_staleness. lia. Qed.

(** The stale pass's selection: at most [limit] accounts, each once, and those
    first that are furthest behind. *)
Lemma served_users_stale pool before limit d us d' :
  served debug_str (QUsersStale pool before limit) d (Ok us) d' →
  d' = d ∧ ∀ T, T ≤ before →
    size (behind pool T d ∖ keys_of pool (map tu_account us)) =
    (size (behind pool T d) - Z.to_nat limit)%nat.
Proof.
  intros (ties & Hties & [= <- Hr]). split; [done|]. intros T Hle.
  rewrite (read_users_accounts _ _ _ _ Hr). eapply selection_behind; [done|..].
  - rewrite merge_sort_Permutation. apply Hties.
  - apply (StronglySorted_merge_sort by_staleness _).
Qed.

(** ** Programs that only renew rows *)

Definition fresh (T : Z) (tr : list Read) : Prop := Forall (λ r, ∀ l, at_ledger l r → T ≤ l) tr.

(** Every row is what it was, gone, or as of the ledger of a read since. *)
Definition renewed (w w' : World) : Prop :=
  ∃ tr, w'.1 = w.1 ++ tr ∧ ∀ k,
    user_view w'.2 !! k = user_view w.2 !! k ∨
    (∀ c, user_view w'.2 !! k = Some c → ∃ r, r ∈ tr ∧ at_ledger c.2 r).

#[export] Instance renewed_preorder : PreOrder renewed.
Proof.
  split.
  - intros w. exists []. rewrite app_nil_r. split; [done|]. by left.
  - intros w1 w2 w3 (tr1 & Hh1 & Hk1) (tr2 & Hh2 & Hk2). exists (tr1 ++ tr2).
    split; [by rewrite Hh2, Hh1, app_assoc|]. intros k.
    destruct (Hk2 k) as [Heq|Hr].
    + rewrite Heq. destruct (Hk1 k) as [?|Hr]; [by left|right]. intros c Hc.
      destruct (Hr c Hc) as (r & ? & ?). exists r. set_solver.
    + right. intros c Hc. destruct (Hr c Hc) as (r & ? & ?). exists r. set_solver.
Qed.

(** Nothing of the tracker's is changed. *)
Definition quiet (w w' : World) : Prop := w'.1 = w.1 ∧ alike w.2 w'.2.

#[export] Instance quiet_preorder : PreOrder quiet.
Proof.
  split; [by intros w|]. intros w1 w2 w3 [? ?] [? ?]. split; [congruence|by etrans].
Qed.

Lemma quiet_renewed w w' : quiet w w' → renewed w w'.
Proof.
  intros [Hh [Hu _]]. exists []. rewrite app_nil_r. split; [done|]. intros k. left. by rewrite Hu.
Qed.

Lemma fresh_behind T pool w w' tr :
  renewed w w' → w'.1 = w.1 ++ tr → fresh T tr → behind pool T w'.2 ⊆ behind pool T w.2.
Proof.
  intros (tr' & Hh & Hk) Htr Hf. rewrite Hh in Htr. apply app_inv_head in Htr as ->.
  intros k (Hp & c & Hc & Hlt)%elem_of_behind. apply elem_of_behind. split; [done|].
  exists c. split; [|done]. destruct (Hk k) as [<-|Hr]; [done|].
  destruct (Hr c Hc) as (r & Hin & Hat). unfold fresh in Hf. rewrite Forall_forall in Hf.
  specialize (Hf r Hin _ Hat). lia.
Qed.

Lemma fresh_app T tr1 tr2 : fresh T (tr1 ++ tr2) ↔ fresh T tr1 ∧ fresh T tr2.
Proof. apply Forall_app. Qed.

Lemma taken_ledger pool accounts w w' s :
  snapshot_taken pool accounts w w' s → ∃ tr r, w'.1 = w.1 ++ tr ∧ r ∈ tr ∧ at_ledger (ps_ledger s) r.
Proof.
  intros (tr & Hh & (retried & last & -> & _ & _ & [Hl Hs _ _ _ _])). exists (concat retried ++ last).
  destruct last as [|r last]; [done|]. apply Forall_cons in Hl as [Hl _]. exists r.
  split; [done|]. split; [set_solver|done].
Qed.

Lemma row_ledger pool s at_ a c : row_of pool s at_ a = Some c → c.2 = ps_ledger s.
Proof.
  unfold row_of. destruct (revalue pool s at_ a) as [[u|]|e] eqn:Hr; try done. intros [= <-].
  unfold revalue in Hr. rust_inv. destruct (ps_positions s !! a); [|by destruct x].
  destruct x; [|done]. rust_inv. by subst.
Qed.

Lemma rereading_renewed pool accounts tick w w' tr :
  w'.1 = w.1 ++ tr → rereading pool accounts tick w w' → renewed w w'.
Proof.
  intros Hh [_ [Hu|(s & Ht & Htd)]]; exists tr; (split; [done|]); intros k; [left; by rewrite Hu|].
  destruct (Htd k) as [?|(_ & _ & _ & Hrow)]; [by left|right]. intros c Hc. rewrite Hrow in Hc.
  apply taken_ledger in Ht as (tr' & r & Hh' & Hin & Hat). rewrite Hh in Hh'.
  apply app_inv_head in Hh' as ->. exists r. by rewrite (row_ledger _ _ _ _ _ Hc).
Qed.

Definition extends (w w' : World) : Prop := ∃ tr, w'.1 = w.1 ++ tr.
#[export] Instance extends_preorder : PreOrder extends.
Proof.
  split; [intros w; exists []; by rewrite app_nil_r|].
  intros w1 w2 w3 [tr1 Hh1] [tr2 Hh2]. exists (tr1 ++ tr2). by rewrite Hh2, Hh1, app_assoc.
Qed.

Lemma world_step_extends w o w' : world_step debug_str (HttpError:=HttpError) w o w' → extends w w'.
Proof.
  destruct o; simpl; intros [Hh _]; [by eexists|..]; exists []; by rewrite app_nil_r.
Qed.

Definition renewing {R} (t : io (TrackE (HttpError:=HttpError)) R) : Prop :=
  ∀ w, holds_under w t (renewed w) (λ _ _, True).

Lemma renewing_ret {R} (r : R) : renewing (Ret r).
Proof. intros w. by apply under_ret. Qed.

Lemma renewing_after {R} (t : io (TrackE (HttpError:=HttpError)) R) w w1 :
  renewing t → renewed w w1 → holds_under w1 t (renewed w) (λ _ _, True).
Proof. intros Ht Hw. eapply under_weaken; [apply Ht| |done]. intros w2 Hw2. by etrans. Qed.

Lemma renewing_bind {A B} (t : io (TrackE (HttpError:=HttpError)) A)
    (k : A → io (TrackE (HttpError:=HttpError)) B) :
  renewing t → (∀ a, renewing (k a)) → renewing (ITree.bind t k).
Proof.
  intros Ht Hk w. eapply under_bind; [apply Ht|]. intros r w1 Hw _. by apply renewing_after.
Qed.

Lemma renewing_try {F A B} (t : io (TrackE (HttpError:=HttpError)) (result F A))
    (k : A → io (TrackE (HttpError:=HttpError)) (result F B)) :
  renewing t → (∀ a, renewing (k a)) → renewing (try_await t k).
Proof. intros Ht Hk. apply renewing_bind; [done|]. intros [a|e]; [apply Hk|apply renewing_ret]. Qed.

Lemma renewing_perform {A} (e : TrackE (HttpError:=HttpError) A) :
  (∀ w x w', world_step debug_str w (tracked _ e x) w' → quiet w w') → renewing (perform e).
Proof.
  intros He w. apply under_perform; [done|]. intros x w' Hs. split; [|done].
  by eapply quiet_renewed, He.
Qed.

Lemma renewing_refresh pool accounts tick : renewing (refresh pool accounts tick).
Proof.
  intros w. eapply under_weaken;
    [apply (under_keep _ _ extends); [apply world_step_extends|apply refresh_under]|..|done].
  intros w' [[tr Hh] Hr]. by eapply rereading_renewed.
Qed.

Lemma renewing_apply pool ledger event : renewing (apply pool ledger event).
Proof.
  intros w. eapply under_weaken;
    [apply (under_keep _ _ extends); [apply world_step_extends|apply apply_under]|..|done].
  intros w' [[tr Hh] [Hu _]]. exists tr. split; [done|]. intros k. left. by rewrite Hu.
Qed.

Lemma renewing_page_turn seed_ parse_page pool state :
  renewing (page_turn parse_page seed_ pool state).
Proof.
  destruct state as [[accounts cursor] pages]. apply renewing_bind; [by apply renewing_perform|].
  intros response. cbv zeta. destruct (let? response := _ in _) as [body|e]; [|apply renewing_ret].
  destruct (ap_next_cursor body); [|apply renewing_ret].
  destruct (_ <=? _); [apply renewing_ret|].
  apply renewing_bind; [by apply renewing_perform|intros; apply renewing_ret].
Qed.

Lemma renewing_sources parse_page pool sources : ∀ accounts failed,
  renewing (collect_sources parse_page pool sources accounts failed).
Proof.
  induction sources as [|source sources IH]; intros accounts failed; [apply renewing_ret|].
  apply renewing_bind; [|intros [found|e]; apply IH].
  destruct source as [seed_|seed_]; [|apply renewing_ret]. intros w.
  apply (under_iter _ _ (λ _ w', renewed w w')); [done| |done].
  intros state w' Hw. eapply under_weaken; [apply (renewing_page_turn seed_ parse_page pool state)|..].
  - intros w2 Hw2. by etrans.
  - intros [state'|r] w2 Hw2 _; [by etrans|done].
Qed.

Lemma renewing_chunks pool tick batches : ∀ outcome, renewing (seed_chunks pool tick batches outcome).
Proof.
  induction batches as [|chunk batches IH]; intros outcome; [apply renewing_ret|].
  apply renewing_bind; [by apply renewing_perform|]. intros [|]; [apply renewing_ret|].
  apply renewing_try; [apply renewing_refresh|intros; apply IH].
Qed.

Lemma renewing_seed parse_page pool sources tick batch :
  renewing (seed parse_page pool sources tick batch).
Proof.
  apply renewing_bind; [apply renewing_sources|]. intros [accounts failed]. apply renewing_chunks.
Qed.

Lemma extends_inv (w w' : World) tr1 tr2 : w'.1 = w.1 ++ tr1 → w'.1 = w.1 ++ tr2 → tr1 = tr2.
Proof. intros Ha Hb. rewrite Ha in Hb. by apply app_inv_head in Hb. Qed.

(** Accounts re-read at [T] or later are no longer behind it. *)
Lemma reread_behind pool accounts tick o w w' T tr :
  reread pool accounts tick o w w' → w'.1 = w.1 ++ tr → fresh T tr →
  behind pool T w'.2 ⊆ behind pool T w.2 ∖ keys_of pool accounts.
Proof.
  intros [(-> & Hu & _)|(s & Ht & _ & Hd & _)] Hh Hf k.
  - rewrite elem_of_difference, !elem_of_behind, elem_of_keys, Hu. intros Hk.
    split; [done|]. intros [_ Hin]. by apply elem_of_nil in Hin.
  - rewrite elem_of_difference, !elem_of_behind, elem_of_keys, (Hd k).
    intros (Hp & c & Hc & Hlt). case_bool_decide as Hin.
    + apply taken_ledger in Ht as (tr' & r & Hh' & Hr & Hat).
      rewrite (extends_inv _ _ _ _ Hh Hh') in Hf. unfold fresh in Hf. rewrite Forall_forall in Hf.
      specialize (Hf r Hr _ Hat). rewrite (row_ledger _ _ _ _ _ Hc) in Hlt. lia.
    + split; [by eauto|done].
Qed.

(** ** A tick's effect *)

Section cadence.
Context (cadence : Cadence).

Definition stale_before (tick : LedgerTick) : Z :=
  u32_saturating_sub (lt_sequence tick) (cd_user_refresh_ledgers cadence).

(** The accounts named were re-read; then the rows furthest behind were chosen,
    and those accounts were re-read. *)
Definition settled (pool : string) (accounts : list string) (tick : LedgerTick) (w w' : World) : Prop :=
  ∃ w1 w2 w3 us o1 o2,
    (renewed w w1 ∧ reread pool accounts tick o1 w w1) ∧ quiet w1 w2 ∧
    served debug_str (QUsersStale pool (stale_before tick) (cd_refresh_batch cadence)) w2.2 (Ok us) w2.2 ∧
    (renewed w2 w3 ∧ reread pool (map tu_account us) tick o2 w2 w3) ∧ quiet w3 w'.

Lemma settled_advances pool accounts tick w w' T tr :
  settled pool accounts tick w w' → T ≤ stale_before tick → w'.1 = w.1 ++ tr → fresh T tr →
  (size (behind pool T w'.2) ≤
   size (behind pool T w.2) - Z.to_nat (cd_refresh_batch cadence))%nat.
Proof.
  intros (w1 & w2 & w3 & us & o1 & o2 & [Hn1 _] & [Hh2 Ha2] & Hs & [Hn3 Hr3] & [Hh4 Ha4]) Hle Hh Hf.
  apply served_users_stale in Hs as [_ Hsel]. specialize (Hsel T Hle).
  pose proof Hn1 as (tr1 & Htr1 & _). pose proof Hn3 as (tr3 & Htr3 & _).
  assert (tr = tr1 ++ tr3) as ->.
  { eapply (extends_inv w w'); [done|]. by rewrite Hh4, Htr3, Hh2, Htr1, app_assoc. }
  apply fresh_app in Hf as [Hf1 Hf3].
  pose proof (fresh_behind T pool w w1 tr1 Hn1 Htr1 Hf1) as Hs1.
  pose proof (reread_behind _ _ _ _ _ _ T tr3 Hr3 Htr3 Hf3) as Hs3.
  rewrite <- Ha4. rewrite <- Ha2 in Hsel, Hs3.
  apply subseteq_size in Hs1, Hs3. lia.
Qed.

(** ** The task's world: the tracker's, and the acknowledgements given *)

Definition LoopWorld : Type := (World * list (string * LedgerTick))%type.

Definition loop_step (w : LoopWorld) (o : LoopObs (HttpError:=HttpError)) (w' : LoopWorld) : Prop :=
  match o with
  | OTrack o => world_step debug_str w.1 o w'.1 ∧ w'.2 = w.2
  | OAck pool tick => quiet w.1 w'.1 ∧ w'.2 = w.2 ++ [(pool, tick)]
  | _ => quiet w.1 w'.1 ∧ w'.2 = w.2
  end.

Abbreviation loop_under := (under (loop_log (HttpError:=HttpError)) loop_step).

Definition same_acks (w w' : LoopWorld) : Prop := w'.2 = w.2.
#[export] Instance same_acks_preorder : PreOrder same_acks.
Proof. split; [by intros w|]. intros w1 w2 w3. unfold same_acks. congruence. Qed.

Lemma track_under {A} (m : io (TrackE (HttpError:=HttpError)) A) w J Q :
  holds_under w.1 m J Q →
  loop_under w (track m) (λ w', w'.2 = w.2 ∧ J w'.1) (λ r w', w'.2 = w.2 ∧ Q r w'.1).
Proof.
  intros Hm. unfold track.
  apply (under_embed tracked loop_log LTrack OTrack (λ X e x, eq_refl)
    (world_step debug_str) loop_step fst same_acks); [|done].
  intros q o q' [Hs He]. by split.
Qed.

(** Calls that change nothing of the tracker's. *)
Definition calm (w w' : LoopWorld) : Prop := w'.2 = w.2 ∧ quiet w.1 w'.1.

Lemma calm_trans w1 w2 w3 : calm w1 w2 → calm w2 w3 → calm w1 w3.
Proof. intros [? ?] [? ?]. split; [congruence|by etrans]. Qed.

(** Rows renewed and nothing acknowledged. *)
Definition renewal (w w' : LoopWorld) : Prop := w'.2 = w.2 ∧ renewed w.1 w'.1.
#[export] Instance renewal_preorder : PreOrder renewal.
Proof.
  split; [by intros w|]. intros w1 w2 w3 [? ?] [? ?]. split; [congruence|by etrans].
Qed.

Lemma calm_renewal w w' : calm w w' → renewal w w'.
Proof. intros [? ?]. split; [done|by apply quiet_renewed]. Qed.

(** One call of a sequence, the rows renewed since its start. *)
Lemma then_try {F A B} (t : io LoopE (result F A)) (k : A → io LoopE (result F B)) w0 w P
    (Q : result F B → LoopWorld → Prop) :
  renewal w0 w → loop_under w t (renewal w) P →
  (∀ e w', renewal w0 w' → P (Err e) w' → Q (Err e) w') →
  (∀ a w', renewal w0 w' → P (Ok a) w' → loop_under w' (k a) (renewal w0) Q) →
  loop_under w (try_await t k) (renewal w0) Q.
Proof.
  intros Hw Ht He Hk. eapply (under_try _ _ _ _ _ _ P); [|done|done].
  eapply under_weaken; [exact Ht| |done]. intros w' Hr. by etrans.
Qed.

Lemma calm_call {A} (q : StoreE A) w :
  (∀ ties d, alike d (run_store debug_str ties q d).1) →
  loop_under w (track (store_call q)) (renewal w)
    (λ r w', calm w w' ∧
       match r with Ok a => ∃ d, alike w.1.2 d ∧ served debug_str q d (Ok a) w'.1.2 | Err _ => True end).
Proof.
  intros Hq.
  assert (∀ d r d', served debug_str q d r d' → alike d d') as Hserved.
  { intros d [a|e] d'; simpl.
    - intros (ties & _ & Hr). pose proof (Hq ties d) as Ha. by rewrite Hr in Ha.
    - intros [-> |(ties & _ & ->)]; [done|apply Hq]. }
  eapply under_weaken; [apply track_under, (store_call_under _ q _ (quiet w.1)
    (λ r w', quiet w.1 w' ∧ match r with
       | Ok a => ∃ d, alike w.1.2 d ∧ served debug_str q d (Ok a) w'.2 | Err _ => True end))|..].
  - done.
  - intros d r d' Ha Hs. assert (quiet w.1 (w.1.1, d')) by (split; [done|]; etrans; [done|by eapply Hserved]).
    split; [done|]. split; [done|]. destruct r; [by exists d|done].
  - intros w' ?. by apply calm_renewal.
  - intros r w' _ [? [? ?]]. done.
Qed.

Lemma calm_flags pool ledger accounts : ∀ w,
  loop_under w (flag_accounts pool accounts ledger) (renewal w) (λ _ w', calm w w').
Proof.
  induction accounts as [|a accounts IH]; intros w; [by apply under_ret|].
  cbn [flag_accounts]. eapply then_try; [done|apply calm_call|by intros e w' _ [? _]|].
  - intros ties d. split; [|done]. unfold user_view. simpl. apply map_eq. intros k.
    rewrite !lookup_fmap. destruct (decide (k = (pool, a))) as [->|Hk].
    + rewrite lookup_alter_eq. by destruct (db_users d !! (pool, a)).
    + by rewrite lookup_alter_ne.
  - intros [] w' Hw [Hc _]. eapply under_weaken; [apply IH|..]; intros *; [by etrans|].
    intros _ ?. by eapply calm_trans.
Qed.

Lemma calm_regauge pool w : loop_under w (regauge_users pool) (renewal w) (λ _ w', calm w w').
Proof.
  unfold regauge_users. eapply then_try; [done|by apply calm_call|by intros e w' _ [? _]|].
  intros n w' Hw [Hc _]. by apply under_ret.
Qed.

Lemma track_renewing {A} (m : io (TrackE (HttpError:=HttpError)) A) w :
  renewing m → loop_under w (track m) (renewal w) (λ _ w', renewal w w').
Proof.
  intros Hm. eapply under_weaken; [apply track_under, Hm|done|by intros r w' [? ?] _].
Qed.

Lemma track_refresh pool accounts tick w :
  loop_under w (track (refresh pool accounts tick)) (renewal w)
    (λ r w', match r with
      | Ok o => w'.2 = w.2 ∧ renewed w.1 w'.1 ∧ reread pool accounts tick o w.1 w'.1
      | Err _ => True end).
Proof.
  eapply under_weaken;
    [apply track_under, (under_keep _ _ extends); [apply world_step_extends|apply refresh_under]|..].
  - intros w' (Ha & [tr Hh] & Hr). split; [done|]. by eapply rereading_renewed.
  - intros [o|e] w' (Ha & [tr Hh] & Hr) (_ & _ & Hq); [|done]. split; [done|].
    split; [by eapply rereading_renewed|done].
Qed.

Lemma settle_tick_under pool accounts tick w :
  loop_under w (settle_tick cadence pool accounts tick) (renewal w)
    (λ r w', is_ok r = true → settled pool accounts tick w.1 w'.1).
Proof.
  unfold settle_tick. eapply then_try; [done|apply track_refresh|done|].
  intros o1 w1 Hw1 (Ha1 & Hn1 & Hr1). cbv beta.
  eapply then_try; [done|apply calm_flags|done|]. intros [] w2 Hw2 Hc2. cbv beta zeta.
  eapply then_try; [done|by apply calm_call|done|].
  intros us w3 Hw3 [Hc3 (d & Had & Hs)]. destruct (served_users_stale _ _ _ _ _ _ Hs) as [Heq _].
  rewrite <- Heq in Hs. eapply then_try; [done|apply track_refresh|done|].
  intros o2 w4 Hw4 (Ha4 & Hn4 & Hr4). cbv beta.
  assert (∀ w5, calm w4 w5 → settled pool accounts tick w.1 w5.1) as Hdone.
  { intros w5 [_ Hq5]. exists w1.1, w3.1, w4.1, us, o1, o2. split; [done|].
    split; [etrans; [by apply Hc2|by apply Hc3]|]. split; [done|]. by split. }
  eapply then_try; [done|apply calm_flags|done|]. intros [] w5 Hw5 Hc5. destruct (_ || _).
  - eapply under_weaken; [apply calm_regauge|..].
    + intros w' Hc. by etrans.
    + intros r w' _ Hc _. apply Hdone. by eapply calm_trans.
  - by apply under_ret; [|intros _; apply Hdone].
Qed.

(** ** Messages *)

Context (parse_page : string → result string AnalyticsPage) (seed_sources : list SeedSource).

Lemma seed_then_gauge pool tick w :
  loop_under w
    (await? outcome := track (seed parse_page pool seed_sources tick (cd_refresh_batch cadence)) in
     await? _ := regauge_users pool in Ret (Ok outcome))
    (renewal w) (λ _ w', renewal w w').
Proof.
  eapply then_try; [done|by apply track_renewing, renewing_seed|by intros e w' ? _|].
  intros outcome w1 Hw1 _. eapply then_try; [done|apply calm_regauge|by intros e w' ? _|].
  intros [] w2 Hw2 _. by apply under_ret.
Qed.

(** The part of the state a scan may change. *)
Definition reseeds (pool : string) (s s' : LoopState) : Prop := s' = s ∨ s' = clear_reseed pool s.

Lemma full_scan_under pool tick s w :
  loop_under w (full_scan parse_page seed_sources cadence pool tick s) (renewal w)
    (λ r _, reseeds pool s r.1).
Proof.
  unfold full_scan. eapply (under_bind _ _ _ _ _ _ (λ _ w', renewal w w')).
  { eapply then_try; [done|by apply calm_call|by intros e w' ? _|].
    intros us w1 Hw1 _. eapply under_weaken; [apply calm_regauge|..].
    - intros w2 ?. by etrans.
    - intros r w2 ? _. by etrans. }
  intros [[]|e] w1 Hw1 _; [|apply under_ret; [done|by left]].
  case_bool_decide; [|apply under_ret; [done|by left]].
  eapply (under_bind _ _ _ _ _ _ (λ _ w', renewal w w')).
  { eapply under_weaken; [apply seed_then_gauge|intros w2 ?; by etrans|intros r w2 ? _; by etrans]. }
  intros [outcome|e] w2 Hw2 _; (apply under_ret; [done|]); [|by left].
  destruct (_ =? 0); [by right|by left].
Qed.

(** The part of the state a tick's effect may change. *)
Definition scans (pool : string) (tick : LedgerTick) (s s' : LoopState) : Prop :=
  ∃ s1, reseeds pool s s1 ∧ (s' = s1 ∨ s' = set_last_scan pool (lt_sequence tick) s1).

Lemma apply_tick_under pool accounts tick s w :
  loop_under w (apply_tick parse_page seed_sources cadence pool accounts tick s) (renewal w)
    (λ r w', scans pool tick s r.1 ∧ (is_ok r.2 = true →
       ∃ w1, settled pool accounts tick w.1 w1 ∧ renewed w1 w'.1)).
Proof.
  unfold apply_tick. eapply under_bind; [apply settle_tick_under|].
  intros [[]|e] w1 Hw1 Hs; [|apply under_ret; [done|]].
  2: { split; [|done]. exists s. split; by left. }
  specialize (Hs eq_refl). destruct (scan_due _ _ _ _).
  - eapply (under_bind _ _ _ _ _ _ (λ r w', reseeds pool s r.1 ∧ renewed w1.1 w'.1)).
    { eapply under_weaken; [apply full_scan_under|intros w2 ?; by etrans|].
      intros r w2 [_ ?] ?. by split. }
    intros [s1 scanned] w2 Hw2 [Hr Hn]. apply under_ret; [done|]. simpl in Hr.
    destruct scanned as [u|[e|e|e]]; (split; [exists s1; split; [done|auto]|intros _; by exists w1.1]).
  - apply under_ret; [done|]. split; [exists s; split; by left|]. intros _. by exists w1.1.
Qed.

(** The accounts waiting for a pool's tick. *)
Definition waiting (pool : string) (lp : Loop) : list string :=
  set_iter (default ∅ (ls_pending (lp_state lp) !! pool)).

(** A tick of a pool with no event left unapplied, acknowledged once its effect
    is in the store. *)
Definition acknowledged (message : PollerMessage) (lp : Loop) (w w' : LoopWorld) : Prop :=
  ∃ pool tick w1, message = MTick pool tick ∧ (pool ∉ ls_unapplied (lp_state lp)) ∧
    settled pool (waiting pool lp) tick w.1 w1 ∧
    renewed w1 w'.1 ∧ w'.2 = w.2 ++ [(pool, tick)].

(** What handling a message leaves: at any point, and on its return. *)
Definition handling (message : PollerMessage) (lp : Loop) (w w' : LoopWorld) : Prop :=
  renewed w.1 w'.1 ∧ (w'.2 = w.2 ∨ acknowledged message lp w w').

Definition handled (message : PollerMessage) (lp : Loop) (w : LoopWorld)
    (r : Loop * result TrackerError ()) (w' : LoopWorld) : Prop :=
  match message, r with
  | MEvent pool ledger event, (lp', Ok _) =>
      booked pool ledger event w.1 w'.1 ∧ w'.2 = w.2 ∧
      lp' = with_state (add_pending pool (affected_accounts event)) lp
  | MEvent pool _ _, (lp', Err _) => w'.2 = w.2 ∧ lp' = with_state (mark_unapplied pool) lp
  | MTick pool tick, (lp', r) =>
      ∃ s1, scans pool tick (take_pending pool (lp_state lp)).2 s1 ∧
      match r with
      | Err _ => w'.2 = w.2 ∧ lp' = mkLoop (add_pending pool (waiting pool lp) s1) (lp_published lp)
      | Ok _ =>
          (∃ w1, settled pool (waiting pool lp) tick w.1 w1 ∧ renewed w1 w'.1) ∧
          if bool_decide (pool ∈ ls_unapplied (lp_state lp))
          then w'.2 = w.2 ∧ lp' = mkLoop s1 (lp_published lp)
          else w'.2 = w.2 ++ [(pool, tick)] ∧ lp' = publish tick (mkLoop s1 (lp_published lp))
      end
  | MGap pool _ _, (lp', r) =>
      w'.2 = w.2 ∧
      (lp' = with_state (owe_reseed pool) lp ∨
       is_ok r = true ∧ lp' = with_state (clear_reseed pool) (with_state (owe_reseed pool) lp))
  end.

Lemma quiet_step w (n : LoopNote) (J : LoopWorld → Prop) (Q : () → LoopWorld → Prop) :
  J w → (∀ w', calm w w' → J w' ∧ Q () w') →
  loop_under w (perform (LNotify n)) J Q.
Proof. intros HJ HQ. apply under_perform; [done|]. intros [] w' [Hq Ha]. by apply HQ. Qed.

Lemma handle_event_under pool ledger event lp w :
  loop_under w (handle_event pool ledger event lp) (renewal w)
    (handled (MEvent pool ledger event) lp w).
Proof.
  unfold handle_event.
  eapply (under_bind _ _ _ _ _ _ (λ r w', w'.2 = w.2 ∧ match r with
    | Ok accounts => accounts = affected_accounts event ∧ booked pool ledger event w.1 w'.1
    | Err _ => True end)).
  { eapply under_weaken; [apply track_under, (under_keep _ _ extends);
      [apply world_step_extends|apply apply_under]|..].
    - intros w' (Ha & [tr Hh] & Hu & _). split; [done|]. exists tr. split; [done|]. left. by rewrite Hu.
    - intros [accounts|e] w' _ (Ha & _ & Hr); done. }
  intros [accounts|e] w1 Hw1 [Ha1 Hr]; [destruct Hr as [-> Hb]|by apply under_ret].
  eapply (under_bind _ _ _ _ _ _ (λ _ w', calm w1 w')).
  - destruct event; try (apply under_ret; [done|by repeat split]).
    apply quiet_step; [done|]. intros w2 Hc. split; [|done]. etrans; [done|by apply calm_renewal].
  - intros [] w2 Hw2 [Ha2 [Hh2 Hal2]]. apply under_ret; [done|]. split; [|by split; [congruence|]].
    destruct Hb as (tr & found & Hh & Hr & Hv). exists tr, found. rewrite Hh2, <- Hal2. done.
Qed.

Lemma handle_tick_under pool tick lp w :
  loop_under w (handle_tick parse_page seed_sources cadence pool tick lp)
    (handling (MTick pool tick) lp w) (handled (MTick pool tick) lp w).
Proof.
  unfold handle_tick, take_pending.
  fold (waiting pool lp). set (s := mkLoopState _ _ _ _).
  eapply under_bind; [eapply under_weaken; [apply apply_tick_under|..]|].
  - intros w' [Ha Hn]. split; [done|by left].
  - intros r w' [Ha Hn] Hr. exact (conj Ha (conj Hn Hr)).
  - intros [s1 [[]|e]] w1 HJ (Ha1 & Hn1 & Hsc & Hset); simpl in Hsc, Hset.
    2: { apply under_ret; [done|]. exists s1. split; [done|]. by split. }
    destruct (Hset eq_refl) as (w0 & Hs0 & Hn0). cbv zeta. case_bool_decide as Hun.
    { apply under_ret; [done|]. exists s1. split; [done|]. split; [by exists w0|].
      by rewrite bool_decide_eq_true_2. }
    assert (∀ w', renewed w1.1 w'.1 → w'.2 = w.2 ++ [(pool, tick)] →
      handling (MTick pool tick) lp w w') as Hack.
    { intros w' Hn Ha. split; [by etrans|right]. exists pool, tick, w0. repeat split; try done.
      by etrans. }
    eapply (under_bind _ _ _ _ _ _ (λ _ w', renewed w1.1 w'.1 ∧ w'.2 = w.2 ++ [(pool, tick)])).
    { apply under_perform; [done|]. intros [] w2 [Hq Ha2]. rewrite Ha1 in Ha2.
      apply quiet_renewed in Hq. split; [by apply Hack|done]. }
    intros [] w2 HJ2 [Hn2 Ha2].
    eapply (under_bind _ _ _ _ _ _ (λ _ w', renewed w1.1 w'.1 ∧ w'.2 = w.2 ++ [(pool, tick)])).
    { destruct (_ <? _); [|by apply under_ret]. apply under_perform; [done|].
      intros [] w3 [Hq Ha3]. apply quiet_renewed in Hq.
      assert (renewed w1.1 w3.1) by (by etrans). rewrite Ha2 in Ha3. split; [by apply Hack|done]. }
    intros [] w3 HJ3 [Hn3 Ha3]. apply under_ret; [done|]. exists s1. split; [done|].
    split; [exists w0; split; [done|by etrans]|]. by rewrite bool_decide_eq_false_2.
Qed.

Lemma handle_gap_under pool from oldest lp w :
  loop_under w (handle_gap parse_page seed_sources cadence pool from oldest lp) (renewal w)
    (handled (MGap pool from oldest) lp w).
Proof.
  unfold handle_gap. eapply (under_bind _ _ _ _ _ _ (λ _ w', renewal w w')).
  { apply quiet_step; [done|]. intros w' Hc%calm_renewal. by split. }
  intros [] w1 Hw1 _. cbv zeta. eapply (under_bind _ _ _ _ _ _ (λ _ w', renewal w w')).
  - unfold head_tick. eapply (under_try _ _ _ _ _ _ (λ _ w', renewal w w')); [|done|].
    { eapply (under_bind _ _ _ _ _ _ (λ _ w', renewal w w')).
      - apply under_perform; [done|]. intros r w2 [Hq Ha].
        assert (renewal w w2) by (etrans; [done|by apply calm_renewal]). by split.
      - intros r w2 Hw2 _. by apply under_ret. }
    intros tick w2 Hw2 _. eapply under_weaken; [apply seed_then_gauge|..].
    + intros w3 ?. by etrans.
    + intros r w3 ? _. by etrans.
  - intros [outcome|e] w2 Hw2 _; (apply under_ret; [done|]); (split; [apply Hw2|]); [|by left].
    destruct (_ =? 0); [by right|by left].
Qed.

Lemma handle_message_under message lp w :
  loop_under w (handle_message parse_page seed_sources cadence message lp)
    (handling message lp w) (handled message lp w).
Proof.
  assert (∀ w', renewal w w' → handling message lp w w') as Hr by (intros w' [? ?]; split; [done|by left]).
  destruct message; simpl.
  - eapply under_weaken; [apply handle_event_under|exact Hr|done].
  - apply handle_tick_under.
  - eapply under_weaken; [apply handle_gap_under|exact Hr|done].
Qed.

(** ** The loop *)

Definition fatal (r : result TrackerError ()) : Prop := ∃ e, r = Err (TrStore e).

(** The task's world with every call it made. *)
Definition LogWorld : Type := (LoopWorld * list (LoopObs (HttpError:=HttpError)))%type.
Abbreviation loop_logged := (under (loop_log (HttpError:=HttpError)) (logged loop_step)).

(** What a message left, and what its calls say of the reseeds owed. *)
Definition concluded (message : PollerMessage) (lp : Loop) (w0 : LoopWorld)
    (tr : list (LoopObs (HttpError:=HttpError))) (r : Loop * result TrackerError ())
    (w : LoopWorld) : Prop :=
  handling message lp w0 w ∧ handled message lp w0 r w ∧
  reseeds_owed parse_page seed_sources cadence message lp tr r.

(** One message, received and handled without a store's failure. *)
Definition message_handled (p p' : Loop * LogWorld) : Prop :=
  ∃ message w0 tr r, calm p.2.1 w0 ∧ p'.2.2 = p.2.2 ++ ORecv (Some message) :: tr ∧
    concluded message p.1 w0 tr (p'.1, r) p'.2.1 ∧ ¬ fatal r.

(** A message being handled, after those before it. *)
Definition in_turn (lp : Loop) (w w' : LogWorld) : Prop :=
  ∃ lp1 w1, rtc message_handled (lp, w) (lp1, w1) ∧
    (calm w1.1 w'.1 ∨ ∃ message w0, calm w1.1 w0 ∧ handling message lp1 w0 w'.1).

Definition stopped (lp : Loop) (w : LogWorld) (r : result TrackerError ()) (w' : LogWorld) : Prop :=
  ∃ lp1 w1 w0, rtc message_handled (lp, w) (lp1, w1) ∧ calm w1.1 w0 ∧
    (r = Ok () ∧ w' = (w0, w1.2 ++ [ORecv None]) ∨
     fatal r ∧ ∃ message tr lp2, w'.2 = w1.2 ++ ORecv (Some message) :: tr ∧
       concluded message lp1 w0 tr (lp2, r) w'.1).

Lemma tracker_loop_under lp w :
  loop_logged w (tracker_loop parse_page seed_sources cadence lp) (in_turn lp w) (stopped lp w).
Proof.
  apply (under_iter _ _ (λ lp1 w1, rtc message_handled (lp, w) (lp1, w1))); [apply rtc_refl|..].
  2: { exists lp, w. split; [apply rtc_refl|left; by split]. }
  intros lp1 w1 Hrun. unfold tracker_turn.
  assert (∀ w0 message w', calm w1.1 w0 → handling message lp1 w0 w'.1 → in_turn lp w w') as Hin.
  { intros w0 message w' Hc Hh. exists lp1, w1. split; [done|right]. by exists message, w0. }
  eapply (under_bind _ _ _ _ _ _ (λ r w0, calm w1.1 w0.1 ∧ w0.2 = w1.2 ++ [ORecv r])).
  { apply under_perform; [exists lp1, w1; split; [done|left; by split]|].
    intros r w0 [[Hq Ha] Hh]. split; [|done]. exists lp1, w1. split; [done|by left]. }
  intros [message|] [w0 h] HJ [Hc Hh]; simpl in Hc, Hh; [|apply under_ret; [done|]].
  - eapply under_bind; [eapply under_weaken;
      [apply under_logged; [apply handle_message_under|apply handle_message_returns]|..]|].
    + intros w' [_ Hw']. by eapply Hin.
    + intros r w' [_ Hw'] Hr. exact (conj Hw' Hr).
    + intros [lp2 r] [w2 h2] HJ2 [Hw2 (tr & Htr & Hr & Ht)]. simpl in *.
      assert (h2 = w1.2 ++ ORecv (Some message) :: tr) as Hh2
        by (by rewrite Htr, Hh, <- app_assoc).
      assert (concluded message lp1 w0 tr (lp2, r) w2) as Hdone by (by split).
      apply under_ret; [done|].
      assert (¬ fatal r → rtc message_handled (lp, w) (lp2, (w2, h2))) as Hnext.
      { intros Hf. eapply rtc_r; [exact Hrun|]. by exists message, w0, tr, r. }
      destruct r as [u|[e|e|e]]; try (apply Hnext; by intros [e' ?]).
      exists lp1, w1, w0. split; [done|]. split; [done|]. right. split; [by exists e|].
      by exists message, tr, lp2.
  - exists lp1, w1, w0. split; [done|]. split; [done|]. left. by rewrite Hh.
Qed.

(** ** Rows brought up to date *)

Section drained.
Context (pool : string) (T : Z).

(** An acknowledgement whose stale pass reaches rows older than [T]. *)
Definition due (e : string * LedgerTick) : Prop := e.1 = pool ∧ T ≤ stale_before e.2.
#[export] Instance due_dec e : Decision (due e).
Proof. unfold due. apply _. Defined.

Definition advanced (w w' : LoopWorld) : Prop :=
  renewed w.1 w'.1 ∧ ∃ tr acks, w'.1.1 = w.1.1 ++ tr ∧ w'.2 = w.2 ++ acks ∧
    (fresh T tr →
     (size (behind pool T w'.1.2) ≤ size (behind pool T w.1.2) -
        Z.to_nat (cd_refresh_batch cadence) * length (filter due acks))%nat).

Lemma renewal_advanced w w' : renewal w w' → advanced w w'.
Proof.
  intros [Ha Hn]. split; [done|]. pose proof Hn as (tr & Hh & _). exists tr, [].
  rewrite app_nil_r. split; [done|]. split; [done|]. intros Hf. simpl.
  pose proof (fresh_behind T pool _ _ tr Hn Hh Hf) as Hs. apply subseteq_size in Hs. lia.
Qed.

#[export] Instance advanced_preorder : PreOrder advanced.
Proof.
  split; [intros w; by apply renewal_advanced|].
  intros w1 w2 w3 [Hn1 (tr1 & a1 & Hh1 & Ha1 & Hf1)] [Hn2 (tr2 & a2 & Hh2 & Ha2 & Hf2)].
  split; [by etrans|]. exists (tr1 ++ tr2), (a1 ++ a2).
  split; [by rewrite Hh2, Hh1, app_assoc|]. split; [by rewrite Ha2, Ha1, app_assoc|].
  intros [Hfr1 Hfr2]%fresh_app. specialize (Hf1 Hfr1). specialize (Hf2 Hfr2).
  rewrite filter_app, length_app. lia.
Qed.

Lemma handling_advances message lp w w' : handling message lp w w' → advanced w w'.
Proof.
  intros [Hn [Ha|(p & tick & w1 & -> & _ & Hs & Hn1 & Ha)]]; [by apply renewal_advanced|].
  split; [done|]. pose proof Hn as (tr & Hh & _). pose proof Hn1 as (tr1 & Hh1 & _).
  exists tr, [(p, tick)]. split; [done|]. split; [done|]. intros Hf.
  rewrite filter_cons, filter_nil. case_decide as Hd; simpl.
  2: { pose proof (fresh_behind T pool _ _ tr Hn Hh Hf) as Hb. apply subseteq_size in Hb. lia. }
  destruct Hd as [Hp Hle]. simpl in Hp, Hle. subst p.
  assert (∃ tr0, w1.1 = w.1.1 ++ tr0) as [tr0 Hh0].
  { destruct Hs as (v1 & v2 & v3 & us & o1 & o2 & [(ta & Ha1 & _) _] & [Hb1 _] & _ &
      [(tb & Ha2 & _) _] & [Hb2 _]). exists (ta ++ tb). by rewrite Hb2, Ha2, Hb1, Ha1, app_assoc. }
  assert (tr = tr0 ++ tr1) as ->.
  { eapply (extends_inv w.1 w'.1); [done|]. by rewrite Hh1, Hh0, app_assoc. }
  apply fresh_app in Hf as [Hf0 Hf1].
  pose proof (settled_advances _ _ _ _ _ T tr0 Hs Hle Hh0 Hf0) as Hsize.
  pose proof (fresh_behind T pool _ _ tr1 Hn1 Hh1 Hf1) as Hb. apply subseteq_size in Hb. lia.
Qed.

Lemma message_advances p p' : message_handled p p' → advanced p.2.1 p'.2.1.
Proof.
  intros (message & w0 & tr & r & Hc & _ & (Hh & _) & _). etrans; [by eapply renewal_advanced, calm_renewal|].
  by eapply handling_advances.
Qed.

Lemma in_turn_advances lp w w' : in_turn lp w w' → advanced w.1 w'.1.
Proof.
  intros (lp1 & w1 & Hrun & Hlast). trans w1.1.
  - change (advanced (lp, w).2.1 (lp1, w1).2.1). induction Hrun; [done|].
    etrans; [by apply message_advances|done].
  - destruct Hlast as [Hc|(message & w0 & Hc & Hh)]; [by apply renewal_advanced, calm_renewal|].
    etrans; [by eapply renewal_advanced, calm_renewal|]. by eapply handling_advances.
Qed.
End drained.

(** ** Endings *)

Section ending.
Context {W : Type}.

Lemma analytics_halts (answer : ∀ X : Type, TrackE (HttpError:=HttpError) X → W → X * W)
    seed_ pool w :
  halts tracked answer w (analytics_accounts parse_page seed_ pool).
Proof.
  apply (halts_iter _ _ (λ '(_, _, pages), Z.to_nat (SEED_PAGE_CAP - pages))).
  intros w1 [[accounts cursor] pages]. unfold page_turn. apply ends_call. cbv zeta.
  destruct (let? response := _ in _) as [body|e]; [|by apply ends_ret].
  destruct (ap_next_cursor body) as [next|]; [|by apply ends_ret].
  destruct (Z.leb_spec SEED_PAGE_CAP (pages + 1)); [by apply ends_ret|].
  apply ends_call, ends_ret. lia.
Qed.

Lemma seed_halts (answer : ∀ X : Type, TrackE (HttpError:=HttpError) X → W → X * W)
    pool sources tick batch w :
  halts tracked answer w (seed parse_page pool sources tick batch).
Proof.
  unfold seed. apply halts_bind.
  - generalize (∅ : gset string), 0. revert w.
    induction sources as [|source sources IH]; intros w accounts failed; [apply halts_ret|].
    apply halts_bind; [|intros w1 [found|e]; apply IH].
    destruct source; [apply analytics_halts|apply halts_ret].
  - intros w1 [accounts failed]. generalize (mkSeedOutcome (mkRefreshOutcome 0 0) failed false).
    generalize (chunks (Z.to_nat (batch `max` 1)) (set_iter accounts)). intros batches. revert w1.
    induction batches as [|chunk batches IH]; intros w1 outcome; [apply halts_ret|].
    apply halts_bind; [apply halts_perform|]. intros w2 [|]; [apply halts_ret|].
    apply halts_try; [apply refresh_halts|intros; apply IH].
Qed.

Context (answer : ∀ X : Type, LoopE (HttpError:=HttpError) X → W → X * W).

Lemma track_halts {A} (m : io (TrackE (HttpError:=HttpError)) A) w :
  (∀ answer : ∀ X : Type, TrackE X → W → X * W, halts tracked answer w m) →
  halts loop_log answer w (track m).
Proof. intros Hm. by apply (halts_translate tracked loop_log LTrack OTrack). Qed.

Lemma track_call_halts {A} (q : StoreE A) w : halts loop_log answer w (track (store_call q)).
Proof. apply track_halts. intros. apply store_call_halts. Qed.

Lemma regauge_halts pool w : halts loop_log answer w (regauge_users pool).
Proof. apply halts_try; [apply track_call_halts|intros; apply halts_ret]. Qed.

Lemma flags_halts pool accounts ledger : ∀ w,
  halts loop_log answer w (flag_accounts pool accounts ledger).
Proof.
  induction accounts as [|a accounts IH]; intros w; [apply halts_ret|].
  apply halts_try; [apply track_call_halts|intros; apply IH].
Qed.

Lemma settle_halts pool accounts tick w :
  halts loop_log answer w (settle_tick cadence pool accounts tick).
Proof.
  unfold settle_tick. cbv zeta.
  repeat (apply halts_try; [first [apply flags_halts|apply track_call_halts
    |apply track_halts; intros; apply refresh_halts]|intros ? ?]; cbv beta).
  destruct (_ || _); [apply regauge_halts|apply halts_ret].
Qed.

Lemma full_scan_halts pool tick s w :
  halts loop_log answer w (full_scan parse_page seed_sources cadence pool tick s).
Proof.
  unfold full_scan. apply halts_bind.
  { apply halts_try; [apply track_call_halts|intros; apply regauge_halts]. }
  intros w1 [[]|e]; [|apply halts_ret]. case_bool_decide; [|apply halts_ret].
  apply halts_bind; [|intros; apply halts_ret].
  apply halts_try; [apply track_halts; intros; apply seed_halts|]. intros w2 outcome.
  apply halts_try; [apply regauge_halts|intros; apply halts_ret].
Qed.

Lemma handle_message_halts message lp w :
  halts loop_log answer w (handle_message parse_page seed_sources cadence message lp).
Proof.
  destruct message as [pool ledger event|pool tick|pool from oldest]; simpl.
  - apply halts_bind; [apply track_halts; intros; apply apply_halts|].
    intros w1 [accounts|e]; [|apply halts_ret]. apply halts_bind; [|intros; apply halts_ret].
    destruct event; try apply halts_ret. apply halts_perform.
  - unfold handle_tick, take_pending. apply halts_bind.
    + unfold apply_tick. apply halts_bind; [apply settle_halts|]. intros w1 [[]|e]; [|apply halts_ret].
      destruct (scan_due _ _ _ _); [|apply halts_ret].
      apply halts_bind; [apply full_scan_halts|]. intros w2 [s r]. apply halts_ret.
    + intros w1 [s [[]|e]]; [|apply halts_ret]. cbv zeta. case_bool_decide; [apply halts_ret|].
      apply halts_bind; [apply halts_perform|]. intros w2 [].
      apply halts_bind; [destruct (_ <? _); [apply halts_perform|apply halts_ret]|].
      intros. apply halts_ret.
  - unfold handle_gap. apply halts_bind; [apply halts_perform|]. intros w1 []. cbv zeta.
    apply halts_bind; [|intros; apply halts_ret].
    apply halts_try; [apply halts_bind; [apply halts_perform|intros; apply halts_ret]|].
    intros w2 tick. apply halts_try; [apply track_halts; intros; apply seed_halts|]. intros w3 outcome.
    apply halts_try; [apply regauge_halts|intros; apply halts_ret].
Qed.
End ending.

(** ** Properties *)


(** C11: acknowledged ticks bring every row up to date. Whatever the messages, at
    any point of the task the rows of a pool that are behind ledger [T] are at
    most those at the start less a batch for every acknowledged tick of the
    pool whose stale pass reaches [T] — so [n] rows are gone after
    [n / batch] of them, rounded up — when the chain's answers are as of [T]
    or later. *)
Theorem stale_rows_drain (pool : string) (T : Z) (lp : Loop) (w : LoopWorld) :
  loop_under w (tracker_loop parse_page seed_sources cadence lp) (advanced pool T w) (λ _ _, True).
Proof.
  apply (unlogged_under _ _ _ []). eapply under_weaken; [apply tracker_loop_under| |done].
  intros w'. apply in_turn_advances.
Qed.
End cadence.
End world.
