(* ===== verification/Pipeline.v ===== *)
(** * The pollers and the tracker together ([src/ledger.rs], [src/service.rs])

    The tasks that follow the chain are one poller per pool and one tracker,
    joined by a channel of messages and by the acknowledgement every tick
    carries. A history of all of them is an interleaving of what each task's
    own trace records, in which the wires did what wires do. In every such
    history the cursor of a pool stands behind the store: whatever it has gone
    past was applied, and settled, first. *)

From stdpp Require Import sorting.
From S2P Require Import Prelude Fixed Auction Encode Chain Operations Decode Events Store.
From S2P Require Import Poller Io Rpc Snapshot Tracker TrackerLoop PollerContract.
Open Scope Z_scope.

(** ** What the tracker's trace says, round by round *)

Section rounds.
Context `{ScDecode} `{Json} {HttpError : Type}.
Context (parse_page : string → result string AnalyticsPage).
Context (seed_sources : list SeedSource) (cadence : Cadence).

Abbreviation loop_obs := (LoopObs (HttpError:=HttpError)).
Abbreviation log := (loop_log (HttpError:=HttpError)).

(** A message received, and what the tracker did before the next. *)
Abbreviation Round := (PollerMessage * list loop_obs)%type.

Definition receives (o : loop_obs) : bool := match o with ORecv (Some _) => true | _ => false end.

Definition round_trace (r : Round) : list loop_obs := ORecv (Some r.1) :: r.2.
Definition played (rs : list Round) : list loop_obs := rs ≫= round_trace.

Definition heard (tr : list loop_obs) : list PollerMessage :=
  omap (λ o, match o with ORecv m => m | _ => None end) tr.

Definition unheard (tr : list loop_obs) : Prop := Forall (λ o, receives o = false) tr.

(** An event's round: its handler booked its auction and found these accounts. *)
Definition applied_in (w : list loop_obs) (pool : string) (ledger : Z) (event : PoolEvent)
    (accounts : list string) : Prop :=
  ∃ u, u `prefix_of` w ∧ traces log (track (apply pool ledger event)) u (Some (Ok accounts)).

(** A tick's round, up to its acknowledgement: these accounts were settled. *)
Definition settled_in (w : list loop_obs) (pool : string) (tick : LedgerTick)
    (accounts : list string) : Prop :=
  ∃ u, u `prefix_of` w ∧ traces log (settle_tick cadence pool accounts tick) u (Some (Ok ())).

Definition ticks (pool : string) (m : PollerMessage) : Prop := ∃ tick, m = MTick pool tick.

Definition awaiting (pool : string) (lp : Loop) : gset string :=
  default ∅ (ls_pending (lp_state lp) !! pool).

(** Since its last tick, every event of the pool was applied and its accounts
    are among these. *)
Definition all_applied (pool : string) (rs : list Round) (accounts : gset string) : Prop :=
  ∀ rs1 ledger event w rs2, rs = rs1 ++ (MEvent pool ledger event, w) :: rs2 →
    Forall (λ r, ¬ ticks pool r.1) rs2 →
    ∃ found, applied_in w pool ledger event found ∧ (∀ a, a ∈ found → a ∈ accounts).

(** An acknowledgement within a round: the round is the tick's, it settled
    the accounts of every event since the tick before. *)
Definition acknowledged (past : list Round) (m : PollerMessage) (w : list loop_obs) : Prop :=
  ∀ w1 pool tick w2, w = w1 ++ OAck pool tick :: w2 →
    m = MTick pool tick ∧ ∃ accounts,
      settled_in w1 pool tick accounts ∧ all_applied pool past (list_to_set accounts).

Definition acknowledgements_hold (rs : list Round) : Prop :=
  ∀ past m w later, rs = past ++ (m, w) :: later → acknowledged past m w.

(** What a round leaves for the rounds after it. *)
Definition carries (m : PollerMessage) (w : list loop_obs) (lp lp' : Loop) : Prop :=
  ∀ pool, pool ∉ ls_unapplied (lp_state lp') → ¬ ticks pool m →
    (pool ∉ ls_unapplied (lp_state lp)) ∧ awaiting pool lp ⊆ awaiting pool lp' ∧
    (∀ ledger event, m = MEvent pool ledger event →
      ∃ found, applied_in w pool ledger event found ∧ (∀ a, a ∈ found → a ∈ awaiting pool lp')).

Definition no_ack (tr : list loop_obs) : Prop := ∀ pool tick, OAck pool tick ∉ tr.

(** ** A program that neither receives nor acknowledges *)

Definition inner (o : loop_obs) : Prop :=
  match o with ORecv _ | OAck _ _ => False | _ => True end.

Lemma inner_unheard tr : Forall inner tr → unheard tr.
Proof. intros Hf. apply (Forall_impl _ _ _ Hf). by intros []. Qed.

Lemma inner_no_ack tr : Forall inner tr → no_ack tr.
Proof. intros Hf pool tick Hin. rewrite Forall_forall in Hf. by apply Hf in Hin. Qed.

Lemma track_inner {A} (m : io (TrackE (HttpError:=HttpError)) A) : emits log inner (track m).
Proof. by apply (emits_translate tracked log LTrack OTrack). Qed.

Lemma regauge_inner pool : emits log inner (regauge_users pool).
Proof. apply emits_try; [apply track_inner|]. intros. apply emits_ret. Qed.

Lemma flag_inner pool accounts ledger : emits log inner (flag_accounts pool accounts ledger).
Proof.
  induction accounts as [|a accounts IH]; [apply emits_ret|].
  apply emits_try; [apply track_inner|done].
Qed.

Lemma settle_inner pool accounts tick : emits log inner (settle_tick cadence pool accounts tick).
Proof.
  unfold settle_tick. cbv zeta.
  repeat (apply emits_try; [first [apply flag_inner|apply track_inner]|intros ?]).
  destruct (_ || _); [apply regauge_inner|apply emits_ret].
Qed.

Lemma full_scan_inner pool tick s :
  emits log inner (full_scan parse_page seed_sources cadence pool tick s).
Proof.
  unfold full_scan. apply emits_bind.
  { apply emits_try; [apply track_inner|]. intros. apply regauge_inner. }
  intros [[]|e]; [|apply emits_ret]. case_bool_decide; [|apply emits_ret].
  apply emits_bind; [|intros; apply emits_ret]. apply emits_try; [apply track_inner|].
  intros outcome. apply emits_try; [apply regauge_inner|]. intros. apply emits_ret.
Qed.

Lemma loop_returns_any {A} (t : io (LoopE (HttpError:=HttpError)) A) : returns log t (λ _ _, True).
Proof. by intros n tr [r|]. Qed.

Lemma always_traces {A} (t : io (LoopE (HttpError:=HttpError)) A) :
  always log (λ tr o, traces log t tr o) t.
Proof. intros n tr o Hr. by exists n. Qed.

(** The full scan touches neither the marks nor the waiting accounts. *)
Definition same_waiting (s s' : LoopState) : Prop :=
  ls_pending s' = ls_pending s ∧ ls_unapplied s' = ls_unapplied s.

Lemma full_scan_waits pool tick s :
  returns log (full_scan parse_page seed_sources cadence pool tick s) (λ _ r, same_waiting s r.1).
Proof.
  unfold full_scan. apply (returns_bind _ _ _ (λ _ _, True)); [apply loop_returns_any|].
  intros [[]|e] tr1 _; [|by apply returns_ret]. case_bool_decide; [|by apply returns_ret].
  apply (returns_bind _ _ _ (λ _ _, True)); [apply loop_returns_any|].
  intros [outcome|e] tr2 _; apply returns_ret; [|done]. by destruct (_ =? 0).
Qed.

Lemma apply_tick_settles pool accounts tick s :
  always log (λ tr o, Forall inner tr ∧
    match o with
    | Some (s', r) => same_waiting s s' ∧ (r = Ok () → settled_in tr pool tick accounts)
    | None => True
    end) (apply_tick parse_page seed_sources cadence pool accounts tick s).
Proof.
  unfold apply_tick. eapply always_bind.
  - apply (always_and _ _ _ _ (settle_inner pool accounts tick) (always_traces _)).
  - by intros tr [Hi _].
  - intros [[]|e] tr1 [Hi Ht]; [|apply always_ret; rewrite app_nil_r; by split_and!].
    assert (∀ tr2, settled_in (tr1 ++ tr2) pool tick accounts) as Hs.
    { intros tr2. exists tr1. split; [by apply prefix_app_r|done]. }
    destruct (scan_due _ _ _ _); [|apply always_ret; rewrite app_nil_r; split_and!; try done].
    2: { intros _. rewrite <- (app_nil_r tr1). apply Hs. }
    eapply always_bind.
    + apply (always_and _ _ _ _ (full_scan_inner pool tick s) (full_scan_waits pool tick s)).
    + intros tr2 [Hi2 _]. split; [by apply Forall_app|done].
    + intros [s' r] tr2 [Hi2 [Hp Hu]]. simpl in Hp, Hu.
      apply always_ret; rewrite app_nil_r; (split; [by apply Forall_app|]); [done|].
      destruct r as [|[]]; (split; [by split|]); intros; done || apply Hs.
Qed.

(** One message handled: nothing else is received, an acknowledgement is the
    tick's after its settlement, and what waits is carried on. *)
Definition handles (m : PollerMessage) (lp : Loop) (tr : list loop_obs)
    (o : option (Loop * result TrackerError ())) : Prop :=
  unheard tr ∧
  (∀ w1 pool tick w2, tr = w1 ++ OAck pool tick :: w2 →
     m = MTick pool tick ∧ (pool ∉ ls_unapplied (lp_state lp)) ∧
     settled_in w1 pool tick (set_iter (awaiting pool lp))) ∧
  match o with Some (lp', _) => carries m tr lp lp' | None => True end.

Lemma handles_inner m lp tr o :
  Forall inner tr → match o with Some (lp', _) => carries m tr lp lp' | None => True end →
  handles m lp tr o.
Proof.
  intros Hi Hc. split; [by apply inner_unheard|]. split; [|done].
  intros w1 pool tick w2 ->. exfalso. eapply (inner_no_ack _ Hi pool tick).
  apply elem_of_app. right. by left.
Qed.

Lemma awaiting_add pool pool' accounts lp :
  awaiting pool (with_state (add_pending pool' accounts) lp) =
  if decide (pool = pool') then awaiting pool' lp ∪ list_to_set accounts else awaiting pool lp.
Proof.
  unfold awaiting. simpl. case_decide as Hp; [subst; by rewrite lookup_insert_eq|].
  by rewrite lookup_insert_ne by done.
Qed.

Lemma handle_event_handles pool ledger event lp :
  always log (handles (MEvent pool ledger event) lp) (handle_event pool ledger event lp).
Proof.
  unfold handle_event. eapply always_bind.
  - apply (always_and _ _ _ _ (track_inner (apply pool ledger event)) (always_traces _)).
  - intros tr [Hi _]. by apply handles_inner.
  - intros [accounts|e] tr1 [Hi Ht].
    2: { apply always_ret; rewrite app_nil_r; apply handles_inner; try done.
      intros q Hq _. simpl in Hq. apply not_elem_of_union in Hq as [Hne Hq].
      split; [done|]. split; [done|]. intros l e' [= -> _ _]. set_solver. }
    assert (∀ tr2, carries (MEvent pool ledger event) (tr1 ++ tr2) lp
      (with_state (add_pending pool accounts) lp)) as Hc.
    { intros tr2 q Hq _. split; [done|]. rewrite awaiting_add. split; [case_decide; set_solver|].
      intros l e' [= -> -> ->]. exists accounts. split.
      - exists tr1. split; [by apply prefix_app_r|done].
      - intros a Ha. rewrite decide_True by done. set_solver. }
    eapply (always_bind _ (λ tr _, Forall inner tr)).
    + destruct event; try (by apply emits_ret). by apply emits_perform.
    + intros tr2 Hi2. apply handles_inner; [by apply Forall_app|done].
    + intros [] tr2 Hi2. apply always_ret; rewrite app_nil_r;
        (apply handles_inner; [by apply Forall_app|]); [done|apply Hc].
Qed.

Lemma handle_gap_handles pool from oldest lp :
  always log (handles (MGap pool from oldest) lp)
    (handle_gap parse_page seed_sources cadence pool from oldest lp).
Proof.
  eapply always_weaken; [apply (always_and _ (λ tr _, Forall inner tr)
    (λ _ o, match o with Some r => same_waiting (lp_state lp) (lp_state r.1) | None => True end))|].
  - unfold handle_gap. apply emits_bind; [by apply emits_perform|]. intros [].
    apply emits_bind; [|intros; apply emits_ret].
    apply emits_try; [apply emits_bind; [by apply emits_perform|intros; apply emits_ret]|].
    intros tick. apply emits_try; [apply track_inner|]. intros outcome.
    apply emits_try; [apply regauge_inner|]. intros. apply emits_ret.
  - change (returns log (handle_gap parse_page seed_sources cadence pool from oldest lp)
      (λ _ r, same_waiting (lp_state lp) (lp_state r.1))).
    apply (returns_bind _ _ _ (λ _ _, True)); [apply loop_returns_any|]. intros [] tr1 _. cbv zeta.
    apply (returns_bind _ _ _ (λ _ _, True)); [apply loop_returns_any|].
    intros [outcome|e] tr2 _; apply returns_ret; [|done]. by destruct (_ =? 0).
  - intros tr o [Hi Ho]. apply handles_inner; [done|]. destruct o as [[lp' r]|]; [|done].
    destruct Ho as [Hp Hu]. cbn [fst] in Hp, Hu. intros q Hq _. unfold awaiting. rewrite Hp. rewrite Hu in Hq.
    by split_and!.
Qed.

Lemma ack_splits u v w1 pool tick pool' tick' w2 :
  no_ack u → no_ack v → u ++ OAck pool tick :: v = w1 ++ OAck pool' tick' :: w2 →
  w1 = u ∧ pool' = pool ∧ tick' = tick.
Proof.
  intros Hu Hv. revert w1. induction u as [|o u IH]; intros [|o' w1]; simpl.
  - by intros [= -> -> _].
  - intros [= <- ->]. exfalso. apply (Hv pool' tick'). apply elem_of_app. right. by left.
  - intros [= -> _]. exfalso. apply (Hu pool' tick'). by left.
  - intros [= -> Heq]. assert (no_ack u) as Hu' by (intros p t Hin; apply (Hu p t); by right).
    by destruct (IH Hu' _ Heq) as (-> & -> & ->).
Qed.

Lemma handles_acked pool tick lp u v o :
  (pool ∉ ls_unapplied (lp_state lp)) →
  Forall inner u → Forall inner v → settled_in u pool tick (set_iter (awaiting pool lp)) →
  match o with Some (lp', _) => carries (MTick pool tick) (u ++ OAck pool tick :: v) lp lp'
  | None => True end →
  handles (MTick pool tick) lp (u ++ OAck pool tick :: v) o.
Proof.
  intros Hun Hu Hv Hs Ho. split; [|split; [|done]].
  - apply Forall_app. split; [by apply inner_unheard|]. constructor; [done|by apply inner_unheard].
  - intros w1 p t w2 Heq. apply ack_splits in Heq as (-> & -> & ->);
      [done|by apply inner_no_ack..].
Qed.

Lemma tick_carries pool tick w lp s' tick' :
  same_waiting (take_pending pool (lp_state lp)).2 s' →
  carries (MTick pool tick) w lp (mkLoop s' tick').
Proof.
  intros [Hp Hu] q Hq Hne. assert (q ≠ pool) as Hqp by (intros ->; apply Hne; by eexists).
  unfold awaiting. simpl in *. rewrite Hp, lookup_delete_ne by done. rewrite Hu in Hq.
  split; [set_solver|]. split; [done|]. intros ledger event [=].
Qed.

Lemma carries_put_back pool tick w lp s' tick' accounts :
  same_waiting (take_pending pool (lp_state lp)).2 s' →
  carries (MTick pool tick) w lp (with_state (add_pending pool accounts) (mkLoop s' tick')).
Proof.
  intros Hs q Hq Hne. destruct (tick_carries pool tick w lp s' tick' Hs q Hq Hne) as (? & Ha & ?).
  split; [done|]. rewrite awaiting_add. split; [|intros ? ? [=]].
  case_decide as Heq; [|done]. exfalso. apply Hne. subst. by eexists.
Qed.

Lemma handle_tick_handles pool tick lp :
  always log (handles (MTick pool tick) lp)
    (handle_tick parse_page seed_sources cadence pool tick lp).
Proof.
  unfold handle_tick. destruct (take_pending pool (lp_state lp)) as [[accounts unapplied] s] eqn:Ht.
  assert (s = (take_pending pool (lp_state lp)).2) as Hs by by rewrite Ht.
  assert (unapplied = bool_decide (pool ∈ ls_unapplied (lp_state lp)) ∧
    accounts = set_iter (awaiting pool lp)) as [-> ->] by by injection Ht.
  eapply always_bind; [apply apply_tick_settles| |].
  { intros tr [Hi _]. by apply handles_inner. }
  intros [s' r] tr1 (Hi & Hsame & Hset). rewrite Hs in Hsame. destruct r as [[]|e].
  2: { apply always_ret; rewrite app_nil_r; apply handles_inner; try done.
    by apply carries_put_back. }
  cbv zeta. case_bool_decide as Hun.
  { apply always_ret; rewrite app_nil_r; apply handles_inner; try done. by apply tick_carries. }
  specialize (Hset eq_refl). cbn [lp_published].
  eapply (always_bind _ (λ tr o, tr = [] ∧ o = None ∨ tr = [OAck pool tick])).
  { apply always_perform; [by left|]. intros []. split; by right. }
  { intros tr [[-> _]| ->]; [rewrite app_nil_r; by apply handles_inner|].
    by apply handles_acked. }
  intros [] tr2 [[_ [=]]| ->].
  eapply (always_bind _ (λ tr _, Forall inner tr)).
  - destruct (_ <? _); [by apply emits_perform|apply emits_ret].
  - intros tr2 Hi2. simpl. by apply handles_acked.
  - intros [] tr2 Hi2. apply always_ret; rewrite app_nil_r; simpl; apply handles_acked; try done.
    unfold publish. destruct (_ <? _); by apply tick_carries.
Qed.

Lemma handle_message_handles m lp :
  always log (handles m lp) (handle_message parse_page seed_sources cadence m lp).
Proof.
  destruct m; [apply handle_event_handles|apply handle_tick_handles|apply handle_gap_handles].
Qed.

(** ** The loop *)

Lemma hold_snoc rs m w :
  acknowledgements_hold rs → acknowledged rs m w → acknowledgements_hold (rs ++ [(m, w)]).
Proof.
  intros Hrs Hw past m' w' later. destruct later as [|[m2 w2] later _] using rev_ind.
  - intros [-> [= <- <-]]%app_inj_tail. done.
  - rewrite app_comm_cons, app_assoc. intros [-> _]%app_inj_tail. by eapply Hrs.
Qed.

Lemma all_applied_snoc rs m w lp lp' :
  (∀ pool, pool ∉ ls_unapplied (lp_state lp) → all_applied pool rs (awaiting pool lp)) →
  carries m w lp lp' →
  ∀ pool, pool ∉ ls_unapplied (lp_state lp') → all_applied pool (rs ++ [(m, w)]) (awaiting pool lp').
Proof.
  intros Hrs Hc pool Hun rs1 ledger event w0 rs2.
  destruct rs2 as [|[m2 w2] rs2 _] using rev_ind.
  - intros [-> [= -> ->]]%app_inj_tail _. destruct (Hc pool Hun) as (_ & _ & He).
    { by intros [tick [=]]. }
    destruct (He ledger event eq_refl) as (found & Ha & Hin). by exists found.
  - rewrite app_comm_cons, app_assoc. intros [-> [= -> ->]]%app_inj_tail
      [Hrs2 [Hm _]%Forall_cons]%Forall_app. simpl in Hm.
    destruct (Hc pool Hun Hm) as (Hun' & Hsub & _).
    destruct (Hrs pool Hun' rs1 ledger event w0 rs2 eq_refl Hrs2) as (found & Ha & Hin).
    exists found. split; [done|]. intros a Ha'. by apply Hsub, Hin.
Qed.

Lemma played_snoc rs m w : played (rs ++ [(m, w)]) = played rs ++ ORecv (Some m) :: w.
Proof. unfold played. rewrite bind_app. simpl. by rewrite app_nil_r. Qed.

Definition settled_rounds (rs : list Round) : Prop :=
  Forall (λ r, unheard r.2) rs ∧ acknowledgements_hold rs.

Definition ready (lp : Loop) (rs : list Round) : Prop :=
  settled_rounds rs ∧
  ∀ pool, pool ∉ ls_unapplied (lp_state lp) → all_applied pool rs (awaiting pool lp).

Lemma round_settles lp rs m w o :
  ready lp rs → handles m lp w o → settled_rounds (rs ++ [(m, w)]) ∧
  match o with Some (lp', _) => ready lp' (rs ++ [(m, w)]) | None => True end.
Proof.
  intros [[Hun Hrs] Hall] (Hw & Hack & Ho).
  assert (settled_rounds (rs ++ [(m, w)])) as Hs.
  { split; [apply Forall_app; by split; [|constructor]|]. apply hold_snoc; [done|].
    intros w1 pool tick w2 Heq. destruct (Hack _ _ _ _ Heq) as (-> & Hp & Hset).
    split; [done|]. eexists. split; [exact Hset|].
    intros rs1 ledger event w0 rs2 Hsplit Hno.
    destruct (Hall pool Hp rs1 ledger event w0 rs2 Hsplit Hno) as (found & Ha & Hin).
    exists found. split; [done|]. intros a Hfound. apply elem_of_list_to_set. unfold set_iter.
    rewrite merge_sort_Permutation. by apply elem_of_elements, Hin. }
  split; [done|]. destruct o as [[lp' r]|]; [|done]. split; [done|].
  by apply (all_applied_snoc _ _ _ lp).
Qed.

(** A trace of the tracker's task is rounds; at the end the channel may have
    closed. *)
Definition in_rounds (tr : list loop_obs) : Prop :=
  ∃ rs gone, tr = played rs ++ gone ∧ (gone = [] ∨ gone = [ORecv None]) ∧ settled_rounds rs.

Lemma loop_in_rounds lp :
  always log (λ tr _, in_rounds tr) (tracker_loop parse_page seed_sources cadence lp).
Proof.
  unfold tracker_loop.
  apply (always_iter _ (λ lp tr, ∃ rs, tr = played rs ∧ ready lp rs)).
  { exists []. split; [done|]. split; [split; [constructor|]|].
    - intros past m w later. by destruct past.
    - intros pool _ rs1 ledger event w rs2. by destruct rs1. }
  clear lp. intros lp tr0 (rs & -> & Hrs).
  assert (∀ rs', settled_rounds rs' → in_rounds (played rs')) as Hin.
  { intros rs' Hs. exists rs', []. rewrite app_nil_r. split; [done|]. split; [by left|done]. }
  assert (in_rounds (played rs)) as Hhere by apply Hin, Hrs.
  unfold tracker_turn. eapply (always_bind _ (λ tr o, tr = [] ∧ o = None ∨
    ∃ m, tr = [ORecv m] ∧ (o = None ∨ o = Some m))).
  - apply always_perform; [by left|]. intros m. split; right; exists m; (split; [done|]); [by left|by right].
  - intros tr [[-> _]|(m & -> & _)]; [by rewrite app_nil_r|].
    destruct m as [m|]; [|exists rs, [ORecv None]; split_and!; [done|by right|apply Hrs]].
    rewrite <- (played_snoc rs m []). apply Hin. eapply (round_settles lp _ _ _ None); [done|].
    apply handles_inner; [constructor|done].
  - intros m tr1 [[_ [=]]|(m' & -> & [[=]|[= ->]])].
    destruct m' as [m'|].
    2: { assert (in_rounds (played rs ++ [ORecv None])) as Hend.
      { exists rs, [ORecv None]. split_and!; [done|by right|apply Hrs]. }
      by apply always_ret; rewrite app_nil_r. }
    eapply (always_bind _ (handles m' lp)); [apply handle_message_handles|..].
    + intros tr Hh. simpl. rewrite <- (played_snoc rs m' tr). apply Hin.
      by eapply (round_settles lp _ _ _ None).
    + intros [lp' r] tr Hh. pose proof (round_settles _ _ _ _ _ Hrs Hh) as [Hs Hr].
      apply Hin in Hs as Hq. rewrite (played_snoc rs m' tr) in Hq.
      apply always_ret; rewrite app_nil_r; simpl; [done|].
      destruct r as [|[]]; (split; [|done]); try done; exists (rs ++ [(m', tr)]);
        (split; [by rewrite played_snoc|done]).
Qed.
End rounds.

(** ** The wires *)

Section pipeline.
Context `{ScDecode} `{Json} {HttpError : Type}.
Context (parse_page : string → result string AnalyticsPage).
Context (seed_sources : list SeedSource) (cadence : Cadence).
Context (config : PollerConfig) (metrics notifier : bool).

Abbreviation loop_obs := (LoopObs (HttpError:=HttpError)).
Abbreviation poll_obs := (@Noted _ StoreError).
Abbreviation tracker_log := (loop_log (HttpError:=HttpError)).

Inductive Act : Type :=
| APoller (pool : string) (n : poll_obs)
| ATracker (o : loop_obs).

(** The channel: every message sent, how many of them the tracker has taken,
    the ones whose acknowledgement it has given, and the last each poller
    sent. *)
Record Channel : Type := mkChannel {
  ch_sent : list PollerMessage;
  ch_taken : nat;
  ch_acked : list nat;
  ch_last : gmap string nat;
}.

Definition channel_new : Channel := mkChannel [] 0 [] ∅.

(** What a task does on its own. *)
Definition local (a : Act) : bool :=
  match a with
  | APoller _ (NSend _ true) | APoller _ (NAck true) | ATracker (ORecv _) | ATracker (OAck _ _) => false
  | _ => true
  end.

(** The pollers' senders share one [mpsc] channel: first in, first out, and
    closed only once it is empty. The [oneshot] of a tick is told by the
    tracker while it handles that tick's message, and awaited by the poller
    that sent it last. *)
Inductive wire : Channel → Act → Channel → Prop :=
| w_send sent taken acked last pool m :
    wire (mkChannel sent taken acked last) (APoller pool (NSend m true))
      (mkChannel (sent ++ [m]) taken acked (<[pool := length sent]> last))
| w_recv sent taken acked last m :
    sent !! taken = Some m →
    wire (mkChannel sent taken acked last) (ATracker (ORecv (Some m)))
      (mkChannel sent (S taken) acked last)
| w_closed sent acked last :
    wire (mkChannel sent (length sent) acked last) (ATracker (ORecv None))
      (mkChannel sent (length sent) acked last)
| w_ack sent taken acked last pool tick :
    wire (mkChannel sent taken acked last) (ATracker (OAck pool tick))
      (mkChannel sent taken (pred taken :: acked) last)
| w_acked c pool i :
    ch_last c !! pool = Some i → i ∈ ch_acked c → wire c (APoller pool (NAck true)) c
| w_local c a : local a → wire c a c.

(** What each task did in a history. *)
Definition polled_by (pool : string) (a : Act) : option poll_obs :=
  match a with APoller p n => if decide (p = pool) then Some n else None | ATracker _ => None end.
Definition polled (pool : string) (h : list Act) : list poll_obs := omap (polled_by pool) h.

Definition tracker_act (a : Act) : option loop_obs :=
  match a with ATracker o => Some o | APoller _ _ => None end.
Definition tracked_acts (h : list Act) : list loop_obs := omap tracker_act h.

Definition sent_act (a : Act) : option PollerMessage :=
  match a with APoller _ (NSend m true) => Some m | _ => None end.
Definition sent (h : list Act) : list PollerMessage := omap sent_act h.

(** A history of the tasks: each does what its code does, the wires what they
    do, in whatever order the tasks are scheduled. *)
Record history (lp : Loop) (h : list Act) : Prop := {
  h_wires : ∃ c, steps wire channel_new h c;
  h_pollers : ∀ pool, ∃ o, traces noted (run pool config metrics notifier) (polled pool h) o;
  h_tracker : ∃ o, traces tracker_log
    (tracker_loop parse_page seed_sources cadence lp) (tracked_acts h) o;
}.

(** What a channel's state says of the history behind it. *)
Record wired (h : list Act) (c : Channel) : Prop := {
  wd_sent : ch_sent c = sent h;
  wd_heard : heard (tracked_acts h) = take (ch_taken c) (sent h);
  wd_taken : (ch_taken c ≤ length (sent h))%nat;
  wd_acked i : i ∈ ch_acked c → ∃ h1 pool tick h2, h = h1 ++ ATracker (OAck pool tick) :: h2 ∧
    pred (length (heard (tracked_acts h1))) = i;
  wd_last pool i : ch_last c !! pool = Some i → ∃ h1 m h2,
    h = h1 ++ APoller pool (NSend m true) :: h2 ∧ length (sent h1) = i ∧
    Forall (λ n, ∀ m, n ≠ NSend m true) (polled pool h2);
}.

Lemma sent_app h1 h2 : sent (h1 ++ h2) = sent h1 ++ sent h2.
Proof. apply omap_app. Qed.
Lemma polled_app pool h1 h2 : polled pool (h1 ++ h2) = polled pool h1 ++ polled pool h2.
Proof. apply omap_app. Qed.
Lemma tracked_acts_app h1 h2 : tracked_acts (h1 ++ h2) = tracked_acts h1 ++ tracked_acts h2.
Proof. apply omap_app. Qed.
Lemma heard_app (tr1 tr2 : list loop_obs) : heard (tr1 ++ tr2) = heard tr1 ++ heard tr2.
Proof. apply omap_app. Qed.

Lemma polled_nil_snoc pool h a :
  (∀ m, polled_by pool a ≠ Some (NSend m true)) →
  Forall (λ n, ∀ m, n ≠ NSend m true) (polled pool h) →
  Forall (λ n, ∀ m, n ≠ NSend m true) (polled pool (h ++ [a])).
Proof.
  intros Ha Hh. rewrite polled_app, Forall_app. split; [done|]. simpl.
  destruct (polled_by pool a) as [n|]; [|done]. constructor; [|done]. intros m ->. by eapply Ha.
Qed.

(** Whatever does not send or receive leaves the channel's account as it is. *)
Lemma wired_snoc h c a acked' :
  wired h c → sent_act a = None →
  match a with ATracker (ORecv (Some _)) => False | _ => True end →
  (∀ i, i ∈ acked' → i ∈ ch_acked c ∨
     (∃ pool tick, a = ATracker (OAck pool tick)) ∧ pred (ch_taken c) = i) →
  wired (h ++ [a]) (mkChannel (ch_sent c) (ch_taken c) acked' (ch_last c)).
Proof.
  intros [Hs Hh Ht Hk Hl] Hsa Ha Hacked.
  assert (sent (h ++ [a]) = sent h) as Hsent.
  { rewrite sent_app. simpl. by rewrite Hsa, app_nil_r. }
  split; simpl; rewrite ?Hsent; try done.
  - rewrite tracked_acts_app, heard_app, <- Hh. destruct a as [p n|[| |[m|]| | |]]; simpl;
      try done; by rewrite app_nil_r.
  - intros i [Hi|[(pool & tick & ->) <-]]%Hacked.
    + destruct (Hk i Hi) as (h1 & pool & tick & h2 & -> & Hn). exists h1, pool, tick, (h2 ++ [a]).
      by rewrite <- app_assoc.
    + exists h, pool, tick, []. split; [done|]. rewrite Hh, length_take. lia.
  - intros pool i Hi. destruct (Hl pool i Hi) as (h1 & m & h2 & -> & Hn & Hq).
    exists h1, m, (h2 ++ [a]). rewrite <- app_assoc. split_and!; [done..|].
    apply polled_nil_snoc; [|done]. intros m' Hm'. destruct a as [p n|]; [|done]. simpl in Hm'.
    case_decide; [|done]. injection Hm' as ->. done.
Qed.

Lemma wires_wired h c : steps wire channel_new h c → wired h c.
Proof.
  revert h c. apply (steps_invariant _ wired).
  { split; simpl; try done; intros; set_solver. }
  intros h c a c' _ Hw Hs.
  assert (∀ (acked' : list nat) i, i ∈ acked' → i ∈ acked' ∨
     (∃ pool tick, a = ATracker (OAck pool tick)) ∧ pred (ch_taken c) = i) as Hsame by by left.
  inversion Hs as [sent0 taken acked last pool m|sent0 taken acked last m Hm|sent0 acked last|
    sent0 taken acked last pool tick|c0 pool i Hl Hi|c0 a0 Hl]; subst.
  - destruct Hw as [Hsent Hh Ht Hk Hlast]. simpl in *. subst sent0. split; simpl.
    + by rewrite sent_app.
    + rewrite tracked_acts_app, heard_app, sent_app. simpl. rewrite app_nil_r, Hh.
      by rewrite take_app_le by done.
    + rewrite sent_app, length_app. lia.
    + intros i Hi. destruct (Hk i Hi) as (h1 & p & tick & h2 & -> & Hn).
      exists h1, p, tick, (h2 ++ [APoller pool (NSend m true)]). by rewrite <- app_assoc.
    + intros p i. destruct (decide (pool = p)) as [<-|Hne].
      * rewrite lookup_insert_eq. intros [= <-]. exists h, m, []. by split_and!.
      * rewrite lookup_insert_ne by done. intros Hi.
        destruct (Hlast p i Hi) as (h1 & m' & h2 & -> & Hn & Hq).
        exists h1, m', (h2 ++ [APoller pool (NSend m true)]). rewrite <- app_assoc.
        split_and!; [done..|]. apply polled_nil_snoc; [|done]. intros m2. simpl. by rewrite decide_False.
  - destruct Hw as [Hsent Hh Ht Hk Hlast]. simpl in *. subst sent0.
    assert (sent (h ++ [ATracker (ORecv (Some m))]) = sent h) as Hsame'.
    { rewrite sent_app. simpl. by rewrite app_nil_r. }
    split; simpl; rewrite ?Hsame'; [done|..].
    + rewrite tracked_acts_app, heard_app, Hh. simpl. by rewrite (take_S_r _ _ m).
    + by apply lookup_lt_Some in Hm.
    + intros i Hi. destruct (Hk i Hi) as (h1 & p & tick & h2 & -> & Hn).
      exists h1, p, tick, (h2 ++ [ATracker (ORecv (Some m))]). by rewrite <- app_assoc.
    + intros p i Hi. destruct (Hlast p i Hi) as (h1 & m' & h2 & -> & Hn & Hq).
      exists h1, m', (h2 ++ [ATracker (ORecv (Some m))]). rewrite <- app_assoc.
      split_and!; [done..|]. by apply polled_nil_snoc.
  - apply (wired_snoc h _ _ acked Hw); [done..|apply Hsame].
  - apply (wired_snoc h _ _ _ Hw); [done..|]. intros i [->|Hi]%elem_of_cons; [right|by left].
    split; [by eexists _, _|done].
  - destruct c'. apply (wired_snoc h _ _ _ Hw); [done..|apply Hsame].
  - destruct c'. apply (wired_snoc h _ _ _ Hw); [..|apply Hsame];
      destruct a as [p [| | | | |m []|[]| | | | |]|[| |[]| | |]]; done.
Qed.

(** ** Reading a history *)

(** The message a round is for, and whether its handler did all it had to. *)
Abbreviation Round := (PollerMessage * list loop_obs)%type.

Lemma unheard_heard (w : list loop_obs) : unheard w → heard w = [].
Proof.
  induction 1 as [|o w Ho _ IH]; [done|]. unfold heard in *. simpl.
  by destruct o as [| |[m'|]| | |].
Qed.

Lemma heard_round m (w : list loop_obs) : unheard w → heard (ORecv (Some m) :: w) = [m].
Proof. intros Hw. unfold heard. simpl. f_equal. by apply unheard_heard. Qed.

Lemma heard_played (rs : list Round) :
  Forall (λ r, unheard r.2) rs → heard (played rs) = rs.*1.
Proof.
  induction 1 as [|[m w] rs Hw _ IH]; [done|].
  change (played ((m, w) :: rs)) with ((ORecv (Some m) :: w) ++ played rs).
  by rewrite heard_app, IH, (heard_round m w Hw).
Qed.

(** An acknowledgement stands in one of the rounds. *)
Lemma ack_round (rs : list Round) gone tr1 pool tick tr2 :
  Forall (λ r, unheard r.2) rs → gone = [] ∨ gone = [ORecv None] →
  played rs ++ gone = tr1 ++ OAck pool tick :: tr2 →
  ∃ past m w1 w2 later, rs = past ++ (m, w1 ++ OAck pool tick :: w2) :: later ∧
    heard tr1 = past.*1 ++ [m].
Proof.
  intros Hrs Hgone. revert tr1. induction Hrs as [|[m w] rs Hw Hrs IH]; intros tr1.
  { simpl. destruct Hgone as [-> | ->]; [by destruct tr1|]. destruct tr1 as [|? [|]]; simpl; congruence. }
  change (played ((m, w) :: rs)) with (ORecv (Some m) :: w ++ played rs). simpl.
  destruct tr1 as [|o tr1]; simpl; [intros [=]|]. intros [= <- Heq].
  rewrite <- app_assoc in Heq. apply app_eq_app in Heq as (l & [[-> Heq]|[-> Heq]]).
  - destruct l as [|o l].
    { simpl in Heq. rewrite app_nil_r. symmetry in Heq. change (OAck pool tick :: tr2)
        with ([] ++ OAck pool tick :: tr2) in Heq.
      destruct (IH [] Heq) as (past & m' & w1 & w2 & later & -> & Hh). by destruct past. }
    simpl in Heq. injection Heq as <- ->. exists [], m, tr1, l, rs. split; [done|].
    simpl in Hw. apply Forall_app in Hw as [Hw _]. by apply heard_round.
  - destruct (IH l) as (past & m' & w1 & w2 & later & -> & Hh); [done|].
    exists ((m, w) :: past), m', w1, w2, later. split; [done|].
    change (m :: heard (w ++ l) = ((m, w) :: past).*1 ++ [m']).
    by rewrite heard_app, Hh, (unheard_heard w Hw).
Qed.

Lemma polled_splits pool h xs n ys :
  polled pool h = xs ++ n :: ys →
  ∃ h1 h2, h = h1 ++ APoller pool n :: h2 ∧ polled pool h1 = xs ∧ polled pool h2 = ys.
Proof.
  intros (h1 & a & h2 & -> & Hx & Ha & Hy)%omap_splits. exists h1, h2.
  destruct a as [p n'|]; [|done]. simpl in Ha. case_decide; [|done]. by simplify_eq.
Qed.

(** The events a poller delivered are among what was sent. *)
Lemma delivered_sent pool h : delivered (polled pool h) `sublist_of` sent h.
Proof.
  induction h as [|[p n|o] h IH]; simpl; [done| |done]. case_decide as Hp.
  - destruct n as [| | | | |[] []| | | | | |]; simpl; try done; try by constructor.
  - destruct n as [| | | | |m []| | | | | |]; simpl; try done. by constructor.
Qed.

(** Whatever of a pool is sent, its poller sent. *)
Lemma sent_own h part m :
  (∀ pool, ∃ o, traces noted (run pool config metrics notifier) (polled pool h) o) →
  part ⊆ h → m ∈ sent part → NSend m true ∈ polled (message_pool m) part.
Proof.
  intros Hpollers Hsub (a & Ha & Hm)%list_elem_of_omap.
  destruct a as [p [| | | | |m' []| | | | | |]|]; try done. simpl in Hm. injection Hm as ->.
  destruct (Hpollers p) as (o & n & Hr). apply run_follows in Hr as (q & Hs & _).
  apply run_own in Hs. rewrite Forall_forall in Hs.
  assert (∀ h', APoller p (NSend m true) ∈ h' → NSend m true ∈ polled p h') as Hin.
  { intros h' Hh'. apply list_elem_of_omap. exists (APoller p (NSend m true)). split; [done|].
    simpl. by rewrite decide_True. }
  specialize (Hs _ (Hin h (Hsub _ Ha))). simpl in Hs. rewrite Hs. by apply Hin.
Qed.

(** The acknowledgement a poller reads was given while the tracker handled the
    message that poller sent last. *)
Lemma last_send_unique pool h1 m h2 k1 n k2 :
  h1 ++ APoller pool (NSend m true) :: h2 = k1 ++ APoller pool (NSend n true) :: k2 →
  polled pool h2 = [] → Forall (λ o, ∀ m, o ≠ NSend m true) (polled pool k2) →
  k1 = h1 ∧ n = m.
Proof.
  intros Heq Hh Hk. apply app_eq_app in Heq as (l & [[-> Heq]|[-> Heq]]);
    destruct l as [|a l]; simpl in Heq; rewrite ?app_nil_r; try (by simplify_eq);
    injection Heq as <- ->; exfalso.
  - rewrite polled_app, Forall_app in Hk. destruct Hk as [_ Hk]. simpl in Hk.
    rewrite decide_True in Hk by done. apply Forall_cons in Hk as [Hk _]. by eapply Hk.
  - rewrite polled_app in Hh. apply app_eq_nil in Hh as [_ Hh]. simpl in Hh.
    by rewrite decide_True in Hh.
Qed.

Lemma ack_read h before pool after sent_before m quiet :
  (∃ c, steps wire channel_new h c) → h = before ++ APoller pool (NAck true) :: after →
  before = sent_before ++ APoller pool (NSend m true) :: quiet → polled pool quiet = [] →
  ∃ h1 p tick h2, before = h1 ++ ATracker (OAck p tick) :: h2 ∧
    pred (length (heard (tracked_acts h1))) = length (sent sent_before).
Proof.
  intros (c & Hs) -> Hbefore Hq. apply steps_split in Hs as (c1 & Hs1 & Hs).
  inversion Hs as [|? ? ? ? ? Hw _]; subst c1. clear Hs. apply wires_wired in Hs1 as Hwd.
  inversion Hw as [| | | |? ? i Hl Hi|? ? Hloc]; subst; [|done].
  destruct (wd_last _ _ Hwd _ _ Hl) as (h1 & m' & h2 & Heq & Hn & Hno).
  apply last_send_unique in Heq as [-> ->]; [|done..].
  destruct (wd_acked _ _ Hwd _ Hi) as (g1 & p & tick & g2 & Heq & Hlen).
  exists g1, p, tick, g2. split; [done|]. by rewrite Hlen.
Qed.

(** The rounds up to the one a message is handled in are for the messages
    sent before it. *)
Lemma round_of h before sent_before m sent_after rs gone h1 pool tick h2 :
  (∃ c, steps wire channel_new h c) → before `prefix_of` h →
  sent before = sent_before ++ m :: sent_after →
  tracked_acts before = played rs ++ gone → gone = [] ∨ gone = [ORecv None] → settled_rounds cadence rs →
  before = h1 ++ ATracker (OAck pool tick) :: h2 →
  pred (length (heard (tracked_acts h1))) = length sent_before →
  ∃ past w1 w2 later, rs = past ++ (m, w1 ++ OAck pool tick :: w2) :: later ∧
    past.*1 = sent_before.
Proof.
  intros (c & Hs) [rest ->] Hsent Htr Hgone [Hun _] Hb Hlen.
  apply steps_split in Hs as (c1 & Hs & _). apply wires_wired in Hs as Hwd.
  assert (heard (tracked_acts before) = rs.*1) as Hheard.
  { rewrite Htr, heard_app, heard_played by done. by destruct Hgone as [-> | ->]; rewrite app_nil_r. }
  pose proof (wd_heard _ _ Hwd) as Htake. rewrite Hheard, Hsent in Htake.
  assert (tracked_acts before = tracked_acts h1 ++ OAck pool tick :: tracked_acts h2) as Hsplit.
  { rewrite Hb. apply tracked_acts_app. }
  rewrite Htr in Hsplit.
  destruct (ack_round _ _ _ _ _ _ Hun Hgone Hsplit) as (past & m' & w1 & w2 & later & -> & Hh1).
  rewrite Hh1, length_app, length_fmap in Hlen. simpl in Hlen.
  assert (length past.*1 = length sent_before) as Hl by (rewrite length_fmap; lia).
  rewrite fmap_app in Htake. simpl in Htake.
  exists past, w1, w2, later.
  assert (S (length sent_before) ≤ ch_taken c1)%nat as Hlt.
  { apply (f_equal length) in Htake. rewrite length_app, length_take in Htake.
    cbn [length] in Htake. lia. }
  apply (f_equal (take (S (length sent_before)))) in Htake.
  rewrite take_take, Nat.min_l in Htake by done.
  rewrite (cons_middle m'), (cons_middle m), !app_assoc in Htake.
  rewrite !take_app_length' in Htake by (rewrite length_app; simpl; lia).
  apply app_inj_tail in Htake as [<- <-]. done.
Qed.

(** ** The property *)

(** An event's round: applied, its accounts among those the tick settled. *)
Definition lands (pool : string) (accounts : list string) (r : Round) : Prop :=
  ∃ ledger event found, r.1 = MEvent pool ledger event ∧
    applied_in r.2 pool ledger event found ∧ ∀ a, a ∈ found → a ∈ accounts.

(** The tracker's trace has the round of the tick, before it the rounds of
    these messages in order, each landed, and the tick settled them. *)
Definition in_the_store (tr : list loop_obs) (pool : string) (events : list PollerMessage)
    (tick : LedgerTick) : Prop :=
  ∃ past w later gone landed accounts,
    tr = played (past ++ (MTick pool tick, w) :: later) ++ gone ∧
    landed `sublist_of` past ∧ landed.*1 = events ∧ Forall (lands pool accounts) landed ∧
    settled_in cadence w pool tick accounts.

Lemma sublist_of_fmap {A B} (f : A → B) (l1 : list B) (l2 : list A) :
  l1 `sublist_of` f <$> l2 → ∃ l, l `sublist_of` l2 ∧ f <$> l = l1.
Proof.
  revert l1. induction l2 as [|a l2 IH]; intros l1; simpl.
  - intros ->%sublist_nil_r. by exists [].
  - intros [Hk|(k & -> & Hk)]%sublist_cons_r.
    + destruct (IH _ Hk) as (l & Hl & <-). exists l. split; [by constructor|done].
    + destruct (IH _ Hk) as (l & Hl & <-). exists (a :: l). split; [by constructor|done].
Qed.

(** Rounds of events since the pool's last tick have landed. *)
Lemma landed_since pool before_pass during landed accounts :
  all_applied pool (before_pass ++ during) (list_to_set accounts) →
  Forall (λ r, ¬ ticks pool r.1) during → landed `sublist_of` during →
  (∀ m, m ∈ landed.*1 → ∃ ledger event, m = MEvent pool ledger event) →
  Forall (lands pool accounts) landed.
Proof.
  intros Hall Hno Hsub Hev. apply Forall_forall. intros [m w] Hin.
  destruct (Hev m) as (ledger & event & ->).
  { apply list_elem_of_fmap. by exists (m, w). }
  assert ((MEvent pool ledger event, w) ∈ during) as Hd.
  { eapply elem_of_submseteq; [exact Hin|by apply sublist_submseteq]. }
  apply list_elem_of_split in Hd as (d1 & d2 & ->).
  destruct (Hall (before_pass ++ d1) ledger event w d2) as (found & Ha & Hf).
  { by rewrite <- app_assoc. }
  { by apply Forall_app in Hno as [_ [_ Hno]%Forall_cons]. }
  exists ledger, event, found. split; [done|]. split; [done|].
  intros a Hin'. by apply Hf, elem_of_list_to_set in Hin'.
Qed.

(** C2: the cursor never outruns the store. In every history of the pollers
    and the tracker, whatever the chain, the store and the scheduler do: when a
    poller writes its cursor, the tracker has by then handled every event of
    the ledgers the cursor goes past — in order, each one's auction booked — and
    then settled, at the head the cursor names, every account those events
    touched. *)
Theorem cursor_never_outruns_the_store (lp : Loop) (h before after : list Act)
    (pool name : string) (cursor : Cursor) (r : result StoreError ()) :
  history lp h → h = before ++ APoller pool (NSetCursor name cursor r) :: after →
  ∃ stored pass head start,
    committed pool config (polled pool before) name cursor stored pass head start ∧
    in_the_store (tracked_acts before) pool (messages pool (events_read (pages_read pass)))
      (tick_of head).
Proof.
  intros [Hwires Hpollers (ot & n & Htracker)] Hh.
  assert (∃ stored pass head start,
    committed pool config (polled pool before) name cursor stored pass head start)
    as (stored & pass & head & start & Hcommitted).
  { destruct (Hpollers pool) as (o & k & Hr). apply run_follows in Hr as (q & Hs & _).
    rewrite Hh, polled_app in Hs. simpl in Hs. rewrite decide_True in Hs by done.
    by apply write_committed in Hs. }
  exists stored, pass, head, start. split; [done|].
  destruct Hcommitted as ([earlier Hsince] & Hcaught & _).
  destruct Hcaught as (_ & _ & Hwithin & _ & _ & Hdelivered).
  apply polled_splits in Hsince as (H0h & rest & -> & _ & Hrest).
  replace (pass ++ [NSend (MTick pool (tick_of head)) true; NAck true])
    with (pass ++ NSend (MTick pool (tick_of head)) true :: [NAck true]) in Hrest by done.
  apply polled_splits in Hrest as (during & rest' & -> & Hduring & Hrest).
  apply (polled_splits _ _ []) in Hrest as (quiet & tail & -> & Hquiet & _).
  set (tick := MTick pool (tick_of head)) in *.
  set (sent_before := H0h ++ APoller pool (NCursor (events_cursor pool) (Ok stored)) :: during).
  set (before := H0h ++ APoller pool (NCursor (events_cursor pool) (Ok stored)) :: during ++
    APoller pool (NSend tick true) :: quiet ++ APoller pool (NAck true) :: tail) in *.
  assert (before = (sent_before ++ APoller pool (NSend tick true) :: quiet) ++
    APoller pool (NAck true) :: tail) as Hbefore.
  { unfold before, sent_before. by simplify_list_eq. }
  destruct (ack_read h (sent_before ++ APoller pool (NSend tick true) :: quiet) pool
    (tail ++ APoller pool (NSetCursor name cursor r) :: after) sent_before tick quiet)
    as (h1 & p & t & h2 & Hack & Hlen); try done.
  { rewrite Hh, Hbefore. by simplify_list_eq. }
  assert (in_rounds cadence (tracked_acts before)) as (rs & gone & Htr & Hgone & Hrs).
  { rewrite Hh, tracked_acts_app in Htracker. apply runs_prefix in Htracker.
    by apply loop_in_rounds in Htracker. }
  destruct (round_of h before (sent sent_before) tick (sent (quiet ++ APoller pool (NAck true) :: tail))
    rs gone h1 p t (h2 ++ APoller pool (NAck true) :: tail))
    as (past & w1 & w2 & later & -> & Hpast); try done.
  { rewrite Hh. by apply prefix_app_r. }
  { by rewrite Hbefore, <- app_assoc, sent_app. }
  { rewrite Hbefore, Hack, <- app_assoc. done. }
  destruct Hrs as [Hun Hhold].
  destruct (Hhold past tick (w1 ++ OAck p t :: w2) later eq_refl w1 p t w2 eq_refl)
    as ([= <- <-] & accounts & Hset & Hall).
  assert (sent sent_before = sent H0h ++ sent during) as Hsent.
  { unfold sent_before. by rewrite sent_app. }
  rewrite Hsent in Hpast. apply fmap_app_inv in Hpast as (past0 & past1 & Hp0 & Hp1 & ->).
  destruct (sublist_of_fmap fst (delivered (polled pool during)) past1) as (landed & Hl & Hlm).
  { rewrite <- Hp1. apply delivered_sent. }
  exists (past0 ++ past1), (w1 ++ OAck pool (tick_of head) :: w2), later, gone, landed, accounts.
  rewrite Hduring, Hdelivered in Hlm. split_and!; [done|by apply sublist_inserts_l|done| |].
  - apply (landed_since _ past0 past1); [done| |done|].
    + apply Forall_forall. intros [m w] Hin [t' Ht]. simpl in Ht. subst m.
      assert (MTick pool t' ∈ sent during) as Hsd.
      { rewrite Hp1. apply list_elem_of_fmap. by exists (MTick pool t', w). }
      apply (sent_own h) in Hsd; [|done|].
      2: { rewrite Hh. unfold before. intros a Ha. rewrite !elem_of_app, !elem_of_cons, elem_of_app. tauto. }
      simpl in Hsd. rewrite Hduring in Hsd. rewrite Forall_forall in Hwithin.
      by apply Hwithin in Hsd.
    + intros m Hm. rewrite Hlm in Hm. apply messages_are_events in Hm as Hev.
      pose proof (messages_own pool (events_read (pages_read pass))) as Hown.
      rewrite Forall_forall in Hown. apply Hown in Hm.
      destruct Hev as (p' & l & e & ->). simpl in Hm. subst p'. by exists l, e.
  - destruct Hset as (u & Hu & Ht). exists u. split; [by apply prefix_app_r|done].
Qed.
End pipeline.

(** ** A sample history *)

#[local] Instance sample_decode : ScDecode := tree_decode (λ _, None).

Definition sample_event : Event :=
  mkEvent 99 "e1" (mkTxHash []) "P" true [TSymbol "set_reserve"]
    (TVec [TAddress "XLM"; TU32 3]).

(** A poller whose pages hold one event, and whose every call succeeds. *)
Definition sample_polls (X : Type) (e : PollE (StoreError:=StoreError) X) : X :=
  match e in PollE X return X with
  | RpcHealth => Ok (mkHealth "healthy" 100 5000 1 1000)
  | RpcLatestLedger => Ok (mkLatestLedger 100 22 5000)
  | RpcEvents _ => Ok (mkEvents 100 None [sample_event])
  | StoreCursor _ => Ok (Some (mkCursor 98 None))
  | StoreSetCursor _ _ => Ok ()
  | ChannelSend _ => true
  | AwaitAck => true
  | MetricHeartbeat _ => ()
  | MetricLedgerHead _ _ => ()
  | NotifyRpcFailing _ _ _ => ()
  | StopFlag => false
  | Pause _ => Changed true true
  end.

(** A tracker over an empty database, and the messages it receives. *)
Definition sample_tracks (X : Type) (e : LoopE (HttpError:=()) X) (w : list PollerMessage * Db)
  : X * (list PollerMessage * Db) :=
  match e in LoopE X return X * (list PollerMessage * Db) with
  | LTrack _ e =>
      match e in TrackE X return X * (list PollerMessage * Db) with
      | TRead _ e =>
          (match e in ReadE X return X with
           | GetEntries _ => Err (CallHttp 503)
           | SimulateView _ => Err (CallHttp 503)
           end, w)
      | TStore _ q => let '(d, r) := run_store id id q w.2 in (r, (w.1, d))
      | THttpGet _ _ => (Err (), w)
      | TSleep _ => ((), w)
      | TShutdown => (false, w)
      end
  | LLatest => (Ok (mkLatestLedger 100 22 5000), w)
  | LRecv => match w.1 with [] => (None, w) | m :: ms => (Some m, (ms, w.2)) end
  | LNotify _ => ((), w)
  | LAck _ _ => ((), w)
  | LPublish _ => ((), w)
  end.

Definition sample_poller : list (@Noted _ StoreError) :=
  (drive noted (λ X e w, (sample_polls X e, w)) 100 ()
     (run "P" (poller_config_new 5) false false)).1.

Definition sample_lp : Loop := mkLoop (mkLoopState ∅ ∅ ∅ ∅) (mkLedgerTick 0 0).
Definition sample_cadence : Cadence := mkCadence 10 100 0 0 0.

Definition sample_tracker : list (LoopObs (HttpError:=())) :=
  (drive (loop_log (HttpError:=())) sample_tracks 100
     ([MEvent "P" 99 (EvSetReserve "XLM" 3); MTick "P" (mkLedgerTick 100 5000)], empty_db)
     (tracker_loop (λ _, Err EmptyString) [] sample_cadence sample_lp)).1.
Definition sample_before : list (Act (HttpError:=())) :=
  map (APoller "P") (take 7 sample_poller) ++ map ATracker (take 5 sample_tracker) ++
  map (APoller "P") (take 1 (drop 7 sample_poller)).

Definition sample_write : Act (HttpError:=()) :=
  APoller "P" (NSetCursor (events_cursor "P") (mkCursor 100 None) (Ok ())).

Lemma polled_poller pool p (l : list (@Noted _ StoreError)) :
  polled (HttpError:=()) pool (map (APoller p) l) = if decide (p = pool) then l else [].
Proof.
  induction l as [|n l IH]; simpl; [by case_decide|]. unfold polled in *.
  case_decide; [by rewrite IH|done].
Qed.

Lemma polled_tracker pool (l : list (LoopObs (HttpError:=()))) : polled pool (map ATracker l) = [].
Proof. by induction l. Qed.

Lemma tracked_poller p (l : list (@Noted _ StoreError)) :
  tracked_acts (HttpError:=()) (map (APoller p) l) = [].
Proof. by induction l. Qed.

Lemma tracked_tracker (l : list (LoopObs (HttpError:=()))) : tracked_acts (map ATracker l) = l.
Proof. induction l as [|o l IH]; [done|]. change (o :: tracked_acts (map ATracker l) = o :: l). by rewrite IH. Qed.

Lemma sample_wires : ∃ c, steps wire channel_new (sample_before ++ [sample_write]) c.
Proof.
  eexists. match goal with |- steps _ _ ?h _ => let h' := eval vm_compute in h in change h with h' end.
  repeat (eapply steps_cons; [first [apply w_local; reflexivity|apply w_send|by apply w_recv
    |apply w_ack|by eapply w_acked; [reflexivity|left]]|]).
  apply steps_nil.
Qed.

Lemma sample_poller_runs :
  ∃ n o, runs noted n (run "P" (poller_config_new 5) false false) sample_poller o.
Proof. eexists 100%nat, _. eapply drive_runs. apply surjective_pairing. Qed.

Lemma sample_tracker_runs :
  ∃ n o, runs (loop_log (HttpError:=())) n
    (tracker_loop (λ _, Err EmptyString) [] sample_cadence sample_lp) sample_tracker o.
Proof. eexists 100%nat, _. eapply drive_runs. apply surjective_pairing. Qed.

Lemma sample_poller_splits :
  sample_poller = (take 7 sample_poller ++ take 1 (drop 7 sample_poller) ++
    [NSetCursor (events_cursor "P") (mkCursor 100 None) (Ok ())]) ++ drop 9 sample_poller.
Proof. vm_compute. reflexivity. Qed.

Lemma sample_pipeline :
  history (λ _, Err EmptyString) [] sample_cadence (poller_config_new 5) false false sample_lp
    (sample_before ++ [sample_write]).
Proof.
  split; [apply sample_wires|..].
  - intros pool. exists None. unfold sample_before.
    rewrite !polled_app, !polled_poller, polled_tracker. cbn [polled omap list_omap polled_by sample_write].
    destruct (decide ("P"%string = pool)) as [<-|Hp]; [|exists 0%nat; apply runs_start].
    destruct sample_poller_runs as (n & o & Hr). rewrite sample_poller_splits in Hr.
    apply runs_prefix in Hr. exists n. by rewrite <- app_assoc.
  - destruct sample_tracker_runs as (n & o & Hr). exists None, n.
    rewrite <- (take_drop 5 sample_tracker) in Hr. apply runs_prefix in Hr.
    unfold sample_before. rewrite !tracked_acts_app, !tracked_poller, tracked_tracker.
    cbn. by rewrite !app_nil_r.
Qed.

Lemma cursor_never_outruns_the_store_witness :
  ∃ stored pass head start,
    committed "P" (poller_config_new 5) (polled "P" sample_before) (events_cursor "P")
      (mkCursor 100 None) stored pass head start ∧
    in_the_store sample_cadence (tracked_acts sample_before) "P"
      (messages "P" (events_read (pages_read pass))) (tick_of head).
Proof.
  exact (cursor_never_outruns_the_store _ _ _ _ _ _ sample_lp _ sample_before [] "P" _ _ _
    sample_pipeline eq_refl).
Defined.
