(* ===== verification/Auctioneer.v ===== *)
(** * The auctioneer ([src/auctioneer.rs])

    Who is liquidatable, what to do about it, and doing it: one snapshot per
    batch, one decision per borrower, the percent walked to one the contract
    accepts, the audit row before the submission. And the oracle scan, which
    flags the borrowers a price moved against. *)

From S2P Require Import Prelude Fixed Reserve Position Auction Encode Liquidation Chain Operations.
From S2P Require Import Decode Events Io Rpc Snapshot Store Submit Poller.
Open Scope Z_scope.

(** ** Data *)

Definition INVALID_LIQ_TOO_LARGE : Z := 1213.
Definition INVALID_LIQ_TOO_SMALL : Z := 1214.
Definition AUCTION_IN_PROGRESS : Z := 1212.

Inductive SkipReason : Type := Healthy | AuctionOpen | NoPlan | OwnAccount | NoLiabilities.

Inductive Decision : Type :=
| DLiquidate (plan : LiquidationPlan)
| DBadDebt
| DSkip (reason : SkipReason).

Record AuctioneerConfig : Type := mkAuctioneerConfig {
  ac_liquidation_health_factor : Z;
  ac_target_health_factor : Z;
  ac_plan_iterations : Z;
  ac_dry_run : bool;
  ac_own_addresses : gset string;
}.

Inductive Direction : Type := Up | Down.

Record PriceMove : Type := mkPriceMove { pm_asset : string; pm_direction : Direction }.

Record Reference : Type := mkReference { rf_price : Z; rf_set_at : Z }.

Record PriceWatch : Type := mkPriceWatch {
  pw_delta_bps : Z;
  pw_stale_after : Z;
  pw_references : gmap string (gmap string Reference);
}.

(** [PriceWatch::new]. *)
Definition price_watch_new (delta_bps stale_after : Z) : PriceWatch :=
  mkPriceWatch delta_bps stale_after ∅.

(** [moved_direction]. *)
Definition moved_direction (price reference threshold_bps : Z)
  : result MathError (option Direction) :=
  let? diff := ok_or (if reference <=? price then checked_sub price reference
                      else checked_sub reference price) Overflow in
  let? delta_bps := div_floor diff reference 10000 in
  if delta_bps <? threshold_bps then Ok None
  else Ok (Some (if reference <? price then Up else Down)).

(** [PriceWatch::moved]: one price against its reference. *)
Definition judge_price (self : PriceWatch) (now : Z)
    (state : gmap string Reference * list PriceMove) (entry : string * Z)
  : gmap string Reference * list PriceMove :=
  let '(references, moves) := state in
  let '(asset, price) := entry in
  match references !! asset with
  | None => (<[asset := mkReference price now]> references, moves)
  | Some reference =>
      match moved_direction price (rf_price reference) (pw_delta_bps self) with
      | Ok (Some direction) =>
          (<[asset := mkReference price now]> references, moves ++ [mkPriceMove asset direction])
      | Ok None =>
          let stale := if rf_set_at reference <=? now
                       then pw_stale_after self <=? now - rf_set_at reference else false in
          (if stale then <[asset := mkReference price now]> references else references, moves)
      | Err _ => (references, moves)
      end
  end.

(** [PriceWatch::moved]: the watch it leaves, and what it reports. *)
Definition moved_prices (self : PriceWatch) (pool : string) (prices : OraclePrices) (now : Z)
  : PriceWatch * list PriceMove :=
  let '(references, moves) :=
    foldl (judge_price self now) (default ∅ (pw_references self !! pool), [])
      (bt_iter (op_prices prices)) in
  (mkPriceWatch (pw_delta_bps self) (pw_stale_after self)
     (<[pool := references]> (pw_references self)), moves).

Section auctioneer.
Context `{ScDecode} `{Json}.

Record CreationOutcome : Type := mkCreationOutcome {
  co_kind : CreationKind;
  co_account : string;
  co_percent : option FillPercent;
  co_simulated : bool;
  co_creation_id : Z;
  co_dry_run : bool;
  co_submission : option TxOutcome;
}.

Inductive ActOutcome : Type :=
| ActSkipped (reason : SkipReason)
| ActRefused
| ActRecorded (outcome : CreationOutcome).

(** [ActOutcome::settled]. *)
Definition settled_act (self : ActOutcome) : bool :=
  match self with
  | ActSkipped _ => true
  | ActRefused => false
  | ActRecorded outcome =>
      match co_submission outcome with
      | Some (TxSucceeded _ _ _) => true
      | Some _ => false
      | None => co_dry_run outcome
      end
  end.

Inductive AuctioneerError : Type :=
| AeChain (e : ChainError)
| AeStore (e : StoreError)
| AeMath (e : MathError)
| AeQueue (e : QueueError).

(** ** The calls *)

Inductive AuctNote : Type :=
| AuctionCreated (pool account : string) (percent : option Z) (ledger : Z)
| BadDebtReported (pool account : string) (ledger : Z)
| SubmissionDropped (pool account : string) (error : ChainError).

(** The chain's reads, the write path's, the store, the queue, and what the
    task around it asks: the shutdown flag, the tick watch, the notifier. *)
Variant AuctE : Type → Type :=
| ARead (X : Type) (e : ReadE X) : AuctE X
| ANet (X : Type) (e : NetE X) : AuctE X
| AStore (A : Type) (q : StoreE A) : AuctE (result StoreError A)
| AEnqueue (submission : Submission) : AuctE (result QueueError TxOutcome)
| AShutdown : AuctE bool
| AChanged : AuctE bool
| ATick : AuctE LedgerTick
| ANotify (n : AuctNote) : AuctE ().

Inductive AuctObs : Type :=
| BRead (r : Read)
| BNet (s : Seen)
| BStore (A : Type) (q : StoreE A) (r : result StoreError A)
| BEnqueue (submission : Submission) (r : result QueueError TxOutcome)
| BShutdown (b : bool)
| BChanged (b : bool)
| BTick (tick : LedgerTick)
| BNotify (n : AuctNote).

Definition auct_log (X : Type) (e : AuctE X) : X → AuctObs :=
  match e in AuctE X return X → AuctObs with
  | ARead _ e => λ x, BRead (read _ e x)
  | ANet _ e => λ x, BNet (seen _ e x)
  | AStore _ q => BStore _ q
  | AEnqueue submission => BEnqueue submission
  | AShutdown => BShutdown
  | AChanged => BChanged
  | ATick => BTick
  | ANotify n => λ _, BNotify n
  end.

Abbreviation prog A := (io AuctE (result AuctioneerError A)).

Definition auct_read {A : Type} (m : io ReadE (result ChainError A)) : prog A :=
  await r := translate ARead m in Ret (map_err AeChain r).
Definition auct_store {A : Type} (q : StoreE A) : prog A :=
  await r := perform (AStore A q) in Ret (map_err AeStore r).

(** [Auctioneer]: its configuration, and [Submitter::source] with its own when
    a key is configured. *)
Record Auctioneer : Type := mkAuctioneer {
  au_config : AuctioneerConfig;
  au_submitter : option (string * TxConfig);
}.

Context (self : Auctioneer).

(** ** Deciding *)

(** [Auctioneer::is_own_account]. *)
Definition is_own_account (pool account : string) : bool :=
  bool_decide (account = pool) || bool_decide (account ∈ ac_own_addresses (au_config self)).

(** [Auctioneer::decide_one], after the store was asked: the borrower's values
    against the thresholds. *)
Definition judge_position (account : string) (snapshot : PoolSnapshot)
    (reserves : gmap Z Reserve) (data : PositionData) : result AuctioneerError Decision :=
  if (0 <? liability_base data) && (collateral_raw data =? 0) then Ok DBadDebt
  else
    let? health := map_err AeMath (health_factor data) in
    match health with
    | None => Ok (DSkip NoLiabilities)
    | Some health =>
        let? normalized := map_err AeMath (mul_floor health SCALAR_7 (pd_scalar data)) in
        if ac_liquidation_health_factor (au_config self) <? normalized then Ok (DSkip Healthy)
        else
          match ps_positions snapshot !! account with
          | None => Ok (DSkip NoLiabilities)
          | Some positions =>
              let? (collateral, liabilities) :=
                map_err AeMath (position_values reserves (ps_prices snapshot) positions) in
              let? plan := map_err AeMath (default (Ok None)
                (plan_liquidation data collateral liabilities
                   (ac_target_health_factor (au_config self))
                   (pc_max_positions (pi_config (ps_instance snapshot))))) in
              Ok (match plan with Some plan => DLiquidate plan | None => DSkip NoPlan end)
          end
    end.

(** [Auctioneer::decide_one]. *)
Definition decide_one (pool account : string) (snapshot : PoolSnapshot)
    (reserves : gmap Z Reserve) (valued_at : Z) : prog Decision :=
  if is_own_account pool account then Ret (Ok (DSkip OwnAccount))
  else
    await? open := auct_store (QAuction pool account UserLiquidation) in
    match open with
    | Some _ => Ret (Ok (DSkip AuctionOpen))
    | None =>
        await? data := Ret (map_err AeChain (Snapshot.position_data snapshot account valued_at)) in
        Ret (match data with
             | None => Ok (DSkip NoLiabilities)
             | Some data => judge_position account snapshot reserves data
             end)
    end.

(** The loop of [Auctioneer::decide]: the slot of a borrower that cannot be
    decided stays empty, and only the store's failure ends it. *)
Fixpoint decide_each (pool : string) (accounts : list string) (snapshot : PoolSnapshot)
    (reserves : gmap Z Reserve) (valued_at : Z) : prog (list (option Decision)) :=
  match accounts with
  | [] => Ret (Ok [])
  | account :: accounts =>
      await decided := decide_one pool account snapshot reserves valued_at in
      match decided with
      | Err (AeStore error) => Ret (Err (AeStore error))
      | _ =>
          await? slots := decide_each pool accounts snapshot reserves valued_at in
          Ret (Ok (match decided with Ok decision => Some decision | Err _ => None end :: slots))
      end
  end.

(** The decisions in the order of the users: an own account's was known, the
    others' fill the slots left for them. *)
Fixpoint in_order (pool : string) (accounts : list string) (slots : list (option Decision))
  : list (string * Decision) :=
  match accounts with
  | [] => []
  | account :: accounts =>
      if is_own_account pool account
      then (account, DSkip OwnAccount) :: in_order pool accounts slots
      else
        match slots with
        | Some decision :: slots => (account, decision) :: in_order pool accounts slots
        | None :: slots => in_order pool accounts slots
        | [] => in_order pool accounts []
        end
  end.

(** [Auctioneer::decide]. *)
Definition decide (pool : string) (users : list TrackedUser) (tick : LedgerTick)
  : prog (list (string * Decision)) :=
  let all := map tu_account users in
  let accounts := filter (λ account, is_own_account pool account = false) all in
  match all, accounts with
  | [], _ => Ret (Ok [])
  | _, [] => Ret (Ok (in_order pool all []))
  | _, _ =>
      await? snapshot := auct_read (Snapshot.snapshot pool accounts) in
      let valued_at := valued_at snapshot (lt_close_time tick) in
      await? reserves := Ret (map_err AeMath (accrued_reserves snapshot valued_at)) in
      await? slots := decide_each pool accounts snapshot reserves valued_at in
      Ret (Ok (in_order pool all slots))
  end.

(** ** Acting *)

(** [Auctioneer::accept_bad_debt]: whether it was simulated; none to skip. *)
Definition accept_bad_debt (operation : Operation) : prog (option bool) :=
  match au_submitter self with
  | None => Ret (Ok (Some false))
  | Some (source, config) =>
      await judgment := translate ANet (simulate_only config operation) in
      Ret (let? judgment := map_err AeChain judgment in
           Ok (match judgment with
               | Accepted => Some true
               | Submit.Refused _ _ | NeedsRestore => None
               end))
  end.

(** [Auctioneer::adopt]. *)
Definition adopt (pool account : string) : prog () :=
  await found := translate ARead (read_auction pool account UserLiquidation) in
  match found with
  | Ok (Some (at_, auction)) =>
      auct_store (QUpsertAuction (mkTrackedAuction pool account UserLiquidation (block auction)
        None None (bid auction) (lot auction) at_))
  | Ok None | Err _ => Ret (Ok ())
  end.

(** [Auctioneer::refuse_percent]. *)
Definition refuse_percent (pool account : string) (contract_error : option Z)
  : prog (option (FillPercent * Operation * bool)) :=
  await? _ := (if bool_decide (contract_error = Some AUCTION_IN_PROGRESS)
               then adopt pool account else Ret (Ok ())) in
  Ret (Ok None).

Definition build_auction (pool account : string) (plan : LiquidationPlan) (percent : FillPercent)
  : result AuctioneerError Operation :=
  map_err (λ e, AeChain (XdrFailure e))
    (new_auction_op pool account (plan_bid plan) (plan_lot plan) percent).

(** One percent up, or down, while it stays in range. *)
Definition step_percent (step : option Z) : option FillPercent :=
  match step with
  | Some value =>
      match fill_percent_try_from (X:=XdrLibraryError) value with Ok p => Some p | Err _ => None end
  | None => None
  end.

(** [Auctioneer::accept_percent]: the loop, [iterations] at most. *)
Fixpoint walk_percent (pool account : string) (plan : LiquidationPlan) (config : TxConfig)
    (iterations : nat) (percent : FillPercent) : prog (option (FillPercent * Operation * bool)) :=
  match iterations with
  | O => Ret (Ok None)
  | S iterations =>
      await? operation := Ret (build_auction pool account plan percent) in
      await judgment := translate ANet (simulate_only config operation) in
      match judgment with
      | Err e => Ret (Err (AeChain e))
      | Ok Accepted => Ret (Ok (Some (percent, operation, true)))
      | Ok (Submit.Refused contract_error _) =>
          if bool_decide (contract_error = Some INVALID_LIQ_TOO_SMALL) then
            match step_percent (u32_checked_add (fp_get percent) 1) with
            | Some next => walk_percent pool account plan config iterations next
            | None => Ret (Ok None)
            end
          else if bool_decide (contract_error = Some INVALID_LIQ_TOO_LARGE) then
            match step_percent (u32_checked_sub (fp_get percent) 1) with
            | Some next => walk_percent pool account plan config iterations next
            | None => Ret (Ok None)
            end
          else refuse_percent pool account contract_error
      | Ok NeedsRestore => Ret (Ok None)
      end
  end.

Definition accept_percent (pool account : string) (plan : LiquidationPlan)
  : prog (option (FillPercent * Operation * bool)) :=
  match au_submitter self with
  | None =>
      Ret (let? operation := build_auction pool account plan (plan_percent plan) in
           Ok (Some (plan_percent plan, operation, false)))
  | Some (_, config) =>
      walk_percent pool account plan config (Z.to_nat (ac_plan_iterations (au_config self)))
        (plan_percent plan)
  end.

(** The [Debug] name of a creation's kind, as the submission's label has it. *)
Definition kind_debug (kind : CreationKind) : string :=
  match kind with CreatedAuction => "Auction" | CreatedBadDebt => "BadDebt" end.

Definition creation_submission (record : CreationRecord) (operation : Operation) : Submission :=
  mkSubmission operation Normal
    (String.concat "" [kind_debug (cr_kind record); " "; cr_account record; " on "; cr_pool record])
    CREATION_RETRIES.

(** [Auctioneer::submit_recorded]. *)
Definition submit_creation (creation_id : Z) (record : CreationRecord) (operation : Operation)
  : prog TxOutcome :=
  await sent := perform (AEnqueue (creation_submission record operation)) in
  match sent with
  | Err e => Ret (Err (AeQueue e))
  | Ok outcome =>
      await? _ := auct_store (QAttachCreationTx creation_id (to_hex (outcome_hash outcome))) in
      Ret (Ok outcome)
  end.

(** What [act] prepares: the operation judged, and the fields of its row. *)
Definition prepare_creation (pool account : string) (decision : Decision)
  : prog (SkipReason + option (CreationKind * option FillPercent * list string * list string *
                               Operation * bool)) :=
  match decision with
  | DSkip reason => Ret (Ok (inl reason))
  | DBadDebt =>
      await? operation := Ret (map_err (λ e, AeChain (XdrFailure e)) (bad_debt_op pool account)) in
      await? simulated := accept_bad_debt operation in
      Ret (Ok (inr ((λ simulated, (CreatedBadDebt, None, [], [], operation, simulated)) <$> simulated)))
  | DLiquidate plan =>
      await? accepted := accept_percent pool account plan in
      Ret (Ok (inr ((λ '(percent, operation, simulated),
        (CreatedAuction, Some percent, plan_bid plan, plan_lot plan, operation, simulated))
        <$> accepted)))
  end.

(** [Auctioneer::act]: [submit] is whether a queue was given. *)
Definition act (pool account : string) (decision : Decision) (tick : LedgerTick) (submit : bool)
  : prog ActOutcome :=
  if submit && negb (bool_decide (is_Some (au_submitter self))) then
    Ret (Err (AeChain (Config "a submission queue was given to an auctioneer with no signer, so nothing could be judged before it was sent")))
  else if submit && ac_dry_run (au_config self) then
    Ret (Err (AeChain (Config "a submission queue was given to a dry-run auctioneer; dry-run sends nothing, so the queue is refused rather than used")))
  else
    await? prepared := prepare_creation pool account decision in
    match prepared with
    | inl reason => Ret (Ok (ActSkipped reason))
    | inr None => Ret (Ok ActRefused)
    | inr (Some (kind, percent, bids, lots, operation, simulated)) =>
        let record := mkCreationRecord kind pool account percent bids lots (lt_sequence tick)
          (ac_dry_run (au_config self)) None in
        await? creation_id := auct_store (QRecordCreation record) in
        await? submission :=
          (if submit then
             await? outcome := submit_creation creation_id record operation in
             Ret (Ok (Some outcome))
           else Ret (Ok None)) in
        Ret (Ok (ActRecorded (mkCreationOutcome kind account percent simulated creation_id
          (ac_dry_run (au_config self)) submission)))
    end.

(** ** The oracle scan *)

Fixpoint flag_moves (pool : string) (snapshot : PoolSnapshot) (ledger : Z)
    (moves : list PriceMove) (flagged : Z) : prog Z :=
  match moves with
  | [] => Ret (Ok flagged)
  | move :: moves =>
      match ps_asset_index snapshot !! pm_asset move with
      | None => flag_moves pool snapshot ledger moves flagged
      | Some index =>
          let side := match pm_direction move with Up => OnLiability | Down => OnCollateral end in
          await? count := auct_store (QFlagExposedTo pool index side ledger) in
          flag_moves pool snapshot ledger moves (Z.min (flagged + count) (2 ^ 64 - 1))
      end
  end.

(** [Auctioneer::scan_oracle]: the watch it leaves, and its answer. *)
Definition scan_oracle (pool : string) (watch : PriceWatch) (tick : LedgerTick)
  : io AuctE (PriceWatch * result AuctioneerError Z) :=
  await read := auct_read (Snapshot.snapshot pool []) in
  match read with
  | Err e => Ret (watch, Err e)
  | Ok snapshot =>
      let '(watch, moves) := moved_prices watch pool (ps_prices snapshot) (lt_close_time tick) in
      await flagged := flag_moves pool snapshot (lt_sequence tick) moves 0 in
      Ret (watch, flagged)
  end.
End auctioneer.
