(* ===== verification/AuctioneerContract.v ===== *)
(** * What the auctioneer promises ([src/auctioneer.rs])

    Acting is judging, recording, sending and naming, in that order, on the
    percent the contract's own refusals lead to; deciding answers each borrower
    from one snapshot; a price's move is reported once. *)

From S2P Require Import Prelude Fixed Reserve Position Auction Encode Liquidation Chain Operations.
From S2P Require Import Decode Events Io Rpc Snapshot Store Submit Poller Auctioneer.
Open Scope Z_scope.

(** ** Acting on one decision *)

Section act.
Context `{ScDecode} `{Json} (self : Auctioneer).
Context (pool account : string) (decision : Decision) (tick : LedgerTick) (submit : bool).

(** The simulations made, in order. *)
Abbreviation Tried := (list (Transaction * result ChainError Simulation)).

(** Where a refusal sends the percent: one up when it was too small, one down
    when it was too large, within 1 to 100, and otherwise nowhere. *)
Definition after_refusal (p : FillPercent) (code : option Z) : option FillPercent :=
  let to v := if (1 <=? v) && (v <=? 100) then Some (mkFillPercent v) else None in
  if bool_decide (code = Some INVALID_LIQ_TOO_SMALL) then to (fp_get p + 1)
  else if bool_decide (code = Some INVALID_LIQ_TOO_LARGE) then to (fp_get p - 1)
  else None.

Fixpoint walked (p : FillPercent) (tried : Tried) : option FillPercent :=
  match tried with
  | [] => Some p
  | (_, r) :: tried =>
      match judgment_of r with
      | Some (Submit.Refused code _) => after_refusal p code ≫= λ p, walked p tried
      | _ => None
      end
  end.

(** The operation to try after [tried]. *)
Definition to_try (tried : Tried) (operation : Operation) : Prop :=
  match decision with
  | DBadDebt => tried = [] ∧ bad_debt_op pool account = Ok operation
  | DLiquidate plan =>
      (length tried < Z.to_nat (ac_plan_iterations (au_config self)))%nat ∧
      ∃ p, walked (plan_percent plan) tried = Some p ∧
        new_auction_op pool account (plan_bid plan) (plan_lot plan) p = Ok operation
  | DSkip _ => False
  end.

(** The last simulation ended in this refusal. *)
Definition last_refused (tried : Tried) (code : option Z) : Prop :=
  ∃ tx r message, last tried = Some (tx, r) ∧ judgment_of r = Some (Submit.Refused code message).

(** The simulations before the one that accepted the operation; none at all
    where no key is configured to ask with. *)
Definition approved (tried : Tried) (operation : Operation) (simulated : bool) (before : Tried) : Prop :=
  match au_submitter self with
  | None => simulated = false ∧ tried = [] ∧ before = []
  | Some _ => simulated = true ∧ ∃ tx r, tried = before ++ [(tx, r)] ∧
      tx_operation tx = operation ∧ judgment_of r = Some Accepted
  end.

(** The row the decision is recorded as. *)
Definition row_for (kind : CreationKind) (percent : option FillPercent) (bids lots : list string)
  : CreationRecord :=
  mkCreationRecord kind pool account percent bids lots (lt_sequence tick)
    (ac_dry_run (au_config self)) None.

Definition recordable (tried : Tried) (record : CreationRecord) (operation : Operation)
    (simulated : bool) : Prop :=
  ∃ before, approved tried operation simulated before ∧
  match decision with
  | DBadDebt => record = row_for CreatedBadDebt None [] [] ∧ bad_debt_op pool account = Ok operation
  | DLiquidate plan => ∃ p, record = row_for CreatedAuction (Some p) (plan_bid plan) (plan_lot plan) ∧
      walked (plan_percent plan) before = Some p ∧
      new_auction_op pool account (plan_bid plan) (plan_lot plan) p = Ok operation
  | DSkip _ => False
  end.

(** The simulations, the reads of an auction to adopt, the row written, the
    queue's answer. *)
Record AState : Type := mkA {
  a_tried : Tried;
  a_reads : list Read;
  a_row : option (Z * CreationRecord);
  a_sent : option (result QueueError TxOutcome);
}.

Definition a_start : AState := mkA [] [] None None.

Definition with_row {E : Type} (r : result E Z) (record : CreationRecord) : option (Z * CreationRecord) :=
  match r with Ok id => Some (id, record) | Err _ => None end.

Inductive act_step : AState → AuctObs → AState → Prop :=
| act_account t r :
    act_step (mkA t [] None None) (BNet (SAccount r)) (mkA t [] None None)
| act_clock t :
    act_step (mkA t [] None None) (BNet SOther) (mkA t [] None None)
| act_simulate t tx r :
    to_try t (tx_operation tx) →
    act_step (mkA t [] None None) (BNet (SSimulate tx r)) (mkA (t ++ [(tx, r)]) [] None None)
| act_read t rs r :
    last_refused t (Some AUCTION_IN_PROGRESS) →
    act_step (mkA t rs None None) (BRead r) (mkA t (rs ++ [r]) None None)
| act_adopt t rs at_ a r :
    last_refused t (Some AUCTION_IN_PROGRESS) →
    auction_result pool account UserLiquidation rs (Ok (Some (at_, a))) →
    act_step (mkA t rs None None)
      (BStore () (QUpsertAuction (mkTrackedAuction pool account UserLiquidation (block a) None None
         (bid a) (lot a) at_)) r) (mkA t rs None None)
| act_record t record operation simulated r :
    recordable t record operation simulated →
    act_step (mkA t [] None None) (BStore Z (QRecordCreation record) r)
      (mkA t [] (with_row r record) None)
| act_enqueue t id record operation r :
    submit = true → ac_dry_run (au_config self) = false → recordable t record operation true →
    act_step (mkA t [] (Some (id, record)) None) (BEnqueue (creation_submission record operation) r)
      (mkA t [] (Some (id, record)) (Some r))
| act_attach t id record outcome r :
    act_step (mkA t [] (Some (id, record)) (Some (Ok outcome)))
      (BStore bool (QAttachCreationTx id (to_hex (outcome_hash outcome))) r)
      (mkA t [] (Some (id, record)) (Some (Ok outcome))).

(** What an answer of [act] says of what was done. *)
Definition act_answer (r : result AuctioneerError ActOutcome) (q : AState) : Prop :=
  match r with
  | Ok (ActSkipped reason) => decision = DSkip reason ∧ q = a_start
  | Ok ActRefused => a_row q = None ∧ a_sent q = None
  | Ok (ActRecorded o) => ∃ record operation,
      a_row q = Some (co_creation_id o, record) ∧
      recordable (a_tried q) record operation (co_simulated o) ∧
      co_kind o = cr_kind record ∧ co_account o = account ∧ co_percent o = cr_percent record ∧
      co_dry_run o = ac_dry_run (au_config self) ∧ a_sent q = Ok <$> co_submission o ∧
      bool_decide (is_Some (co_submission o)) = submit
  | Err (AeQueue e) => a_sent q = Some (Err e)
  | Err (AeChain _) => a_row q = None ∧ a_sent q = None
  | Err _ => True
  end.

Abbreviation upholds := (follows auct_log act_step).

(** ** Lemmas: the walk *)

Lemma step_percent_to v :
  step_percent (to_u32 v) = if (1 <=? v) && (v <=? 100) then Some (mkFillPercent v) else None.
Proof.
  unfold step_percent. destruct (to_u32 v) as [u|] eqn:Hu.
  - apply to_u32_some in Hu as [-> _]. unfold fill_percent_try_from. by destruct (_ && _).
  - destruct ((1 <=? v) && (v <=? 100)) eqn:Hv; [|done]. exfalso.
    rewrite (proj2 (to_u32_some v v)) in Hu; [done|]. unfold is_u32, u32_max. lia.
Qed.

Lemma walked_snoc p tried tx r :
  walked p (tried ++ [(tx, r)]) =
  walked p tried ≫= λ p, match judgment_of r with
    | Some (Submit.Refused code _) => after_refusal p code | _ => None end.
Proof.
  revert p. induction tried as [|[tx' r'] tried IH]; intros p; simpl.
  - destruct (judgment_of r) as [[]|]; try done. by destruct (after_refusal p contract_error).
  - destruct (judgment_of r') as [[]|]; try done. destruct (after_refusal p contract_error); simpl; [apply IH|done].
Qed.

(** Asking the contract about the operation that is due. *)
Lemma ask_follows tried operation config :
  to_try tried operation →
  upholds (mkA tried [] None None) (translate ANet (simulate_only config operation))
    (λ r q, match r with
      | Ok judgment => ∃ tx r, q = mkA (tried ++ [(tx, r)]) [] None None ∧
          tx_operation tx = operation ∧ judgment_of r = Some judgment
      | Err _ => a_row q = None ∧ a_sent q = None
      end).
Proof.
  intros Ht. eapply follows_weaken.
  - apply (follows_translate seen auct_log ANet BNet (λ _ _ _, eq_refl)
      (λ q s q', act_step q (BNet s) q') act_step id (mkA tried [] None None)); [done|].
    apply (simulate_only_once _ _ _ _ (λ tx r, mkA (tried ++ [(tx, r)]) [] None None));
      intros; constructor. congruence.
  - intros [judgment|e] q (q0 & -> & Ho); simpl in *; [done|].
    by destruct Ho as [->|(tx & r & -> & _)].
Qed.

Definition prepared_well (r : result AuctioneerError (SkipReason + option (CreationKind *
    option FillPercent * list string * list string * Operation * bool))) (q : AState) : Prop :=
  match r with
  | Ok (inl reason) => decision = DSkip reason ∧ q = a_start
  | Ok (inr None) => a_row q = None ∧ a_sent q = None
  | Ok (inr (Some (kind, percent, bids, lots, operation, simulated))) =>
      ∃ tried, q = mkA tried [] None None ∧
        recordable tried (row_for kind percent bids lots) operation simulated
  | Err (AeQueue _) => False
  | Err _ => a_row q = None ∧ a_sent q = None
  end.

(** A percent accepted, refused, or not to be judged. *)
Definition percent_well (plan : LiquidationPlan)
    (r : result AuctioneerError (option (FillPercent * Operation * bool))) (q : AState) : Prop :=
  match r with
  | Ok (Some (p, operation, simulated)) => ∃ tried before, q = mkA tried [] None None ∧
      approved tried operation simulated before ∧ walked (plan_percent plan) before = Some p ∧
      new_auction_op pool account (plan_bid plan) (plan_lot plan) p = Ok operation
  | Err (AeQueue _) => False
  | _ => a_row q = None ∧ a_sent q = None
  end.

Lemma adopt_follows tried :
  last_refused tried (Some AUCTION_IN_PROGRESS) →
  upholds (mkA tried [] None None) (adopt pool account)
    (λ r q, a_row q = None ∧ a_sent q = None ∧ match r with Err (AeQueue _) => False | _ => True end).
Proof.
  intros Hl. unfold adopt. eapply follows_bind.
  { apply (follows_collect read auct_log ARead BRead (λ _ _ _, eq_refl) act_step _
      (λ tr, mkA tried tr None None)); [apply read_auction_returns|done|]. intros. by constructor. }
  intros found q (tr & -> & Hr). destruct found as [[[at_ a]|]|e]; [|by apply follows_ret..].
  apply follows_call. intros r. eexists. split; [by eapply act_adopt|].
  apply follows_ret. by destruct r.
Qed.

Lemma refuse_follows tried code plan :
  last_refused tried code →
  upholds (mkA tried [] None None) (refuse_percent pool account code) (percent_well plan).
Proof.
  intros Hl. unfold refuse_percent. eapply follows_try.
  - instantiate (1 := λ r q, a_row q = None ∧ a_sent q = None ∧
      match r with Err (AeQueue _) => False | _ => True end).
    case_bool_decide; [subst; by apply adopt_follows|by apply follows_ret].
  - intros [] q (? & ? & ?); done.
  - intros [] q (? & ? & _). by apply follows_ret.
Qed.

Lemma walk_follows plan config source iterations : ∀ tried p,
  decision = DLiquidate plan → au_submitter self = Some (source, config) →
  walked (plan_percent plan) tried = Some p →
  (length tried + iterations = Z.to_nat (ac_plan_iterations (au_config self)))%nat →
  upholds (mkA tried [] None None) (walk_percent pool account plan config iterations p)
    (percent_well plan).
Proof.
  induction iterations as [|iterations IH]; intros tried p Hd Hs Hw Hn; [by apply follows_ret|].
  cbn [walk_percent]. apply follows_try_ret. unfold build_auction.
  destruct (new_auction_op _ _ _ _ p) as [operation|e] eqn:Hop; simpl; [|done].
  eapply follows_bind; [eapply ask_follows|].
  { unfold to_try. rewrite Hd. split; [lia|]. by exists p. }
  intros [judgment|e] q Hq; [|by apply follows_ret]. destruct Hq as (tx & r & -> & Htx & Hj).
  assert (∀ p', after_refusal p (match judgment with Submit.Refused code _ => code | _ => None end)
      = Some p' → (∃ code message, judgment = Submit.Refused code message) →
    upholds (mkA (tried ++ [(tx, r)]) [] None None)
      (walk_percent pool account plan config iterations p') (percent_well plan)) as Hnext.
  { intros p' Hp' (code & message & ->). apply IH; try done.
    - by rewrite walked_snoc, Hw, Hj.
    - rewrite length_app. simpl. lia. }
  destruct judgment as [|code message|].
  - apply follows_ret. exists (tried ++ [(tx, r)]), tried. split; [done|]. split; [|done].
    unfold approved. rewrite Hs. split; [done|]. by exists tx, r.
  - assert (last_refused (tried ++ [(tx, r)]) code) as Hl
      by (exists tx, r, message; by rewrite last_snoc).
    unfold after_refusal in Hnext. unfold u32_checked_add, u32_checked_sub.
    rewrite !step_percent_to.
    case_bool_decide; [|case_bool_decide; [|by apply refuse_follows]].
    all: destruct (_ && _); [|by apply follows_ret]; apply Hnext; eauto.
  - by apply follows_ret.
Qed.

Lemma prepare_creation_follows : upholds a_start (prepare_creation self pool account decision) prepared_well.
Proof.
  unfold prepare_creation. destruct decision as [plan| |reason] eqn:Hd; [| |by apply follows_ret].
  - eapply (follows_try _ _ _ _ _ (percent_well plan)).
    + unfold accept_percent. destruct (au_submitter self) as [[source config]|] eqn:Hs.
      * by eapply walk_follows.
      * unfold build_auction. destruct (new_auction_op _ _ _ _ _) as [operation|e] eqn:Hop;
          apply follows_ret; [|done]. exists [], []. split; [done|]. split; [|done].
        unfold approved. by rewrite Hs.
    + intros [] q Hq; done.
    + intros [[[p operation] simulated]|] q Hq; apply follows_ret; [|done].
      destruct Hq as (tried & before & -> & Ha & Hw & Hop). exists tried. split; [done|].
      exists before. split; [done|]. rewrite Hd. by exists p.
  - apply follows_try_ret. destruct (bad_debt_op pool account) as [operation|e] eqn:Hop; [|done].
    eapply (follows_try _ _ _ _ _ (λ r q, match r with
      | Ok (Some simulated) => ∃ tried, q = mkA tried [] None None ∧
          approved tried operation simulated []
      | Err (AeQueue _) => False
      | _ => a_row q = None ∧ a_sent q = None end)).
    + unfold accept_bad_debt. destruct (au_submitter self) as [[source config]|] eqn:Hs.
      * eapply follows_bind; [eapply ask_follows; unfold to_try; by rewrite Hd|].
        intros [judgment|e] q Hq; apply follows_ret; [|done]. destruct Hq as (tx & r & -> & Htx & Hj).
        destruct judgment; simpl; [|done|done]. exists [(tx, r)]. split; [done|].
        unfold approved. rewrite Hs. split; [done|]. by exists tx, r.
      * apply follows_ret. exists []. split; [done|]. unfold approved. by rewrite Hs.
    + intros [] q Hq; done.
    + intros [simulated|] q Hq; apply follows_ret; [|done]. destruct Hq as (tried & -> & Ha).
      exists tried. split; [done|]. exists []. split; [done|]. by rewrite Hd.
Qed.

Lemma act_follows :
  upholds a_start (act self pool account decision tick submit) act_answer.
Proof.
  unfold act. destruct (submit && negb _) eqn:Hkey; [by apply follows_ret|].
  destruct (submit && ac_dry_run _) eqn:Hdry; [by apply follows_ret|].
  eapply follows_try; [apply prepare_creation_follows|by intros [] q Hq|].
  intros [reason|[[[[[[kind percent] bids] lots] operation] simulated]|]] q Hq;
    [by apply follows_ret| |by apply follows_ret].
  destruct Hq as (tried & -> & Hr). set (record := mkCreationRecord _ _ _ _ _ _ _ _ _).
  change (row_for kind percent bids lots) with record in Hr. cbv zeta.
  eapply (follows_try _ _ _ _ _ (λ r q, match r with
    | Ok id => q = mkA tried [] (Some (id, record)) None
    | Err (AeStore _) => True | Err _ => False end)).
  { apply follows_call. intros r. eexists. split; [by eapply act_record|].
    apply follows_ret. by destruct r. }
  { by intros [] q. }
  intros id q ->.
  eapply (follows_try _ _ _ _ _ (λ r q, match r with
    | Ok sent => q = mkA tried [] (Some (id, record)) (Ok <$> sent) ∧
        bool_decide (is_Some sent) = submit
    | Err (AeQueue e) => a_sent q = Some (Err e)
    | Err (AeStore _) => True | Err _ => False end)).
  - destruct submit eqn:Hsubmit; [|by apply follows_ret].
    assert (simulated = true) as ->.
    { destruct Hr as (before & Ha & _). unfold approved in Ha.
      destruct (au_submitter self) as [?|]; [by destruct Ha|done]. }
    apply (follows_try _ _ _ _ _ (λ r q, match r with
      | Ok outcome => q = mkA tried [] (Some (id, record)) (Some (Ok outcome))
      | Err (AeQueue e) => a_sent q = Some (Err e)
      | Err (AeStore _) => True | Err _ => False end)).
    + unfold submit_creation. apply follows_call. intros sent. eexists.
      split; [by apply act_enqueue; [|destruct (ac_dry_run _)|]|]. destruct sent as [outcome|e]; [|by apply follows_ret].
      eapply (follows_try _ _ _ _ _ (λ r q, q = mkA tried [] (Some (id, record)) (Some (Ok outcome)) ∧
        match r with Err (AeStore _) | Ok _ => True | _ => False end)).
      * apply follows_call. intros r. eexists. split; [constructor|]. apply follows_ret. by destruct r.
      * intros [] q [-> ?]; done.
      * intros b q [-> _]. by apply follows_ret.
    + by intros [] q.
    + intros outcome q ->. by apply follows_ret.
  - by intros [] q.
  - intros sent q [-> Hsent]. apply follows_ret. exists record, operation. simpl.
    split; [done|]. split; [done|]. by repeat split.
Qed.
End act.

(** ** Deciding a batch *)

Section decide.
Context `{ScDecode} `{Json} (self : Auctioneer) (pool : string).

(** What a decision says of the borrower's values in the snapshot. *)
Section policy.
Context (snapshot : PoolSnapshot) (reserves : gmap Z Reserve) (valued_at : Z) (account : string).

Definition data_is (data : PositionData) : Prop :=
  Snapshot.position_data snapshot account valued_at = Ok (Some data).

(** The health factor at seven decimals. *)
Definition health_is (data : PositionData) (normalized : Z) : Prop :=
  ∃ health, health_factor data = Ok (Some health) ∧
    mul_floor health SCALAR_7 (pd_scalar data) = Ok normalized.

Definition unhealthy (data : PositionData) : Prop :=
  data_is data ∧ ¬ (0 < liability_base data ∧ collateral_raw data = 0) ∧
  ∃ normalized, health_is data normalized ∧
    normalized ≤ ac_liquidation_health_factor (au_config self).

Definition values_are (values : list PositionValue * list PositionValue) : Prop :=
  ∃ positions, ps_positions snapshot !! account = Some positions ∧
    position_values reserves (ps_prices snapshot) positions = Ok values.

(** What the liquidation must regain. *)
Definition excess (data : PositionData) : Z :=
  liability_base data * ac_target_health_factor (au_config self) / SCALAR_7 - collateral_base data.

Definition policy (d : Decision) : Prop :=
  match d with
  | DLiquidate plan => ∃ data values,
      unhealthy data ∧ values_are values ∧ 0 < excess data ∧
      plan_within values.1 values.2 (pc_max_positions (pi_config (ps_instance snapshot))) plan ∧
      selected (excess data) values.1 values.2 (ac_target_health_factor (au_config self))
        (pc_max_positions (pi_config (ps_instance snapshot))) plan
  | DBadDebt => ∃ data, data_is data ∧ 0 < liability_base data ∧ collateral_raw data = 0
  | DSkip Healthy => ∃ data normalized, data_is data ∧ health_is data normalized ∧
      ac_liquidation_health_factor (au_config self) < normalized
  | DSkip NoLiabilities =>
      Snapshot.position_data snapshot account valued_at = Ok None ∨
      (∃ data, data_is data ∧ liability_base data = 0) ∨ ps_positions snapshot !! account = None
  | DSkip NoPlan => ∃ data values, unhealthy data ∧ values_are values ∧
      (values.1 = [] ∨ values.2 = [] ∨ excess data ≤ 0)
  | DSkip (AuctionOpen | OwnAccount) => False
  end.

(** [decide_one] once the store holds no auction. *)
Definition assess : result AuctioneerError Decision :=
  let? data := map_err AeChain (Snapshot.position_data snapshot account valued_at) in
  match data with
  | None => Ok (DSkip NoLiabilities)
  | Some data => judge_position self account snapshot reserves data
  end.

Lemma planned_policy d data collateral liabilities :
  unhealthy data → values_are (collateral, liabilities) →
  (let? plan := map_err AeMath (default (Ok None) (plan_liquidation data collateral liabilities
     (ac_target_health_factor (au_config self))
     (pc_max_positions (pi_config (ps_instance snapshot))))) in
   Ok (match plan with Some plan => DLiquidate plan | None => DSkip NoPlan end)) = Ok d →
  policy d.
Proof.
  intros Hun Hv Ha.
  destruct (plan_liquidation_spec data collateral liabilities (ac_target_health_factor (au_config self))
    (pc_max_positions (pi_config (ps_instance snapshot)))) as (r & Hr & Hspec).
  rewrite Hr in Ha. destruct r as [[plan|]|e]; simpl in Ha; [| |done]; injection Ha as <-.
  - destruct Hspec as (Hex & Hw & Hs). exists data, (collateral, liabilities). unfold excess.
    split; [done|]. split; [done|]. split; [lia|]. by split.
  - exists data, (collateral, liabilities). unfold excess. split; [done|]. split; [done|].
    destruct Hspec as [?|[?|?]]; [by left|by right; left|right; right; lia].
Qed.

Lemma assess_policy d : assess = Ok d → policy d.
Proof.
  unfold assess. intros (data & Hd%map_err_ok & Ha)%bind_ok.
  destruct data as [data|]; [|injection Ha as <-; by left].
  unfold judge_position in Ha.
  destruct ((0 <? liability_base data) && (collateral_raw data =? 0)) eqn:Hbad.
  { injection Ha as <-. exists data. split; [done|]. lia. }
  apply bind_ok in Ha as (health & Hhf%map_err_ok & Ha). destruct health as [health|].
  2: { injection Ha as <-. right; left. exists data. split; [done|].
       unfold health_factor in Hhf. destruct (Z.eqb_spec (liability_base data) 0); [done|].
       by destruct (div_floor _ _ _). }
  apply bind_ok in Ha as (normalized & Hn%map_err_ok & Ha).
  assert (health_is data normalized) as Hh by (by exists health).
  destruct (Z.ltb_spec (ac_liquidation_health_factor (au_config self)) normalized) as [Hlt|Hle].
  { injection Ha as <-. by exists data, normalized. }
  assert (unhealthy data) as Hun by (split; [done|]; split; [lia|by exists normalized]).
  destruct (ps_positions snapshot !! account) as [positions|] eqn:Hp;
    [|injection Ha as <-; by right; right].
  apply bind_ok in Ha as ([coll liab] & Hv%map_err_ok & Ha).
  eapply planned_policy; [done|by exists positions|done].
Qed.
End policy.

(** ** The batch *)

(** The store was asked for the borrower's auction: one is open; or none is and
    the snapshot decides, or cannot. *)
Definition slot_well (snapshot : PoolSnapshot) (reserves : gmap Z Reserve) (valued_at : Z)
    (tr : list AuctObs) (account : string) (slot : option Decision) : Prop :=
  ∃ found, BStore _ (QAuction pool account UserLiquidation) (Ok found) ∈ tr ∧
    match found, slot with
    | Some _, slot => slot = Some (DSkip AuctionOpen)
    | None, Some d => policy snapshot reserves valued_at account d
    | None, None => is_ok (assess snapshot reserves valued_at account) = false
    end.

Lemma slot_mono snapshot reserves at_ tr1 tr2 account slot :
  slot_well snapshot reserves at_ tr1 account slot →
  slot_well snapshot reserves at_ (tr1 ++ tr2) account slot.
Proof. intros (found & Hin & Hs). exists found. split; [set_solver|done]. Qed.
Lemma slot_mono_r snapshot reserves at_ tr1 tr2 account slot :
  slot_well snapshot reserves at_ tr2 account slot →
  slot_well snapshot reserves at_ (tr1 ++ tr2) account slot.
Proof. intros (found & Hin & Hs). exists found. split; [set_solver|done]. Qed.

Lemma decide_one_returns snapshot reserves at_ account :
  is_own_account self pool account = false →
  returns auct_log (decide_one self pool account snapshot reserves at_) (λ tr r,
    match r with
    | Ok d => slot_well snapshot reserves at_ tr account (Some d)
    | Err (AeStore _) => True
    | Err _ => slot_well snapshot reserves at_ tr account None
    end).
Proof.
  intros Hown. unfold decide_one. rewrite Hown.
  eapply (returns_try _ _ _ (λ tr r, match r with
    | Ok found => tr = [BStore _ (QAuction pool account UserLiquidation) (Ok found)]
    | Err (AeStore _) => True | Err _ => False end)).
  - eapply returns_bind; [apply (returns_perform _ _ (λ tr r,
      tr = [BStore _ (QAuction pool account UserLiquidation) r])); done|].
    intros r tr1 ->. apply returns_ret. destruct r; [by rewrite app_nil_r|done].
  - by intros tr [].
  - intros found tr1 ->.
    assert (∀ slot, match found with
        | Some _ => slot = Some (DSkip AuctionOpen)
        | None => match slot with Some d => policy snapshot reserves at_ account d
                  | None => is_ok (assess snapshot reserves at_ account) = false end end →
      slot_well snapshot reserves at_
        ([BStore _ (QAuction pool account UserLiquidation) (Ok found)] ++ []) account slot) as Hslot.
    { intros slot Hs. exists found. split; [constructor|done]. }
    destruct found as [open|]; [apply returns_ret; by apply Hslot|].
    pose proof (assess_policy snapshot reserves at_ account) as Hpol. unfold assess in *.
    apply returns_try_ret. destruct (Snapshot.position_data snapshot account at_) as [data|e];
      simpl in *; [|by apply Hslot].
    apply returns_ret. destruct data as [data|]; [|apply Hslot, Hpol; done].
    destruct (judge_position self account snapshot reserves data) as [d|e]; [by apply Hslot, Hpol|].
    destruct e; try done; by apply Hslot.
Qed.

Lemma decide_each_returns snapshot reserves at_ accounts :
  Forall (λ a, is_own_account self pool a = false) accounts →
  returns auct_log (decide_each self pool accounts snapshot reserves at_) (λ tr r,
    match r with
    | Ok slots => Forall2 (slot_well snapshot reserves at_ tr) accounts slots
    | Err (AeStore _) => True | Err _ => False
    end).
Proof.
  induction 1 as [|a accounts Ha _ IH]; [by apply returns_ret|]. cbn [decide_each].
  eapply returns_bind; [by apply decide_one_returns|]. intros decided tr1 Hd.
  assert (∀ slot, slot_well snapshot reserves at_ tr1 a slot →
    returns auct_log (await? slots := decide_each self pool accounts snapshot reserves at_ in
                      Ret (Ok (slot :: slots))) (λ tr2 r, match r with
      | Ok slots => Forall2 (slot_well snapshot reserves at_ (tr1 ++ tr2)) (a :: accounts) slots
      | Err (AeStore _) => True | Err _ => False end)) as Hnext.
  { intros slot Hs. eapply returns_try; [exact IH|by intros tr []|].
    intros slots tr2 Hf. apply returns_ret. rewrite app_nil_r. constructor; [by apply slot_mono|].
    eapply Forall2_impl; [exact Hf|]. intros *. apply slot_mono_r. }
  destruct decided as [d|[]]; try (by apply Hnext). by apply returns_ret.
Qed.

(** Each decision answers a user, in order; an account's own is skipped; every
    other is as [P] says of it, a user left out included. *)
Definition answered (P : string → option Decision → Prop) (all : list string)
    (decisions : list (string * Decision)) : Prop :=
  decisions.*1 `sublist_of` all ∧
  (∀ a d, (a, d) ∈ decisions →
     if is_own_account self pool a then d = DSkip OwnAccount else P a (Some d)) ∧
  (∀ a, a ∈ all → a ∉ decisions.*1 → is_own_account self pool a = false ∧ P a None).

Lemma in_order_answered P all : ∀ slots,
  Forall2 P (filter (λ a, is_own_account self pool a = false) all) slots →
  answered P all (in_order self pool all slots).
Proof.
  induction all as [|a all IH]; intros slots Hf.
  { split; [constructor|]. split; [intros a d Hin; by apply elem_of_nil in Hin|].
    intros a Hin. by apply elem_of_nil in Hin. }
  cbn [in_order]. destruct (is_own_account self pool a) eqn:Hown.
  - rewrite filter_cons_False in Hf by (by rewrite Hown).
    destruct (IH _ Hf) as (Hsub & Hin & Hout). split; [by constructor|]. split.
    + intros b d [[= -> ->]|Hb]%elem_of_cons; [by rewrite Hown|by apply Hin].
    + intros b Hb Hn. simpl in Hn. apply not_elem_of_cons in Hn as [Hne Hn].
      apply Hout; [set_solver|done].
  - rewrite filter_cons_True in Hf by done. inversion Hf as [|? slot ? slots' Hs Hrest]; subst.
    destruct (IH _ Hrest) as (Hsub & Hin & Hout). destruct slot as [d|].
    + split; [by constructor|]. split.
      * intros b d' [[= -> ->]|Hb]%elem_of_cons; [by rewrite Hown|by apply Hin].
      * intros b Hb Hn. simpl in Hn. apply not_elem_of_cons in Hn as [Hne Hn].
        apply Hout; [set_solver|done].
    + split; [by constructor|]. split; [done|]. intros b [->|Hb]%elem_of_cons Hn; [by split|].
      by apply Hout.
Qed.

(** What a batch's decisions rest on: one snapshot of the accounts that are not
    the bot's own, valued at one instant, and the store's answers. *)
Definition decided (users : list TrackedUser) (tick : LedgerTick) (tr : list AuctObs)
    (decisions : list (string * Decision)) : Prop :=
  let all := map tu_account users in
  let accounts := filter (λ a, is_own_account self pool a = false) all in
  accounts = [] ∧ tr = [] ∧ answered (λ _ _, False) all decisions ∨
  ∃ reads asked snapshot reserves,
    tr = map BRead reads ++ asked ∧ snapshot_result pool accounts reads (Ok snapshot) ∧
    accrued_reserves snapshot (valued_at snapshot (lt_close_time tick)) = Ok reserves ∧
    answered (slot_well snapshot reserves (valued_at snapshot (lt_close_time tick)) asked)
      all decisions.

Lemma auct_read_returns {A} (m : io ReadE (result ChainError A)) P :
  returns read m P →
  returns auct_log (auct_read m) (λ tr r, ∃ reads, tr = map BRead reads ∧
    match r with Ok a => P reads (Ok a) | Err (AeChain e) => P reads (Err e) | Err _ => False end).
Proof.
  intros Hm. unfold auct_read. eapply returns_bind.
  - eapply (returns_translate read auct_log ARead BRead (λ _ _ _, eq_refl)); exact Hm.
  - intros r tr (reads & -> & HP). apply returns_ret. rewrite app_nil_r. exists reads.
    split; [done|]. by destruct r.
Qed.

Lemma decide_returns users tick :
  returns auct_log (decide self pool users tick) (λ tr r,
    match r with Ok decisions => decided users tick tr decisions | Err _ => True end).
Proof.
  unfold decide, decided. set (all := map tu_account users).
  pose proof (in_order_answered (λ _ _, False) all []) as Hnone.
  destruct (filter (λ a, is_own_account self pool a = false) all) as [|a accounts] eqn:Hf.
  { destruct all as [|b all'] eqn:Hall; apply returns_ret; left; (split; [done|]); (split; [done|]);
      by apply Hnone. }
  destruct all as [|b all'] eqn:Hall; [done|]. rewrite <- Hall in *.
  rewrite <- Hf. clear Hnone. assert (Forall (λ a, is_own_account self pool a = false)
    (filter (λ a, is_own_account self pool a = false) all)) as Hnot.
  { apply Forall_forall. by intros c [? _]%list_elem_of_filter. }
  eapply returns_try; [apply auct_read_returns, snapshot_returns|done|].
  intros snapshot tr1 (reads & -> & Hs). apply returns_try_ret.
  destruct (accrued_reserves _ _) as [reserves|e] eqn:Hr; [|done]. simpl.
  eapply returns_try; [by apply decide_each_returns|by intros tr []|].
  intros slots tr2 Hslots. apply returns_ret. right. rewrite app_nil_r.
  exists reads, tr2, snapshot, reserves. split; [done|]. split; [done|]. split; [done|].
  by apply in_order_answered.
Qed.
End decide.

(** ** Prices that moved *)

(** One asset, on its own: the reference it is left with, and what is
    reported of it. *)
Definition judge_asset (delta_bps stale_after now : Z) (reference : option Reference) (price : Z)
  : Reference * option Direction :=
  match reference with
  | None => (mkReference price now, None)
  | Some reference =>
      match moved_direction price (rf_price reference) delta_bps with
      | Ok (Some direction) => (mkReference price now, Some direction)
      | Ok None =>
          (if (rf_set_at reference <=? now) && (stale_after <=? now - rf_set_at reference)
           then mkReference price now else reference, None)
      | Err _ => (reference, None)
      end
  end.

Section prices.
Context (watch : PriceWatch) (now : Z).

Abbreviation judged := (judge_asset (pw_delta_bps watch) (pw_stale_after watch) now).

Definition report (references : gmap string Reference) (e : string * Z) : option PriceMove :=
  mkPriceMove e.1 <$> (judged (references !! e.1) e.2).2.

Lemma judge_price_asset references moves e :
  ∃ references', judge_price watch now (references, moves) e =
    (references', moves ++ option_list (report references e)) ∧
  (∀ a, references' !! a =
     if bool_decide (a = e.1) then Some (judged (references !! e.1) e.2).1 else references !! a).
Proof.
  destruct e as [asset price]. simpl.
  assert (∀ r a, <[asset := r]> references !! a =
    if bool_decide (a = asset) then Some r else references !! a) as Hins.
  { intros r a. case_bool_decide; subst; [by rewrite lookup_insert_eq|by rewrite lookup_insert_ne]. }
  unfold report, judge_asset. cbn [fst snd].
  destruct (references !! asset) as [reference|] eqn:Href.
  2: { eexists. by rewrite app_nil_r. }
  assert (∀ a, references !! a =
    if bool_decide (a = asset) then Some reference else references !! a) as Hsame
    by (intros a; case_bool_decide; by subst).
  destruct (moved_direction price (rf_price reference) (pw_delta_bps watch)) as [[d|]|e]; simpl.
  - by eexists.
  - rewrite app_nil_r. destruct (rf_set_at reference <=? now); cbn [andb]; [|by eexists].
    destruct (pw_stale_after watch <=? now - rf_set_at reference); by eexists.
  - rewrite app_nil_r. by eexists.
Qed.

Lemma fold_prices entries : ∀ references moves,
  NoDup entries.*1 →
  ∃ references', foldl (judge_price watch now) (references, moves) entries =
    (references', moves ++ omap (report references) entries) ∧
  (∀ a, references' !! a = match (list_to_map entries : gmap string Z) !! a with
     | Some price => Some (judged (references !! a) price).1
     | None => references !! a end).
Proof.
  induction entries as [|[asset price] entries IH]; intros references moves Hnd.
  { exists references. by rewrite app_nil_r. }
  apply NoDup_cons in Hnd as [Hn Hnd]. simpl in Hn.
  destruct (judge_price_asset references moves (asset, price)) as (refs1 & Hj & Hrefs1).
  destruct (IH refs1 (moves ++ option_list (report references (asset, price))) Hnd)
    as (refs2 & Hf & Hrefs2).
  exists refs2. cbn [foldl]. rewrite Hj, Hf. split.
  - f_equal. rewrite <- app_assoc. f_equal.
    change (omap (report references) ((asset, price) :: entries)) with
      (match report references (asset, price) with
       | Some m => m :: omap (report references) entries
       | None => omap (report references) entries end).
    assert (omap (report refs1) entries = omap (report references) entries) as ->;
      [|by destruct (report references (asset, price))].
    apply omap_ext_in. intros [a p] Hin. unfold report. simpl. rewrite Hrefs1. simpl.
    rewrite bool_decide_eq_false_2; [done|]. intros ->. apply Hn.
    apply list_elem_of_fmap. by exists (asset, p).
  - intros a. rewrite Hrefs2, Hrefs1. simpl. destruct (base.decide (a = asset)) as [->|Hne].
    + rewrite lookup_insert_eq, bool_decide_eq_true_2 by done.
      by rewrite (not_elem_of_list_to_map_1 entries asset).
    + by rewrite lookup_insert_ne, bool_decide_eq_false_2.
Qed.

Lemma bt_nodup {A} (m : gmap string A) : NoDup (bt_iter m).*1.
Proof. unfold bt_iter. rewrite merge_sort_Permutation. apply NoDup_fst_map_to_list. Qed.

Lemma bt_to_map {A} (m : gmap string A) : list_to_map (bt_iter m) = m.
Proof.
  rewrite <- (list_to_map_to_list m) at 2. apply list_to_map_proper; [apply bt_nodup|].
  apply merge_sort_Permutation.
Qed.

Lemma elem_of_bt {A} (m : gmap string A) e : e ∈ bt_iter m ↔ m !! e.1 = Some e.2.
Proof.
  unfold bt_iter. rewrite merge_sort_Permutation. destruct e. apply elem_of_map_to_list.
Qed.

Lemma moved_prices_exact pool prices :
  let references := default ∅ (pw_references watch !! pool) in
  ∃ references', moved_prices watch pool prices now =
    (mkPriceWatch (pw_delta_bps watch) (pw_stale_after watch)
       (<[pool := references']> (pw_references watch)),
     omap (report references) (bt_iter (op_prices prices))) ∧
  (∀ a, references' !! a = match op_prices prices !! a with
     | Some price => Some (judged (references !! a) price).1
     | None => references !! a end).
Proof.
  cbv zeta. unfold moved_prices.
  destruct (fold_prices (bt_iter (op_prices prices)) (default ∅ (pw_references watch !! pool)) [])
    as (refs & Hf & Hr); [apply bt_nodup|].
  rewrite Hf. exists refs. split; [done|]. intros a. by rewrite Hr, bt_to_map.
Qed.

Lemma elem_of_reports references prices asset d :
  mkPriceMove asset d ∈ omap (report references) (bt_iter prices) ↔
  ∃ price, prices !! asset = Some price ∧ (judged (references !! asset) price).2 = Some d.
Proof.
  rewrite list_elem_of_omap. split.
  - intros ([a p] & Hin & Hr). apply elem_of_bt in Hin. unfold report in Hr. simpl in *.
    destruct (judged (references !! a) p).2 as [d'|] eqn:Hj; [|done]. injection Hr as <- <-.
    by exists p.
  - intros (p & Hp & Hj). exists (asset, p). split; [by apply elem_of_bt|].
    unfold report. simpl. by rewrite Hj.
Qed.

Lemma reports_once references prices :
  NoDup (map pm_asset (omap (report references) (bt_iter prices))).
Proof.
  pose proof (bt_nodup prices) as Hnd. induction (bt_iter prices) as [|[a p] l IH]; [constructor|].
  apply NoDup_cons in Hnd as [Hn Hnd].
  change (omap (report references) ((a, p) :: l)) with
    (match report references (a, p) with
     | Some m => m :: omap (report references) l | None => omap (report references) l end).
  destruct (report references (a, p)) as [m|] eqn:Hm; [|by apply IH].
  simpl. apply NoDup_cons. split; [|by apply IH]. unfold report in Hm. simpl in Hm.
  destruct (judged (references !! a) p).2; [|done]. injection Hm as <-. simpl.
  intros (m & Hma & Hin)%list_elem_of_fmap. apply Hn.
  apply list_elem_of_omap in Hin as ([b q] & Hin & Hr). unfold report in Hr. simpl in Hr.
  destruct (judged (references !! b) q).2; [|done]. injection Hr as <-. simpl in Hma. subst.
  apply list_elem_of_fmap. by exists (b, q).
Qed.
End prices.

(** A move of at least so many basis points of the reference, rounded down, in
    the direction of the price. *)
Definition moved_by (price reference bps : Z) (d : Direction) : Prop :=
  reference ≠ 0 ∧ bps ≤ Z.abs (price - reference) * 10000 / reference ∧
  d = if reference <? price then Up else Down.

Lemma moved_direction_by price reference bps d :
  moved_direction price reference bps = Ok (Some d) → moved_by price reference bps d.
Proof.
  unfold moved_direction, moved_by. intros (diff & Hdiff%ok_or_ok & Hm)%bind_ok.
  apply bind_ok in Hm as (delta & Hdelta & Hm). apply div_floor_ok in Hdelta as (Hne & -> & _).
  assert (diff = Z.abs (price - reference)) as ->.
  { destruct (Z.leb_spec reference price); apply checked_sub_some in Hdiff as [-> _]; lia. }
  destruct (Z.ltb_spec (Z.abs (price - reference) * 10000 / reference) bps); [done|].
  injection Hm as <-. done.
Qed.

(** A price does not move from itself. *)
Lemma same_price_rests price bps d : 0 < bps → moved_direction price price bps ≠ Ok (Some d).
Proof.
  intros Hb (Hne & Hle & _)%moved_direction_by. rewrite Z.sub_diag in Hle. simpl in Hle.
  rewrite Z.div_0_l in Hle by done. lia.
Qed.

Lemma judged_again bps stale now reference price :
  0 < bps → (judge_asset bps stale now (Some (judge_asset bps stale now reference price).1) price).2 = None.
Proof.
  intros Hb.
  assert (∀ r, rf_price r = price ∨ (∃ o, reference = Some o ∧ rf_price r = rf_price o ∧
      match moved_direction price (rf_price o) bps with Ok (Some _) => False | _ => True end) →
    (judge_asset bps stale now (Some r) price).2 = None) as Hrest.
  { intros r Hr. unfold judge_asset.
    destruct (moved_direction price (rf_price r) bps) as [[d|]|e] eqn:Hm; [|done..]. exfalso.
    destruct Hr as [Hr|(o & _ & Hr & Ho)]; rewrite Hr in Hm.
    - by apply same_price_rests in Hm.
    - by rewrite Hm in Ho. }
  apply Hrest. unfold judge_asset. destruct reference as [o|]; [|by left].
  destruct (moved_direction price (rf_price o) bps) as [[d|]|e] eqn:Hm; simpl; [by left| |].
  - destruct (_ && _); [by left|]. right. exists o. by rewrite Hm.
  - right. exists o. by rewrite Hm.
Qed.


(** ** Endings *)

Section ending.
Context `{ScDecode} `{Json} (self : Auctioneer) (pool : string).
Context {W : Type} (answer : ∀ X : Type, AuctE X → W → X * W).

Lemma auct_store_halts {A} (q : StoreE A) w : halts auct_log answer w (auct_store q).
Proof. apply halts_bind; [apply halts_perform|intros; apply halts_ret]. Qed.

Lemma ask_halts config operation w :
  halts auct_log answer w (translate ANet (simulate_only config operation)).
Proof.
  apply (halts_translate seen auct_log ANet BNet (λ _ _ _, eq_refl)), simulate_only_halts.
Qed.

Lemma adopt_halts account w : halts auct_log answer w (adopt pool account).
Proof.
  apply halts_bind.
  - apply (halts_translate read auct_log ARead BRead (λ _ _ _, eq_refl)), read_auction_halts.
  - intros w1 [[[at_ a]|]|e]; try apply halts_ret. apply auct_store_halts.
Qed.

Lemma walk_halts account plan config iterations : ∀ p w,
  halts auct_log answer w (walk_percent pool account plan config iterations p).
Proof.
  induction iterations as [|iterations IH]; intros p w; [apply halts_ret|]. cbn [walk_percent].
  apply halts_try; [apply halts_ret|]. intros w1 operation. apply halts_bind; [apply ask_halts|].
  intros w2 [[|code message|]|e]; try apply halts_ret.
  repeat case_bool_decide; try (destruct (step_percent _); [apply IH|apply halts_ret]).
  unfold refuse_percent. apply halts_try; [|intros; apply halts_ret].
  case_bool_decide; [apply adopt_halts|apply halts_ret].
Qed.

Lemma act_halts account decision tick submit w :
  halts auct_log answer w (act self pool account decision tick submit).
Proof.
  unfold act. repeat (destruct (_ && _); [apply halts_ret|]). apply halts_try.
  - unfold prepare_creation. destruct decision as [plan| |reason]; [| |apply halts_ret].
    + apply halts_try; [|intros; apply halts_ret]. unfold accept_percent.
      destruct (au_submitter self) as [[source config]|]; [apply walk_halts|apply halts_ret].
    + apply halts_try; [apply halts_ret|]. intros w1 operation.
      apply halts_try; [|intros; apply halts_ret]. unfold accept_bad_debt.
      destruct (au_submitter self) as [[source config]|]; [|apply halts_ret].
      apply halts_bind; [apply ask_halts|intros; apply halts_ret].
  - intros w1 [reason|[[[[[[kind percent] bids] lots] operation] simulated]|]]; try apply halts_ret.
    cbv zeta. apply halts_try; [apply auct_store_halts|]. intros w2 id.
    apply halts_try; [|intros; apply halts_ret]. destruct submit; [|apply halts_ret].
    apply halts_try; [|intros; apply halts_ret]. unfold submit_creation.
    apply halts_bind; [apply halts_perform|]. intros w3 [outcome|e]; [|apply halts_ret].
    apply halts_try; [apply auct_store_halts|intros; apply halts_ret].
Qed.

Lemma decide_halts users tick w : halts auct_log answer w (decide self pool users tick).
Proof.
  unfold decide. cbv zeta. destruct (filter _ _); destruct (map tu_account users); try apply halts_ret.
  apply halts_try.
  { apply halts_bind; [|intros; apply halts_ret].
    apply (halts_translate read auct_log ARead BRead (λ _ _ _, eq_refl)), snapshot_halts. }
  intros w1 snapshot. apply halts_try; [apply halts_ret|]. intros w2 reserves.
  apply halts_try; [|intros; apply halts_ret].
  match goal with |- halts _ _ _ (decide_each _ _ ?l _ _ _) => generalize l end.
  intros accounts. revert w2.
  induction accounts as [|a accounts IH]; intros w2; [apply halts_ret|]. cbn [decide_each].
  apply halts_bind.
  - unfold decide_one. destruct (is_own_account _ _ _); [apply halts_ret|].
    apply halts_try; [apply auct_store_halts|]. intros w3 [open|]; [apply halts_ret|].
    apply halts_try; [apply halts_ret|intros; apply halts_ret].
  - intros w3 [d|[]]; try apply halts_ret; (apply halts_try; [apply IH|intros; apply halts_ret]).
Qed.
End ending.

(** ** Properties *)


(** C19: a batch is decided from one snapshot, valued at one instant, and the
    store's open auctions. Deciding ends; it answers users in their order; the
    bot's own accounts and the pool are skipped without being read; a borrower
    with an auction open is left alone; any other gets what its values say: bad
    debt when it owes and holds nothing, a liquidation only at or below the
    threshold and with an excess to regain, a plan that is the first selection
    in range over a prefix of its largest positions. A borrower left out is
    one the snapshot cannot value. *)
Theorem decide_follows_policy `{ScDecode} `{Json} (self : Auctioneer) (pool : string)
    (users : list TrackedUser) (tick : LedgerTick) :
  (∀ W (answer : ∀ X : Type, AuctE X → W → X * W) w,
     halts auct_log answer w (decide self pool users tick)) ∧
  returns auct_log (decide self pool users tick) (λ tr r,
    match r with Ok decisions => decided self pool users tick tr decisions | Err _ => True end).
Proof. split; [intros; apply decide_halts|apply decide_returns]. Qed.

(** The watch reports a price exactly when it moved its threshold from the
    asset's reference, each asset at most once and in the direction it moved;
    the reference moves with it, so that the same prices asked again report
    nothing (unless the threshold is zero); and other pools' references are
    left alone. *)
Theorem price_moves_are_reported_once (watch : PriceWatch) (pool : string) (prices : OraclePrices)
    (now : Z) :
  let references := default ∅ (pw_references watch !! pool) in
  let '(watch', moves) := moved_prices watch pool prices now in
  (∀ asset d, mkPriceMove asset d ∈ moves ↔ ∃ price reference,
     op_prices prices !! asset = Some price ∧ references !! asset = Some reference ∧
     moved_direction price (rf_price reference) (pw_delta_bps watch) = Ok (Some d)) ∧
  Forall (λ move, ∃ price reference,
     op_prices prices !! pm_asset move = Some price ∧
     references !! pm_asset move = Some reference ∧
     moved_by price (rf_price reference) (pw_delta_bps watch) (pm_direction move)) moves ∧
  NoDup (map pm_asset moves) ∧
  (pw_delta_bps watch ≤ 0 ∨ (moved_prices watch' pool prices now).2 = []) ∧
  (∀ other, other = pool ∨ pw_references watch' !! other = pw_references watch !! other).
Proof.
  cbv zeta. destruct (moved_prices_exact watch now pool prices) as (refs & -> & Hrefs).
  set (references := default ∅ (pw_references watch !! pool)) in *.
  assert (∀ asset d, mkPriceMove asset d ∈ omap (report watch now references) (bt_iter (op_prices prices)) ↔
    ∃ price reference, op_prices prices !! asset = Some price ∧ references !! asset = Some reference ∧
      moved_direction price (rf_price reference) (pw_delta_bps watch) = Ok (Some d)) as Hin.
  { intros asset d. rewrite elem_of_reports. unfold judge_asset. split.
    - intros (price & Hp & Hj). destruct (references !! asset) as [reference|] eqn:Hr; [|done].
      destruct (moved_direction _ _ _) as [[d'|]|e] eqn:Hm; simpl in Hj; try done.
      injection Hj as <-. by exists price, reference.
    - intros (price & reference & Hp & Hr & Hm). exists price. by rewrite Hr, Hm. }
  split; [done|]. split.
  { apply Forall_forall. intros [asset d] (price & reference & Hp & Hr & Hm)%Hin. exists price, reference.
    split; [done|]. split; [done|]. by apply moved_direction_by. }
  split; [apply reports_once|]. split.
  - destruct (Z.leb_spec (pw_delta_bps watch) 0); [by left|right].
    set (watch' := mkPriceWatch _ _ _).
    destruct (moved_prices_exact watch' now pool prices) as (refs' & -> & _). simpl.
    rewrite lookup_insert_eq. simpl. apply elem_of_nil_inv. intros [asset d] (price & Hp & Hj)%elem_of_reports.
    rewrite Hrefs, Hp in Hj. unfold watch' in Hj. cbn [pw_delta_bps pw_stale_after] in Hj.
    by rewrite judged_again in Hj.
  - intros other. destruct (base.decide (other = pool)) as [->|Hne]; [by left|right].
    simpl. by rewrite lookup_insert_ne.
Qed.
