(* ===== verification/AuctioneerTask.v ===== *)
(** * The auctioneer's task ([src/service.rs])

    One pass a tick: the oracle scan and the full scan when they are due, then
    a batch of the borrowers flagged longest — decided, acted on, and each
    one's flag cleared or moved behind the rest. Submissions wait for the
    startup delay. *)

From S2P Require Import Prelude Fixed Position Encode Liquidation Chain Operations Decode Events.
From S2P Require Import Io Rpc Snapshot Store Submit Poller Tracker TrackerLoop Auctioneer.
Open Scope Z_scope.

Definition PRICE_REFERENCE_STALE_AFTER_SECS : Z := 86400.

Record AuctioneerCadence : Type := mkAuctioneerCadence {
  au_refresh_batch : Z;
  au_oracle_scan_ledgers : Z;
  au_oracle_phase : Z;
  au_full_scan_ledgers : Z;
  au_full_phase : Z;
  au_scan_health_factor : Z;
  au_price_delta_bps : Z;
  au_startup_delay_ledgers : Z;
}.

(** ** The startup gate *)

Record StartupGate : Type := mkStartupGate {
  first_tick_ledger : option Z;
  unlocked : bool;
}.

(** [StartupGate::new], its role aside. *)
Definition startup_gate_new : StartupGate := mkStartupGate None false.

(** [StartupGate::observe]. *)
Definition observe_tick (self : StartupGate) (tick : LedgerTick) (delay_ledgers : Z)
  : StartupGate * bool :=
  let first_ledger := default (lt_sequence tick) (first_tick_ledger self) in
  let elapsed := u32_saturating_sub (lt_sequence tick) first_ledger in
  let unlocked := unlocked self || (delay_ledgers <=? elapsed) in
  (mkStartupGate (Some first_ledger) unlocked, unlocked).

(** Some tick was a startup delay past the first one; the gate is open exactly
    then. *)
Definition delay_passed (delay : Z) (ticks : list LedgerTick) : Prop :=
  ∃ first tick, head ticks = Some first ∧ tick ∈ ticks ∧
    delay ≤ Z.max 0 (lt_sequence tick - lt_sequence first).

Definition gate_of (delay : Z) (ticks : list LedgerTick) (g : StartupGate) : Prop :=
  first_tick_ledger g = lt_sequence <$> head ticks ∧ (unlocked g = true ↔ delay_passed delay ticks).

Lemma new_gate_of delay : gate_of delay [] startup_gate_new.
Proof. split; [done|]. split; [done|]. by intros (? & ? & ? & _). Qed.

Lemma observe_gate delay g ticks tick :
  gate_of delay ticks g →
  let r := observe_tick g tick delay in
  gate_of delay (ticks ++ [tick]) r.1 ∧ r.2 = unlocked r.1.
Proof.
  intros [Hf Hu]. split; [|done]. unfold gate_of, delay_passed in *. simpl. rewrite Hf.
  destruct ticks as [|first ticks]; simpl in *; unfold u32_saturating_sub.
  - split; [done|]. rewrite orb_true_iff, Hu, Z.leb_le. split.
    + intros [(? & ? & ? & ?)|Hle]; [done|]. exists tick, tick. repeat split; [by constructor|lia].
    + intros (? & t & [= <-] & ->%list_elem_of_singleton & Hle). right. lia.
  - split; [done|]. rewrite orb_true_iff, Hu, Z.leb_le. split.
    + intros [(? & t & [= <-] & Hin & Hle)|Hle]; exists first; [exists t|exists tick];
        (split; [done|]); (split; [set_solver|lia]).
    + intros (? & t & [= <-] & Hin & Hle).
      rewrite app_comm_cons, elem_of_app, list_elem_of_singleton in Hin.
      destruct Hin as [Hin| ->]; [left|right; lia]. by exists first, t.
Qed.

Record AuctioneerState : Type := mkAuctioneerState {
  price_watches : gmap string PriceWatch;
  last_oracle_scan : gmap string Z;
  oracle_scan_retried : gset string;
  last_full_scan : gmap string Z;
  gate : StartupGate;
}.

(** [AuctioneerState::default]. *)
Definition auctioneer_state_default : AuctioneerState :=
  mkAuctioneerState ∅ ∅ ∅ ∅ startup_gate_new.

Section task.
Context `{ScDecode} `{Json}.
(** A task: its auctioneer, its cadence, the pools and whether a queue is
    there to submit through. *)
Context (auctioneer : Auctioneer) (cadence : AuctioneerCadence) (pools : list string).
Context (submission_queue : bool).

(** Only the store's failures end the task. *)
Abbreviation prog A := (io AuctE (result StoreError A)).

Definition stored_call {A : Type} (q : StoreE A) : prog A := perform (AStore A q).

(** ** The full scan *)

Fixpoint flag_users (pool : string) (users : list TrackedUser) (ledger : Z) : prog () :=
  match users with
  | [] => Ret (Ok ())
  | user :: users =>
      await? _ := stored_call (QFlagRecheck pool (tu_account user) ledger) in
      flag_users pool users ledger
  end.

(** [full_scan_and_flag]: the loop carries the count and the page's end. *)
Definition scan_page (pool : string) (threshold ledger page_limit : Z)
    (state : Z * option (Z * string))
  : io AuctE (Z * option (Z * string) + result StoreError Z) :=
  let '(flagged, after) := state in
  await stop := perform AShutdown in
  if stop : bool then Ret (inr (Ok flagged))
  else
    await page := stored_call (QUsersBelowHealth pool threshold page_limit after) in
    match page with
    | Err e => Ret (inr (Err e))
    | Ok page =>
        match last page with
        | None => Ret (inr (Ok flagged))
        | Some user =>
            await done := flag_users pool page ledger in
            Ret (match done with
                 | Err e => inr (Err e)
                 | Ok _ => inl (flagged + Z.of_nat (length page),
                                Some (tu_health_factor user, tu_account user))
                 end)
        end
    end.

Definition full_scan_and_flag (pool : string) (threshold ledger page_limit : Z) : prog Z :=
  ITree.iter (scan_page pool threshold ledger page_limit) (0, None).

(** ** Rechecks *)

(** [move_flag_forward]. *)
Definition move_flag_forward (pool account : string) (flagged_at : option Z) (tick : LedgerTick)
  : prog Z :=
  let retry_at := u32_saturating_add (lt_sequence tick) 1 in
  let ledger := match flagged_at with Some flagged => Z.max flagged retry_at | None => retry_at end in
  await? _ := stored_call (QFlagRecheck pool account ledger) in
  Ret (Ok ledger).

(** [note_creation] and [note_act]: what is notified. *)
Definition note_creation (pool : string) (outcome : CreationOutcome) : io AuctE () :=
  match co_submission outcome with
  | Some (TxSucceeded _ ledger _) =>
      perform (ANotify (match co_kind outcome with
        | CreatedAuction =>
            AuctionCreated pool (co_account outcome) (fp_get <$> co_percent outcome) ledger
        | CreatedBadDebt => BadDebtReported pool (co_account outcome) ledger
        end))
  | _ => Ret ()
  end.

Definition note_act (pool account : string) (acted : result AuctioneerError ActOutcome)
  : io AuctE () :=
  match acted with
  | Ok (ActRecorded outcome) => note_creation pool outcome
  | Err (AeQueue (QueueChain error)) => perform (ANotify (SubmissionDropped pool account error))
  | _ => Ret ()
  end.

(** [recheck_batch]: the ledger each flag of the batch was read at. *)
Definition flagged_at (batch : list TrackedUser) : gmap string Z :=
  foldl (λ m user, match tu_recheck_ledger user with
                   | Some ledger => <[tu_account user := ledger]> m
                   | None => m
                   end) ∅ batch.

Fixpoint move_undecided (pool : string) (accounts : list string) (flags : gmap string Z)
    (tick : LedgerTick) : prog () :=
  match accounts with
  | [] => Ret (Ok ())
  | account :: accounts =>
      await? _ := move_flag_forward pool account (flags !! account) tick in
      move_undecided pool accounts flags tick
  end.

(** One decision acted on, and the flag it answers for. *)
Definition recheck_one (pool account : string) (decision : Decision) (flags : gmap string Z)
    (tick : LedgerTick) (submit : bool) : prog () :=
  await acted := act auctioneer pool account decision tick submit in
  await _ := note_act pool account acted in
  match acted with
  | Err (AeStore error) => Ret (Err error)
  | Err _ => await? _ := move_flag_forward pool account (flags !! account) tick in Ret (Ok ())
  | Ok outcome =>
      if settled_act outcome then
        match flags !! account with
        | Some flagged_at =>
            await? _ := stored_call (QClearRecheck pool account flagged_at) in Ret (Ok ())
        | None => Ret (Ok ())
        end
      else await? _ := move_flag_forward pool account (flags !! account) tick in Ret (Ok ())
  end.

Fixpoint recheck_each (pool : string) (decisions : list (string * Decision))
    (flags : gmap string Z) (tick : LedgerTick) (submit : bool) : prog () :=
  match decisions with
  | [] => Ret (Ok ())
  | (account, decision) :: decisions =>
      await stop := perform AShutdown in
      if stop : bool then Ret (Ok ())
      else
        await? _ := recheck_one pool account decision flags tick submit in
        recheck_each pool decisions flags tick submit
  end.

Definition recheck_batch (pool : string) (batch : list TrackedUser) (tick : LedgerTick)
    (submit : bool) : prog () :=
  match batch with
  | [] => Ret (Ok ())
  | _ =>
      let flags := flagged_at batch in
      await decided := decide auctioneer pool batch tick in
      match decided with
      | Err (AeStore error) => Ret (Err error)
      | Err _ => Ret (Ok ())
      | Ok decisions =>
          let undecided : gset string :=
            list_to_set (map tu_account batch) ∖ list_to_set decisions.*1 in
          await? _ := move_undecided pool (set_iter undecided) flags tick in
          recheck_each pool decisions flags tick submit
      end
  end.

(** ** The oracle scan *)

Definition set_oracle_scan (pool : string) (watch : PriceWatch) (last : option Z) (retried : bool)
    (state : AuctioneerState) : AuctioneerState :=
  mkAuctioneerState
    (<[pool := watch]> (price_watches state))
    (match last with
     | Some ledger => <[pool := ledger]> (last_oracle_scan state)
     | None => last_oracle_scan state
     end)
    (if retried then {[pool]} ∪ oracle_scan_retried state else oracle_scan_retried state ∖ {[pool]})
    (last_full_scan state) (gate state).

(** [oracle_scan]. *)
Definition oracle_scan (pool : string) (tick : LedgerTick) (state : AuctioneerState)
  : io AuctE (AuctioneerState * result StoreError ()) :=
  let watch := default (price_watch_new (au_price_delta_bps cadence)
                          PRICE_REFERENCE_STALE_AFTER_SECS) (price_watches state !! pool) in
  await (watch, scanned) := scan_oracle pool watch tick in
  let again := bool_decide (pool ∈ oracle_scan_retried state) in
  Ret (match scanned with
       | Err (AeStore error) => (set_oracle_scan pool watch None again state, Err error)
       | Err (AeChain (LedgerMoved _ _)) =>
           if again then (set_oracle_scan pool watch (Some (lt_sequence tick)) false state, Ok ())
           else (set_oracle_scan pool watch None true state, Ok ())
       | _ => (set_oracle_scan pool watch (Some (lt_sequence tick)) false state, Ok ())
       end).

(** ** The pass *)

Definition set_full_scan (pool : string) (ledger : Z) (state : AuctioneerState) : AuctioneerState :=
  mkAuctioneerState (price_watches state) (last_oracle_scan state) (oracle_scan_retried state)
    (<[pool := ledger]> (last_full_scan state)) (gate state).

(** The body of [auctioneer_tick]'s loop, in its three steps. *)
Definition oracle_step (pool : string) (tick : LedgerTick) (state : AuctioneerState)
  : io AuctE (AuctioneerState * result StoreError ()) :=
  if scan_due (lt_sequence tick) (last_oracle_scan state !! pool) (au_oracle_phase cadence)
       (au_oracle_scan_ledgers cadence)
  then oracle_scan pool tick state else Ret (state, Ok ()).

Definition full_step (pool : string) (tick : LedgerTick) (state : AuctioneerState)
  : io AuctE (AuctioneerState * result StoreError ()) :=
  if scan_due (lt_sequence tick) (last_full_scan state !! pool) (au_full_phase cadence)
       (au_full_scan_ledgers cadence)
  then
    await scanned := full_scan_and_flag pool (au_scan_health_factor cadence) (lt_sequence tick)
                       (au_refresh_batch cadence) in
    Ret (match scanned with
         | Ok _ => (set_full_scan pool (lt_sequence tick) state, Ok ())
         | Err e => (state, Err e)
         end)
  else Ret (state, Ok ()).

Definition recheck_step (pool : string) (tick : LedgerTick) (submit : bool) : prog () :=
  await? batch := stored_call (QUsersNeedingRecheck pool (au_refresh_batch cadence)) in
  recheck_batch pool batch tick submit.

Fixpoint tick_pools (pools : list string) (tick : LedgerTick) (submit : bool)
    (state : AuctioneerState) : io AuctE (AuctioneerState * result StoreError ()) :=
  match pools with
  | [] => Ret (state, Ok ())
  | pool :: pools =>
      await stop := perform AShutdown in
      if stop : bool then Ret (state, Ok ())
      else
        await (state, scanned) := oracle_step pool tick state in
        match scanned with
        | Err e => Ret (state, Err e)
        | Ok _ =>
            await (state, flagged) := full_step pool tick state in
            match flagged with
            | Err e => Ret (state, Err e)
            | Ok _ =>
                await rechecked := recheck_step pool tick submit in
                match rechecked with
                | Err e => Ret (state, Err e)
                | Ok _ => tick_pools pools tick submit state
                end
            end
        end
  end.

(** [auctioneer_tick]. *)
Definition auctioneer_tick (tick : LedgerTick) (state : AuctioneerState)
  : io AuctE (AuctioneerState * result StoreError ()) :=
  let '(gate, may_submit) := observe_tick (gate state) tick (au_startup_delay_ledgers cadence) in
  let state := mkAuctioneerState (price_watches state) (last_oracle_scan state)
                 (oracle_scan_retried state) (last_full_scan state) gate in
  tick_pools pools tick (may_submit && submission_queue) state.

(** [auctioneer_loop]. *)
Definition auctioneer_turn (state : AuctioneerState)
  : io AuctE (AuctioneerState + result StoreError ()) :=
  await changed := perform AChanged in
  if negb changed then Ret (inr (Ok ()))
  else
    await stop := perform AShutdown in
    if stop : bool then Ret (inr (Ok ()))
    else
      await tick := perform ATick in
      await (state, ticked) := auctioneer_tick tick state in
      Ret (match ticked with Ok _ => inl state | Err e => inr (Err e) end).

Definition auctioneer_loop : prog () := ITree.iter auctioneer_turn auctioneer_state_default.
End task.
