(* ===== verification/AuctioneerTaskContract.v ===== *)
(** * What the auctioneer's task promises ([src/service.rs])

    Nothing is submitted before the startup delay; the store's first failure
    ends the task and nothing else does; the full scan leaves no row below its
    threshold unflagged; and a queue of flags is served in turn, however many
    of its borrowers fail. *)

From stdpp Require Import sorting.
From S2P Require Import Prelude Fixed Reserve Position Auction Encode Liquidation Chain Operations.
From S2P Require Import Decode Events Io Rpc Snapshot Store Rows Submit Poller Tracker TrackerLoop.
From S2P Require Import Auctioneer AuctioneerContract AuctioneerTask.
Open Scope Z_scope.

(** ** The task's submissions and its end *)

Section task.
Context `{ScDecode} `{Json} (auctioneer : Auctioneer) (cadence : AuctioneerCadence).
Context (pools : list string) (submission_queue : bool).

Abbreviation delay_passed := (AuctioneerTask.delay_passed (au_startup_delay_ledgers cadence)).
Abbreviation gate_of := (AuctioneerTask.gate_of (au_startup_delay_ledgers cadence)).

Definition may_send (ticks : list LedgerTick) : Prop :=
  delay_passed ticks ∧ submission_queue = true ∧
  is_Some (au_submitter auctioneer) ∧ ac_dry_run (au_config auctioneer) = false.

(** The ticks seen, and the store's failure. *)
Record TaskState : Type := mkTask { k_ticks : list LedgerTick; k_failed : option StoreError }.

Definition task_start : TaskState := mkTask [] None.

(** Once the store has failed nothing more is called. *)
Definition task_step (q : TaskState) (o : AuctObs) (q' : TaskState) : Prop :=
  k_failed q = None ∧
  match o with
  | BTick tick => q' = mkTask (k_ticks q ++ [tick]) None
  | BEnqueue _ _ => may_send (k_ticks q) ∧ q' = q
  | BStore _ _ (Err e) => q' = mkTask (k_ticks q) (Some e)
  | _ => q' = q
  end.

Abbreviation upholds := (follows auct_log task_step).

(** A part of a pass, told whether it may submit: it sees no tick, and what it
    answers says whether the store failed. *)
Definition part_of_pass (submit : bool) {R : Type} (failure : R → option StoreError)
    (t : io AuctE R) : Prop :=
  ∀ ticks, (submit = true → delay_passed ticks ∧ submission_queue = true) →
    upholds (mkTask ticks None) t (λ r q', q' = mkTask ticks (failure r)).

Definition store_failure {A : Type} (r : result AuctioneerError A) : option StoreError :=
  match r with Err (AeStore e) => Some e | _ => None end.
Definition the_error {A : Type} (r : result StoreError A) : option StoreError :=
  match r with Err e => Some e | Ok _ => None end.
Definition no_failure {A : Type} (r : A) : option StoreError := None.

(** ** Lemmas: parts of a pass *)

Section parts.
Context (submit : bool).
Abbreviation part := (part_of_pass submit).

Lemma part_ret {R} failure (r : R) : failure r = None → part failure (Ret r).
Proof. intros Hr ticks _. apply follows_ret. by rewrite Hr. Qed.

(** Nothing more is called, and the store's failure is what is answered. *)
Definition gives_up {R} (failure : R → option StoreError) (e : StoreError) (t : io AuctE R) : Prop :=
  ∀ q, upholds q t (λ r q', q' = q ∧ failure r = Some e).

Lemma gives_up_ret {R} (failure : R → option StoreError) e r :
  failure r = Some e → gives_up failure e (Ret r).
Proof. intros Hr q. by apply follows_ret. Qed.

(** A part, and what comes after it: nothing, where the store failed. *)
Lemma part_bind {A B} (failure : A → option StoreError) (failure' : B → option StoreError)
    (t : io AuctE A) (k : A → io AuctE B) :
  part failure t →
  (∀ r, match failure r with
        | None => part failure' (k r)
        | Some e => gives_up failure' e (k r)
        end) →
  part failure' (ITree.bind t k).
Proof.
  intros Ht Hk ticks Hs. eapply follows_bind; [by apply Ht|]. intros r q ->. specialize (Hk r).
  destruct (failure r) as [e|]; [|by apply Hk].
  eapply follows_weaken; [apply Hk|]. by intros r' q [-> ->].
Qed.

Lemma part_call {A} (q : StoreE A) : part the_error (stored_call q).
Proof. intros ticks _. apply follows_perform. intros [a|e]; eexists; repeat split. Qed.

Lemma part_auct_store {A} (q : StoreE A) : part store_failure (auct_store q).
Proof.
  unfold auct_store. eapply part_bind; [apply part_call|]. intros [a|e]; simpl; [by apply part_ret|by apply gives_up_ret].
Qed.

Lemma part_try {A B} (t : io AuctE (result AuctioneerError A))
    (k : A → io AuctE (result AuctioneerError B)) :
  part store_failure t → (∀ a, part store_failure (k a)) → part store_failure (try_await t k).
Proof.
  intros Ht Hk. eapply part_bind; [exact Ht|]. intros [a|e]; simpl; [apply Hk|].
  destruct e; simpl; try by apply part_ret. by apply gives_up_ret.
Qed.

Lemma part_store_try {A B} (t : io AuctE (result StoreError A))
    (k : A → io AuctE (result StoreError B)) :
  part the_error t → (∀ a, part the_error (k a)) → part the_error (try_await t k).
Proof.
  intros Ht Hk. eapply part_bind; [exact Ht|]. intros [a|e]; simpl; [apply Hk|by apply gives_up_ret].
Qed.

Lemma part_submit {A} failure (t1 t2 : io AuctE A) :
  (submit = true → part failure t1) → part failure t2 → part failure (if submit then t1 else t2).
Proof. intros Ht1 Ht2. destruct submit eqn:Hs; [by apply Ht1|done]. Qed.

(** Calls that are no submission, no tick and not the store's. *)
Definition neutral (o : AuctObs) : Prop :=
  match o with BTick _ | BEnqueue _ _ | BStore _ _ _ => False | _ => True end.

Lemma part_neutral {R} (t : io AuctE R) : emits auct_log neutral t → part no_failure t.
Proof.
  intros Ht ticks _. eapply follows_weaken.
  - eapply (emits_follows _ neutral); [exact Ht|]. intros o Ho. split; [done|]. by destruct o.
  - by intros r q ->.
Qed.

Lemma part_reads {R} (m : io ReadE R) : part no_failure (translate ARead m).
Proof.
  apply part_neutral, (emits_translate read auct_log ARead BRead (λ _ _ _, eq_refl)). done.
Qed.
Lemma part_net {R} (m : io NetE R) : part no_failure (translate ANet m).
Proof. apply part_neutral, (emits_translate seen auct_log ANet BNet (λ _ _ _, eq_refl)). done. Qed.
Lemma part_notify n : part no_failure (perform (ANotify n)).
Proof. apply part_neutral, emits_perform. done. Qed.
Lemma part_shutdown : part no_failure (perform AShutdown).
Proof. apply part_neutral, emits_perform. done. Qed.
(** ** Lemmas: deciding and acting *)

(** A step of a program: [part_step] takes one bind off. *)
Ltac part_step :=
  first
  [ by apply part_ret
  | apply part_try; [|let r := fresh "r" in intros r]
  | apply part_store_try; [|let r := fresh "r" in intros r]
  | apply part_auct_store
  | apply part_call
  | eapply part_bind; [apply part_reads|let r := fresh "r" in intros r; simpl]
  | eapply part_bind; [apply part_net|let r := fresh "r" in intros r; simpl]
  | eapply part_bind; [apply part_shutdown|let r := fresh "r" in intros r; simpl] ].

Lemma part_pure_try {A B} (r : result AuctioneerError A)
    (k : A → io AuctE (result AuctioneerError B)) :
  store_failure r = None → (∀ a, part store_failure (k a)) →
  part store_failure (try_await (Ret r) k).
Proof. intros Hr Hk. apply part_try; [by apply part_ret|done]. Qed.

Lemma chain_error_is_none {A} (r : result ChainError A) : store_failure (map_err AeChain r) = None.
Proof. by destruct r. Qed.
Lemma math_error_is_none {A} (r : result MathError A) : store_failure (map_err AeMath r) = None.
Proof. by destruct r. Qed.
Lemma xdr_error_is_none {A} (r : result (XdrError XdrLibraryError) A) :
  store_failure (map_err (λ e, AeChain (XdrFailure e)) r) = None.
Proof. by destruct r. Qed.

Lemma part_auct_read {A} (m : io ReadE (result ChainError A)) : part store_failure (auct_read m).
Proof. unfold auct_read. part_step. apply part_ret, chain_error_is_none. Qed.

Lemma part_adopt pool account : part store_failure (adopt pool account).
Proof. unfold adopt. part_step. destruct r as [[[at_ a]|]|e]; repeat part_step. Qed.

Lemma part_walk pool account plan config iterations : ∀ p,
  part store_failure (walk_percent pool account plan config iterations p).
Proof.
  induction iterations as [|iterations IH]; intros p; [part_step|]. cbn [walk_percent].
  apply part_pure_try; [apply xdr_error_is_none|]. intros operation. part_step.
  destruct r as [[|code message|]|e]; try by part_step.
  repeat case_bool_decide; try (destruct (step_percent _); [apply IH|part_step]).
  unfold refuse_percent. part_step; [|part_step].
  case_bool_decide; [apply part_adopt|part_step].
Qed.

Lemma part_prepare pool account decision :
  part store_failure (prepare_creation auctioneer pool account decision).
Proof.
  unfold prepare_creation. destruct decision as [plan| |reason]; [| |part_step].
  - part_step; [|part_step]. unfold accept_percent.
    destruct (au_submitter auctioneer) as [[source config]|]; [apply part_walk|].
    apply part_ret. unfold build_auction. by destruct (new_auction_op _ _ _ _ _).
  - apply part_pure_try; [apply xdr_error_is_none|]. intros operation. part_step; [|part_step].
    unfold accept_bad_debt. destruct (au_submitter auctioneer) as [[source config]|]; [|part_step].
    part_step. apply part_ret. by destruct r.
Qed.

Lemma part_act pool account decision tick :
  part store_failure (act auctioneer pool account decision tick submit).
Proof.
  unfold act. destruct (submit && negb _) eqn:Hkey; [part_step|].
  destruct (submit && ac_dry_run _) eqn:Hdry; [part_step|]. part_step; [apply part_prepare|].
  destruct r as [reason|[[[[[[kind percent] bids] lots] operation] simulated]|]]; try by part_step.
  cbv zeta. part_step; [part_step|]. part_step; [|by part_step].
  apply part_submit; [intros Hs|by part_step]. rewrite Hs in Hkey, Hdry.
  part_step; [|by part_step]. unfold submit_creation. eapply (part_bind no_failure).
  - intros ticks Hready. apply follows_perform. intros sent. eexists. split; [|done].
    split; [done|]. split; [|done]. destruct (Hready Hs). split; [done|]. split; [done|].
    split; [|by destruct (ac_dry_run _)]. by destruct (bool_decide_reflect (is_Some (au_submitter auctioneer))).
  - intros [outcome|e]; simpl; repeat part_step.
Qed.

Lemma part_decide pool users tick : part store_failure (decide auctioneer pool users tick).
Proof.
  unfold decide. cbv zeta. destruct (filter _ _); destruct (map tu_account users); try by part_step.
  part_step; [apply part_auct_read|]. rename r into snapshot. apply part_pure_try; [apply math_error_is_none|].
  intros reserves. part_step; [|part_step].
  match goal with |- part _ (decide_each _ _ ?l _ _ _) => generalize l end.
  intros accounts. induction accounts as [|b accounts IH]; [part_step|]. cbn [decide_each].
  eapply (part_bind store_failure).
  - unfold decide_one. destruct (is_own_account _ _ _); [part_step|]. part_step; [part_step|].
    destruct r; [part_step|]. apply part_pure_try; [apply chain_error_is_none|]. intros data.
    apply part_ret. destruct data as [data|]; [|done]. unfold judge_position.
    destruct (_ && _); [done|]. destruct (health_factor data) as [[health|]|]; try done. simpl.
    destruct (mul_floor _ _ _); simpl; [|done]. destruct (_ <? _); [done|].
    destruct (ps_positions _ !! _); [|done].
    destruct (position_values _ _ _) as [[collateral liabilities]|]; [|done]. simpl.
    by destruct (default _ _).
  - intros [d|[]]; simpl; try (part_step; [apply IH|part_step]). by apply gives_up_ret.
Qed.
(** ** Lemmas: the steps of a pass *)

Lemma part_flag_users pool users ledger : part the_error (flag_users pool users ledger).
Proof. induction users as [|user users IH]; [by part_step|]. part_step; [part_step|exact IH]. Qed.

Lemma part_full_scan pool threshold ledger page_limit :
  part the_error (full_scan_and_flag pool threshold ledger page_limit).
Proof.
  intros ticks Hs. apply (follows_iter _ _ (λ _ q, q = mkTask ticks None)); [done|].
  intros [flagged after] q ->. revert ticks Hs.
  cut (part (λ r, match r with inl _ => None | inr r => the_error r end)
    (scan_page pool threshold ledger page_limit (flagged, after))).
  { intros Hp ticks Hs. eapply follows_weaken; [by apply Hp|]. by intros [state|r] q ->. }
  unfold scan_page. part_step. destruct r; [by part_step|].
  eapply (part_bind the_error); [part_step|]. intros [page|e]; simpl; [|by apply gives_up_ret].
  destruct (last page) as [user|]; [|by part_step].
  eapply (part_bind the_error); [apply part_flag_users|]. intros [u|e]; simpl; [by part_step|by apply gives_up_ret].
Qed.

Lemma part_move pool account flagged_at tick :
  part the_error (move_flag_forward pool account flagged_at tick).
Proof. unfold move_flag_forward. cbv zeta. part_step; [part_step|by part_step]. Qed.

Lemma part_note_act pool account acted : part no_failure (note_act pool account acted).
Proof.
  unfold note_act, note_creation. destruct acted as [[reason| |outcome]|[]]; try by part_step.
  - destruct (co_submission outcome) as [[]|]; try by part_step. apply part_notify.
  - match goal with e : QueueError |- _ => destruct e end; try by part_step. apply part_notify.
Qed.

Lemma part_recheck_one pool account decision flags tick :
  part the_error (recheck_one auctioneer pool account decision flags tick submit).
Proof.
  assert (part the_error (await? _ := move_flag_forward pool account (flags !! account) tick in
                          Ret (Ok ()))) as Hmove.
  { part_step; [apply part_move|by part_step]. }
  unfold recheck_one. eapply part_bind; [apply part_act|].
  intros [outcome|e]; cbn [store_failure].
  - eapply part_bind; [apply part_note_act|]. intros []. cbn [no_failure]. destruct (settled_act outcome); [|done].
    destruct (flags !! account); [|by part_step]. part_step; [part_step|by part_step].
  - destruct e; cbn [store_failure]; try (eapply part_bind; [apply part_note_act|]; intros []; apply Hmove).
    intros q. eapply follows_bind; [by apply (follows_ret _ _ _ _ (λ _ q', q' = q))|].
    intros [] q' ->. by apply follows_ret.
Qed.
Lemma part_move_undecided pool accounts flags tick :
  part the_error (move_undecided pool accounts flags tick).
Proof.
  induction accounts as [|a accounts IH]; [by part_step|]. part_step; [apply part_move|exact IH].
Qed.

Lemma part_recheck_each pool decisions flags tick :
  part the_error (recheck_each auctioneer pool decisions flags tick submit).
Proof.
  induction decisions as [|[a d] decisions IH]; [by part_step|]. cbn [recheck_each].
  part_step. destruct r; [by part_step|]. part_step; [apply part_recheck_one|exact IH].
Qed.

Lemma part_recheck_batch pool batch tick :
  part the_error (recheck_batch auctioneer pool batch tick submit).
Proof.
  unfold recheck_batch. destruct batch as [|u batch]; [by part_step|]. cbv zeta.
  eapply part_bind; [apply part_decide|].
  intros [decisions|[]]; cbn [store_failure]; try by part_step.
  - part_step; [apply part_move_undecided|apply part_recheck_each].
  - by apply gives_up_ret.
Qed.

Lemma part_recheck_step pool tick :
  part the_error (recheck_step auctioneer cadence pool tick submit).
Proof. unfold recheck_step. part_step; [part_step|apply part_recheck_batch]. Qed.

Lemma part_flag_moves pool snapshot ledger moves : ∀ flagged,
  part store_failure (flag_moves pool snapshot ledger moves flagged).
Proof.
  induction moves as [|move moves IH]; intros flagged; [by part_step|]. cbn [flag_moves].
  destruct (ps_asset_index snapshot !! pm_asset move); [|apply IH]. part_step; [part_step|apply IH].
Qed.

(** What a step of the pass leaves in the state is not the gate. *)
Definition pass_failure (r : AuctioneerState * result StoreError ()) : option StoreError :=
  the_error r.2.

Lemma part_oracle_step pool tick state : part pass_failure (oracle_step cadence pool tick state).
Proof.
  unfold oracle_step. destruct (scan_due _ _ _ _); [|by part_step]. unfold oracle_scan. cbv zeta.
  eapply (part_bind (λ r, store_failure r.2)).
  - unfold scan_oracle. eapply part_bind; [apply part_auct_read|].
    intros [snapshot|[]]; cbn [store_failure];
      [|by part_step|by apply gives_up_ret|by part_step|by part_step].
    destruct (moved_prices _ _ _ _) as [watch moves].
    eapply part_bind; [apply part_flag_moves|]. intros [n|[]]; cbn [store_failure]; try by part_step.
    by apply gives_up_ret.
  - intros [watch [n|[]]]; simpl; [by part_step| |by apply gives_up_ret|by part_step|by part_step].
    destruct e; try by part_step. case_bool_decide; by part_step.
Qed.

Lemma part_full_step pool tick state : part pass_failure (full_step cadence pool tick state).
Proof.
  unfold full_step. destruct (scan_due _ _ _ _); [|by part_step].
  eapply part_bind; [apply part_full_scan|].
  intros [n|e]; simpl; [by part_step|by apply gives_up_ret].
Qed.

Lemma part_tick_pools followed tick : ∀ state,
  part pass_failure (tick_pools auctioneer cadence followed tick submit state).
Proof.
  induction followed as [|pool followed IH]; intros state; [by part_step|]. cbn [tick_pools].
  part_step. destruct r; [by part_step|].
  eapply part_bind; [apply part_oracle_step|]. intros [state1 [[]|e]]; simpl; [|by apply gives_up_ret].
  eapply part_bind; [apply part_full_step|]. intros [state2 [[]|e]]; simpl; [|by apply gives_up_ret].
  eapply part_bind; [apply part_recheck_step|]. intros [[]|e]; simpl; [apply IH|by apply gives_up_ret].
Qed.
End parts.

(** ** Lemmas: the gate *)

Definition same_gate (state : AuctioneerState) (r : AuctioneerState * result StoreError ()) : Prop :=
  gate r.1 = gate state.

Lemma returns_any {R} (t : io AuctE R) : returns auct_log t (λ _ _, True).
Proof. intros n tr o _. by destruct o. Qed.

Lemma oracle_step_gate pool tick state :
  returns auct_log (oracle_step cadence pool tick state) (λ _, same_gate state).
Proof.
  unfold oracle_step. destruct (scan_due _ _ _ _); [|by apply returns_ret].
  eapply returns_bind; [apply returns_any|]. intros [watch scanned] tr _. apply returns_ret.
  destruct scanned as [n|[[]| | |]]; try done. by case_bool_decide.
Qed.

Lemma full_step_gate pool tick state :
  returns auct_log (full_step cadence pool tick state) (λ _, same_gate state).
Proof.
  unfold full_step. destruct (scan_due _ _ _ _); [|by apply returns_ret].
  eapply returns_bind; [apply returns_any|]. intros [n|e] tr _; by apply returns_ret.
Qed.

Lemma tick_pools_gate followed tick submit : ∀ state,
  returns auct_log (tick_pools auctioneer cadence followed tick submit state) (λ _, same_gate state).
Proof.
  induction followed as [|pool followed IH]; intros state; [by apply returns_ret|]. cbn [tick_pools].
  eapply returns_bind; [apply returns_any|]. intros [|] tr1 _; [by apply returns_ret|].
  eapply returns_bind; [apply oracle_step_gate|].
  intros [state1 [u|e]] tr2 Hg1; [|by apply returns_ret].
  eapply returns_bind; [apply full_step_gate|].
  intros [state2 [u'|e]] tr3 Hg2; [|apply returns_ret; unfold same_gate in *; simpl in *; congruence].
  assert (gate state2 = gate state) as Hg by (unfold same_gate in *; simpl in *; congruence).
  eapply returns_bind; [apply returns_any|]. intros [u''|e] tr4 _; [|by apply returns_ret].
  eapply returns_weaken; [apply IH|]. intros tr r Hr. unfold same_gate in *. congruence.
Qed.

Lemma task_follows :
  upholds task_start (auctioneer_loop auctioneer cadence pools submission_queue)
    (λ r q, k_failed q = the_error r).
Proof.
  apply (follows_iter _ _ (λ state q, k_failed q = None ∧ gate_of (k_ticks q) (gate state))).
  { split; [done|apply new_gate_of]. }
  intros state [ticks failed] [Hf Hg]. simpl in *. subst failed. unfold auctioneer_turn.
  apply follows_call. intros changed. eexists. split; [by split|].
  destruct changed; [|by apply follows_ret].
  apply follows_call. intros stop. eexists. split; [by split|].
  destruct stop; [by apply follows_ret|].
  apply follows_call. intros tick. eexists. split; [by split|].
  pose proof (observe_gate _ _ _ tick Hg) as Hobs. unfold auctioneer_tick.
  destruct (observe_tick _ _ _) as [g may_submit]. destruct Hobs as [Hopened Hopen].
  simpl in Hopened, Hopen. clear Hg.
  apply (follows_bind _ _ _ _ _ (λ r q, q = mkTask (ticks ++ [tick]) (the_error r.2) ∧ gate r.1 = g)).
  - eapply always_weaken; [apply always_and; [eapply part_tick_pools|apply tick_pools_gate]|].
    + intros [Hm ->]%andb_true_iff. split; [|done]. apply Hopened. by rewrite <- Hopen.
    + intros tr [r|] [(q & Hs & Hq) Hr]; exists q; split; done.
  - intros [state' [u|e]] q [-> Hg']; apply follows_ret; simpl in *; [|done].
    by rewrite Hg'.
Qed.
End task.

(** ** A queue of flags *)

Section flags.
Context `{ScDecode} `{Json} (debug_str : string → string) (pool : string) (L : Z).

Definition flag (d : Db) (k : string * string) : option Z := db_users d !! k ≫= ur_recheck_ledger.

(** A flag is as it was, gone, or newer than [L]. *)
Definition later (d d' : Db) : Prop :=
  ∀ k, flag d' k = flag d k ∨ (∀ f, flag d' k = Some f → L < f).

#[export] Instance later_preorder : PreOrder later.
Proof.
  split; [by left|]. intros d1 d2 d3 H12 H23 k. destruct (H23 k) as [->|]; [apply H12|by right].
Qed.

(** The accounts of the pool flagged at [L] or before. *)
Definition is_overdue (e : string * string * UserRow) : Prop :=
  e.1.1 = pool ∧ match ur_recheck_ledger e.2 with Some f => f <=? L | None => false end = true.
#[export] Instance is_overdue_dec e : base.Decision (is_overdue e).
Proof. unfold is_overdue. apply _. Defined.

Definition overdue (d : Db) : gset (string * string) := dom (filter is_overdue (db_users d)).

Lemma elem_of_overdue d k : k ∈ overdue d ↔ k.1 = pool ∧ ∃ f, flag d k = Some f ∧ f ≤ L.
Proof.
  unfold overdue, flag. rewrite elem_of_dom. split.
  - intros [row [Hrow [Hp Hf]]%map_lookup_filter_Some]. split; [done|]. rewrite Hrow. simpl in *.
    destruct (ur_recheck_ledger row) as [f|]; [|done]. exists f. split; [done|lia].
  - intros (Hp & f & (row & Hrow & Hf)%bind_Some & Hle). exists row.
    apply map_lookup_filter_Some. split; [done|]. split; [done|]. simpl. rewrite Hf. lia.
Qed.

Lemma later_overdue d d' : later d d' → overdue d' ⊆ overdue d.
Proof.
  intros Hl k. rewrite !elem_of_overdue. intros (Hp & f & Hf & Hle). split; [done|].
  destruct (Hl k) as [Hs|Hs]; [exists f; by rewrite <- Hs|]. specialize (Hs f Hf). lia.
Qed.

(** ** The batch *)

Definition flagged_row (e : string * UserRow) : Z := default 0 (ur_recheck_ledger e.2).

#[export] Instance by_recheck_total : Total by_recheck.
Proof.
  intros [a1 r1] [a2 r2]. unfold by_recheck. rewrite !health_lt_false. simpl.
  destruct (Z.lt_trichotomy (default 0 (ur_recheck_ledger r1)) (default 0 (ur_recheck_ledger r2)))
    as [?|[?|?]]; [left; by left| |right; by left].
  destruct (total string_le a1 a2); [left; right|right; right]; split; done || lia.
Qed.

Lemma recheck_sorted rows :
  StronglySorted (λ x y, flagged_row x ≤ flagged_row y) (merge_sort by_recheck rows).
Proof.
  apply Sorted_StronglySorted; [intros x y z; lia|].
  eapply sorted_impl; [|apply (Sorted_merge_sort by_recheck)].
  intros x y. unfold by_recheck, health_lt, flagged_row. intros [Hlt _]%orb_false_iff. lia.
Qed.

(** The batch: flagged accounts of the pool, each once and with its flag, and
    the overdue ones first. *)
Lemma served_batch limit d us d' :
  served debug_str (QUsersNeedingRecheck pool limit) d (Ok us) d' →
  d' = d ∧ NoDup (map tu_account us) ∧
  (∀ u, u ∈ us → is_Some (tu_recheck_ledger u) ∧ flag d (pool, tu_account u) = tu_recheck_ledger u) ∧
  size (overdue d ∖ keys_of pool (map tu_account us)) = (size (overdue d) - Z.to_nat limit)%nat.
Proof.
  intros (ties & _ & [= <- Hr]). split; [done|].
  set (rows := merge_sort by_recheck _) in Hr.
  assert (rows ≡ₚ pool_users pool (λ _ row, bool_decide (is_Some (ur_recheck_ledger row))) d) as Hp
    by apply merge_sort_Permutation.
  assert (NoDup rows.*1) as Hnd by (rewrite Hp; apply pool_users_nodup).
  split; [|split].
  - rewrite (read_users_accounts _ _ _ _ Hr), fmap_take. eapply sublist_NoDup; [exact Hnd|].
    apply sublist_take.
  - intros u (i & Hi)%list_elem_of_lookup. apply read_users_each in Hr.
    destruct (Forall2_lookup_r _ _ _ _ _ Hr Hi) as ([a row] & Hrow & Hu).
    apply user_of_row in Hu as (-> & _ & ->). apply list_elem_of_lookup_2 in Hrow.
    assert ((a, row) ∈ rows) as Hin
      by (rewrite <- (take_drop (Z.to_nat limit) rows); apply elem_of_app; by left).
    clear Hrow. rename Hin into Hrow. rewrite Hp in Hrow. apply elem_of_pool_users in Hrow as [Hrow Hsome%bool_decide_eq_true].
    simpl in *. unfold flag. by rewrite Hrow.
  - rewrite (read_users_accounts _ _ _ _ Hr).
    apply (selection_takes flagged_row (L + 1)); [done|apply recheck_sorted|].
    apply set_eq. intros [p a]. rewrite elem_of_overdue, elem_of_keys, list_elem_of_fmap. simpl.
    unfold flag. split; intros [-> Hk]; (split; [done|]).
    + destruct Hk as (f & (row & Hrow & Hf)%bind_Some & Hle). exists (a, row). split; [done|].
      apply list_elem_of_filter. unfold below, flagged_row. simpl. rewrite Hf. split; [simpl; lia|].
      rewrite Hp. apply elem_of_pool_users. split; [done|]. simpl. rewrite Hf. by apply bool_decide_eq_true_2.
    + destruct Hk as ([b row] & -> & [Hb Hin]%list_elem_of_filter). rewrite Hp in Hin.
      apply elem_of_pool_users in Hin as [Hrow [f Hf]%bool_decide_eq_true]. simpl in *.
      exists f. rewrite Hrow. split; [done|]. unfold below, flagged_row in Hb. simpl in Hb.
      rewrite Hf in Hb. simpl in Hb. lia.
Qed.

(** ** The world: the tables, and what was called *)

Definition World : Type := (Db * list AuctObs)%type.

(** Other tasks leave flags later. *)
Definition queue_step (w : World) (o : AuctObs) (w' : World) : Prop :=
  w'.2 = w.2 ++ [o] ∧
  match o with
  | BStore A q r => ∃ d, later w.1 d ∧ served debug_str q d r w'.1
  | _ => later w.1 w'.1
  end.

Abbreviation queue_under := (under auct_log queue_step).

Definition onward (w w' : World) : Prop := later w.1 w'.1 ∧ ∃ tr, w'.2 = w.2 ++ tr.

#[export] Instance onward_preorder : PreOrder onward.
Proof.
  split; [intros w; split; [done|exists []; by rewrite app_nil_r]|].
  intros w1 w2 w3 [Hl1 [tr1 Hh1]] [Hl2 [tr2 Hh2]]. split; [by etrans|].
  exists (tr1 ++ tr2). by rewrite Hh2, Hh1, app_assoc.
Qed.

(** Calls that leave flags later too. *)
Definition defers {A : Type} (q : StoreE A) : Prop :=
  ∀ ties d, later d (run_store debug_str ties q d).1.
Definition deferring (o : AuctObs) : Prop :=
  match o with BStore A q r => defers q | _ => True end.

Lemma served_later {A} (q : StoreE A) d r d' :
  defers q → served debug_str q d r d' → later d d'.
Proof.
  intros Hq. destruct r as [a|e]; simpl.
  - intros (ties & _ & Hr). pose proof (Hq ties d) as Hl. by rewrite Hr in Hl.
  - intros [-> |(ties & _ & ->)]; [done|apply Hq].
Qed.

Lemma queue_step_onward w o w' : deferring o → queue_step w o w' → onward w w'.
Proof.
  intros Ho [Hh Hs]. split; [|by exists [o]].
  destruct o; simpl in *; try done. destruct Hs as (d & Hl & Hs). etrans; [done|].
  by eapply served_later.
Qed.

Lemma deferring_under {R} w (t : io AuctE R) :
  emits auct_log deferring t → queue_under w t (onward w) (λ _ w', onward w w').
Proof.
  intros Ht. eapply always_weaken; [exact Ht|]. intros tr o Htr w' Hs.
  assert (onward w w') as Hw; [|by destruct o].
  revert w Hs. clear -Htr. induction Htr as [|o1 tr Ho _ IH]; intros w.
  - by intros ->%steps_nil_inv.
  - intros (w1 & Hs1 & Hs2)%steps_cons_inv. etrans; [by eapply queue_step_onward|by apply IH].
Qed.

Lemma same_users_defers {A} (q : StoreE A) :
  (∀ ties d, db_users (run_store debug_str ties q d).1 = db_users d) → defers q.
Proof. intros Hq ties d k. left. unfold flag. by rewrite Hq. Qed.

Lemma flag_defers p a ledger : L < ledger → defers (QFlagRecheck p a ledger).
Proof.
  intros Hlt ties d k. unfold flag. simpl. destruct (base.decide (k = (p, a))) as [->|Hk].
  - rewrite lookup_alter_eq. destruct (db_users d !! (p, a)) as [row|]; simpl; [|by left].
    right. intros f [= <-]. destruct (ur_recheck_ledger row); lia.
  - left. by rewrite lookup_alter_ne.
Qed.

Lemma clear_defers p a f : defers (QClearRecheck p a f).
Proof.
  intros ties d k. unfold flag. simpl. unfold clear_recheck.
  destruct (db_users d !! (p, a)) as [row|] eqn:Hrow; [|by left]. case_bool_decide; [|by left].
  simpl. destruct (base.decide (k = (p, a))) as [->|Hk].
  - rewrite lookup_insert_eq. right. done.
  - left. by rewrite lookup_insert_ne.
Qed.

(** Reads leave the tables alone; the writes of acting leave flags alone. *)
Lemma act_defers auctioneer p a decision tick submit :
  emits auct_log deferring (act auctioneer p a decision tick submit).
Proof.
  eapply emits_always; [apply act_follows|]. intros tr o (q' & Hs & _).
  induction Hs as [|q o' q1 tr q2 Ho _ IH]; constructor; [|done].
  destruct Ho; try done; apply same_users_defers; intros ties d; simpl; try done.
  all: unfold upsert_auction, record_creation, attach_creation_tx; repeat case_match; done.
Qed.

Lemma decide_defers auctioneer p users tick :
  emits auct_log deferring (decide auctioneer p users tick).
Proof.
  unfold decide. cbv zeta. destruct (filter _ _); destruct (map tu_account users); try apply emits_ret.
  assert (∀ {A} (q : StoreE A), defers q → emits auct_log deferring (auct_store q)) as Hstore.
  { intros A q Hq. unfold auct_store. apply emits_bind; [|intros; apply emits_ret].
    apply emits_perform. intros x. apply Hq. }
  apply emits_try; [|intros snapshot; apply emits_try; [apply emits_ret|intros reserves]].
  { apply emits_bind; [|intros; apply emits_ret].
    apply (emits_translate read auct_log ARead BRead (λ _ _ _, eq_refl)). done. }
  apply emits_try; [|intros; apply emits_ret].
  match goal with |- emits _ _ (decide_each _ _ ?l _ _ _) => generalize l end.
  intros accounts. induction accounts as [|a accounts IH]; [apply emits_ret|]. cbn [decide_each].
  apply emits_bind.
  - unfold decide_one. destruct (is_own_account _ _ _); [apply emits_ret|].
    apply emits_try; [apply Hstore, same_users_defers; done|]. intros [open|]; [apply emits_ret|].
    apply emits_try; intros; apply emits_ret.
  - intros [d|[]]; try apply emits_ret; (apply emits_try; [apply IH|intros; apply emits_ret]).
Qed.

(** ** A borrower answered for *)

Definition served_out (a : string) (w : World) : Prop := (pool, a) ∉ overdue w.1.

Lemma served_out_onward a w w' : onward w w' → served_out a w → served_out a w'.
Proof. intros [Hl%later_overdue _]. unfold served_out. set_solver. Qed.

Lemma call_under {A} (q : StoreE A) w :
  defers q →
  queue_under w (stored_call q) (onward w)
    (λ r w', onward w w' ∧ ∃ d, later w.1 d ∧ served debug_str q d r w'.1).
Proof.
  intros Hq. apply under_perform; [done|]. intros r w' Hs.
  assert (onward w w') as Hw by (eapply queue_step_onward; [|exact Hs]; exact Hq).
  split; [done|]. split; [done|]. by destruct Hs.
Qed.

Section pass.
Context (auctioneer : Auctioneer) (tick : LedgerTick) (submit : bool).
Context (Htick : L < u32_saturating_add (lt_sequence tick) 1).

Lemma move_defers a flagged_at :
  defers (QFlagRecheck pool a (match flagged_at with
    | Some flagged => Z.max flagged (u32_saturating_add (lt_sequence tick) 1)
    | None => u32_saturating_add (lt_sequence tick) 1 end)).
Proof. apply flag_defers. destruct flagged_at; lia. Qed.

Lemma move_under a flagged_at w :
  queue_under w (move_flag_forward pool a flagged_at tick) (onward w)
    (λ r w', onward w w' ∧ (is_ok r = true → served_out a w')).
Proof.
  unfold move_flag_forward. cbv zeta.
  eapply under_try; [apply call_under, move_defers|intros e w' Hw _; by split|].
  intros [] w' Hw [_ (d & Hl & ties & _ & [= Hd])]. apply under_ret; [done|].
  split; [done|]. intros _. unfold served_out. rewrite elem_of_overdue, <- Hd.
  intros (_ & f & Hf & Hle). unfold flag in Hf. simpl in Hf. rewrite lookup_alter_eq in Hf.
  destruct (db_users d !! (pool, a)) as [row|]; [|done]. injection Hf as <-.
  destruct flagged_at, (ur_recheck_ledger row); lia.
Qed.

(** The batch as it was read. *)
Context (d0 : Db) (flags : gmap string Z).
Definition read_at (a : string) : Prop := is_Some (flags !! a) ∧ flag d0 (pool, a) = flags !! a.

Lemma clear_under a flagged w :
  later d0 w.1 → flag d0 (pool, a) = Some flagged →
  queue_under w (stored_call (QClearRecheck pool a flagged)) (onward w)
    (λ r w', onward w w' ∧ (is_ok r = true → served_out a w')).
Proof.
  intros Hd0 Hf. eapply under_weaken; [apply call_under, clear_defers|done|].
  intros r w' _ [Hw (d & Hl & Hs)]. split; [done|]. destruct r as [b|e]; [|done]. intros _.
  destruct Hs as (ties & _ & Hr). simpl in Hr. unfold served_out. rewrite elem_of_overdue.
  intros (_ & f & Hf' & Hle). unfold clear_recheck in Hr.
  assert (later d0 d) as Hlate by (by etrans). destruct (Hlate (pool, a)) as [Heq|Hnew].
  - rewrite Hf in Heq. unfold flag in Heq. apply bind_Some in Heq as (row & Hrow & Hrf).
    rewrite Hrow, bool_decide_eq_true_2 in Hr by done. injection Hr as Hd _.
    rewrite <- Hd in Hf'. unfold flag in Hf'. simpl in Hf'. by rewrite lookup_insert_eq in Hf'.
  - destruct (db_users d !! (pool, a)) as [row|] eqn:Hrow;
      [|injection Hr as Hd _; rewrite <- Hd in Hf'; specialize (Hnew f Hf'); lia].
    case_bool_decide as Hc; injection Hr as Hd _; rewrite <- Hd in Hf'.
    + unfold flag in Hf'. simpl in Hf'. by rewrite lookup_insert_eq in Hf'.
    + specialize (Hnew f Hf'). lia.
Qed.

Lemma recheck_one_under a decision w :
  later d0 w.1 → read_at a →
  queue_under w (recheck_one auctioneer pool a decision flags tick submit) (onward w)
    (λ r w', onward w w' ∧ (is_ok r = true → served_out a w')).
Proof.
  intros Hd0 [[flagged Hflagged] Hf]. rewrite Hflagged in Hf. unfold recheck_one.
  eapply under_bind; [apply deferring_under, act_defers|]. intros acted w1 Hw1 _.
  eapply (under_bind _ _ _ _ _ _ (λ _ w', onward w w')).
  { eapply under_weaken; [apply deferring_under|..].
    - unfold note_act, note_creation.
      destruct acted as [[reason| |outcome]|[]]; try apply emits_ret.
      + destruct (co_submission outcome) as [[]|]; try apply emits_ret. by apply emits_perform.
      + match goal with e : QueueError |- _ => destruct e end; try apply emits_ret.
        by apply emits_perform.
    - intros w' Hw. by etrans.
    - intros r w' Hw _. by etrans. }
  intros [] w2 Hw2 _.
  assert (queue_under w2 (await? _ := move_flag_forward pool a (flags !! a) tick in Ret (Ok ()))
    (onward w) (λ r w', onward w w' ∧ (is_ok r = true → served_out a w'))) as Hmove.
  { eapply under_try.
    - eapply under_weaken; [apply move_under|intros w' Hw; by etrans|].
      intros r w' Hw [_ Hr]. exact Hr.
    - intros e w' Hw _. by split.
    - intros n w' Hw Hr. apply under_ret; [done|]. split; [done|]. intros _. by apply Hr. }
  destruct acted as [outcome|[]]; try exact Hmove; [|by apply under_ret].
  destruct (settled_act outcome); [|exact Hmove]. rewrite Hflagged. eapply under_try.
  - eapply under_weaken; [eapply (clear_under a flagged); [|done]|intros w' Hw; by etrans|].
    + etrans; [exact Hd0|apply Hw2].
    + intros r w' Hw [_ Hr]. exact Hr.
  - intros e w' Hw _. by split.
  - intros b w' Hw Hr. apply under_ret; [done|]. split; [done|]. intros _. by apply Hr.
Qed.

Lemma move_undecided_under accounts w :
  queue_under w (move_undecided pool accounts flags tick) (onward w)
    (λ r w', onward w w' ∧ (is_ok r = true → Forall (λ a, served_out a w') accounts)).
Proof.
  revert w. induction accounts as [|a accounts IH]; intros w; [by apply under_ret|].
  cbn [move_undecided]. eapply under_try; [apply move_under|intros e w' Hw _; by split|].
  intros n w1 Hw1 [_ Ha]. eapply under_weaken; [apply IH|intros w' Hw; by etrans|].
  intros r w' Hw [Hw' Hr]. split; [by etrans|]. intros Hok. constructor; [|by apply Hr].
  eapply served_out_onward; [exact Hw'|by apply Ha].
Qed.

(** The decisions in turn, unless the task is told to stop. *)
Lemma recheck_each_under decisions w :
  later d0 w.1 → Forall read_at decisions.*1 →
  queue_under w (recheck_each auctioneer pool decisions flags tick submit) (onward w)
    (λ r w', onward w w' ∧ (is_ok r = true →
       (∃ tr, w'.2 = w.2 ++ tr ∧ BShutdown true ∈ tr) ∨
       Forall (λ a, served_out a w') decisions.*1)).
Proof.
  intros Hd0 Hr. revert w Hd0.
  induction decisions as [|[a d] decisions IH]; intros w Hd0; [apply under_ret; [done|]; split; [done|by right]|].
  apply Forall_cons in Hr as [Ha Hr]. cbn [recheck_each].
  eapply (under_bind _ _ _ _ _ _ (λ b w', onward w w' ∧ w'.2 = w.2 ++ [BShutdown b])).
  { apply under_perform; [done|]. intros b w' Hs.
    assert (onward w w') by (by eapply queue_step_onward; [|exact Hs]). by destruct Hs. }
  intros stop w1 Hw1 [_ Hstop]. destruct stop.
  { apply under_ret; [done|]. split; [done|]. intros _. left. eexists. split; [exact Hstop|constructor]. }
  assert (later d0 w1.1) as Hd1 by (etrans; [exact Hd0|apply Hw1]).
  eapply under_try.
  - eapply under_weaken; [by apply recheck_one_under|intros w' Hw; by etrans|].
    intros r w' Hw Hp. exact Hp.
  - intros e w' Hw _. by split.
  - intros [] w2 Hw2 [Hw12 Hout]. eapply under_weaken; [apply IH; [done|]|intros w' Hw; by etrans|].
    { etrans; [exact Hd0|apply Hw2]. }
    intros r w' Hw [Hw' Hq]. split; [by etrans|]. intros Hok. destruct (Hq Hok) as [(tr & Hh & Hin)|Hall].
    + left. destruct Hw2 as [_ [tr2 Hh2]]. exists (tr2 ++ tr). split; [by rewrite Hh, Hh2, app_assoc|].
      set_solver.
    + right. constructor; [|done]. eapply served_out_onward; [exact Hw'|by apply Hout].
Qed.
End pass.

Definition note_flag (m : gmap string Z) (user : TrackedUser) : gmap string Z :=
  match tu_recheck_ledger user with
  | Some ledger => <[tu_account user := ledger]> m
  | None => m
  end.

Lemma flagged_at_fresh us a m :
  a ∉ map tu_account us → foldl note_flag m us !! a = m !! a.
Proof.
  revert m. induction us as [|u us IH]; intros m Ha; [done|]. simpl in *.
  apply not_elem_of_cons in Ha as [Hne Ha]. rewrite IH by done. unfold note_flag.
  destruct (tu_recheck_ledger u); [by rewrite lookup_insert_ne|done].
Qed.

Lemma flagged_at_lookup us u :
  NoDup (map tu_account us) → u ∈ us → is_Some (tu_recheck_ledger u) →
  flagged_at us !! tu_account u = tu_recheck_ledger u.
Proof.
  change (flagged_at us) with (foldl note_flag ∅ us). generalize (∅ : gmap string Z).
  induction us as [|v us IH]; intros m Hnd Hu Hsome; [by apply elem_of_nil in Hu|].
  apply NoDup_cons in Hnd as [Hn Hnd]. apply elem_of_cons in Hu as [->|Hu]; [|by apply IH].
  cbn [foldl]. rewrite flagged_at_fresh by done. unfold note_flag. destruct Hsome as [f Hf].
  by rewrite Hf, lookup_insert_eq.
Qed.

(** ** A batch *)

Section step.
Context (auctioneer : Auctioneer) (cadence : AuctioneerCadence) (tick : LedgerTick) (submit : bool).
Context (Htick : L < u32_saturating_add (lt_sequence tick) 1).

(** The batch was left whole: nothing was called but its one snapshot, of every
    account of it that is not the service's own, and either that failed or its
    reserves could not be accrued. No borrower of it was looked at. *)
Definition left_whole (us : list TrackedUser) (tr : list AuctObs) : Prop :=
  let others := filter (λ a, is_own_account auctioneer pool a = false) (map tu_account us) in
  ∃ reads answer,
    tr = map BRead reads ∧ traces read (Snapshot.snapshot pool others) reads (Some answer) ∧
    match answer with
    | Err _ => True
    | Ok snapshot =>
        ∃ e, accrued_reserves snapshot (valued_at snapshot (lt_close_time tick)) = Err e
    end.

(** What [decide] refuses the whole batch for: its store, or no snapshot to
    decide on — never one borrower. *)
Lemma decide_errs us :
  returns auct_log (decide auctioneer pool us tick) (λ tr r,
    match r with Ok _ | Err (AeStore _) => True | Err _ => left_whole us tr end).
Proof.
  unfold decide. cbv zeta. set (all := map tu_account us).
  assert (∀ v, returns auct_log (Ret (Ok v : result AuctioneerError (list (string * Decision)))) (λ tr r,
    match r with Ok _ | Err (AeStore _) => True | Err _ => left_whole us tr end)) as Hok
    by (intros; by apply returns_ret).
  destruct (filter (λ a, is_own_account auctioneer pool a = false) all) as [|a accounts] eqn:Hf;
    [destruct all; apply Hok|]. destruct all as [|b all'] eqn:Hall; [done|].
  rewrite <- Hall in *. unfold left_whole. fold all. rewrite Hf.
  eapply (returns_try _ _ _ (λ tr r, ∃ reads, tr = map BRead reads ∧
    match r with
    | Ok s => traces read (Snapshot.snapshot pool (a :: accounts)) reads (Some (Ok s))
    | Err (AeChain e) => traces read (Snapshot.snapshot pool (a :: accounts)) reads (Some (Err e))
    | Err _ => False
    end)).
  - apply (auct_read_returns _ (λ tr r, traces read _ tr (Some r))). intros n tr [r|] Hr; [by exists n|done].
  - intros tr [e| | | ] (reads & -> & Hr); try done. exists reads, (Err e). done.
  - intros snapshot tr1 (reads & -> & Hs). apply returns_try_ret.
    destruct (accrued_reserves _ _) as [reserves|e] eqn:Hr; cbn [map_err].
    + assert (Forall (λ c, is_own_account auctioneer pool c = false) (a :: accounts)) as Hnot.
      2: { eapply returns_try; [by apply decide_each_returns|by intros tr []|].
           intros. by apply returns_ret. }
      apply Forall_forall. intros c Hc. rewrite <- Hf in Hc. by apply list_elem_of_filter in Hc as [? _].
    + rewrite app_nil_r. exists reads, (Ok snapshot). split; [done|]. split; [done|]. by exists e.
Qed.

Lemma decide_under us w :
  queue_under w (decide auctioneer pool us tick) (onward w) (λ r w', onward w w' ∧ match r with
    | Ok decisions => decisions.*1 ⊆ map tu_account us
    | Err (AeStore _) => True
    | Err _ => ∃ tr, w'.2 = w.2 ++ tr ∧ left_whole us tr end).
Proof.
  intros n tr o Hr w' Hs.
  destruct (deferring_under w _ (decide_defers auctioneer pool us tick) _ _ _ Hr w' Hs) as [Hw _].
  split; [done|]. destruct o as [r|]; [|done]. split; [done|]. destruct r as [decisions|e].
  - pose proof (decide_returns auctioneer pool us tick _ _ _ Hr) as [(_ & _ & Hsub & _)|
      (reads & asked & snapshot & reserves & _ & _ & _ & Hsub & _)];
      by apply sublist_subseteq.
  - pose proof (decide_errs us _ _ _ Hr) as Hl. enough (w'.2 = w.2 ++ tr) by (destruct e; naive_solver).
    clear -Hs. revert w Hs. induction tr as [|o tr IH]; intros w.
    + intros ->%steps_nil_inv. by rewrite app_nil_r.
    + intros (w1 & [Hh _] & Hs)%steps_cons_inv. by rewrite (IH _ Hs), Hh, <- app_assoc.
Qed.

Lemma recheck_batch_under us d0 w :
  later d0 w.1 → NoDup (map tu_account us) →
  (∀ u, u ∈ us → is_Some (tu_recheck_ledger u) ∧ flag d0 (pool, tu_account u) = tu_recheck_ledger u) →
  queue_under w (recheck_batch auctioneer pool us tick submit) (onward w)
    (λ r w', onward w w' ∧ (is_ok r = true → ∃ tr, w'.2 = w.2 ++ tr ∧
       (BShutdown true ∈ tr ∨ left_whole us tr ∨
        Forall (λ a, served_out a w') (map tu_account us)))).
Proof.
  intros Hd0 Hnd Hflags. unfold recheck_batch.
  destruct us as [|u us'] eqn:Hus.
  { apply under_ret; [done|]. split; [done|]. intros _. exists []. rewrite app_nil_r.
    split; [done|]. right; right. constructor. }
  rewrite <- Hus in *. clear Hus u us'. cbv zeta.
  assert (∀ a, a ∈ map tu_account us → read_at d0 (flagged_at us) a) as Hread.
  { intros a (u & -> & Hu)%list_elem_of_fmap. destruct (Hflags u Hu) as [Hsome Hf].
    unfold read_at. rewrite (flagged_at_lookup us u) by done. by split. }
  eapply under_bind; [apply decide_under|]. intros decided w1 Hw1 [_ Hd].
  destruct decided as [decisions|e].
  2: { assert (∀ r : result StoreError (),
         (∃ tr, w1.2 = w.2 ++ tr ∧ left_whole us tr) → onward w w1 ∧
         (is_ok r = true → ∃ tr, w1.2 = w.2 ++ tr ∧ (BShutdown true ∈ tr ∨ left_whole us tr ∨
          Forall (λ a, served_out a w1) (map tu_account us)))) as Hend.
       { intros r (tr & Hh & Hl). split; [done|]. intros _. exists tr. split; [done|]. by right; left. }
       destruct e; apply under_ret; try done; by apply Hend. }
  set (undecided := list_to_set _ ∖ list_to_set _). eapply under_try.
  - eapply under_weaken; [by apply move_undecided_under|intros w' Hw; by etrans|].
    intros r w' Hw Hp. exact Hp.
  - intros e w' Hw _. by split.
  - intros [] w2 Hw2 [_ Hout]. specialize (Hout eq_refl).
    eapply under_weaken; [eapply (recheck_each_under _ _ _ Htick d0)|intros w' Hw; by etrans|].
    + etrans; [exact Hd0|apply Hw2].
    + apply Forall_forall. intros a Ha. by apply Hread, Hd.
    + intros r w' Hw [Hw' Hr]. split; [by etrans|]. intros Hok.
      destruct Hw2 as [_ [tr2 Hh2]]. destruct (Hr Hok) as [(tr & Hh & Hin)|Hall].
      * exists (tr2 ++ tr). split; [by rewrite Hh, Hh2, app_assoc|]. left. set_solver.
      * destruct Hw' as [Hl' [tr Hh]]. exists (tr2 ++ tr). split; [by rewrite Hh, Hh2, app_assoc|].
        right; right. rewrite Forall_forall in Hall, Hout |- *. intros a Ha.
        destruct (base.decide (a ∈ decisions.*1)) as [Hin|Hnin]; [by apply Hall|].
        eapply served_out_onward; [split; [exact Hl'|by exists tr]|]. apply Hout.
        unfold set_iter. rewrite merge_sort_Permutation. unfold undecided. set_solver.
Qed.

(** The batch asked for was left whole. *)
Definition batch_left (tr : list AuctObs) : Prop :=
  ∃ us tr', tr = BStore _ (QUsersNeedingRecheck pool (au_refresh_batch cadence)) (Ok us) :: tr' ∧
    left_whole us tr'.

Lemma recheck_step_under d :
  queue_under (d, []) (recheck_step auctioneer cadence pool tick submit)
    (λ w', overdue w'.1 ⊆ overdue d)
    (λ r w', r = Ok () → BShutdown true ∈ w'.2 ∨ batch_left w'.2 ∨
       (size (overdue w'.1) ≤ size (overdue d) - Z.to_nat (au_refresh_batch cadence))%nat).
Proof.
  set (w := (d, []) : World).
  assert (∀ w', onward w w' → overdue w'.1 ⊆ overdue d) as Hshrinks
    by (intros w' [Hl _]; by apply later_overdue in Hl).
  unfold recheck_step. eapply (under_try _ _ _ _ _ _ (λ r w', onward w w' ∧ match r with
    | Ok us => w'.2 = [BStore _ (QUsersNeedingRecheck pool (au_refresh_batch cadence)) (Ok us)] ∧
        ∃ d1, later d d1 ∧ served debug_str (QUsersNeedingRecheck pool (au_refresh_batch cadence))
          d1 (Ok us) w'.1
    | Err _ => True end)).
  - apply under_perform; [by apply Hshrinks|]. intros r w' Hs.
    assert (onward w w') as Hw
      by (eapply queue_step_onward; [|exact Hs]; by apply same_users_defers).
    split; [by apply Hshrinks|]. split; [done|]. destruct Hs as [Hh Hs]. by destruct r.
  - done.
  - intros us w1 _ [Hw1 (Hh1 & d1 & Hl & Hs)].
    apply served_batch in Hs as (Hd1 & Hnd & Hflags & Hsize). rewrite <- Hd1 in *. clear d1 Hd1.
    eapply under_weaken; [apply (recheck_batch_under us w1.1); done| |].
    { intros w' Hw. apply Hshrinks. by etrans. }
    intros r w' _ [[Hlater _] Hr] ->. destruct (Hr eq_refl) as (tr & Hh & Hcases).
    rewrite Hh1 in Hh. rewrite Hh. destruct Hcases as [Hstop|[Hleft|Hall]].
    + left. apply elem_of_app. by right.
    + right; left. by exists us, tr.
    + right; right. rewrite Forall_forall in Hall. apply later_overdue in Hl, Hlater.
      assert (overdue w'.1 ⊆ overdue w1.1 ∖ keys_of pool (map tu_account us)) as Hsub.
      { intros k Hk. apply elem_of_difference. split; [by apply Hlater|].
        intros [Hp Ha]%elem_of_keys. apply (Hall _ Ha). destruct k. simpl in *. by subst. }
      apply subseteq_size in Hsub, Hl. lia.
Qed.
End step.
End flags.

(** ** The full scan *)

Section scan.
Context `{ScDecode} `{Json} (debug_str : string → string).
(** A borrower, and the health its row has throughout. *)
Context (pool account : string) (health : Z).

Definition row_has (P : option Z → Prop) (d : Db) : Prop :=
  ∃ row, db_users d !! (pool, account) = Some row ∧ ur_health_factor row = health ∧
    P (ur_recheck_ledger row).

Definition present : Db → Prop := row_has (λ _, True).
Definition flagged_by (ledger : Z) : Db → Prop :=
  row_has (λ r, ∃ f, r = Some f ∧ ledger ≤ f).

(** Whatever else happens to the tables, the row stays, with its health, and
    its flag is only ever raised. *)
Definition stays (d d' : Db) : Prop :=
  present d → present d' ∧ ∀ ledger, flagged_by ledger d → flagged_by ledger d'.

#[export] Instance stays_preorder : PreOrder stays.
Proof.
  split; [by intros d Hd|]. intros d1 d2 d3 H12 H23 Hd. destruct (H12 Hd) as [Hd2 Hf2].
  destruct (H23 Hd2) as [Hd3 Hf3]. split; [done|]. intros l Hl. by apply Hf3, Hf2.
Qed.

Definition scan_step (w : Db * list AuctObs) (o : AuctObs) (w' : Db * list AuctObs) : Prop :=
  w'.2 = w.2 ++ [o] ∧
  match o with
  | BStore A q r => ∃ d, stays w.1 d ∧ served debug_str q d r w'.1
  | _ => stays w.1 w'.1
  end.

Abbreviation scan_under := (under auct_log scan_step).

Lemma flag_stays a ledger d ties :
  stays d (run_store debug_str ties (QFlagRecheck pool a ledger) d).1.
Proof.
  intros (row & Hrow & Hh & _).
  assert (∀ P : option Z → Prop, P (ur_recheck_ledger row) →
    P (ur_recheck_ledger (flag_row ledger row)) →
    row_has P (run_store debug_str ties (QFlagRecheck pool a ledger) d).1) as Hkeep.
  { intros P HP HP'. unfold row_has. simpl.
    destruct (base.decide (a = account)) as [->|Hne].
    - exists (flag_row ledger row). rewrite lookup_alter_eq, Hrow. by repeat split.
    - exists row. rewrite lookup_alter_ne by congruence. by repeat split. }
  split; [by apply Hkeep|]. intros l (row' & Hrow' & _ & f & Hf & Hle).
  rewrite Hrow in Hrow'. injection Hrow' as <-. apply Hkeep; [by exists f|].
  simpl. rewrite Hf. eexists. split; [done|lia].
Qed.

Lemma flag_flags a ledger d ties :
  account = a → present d →
  flagged_by ledger (run_store debug_str ties (QFlagRecheck pool a ledger) d).1.
Proof.
  intros <- (row & Hrow & Hh & _). exists (flag_row ledger row). simpl.
  rewrite lookup_alter_eq, Hrow. split; [done|]. split; [done|]. simpl.
  eexists. split; [done|]. destruct (ur_recheck_ledger row); lia.
Qed.

(** A row below the threshold and after the last page is in the page asked for,
    or after its last row too. *)
Lemma served_page threshold limit after d us d' :
  served debug_str (QUsersBelowHealth pool threshold limit after) d (Ok us) d' →
  present d → health < threshold → 0 < limit →
  match after with Some (h, a) => health_lt h a health account = true | None => True end →
  d' = d ∧ (account ∈ map tu_account us ∨
    ∃ u, last us = Some u ∧ health_lt (tu_health_factor u) (tu_account u) health account = true).
Proof.
  intros (ties & _ & [= <- Hr]) (row & Hrow & Hh & _) Hlt Hlimit Hafter. split; [done|].
  set (listed := merge_sort by_health _) in Hr.
  assert ((account, row) ∈ listed) as Hin.
  { unfold listed. rewrite merge_sort_Permutation. apply elem_of_pool_users. split; [done|]. simpl.
    rewrite Hh. apply andb_true_iff. split; [lia|]. by destruct after as [[h a]|]. }
  assert (StronglySorted by_health listed) as Hs by apply (StronglySorted_merge_sort by_health _).
  rewrite (read_users_accounts _ _ _ _ Hr). apply read_users_each in Hr.
  rewrite <- (take_drop (Z.to_nat limit) listed) in Hin, Hs.
  apply elem_of_app in Hin as [Hin|Hin].
  { left. apply list_elem_of_fmap. by exists (account, row). }
  destruct (last us) as [u|] eqn:Hlast.
  - right. exists u. split; [done|]. apply last_Some in Hlast as (us' & ->).
    apply Forall2_app_inv_r in Hr as (before & last_ & _ & Hu & Htake).
    inversion Hu as [|e' ? ? ? Hof Hnil]; subst. inversion Hnil; subst.
    apply user_of_row in Hof as (-> & -> & _).
    assert (e' ∈ take (Z.to_nat limit) listed) as He'
      by (rewrite Htake; apply elem_of_app; right; constructor).
    apply (by_health_strict e' (account, row)); [by eapply StronglySorted_app_1_elem_of|]. simpl.
    intros Heq. assert (NoDup listed.*1) as Hnd.
    { unfold listed. rewrite merge_sort_Permutation. apply pool_users_nodup. }
    rewrite <- (take_drop (Z.to_nat limit) listed), fmap_app in Hnd.
    apply NoDup_app in Hnd as (_ & Hdisj & _). eapply (Hdisj account).
    + apply list_elem_of_fmap. by exists e'.
    + apply list_elem_of_fmap. by exists (account, row).
  - apply last_None in Hlast as ->. apply Forall2_nil_inv_r in Hr. exfalso.
    destruct listed as [|e listed']; [by rewrite drop_nil in Hin; apply elem_of_nil in Hin|].
    destruct (Z.to_nat limit) eqn:Hn; [lia|done].
Qed.

(** ** Its pages *)

Section pages.
Context (threshold ledger page_limit : Z) (Hbelow : health < threshold) (Hpage : 0 < page_limit).
Context (d0 : Db) (Hpresent : present d0).

(** The row is flagged, or still after the last page read. *)
Definition yet_to_come (after : option (Z * string)) (w : Db * list AuctObs) : Prop :=
  stays d0 w.1 ∧
  (flagged_by ledger w.1 ∨
   match after with Some (h, a) => health_lt h a health account = true | None => True end).

Lemma stays_present d : stays d0 d → present d.
Proof. intros Hs. by apply Hs. Qed.

Lemma flag_users_under users w :
  stays d0 w.1 →
  scan_under w (flag_users pool users ledger) (λ _, True)
    (λ r w', stays d0 w'.1 ∧ (is_ok r = true →
       (flagged_by ledger w.1 ∨ account ∈ map tu_account users) → flagged_by ledger w'.1)).
Proof.
  revert w. induction users as [|u users IH]; intros w Hw.
  { apply under_ret; [done|]. split; [done|]. intros _ [?|Hin]; [done|by apply elem_of_nil in Hin]. }
  cbn [flag_users]. eapply (under_try _ _ _ _ _ _ (λ r w', stays d0 w'.1 ∧ (is_ok r = true →
    (flagged_by ledger w.1 ∨ account = tu_account u) → flagged_by ledger w'.1))).
  - apply under_perform; [done|]. intros r w' [_ (d & Hd & Hs)]. split; [done|].
    assert (stays d0 d) as Hd0 by (by etrans).
    assert (∀ ties, stays d0 (run_store debug_str ties (QFlagRecheck pool (tu_account u) ledger) d).1)
      as Hrun by (intros ties; etrans; [done|apply flag_stays]).
    destruct r as [[]|e].
    + destruct Hs as (ties & _ & Hrun'). specialize (Hrun ties).
      pose proof (flag_stays (tu_account u) ledger d ties) as Hstays.
      pose proof (flag_flags (tu_account u) ledger d ties) as Hflags. rewrite Hrun' in *. simpl in *.
      split; [done|]. intros _ [Hf|Ha].
      * apply Hstays; [by apply stays_present|]. apply Hd; [by apply stays_present|done].
      * apply Hflags; [done|by apply stays_present].
    + split; [|done]. destruct Hs as [->|(ties & _ & ->)]; [done|apply Hrun].
  - intros e w' _ [Hs _]. by split.
  - intros [] w' _ [Hs Hf]. eapply under_weaken; [by apply IH|done|].
    intros r w2 _ [Hs2 Hf2]. split; [done|]. intros Hok Hor. apply Hf2; [done|].
    destruct Hor as [Hw1|[Ha|Ha]%elem_of_cons]; [left; apply Hf..|by right]; auto.
Qed.

Lemma flag_scan_under :
  scan_under (d0, []) (full_scan_and_flag pool threshold ledger page_limit) (λ _, True)
    (λ r w', is_ok r = true → BShutdown true ∈ w'.2 ∨ flagged_by ledger w'.1).
Proof.
  apply (under_iter _ _ (λ state w, yet_to_come state.2 w)); [split; [done|by right]| |done].
  intros [flagged after] w [Hs Hw]. unfold scan_page.
  eapply (under_bind _ _ _ _ _ _ (λ b w', stays d0 w'.1 ∧ (b = true → BShutdown true ∈ w'.2) ∧
    (flagged_by ledger w.1 → flagged_by ledger w'.1))).
  { apply under_perform; [done|]. intros b w' [Hh Hst]. split; [done|]. split; [by etrans|].
    split; [|by apply Hst, stays_present]. intros ->. rewrite Hh. apply elem_of_app. right. constructor. }
  intros stop w1 _ (Hs1 & Hstop & Hf1). destruct stop; [apply under_ret; auto|].
  eapply (under_bind _ _ _ _ _ _ (λ r w', stays d0 w'.1 ∧
    (flagged_by ledger w.1 → flagged_by ledger w'.1) ∧ match r with
    | Ok page => flagged_by ledger w'.1 ∨ account ∈ map tu_account page ∨
        ∃ u, last page = Some u ∧ health_lt (tu_health_factor u) (tu_account u) health account = true
    | Err _ => True end)).
  { apply under_perform; [done|]. intros r w' [_ (d & Hd & Hsv)]. split; [done|].
    assert (stays d0 d) as Hd0 by (by etrans).
    assert (w'.1 = d) as Heq.
    { destruct r as [us|e]; [by destruct Hsv as (ties & _ & [= <- _])|].
      by destruct Hsv as [->|(ties & _ & ->)]. }
    rewrite Heq. split; [done|]. assert (flagged_by ledger w.1 → flagged_by ledger d) as Hkeep.
    { intros Hf. apply Hd; [by apply stays_present|by apply Hf1]. }
    split; [done|]. destruct r as [us|e]; [|done]. destruct Hw as [Hf|Hafter]; [left; auto|].
    right. eapply served_page in Hsv as [_ Hp]; try done. by apply stays_present. }
  intros [page|e] w2 _ (Hs2 & Hf2 & Hp); [|by apply under_ret].
  destruct (last page) as [user|] eqn:Hlast.
  2: { apply under_ret; [done|]. intros _. right. apply last_None in Hlast as ->.
       destruct Hp as [?|[Ha|(u & Hu & _)]]; [done|by apply elem_of_nil in Ha|done]. }
  eapply under_bind; [by apply flag_users_under|]. intros done_ w3 _ [Hs3 Hf3].
  apply under_ret; [done|]. destruct done_ as [[]|e]; [|done]. specialize (Hf3 eq_refl).
  split; [done|]. simpl. destruct Hp as [?|[?|(u & [= <-] & Hu)]]; auto.
Qed.
End pages.
End scan.

(** ** A recheck pass ends *)

Section ending.
Context `{ScDecode} `{Json} (auctioneer : Auctioneer) (cadence : AuctioneerCadence).
Context (pool : string) (tick : LedgerTick) (submit : bool).
Context {W : Type} (answer : ∀ X : Type, AuctE X → W → X * W).

Lemma move_halts account flagged_at w :
  halts auct_log answer w (move_flag_forward pool account flagged_at tick).
Proof. apply halts_try; [apply halts_perform|intros; apply halts_ret]. Qed.

Lemma recheck_one_halts account decision flags w :
  halts auct_log answer w (recheck_one auctioneer pool account decision flags tick submit).
Proof.
  assert (∀ w flagged_at, halts auct_log answer w
    (await? _ := move_flag_forward pool account flagged_at tick in Ret (Ok ()))) as Hmove
    by (intros; apply halts_try; [apply move_halts|intros; apply halts_ret]).
  unfold recheck_one. apply halts_bind; [apply act_halts|]. intros w1 acted. apply halts_bind.
  - unfold note_act, note_creation. destruct acted as [[reason| |outcome]|[]]; try apply halts_ret.
    + destruct (co_submission outcome) as [[]|]; try apply halts_ret. apply halts_perform.
    + match goal with e : QueueError |- _ => destruct e end; try apply halts_ret. apply halts_perform.
  - intros w2 []. destruct acted as [outcome|[]]; try apply Hmove; [|apply halts_ret].
    destruct (settled_act outcome); [|apply Hmove]. destruct (flags !! account); [|apply halts_ret].
    apply halts_try; [apply halts_perform|intros; apply halts_ret].
Qed.

Lemma recheck_step_halts w :
  halts auct_log answer w (recheck_step auctioneer cadence pool tick submit).
Proof.
  unfold recheck_step. apply halts_try; [apply halts_perform|]. intros w1 us. unfold recheck_batch.
  destruct us as [|u us]; [apply halts_ret|]. cbv zeta.
  apply halts_bind; [apply decide_halts|]. intros w2 [decisions|[]]; try apply halts_ret.
  apply halts_try.
  - generalize (set_iter (list_to_set (map tu_account (u :: us)) ∖ list_to_set decisions.*1)).
    intros accounts. revert w2.
    induction accounts as [|a accounts IH]; intros w2; [apply halts_ret|].
    apply halts_try; [apply move_halts|intros; apply IH].
  - intros w3 []. revert w3.
    induction decisions as [|[a d] decisions IH]; intros w3; [apply halts_ret|]. cbn [recheck_each].
    apply halts_bind; [apply halts_perform|]. intros w4 [|]; [apply halts_ret|].
    apply halts_try; [apply recheck_one_halts|intros; apply IH].
Qed.
End ending.

(** ** Properties *)

(** C17: nothing is submitted before the startup delay. Whatever the auctioneer's
    task is answered, it submits only when some tick it was given is the
    configured number of ledgers past the first one, there is a queue to submit
    through and a key to ask the contract with, and the run is not dry; and it
    calls nothing at all once the store has failed. *)
Theorem auctioneer_waits_to_submit `{ScDecode} `{Json} (auctioneer : Auctioneer)
    (cadence : AuctioneerCadence) (pools : list string) (submission_queue : bool) :
  follows auct_log (task_step auctioneer cadence submission_queue) task_start
    (auctioneer_loop auctioneer cadence pools submission_queue)
    (λ r q, k_failed q = the_error r).
Proof. apply task_follows. Qed.

(** C30: the full scan misses nobody. Whatever happens to the rest of the tables
    between its pages, a borrower whose row stays in the pool with a health
    below the threshold has a flag as new as the tick's ledger when the scan is
    done, unless the task was told to stop; the pages need only hold a row. *)
Theorem full_scan_flags_everyone `{ScDecode} `{Json} (debug_str : string → string)
    (pool account : string) (health threshold ledger page_limit : Z) (d : Db) :
  under auct_log (scan_step debug_str pool account health) (d, [])
    (full_scan_and_flag pool threshold ledger page_limit) (λ _, True)
    (λ r w', is_ok r = true → present pool account health d → health < threshold → 0 < page_limit →
       BShutdown true ∈ w'.2 ∨ flagged_by pool account health ledger w'.1).
Proof.
  intros n tr o Hr w' Hs. split; [done|]. destruct o as [r|]; [|done]. intros Hok Hp Hlt Hpage.
  by apply (flag_scan_under debug_str pool account health threshold ledger page_limit Hlt Hpage d Hp
    _ _ _ Hr w' Hs).
Qed.

(** C13: a pool's queue of flags is served in turn, however many of its borrowers
    fail. In a world whose other tasks only ever leave flags newer than [L], a
    recheck pass for a tick at [L] or later never adds a borrower flagged at
    [L] or before; and a pass the store did not fail takes a full batch of them
    away, or all there are: each is cleared, or moved behind the tick, a borrower
    that cannot be valued no less than one whose act failed. There are two
    exceptions, both seen in the calls made: the task was told to stop; or the
    batch was left whole, nothing but its one snapshot called, because that
    failed or its reserves could not be accrued. The pass ends, whatever it is
    answered. *)
Theorem recheck_serves_the_queue `{ScDecode} `{Json} (debug_str : string → string)
    (auctioneer : Auctioneer) (cadence : AuctioneerCadence) (pool : string) (tick : LedgerTick)
    (submit : bool) (L : Z) (d : Db) :
  (∀ W (answer : ∀ X : Type, AuctE X → W → X * W) w,
     halts auct_log answer w (recheck_step auctioneer cadence pool tick submit)) ∧
  under auct_log (queue_step debug_str L) (d, []) (recheck_step auctioneer cadence pool tick submit)
    (λ w', L < u32_saturating_add (lt_sequence tick) 1 → overdue pool L w'.1 ⊆ overdue pool L d)
    (λ r w', r = Ok () → L < u32_saturating_add (lt_sequence tick) 1 →
       BShutdown true ∈ w'.2 ∨ batch_left pool auctioneer cadence tick w'.2 ∨
       (size (overdue pool L w'.1) ≤ size (overdue pool L d) - Z.to_nat (au_refresh_batch cadence))%nat).
Proof.
  split; [intros; apply recheck_step_halts|]. destruct (Z_lt_dec L (u32_saturating_add (lt_sequence tick) 1)) as [Hlt|Hge].
  - eapply under_weaken; [by apply (recheck_step_under debug_str pool L)|done|].
    intros r w' _ Hr Hok _. by apply Hr.
  - intros n tr o _ w' _. split; [done|]. destruct o; [|done]. by intros _ ?.
Qed.
