(* ===== verification/Config.v ===== *)
(** * A pool's configuration ([src/config.rs])

    What the operator sets per pool, and which assets and margin it gives an
    auction. Where the values come from, clap and toml, is not modelled. *)

From S2P Require Import Prelude Fill.
Open Scope Z_scope.

Record ProfitRule : Type := mkProfitRule {
  pr_profit_bps : Z;
  pr_supported_bid : list string;
  pr_supported_lot : list string;
}.

Record PoolConfig : Type := mkPoolConfig {
  cf_address : string;
  cf_primary_asset : string;
  cf_min_primary_collateral : Z;
  cf_min_health_factor : Z;
  cf_default_profit_bps : Z;
  cf_force_fill : bool;
  cf_fill_objective : FillObjective;
  cf_supported_bid : list string;
  cf_supported_lot : list string;
  cf_profits : list ProfitRule;
}.

(** [covers]: [*] names every asset. *)
Definition covers (names assets : list string) : bool :=
  existsb (λ entry, bool_decide (entry = "*"%string)) names ||
  forallb (λ asset, existsb (λ entry, bool_decide (entry = asset)) names) assets.

(** [PoolConfig::supports]. *)
Definition supports (self : PoolConfig) (bid lot : list string) : bool :=
  covers (cf_supported_bid self) bid && covers (cf_supported_lot self) lot.

(** [PoolConfig::profit_bps]: the first rule that covers both sides. *)
Definition profit_bps (self : PoolConfig) (bid lot : list string) : Z :=
  match find (λ rule, covers (pr_supported_bid rule) bid && covers (pr_supported_lot rule) lot)
          (cf_profits self) with
  | Some rule => pr_profit_bps rule
  | None => cf_default_profit_bps self
  end.
