(* ===== verification/Metrics.v ===== *)
(** * The run's counters and gauges ([src/metrics.rs])

    [Metrics]: a record per pool and a set of counters, behind one lock that
    every method takes once, so each method is a function of the record. The
    text [render] answers is built as the code builds it. Instants and wall
    times are nanoseconds. *)

From S2P Require Import Prelude.
From Stdlib Require Import Ascii.
From stdpp Require Import pretty.
Open Scope Z_scope.

(** ** Labels *)

(** [NotificationKind] ([notifier.rs]). *)
Inductive NotificationKind : Type :=
| KAuctionCreated | KBadDebtReported | KFillConfirmed | KFillFailed | KSubmissionDropped
| KUnwindLeftovers | KPollerStalled | KRpcFailing | KEventGap | KUnfundedFill | KStockWasmDetected.

Inductive Attempt : Type := Attempted | Succeeded | AttemptFailed.

Inductive SkipLabel : Type :=
| LabelUnsupportedAssets | LabelUnfunded | LabelSupplyCapped | LabelUnprofitable | LabelHealth
| LabelContractError.

Inductive DeliveryLabel : Type := LabelQueued | LabelDeduplicated | LabelDropped | LabelFailed.

Definition ALL_ATTEMPTS : list Attempt := [Attempted; Succeeded; AttemptFailed].
Definition ALL_SKIPS : list SkipLabel :=
  [LabelUnsupportedAssets; LabelUnfunded; LabelSupplyCapped; LabelUnprofitable; LabelHealth;
   LabelContractError].
Definition ALL_KINDS : list NotificationKind :=
  [KAuctionCreated; KBadDebtReported; KFillConfirmed; KFillFailed; KSubmissionDropped;
   KUnwindLeftovers; KPollerStalled; KRpcFailing; KEventGap; KUnfundedFill; KStockWasmDetected].
Definition ALL_DELIVERIES : list DeliveryLabel :=
  [LabelQueued; LabelDeduplicated; LabelDropped; LabelFailed].

(** The discriminants, which order the labels and index the arrays. *)
Definition attempt_code (a : Attempt) : nat :=
  (match a with Attempted => 0 | Succeeded => 1 | AttemptFailed => 2 end)%nat.
Definition label_code (l : SkipLabel) : nat :=
  (match l with
   | LabelUnsupportedAssets => 0 | LabelUnfunded => 1 | LabelSupplyCapped => 2
   | LabelUnprofitable => 3 | LabelHealth => 4 | LabelContractError => 5
   end)%nat.
Definition delivery_code (d : DeliveryLabel) : nat :=
  (match d with LabelQueued => 0 | LabelDeduplicated => 1 | LabelDropped => 2 | LabelFailed => 3 end)%nat.
Definition kind_code (k : NotificationKind) : nat :=
  (match k with
   | KAuctionCreated => 0 | KBadDebtReported => 1 | KFillConfirmed => 2 | KFillFailed => 3
   | KSubmissionDropped => 4 | KUnwindLeftovers => 5 | KPollerStalled => 6 | KRpcFailing => 7
   | KEventGap => 8 | KUnfundedFill => 9 | KStockWasmDetected => 10
   end)%nat.

(** A closed set of labels is decidable and countable by its discriminants. *)
Ltac by_code code all :=
  refine (inj_countable code (λ n, nth_error all n) _); by intros [].

#[export] Instance skip_label_eq_dec : EqDecision SkipLabel.
Proof. solve_decision. Defined.
#[export] Instance kind_eq_dec : EqDecision NotificationKind.
Proof. solve_decision. Defined.
#[export] Instance delivery_label_eq_dec : EqDecision DeliveryLabel.
Proof. solve_decision. Defined.
#[export] Instance skip_label_countable : Countable SkipLabel.
Proof. by_code label_code ALL_SKIPS. Defined.
#[export] Instance kind_countable : Countable NotificationKind.
Proof. by_code kind_code ALL_KINDS. Defined.
#[export] Instance delivery_label_countable : Countable DeliveryLabel.
Proof. by_code delivery_code ALL_DELIVERIES. Defined.

(** The derived order of [(NotificationKind, DeliveryLabel)]: the kind first. *)
Definition pair_code (p : NotificationKind * DeliveryLabel) : nat :=
  (4 * kind_code p.1 + delivery_code p.2)%nat.

#[export] Instance label_key_order : KeyOrder (NotificationKind * DeliveryLabel).
Proof.
  refine (Build_KeyOrder _ (λ p q, (pair_code p ≤ pair_code q)%nat) _ _ _ _).
  - intros p q. apply _.
  - intros p q r. lia.
  - intros p q. lia.
  - intros [[] []] [[] []]; unfold pair_code; simpl; intros; first [done | lia].
Defined.

Local Open Scope string_scope.

(** [NotificationKind::as_str], and the labels' own. *)
Definition kind_str (k : NotificationKind) : string :=
  match k with
  | KAuctionCreated => "auction_created"
  | KBadDebtReported => "bad_debt_reported"
  | KFillConfirmed => "fill_confirmed"
  | KFillFailed => "fill_failed"
  | KSubmissionDropped => "submission_dropped"
  | KUnwindLeftovers => "unwind_leftovers"
  | KPollerStalled => "poller_stalled"
  | KRpcFailing => "rpc_failing"
  | KEventGap => "event_gap"
  | KUnfundedFill => "unfunded_fill"
  | KStockWasmDetected => "stock_wasm_detected"
  end.
Definition attempt_str (a : Attempt) : string :=
  match a with
  | Attempted => "attempted" | Succeeded => "succeeded" | AttemptFailed => "failed" end.
Definition skip_str (l : SkipLabel) : string :=
  match l with
  | LabelUnsupportedAssets => "unsupported_assets"
  | LabelUnfunded => "unfunded"
  | LabelSupplyCapped => "supply_capped"
  | LabelUnprofitable => "unprofitable"
  | LabelHealth => "health"
  | LabelContractError => "contract_error"
  end.
Definition delivery_str (d : DeliveryLabel) : string :=
  match d with
  | LabelQueued => "queued" | LabelDeduplicated => "deduplicated" | LabelDropped => "dropped"
  | LabelFailed => "failed"
  end.

Local Close Scope string_scope.

(** ** Data *)

Record PoolStatus : Type := mkPoolStatus {
  ps_head : option Z;
  ps_head_at : option Z;
  ps_processed : option Z;
  ps_heartbeat : option Z;
}.

Record PoolRecord : Type := mkPoolRecord {
  rec_head : option Z;
  rec_head_at : option Z;
  rec_processed : option Z;
  rec_heartbeat : option (Z * Z);
  rec_events_processed : option Z;
  rec_users_tracked : option Z;
  rec_auctions_open : option Z;
  rec_seed_accounts_loaded : option Z;
  rec_last_successful_scan : option Z;
}.

Definition pool_record_default : PoolRecord :=
  mkPoolRecord None None None None None None None None None.

Record Metrics : Type := mkMetrics {
  mt_pools : gmap string PoolRecord;
  mt_creations : Attempt → Z;
  mt_fills : Attempt → Z;
  mt_skips : SkipLabel → Z;
  mt_profit_total : Z;
  mt_loss_total : Z;
  mt_reserved_inventory : gmap string Z;
  mt_unwind_passes : Z;
  mt_notifications : gmap (NotificationKind * DeliveryLabel) Z;
}.

(** [Metrics::new]. *)
Definition metrics_new : Metrics :=
  mkMetrics ∅ (λ _, 0) (λ _, 0) (λ _, 0) 0 0 ∅ 0 ∅.

(** [u64::saturating_add]. *)
Definition u64_saturating_add (a b : Z) : Z := Z.min (a + b) u64_max.

(** ** Recording *)

Definition with_pools (f : gmap string PoolRecord → gmap string PoolRecord) (m : Metrics) : Metrics :=
  mkMetrics (f (mt_pools m)) (mt_creations m) (mt_fills m) (mt_skips m) (mt_profit_total m)
    (mt_loss_total m) (mt_reserved_inventory m) (mt_unwind_passes m) (mt_notifications m).

(** [inner.pools.entry(pool).or_default()], then the update. *)
Definition on_pool (pool : string) (f : PoolRecord → PoolRecord) : Metrics → Metrics :=
  with_pools (λ pools, <[pool := f (default pool_record_default (pools !! pool))]> pools).

Definition ledger_head_at (pool : string) (sequence at_ : Z) : Metrics → Metrics :=
  on_pool pool (λ r, mkPoolRecord (Some sequence) (Some at_) (rec_processed r) (rec_heartbeat r)
    (rec_events_processed r) (rec_users_tracked r) (rec_auctions_open r)
    (rec_seed_accounts_loaded r) (rec_last_successful_scan r)).

Definition ledger_processed (pool : string) (sequence : Z) : Metrics → Metrics :=
  on_pool pool (λ r, mkPoolRecord (rec_head r) (rec_head_at r) (Some sequence) (rec_heartbeat r)
    (rec_events_processed r) (rec_users_tracked r) (rec_auctions_open r)
    (rec_seed_accounts_loaded r) (rec_last_successful_scan r)).

Definition heartbeat_at (pool : string) (at_ wall : Z) : Metrics → Metrics :=
  on_pool pool (λ r, mkPoolRecord (rec_head r) (rec_head_at r) (rec_processed r) (Some (at_, wall))
    (rec_events_processed r) (rec_users_tracked r) (rec_auctions_open r)
    (rec_seed_accounts_loaded r) (rec_last_successful_scan r)).

Definition events_processed (pool : string) (count : Z) : Metrics → Metrics :=
  on_pool pool (λ r, mkPoolRecord (rec_head r) (rec_head_at r) (rec_processed r) (rec_heartbeat r)
    (Some (u64_saturating_add (default 0 (rec_events_processed r)) count)) (rec_users_tracked r)
    (rec_auctions_open r) (rec_seed_accounts_loaded r) (rec_last_successful_scan r)).

Definition users_tracked (pool : string) (count : Z) : Metrics → Metrics :=
  on_pool pool (λ r, mkPoolRecord (rec_head r) (rec_head_at r) (rec_processed r) (rec_heartbeat r)
    (rec_events_processed r) (Some count) (rec_auctions_open r)
    (rec_seed_accounts_loaded r) (rec_last_successful_scan r)).

Definition auctions_open (pool : string) (count : Z) : Metrics → Metrics :=
  on_pool pool (λ r, mkPoolRecord (rec_head r) (rec_head_at r) (rec_processed r) (rec_heartbeat r)
    (rec_events_processed r) (rec_users_tracked r) (Some count)
    (rec_seed_accounts_loaded r) (rec_last_successful_scan r)).

Definition seed_accounts_loaded (pool : string) (count : Z) : Metrics → Metrics :=
  on_pool pool (λ r, mkPoolRecord (rec_head r) (rec_head_at r) (rec_processed r) (rec_heartbeat r)
    (rec_events_processed r) (rec_users_tracked r) (rec_auctions_open r) (Some count)
    (rec_last_successful_scan r)).

Definition scan_succeeded (pool : string) (at_ : Z) : Metrics → Metrics :=
  on_pool pool (λ r, mkPoolRecord (rec_head r) (rec_head_at r) (rec_processed r) (rec_heartbeat r)
    (rec_events_processed r) (rec_users_tracked r) (rec_auctions_open r)
    (rec_seed_accounts_loaded r) (Some at_)).

Definition bump_attempt (a : Attempt) (slots : Attempt → Z) : Attempt → Z := λ b,
  if Nat.eqb (attempt_code a) (attempt_code b) then u64_saturating_add (slots b) 1 else slots b.

Definition creation (result : Attempt) (m : Metrics) : Metrics :=
  mkMetrics (mt_pools m) (bump_attempt result (mt_creations m)) (mt_fills m) (mt_skips m)
    (mt_profit_total m) (mt_loss_total m) (mt_reserved_inventory m) (mt_unwind_passes m)
    (mt_notifications m).

Definition fill (result : Attempt) (m : Metrics) : Metrics :=
  mkMetrics (mt_pools m) (mt_creations m) (bump_attempt result (mt_fills m)) (mt_skips m)
    (mt_profit_total m) (mt_loss_total m) (mt_reserved_inventory m) (mt_unwind_passes m)
    (mt_notifications m).

Definition skip (reason : SkipLabel) (m : Metrics) : Metrics :=
  mkMetrics (mt_pools m) (mt_creations m) (mt_fills m)
    (λ l, if bool_decide (reason = l) then u64_saturating_add (mt_skips m l) 1 else mt_skips m l)
    (mt_profit_total m) (mt_loss_total m) (mt_reserved_inventory m) (mt_unwind_passes m)
    (mt_notifications m).

(** [i128::saturating_neg]. *)
Definition saturating_neg (z : Z) : Z := saturate_i128 (- z).

Definition profit (oracle_units : Z) (m : Metrics) : Metrics :=
  let '(profit_total, loss_total) :=
    if oracle_units <? 0
    then (mt_profit_total m, saturating_add (mt_loss_total m) (saturating_neg oracle_units))
    else (saturating_add (mt_profit_total m) oracle_units, mt_loss_total m) in
  mkMetrics (mt_pools m) (mt_creations m) (mt_fills m) (mt_skips m) profit_total loss_total
    (mt_reserved_inventory m) (mt_unwind_passes m) (mt_notifications m).

Definition reserved_inventory (reserved : gmap string Z) (m : Metrics) : Metrics :=
  mkMetrics (mt_pools m) (mt_creations m) (mt_fills m) (mt_skips m) (mt_profit_total m)
    (mt_loss_total m) reserved (mt_unwind_passes m) (mt_notifications m).

Definition unwind_pass (m : Metrics) : Metrics :=
  mkMetrics (mt_pools m) (mt_creations m) (mt_fills m) (mt_skips m) (mt_profit_total m)
    (mt_loss_total m) (mt_reserved_inventory m) (u64_saturating_add (mt_unwind_passes m) 1)
    (mt_notifications m).

Definition notification (kind : NotificationKind) (delivery : DeliveryLabel) (m : Metrics) : Metrics :=
  mkMetrics (mt_pools m) (mt_creations m) (mt_fills m) (mt_skips m) (mt_profit_total m)
    (mt_loss_total m) (mt_reserved_inventory m) (mt_unwind_passes m)
    (<[(kind, delivery) :=
         u64_saturating_add (default 0 (mt_notifications m !! (kind, delivery))) 1]>
       (mt_notifications m)).

(** [Metrics::pool_status]. *)
Definition pool_status (m : Metrics) (pool : string) : option PoolStatus :=
  (λ r, mkPoolStatus (rec_head r) (rec_head_at r) (rec_processed r) (fst <$> rec_heartbeat r))
    <$> mt_pools m !! pool.

(** ** Rendering *)

Definition newline : ascii := ascii_of_nat 10.
Definition quote : ascii := ascii_of_nat 34.
Definition backslash : ascii := ascii_of_nat 92.

(** [escape_label]: backslash, quote and newline are escaped. The three are
    ASCII, so the bytes of any other character pass through. *)
Fixpoint escape_label (value : string) : string :=
  match value with
  | EmptyString => EmptyString
  | String c rest =>
      if Ascii.eqb c backslash then String backslash (String backslash (escape_label rest))
      else if Ascii.eqb c quote then String backslash (String quote (escape_label rest))
      else if Ascii.eqb c newline then String backslash (String "n" (escape_label rest))
      else String c (escape_label rest)
  end.

Local Open Scope string_scope.

Definition METRIC_PREFIX : string := "blend_liquidator_".

Definition line (text : string) : string := text +:+ String newline EmptyString.
Definition in_quotes (text : string) : string := String quote (text +:+ String quote EmptyString).

Definition header (name help kind : string) : string :=
  line ("# HELP " +:+ METRIC_PREFIX +:+ name +:+ " " +:+ help) +:+
  line ("# TYPE " +:+ METRIC_PREFIX +:+ name +:+ " " +:+ kind).

(** A sample with one label. *)
Definition labelled (name label value : string) (sample : Z) : string :=
  line (METRIC_PREFIX +:+ name +:+ "{" +:+ label +:+ "=" +:+ in_quotes value +:+ "} " +:+ pretty sample).
Definition plain (name : string) (sample : Z) : string :=
  line (METRIC_PREFIX +:+ name +:+ " " +:+ pretty sample).

Definition concat_map {A : Type} (f : A → string) (l : list A) : string :=
  foldr (λ a out, f a +:+ out) "" l.

(** The samples of a per-pool series: one for each pool that has one. *)
Definition per_pool (name : string) (sample : PoolRecord → option Z)
    (pools : gmap string PoolRecord) : string :=
  concat_map (λ '(pool, record),
    match sample record with
    | Some n => labelled name "pool" (escape_label pool) n
    | None => ""
    end) (bt_iter pools).

(** [SystemTime] to whole seconds since the epoch; an earlier time is zero. *)
Definition epoch_seconds (wall : Z) : Z := Z.max wall 0 / 1000000000.

Definition render (self : Metrics) : string :=
  let pools := mt_pools self in
  header "ledger_head" "The last ledger sequence a pool's poller has seen." "gauge" +:+
  per_pool "ledger_head" rec_head pools +:+
  header "ledger_processed" "The last ledger sequence a pool's tracker has fully applied."
    "gauge" +:+
  per_pool "ledger_processed" rec_processed pools +:+
  header "poller_heartbeat_timestamp_seconds"
    "Wall-clock time a pool's poller last reported itself alive." "gauge" +:+
  per_pool "poller_heartbeat_timestamp_seconds"
    (λ r, (λ '(_, wall), epoch_seconds wall) <$> rec_heartbeat r) pools +:+
  header "events_processed_total" "Pool events applied by the tracker." "counter" +:+
  per_pool "events_processed_total" rec_events_processed pools +:+
  header "users_tracked" "Tracked borrowers currently owing something in a pool." "gauge" +:+
  per_pool "users_tracked" rec_users_tracked pools +:+
  header "auctions_open" "Open auctions currently tracked in a pool." "gauge" +:+
  per_pool "auctions_open" rec_auctions_open pools +:+
  header "seed_accounts_loaded" "Accounts a pool's seed pass loaded." "gauge" +:+
  per_pool "seed_accounts_loaded" rec_seed_accounts_loaded pools +:+
  header "creations_total" "Auction-creation attempts, by result." "counter" +:+
  concat_map (λ a, labelled "creations_total" "result" (attempt_str a) (mt_creations self a))
    ALL_ATTEMPTS +:+
  header "fills_total"
    "Fill attempts handed to the chain, by result. A fill refused or found stale when it was prepared leaves a fills row this does not count."
    "counter" +:+
  concat_map (λ a, labelled "fills_total" "result" (attempt_str a) (mt_fills self a))
    ALL_ATTEMPTS +:+
  header "skips_total"
    "Auctions the filler skipped without taking, by reason. One per auction the filler decided not to take, per reason, never one per pass over it, so the reasons are comparable with each other."
    "counter" +:+
  concat_map (λ l, labelled "skips_total" "reason" (skip_str l) (mt_skips self l)) ALL_SKIPS +:+
  header "estimated_profit_total"
    "Running estimated profit of the fills that landed, as an integer in the pool oracle's own units — its decimals are the pool's to read, not this bot's to assume. Display only: never used in any decision."
    "counter" +:+
  plain "estimated_profit_total" (mt_profit_total self) +:+
  header "estimated_loss_total"
    "Running estimated loss of the fills that landed, by magnitude, as an integer in the pool oracle's own units — its decimals are the pool's to read, not this bot's to assume. Its own counter rather than a subtraction from estimated_profit_total, which must never decrease. Display only."
    "counter" +:+
  plain "estimated_loss_total" (mt_loss_total self) +:+
  header "reserved_inventory" "The filler wallet's current reservations, by asset." "gauge" +:+
  concat_map (λ '(asset, amount), labelled "reserved_inventory" "asset" (escape_label asset) amount)
    (bt_iter (mt_reserved_inventory self)) +:+
  header "unwind_passes_total" "Completed unwind passes." "counter" +:+
  plain "unwind_passes_total" (mt_unwind_passes self) +:+
  (if existsb (λ '(_, r), bool_decide (is_Some (rec_last_successful_scan r))) (bt_iter pools)
   then
     header "last_successful_scan_timestamp_seconds"
       "Wall-clock time a pool's last full scan succeeded." "gauge" +:+
     per_pool "last_successful_scan_timestamp_seconds"
       (λ r, epoch_seconds <$> rec_last_successful_scan r) pools
   else "") +:+
  header "notifications_total" "Notifications, by kind and by delivery outcome." "counter" +:+
  concat_map (λ '((kind, delivery), count),
    line (METRIC_PREFIX +:+ "notifications_total{kind=" +:+ in_quotes (kind_str kind) +:+
          ",delivery=" +:+ in_quotes (delivery_str delivery) +:+ "} " +:+ pretty count))
    (bt_iter (mt_notifications self)).

Local Close Scope string_scope.
