(* ===== verification/Notifier.v ===== *)
(** * Notifications ([src/notifier.rs])

    [Notifier]: a map of what was sent when, ten permits for the deliveries in
    flight, and the calls and delivery tasks that share them. A call locks the
    map, takes a permit or gives its entry back, and answers; the task it spawns
    hands the notification to the channel. Each of those is a step; calls and
    tasks interleave at every one of them. The channel is the environment: it
    answers when it likes, anything, or never. *)

From S2P Require Import Prelude Metrics.
Open Scope Z_scope.

(** ** Data *)

Inductive Severity : Type := Low | Medium | High.

Record Notification : Type := mkNotification {
  nt_kind : NotificationKind;
  nt_severity : Severity;
  nt_pool : string;
  nt_account : option string;
  nt_message : string;
}.

(** [NotifyError]. *)
Inductive NotifyError : Type := Channel (text : string).

Inductive Delivery : Type := DeliveryQueued | DeliveryDeduplicated | DeliveryDropped.

Definition NOTIFY_IN_FLIGHT : Z := 10.
(** Nanoseconds. *)
Definition DRAIN_BUDGET : Z := 10000000000.

(** What [Recent] is keyed by. *)
Definition NoteKey : Type := string * option string * NotificationKind.

Definition key_of (notification : Notification) : NoteKey :=
  (nt_pool notification, nt_account notification, nt_kind notification).

(** [Inner], without the channel and its fallback; [permits] counts the
    semaphore's available ones. *)
Record Inner : Type := mkInner {
  cooldown : Z;
  recent : gmap NoteKey Z;
  permits : Z;
  metrics : option Metrics;
}.

Definition with_recent (m : gmap NoteKey Z) (self : Inner) : Inner :=
  mkInner (cooldown self) m (permits self) (metrics self).
Definition with_permits (n : Z) (self : Inner) : Inner :=
  mkInner (cooldown self) (recent self) n (metrics self).

(** [Notifier::new] and [Notifier::with_metrics]. *)
Definition notifier_new (cooldown : Z) : Inner := mkInner cooldown ∅ NOTIFY_IN_FLIGHT None.
Definition with_metrics (m : Metrics) (self : Inner) : Inner :=
  mkInner (cooldown self) (recent self) (permits self) (Some m).

(** ** The operations on what is shared *)

(** [Inner::record]. *)
Definition record (kind : NotificationKind) (delivery : DeliveryLabel) (self : Inner) : Inner :=
  mkInner (cooldown self) (recent self) (permits self) (notification kind delivery <$> metrics self).

(** [notify_at], under the lock: whether the notification is a repeat, and the
    entry that is made when it is not. *)
Definition check_recent (key : NoteKey) (now : Z) (self : Inner) : Inner * bool :=
  let deduplicated :=
    match recent self !! key with
    | Some last => Z.max (now - last) 0 <? cooldown self
    | None => false
    end in
  if deduplicated then (self, true)
  else (with_recent (<[key := now]> (recent self)) self, false).

(** [Inner::roll_back]: only the entry made at [now]. *)
Definition roll_back (key : NoteKey) (now : Z) (self : Inner) : Inner :=
  if bool_decide (recent self !! key = Some now) then with_recent (delete key (recent self)) self
  else self.

(** [Semaphore::try_acquire_owned]. *)
Definition try_acquire (self : Inner) : option Inner :=
  if 0 <? permits self then Some (with_permits (permits self - 1) self) else None.

(** [Notifier::in_flight]. *)
Definition in_flight (self : Inner) : Z := Z.max (NOTIFY_IN_FLIGHT - permits self) 0.

(** The label [notify_at] counts an answer under. *)
Definition delivery_label (d : Delivery) : DeliveryLabel :=
  match d with
  | DeliveryQueued => LabelQueued
  | DeliveryDeduplicated => LabelDeduplicated
  | DeliveryDropped => LabelDropped
  end.

(** ** Calls and tasks, a step at a time *)

(** A call of [notify_at]: its arguments, and a number of its own. *)
Record Call : Type := mkCall {
  cl_id : nat;
  cl_note : Notification;
  cl_now : Z;
}.

Definition cl_key (c : Call) : NoteKey := key_of (cl_note c).
Definition cl_kind (c : Call) : NotificationKind := nt_kind (cl_note c).

(** What is done inside the call, and what by the task it spawned. *)
Inductive Side : Type := InCall | InTask.

Inductive NotifyObs : Type :=
| OAsk (c : Call)
| OLook (c : Call) (deduplicated : bool)
| OHand (c : Call)
| OFull (c : Call)
| OUndo (side : Side) (c : Call) (removed : bool)
| OEmit (side : Side) (c : Call)
| OAnswer (c : Call) (d : Delivery)
| OSend (c : Call) (answer : result NotifyError ())
| OCount (c : Call)
| OEnd (c : Call)
| ODrain (drained : bool).

(** Where a call stands. *)
Inductive CallStage : Type :=
| Looking | Acquiring | Undoing | Emitting | Answering (d : Delivery).

(** Where a delivery task stands. *)
Inductive TaskStage : Type :=
| Sending | Failing | FallingBack | CountingFailed | Releasing.

Definition removes (c : Call) (self : Inner) : bool :=
  bool_decide (recent self !! cl_key c = Some (cl_now c)).

(** One step of [notify_at]: what it leaves of the shared state, what is seen,
    where the call stands after — nowhere once it has answered — and whether
    it spawned a task. *)
Definition call_step (c : Call) (stage : CallStage) (self : Inner)
  : Inner * NotifyObs * option CallStage * bool :=
  match stage with
  | Looking =>
      let '(self, deduplicated) := check_recent (cl_key c) (cl_now c) self in
      (self, OLook c deduplicated,
       Some (if deduplicated then Answering DeliveryDeduplicated else Acquiring), false)
  | Acquiring =>
      match try_acquire self with
      | Some self => (self, OHand c, Some (Answering DeliveryQueued), true)
      | None => (self, OFull c, Some Undoing, false)
      end
  | Undoing =>
      (roll_back (cl_key c) (cl_now c) self, OUndo InCall c (removes c self), Some Emitting, false)
  | Emitting => (self, OEmit InCall c, Some (Answering DeliveryDropped), false)
  | Answering d => (record (cl_kind c) (delivery_label d) self, OAnswer c d, None, false)
  end.

(** One step of the spawned task; the channel's [answer] is read where the task
    sends. The permit is given back by the last step. *)
Definition task_step (c : Call) (stage : TaskStage) (answer : result NotifyError ()) (self : Inner)
  : Inner * NotifyObs * option TaskStage :=
  match stage with
  | Sending =>
      (self, OSend c answer, Some (match answer with Ok _ => Releasing | Err _ => Failing end))
  | Failing =>
      (roll_back (cl_key c) (cl_now c) self, OUndo InTask c (removes c self), Some FallingBack)
  | FallingBack => (self, OEmit InTask c, Some CountingFailed)
  | CountingFailed => (record (cl_kind c) LabelFailed self, OCount c, Some Releasing)
  | Releasing => (self, OEnd c, None)
  end.

(** [notify_at] with nothing in between. *)
Definition notify_at (n : Notification) (now : Z) (self : Inner) : Inner * Delivery :=
  let '(self, deduplicated) := check_recent (key_of n) now self in
  if deduplicated then (record (nt_kind n) LabelDeduplicated self, DeliveryDeduplicated)
  else
    match try_acquire self with
    | None => (record (nt_kind n) LabelDropped (roll_back (key_of n) now self), DeliveryDropped)
    | Some self => (record (nt_kind n) LabelQueued self, DeliveryQueued)
    end.

(** ** The whole notifier *)

(** [draining] is [drain]'s acquisition of every permit: how many it holds.
    The semaphore is fair, so while it waits a released permit is its own. *)
Record World : Type := mkWorld {
  shared : Inner;
  calls : gmap nat (Call * CallStage);
  tasks : gmap nat (Call * TaskStage);
  draining : option Z;
  past : list NotifyObs;
}.

Definition world_new (self : Inner) : World := mkWorld self ∅ ∅ None [].

(** A permit goes to who waits for it. *)
Definition give_permit (self : Inner) (draining : option Z) : Inner * option Z :=
  match draining with
  | Some held => (self, Some (held + 1))
  | None => (with_permits (permits self + 1) self, None)
  end.

(** Where [id] stands after a step, if anywhere. *)
Definition stands {S : Type} (c : Call) (next : option S) (m : gmap nat (Call * S))
  : gmap nat (Call * S) :=
  match next with
  | Some stage => <[cl_id c := (c, stage)]> m
  | None => delete (cl_id c) m
  end.

Definition ask (c : Call) (w : World) : World :=
  mkWorld (shared w) (stands c (Some Looking) (calls w)) (tasks w) (draining w) (past w ++ [OAsk c]).

Definition move_call (c : Call) (stage : CallStage) (w : World) : World :=
  let '(self, seen, next, spawned) := call_step c stage (shared w) in
  mkWorld self (stands c next (calls w))
    (if spawned then stands c (Some Sending) (tasks w) else tasks w)
    (draining w) (past w ++ [seen]).

Definition move_task (c : Call) (stage : TaskStage) (answer : result NotifyError ()) (w : World)
  : World :=
  let '(self, seen, next) := task_step c stage answer (shared w) in
  let '(self, draining) :=
    match next with Some _ => (self, draining w) | None => give_permit self (draining w) end in
  mkWorld self (calls w) (stands c next (tasks w)) draining (past w ++ [seen]).

(** [drain]: every permit is asked for, held as it comes, and given back when
    all are held or the budget is over. *)
Definition drain_starts (w : World) : World :=
  mkWorld (with_permits 0 (shared w)) (calls w) (tasks w) (Some (permits (shared w))) (past w).
Definition drain_ends (held : Z) (drained : bool) (w : World) : World :=
  mkWorld (with_permits (permits (shared w) + held) (shared w)) (calls w) (tasks w) None
    (past w ++ [ODrain drained]).

(** The call an observation is of. *)
Definition call_of (o : NotifyObs) : option Call :=
  match o with
  | OAsk c | OLook c _ | OHand c | OFull c | OUndo _ c _ | OEmit _ c | OAnswer c _ | OSend c _
  | OCount c | OEnd c => Some c
  | ODrain _ => None
  end.

(** Any interleaving of calls, tasks and drains; two calls have two numbers. *)
Inductive notifier_step : World → World → Prop :=
| step_ask c w :
    Forall (λ o, cl_id <$> call_of o ≠ Some (cl_id c)) (past w) → notifier_step w (ask c w)
| step_call c stage w :
    calls w !! cl_id c = Some (c, stage) → notifier_step w (move_call c stage w)
| step_task c stage answer w :
    tasks w !! cl_id c = Some (c, stage) → notifier_step w (move_task c stage answer w)
| step_drain w : draining w = None → notifier_step w (drain_starts w)
| step_drained w :
    draining w = Some NOTIFY_IN_FLIGHT → notifier_step w (drain_ends NOTIFY_IN_FLIGHT true w)
| step_timed_out held w :
    draining w = Some held → held < NOTIFY_IN_FLIGHT → notifier_step w (drain_ends held false w).

(** What a fresh notifier can become. *)
Definition notifier_reaches (self : Inner) : World → Prop := rtc notifier_step (world_new self).
