(* ===== verification/NotifierContract.v ===== *)
(** * What the notifier promises

    In every interleaving of calls, delivery tasks and drains: at most ten
    deliveries are in flight; two notifications of one kind, pool and account
    are a cooldown apart unless one was given back in between; a notification
    is only suppressed by one that was sent; and each has one of four
    histories, with the log as the last resort of those the channel never
    took. *)

From S2P Require Import Prelude Metrics Notifier.
Open Scope Z_scope.

(** ** The promises *)

(** A look that let its call through. *)
Definition let_through (k : NoteKey) (o : NotifyObs) : Prop :=
  match o with OLook c false => cl_key c = k | _ => False end.
(** An entry that was given back. *)
Definition given_back (k : NoteKey) (o : NotifyObs) : Prop :=
  match o with OUndo _ c true => cl_key c = k | _ => False end.
(** [c] never reached the channel, or was refused by it. *)
Definition undone (c : Call) (h : list NotifyObs) : Prop := ∃ side r, OUndo side c r ∈ h.

Definition repeats_are_a_cooldown_apart (cd : Z) (h : list NotifyObs) : Prop :=
  ∀ h1 c h2 d h3, h = h1 ++ OLook c false :: h2 ++ OLook d false :: h3 → cl_key c = cl_key d →
  cd ≤ cl_now d - cl_now c ∨ Exists (given_back (cl_key c)) h2.

Definition suppressed_only_by_a_repeat (cd : Z) (h : list NotifyObs) : Prop :=
  ∀ h1 d h2, h = h1 ++ OLook d true :: h2 →
  ∃ c, OLook c false ∈ h1 ∧ cl_key c = cl_key d ∧ cl_now d - cl_now c < cd ∧ ¬ undone c h1.

(** The last call of [k] that was let through was made at [t], and no entry of
    [k] was given back since. *)
Definition standing (k : NoteKey) (t : Z) (h : list NotifyObs) : Prop :=
  ∃ h1 c h2, h = h1 ++ OLook c false :: h2 ∧ cl_key c = k ∧ cl_now c = t ∧
    Forall (λ o, ¬ let_through k o ∧ ¬ given_back k o) h2.

(** A call that was dropped or refused takes the standing entry back exactly
    when that bears the call's own instant. *)
Definition takes_back_its_own (h : list NotifyObs) : Prop :=
  ∀ h1 side c r h2, h = h1 ++ OUndo side c r :: h2 →
  r = true ↔ standing (cl_key c) (cl_now c) h1.

Definition drained_means_none_in_flight (h : list NotifyObs) : Prop :=
  ∀ h1 h2 c, h = h1 ++ ODrain true :: h2 → OHand c ∈ h1 → OEnd c ∈ h1.

(** What is seen of [c]'s call, and of its task. *)
Definition side_of (o : NotifyObs) : Side :=
  match o with OUndo side _ _ | OEmit side _ => side | OSend _ _ | OCount _ | OEnd _ => InTask
  | _ => InCall end.

#[export] Instance severity_eq_dec : EqDecision Severity.
Proof. solve_decision. Defined.
#[export] Instance notification_eq_dec : EqDecision Notification.
Proof. solve_decision. Defined.
#[export] Instance call_eq_dec : EqDecision Call.
Proof. solve_decision. Defined.
#[export] Instance side_eq_dec : EqDecision Side.
Proof. solve_decision. Defined.

Definition seen_of (side : Side) (c : Call) (h : list NotifyObs) : list NotifyObs :=
  filter (λ o, call_of o = Some c ∧ side_of o = side) h.

(** The four histories. *)
Inductive outcome (c : Call) : list NotifyObs → list NotifyObs → Prop :=
| suppressed :
    outcome c [OAsk c; OLook c true; OAnswer c DeliveryDeduplicated] []
| delivered :
    outcome c [OAsk c; OLook c false; OHand c; OAnswer c DeliveryQueued]
      [OSend c (Ok ()); OEnd c]
| refused e r :
    outcome c [OAsk c; OLook c false; OHand c; OAnswer c DeliveryQueued]
      [OSend c (Err e); OUndo InTask c r; OEmit InTask c; OCount c; OEnd c]
| dropped r :
    outcome c
      [OAsk c; OLook c false; OFull c; OUndo InCall c r; OEmit InCall c; OAnswer c DeliveryDropped] [].

Definition every_notification_has_its_outcome (w : World) : Prop :=
  ∀ c, OAsk c ∈ past w → calls w !! cl_id c = None → tasks w !! cl_id c = None →
  outcome c (seen_of InCall c (past w)) (seen_of InTask c (past w)).

(** What a dashboard is told: one count for each answer, and one for each send
    the channel refused. *)
Definition counts (k : NotificationKind) (l : DeliveryLabel) (o : NotifyObs) : Prop :=
  match o with
  | OAnswer c DeliveryQueued => cl_kind c = k ∧ l = LabelQueued
  | OAnswer c DeliveryDeduplicated => cl_kind c = k ∧ l = LabelDeduplicated
  | OAnswer c DeliveryDropped => cl_kind c = k ∧ l = LabelDropped
  | OCount c => cl_kind c = k ∧ l = LabelFailed
  | _ => False
  end.

#[export] Instance counts_dec k l o : Decision (counts k l o).
Proof. destruct o as [| | | | | |? []| | | |]; apply _. Defined.

Definition counted_outcomes (m : option Metrics) (h : list NotifyObs) : Prop :=
  ∀ recorder k l, m = Some recorder →
  default 0 (mt_notifications recorder !! (k, l)) =
  Z.min (Z.of_nat (length (filter (counts k l) h))) u64_max.

(** ** Stories: what has been seen, by the stage that is reached *)

Inductive call_story (c : Call) : option CallStage → list NotifyObs → Prop :=
| story_looking : call_story c (Some Looking) [OAsk c]
| story_acquiring : call_story c (Some Acquiring) [OAsk c; OLook c false]
| story_undoing : call_story c (Some Undoing) [OAsk c; OLook c false; OFull c]
| story_emitting r :
    call_story c (Some Emitting) [OAsk c; OLook c false; OFull c; OUndo InCall c r]
| story_dropped r :
    call_story c (Some (Answering DeliveryDropped))
      [OAsk c; OLook c false; OFull c; OUndo InCall c r; OEmit InCall c]
| story_repeat :
    call_story c (Some (Answering DeliveryDeduplicated)) [OAsk c; OLook c true]
| story_queued :
    call_story c (Some (Answering DeliveryQueued)) [OAsk c; OLook c false; OHand c]
| story_answered d l :
    call_story c (Some (Answering d)) l → call_story c None (l ++ [OAnswer c d]).

Inductive task_story (c : Call) : option TaskStage → list NotifyObs → Prop :=
| story_sending : task_story c (Some Sending) []
| story_failing e : task_story c (Some Failing) [OSend c (Err e)]
| story_falling e r : task_story c (Some FallingBack) [OSend c (Err e); OUndo InTask c r]
| story_counting e r :
    task_story c (Some CountingFailed) [OSend c (Err e); OUndo InTask c r; OEmit InTask c]
| story_refused e r :
    task_story c (Some Releasing)
      [OSend c (Err e); OUndo InTask c r; OEmit InTask c; OCount c]
| story_sent : task_story c (Some Releasing) [OSend c (Ok ())]
| story_ended l : task_story c (Some Releasing) l → task_story c None (l ++ [OEnd c]).

(** Ids name calls. *)
Definition named (h : list NotifyObs) : Prop :=
  ∀ c d, OAsk c ∈ h → OAsk d ∈ h → cl_id c = cl_id d → c = d.

Record told (w : World) : Prop := {
  told_named : named (past w);
  told_asked c o : o ∈ past w → call_of o = Some c → OAsk c ∈ past w;
  told_calls id c s : calls w !! id = Some (c, s) → id = cl_id c ∧ OAsk c ∈ past w;
  told_call c : OAsk c ∈ past w →
    call_story c (snd <$> calls w !! cl_id c) (seen_of InCall c (past w));
  told_tasks id c s : tasks w !! id = Some (c, s) → id = cl_id c ∧ OHand c ∈ past w;
  told_task c : OHand c ∈ past w →
    task_story c (snd <$> tasks w !! cl_id c) (seen_of InTask c (past w));
  told_idle c : OHand c ∉ past w → seen_of InTask c (past w) = [];
}.

(** ** The stories are told *)

Lemma seen_of_snoc side c h o :
  seen_of side c (h ++ [o]) =
  seen_of side c h ++ (if decide (call_of o = Some c ∧ side_of o = side) then [o] else []).
Proof. unfold seen_of. rewrite filter_app, filter_cons, filter_nil. done. Qed.

Lemma seen_of_other side c h o :
  ¬ (call_of o = Some c ∧ side_of o = side) → seen_of side c (h ++ [o]) = seen_of side c h.
Proof. intros Hn. rewrite seen_of_snoc, decide_False by done. apply app_nil_r. Qed.

Lemma seen_of_own side c h o :
  call_of o = Some c → side_of o = side → seen_of side c (h ++ [o]) = seen_of side c h ++ [o].
Proof. intros. by rewrite seen_of_snoc, decide_True. Qed.

Lemma elem_of_seen side c o h : call_of o = Some c → side_of o = side →
  o ∈ seen_of side c h ↔ o ∈ h.
Proof. intros. unfold seen_of. rewrite list_elem_of_filter. naive_solver. Qed.

(** A call's step and its task's, in their stories. *)
Lemma call_step_story c s self self' o next spawned l :
  call_step c s self = (self', o, next, spawned) → call_story c (Some s) l →
  call_of o = Some c ∧ side_of o = InCall ∧ call_story c next (l ++ [o]) ∧
  (if spawned then o = OHand c ∧ OHand c ∉ l else ∀ d, o ≠ OHand d) ∧ (∀ d, o ≠ OAsk d).
Proof.
  intros Hs Hl. unfold call_step in Hs.
  destruct s; repeat case_match; simplify_eq; inversion Hl; subst; split_and!; intros; try done;
    first [by econstructor | set_solver].
Qed.

Lemma task_step_story c s answer self self' o next l :
  task_step c s answer self = (self', o, next) → task_story c (Some s) l →
  call_of o = Some c ∧ side_of o = InTask ∧ task_story c next (l ++ [o]) ∧
  (∀ d, o ≠ OAsk d) ∧ (∀ d, o ≠ OHand d).
Proof.
  intros Hs Hl. unfold task_step in Hs.
  destruct s; simplify_eq; inversion Hl; subst; split_and!; intros; try done;
    repeat case_match; repeat match goal with u : () |- _ => destruct u end;
    first [by apply story_ended | by constructor].
Qed.

Arguments stands : simpl never.

Lemma stands_lookup {S : Type} (c : Call) (next : option S) m id :
  stands c next m !! id = if decide (id = cl_id c) then (λ s, (c, s)) <$> next else m !! id.
Proof.
  unfold stands. destruct next; [rewrite lookup_insert|rewrite lookup_delete];
    repeat case_decide; simpl; congruence.
Qed.

Lemma elem_of_snoc {A : Type} (x a : A) l : x ∈ l ++ [a] ↔ x ∈ l ∨ x = a.
Proof. rewrite elem_of_app, list_elem_of_singleton. done. Qed.

Lemma told_new self : told (world_new self).
Proof.
  split; simpl; repeat intro; rewrite ?lookup_empty in *; try done;
    repeat match goal with H : _ ∈ [] |- _ => by apply not_elem_of_nil in H end.
Qed.

Lemma told_ask c w : Forall (λ o, cl_id <$> call_of o ≠ Some (cl_id c)) (past w) →
  told w → told (ask c w).
Proof.
  intros Hf [Hn Ha Hc Hl Ht Hk Hi]. rewrite Forall_forall in Hf.
  assert (Hnew : ∀ o d, o ∈ past w → call_of o = Some d → cl_id d ≠ cl_id c).
  { intros o d Ho Hd Hid. apply (Hf o Ho). rewrite Hd. simpl. congruence. }
  split; unfold ask; simpl.
  - intros x y. rewrite !elem_of_snoc. intros [Hx| [= ->] ] [Hy| [= ->] ] Hid; try done.
    + by apply Hn.
    + by destruct (Hnew _ _ Hx eq_refl).
    + by destruct (Hnew _ _ Hy eq_refl).
  - intros x o. rewrite !elem_of_snoc. intros [Ho| ->] Hx.
    + left. by eapply Ha.
    + right. simpl in Hx. by simplify_eq.
  - intros id x s. rewrite stands_lookup, elem_of_snoc. case_decide as Hid.
    + simpl. intros. simplify_eq. auto.
    + intros Hs. destruct (Hc _ _ _ Hs). auto.
  - intros x. rewrite elem_of_snoc, stands_lookup. intros [Hx| [= ->] ].
    + rewrite decide_False by (by apply (Hnew (OAsk x))).
      rewrite seen_of_other; [by apply Hl|]. intros [ [= ->] _]. by destruct (Hnew _ _ Hx eq_refl).
    + rewrite decide_True by done. simpl. rewrite seen_of_own by done.
      destruct (seen_of InCall c (past w)) as [|o l] eqn:Hs; [by constructor|].
      assert (o ∈ seen_of InCall c (past w)) as Ho by (rewrite Hs; set_solver).
      unfold seen_of in Ho. rewrite list_elem_of_filter in Ho.
      destruct Ho as [[Ho _] Hp]. by destruct (Hnew _ _ Hp Ho).
  - intros id x s Hs. rewrite elem_of_snoc. destruct (Ht _ _ _ Hs). auto.
  - intros x. rewrite elem_of_snoc. intros [Hx|]; [|done].
    rewrite seen_of_other by naive_solver. by apply Hk.
  - intros x. rewrite elem_of_snoc. intros Hx. rewrite seen_of_other by naive_solver.
    apply Hi. naive_solver.
Qed.

Lemma told_call_step c s w :
  calls w !! cl_id c = Some (c, s) → told w → told (move_call c s w).
Proof.
  intros Hw [Hn Ha Hc Hl Ht Hk Hi]. destruct (Hc _ _ _ Hw) as [_ Hask].
  unfold move_call. destruct (call_step c s (shared w)) as [ [ [self o] next] spawned] eqn:Hs.
  pose proof (Hl c Hask) as Hstory. rewrite Hw in Hstory. simpl in Hstory.
  destruct (call_step_story _ _ _ _ _ _ _ _ Hs Hstory) as (Hof & Hside & Hnext & Hspawn & Hnoask).
  assert (Hin : ∀ x, OAsk x ∈ past w ++ [o] ↔ OAsk x ∈ past w).
  { intros x. rewrite elem_of_snoc. naive_solver. }
  assert (Hsame : ∀ x, OAsk x ∈ past w → cl_id x = cl_id c → x = c) by (intros; by apply Hn).
  assert (Hhand : ∀ x, OHand x ∈ past w ++ [o] ↔ OHand x ∈ past w ∨ (spawned = true ∧ x = c)).
  { intros x. rewrite elem_of_snoc. destruct spawned; naive_solver. }
  split; simpl.
  - intros x y. rewrite !Hin. apply Hn.
  - intros x p. rewrite Hin, elem_of_snoc. intros [Hp| ->] Hx; [by eapply Ha|]. by simplify_eq.
  - intros id x t. rewrite stands_lookup, Hin. case_decide; [|apply Hc].
    destruct next; simpl; naive_solver.
  - intros x. rewrite Hin, stands_lookup. intros Hx. case_decide as Hid.
    + apply Hsame in Hid; [|done]. subst. rewrite seen_of_own by done.
      by destruct next.
    + rewrite seen_of_other; [by apply Hl|]. intros [??]. simplify_eq.
  - intros id x t. rewrite Hhand. destruct spawned; [|naive_solver].
    rewrite stands_lookup. case_decide; [simpl; naive_solver|]. intros Hx.
    destruct (Ht _ _ _ Hx). auto.
  - intros x. rewrite Hhand, seen_of_other by (rewrite Hside; naive_solver).
    intros [Hx|[-> ->] ].
    + pose proof (Hk x Hx) as Htask. destruct spawned; [|done].
      rewrite stands_lookup, decide_False; [done|]. intros Hid.
      destruct Hspawn as [_ Hno]. apply Hno. apply elem_of_seen; [done..|].
      rewrite <-(Hsame x); [done| |done]. by eapply Ha.
    + rewrite stands_lookup, decide_True by done. simpl. rewrite Hi; [by constructor|].
      destruct Hspawn as [_ Hno]. intros Hx. apply Hno. by apply elem_of_seen.
  - intros x. rewrite Hhand. intros Hx. rewrite seen_of_other by (rewrite Hside; naive_solver).
    apply Hi. naive_solver.
Qed.

Lemma told_task_step c s answer w :
  tasks w !! cl_id c = Some (c, s) → told w → told (move_task c s answer w).
Proof.
  intros Hw [Hn Ha Hc Hl Ht Hk Hi]. destruct (Ht _ _ _ Hw) as [_ Hhand].
  unfold move_task. destruct (task_step c s answer (shared w)) as [ [self o] next] eqn:Hs.
  pose proof (Hk c Hhand) as Hstory. rewrite Hw in Hstory. simpl in Hstory.
  destruct (task_step_story _ _ _ _ _ _ _ _ Hs Hstory) as (Hof & Hside & Hnext & Hnoask & Hnohand).
  assert (Hin : ∀ x, OAsk x ∈ past w ++ [o] ↔ OAsk x ∈ past w).
  { intros x. rewrite elem_of_snoc. naive_solver. }
  assert (Hhin : ∀ x, OHand x ∈ past w ++ [o] ↔ OHand x ∈ past w).
  { intros x. rewrite elem_of_snoc. naive_solver. }
  assert (Hcall : OAsk c ∈ past w) by by eapply Ha.
  assert (Hsame : ∀ x, OHand x ∈ past w → cl_id x = cl_id c → x = c).
  { intros x Hx. apply Hn; [by eapply Ha|done]. }
  destruct (match next with Some _ => _ | None => _ end) as [self' draining'].
  split; simpl.
  - intros x y. rewrite !Hin. apply Hn.
  - intros x p. rewrite Hin, elem_of_snoc. intros [Hp| ->] Hx; [by eapply Ha|]. by simplify_eq.
  - intros id x t. rewrite Hin. apply Hc.
  - intros x. rewrite Hin, seen_of_other by (rewrite Hside; naive_solver). apply Hl.
  - intros id x t. rewrite stands_lookup, Hhin. case_decide; [|apply Ht].
    destruct next; simpl; naive_solver.
  - intros x. rewrite Hhin, stands_lookup. intros Hx. case_decide as Hid.
    + apply Hsame in Hid; [|done]. subst. rewrite seen_of_own by done. by destruct next.
    + rewrite seen_of_other; [by apply Hk|]. intros [??]. simplify_eq.
  - intros x. rewrite Hhin. intros Hx. rewrite seen_of_other; [by apply Hi|]. naive_solver.
Qed.

Lemma told_drain held b w : told w → told (drain_ends held b w).
Proof.
  intros [Hn Ha Hc Hl Ht Hk Hi]. split; unfold drain_ends; simpl.
  - intros x y. rewrite !elem_of_snoc. naive_solver.
  - intros x p. rewrite !elem_of_snoc. naive_solver.
  - intros id x t. rewrite elem_of_snoc. naive_solver.
  - intros x. rewrite elem_of_snoc, seen_of_other by naive_solver. naive_solver.
  - intros id x t. rewrite elem_of_snoc. naive_solver.
  - intros x. rewrite elem_of_snoc, seen_of_other by naive_solver. naive_solver.
  - intros x. rewrite elem_of_snoc, seen_of_other by naive_solver. naive_solver.
Qed.

Lemma told_stays w w' : notifier_step w w' → told w → told w'.
Proof.
  destruct 1; eauto using told_ask, told_call_step, told_task_step, told_drain.
  intros [? ? ? ? ? ? ?]. by split.
Qed.

(** ** The permits *)

Record counted (w : World) : Prop := {
  counted_free : 0 ≤ permits (shared w);
  counted_held : 0 ≤ default 0 (draining w);
  counted_all : permits (shared w) + Z.of_nat (size (tasks w)) + default 0 (draining w) =
    NOTIFY_IN_FLIGHT;
}.

Lemma call_step_permits c s self self' o next spawned :
  call_step c s self = (self', o, next, spawned) →
  permits self' = permits self - (if spawned then 1 else 0) ∧ (spawned = true → 0 < permits self).
Proof.
  intros Hs. unfold call_step, check_recent, try_acquire, roll_back in Hs.
  destruct s; repeat case_match; simplify_eq; simpl; split; intros; lia.
Qed.

Lemma task_step_permits c s answer self self' o next :
  task_step c s answer self = (self', o, next) → permits self' = permits self.
Proof.
  intros Hs. unfold task_step, roll_back in Hs. destruct s; repeat case_match; by simplify_eq.
Qed.

(** A call that is about to spawn has no task yet. *)
Lemma no_task_yet c s w self o next :
  told w → calls w !! cl_id c = Some (c, s) → call_step c s (shared w) = (self, o, next, true) →
  tasks w !! cl_id c = None.
Proof.
  intros Htold Hw Hs. destruct (told_calls _ Htold _ _ _ Hw) as [_ Hask].
  pose proof (told_call _ Htold c Hask) as Hstory. rewrite Hw in Hstory.
  destruct (call_step_story _ _ _ _ _ _ _ _ Hs Hstory) as (_ & _ & _ & [_ Hno] & _).
  destruct (tasks w !! cl_id c) as [ [x t]|] eqn:Ht; [|done].
  destruct (told_tasks _ Htold _ _ _ Ht) as [Hid Hx]. destruct Hno. apply elem_of_seen; [done..|].
  replace c with x; [done|]. apply (told_named _ Htold); [by eapply told_asked|done..].
Qed.

Lemma counted_step w w' : notifier_step w w' → told w → counted w → counted w'.
Proof.
  destruct 1 as [c w Hf|c s w Hw|c s answer w Hw|w Hd|w Hd|held w Hd Hlt]; intros Htold [Hp Hh Ha].
  - by split.
  - unfold move_call. destruct (call_step c s (shared w)) as [ [ [self o] next] spawned] eqn:Hs.
    destruct (call_step_permits _ _ _ _ _ _ _ Hs) as [Hperm Hpos].
    split; simpl; [destruct spawned; lia|done|]. destruct spawned; [|lia].
    pose proof (no_task_yet _ _ _ _ _ _ Htold Hw Hs) as Hnone.
    unfold stands. rewrite map_size_insert_None by done. lia.
  - unfold move_task. destruct (task_step c s answer (shared w)) as [ [self o] next] eqn:Hs.
    apply task_step_permits in Hs.
    destruct next as [next|]; simpl.
    + split; simpl; [lia|done|]. unfold stands. rewrite map_size_insert_Some by done. lia.
    + assert (Hsize : size (delete (cl_id c) (tasks w)) = pred (size (tasks w))).
      { by apply map_size_delete_Some. }
      assert (size (tasks w) ≠ 0%nat) as Hpos.
      { rewrite map_size_non_empty_iff. intros Hz. by rewrite Hz, lookup_empty in Hw. }
      unfold give_permit. destruct (draining w) as [held|]; simpl in *;
        split; unfold stands; simpl; rewrite ?Hsize; lia.
  - rewrite Hd in *. simpl in *. split; simpl; lia.
  - rewrite Hd in *. simpl in *. split; simpl; lia.
  - rewrite Hd in *. simpl in *. split; simpl; lia.
Qed.

(** Where [l ++ [a]] is cut. *)
Lemma snoc_cut {A : Type} (h h1 h2 : list A) (o x : A) :
  h ++ [o] = h1 ++ x :: h2 →
  (h2 = [] ∧ x = o ∧ h1 = h) ∨ (∃ h3, h2 = h3 ++ [o] ∧ h = h1 ++ x :: h3).
Proof.
  intros Heq. destruct h2 as [|y h2 _] using rev_ind.
  - left. apply app_inj_tail in Heq. naive_solver.
  - right. exists h2. rewrite app_comm_cons, app_assoc in Heq.
    apply app_inj_tail in Heq. naive_solver.
Qed.

Lemma drained_step w w' : notifier_step w w' → told w → counted w →
  drained_means_none_in_flight (past w) → drained_means_none_in_flight (past w').
Proof.
  intros Hstep Htold Hcount Hd.
  assert (Hgen : ∀ o, (o = ODrain true → draining w = Some NOTIFY_IN_FLIGHT) →
    drained_means_none_in_flight (past w ++ [o])).
  { intros o Ho h1 h2 c Heq Hc. apply snoc_cut in Heq as [(-> & <- & ->)|(h3 & -> & Heq)].
    - specialize (Ho eq_refl). destruct Hcount as [Hp _ Ha]. rewrite Ho in Ha. simpl in Ha.
      assert (tasks w = ∅) as Hno by (apply map_size_empty_iff; lia).
      pose proof (told_task _ Htold c Hc) as Hs. rewrite Hno, lookup_empty in Hs. simpl in Hs.
      inversion Hs as [| | | | | |l Hl Hn Hseen]. apply (elem_of_seen InTask c); [done..|].
      rewrite <-Hseen. set_solver.
    - by eapply Hd. }
  destruct Hstep; try by apply Hgen.
  - unfold move_call. unfold call_step. destruct stage; repeat case_match; simplify_eq; simpl;
      by apply Hgen.
  - unfold move_task. unfold task_step. destruct stage; repeat case_match; simplify_eq; simpl;
      by apply Hgen.
  - done.
Qed.

(** ** The map of what was sent *)

(** The entry of [k] is its last call's that was let through, and nothing was
    given back since; with no entry, whatever was let through was. *)
Definition entry_of (k : NoteKey) (t : Z) (h : list NotifyObs) : Prop :=
  ∃ h1 c h2, h = h1 ++ OLook c false :: h2 ∧ cl_key c = k ∧ cl_now c = t ∧
    Forall (λ o, ¬ let_through k o) h2 ∧ ¬ undone c h.

Record books (cd : Z) (m : gmap NoteKey Z) (h : list NotifyObs) : Prop := {
  books_entry k t : m !! k = Some t → entry_of k t h;
  books_none k : m !! k = None →
    ∀ h1 c h2, h = h1 ++ OLook c false :: h2 → cl_key c = k → Exists (given_back k) h2;
  books_apart : repeats_are_a_cooldown_apart cd h;
  books_suppressed : suppressed_only_by_a_repeat cd h;
}.

Lemma books_new cd : books cd ∅ [].
Proof.
  split.
  - intros k t Hk. by apply lookup_empty_Some in Hk.
  - intros k _ h1 c h2 Heq. by destruct h1.
  - intros h1 c h2 d h3 Heq. by destruct h1.
  - intros h1 c h2 Heq. by destruct h1.
Qed.

Lemma undone_snoc c h o : undone c (h ++ [o]) → undone c h ∨ ∃ side r, o = OUndo side c r.
Proof. unfold undone. setoid_rewrite elem_of_snoc. naive_solver. Qed.

Lemma entry_snoc k t h o :
  ¬ let_through k o → (∀ side c r, o = OUndo side c r → cl_key c = k → cl_now c ≠ t) →
  entry_of k t h → entry_of k t (h ++ [o]).
Proof.
  intros Ho Hu (h1 & c & h2 & Heq & Hc & Ht & Hf & Hno). exists h1, c, (h2 ++ [o]). split_and!; try done.
  - rewrite Heq. by rewrite <-app_assoc.
  - apply Forall_app. split; [done|]. by repeat constructor.
  - intros [Hx|(side & r & Hx)]%undone_snoc; naive_solver.
Qed.

(** What only a look can break. *)
Lemma apart_other cd h o : (∀ c, o ≠ OLook c false) →
  repeats_are_a_cooldown_apart cd h → repeats_are_a_cooldown_apart cd (h ++ [o]).
Proof.
  intros Ho Ha h1 c h2 d h3 Heq. rewrite app_comm_cons, app_assoc in Heq.
  apply snoc_cut in Heq as [(_ & <- & _)|(h4 & -> & ->)]; [by destruct (Ho d)|].
  intros. eapply Ha; [|done]. by rewrite <-app_assoc.
Qed.

Lemma suppressed_other cd h o : (∀ c, o ≠ OLook c true) →
  suppressed_only_by_a_repeat cd h → suppressed_only_by_a_repeat cd (h ++ [o]).
Proof.
  intros Ho Hs h1 d h2 Heq. apply snoc_cut in Heq as [(_ & <- & _)|(h3 & -> & ->)];
    [by destruct (Ho d)|]. by eapply Hs.
Qed.

Lemma books_other cd m h o :
  (∀ c b, o ≠ OLook c b) → (∀ side c r, o ≠ OUndo side c r) → books cd m h → books cd m (h ++ [o]).
Proof.
  intros Hl Hu [He Hn Ha Hs]. split.
  - intros k t Hk. apply entry_snoc; [|naive_solver|by apply He].
    destruct o as [|x []| | | | | | | | |]; naive_solver.
  - intros k Hk h1 c h2 Heq Hc. apply snoc_cut in Heq as [(_ & <- & _)|(h3 & -> & ->)];
      [naive_solver|]. apply Exists_app. left. by eapply Hn.
  - apply apart_other; naive_solver.
  - apply suppressed_other; naive_solver.
Qed.

Lemma books_repeat cd m h d t :
  m !! cl_key d = Some t → cl_now d - t < cd → books cd m h → books cd m (h ++ [OLook d true]).
Proof.
  intros Hm Ht [He Hn Ha Hs]. split.
  - intros k u Hk. apply entry_snoc; [naive_solver..|by apply He].
  - intros k Hk h1 c h2 Heq Hc. apply snoc_cut in Heq as [(_ & [=] & _)|(h3 & -> & ->)].
    apply Exists_app. left. by eapply Hn.
  - apply apart_other; naive_solver.
  - intros h1 x h2 Heq. apply snoc_cut in Heq as [(-> & [= ->] & ->)|(h3 & -> & Heq)];
      [|by eapply Hs].
    destruct (He _ _ Hm) as (h1 & c & h2 & -> & Hc & <- & _ & Hno).
    exists c. split_and!; [set_solver|done|done|done].
Qed.

(** Two looks of one key: the earlier one is the entry's, or is before it. *)
Lemma looks_cut h1 c h2 g1 d g2 k :
  h1 ++ OLook c false :: h2 = g1 ++ OLook d false :: g2 → cl_key c = k →
  Forall (λ o, ¬ let_through k o) g2 →
  c = d ∨ ∃ h3, h2 = h3 ++ OLook d false :: g2.
Proof.
  intros Heq Hc Hf. apply app_eq_inv in Heq as [(l & -> & Hl)|(l & -> & Hl)].
  - destruct l as [|x l]; simplify_eq/=; [by left|].
    apply Forall_app in Hf as [_ Hf]. inversion Hf as [|? ? Hx _]. by destruct Hx.
  - destruct l as [|x l]; simplify_eq/=; [by left|]. right. eauto.
Qed.

Lemma books_look cd m h d : 0 < cd →
  (∀ t, m !! cl_key d = Some t → cd ≤ cl_now d - t) → ¬ undone d h →
  books cd m h → books cd (<[cl_key d := cl_now d]> m) (h ++ [OLook d false]).
Proof.
  intros Hcd Hm Hd [He Hn Ha Hs]. split.
  - intros k u. rewrite lookup_insert. case_decide as Hk.
    + intros [= <-]. exists h, d, []. split_and!; try done.
      intros [Hx|(side & r & Hx)]%undone_snoc; naive_solver.
    + intros Hu. apply entry_snoc; [naive_solver..|by apply He].
  - intros k. rewrite lookup_insert. case_decide as Hk; [done|]. intros Hu h1 c h2 Heq Hc.
    apply snoc_cut in Heq as [(_ & [= ->] & _)|(h3 & -> & ->)]; [done|].
    apply Exists_app. left. by eapply Hn.
  - intros h1 c h2 x h3 Heq Hkey. rewrite app_comm_cons, app_assoc in Heq.
    apply snoc_cut in Heq as [(_ & [= ->] & Heq)|(h4 & -> & ->)];
      [|eapply Ha; [by rewrite <-app_assoc|done] ].
    destruct (m !! cl_key c) as [t|] eqn:Ht.
    + destruct (He _ _ Ht) as (g1 & e & g2 & Hcut & Hek & Het & Hf & _).
      rewrite Hkey in Ht. specialize (Hm _ Ht). rewrite <-Heq in Hcut.
      destruct (looks_cut _ _ _ _ _ _ _ Hcut eq_refl Hf) as [->|(h4 & ->)]; [left; lia|].
      destruct (Ha h1 c h4 e g2) as [Hlt|Hback]; [by rewrite <-Heq, Hcut|done| |].
      * left. lia.
      * right. apply Exists_app. by left.
    + right. by eapply Hn.
  - apply suppressed_other; naive_solver.
Qed.

Lemma books_undo cd m h side c :
  books cd m h →
  books cd (if bool_decide (m !! cl_key c = Some (cl_now c)) then delete (cl_key c) m else m)
    (h ++ [OUndo side c (bool_decide (m !! cl_key c = Some (cl_now c)))]).
Proof.
  intros [He Hn Ha Hs]. set (b := bool_decide _). split.
  - intros k t Hk.
    assert (m !! k = Some t ∧ (cl_key c = k → cl_now c ≠ t)) as [Hm Hne].
    { subst b. case_bool_decide as Hb; [apply lookup_delete_Some in Hk|]; naive_solver. }
    apply entry_snoc; [naive_solver..|by apply He].
  - intros k Hk h1 x h2 Heq Hx. apply snoc_cut in Heq as [(_ & [=] & _)|(h3 & -> & ->)].
    apply Exists_app. destruct (m !! k) as [t|] eqn:Ht.
    + right. apply Exists_cons_hd. subst b. case_bool_decide as Hb; [|congruence].
      apply lookup_delete_None in Hk as [Hk|Hk]; [|congruence]. done.
    + left. by eapply Hn.
  - apply apart_other; naive_solver.
  - apply suppressed_other; naive_solver.
Qed.

(** ** Whose entry is taken back *)

(** The map is the standing entries, and was at every undo. *)
Record ledger (m : gmap NoteKey Z) (h : list NotifyObs) : Prop := {
  ledger_stands k t : m !! k = Some t ↔ standing k t h;
  ledger_undone : takes_back_its_own h;
}.

Lemma standing_snoc k t h o :
  standing k t (h ++ [o]) ↔
  (∃ c, o = OLook c false ∧ cl_key c = k ∧ cl_now c = t) ∨
  (¬ let_through k o ∧ ¬ given_back k o ∧ standing k t h).
Proof.
  split.
  - intros (h1 & c & h2 & Heq & Hc & Ht & Hf).
    apply snoc_cut in Heq as [(_ & <- & _)|(h3 & -> & ->)]; [left; by exists c|].
    right. apply Forall_app in Hf as [Hf Ho]. apply Forall_cons_1 in Ho as [[??] _].
    split_and!; [done|done|]. by exists h1, c, h3.
  - intros [(c & -> & Hc & Ht)|(Hl & Hg & h1 & c & h2 & -> & Hc & Ht & Hf)].
    + by exists h, c, [].
    + exists h1, c, (h2 ++ [o]). rewrite <- app_assoc. split_and!; [done..|].
      apply Forall_app. split; [done|]. by constructor.
Qed.

Lemma takes_back_snoc h o :
  (∀ side c r, o = OUndo side c r → r = true ↔ standing (cl_key c) (cl_now c) h) →
  takes_back_its_own h → takes_back_its_own (h ++ [o]).
Proof.
  intros Ho Ht h1 side c r h2 Heq. apply snoc_cut in Heq as [(_ & <- & ->)|(h3 & _ & ->)].
  - by apply (Ho side).
  - by eapply Ht.
Qed.

Lemma ledger_other m h o :
  (∀ c, o ≠ OLook c false) → (∀ side c r, o ≠ OUndo side c r) → ledger m h → ledger m (h ++ [o]).
Proof.
  intros Hl Hu [Hs Ht]. split; [|apply takes_back_snoc; naive_solver].
  intros k t. rewrite standing_snoc, <- Hs. destruct o as [|x []| | | | | | | | |]; naive_solver.
Qed.

Lemma ledger_look m h d :
  ledger m h → ledger (<[cl_key d := cl_now d]> m) (h ++ [OLook d false]).
Proof.
  intros [Hs Ht]. split; [|apply takes_back_snoc; naive_solver].
  intros k t. rewrite standing_snoc, lookup_insert, <- Hs. case_decide; naive_solver.
Qed.

Lemma ledger_undo m h side c :
  ledger m h →
  ledger (if bool_decide (m !! cl_key c = Some (cl_now c)) then delete (cl_key c) m else m)
    (h ++ [OUndo side c (bool_decide (m !! cl_key c = Some (cl_now c)))]).
Proof.
  intros [Hs Ht]. split.
  - intros k t. rewrite standing_snoc, <- Hs. case_bool_decide as Hb; simpl; [|naive_solver].
    rewrite lookup_delete_Some. naive_solver.
  - apply takes_back_snoc; [|done]. intros side' c' r [= <- <- <-].
    by rewrite bool_decide_eq_true, Hs.
Qed.

Definition entered (w : World) : Prop := ledger (recent (shared w)) (past w).

Lemma entered_call c s w : entered w → entered (move_call c s w).
Proof.
  unfold entered. intros Hk. unfold move_call, call_step. destruct s; simpl; try by apply ledger_other.
  - unfold check_recent. cbv zeta.
    match goal with |- context [if ?b then _ else _] => destruct b end; simpl;
      [by apply ledger_other|by apply ledger_look].
  - unfold try_acquire. destruct (0 <? permits (shared w)); simpl; by apply ledger_other.
  - unfold roll_back, removes. pose proof (ledger_undo _ _ InCall c Hk) as Hu. by case_bool_decide.
Qed.

Lemma entered_task c s answer w : entered w → entered (move_task c s answer w).
Proof.
  unfold entered. intros Hk. unfold move_task, task_step. destruct s; simpl; try by apply ledger_other.
  - unfold roll_back, removes. pose proof (ledger_undo _ _ InTask c Hk) as Hu. by case_bool_decide.
  - unfold give_permit. destruct (draining w); by apply ledger_other.
Qed.

Lemma entered_step w w' : notifier_step w w' → entered w → entered w'.
Proof.
  destruct 1; intros; try by (apply ledger_other + apply entered_call + apply entered_task). done.
Qed.

Lemma ledger_new : ledger ∅ [].
Proof.
  split; [|by intros [] ].
  intros k t. rewrite lookup_empty. split; [done|]. intros (h1 & ? & ? & Heq & _). by destruct h1.
Qed.

Definition kept (w : World) : Prop :=
  books (cooldown (shared w)) (recent (shared w)) (past w).

Lemma not_undone_yet c w : told w → calls w !! cl_id c = Some (c, Looking) → ¬ undone c (past w).
Proof.
  intros Htold Hw. destruct (told_calls _ Htold _ _ _ Hw) as [_ Hask].
  pose proof (told_call _ Htold c Hask) as Hs. rewrite Hw in Hs.
  assert (Hl : seen_of InCall c (past w) = [OAsk c]) by by inversion Hs.
  intros ([] & r & Hin).
  - apply (elem_of_seen InCall c) in Hin; [|done..]. rewrite Hl in Hin. set_solver.
  - apply (elem_of_seen InTask c) in Hin; [|done..]. rewrite told_idle in Hin; [|done|].
    + by apply not_elem_of_nil in Hin.
    + intros Hh. apply (elem_of_seen InCall c) in Hh; [|done..]. rewrite Hl in Hh. set_solver.
Qed.

Lemma kept_call c s w : calls w !! cl_id c = Some (c, s) → told w →
  0 < cooldown (shared w) → kept w → kept (move_call c s w).
Proof.
  unfold kept. intros Hw Htold Hcd Hk. unfold move_call, call_step.
  destruct s; simpl.
  - pose proof (not_undone_yet _ _ Htold Hw) as Hno. unfold check_recent.
    destruct (recent (shared w) !! cl_key c) as [t|] eqn:Ht;
      [destruct (Z.max (cl_now c - t) 0 <? cooldown (shared w)) eqn:Hlt|]; simpl.
    + apply (books_repeat _ _ _ _ t); [done|lia|done].
    + apply books_look; [done| |done|done]. intros u. rewrite Ht. intros [= <-]. lia.
    + apply books_look; [done| |done|done]. intros u. by rewrite Ht.
  - unfold try_acquire. destruct (0 <? permits (shared w)); simpl; by apply books_other.
  - unfold roll_back, removes. pose proof (books_undo _ _ _ InCall c Hk) as Hu.
    by case_bool_decide.
  - by apply books_other.
  - by apply books_other.
Qed.

Lemma kept_task c s answer w : kept w → kept (move_task c s answer w).
Proof.
  unfold kept. intros Hk. unfold move_task, task_step.
  destruct s; simpl; try by apply books_other.
  - unfold roll_back, removes. pose proof (books_undo _ _ _ InTask c Hk) as Hu.
    by case_bool_decide.
  - unfold give_permit. destruct (draining w); by apply books_other.
Qed.

Lemma kept_step w w' : notifier_step w w' → told w → 0 < cooldown (shared w) → kept w → kept w'.
Proof.
  destruct 1; intros; try by (apply books_other + apply kept_call + apply kept_task). done.
Qed.

Lemma cooldown_step w w' : notifier_step w w' → cooldown (shared w') = cooldown (shared w).
Proof.
  destruct 1; try done.
  - unfold move_call, call_step, check_recent, try_acquire, roll_back.
    destruct stage; by repeat case_match; simplify_eq.
  - unfold move_task, task_step, roll_back, give_permit.
    destruct stage; by repeat case_match; simplify_eq.
Qed.

(** ** The counters *)

Lemma count_none m h o : (∀ k l, ¬ counts k l o) →
  counted_outcomes m h → counted_outcomes m (h ++ [o]).
Proof.
  intros Ho Hm r k l Hr. rewrite filter_app, filter_cons_False, filter_nil, app_nil_r by apply Ho.
  by apply Hm.
Qed.

Lemma count_one m h o kind label : (∀ k l, counts k l o ↔ kind = k ∧ l = label) →
  counted_outcomes m h → counted_outcomes (notification kind label <$> m) (h ++ [o]).
Proof.
  intros Ho Hm r' k l Hr. destruct m as [r|]; simplify_eq/=. specialize (Hm r k l eq_refl).
  rewrite filter_app, length_app, filter_cons, filter_nil, lookup_insert.
  unfold u64_saturating_add. widths. case_decide as Hk; case_decide as Ho'; simplify_eq/=.
  - rewrite Hm. lia.
  - destruct Ho'. by apply Ho.
  - apply Ho in Ho' as [-> ->]. done.
  - rewrite Hm. lia.
Qed.

Lemma counts_step w w' : notifier_step w w' →
  counted_outcomes (metrics (shared w)) (past w) → counted_outcomes (metrics (shared w')) (past w').
Proof.
  destruct 1; try by apply count_none; naive_solver.
  - unfold move_call, call_step, check_recent, try_acquire, roll_back.
    destruct stage as [| | | |[] ]; repeat (case_match; simplify_eq; simpl); intros;
      first [by apply count_none; naive_solver | by apply count_one; simpl; naive_solver].
  - unfold move_task, task_step, roll_back, give_permit.
    destruct stage; repeat (case_match; simplify_eq; simpl); intros;
      first [by apply count_none; naive_solver | by apply count_one; simpl; naive_solver].
  - done.
Qed.

(** ** Whole histories *)

Lemma stories_end c l l' :
  call_story c None l → (OHand c ∈ l → task_story c None l') → (OHand c ∉ l → l' = []) →
  outcome c l l'.
Proof.
  intros Hl Hhand Hidle. inversion Hl as [| | | | | | |d p Hp]; subst.
  inversion Hp; subst; simpl in *.
  - rewrite Hidle by set_solver. constructor.
  - rewrite Hidle by set_solver. constructor.
  - specialize (Hhand ltac:(set_solver)). inversion Hhand as [| | | | | |q Hq]; subst.
    inversion Hq; subst; constructor.
Qed.

Lemma told_outcome w : told w → every_notification_has_its_outcome w.
Proof.
  intros Htold c Hask Hc Ht. pose proof (told_call _ Htold c Hask) as Hl. rewrite Hc in Hl.
  apply stories_end; [done| |].
  - rewrite elem_of_seen by done. intros Hh. pose proof (told_task _ Htold c Hh) as Hs.
    by rewrite Ht in Hs.
  - rewrite elem_of_seen by done. by apply told_idle.
Qed.

(** A call that nothing interrupts, and the steps it takes. *)
Fixpoint run_call (fuel : nat) (c : Call) (stage : CallStage) (self : Inner)
  : Inner * option Delivery :=
  match fuel with
  | O => (self, None)
  | S fuel =>
      let '(self, seen, next, _) := call_step c stage self in
      match next, seen with
      | Some stage, _ => run_call fuel c stage self
      | None, OAnswer _ d => (self, Some d)
      | None, _ => (self, None)
      end
  end.

Lemma notify_at_is_its_steps c self :
  run_call 5 c Looking self =
  let '(self, d) := notify_at (cl_note c) (cl_now c) self in (self, Some d).
Proof.
  unfold notify_at, cl_key, check_recent. simpl. unfold check_recent, cl_key.
  repeat (case_match; simplify_eq; simpl); try done; unfold try_acquire in *;
    repeat (case_match; simplify_eq; simpl); done.
Qed.

Record invariant (cd : Z) (w : World) : Prop := {
  inv_told : told w;
  inv_counted : counted w;
  inv_drained : drained_means_none_in_flight (past w);
  inv_cooldown : cooldown (shared w) = cd;
  inv_kept : kept w;
  inv_entered : entered w;
  inv_counts : counted_outcomes (metrics (shared w)) (past w);
}.

Lemma invariant_reached cd m w : 0 < cd → counted_outcomes m [] →
  notifier_reaches (mkInner cd ∅ NOTIFY_IN_FLIGHT m) w → invariant cd w.
Proof.
  intros Hcd Hm Hr. apply rtc_ind_r with (P := invariant cd) in Hr; [done| |].
  - split; [apply told_new|by split| |done|apply books_new|apply ledger_new|done].
    intros h1 h2 c Heq. by destruct h1.
  - intros x y _ Hstep [Ht Hc Hd Hcool Hk He Ho].
    split; eauto using told_stays, counted_step, drained_step, counts_step, entered_step.
    + by rewrite (cooldown_step _ _ Hstep).
    + eapply kept_step; [done..| |done]. lia.
Qed.

(** ** The property *)

(** C18: However calls, delivery tasks, drains and the channel's answers
    interleave: at most ten deliveries are in flight; two notifications of one
    pool, account and kind that are let through are a cooldown apart, unless
    an entry of that key was given back between them; one is suppressed only
    by another of its key that was let through less than a cooldown before and
    was neither dropped nor refused; a call that is dropped or refused takes an
    entry of its key back exactly when the one that stands — of the last call let
    through, not given back since — was made at its own instant, so another
    call's only if that read the very same instant; each that is over was suppressed,
    delivered, refused by the channel and then logged, or dropped and logged,
    each once and in that order; when [drain] answers true, every delivery
    handed over before has ended; and the recorder counts each answer and each
    refusal. *)
Theorem notifier_keeps_its_word (cd : Z) (recorded : bool) (w : World) :
  0 < cd →
  notifier_reaches
    (let self := notifier_new cd in if recorded then with_metrics metrics_new self else self) w →
  Z.of_nat (size (tasks w)) ≤ in_flight (shared w) ≤ 10 ∧
  repeats_are_a_cooldown_apart cd (past w) ∧
  suppressed_only_by_a_repeat cd (past w) ∧
  takes_back_its_own (past w) ∧
  every_notification_has_its_outcome w ∧
  drained_means_none_in_flight (past w) ∧
  counted_outcomes (metrics (shared w)) (past w).
Proof.
  intros Hcd Hr. assert (invariant cd w) as [Ht [Hp Hh Ha] Hd <- [_ _ Hap Hs] [_ He] Hc].
  { destruct recorded; [apply (invariant_reached cd (Some metrics_new))|apply (invariant_reached cd None)];
      try done; by intros r k l [= <-]. }
  split_and!; [| |done|done|done|by apply told_outcome|done|done];
    unfold in_flight; unfold NOTIFY_IN_FLIGHT in *; lia.
Qed.

Lemma notifier_keeps_its_word_witness :
  let c := mkCall 0 (mkNotification KFillConfirmed High "pool" None "filled") 7 in
  let d := mkCall 1 (mkNotification KFillConfirmed High "pool" None "again") 9 in
  let w := move_call d (Answering DeliveryDeduplicated) (move_call d Looking (ask d
    (move_task c Releasing (Ok ()) (move_task c Sending (Ok ())
      (move_call c (Answering DeliveryQueued) (move_call c Acquiring (move_call c Looking
        (ask c (world_new (notifier_new 3600000000000)))))))))) in
  outcome c (seen_of InCall c (past w)) (seen_of InTask c (past w)) ∧
  outcome d (seen_of InCall d (past w)) (seen_of InTask d (past w)).
Proof.
  intros c d w.
  destruct (notifier_keeps_its_word 3600000000000 false w) as (_ & _ & _ & _ & Ho & _); [lia| |].
  - eapply rtc_l; [apply (step_ask c); constructor|].
    eapply rtc_l; [by apply (step_call c Looking)|].
    eapply rtc_l; [by apply (step_call c Acquiring)|].
    eapply rtc_l; [by apply (step_call c (Answering DeliveryQueued))|].
    eapply rtc_l; [by apply (step_task c Sending (Ok ()))|].
    eapply rtc_l; [by apply (step_task c Releasing (Ok ()))|].
    eapply rtc_l; [apply (step_ask d); by repeat constructor|].
    eapply rtc_l; [by apply (step_call d Looking)|].
    eapply rtc_l; [by apply (step_call d (Answering DeliveryDeduplicated))|].
    apply rtc_refl.
  - split; apply Ho; try reflexivity; vm_compute; repeat constructor.
Defined.
