(* ===== verification/Executor.v ===== *)
(** * The executor ([src/executor.rs])

    One planned fill, or one unwind pass: the mode guards, the contract's
    judgment, the audit row, the submission and the settlement of the wallet
    reservation, as interaction trees over the write path's calls, the store,
    the submission queue and the wallet ledger. *)

From S2P Require Import Prelude Fixed Auction Encode Io Chain Operations Store.
From S2P Require Import Submit Inventory Fill Unwind.
Open Scope Z_scope.

(** ** Data *)

Definition WITHDRAW_ALL : Z := 9223372036854775807.
Definition INVALID_HF : Z := 1205.
Definition MIN_COLLATERAL_NOT_MET : Z := 1224.

Record FillPlan : Type := mkFillPlan {
  fp_pool : string;
  fp_user : string;
  fp_draft : FillDraft;
  fp_priority : Priority;
}.

(** [fill_requests]. *)
Definition fill_action_request (action : FillAction) : Request :=
  match action with
  | Fill.Repay asset amount => mkRequest Encode.Repay asset amount
  | Fill.WithdrawAll asset => mkRequest WithdrawCollateral asset WITHDRAW_ALL
  | Fill.SupplyCollateral asset amount => mkRequest Encode.SupplyCollateral asset amount
  end.

Definition fill_requests {X : Type} (user : string) (draft : FillDraft)
  : result (XdrError X) (list Request) :=
  let? fill := request_fill FillUserLiquidationAuction user (fd_percent draft) in
  Ok (fill :: map fill_action_request (fd_actions draft)).

(** [unwind_requests]. *)
Definition unwind_action_request (action : UnwindAction) : Request :=
  match action with
  | Unwind.Repay asset amount => mkRequest Encode.Repay asset amount
  | Unwind.Withdraw asset amount => mkRequest WithdrawCollateral asset amount
  | Unwind.WithdrawAll asset => mkRequest WithdrawCollateral asset WITHDRAW_ALL
  end.

Definition unwind_requests (actions : list UnwindAction) : list Request :=
  map unwind_action_request actions.

Inductive Settle : Type := Consume | Release.

Section executor.
Context `{ScValues} {StoreError : Type}.

Record FillRecorded : Type := mkFillRecorded {
  fr_fill_id : Z;
  fr_simulated : bool;
  fr_recorded_dry_run : bool;
  fr_submission : option TxOutcome;
}.

(** [FillRecorded::succeeded]. *)
Definition succeeded (self : FillRecorded) : bool :=
  match fr_submission self with Some (TxSucceeded _ _ _) => true | _ => false end.

Inductive ExecOutcome : Type :=
| Recorded (recorded : FillRecorded)
| Replan (contract_error : Z)
| ExecRefused (contract_error : option Z)
| ExecStale.

Inductive UnwindOutcome : Type :=
| Planned (simulated : bool)
| Submitted (outcome : TxOutcome)
| UnwindRefused (contract_error : option Z)
| UnwindStale.

(** [UnwindOutcome::landed]. *)
Definition landed (self : UnwindOutcome) : bool :=
  match self with
  | Submitted (TxSucceeded _ _ _) | Submitted (TxUnknown _ _ _) => true
  | _ => false
  end.

Inductive ExecutorError : Type :=
| ExStore (e : StoreError)
| ExChain (e : ChainError)
| ExXdr (e : XdrError XdrLibraryError)
| ExQueue (e : QueueError)
| ExMode (what : string).

Inductive Judged : Type :=
| JAccepted (operation : Operation)
| JNeedsRestore (operation : Operation)
| JUnsimulated
| JRefused (contract_error : option Z) (message : string)
| JUnjudged.

Inductive JudgedFill : Type :=
| FAccepted (operation : Operation)
| FNeedsRestore (operation : Operation)
| FUnsimulated
| FRefused (outcome : ExecOutcome).

Inductive Landed : Type :=
| LandedOutcome (outcome : TxOutcome)
| LandedStale
| LandedRefused (contract_error : option Z) (message : string).

(** ** The calls *)

Variant ExecE : Type → Type :=
| NetCall (X : Type) (e : NetE X) : ExecE X
| RecordFill (record : FillRecord) : ExecE (result StoreError Z)
| AttachFillTx (fill_id : Z) (hash : string) : ExecE (result StoreError bool)
| Enqueue (submission : Submission) : ExecE (result QueueError TxOutcome)
| ConsumeToken (reservation : Reservation) : ExecE ()
| ReleaseToken (reservation : Reservation) : ExecE ().

Inductive Done : Type :=
| DNet (s : Seen)
| DRecord (record : FillRecord) (r : result StoreError Z)
| DAttach (fill_id : Z) (hash : string) (r : result StoreError bool)
| DEnqueue (submission : Submission) (r : result QueueError TxOutcome)
| DConsume (reservation : Reservation)
| DRelease (reservation : Reservation).

Definition done_log (X : Type) (e : ExecE X) : X → Done :=
  match e in ExecE X return X → Done with
  | NetCall _ e => λ x, DNet (seen _ e x)
  | RecordFill record => DRecord record
  | AttachFillTx id hash => DAttach id hash
  | Enqueue submission => DEnqueue submission
  | ConsumeToken r => λ _, DConsume r
  | ReleaseToken r => λ _, DRelease r
  end.

(** ** The executor *)

Abbreviation prog A := (io ExecE (result ExecutorError A)).

(** [Submitter::source] and its configuration, when a key is configured. *)
Record Executor : Type := mkExecutor {
  ex_submitter : option (string * TxConfig);
  ex_dry_run : bool;
}.

Definition as_error {E A : Type} (f : E → ExecutorError) (m : io ExecE (result E A)) : prog A :=
  await r := m in Ret (map_err f r).

(** [release] and [settle]. *)
Definition release_token (reservation : option Reservation) : io ExecE () :=
  match reservation with
  | Some r => perform (ReleaseToken r)
  | None => Ret ()
  end.

Definition settle_token (reservation : option Reservation) (settlement : Settle)
  : io ExecE () :=
  match settlement with
  | Consume => match reservation with Some r => perform (ConsumeToken r) | None => Ret () end
  | Release => release_token reservation
  end.

(** [enqueue]. *)
Definition enqueue (submission : Submission)
  : io ExecE (result ExecutorError Landed * Settle) :=
  await answer := perform (Enqueue submission) in
  Ret (match answer with
       | Ok outcome =>
           (Ok (LandedOutcome outcome),
            match outcome with
            | TxSucceeded _ _ _ | TxUnknown _ _ _ => Consume
            | TxFailed _ _ _ _ | TxExpired _ _ _ => Release
            end)
       | Err (QueueChain BadSequence) => (Ok LandedStale, Release)
       | Err (QueueChain (Simulation_ message contract_error)) =>
           (Ok (LandedRefused contract_error message), Release)
       | Err error => (Err (ExQueue error), Release)
       end).

(** [refusal]. *)
Definition refusal_of (contract_error : option Z) : ExecOutcome :=
  match contract_error with
  | Some code => if (code =? INVALID_HF) || (code =? MIN_COLLATERAL_NOT_MET)
                 then Replan code else ExecRefused contract_error
  | None => ExecRefused None
  end.

Context (self : Executor).

(** [Executor::guard]. *)
Definition mode_guard (settlement : Settlement) (armed : bool) : prog (option Reservation) :=
  await reservation :=
    match settlement with
    | Live reservation =>
        if ex_dry_run self then
          await _ := perform (ReleaseToken reservation) in
          Ret (Err (ExMode "a live reservation was given to a dry-run executor; dry-run spends nothing, so the reservation is released rather than held"))
        else Ret (Ok (Some reservation))
    | DryRun =>
        if negb (ex_dry_run self) then
          Ret (Err (ExMode "a live executor was given no reservation; a fill that spends the wallet must hold one before it is sent"))
        else Ret (Ok None)
    end in
  match reservation with
  | Err e => Ret (Err e)
  | Ok reservation =>
      if armed && ex_dry_run self then
        await _ := release_token reservation in
        Ret (Err (ExMode "a submission queue was given to a dry-run executor; dry-run sends nothing, so the queue is refused rather than used"))
      else if armed && negb (match ex_submitter self with Some _ => true | None => false end) then
        await _ := release_token reservation in
        Ret (Err (ExMode "a submission queue was given to an executor with no signer, so nothing could be judged before it was sent"))
      else Ret (Ok reservation)
  end.

(** [Executor::judge_operation]. *)
Definition judge_operation (pool : string) (requests : list Request) (armed : bool)
  : prog Judged :=
  match ex_submitter self with
  | None => Ret (Ok JUnsimulated)
  | Some (filler, config) =>
      await? operation := Ret (map_err ExXdr (submit_op pool filler filler filler requests)) in
      await? judgment := as_error ExChain (translate NetCall (simulate_only config operation)) in
      Ret (Ok (match judgment with
               | Accepted => JAccepted operation
               | Submit.Refused contract_error message => JRefused contract_error message
               | NeedsRestore => if (armed : bool) then JNeedsRestore operation else JUnjudged
               end))
  end.

(** [Executor::judge]. *)
Definition judge (plan : FillPlan) (armed : bool) : prog JudgedFill :=
  await? requests := Ret (map_err ExXdr (fill_requests (fp_user plan) (fp_draft plan))) in
  await? judged := judge_operation (fp_pool plan) requests armed in
  Ret (Ok (match judged with
           | JAccepted operation => FAccepted operation
           | JNeedsRestore operation => FNeedsRestore operation
           | JUnsimulated => FUnsimulated
           | JUnjudged => FRefused (ExecRefused None)
           | JRefused contract_error _ => FRefused (refusal_of contract_error)
           end)).

(** [Executor::recorded]. *)
Definition recorded_as (fill_id : Z) (simulated : bool) (submission : option TxOutcome)
  : ExecOutcome :=
  Recorded (mkFillRecorded fill_id simulated (ex_dry_run self) submission).

Definition fill_label (plan : FillPlan) : string :=
  String.append "fill " (String.append (fp_user plan) (String.append " on " (fp_pool plan))).

(** [Executor::submit_recorded]. *)
Definition submit_recorded (plan : FillPlan) (fill_id : Z) (simulated : bool)
    (operation : Operation) : io ExecE (result ExecutorError ExecOutcome * Settle) :=
  await (landed, settle) := enqueue
    (mkSubmission operation (fp_priority plan) (fill_label plan) FILL_RETRIES) in
  match landed with
  | Ok (LandedOutcome outcome) =>
      await attached := perform (AttachFillTx fill_id (to_hex (outcome_hash outcome))) in
      Ret (match attached with
           | Ok _ => (Ok (recorded_as fill_id simulated (Some outcome)), settle)
           | Err error => (Err (ExStore error), settle)
           end)
  | Ok LandedStale => Ret (Ok ExecStale, settle)
  | Ok (LandedRefused contract_error _) => Ret (Ok (refusal_of contract_error), settle)
  | Err error => Ret (Err error, settle)
  end.

Definition record_of (plan : FillPlan) : FillRecord :=
  let draft := fp_draft plan in
  mkFillRecord (fp_pool plan) (fp_user plan) UserLiquidation (fd_fill_ledger draft)
    (fd_percent draft) (bid (fd_to_fill draft)) (lot (fd_to_fill draft)) (fd_bid_value draft)
    (fd_lot_value draft) (fd_est_profit draft) (ex_dry_run self).

(** [Executor::run]: [queue] is whether a queue was given. *)
Definition run_fill (plan : FillPlan) (queue : bool)
  : io ExecE (result ExecutorError ExecOutcome * Settle) :=
  let record_then := λ operation simulated,
    await row := perform (RecordFill (record_of plan)) in
    match row with
    | Err error => Ret (Err (ExStore error), Release)
    | Ok fill_id =>
        if negb queue then Ret (Ok (recorded_as fill_id simulated None), Release)
        else
          match operation with
          | None => Ret (Ok (recorded_as fill_id simulated None), Release)
          | Some operation => submit_recorded plan fill_id simulated operation
          end
    end in
  await judged := judge plan queue in
  match judged with
  | Err error => Ret (Err error, Release)
  | Ok (FRefused outcome) => Ret (Ok outcome, Release)
  | Ok (FAccepted operation) => record_then (Some operation) true
  | Ok (FNeedsRestore operation) => record_then (Some operation) false
  | Ok FUnsimulated => record_then None false
  end.

(** [Executor::execute]. *)
Definition execute (plan : FillPlan) (settlement : Settlement) (queue : bool)
  : prog ExecOutcome :=
  await? reservation := mode_guard settlement queue in
  await (answer, settled) := run_fill plan queue in
  await _ := settle_token reservation settled in
  Ret answer.

(** [Executor::run_unwind]. *)
Definition run_unwind_pass (pool : string) (plan : UnwindPlan) (queue : bool)
  : io ExecE (result ExecutorError UnwindOutcome * Settle) :=
  let send_then := λ operation simulated,
    if negb queue then Ret (Ok (Planned simulated), Release)
    else
      match operation with
      | None => Ret (Ok (Planned simulated), Release)
      | Some operation =>
          await (landed, settle) := enqueue
            (mkSubmission operation Normal (String.append "unwind " pool) UNWIND_RETRIES) in
          Ret (match landed with
               | Ok (LandedOutcome outcome) => (Ok (Submitted outcome), settle)
               | Ok LandedStale => (Ok UnwindStale, settle)
               | Ok (LandedRefused contract_error _) => (Ok (UnwindRefused contract_error), settle)
               | Err error => (Err error, settle)
               end)
      end in
  await judged := judge_operation pool (unwind_requests (up_actions plan)) queue in
  match judged with
  | Err error => Ret (Err error, Release)
  | Ok (JAccepted operation) => send_then (Some operation) true
  | Ok (JNeedsRestore operation) => send_then (Some operation) false
  | Ok JUnsimulated => send_then None false
  | Ok JUnjudged => Ret (Ok (UnwindRefused None), Release)
  | Ok (JRefused contract_error _) => Ret (Ok (UnwindRefused contract_error), Release)
  end.

(** [Executor::unwind]. *)
Definition unwind (pool : string) (plan : UnwindPlan) (settlement : Settlement) (queue : bool)
  : prog UnwindOutcome :=
  await? reservation := mode_guard settlement queue in
  if is_idle plan then
    await _ := release_token reservation in
    Ret (Ok (Planned false))
  else
    await (answer, settled) := run_unwind_pass pool plan queue in
    await _ := settle_token reservation settled in
    Ret answer.
End executor.
