(* ===== verification/ExecutorContract.v ===== *)
(** * What the executor promises ([src/executor.rs])

    Judge, record, send, name, settle, in that order: nothing is sent that was
    not just judged and, for a fill, recorded; a dry run sends nothing; and the
    reservation is settled once, by what the chain did. The executor follows
    this contract for fills and for unwinds. *)

From S2P Require Import Prelude Fixed Auction Encode Io Chain Operations Store.
From S2P Require Import Submit Inventory Fill Unwind Executor.
Open Scope Z_scope.

Section contract.
Context `{ScValues} {StoreError : Type}.
Context (self : Executor).
(** What one call is about: the pool and the requests, the row a fill is
    recorded as, the submission an operation is sent in, whether a queue was
    given, and the reservation held. *)
Context (pool : string) (requests : list Request) (row : option FillRecord).
Context (submission : Operation → Submission) (queue : bool) (held : option Reservation).

(** The last simulation, the row written, the queue's answer, the settlement. *)
Record XState : Type := mkX {
  x_judged : simulated;
  x_row : option Z;
  x_sent : option (result QueueError TxOutcome);
  x_settled : option Settle;
}.

(** The operation is the filler's own submit of the requests, and the last
    simulation is of it and accepted it or asked for a restore. *)
Definition approved (judged : simulated) (operation : Operation) : Prop :=
  (∃ filler config, ex_submitter self = Some (filler, config) ∧
    submit_op pool filler filler filler requests = Ok operation) ∧
  ∃ tx r, judged = Some (tx, r) ∧ tx_operation tx = operation ∧
    (judgment_of r = Some Accepted ∨ judgment_of r = Some NeedsRestore).

(** The chain spent the wallet, or may yet. *)
Definition spent (sent : option (result QueueError TxOutcome)) : bool :=
  match sent with
  | Some (Ok (TxSucceeded _ _ _)) | Some (Ok (TxUnknown _ _ _)) => true
  | _ => false
  end.

Definition row_id (r : result StoreError Z) : option Z :=
  match r with Ok id => Some id | Err _ => None end.

Inductive exec_step : XState → @Done _ StoreError → XState → Prop :=
| x_simulate j s j' :
    dry_step j s j' →
    exec_step (mkX j None None None) (DNet s) (mkX j' None None None)
| x_record j record r :
    row = Some record →
    exec_step (mkX j None None None) (DRecord record r) (mkX j (row_id r) None None)
| x_enqueue j id operation r :
    queue = true → ex_dry_run self = false → (row = None ∨ id ≠ None) → approved j operation →
    exec_step (mkX j id None None) (DEnqueue (submission operation) r) (mkX j id (Some r) None)
| x_attach j id outcome r :
    exec_step (mkX j (Some id) (Some (Ok outcome)) None)
      (DAttach id (to_hex (outcome_hash outcome)) r)
      (mkX j (Some id) (Some (Ok outcome)) None)
| x_consume j id sent reservation :
    held = Some reservation → spent sent = true →
    exec_step (mkX j id sent None) (DConsume reservation) (mkX j id sent (Some Consume))
| x_release j id sent reservation :
    held = Some reservation → spent sent = false →
    exec_step (mkX j id sent None) (DRelease reservation) (mkX j id sent (Some Release)).

Definition x_start : XState := mkX None None None None.

(** Every token held is settled. *)
Definition settled_well (q : XState) : Prop :=
  x_settled q = match held with
    | Some _ => Some (if spent (x_sent q) then Consume else Release)
    | None => None
    end.

(** The contract refused what was prepared, or what was simulated before
    anything was sent. *)
Definition refused_with (code : option Z) (q : XState) : Prop :=
  x_sent q = None ∨
  ∃ message, x_sent q = Some (Err (QueueChain (Simulation_ message code))).

(** A failure that is not the store's: the queue's own, or nothing was sent. *)
Definition error_answer (e : @ExecutorError _ StoreError) (q : XState) : Prop :=
  match e with
  | ExStore _ => True
  | ExQueue error => x_sent q = Some (Err error)
  | _ => x_sent q = None
  end.

Lemma error_answer_sent e q q' :
  x_sent q' = x_sent q → error_answer e q → error_answer e q'.
Proof. intros Hs. destruct e; simpl; by rewrite ?Hs. Qed.

(** What an answer of [execute] says of the state it leaves. *)
Definition fill_answer (r : result (@ExecutorError _ StoreError) ExecOutcome) (q : XState)
  : Prop :=
  match r with
  | Ok (Recorded recorded) =>
      x_row q = Some (fr_fill_id recorded) ∧ fr_recorded_dry_run recorded = ex_dry_run self ∧
      x_sent q = Ok <$> fr_submission recorded
  | Ok ExecStale => x_sent q = Some (Err (QueueChain BadSequence))
  | Ok (Replan code) =>
      (code = INVALID_HF ∨ code = MIN_COLLATERAL_NOT_MET) ∧ refused_with (Some code) q
  | Ok (ExecRefused code) => refused_with code q
  | Err e => error_answer e q
  end.

Definition unwind_answer (r : result (@ExecutorError _ StoreError) UnwindOutcome) (q : XState)
  : Prop :=
  match r with
  | Ok (Planned _) => x_sent q = None
  | Ok (Submitted outcome) => x_sent q = Some (Ok outcome)
  | Ok UnwindStale => x_sent q = Some (Err (QueueChain BadSequence))
  | Ok (UnwindRefused code) => refused_with code q
  | Err e => error_answer e q
  end.

(** ** Both paths follow it *)

Abbreviation upholds := (follows (done_log (StoreError:=StoreError)) exec_step).
Abbreviation xerror := (@ExecutorError _ StoreError).

(** What is left of a call once its guards have passed. *)
Definition unsettled (settle : Settle) (q : XState) : Prop :=
  x_settled q = None ∧ settle = if spent (x_sent q) then Consume else Release.

Lemma settle_token_follows settle q :
  unsettled settle q →
  upholds q (settle_token held settle) (λ _ q',
    settled_well q' ∧ x_sent q' = x_sent q ∧ x_row q' = x_row q ∧ x_judged q' = x_judged q).
Proof.
  destruct q as [j id sent settled]. intros [Hn Hs]. simpl in Hn, Hs. subst settled.
  unfold settled_well, settle_token, release_token.
  destruct (spent sent) eqn:Hsp; subst settle; destruct held as [reservation|] eqn:Hh;
    try (apply follows_ret; simpl; by rewrite ?Hsp);
    apply follows_perform; intros []; eexists; (split; [by constructor|]); simpl; by rewrite Hsp.
Qed.

(** A call refused before anything was asked. *)
Definition untouched (q : XState) : Prop :=
  settled_well q ∧ x_sent q = None ∧ x_judged q = None.

Lemma release_token_follows :
  upholds x_start (release_token held) (λ _ q',
    untouched q').
Proof.
  eapply follows_weaken; [apply (settle_token_follows Release x_start); done|].
  intros [] q (Hs & Hsent & _ & Hj). by repeat split.
Qed.

Lemma mode_guard_follows settlement :
  held = (match settlement with Live r => Some r | DryRun => None end) →
  upholds x_start (mode_guard (StoreError:=StoreError) self settlement queue) (λ r q,
    match r with
    | Ok reservation => reservation = held ∧ q = x_start ∧
        (queue = true → ex_dry_run self = false)
    | Err e => untouched q ∧ error_answer e q
    end).
Proof.
  intros Hheld. unfold mode_guard.
  apply (follows_bind _ _ _ _ _ (λ r q, match r with
    | Ok reservation => reservation = held ∧ q = x_start
    | Err e => untouched q ∧ error_answer e q end)).
  - destruct settlement as [reservation|]; destruct (ex_dry_run self); cbn [negb];
      try (by apply follows_ret).
    + apply (follows_bind _ _ _ _ _ (λ _ q, untouched q)).
      * pose proof release_token_follows as Hr. by rewrite Hheld in Hr.
      * intros [] q Hq. apply follows_ret. split; [done|apply Hq].
    + apply follows_ret. unfold untouched, settled_well. by rewrite Hheld.
  - intros [reservation|e] q Hq; [|by apply follows_ret]. destruct Hq as [-> ->].
    destruct (queue && ex_dry_run self) eqn:H1; [|destruct (queue && negb _) eqn:H2].
    1-2: apply (follows_bind _ _ _ _ _ (λ _ q, untouched q));
      [apply release_token_follows|]; intros [] q Hq; apply follows_ret; (split; [done|apply Hq]).
    apply follows_ret. split_and!; [done..|]. intros Hqueue. rewrite Hqueue in H1.
    by destruct (ex_dry_run self).
Qed.

(** Nothing has been written or sent yet. *)
Definition judging (j : simulated) : XState := mkX j None None None.

Definition judged_well (r : result xerror Judged) (q : XState) : Prop :=
  ∃ j, q = judging j ∧
    match r with
    | Ok (JAccepted operation) | Ok (JNeedsRestore operation) => approved j operation
    | Err e => error_answer e q
    | _ => True
    end.

Lemma judge_operation_follows :
  upholds x_start (judge_operation (StoreError:=StoreError) self pool requests queue) judged_well.
Proof.
  unfold judge_operation.
  destruct (ex_submitter self) as [[filler config]|] eqn:Hs;
    [|apply follows_ret; by exists None].
  apply follows_try_ret.
  destruct (submit_op pool filler filler filler requests) as [operation|e] eqn:Hop; cbn [map_err];
    [|by exists None].
  eapply follows_try.
  - unfold as_error. eapply follows_bind.
    + apply (follows_translate seen done_log NetCall DNet (λ _ _ _, eq_refl) dry_step exec_step
        judging None); [|apply (simulate_only_dry config operation None)].
      intros j s j' Hd. by constructor.
    + intros r q Hq. apply (follows_ret _ _ _ _ (λ (r : result xerror Judgment) q, ∃ j,
        q = judging j ∧ match r with
        | Ok judgment => judged_by operation (Ok judgment) j | Err e => error_answer e q end)).
      destruct Hq as (j & -> & Hj). exists j. split; [done|]. by destruct r.
  - intros e q (j & -> & He). by exists j.
  - intros judgment q (j & -> & tx & r & Hj & Htx & Hr). apply follows_ret. exists j.
    split; [done|].
    assert ((judgment = Accepted ∨ judgment = NeedsRestore) → approved j operation) as Ha.
    { intros Hjudg. split; [by exists filler, config|]. exists tx, r.
      split_and!; [done..|]. rewrite Hr. by destruct Hjudg as [-> | ->]; [left|right]. }
    destruct judgment as [|code message|]; [by apply Ha; left|done|].
    destruct queue; [by apply Ha; right|done].
Qed.

(** The answer of the queue, and the settlement it calls for. *)
Lemma enqueue_follows j id operation :
  queue = true → ex_dry_run self = false → (row = None ∨ id ≠ None) → approved j operation →
  upholds (mkX j id None None) (enqueue (StoreError:=StoreError) (submission operation))
    (λ r q, ∃ answer, q = mkX j id (Some answer) None ∧ unsettled r.2 q ∧
      match r.1 with
      | Ok (LandedOutcome outcome) => answer = Ok outcome
      | Ok LandedStale => answer = Err (QueueChain BadSequence)
      | Ok (LandedRefused code message) => answer = Err (QueueChain (Simulation_ message code))
      | Err e => error_answer e q
      end).
Proof.
  intros Hq Hd Hrow Ha. unfold enqueue. apply follows_call. intros answer. eexists.
  split; [by constructor|]. apply follows_ret. exists answer. split; [done|].
  destruct answer as [[]|[| |[]]]; by repeat split.
Qed.

Lemma refusal_of_answer code q :
  refused_with code q → fill_answer (Ok (refusal_of code)) q.
Proof.
  unfold refusal_of. destruct code as [code|]; [|done]. intros Hr.
  destruct ((code =? INVALID_HF) || (code =? MIN_COLLATERAL_NOT_MET)) eqn:Hc; [|done].
  split; [|done]. apply orb_true_iff in Hc as [Hc|Hc]; apply Z.eqb_eq in Hc; auto.
Qed.
End contract.

(** ** Fills *)

Section fills.
Context `{ScValues} {StoreError : Type} (self : Executor) (plan : FillPlan) (queue : bool).
Context (held : option Reservation).

(** The fill first, then the draft's actions, in order. *)
Definition planned_requests : list Request :=
  mkRequest FillUserLiquidationAuction (fp_user plan) (fp_get (fd_percent (fp_draft plan)))
  :: map fill_action_request (fd_actions (fp_draft plan)).

Definition fill_submission (operation : Operation) : Submission :=
  mkSubmission operation (fp_priority plan) (fill_label plan) FILL_RETRIES.

Abbreviation fill_step := (exec_step (StoreError:=StoreError) self (fp_pool plan) planned_requests
  (Some (record_of self plan)) fill_submission queue held).
Abbreviation upholds := (follows (done_log (StoreError:=StoreError)) fill_step).

Definition run_answer (r : result (@ExecutorError _ StoreError) ExecOutcome * Settle) (q : XState)
  : Prop := unsettled r.2 q ∧ fill_answer self r.1 q.

Lemma submit_recorded_follows j id simulated operation :
  queue = true → ex_dry_run self = false →
  approved self (fp_pool plan) planned_requests j operation →
  upholds (mkX j (Some id) None None)
    (submit_recorded (StoreError:=StoreError) self plan id simulated operation) run_answer.
Proof.
  intros Hq Hd Ha. unfold submit_recorded.
  eapply follows_bind.
  { apply (enqueue_follows self (fp_pool plan) planned_requests (Some (record_of self plan))
      fill_submission queue held j (Some id) operation Hq Hd); [by right|done]. }
  intros [landed settle] q (answer & -> & Hu & Hl). simpl in Hu, Hl.
  destruct landed as [[outcome| |code message]|e]; subst;
    try (apply follows_ret; split; [done|]).
  - apply follows_call. intros attached. eexists. split; [constructor|].
    destruct attached; by apply follows_ret.
  - done.
  - apply refusal_of_answer. right. by eexists.
  - done.
Qed.

Lemma run_fill_follows :
  (queue = true → ex_dry_run self = false) →
  upholds x_start (run_fill (StoreError:=StoreError) self plan queue) run_answer.
Proof.
  intros Hmode. unfold run_fill, judge.
  apply (follows_bind _ _ _ _ _ (λ r q, ∃ j, q = judging j ∧ match r with
    | Ok (FAccepted operation) | Ok (FNeedsRestore operation) =>
        approved self (fp_pool plan) planned_requests j operation
    | Ok (FRefused outcome) => fill_answer self (StoreError:=StoreError) (Ok outcome) q
    | Err e => error_answer e q
    | _ => True
    end)).
  { apply follows_try_ret. cbn [map_err fill_requests request_fill rbind].
    eapply follows_try; [apply judge_operation_follows|..].
    - intros e q (j & -> & He). exists j. split; [done|exact He].
    - intros judged q (j & -> & Hj). apply follows_ret. exists j. split; [done|].
      destruct judged; try done; [|by left]. apply refusal_of_answer. by left. }
  assert (∀ j operation simulated,
    match operation with
    | Some operation => approved self (fp_pool plan) planned_requests j operation | None => True end →
    upholds (judging j) (await row := perform (RecordFill (record_of self plan)) in
      match row with
      | Err error => Ret (Err (ExStore error), Release)
      | Ok fill_id =>
          if negb queue then Ret (Ok (recorded_as self fill_id simulated None), Release)
          else match operation with
               | None => Ret (Ok (recorded_as self fill_id simulated None), Release)
               | Some operation => submit_recorded self plan fill_id simulated operation
               end
      end) run_answer) as Hrecord.
  { intros j operation simulated Ha. apply follows_call. intros r. eexists.
    split; [by constructor|]. destruct r as [id|e]; [|by apply follows_ret].
    destruct (negb queue) eqn:Hq; [by apply follows_ret|]. apply negb_false_iff in Hq.
    destruct operation as [operation|]; [|by apply follows_ret].
    apply submit_recorded_follows; auto. }
  intros [[operation|operation| |outcome]|e] q (j & -> & Hj); cbv zeta.
  - by apply (Hrecord j (Some operation) true).
  - by apply (Hrecord j (Some operation) false).
  - by apply (Hrecord j None false).
  - by apply follows_ret.
  - by apply follows_ret.
Qed.
End fills.

(** ** Unwinds *)

Section unwinds.
Context `{ScValues} {StoreError : Type} (self : Executor) (pool : string) (plan : UnwindPlan).
Context (queue : bool) (held : option Reservation).

Definition unwind_submission (operation : Operation) : Submission :=
  mkSubmission operation Normal (String.append "unwind " pool) UNWIND_RETRIES.

Abbreviation unwind_step := (exec_step (StoreError:=StoreError) self pool
  (unwind_requests (up_actions plan)) None unwind_submission queue held).
Abbreviation upholds := (follows (done_log (StoreError:=StoreError)) unwind_step).

Definition pass_answer (r : result (@ExecutorError _ StoreError) UnwindOutcome * Settle)
    (q : XState) : Prop := unsettled r.2 q ∧ unwind_answer r.1 q.

Lemma run_unwind_pass_follows :
  (queue = true → ex_dry_run self = false) →
  upholds x_start (run_unwind_pass (StoreError:=StoreError) self pool plan queue) pass_answer.
Proof.
  intros Hmode. unfold run_unwind_pass. eapply follows_bind; [apply judge_operation_follows|].
  intros judged q (j & -> & Hj). cbv zeta.
  assert (∀ operation simulated,
    match operation with
    | Some operation => approved self pool (unwind_requests (up_actions plan)) j operation
    | None => True end →
    upholds (judging j)
      (if negb queue then Ret (Ok (Planned simulated), Release)
       else match operation with
         | None => Ret (Ok (Planned simulated), Release)
         | Some operation =>
             await (landed, settle) := enqueue (unwind_submission operation) in
             Ret (match landed with
                  | Ok (LandedOutcome outcome) => (Ok (Submitted outcome), settle)
                  | Ok LandedStale => (Ok UnwindStale, settle)
                  | Ok (LandedRefused contract_error _) =>
                      (Ok (UnwindRefused contract_error), settle)
                  | Err error => (Err error, settle)
                  end)
         end) pass_answer) as Hsend.
  { intros operation simulated Ha. destruct (negb queue) eqn:Hq; [by apply follows_ret|].
    apply negb_false_iff in Hq. destruct operation as [operation|]; [|by apply follows_ret].
    eapply follows_bind; [apply enqueue_follows; auto|].
    intros [landed settle] q (answer & -> & Hu & Hl). simpl in Hu, Hl. apply follows_ret.
    destruct landed as [[outcome| |code message]|e]; subst; (split; [done|]); try done.
    right. by eexists. }
  destruct judged as [[operation|operation| |code message|]|e];
    first [by apply (Hsend (Some operation)) | by apply (Hsend None) | apply follows_ret];
    (split; [done|]); try done; by left.
Qed.
End unwinds.

(** ** Properties *)

Definition held_by (settlement : Settlement) : option Reservation :=
  match settlement with Live r => Some r | DryRun => None end.

Section properties.
Context `{ScValues} {StoreError : Type} (self : Executor).

Lemma execute_follows (plan : FillPlan) (settlement : Settlement) (queue : bool)
  :
  follows (done_log (StoreError:=StoreError))
    (exec_step self (fp_pool plan) (planned_requests plan) (Some (record_of self plan))
       (fill_submission plan)
       queue (held_by settlement))
    x_start (execute self plan settlement queue)
    (λ r q, settled_well (held_by settlement) q ∧ fill_answer self r q).
Proof.
  unfold execute. eapply follows_try; [by apply mode_guard_follows|by intros e q [[? _] ?]|].
  intros reservation q (-> & -> & Hmode).
  eapply follows_bind; [by apply run_fill_follows|].
  intros [answer settle] q [Hu Ha]. eapply follows_bind; [by apply settle_token_follows|].
  intros [] q' (Hs & Hsent & Hrow & _). apply follows_ret. split; [done|]. simpl in Ha.
  destruct answer as [[recorded|code|code|]|e]; simpl in *; unfold refused_with in *;
    rewrite ?Hsent, ?Hrow; try done. by apply (error_answer_sent e q q').
Qed.

Lemma unwind_follows (pool : string) (plan : UnwindPlan) (settlement : Settlement)
    (queue : bool) :
  follows (done_log (StoreError:=StoreError))
    (exec_step self pool (unwind_requests (up_actions plan)) None (unwind_submission pool)
       queue (held_by settlement))
    x_start (unwind self pool plan settlement queue)
    (λ r q, settled_well (held_by settlement) q ∧ unwind_answer r q ∧
      (is_idle plan = true → x_judged q = None ∧ x_sent q = None)).
Proof.
  unfold unwind. eapply follows_try; [by apply mode_guard_follows|by intros e q [(? & ? & ?) ?]|].
  intros reservation q (-> & -> & Hmode). destruct (is_idle plan) eqn:Hidle.
  - eapply follows_bind; [apply release_token_follows|].
    intros [] q (Hs & Hsent & Hj). by apply follows_ret.
  - eapply follows_bind; [by apply run_unwind_pass_follows|].
    intros [answer settle] q [Hu Ha]. eapply follows_bind; [by apply settle_token_follows|].
    intros [] q' (Hs & Hsent & _). apply follows_ret. split; [done|]. split; [|done]. simpl in Ha.
    destruct answer as [[simulated|outcome|code|]|e]; simpl in *; unfold refused_with in *;
      rewrite ?Hsent; try done. by apply (error_answer_sent e q q').
Qed.


(** One unwind pass, in the same order: simulated as the filler's own
    submit of the plan's actions, sent only by an armed executor after a
    simulation that accepted it or asked for a restore, settled exactly once by
    what the chain did; an idle plan costs nothing at all. *)
Theorem unwind_settles_by_the_chain (pool : string) (plan : UnwindPlan) (settlement : Settlement)
    (queue : bool) :
  follows (done_log (StoreError:=StoreError))
    (exec_step self pool (unwind_requests (up_actions plan)) None (unwind_submission pool)
       queue (held_by settlement))
    x_start (unwind self pool plan settlement queue)
    (λ r q, settled_well (held_by settlement) q ∧ unwind_answer r q ∧
      (is_idle plan = true → x_judged q = None ∧ x_sent q = None)).
Proof. apply unwind_follows. Qed.
End properties.
