(* ===== verification/Handoff.v ===== *)
(** * The executor's calls and the submission queue together
      ([src/queue.rs], [src/executor.rs])

    An armed executor hands its operation to the queue of the filler's key and
    waits for the answer; the queue's worker serves what it is handed in order.
    Here the two run together: any number of calls of the executor, each with
    the queue's own [enqueue] linked in, and one worker, joined by the channel
    of submissions and by the [oneshot] each of them carries. In every history
    of them, a wallet reservation is released only when no transaction of its
    call can land any more, and consumed when one landed or still may. *)

From S2P Require Import Prelude Fixed Auction Encode Io Chain Operations Decode Store.
From S2P Require Import Submit Protocol Inventory Fill Unwind Executor ExecutorContract.
Open Scope Z_scope.

(** ** Enqueueing ([src/queue.rs]) *)

Section calls.
Context `{ScValues} {StoreError : Type}.

(** What a call does once [enqueue] is linked in: its own calls, and the two
    ends of the queue's channels — [send] on the sender, which says whether the
    worker is still there, and the answer's [oneshot], which has no value when
    it was dropped. *)
Variant CallE : Type → Type :=
| COwn (X : Type) (e : ExecE (StoreError:=StoreError) X) : CallE X
| CSend (submission : Submission) : CallE bool
| CAnswer : CallE (option (result QueueError TxOutcome)).

Inductive CallObs : Type :=
| OOwn (d : Done (StoreError:=StoreError))
| OSend (submission : Submission) (ok : bool)
| OAnswer (answer : option (result QueueError TxOutcome)).

Definition call_log (X : Type) (e : CallE X) : X → CallObs :=
  match e in CallE X return X → CallObs with
  | COwn _ e => λ x, OOwn (done_log _ e x)
  | CSend submission => OSend submission
  | CAnswer => OAnswer
  end.

(** [SubmissionQueue::enqueue]. *)
Definition enqueue (submission : Submission) : io CallE (result QueueError TxOutcome) :=
  await sent := perform (CSend submission) in
  if (sent : bool) then
    await answer := perform CAnswer in
    Ret (match answer with Some answer => answer | None => Err Closed end)
  else Ret (Err Closed).

(** A program of the executor, with [enqueue] in place of the call to it. *)
Definition link (X : Type) (e : ExecE (StoreError:=StoreError) X) : io CallE X :=
  match e in ExecE X return io CallE X with
  | NetCall _ e => perform (COwn _ (NetCall _ e))
  | RecordFill record => perform (COwn _ (RecordFill record))
  | AttachFillTx id hash => perform (COwn _ (AttachFillTx id hash))
  | Enqueue submission => enqueue submission
  | ConsumeToken r => perform (COwn _ (ConsumeToken r))
  | ReleaseToken r => perform (COwn _ (ReleaseToken r))
  end.

Definition linked {A : Type} (t : io (ExecE (StoreError:=StoreError)) A) : io CallE A :=
  interp link t.

(** ** What a linked program's trace spells *)

Definition own_call (d : Done (StoreError:=StoreError)) : Prop :=
  match d with DEnqueue _ _ => False | _ => True end.

(** [whole] when no [enqueue] is left waiting at the end. *)
Inductive spelled (whole : bool) : list (Done (StoreError:=StoreError)) → list CallObs → Prop :=
| sp_nil : spelled whole [] []
| sp_waiting s cs : whole = false → traces call_log (enqueue s) cs None → spelled whole [] cs
| sp_own d tr cs : own_call d → spelled whole tr cs → spelled whole (d :: tr) (OOwn d :: cs)
| sp_enqueue s r cs1 tr cs :
    traces call_log (enqueue s) cs1 (Some r) → spelled whole tr cs →
    spelled whole (DEnqueue s r :: tr) (cs1 ++ cs).

(** One call of the executor, linked. *)
Lemma link_spelled {X : Type} (e : ExecE X) n cs o :
  runs call_log n (link X e) cs o →
  match o with
  | Some x => ∀ tr cs', spelled false tr cs' → spelled false (done_log X e x :: tr) (cs ++ cs')
  | None => spelled false [] cs ∨ ∃ x, spelled false [done_log X e x] cs
  end.
Proof.
  intros Hr. destruct e as [X e|record|id hash|submission|r|r]; simpl in Hr.
  4: { destruct o as [x|]; [intros tr cs' Hs; apply sp_enqueue; [by exists n|done]|].
    left. apply (sp_waiting _ submission); [done|]. by exists n. }
  all: apply runs_perform_inv in Hr as [[-> ->]|(x & -> & [-> | ->])];
    [left; constructor|right; exists x; repeat constructor|intros tr cs' Hs; by constructor].
Qed.

(** The body of [interp]'s loop. *)
Definition link_body {A : Type} (t : io ExecE A) : io CallE (io ExecE A + A) :=
  match observe t with
  | RetF r => Ret (inr r)
  | TauF u => Ret (inl u)
  | VisF e k => ITree.map (λ x, inl (k x)) (link _ e)
  end.

Lemma link_body_runs {A : Type} n (t : io ExecE A) cs o :
  runs call_log n (link_body t) cs o →
  match o with
  | None => ∃ tr m, runs done_log m t tr None ∧ spelled false tr cs
  | Some (inr _) => cs = []
  | Some (inl u) => ∃ ds, (∀ m tr o, runs done_log m u tr o → ∃ m, runs done_log m t (ds ++ tr) o) ∧
      ∀ tr cs', spelled false tr cs' → spelled false (ds ++ tr) (cs ++ cs')
  end.
Proof.
  unfold link_body. destruct (observe t) as [r|u|X e k] eqn:Ht.
  - intros [-> [-> | ->]]%runs_ret; [|done]. exists [], 0%nat. split; [apply runs_start|constructor].
  - intros [-> [-> | ->]]%runs_ret.
    + exists [], 0%nat. split; [apply runs_start|constructor].
    + exists []. split; [|done]. intros m tr o' Hr. exists (S m). right. by rewrite Ht.
  - intros [[Hr ->]|(x & tr1 & tr2 & -> & Hr & [-> Ho]%runs_ret)]%runs_bind.
    + apply link_spelled in Hr as [Hs|(x & Hs)].
      * exists [], 0%nat. split; [apply runs_start|done].
      * exists [done_log X e x], 1%nat. split; [|done]. right. rewrite Ht. exists x, [].
        split; [done|apply runs_start].
    + rewrite app_nil_r. apply link_spelled in Hr. destruct Ho as [-> | ->].
      * exists [done_log X e x], 1%nat. split; [right; rewrite Ht; exists x, []; split; [done|apply runs_start]|].
        specialize (Hr [] [] (sp_nil _)). by rewrite app_nil_r in Hr.
      * exists [done_log X e x]. split; [|intros tr cs'; apply Hr].
        intros m tr o' Hm. exists (S m). right. rewrite Ht. by exists x, tr.
Qed.

Lemma linked_spelled {A : Type} n (t : io ExecE A) cs o :
  runs call_log n (linked t) cs o → ∃ tr m o', runs done_log m t tr o' ∧ spelled false tr cs.
Proof.
  revert t cs. induction (lt_wf n) as [n _ IH]. intros t cs Hr.
  assert (runs call_log n (ITree.bind (link_body t)
    (λ lr, match lr with inl u => Tau (linked u) | inr r => Ret r end)) cs o) as Hb
    by (destruct n; exact Hr).
  apply runs_bind in Hb as [[Hb ->]|(lr & cs1 & cs2 & -> & Hb & Hrest)].
  - apply link_body_runs in Hb as (tr & m & Hm & Hs). by exists tr, m, None.
  - apply link_body_runs in Hb. destruct lr as [u|r].
    + destruct Hb as (ds & Hrun & Hsp).
      assert (∃ tr m o', runs done_log m u tr o' ∧ spelled false tr cs2) as (tr & m & o' & Hm & Hs).
      { destruct n as [|n].
        - destruct Hrest as [[-> ->]|[]]. exists [], 0%nat, None. split; [apply runs_start|constructor].
        - apply runs_tau in Hrest. by apply (IH n ltac:(lia)) in Hrest. }
      apply Hrun in Hm as [m' Hm']. exists (ds ++ tr), m', o'. split; [done|by apply Hsp].
    + subst cs1. apply runs_ret in Hrest as [-> _]. exists [], 0%nat, None.
      split; [apply runs_start|constructor].
Qed.

(** What [enqueue] does on the queue's channels. *)
Lemma enqueue_runs s cs o :
  traces call_log (enqueue s) cs o →
  match o with
  | Some r => cs = [OSend s false] ∧ r = Err Closed ∨
      ∃ a, cs = [OSend s true; OAnswer a] ∧ r = default (Err Closed) a
  | None => ∀ d, OOwn d ∉ cs
  end.
Proof.
  intros [n Hr]. unfold enqueue in Hr.
  apply runs_bind in Hr as [[Hr ->]|(ok & tr1 & tr2 & -> & Hr & Hk)];
    apply runs_perform_inv in Hr as [[? Ho]|(x & -> & Ho)]; subst; try done.
  - intros d. set_solver.
  - intros d. apply not_elem_of_cons. split; [done|]. by apply not_elem_of_nil.
  - destruct Ho as [[=]|[= ->]]. destruct x.
    + apply runs_bind in Hk as [[Hk ->]|(a & tr1 & tr3 & -> & Hk & [-> Ho]%runs_ret)];
        apply runs_perform_inv in Hk as [[? Ha]|(x & -> & Ha)]; subst; try done.
      * intros d. simpl. apply not_elem_of_cons. split; [done|]. by apply not_elem_of_nil.
      * intros d. simpl. rewrite !not_elem_of_cons. split_and!; try done. apply not_elem_of_nil.
      * destruct Ha as [[=]|[= ->]]. destruct Ho as [-> | ->]; [|right; exists x; split; [done|by destruct x]].
        intros d. simpl. rewrite !not_elem_of_cons. split_and!; try done. apply not_elem_of_nil.
    + apply runs_ret in Hk as [-> [-> | ->]]; [|by left].
      intros d. simpl. rewrite !not_elem_of_cons. split_and!; try done. apply not_elem_of_nil.
Qed.

(** Its own calls stand in the trace as they do in the program's. *)
Lemma spelled_own b tr cs1 d cs2 :
  spelled b tr (cs1 ++ OOwn d :: cs2) →
  ∃ tr1 tr2, tr = tr1 ++ d :: tr2 ∧ spelled true tr1 cs1.
Proof.
  remember (cs1 ++ OOwn d :: cs2) as cs eqn:Hcs. intros Hs. revert cs1 Hcs.
  induction Hs as [|s cs _ Hw|d' tr cs Hd Hs IH|s r e tr cs He Hs IH]; intros cs1 Hcs.
  - by destruct cs1.
  - apply enqueue_runs in Hw. exfalso. apply (Hw d). subst. apply elem_of_app. right. by left.
  - destruct cs1 as [|o cs1]; simpl in Hcs.
    + injection Hcs as -> ->. exists [], tr. split; [done|constructor].
    + injection Hcs as <- ->. destruct (IH cs1 eq_refl) as (tr1 & tr2 & -> & H1').
      exists (d' :: tr1), tr2. split; [done|by constructor].
  - assert (∃ cs', cs1 = e ++ cs' ∧ cs = cs' ++ OOwn d :: cs2) as (cs' & -> & ->).
    { apply enqueue_runs in He as [[-> _]|(a & -> & _)]; simpl in Hcs;
        destruct cs1 as [|o1 [|o2 cs1]]; simplify_eq/=; eauto. }
    destruct (IH cs' eq_refl) as (tr1 & tr2 & -> & H1').
    exists (DEnqueue s r :: tr1), tr2. split; [done|by apply sp_enqueue].
Qed.

Lemma spelled_cons b d tr cs :
  spelled b (d :: tr) cs →
  (own_call d ∧ ∃ cs', cs = OOwn d :: cs' ∧ spelled b tr cs') ∨
  ∃ s r e cs', d = DEnqueue s r ∧ cs = e ++ cs' ∧ traces call_log (enqueue s) e (Some r) ∧
    spelled b tr cs'.
Proof. inversion 1; subst; [left; eauto|right; eauto 10]. Qed.

(** ... and its enqueueing as [enqueue] does it. *)
Lemma spelled_enqueue tr1 s r tr2 cs :
  spelled true (tr1 ++ DEnqueue s r :: tr2) cs →
  ∃ cs1 e cs2, cs = cs1 ++ e ++ cs2 ∧ spelled true tr1 cs1 ∧ spelled true tr2 cs2 ∧
    traces call_log (enqueue s) e (Some r).
Proof.
  revert cs. induction tr1 as [|d tr1 IH]; simpl; intros cs Hs.
  - apply spelled_cons in Hs as [[[] _]|(s' & r' & e & cs' & [= <- <-] & -> & He & Hs)].
    exists [], e, cs'. split_and!; [done|constructor|done|done].
  - apply spelled_cons in Hs as [(Hd & cs' & -> & Hs)|(s' & r' & e0 & cs' & -> & -> & He0 & Hs)];
      destruct (IH cs' Hs) as (c1 & e & c2 & -> & Hc & Hc2 & He).
    + exists (OOwn d :: c1), e, c2. split_and!; [done|by constructor|done|done].
    + exists (e0 ++ c1), e, c2. split_and!; [by rewrite app_assoc|by apply sp_enqueue|done|done].
Qed.

Lemma spelled_no_send tr cs s :
  spelled true tr cs → (∀ s r, DEnqueue s r ∉ tr) → OSend s true ∉ cs.
Proof.
  induction 1 as [|? ? [=]|d tr cs Hd Hs IH|s' r e tr cs He Hs IH]; intros Hno; [set_solver|..].
  - rewrite not_elem_of_cons. split; [done|]. apply IH. intros s' r Hin. apply (Hno s' r). by right.
  - exfalso. apply (Hno s' r). by left.
Qed.
End calls.

(** ** What a served submission leaves of itself *)

Section served.
Context `{Xdr} (config : TxConfig).

Fixpoint signed_last (signed : option Transaction) (tr : list Seen) : option Transaction :=
  match tr with
  | [] => signed
  | SSign tx (Ok _) :: tr => signed_last (Some tx) tr
  | _ :: tr => signed_last signed tr
  end.

Lemma signed_last_snoc signed tr o :
  signed_last signed (tr ++ [o]) =
  match o with SSign tx (Ok _) => Some tx | _ => signed_last signed tr end.
Proof.
  revert signed. induction tr as [|o' tr IH]; intros signed; simpl.
  - by destruct o as [| | | |tx []| | | | |].
  - destruct o' as [| | | |tx []| | | | |]; apply IH.
Qed.

Lemma only_restores_snoc signed tr o :
  only_restores_left signed tr →
  match o with
  | SSend _ r => refusal r = true ∨
      ∃ tx, signed_last signed tr = Some tx ∧ tx_operation tx = restore_footprint
  | _ => True
  end →
  only_restores_left signed (tr ++ [o]).
Proof.
  revert signed. induction tr as [|o' tr IH]; intros signed; simpl.
  - intros _ Ho. by destruct o as [| | | |tx []| | | | |].
  - destruct o' as [| | | |tx []| | | | |]; simpl; intros Htr Ho; try (by apply IH).
    destruct Htr as [Hr Htr]. split; [done|by apply IH].
Qed.

(** The last answer a poll gave, and the transaction it was about. *)
Definition last_poll (tr : list Seen) : option (TxHash * result ChainError TransactionStatus) :=
  last (omap (λ o, match o with SPoll h r => Some (h, r) | _ => None end) tr).

Definition sends (o : Seen) : bool := match o with SSend _ _ => true | _ => false end.

(** One transaction of the submission may have been taken up: everything sent
    before it was refused or a restore's, nothing was sent after, and its
    polls end with [last]. *)
Definition only_transaction (tr : list Seen) (tx : Transaction) (h : TxHash) (last : polled) : Prop :=
  ∃ tr1 e tr2 r tr3, tr = tr1 ++ SSign tx (Ok (e, h)) :: tr2 ++ SSend e r :: tr3 ∧
    only_restores_left None (tr1 ++ SSign tx (Ok (e, h)) :: tr2) ∧
    Forall (λ o, sends o = false) tr3 ∧
    last_poll tr3 = (λ r, (h, r)) <$> last.

(** What the trace since a submission was taken says of the queue's state. *)
Definition since_taken (tr : list Seen) (q : QState) : Prop :=
  match q with
  | QPending _ _ _ true tx h _ last => only_transaction tr tx h last
  | QSealed _ _ _ own tx e h =>
      only_restores_left None tr ∧ signed_last None tr = Some tx ∧
      (own = false → tx_operation tx = restore_footprint) ∧
      ∃ tr1 tr2, tr = tr1 ++ SSign tx (Ok (e, h)) :: tr2
  | QIdle | QClosed => False
  | _ => only_restores_left None tr
  end.

Lemma quiet_since tr q s b next : quiet q s b next → since_taken tr q → only_restores_left None tr.
Proof. destruct 1; simpl; tauto. Qed.

Lemma only_transaction_snoc tr tx h last o :
  only_transaction tr tx h last → sends o = false →
  match o with SPoll _ _ => False | _ => True end → only_transaction (tr ++ [o]) tx h last.
Proof.
  intros (tr1 & e & tr2 & r & tr3 & -> & Hr & Hs & Hl) Ho Hp.
  exists tr1, e, tr2, r, (tr3 ++ [o]). split_and!; [|done| |].
  - by rewrite <- app_assoc, <- app_comm_cons, <- app_assoc, <- app_comm_cons.
  - apply Forall_app. by repeat constructor.
  - unfold last_poll in *. rewrite omap_app. destruct o; try done; simpl; by rewrite app_nil_r.
Qed.

Lemma only_transaction_poll tr tx h last r :
  only_transaction tr tx h last → only_transaction (tr ++ [SPoll h r]) tx h (Some r).
Proof.
  intros (tr1 & e & tr2 & r' & tr3 & -> & Hr & Hs & Hl).
  exists tr1, e, tr2, r', (tr3 ++ [SPoll h r]). split_and!; [|done| |].
  - by rewrite <- app_assoc, <- app_comm_cons, <- app_assoc, <- app_comm_cons.
  - apply Forall_app. by repeat constructor.
  - unfold last_poll in *. rewrite omap_app. simpl. by rewrite last_snoc.
Qed.

Lemma since_quiet_snoc tr q s b next o :
  quiet q s b next → since_taken tr q → sends o = false →
  match o with SSign _ (Ok _) => False | _ => True end → since_taken (tr ++ [o]) q.
Proof.
  intros Hq Ht Ho Hsign. assert (only_restores_left None (tr ++ [o])) as Hr.
  { apply only_restores_snoc; [by eapply quiet_since|]. by destruct o. }
  destruct Hq; simpl in *; try done. destruct Ht as (_ & Hl & Hop & tr1 & tr2 & ->).
  split_and!; [done| |done|].
  - rewrite signed_last_snoc. by destruct o as [| | | |? []| | | | |].
  - exists tr1, (tr2 ++ [o]). by rewrite <- app_assoc.
Qed.

Lemma since_taken_step tr q o q' :
  since_taken tr q → qstep config q o q' → within o → since_taken (tr ++ [o]) q'.
Proof.
  intros Ht Hs Hw.
  assert (∀ h last own, ∀ s b next tx st st',
    q = QPending s b next own tx h st last → q' = QPending s b next own tx h st' last →
    sends o = false → match o with SPoll _ _ => False | _ => True end →
    since_taken (tr ++ [o]) q') as Hwait.
  { intros h last own s b next tx st st' -> -> Ho Hp. destruct own; simpl in *;
      [by apply only_transaction_snoc|]. apply only_restores_snoc; [done|by destruct o]. }
  destruct Hs as [| | | |s|q s b next r next' Hq|q s b next tx r Hq|q s b next own tx e h Hq Hseal|
    q s b next own tx err Hq|s b next own tx e h r Hr|s b next own tx e h r Hr|
    s b next own tx h st last r| | | |q s b next stop Hq|q s b next Hq| | | | |];
    simpl in Hw; try done; try (by eapply since_quiet_snoc); try (by eapply Hwait); simpl in Ht.
  - by apply only_restores_snoc.
  - by apply only_restores_snoc.
  - apply only_restores_snoc; [by eapply quiet_since|done].
  - split_and!; [|by rewrite signed_last_snoc| |by exists tr, []].
    + apply only_restores_snoc; [by eapply quiet_since|done].
    + intros ->. by destruct Hseal as (_ & _ & _ & _ & ?).
  - destruct Ht as (Ht & Hl & Hop & tr1 & tr2 & ->). simpl. split_and!; [|by rewrite signed_last_snoc|done|].
    + apply only_restores_snoc; [done|by left].
    + exists tr1, (tr2 ++ [SSend e r]). by rewrite <- app_assoc.
  - destruct Ht as (Ht & Hl & Hop & tr1 & tr2 & ->). destruct own; simpl.
    + exists tr1, e, tr2, r, []. by rewrite <- app_assoc.
    + apply only_restores_snoc; [done|right]. exists tx. by split; [|apply Hop].
  - destruct own; simpl; [by eapply only_transaction_poll|]. by apply only_restores_snoc.
Qed.

Lemma since_taken_steps s tr q :
  steps (qstep config) (QDequeued s) tr q → Forall within tr → since_taken tr q.
Proof.
  intros Hs. revert tr q Hs. apply (steps_invariant _ (λ tr q, Forall within tr → since_taken tr q)).
  { intros _. done. }
  intros tr q o q' _ IH Hs [Hw [Ho _]%Forall_cons]%Forall_app. by eapply since_taken_step; [apply IH| |].
Qed.

(** What an answer of the queue proves of the submission it answers: a failed
    or expired transaction is the only one that was ever taken up, and the
    chain said so; anything else sent nothing but restores. *)
Definition proven (tr : list Seen) (outcome : TxOutcome) : Prop :=
  ∃ tx h status, only_transaction tr tx h (Some (Ok status)) ∧
    classify status h (tx_window tx) = Some outcome.

Definition cannot_land (tr : list Seen) (answer : result QueueError TxOutcome) : Prop :=
  match answer with
  | Ok (TxFailed _ _ _ _ as outcome) | Ok (TxExpired _ _ _ as outcome) => proven tr outcome
  | Ok _ => False
  | Err _ => only_restores_left None tr
  end.

Definition may_have_landed (tr : list Seen) (answer : result QueueError TxOutcome) : Prop :=
  ∃ outcome, answer = Ok outcome ∧
    match outcome with
    | TxSucceeded _ _ _ => proven tr outcome
    | TxUnknown _ _ _ => ∃ tx h last, only_transaction tr tx h last
    | _ => False
    end.

(** One answer or the other, for every submission served. *)
Lemma answer_told s tr q r :
  steps (qstep config) (QDequeued s) tr q → Forall within tr → qstep config q (SRespond r) QIdle →
  if spent (Some r) then may_have_landed tr r else cannot_land tr r.
Proof.
  intros Hs Hw Hr. apply since_taken_steps in Hs as Ht; [|done].
  inversion Hr as [| | |Heq| | | | | | | | | | | | | |? ? ? tx h st status outcome Hc|
    ? ? ? tx h last'|? ? ? ? e Hq| |]; subst; simpl in Ht |- *; try done.
  - assert (proven tr outcome) as Hp by (by exists tx, h, status).
    destruct outcome; [by eexists|exact Hp|exact Hp|].
    exfalso. clear -Hc. by destruct status; simpl in Hc; [destruct (_ && _)|..].
  - eexists. split; [done|]. simpl. eauto.
  - by eapply quiet_since.
Qed.
End served.

(** ** The calls, the worker, and what joins them *)

Section handoff.
Context `{ScValues} {StoreError : Type} (config : TxConfig) (instant_max : Z).
Context (debug_outcome : TxOutcome → string).
Context (debug_rejection : option TransactionResult → option Z → string).
Context (policy : RetryPolicy).

Abbreviation worker := (run_queue_with config instant_max debug_outcome debug_rejection policy).
Abbreviation call_obs := (CallObs (StoreError:=StoreError)).

(** An armed call of the executor. *)
Inductive Call : Type :=
| CallFill (self : Executor) (plan : FillPlan) (settlement : Settlement)
| CallUnwind (self : Executor) (pool : string) (plan : UnwindPlan) (settlement : Settlement).

Definition call_program (c : Call) : io (ExecE (StoreError:=StoreError)) () :=
  match c with
  | CallFill self plan settlement => await _ := execute self plan settlement true in Ret ()
  | CallUnwind self pool plan settlement => await _ := unwind self pool plan settlement true in Ret ()
  end.

Inductive Act : Type :=
| ACaller (who : nat) (o : call_obs)
| AWorker (o : Seen).

(** The submissions waiting, whose the one being served is, and the answers
    given. *)
Record Desk : Type := mkDesk {
  dk_waiting : list (nat * Submission);
  dk_serving : option nat;
  dk_answers : gmap nat (result QueueError TxOutcome);
}.

Definition desk_new : Desk := mkDesk [] None ∅.

Definition holds (d : Desk) (who : nat) : Prop :=
  who ∈ (dk_waiting d).*1 ∨ dk_serving d = Some who ∨ is_Some (dk_answers d !! who).

(** What a caller or the worker does on its own. *)
Definition alone (a : Act) : bool :=
  match a with
  | ACaller _ (OSend _ true) | ACaller _ (OAnswer _) | AWorker (SReceive (Some _))
  | AWorker (SRespond _) => false
  | _ => true
  end.

(** The channel is first in, first out; a submission travels with its own
    [oneshot], which holds the answer once the worker gave it, and has none
    only when nobody holds its sender any more. *)
Inductive desk_step : Desk → Act → Desk → Prop :=
| d_send waiting serving answers who s :
    desk_step (mkDesk waiting serving answers) (ACaller who (OSend s true))
      (mkDesk (waiting ++ [(who, s)]) serving (delete who answers))
| d_receive waiting serving answers who s :
    desk_step (mkDesk ((who, s) :: waiting) serving answers) (AWorker (SReceive (Some s)))
      (mkDesk waiting (Some who) answers)
| d_respond waiting answers who r :
    desk_step (mkDesk waiting (Some who) answers) (AWorker (SRespond r))
      (mkDesk waiting None (<[who := r]> answers))
| d_answered d who r :
    dk_answers d !! who = Some r → desk_step d (ACaller who (OAnswer (Some r))) d
| d_dropped d who : ¬ holds d who → desk_step d (ACaller who (OAnswer None)) d
| d_alone d a : alone a → desk_step d a d.

Definition by_caller (who : nat) (a : Act) : option call_obs :=
  match a with ACaller w o => if decide (w = who) then Some o else None | AWorker _ => None end.
Definition called (who : nat) (h : list Act) : list call_obs := omap (by_caller who) h.

Definition by_worker (a : Act) : option Seen :=
  match a with AWorker o => Some o | ACaller _ _ => None end.
Definition served (h : list Act) : list Seen := omap by_worker h.

(** A history: each call does what the executor does, the worker what the
    queue's worker does, in whatever order they are scheduled. *)
Record history (calls : nat → Call) (h : list Act) : Prop := {
  h_desk : ∃ d, steps desk_step desk_new h d;
  h_callers : ∀ who, ∃ o, traces call_log (linked (call_program (calls who))) (called who h) o;
  h_worker : ∃ o, traces seen worker (served h) o;
}.

Lemma called_app who h1 h2 : called who (h1 ++ h2) = called who h1 ++ called who h2.
Proof. apply omap_app. Qed.
Lemma served_app h1 h2 : served (h1 ++ h2) = served h1 ++ served h2.
Proof. apply omap_app. Qed.

Lemma served_worker h o : served (h ++ [AWorker o]) = served h ++ [o].
Proof. by rewrite served_app. Qed.

(** Whether the worker owes an answer. *)
Fixpoint owes (owed : bool) (tr : list Seen) : bool :=
  match tr with
  | [] => owed
  | SReceive (Some _) :: tr => owes true tr
  | SRespond _ :: tr => owes false tr
  | _ :: tr => owes owed tr
  end.

Lemma owes_snoc owed tr o :
  owes owed (tr ++ [o]) =
  match o with SReceive (Some _) => true | SRespond _ => false | _ => owes owed tr end.
Proof.
  revert owed. induction tr as [|o' tr IH]; intros owed; simpl;
    [by destruct o as [| | | | | | |[]| |]|]. destruct o' as [| | | | | | |[]| |]; apply IH.
Qed.

Lemma owes_owing q tr q' : steps (qstep config) q tr q' → owes (owing q) tr = owing q'.
Proof.
  induction 1 as [|q o q1 tr q2 Hs Hss IH]; [done|].
  destruct Hs; try (erewrite quiet_owing by eassumption); simpl in *; try done;
    try (erewrite quiet_owing in IH by eassumption); try done.
Qed.

(** The worker never takes a submission before it has answered the last. *)
Lemma worker_owes tr m o :
  traces seen worker (tr ++ [SReceive m]) o → owes false tr = false.
Proof.
  intros (n & Hr). apply run_queue_follows in Hr as (q & Hs & _).
  apply steps_split in Hs as (q1 & H1' & H2'). apply owes_owing in H1'. simpl in H1'. rewrite H1'.
  inversion H2' as [|? ? q2 ? ? Hst _]; subst. inversion Hst; subst; try done;
    match goal with H : quiet _ _ _ _ |- _ => inversion H end.
Qed.

(** Whether a caller waits for an answer. *)
Fixpoint waits (waiting : bool) (cs : list call_obs) : bool :=
  match cs with
  | [] => waiting
  | OSend _ true :: cs => waits true cs
  | OAnswer _ :: cs => waits false cs
  | _ :: cs => waits waiting cs
  end.

Lemma waits_app b cs1 cs2 : waits b (cs1 ++ cs2) = waits (waits b cs1) cs2.
Proof. revert b. induction cs1 as [|o cs1 IH]; intros b; [done|]. by destruct o as [|s []|]; apply IH. Qed.

Definition handed (h : list Act) (who : nat) (s : Submission) : Prop := OSend s true ∈ called who h.

(** The submission was taken, and nothing else since; or it was answered. *)
Definition in_service (h : list Act) (who : nat) : Prop :=
  ∃ before s between, served h = before ++ SReceive (Some s) :: between ∧
    Forall within between ∧ handed h who s.

Definition answered (h : list Act) (who : nat) (s : Submission) (between : list Seen)
    (r : result QueueError TxOutcome) : Prop :=
  ∃ before after, served h = before ++ SReceive (Some s) :: between ++ SRespond r :: after ∧
    Forall within between ∧ handed h who s.

(** What the desk's state says of the history behind it. *)
Record desked (h : list Act) (d : Desk) : Prop := {
  dd_owes : owes false (served h) = match dk_serving d with Some _ => true | None => false end;
  dd_waiting who s : (who, s) ∈ dk_waiting d → handed h who s;
  dd_serving who : dk_serving d = Some who → in_service h who;
  dd_answers who r : dk_answers d !! who = Some r → ∃ s between, answered h who s between r;
  dd_holds who : waits false (called who h) = true → holds d who;
}.

Lemma handed_app h h' who s : handed h who s → handed (h ++ h') who s.
Proof. unfold handed. rewrite called_app. set_solver. Qed.

Lemma answered_app h h' who s between r : answered h who s between r → answered (h ++ h') who s between r.
Proof.
  intros (before & after & Hs & Hw & Hh). exists before, (after ++ served h').
  split_and!; [|done|by apply handed_app]. rewrite served_app, Hs. by simplify_list_eq.
Qed.

Lemma in_service_snoc h a who :
  in_service h who → match by_worker a with Some o => within o | None => True end →
  in_service (h ++ [a]) who.
Proof.
  intros (before & s & between & Hs & Hw & Hh) Ha.
  exists before, s, (between ++ option_list (by_worker a)).
  rewrite served_app. simpl. split_and!; [|apply Forall_app|by apply handed_app].
  - rewrite Hs. destruct (by_worker a); by simplify_list_eq.
  - split; [done|]. destruct (by_worker a); by repeat constructor.
Qed.

Lemma waits_snoc h a who :
  waits false (called who (h ++ [a])) =
  match by_caller who a with
  | Some (OSend _ true) => true
  | Some (OAnswer _) => false
  | _ => waits false (called who h)
  end.
Proof.
  rewrite called_app, waits_app. simpl.
  by destruct (by_caller who a) as [[d|s []|r]|].
Qed.

(** An act that moves nothing on the desk. *)
Lemma desked_keeps h d a :
  desked h d →
  match a with
  | ACaller _ (OSend _ true) | AWorker (SRespond _) | AWorker (SReceive _) => False
  | _ => True end →
  desked (h ++ [a]) d.
Proof.
  intros [Ho Hw Hs Ha Hh] Hq. split.
  - rewrite served_app. destruct a as [w o|o]; simpl; [by rewrite app_nil_r|].
    rewrite owes_snoc. by destruct o.
  - intros who s Hin. by apply handed_app, Hw.
  - intros who Hin. apply in_service_snoc; [by apply Hs|]. destruct a as [|o]; [done|]. by destruct o.
  - intros who r Hr. destruct (Ha who r Hr) as (s & between & Hans). exists s, between.
    by apply answered_app.
  - intros who. rewrite waits_snoc. destruct a as [w o|o]; simpl; [|apply Hh].
    case_decide; [subst w|apply Hh]. destruct o as [|s []|]; [apply Hh|done|apply Hh|done].
Qed.

Lemma worker_prefix h1 h2 :
  (∃ o, traces seen worker (served (h1 ++ h2)) o) → ∃ o, traces seen worker (served h1) o.
Proof. intros (o & n & Hr). rewrite served_app in Hr. exists None, n. by eapply runs_prefix. Qed.

Lemma desked_step h d a d' :
  desked h d → (∃ o, traces seen worker (served (h ++ [a])) o) → desk_step d a d' →
  desked (h ++ [a]) d'.
Proof.
  intros Hd [o Hworker] Hs. rewrite served_app in Hworker.
  destruct Hs as [w sv an who s|w sv an who s|w an who r|d who r Ha|d who Hno|d a Hal].
  - destruct Hd as [Ho Hw Hs Ha Hh]. simpl in *. split; simpl.
    + by rewrite served_app, app_nil_r.
    + intros who' s' [Hin|Hin%list_elem_of_singleton]%elem_of_app; [by apply handed_app, Hw|].
      simplify_eq. unfold handed. rewrite called_app. simpl. rewrite decide_True by done. set_solver.
    + intros who' Hsv. by apply in_service_snoc; [apply Hs|].
    + intros who' r [Hne Hr]%lookup_delete_Some. destruct (Ha who' r Hr) as (s' & b & Hans).
      exists s', b. by apply answered_app.
    + intros who'. rewrite waits_snoc. simpl. unfold holds. simpl. rewrite fmap_app.
      case_decide as Hw'; [subst who'|].
      * intros _. left. set_solver.
      * intros [?|[?|?]]%Hh; [left; set_solver|by right; left|right; right].
        by rewrite lookup_delete_ne by done.
  - apply worker_owes in Hworker as Hfree.
    destruct Hd as [Ho Hw Hs Ha Hh]. simpl in *. rewrite Hfree in Ho. destruct sv; [done|].
    split; simpl.
    + by rewrite served_worker, owes_snoc.
    + intros who' s' Hin. apply handed_app, Hw. by right.
    + intros who' [= <-]. exists (served h), s, []. rewrite served_app. split_and!; [done|done|].
      apply handed_app, Hw. by left.
    + intros who' r Hr. destruct (Ha who' r Hr) as (s' & b & Hans). exists s', b. by apply answered_app.
    + intros who'. rewrite waits_snoc. simpl. intros [Hin|[[=]|?]]%Hh; unfold holds; simpl.
      * apply elem_of_cons in Hin as [->|?]; [by right; left|by left].
      * by right; right.
  - destruct Hd as [Ho Hw Hs Ha Hh]. simpl in *. split; simpl.
    + by rewrite served_worker, owes_snoc.
    + intros who' s' Hin. by apply handed_app, Hw.
    + done.
    + intros who' r' [[<- <-]|[Hne Hr]]%lookup_insert_Some.
      * destruct (Hs who eq_refl) as (before & s & between & Hsv & Hwi & Hha). exists s, between, before, [].
        split_and!; [|done|by apply handed_app]. rewrite served_app, Hsv. by simplify_list_eq.
      * destruct (Ha who' r' Hr) as (s' & b & Hans). exists s', b. by apply answered_app.
    + intros who'. rewrite waits_snoc. simpl. intros [?|[[= <-]|?]]%Hh; unfold holds; simpl.
      * by left.
      * right. right. rewrite lookup_insert_eq. by eexists.
      * right. right. by apply lookup_insert_is_Some'; right.
  - by apply desked_keeps.
  - by apply desked_keeps.
  - destruct a as [w [d0|s []|]|[| | | | | | |[s|]| |]]; try done; try (by apply desked_keeps).
    apply worker_owes in Hworker as Hfree. destruct Hd as [Ho Hw Hs Ha Hh].
    rewrite Hfree in Ho. destruct (dk_serving d) eqn:Hsv; [done|]. split; rewrite ?Hsv; try done.
    + by rewrite served_worker, owes_snoc.
    + intros who s Hin. by apply handed_app, Hw.
    + intros who r Hr. destruct (Ha who r Hr) as (s & b & Hans). exists s, b. by apply answered_app.
    + intros who. rewrite waits_snoc. apply Hh.
Qed.

Lemma desked_steps h d :
  steps desk_step desk_new h d → (∃ o, traces seen worker (served h) o) → desked h d.
Proof.
  revert h d. apply (steps_invariant _ (λ h d, (∃ o, traces seen worker (served h) o) → desked h d)).
  - intros _. split; simpl; try done; set_solver.
  - intros h d a d' _ IH Hs Hw. eapply desked_step; [|done|done].
    apply IH. by eapply worker_prefix.
Qed.

(** ** The property *)

(** The queue's answer a call got, if it enqueued. *)
Definition sent_told (tr : list (Done (StoreError:=StoreError)))
    (sent : option (result QueueError TxOutcome)) : Prop :=
  match sent with
  | None => ∀ s r, DEnqueue s r ∉ tr
  | Some r => ∃ tr1 s tr2, tr = tr1 ++ DEnqueue s r :: tr2 ∧
      (∀ s r, DEnqueue s r ∉ tr1) ∧ (∀ s r, DEnqueue s r ∉ tr2)
  end.

Lemma sent_told_snoc tr sent d : sent_told tr sent → own_call d → sent_told (tr ++ [d]) sent.
Proof.
  intros Ht Hd. assert (∀ s r, DEnqueue s r ∉ [d]) as Hno.
  { intros s r Hin%list_elem_of_singleton. by subst d. }
  destruct sent as [r|].
  - destruct Ht as (tr1 & s & tr2 & -> & H1' & H2'). exists tr1, s, (tr2 ++ [d]).
    split; [by rewrite <- app_assoc|]. split; [done|]. intros s' r'. rewrite elem_of_app.
    intros [?|?]; [by eapply H2'|by eapply Hno].
  - intros s r. rewrite elem_of_app. intros [?|?]; [by eapply Ht|by eapply Hno].
Qed.

Lemma exec_sent self pool requests row submission queue held tr q :
  steps (exec_step (StoreError:=StoreError) self pool requests row submission queue held)
    x_start tr q → sent_told tr (x_sent q).
Proof.
  revert tr q. apply (steps_invariant _ (λ tr q, sent_told tr (x_sent q))).
  - intros s r. apply not_elem_of_nil.
  - intros tr q d q' _ Ht Hs. destruct Hs; try (apply sent_told_snoc; [exact Ht|exact I]).
    exists tr, (submission operation), []. split_and!; [done|done|].
    intros s' r'. apply not_elem_of_nil.
Qed.

(** A call settles by what the queue answered it. *)
Lemma call_settles c tr1 d tr2 :
  (∃ o, traces done_log (call_program c) (tr1 ++ d :: tr2) o) →
  match d with
  | DRelease _ => ∃ sent, spent sent = false ∧ sent_told tr1 sent
  | DConsume _ => ∃ sent, spent sent = true ∧ sent_told tr1 sent
  | _ => True
  end.
Proof.
  intros (o & n & Hr).
  assert (∃ self pool requests row submission held q,
    steps (exec_step (StoreError:=StoreError) self pool requests row submission true held)
      x_start (tr1 ++ d :: tr2) q) as (self & pool & requests & row & submission & held & q & Hs).
  { destruct c as [self plan settlement|self pool plan settlement]; simpl in Hr;
      apply runs_bind in Hr as [[Hr _]|(r & u & v & Heq & Hr & [-> _]%runs_ret)];
      try (rewrite app_nil_r in Heq; rewrite <- Heq in Hr);
      first [apply execute_follows in Hr|apply unwind_follows in Hr];
      destruct Hr as (q & Hs & _); by repeat eexists. }
  apply steps_split in Hs as (q1 & H1' & H2'). apply exec_sent in H1'.
  inversion H2' as [|? ? q2 ? ? Hst _]; subst. inversion Hst; subst; try done; by eexists.
Qed.

(** Its enqueueing, on the desk. *)
Lemma call_answered calls before after who cs1 s r e cs2 :
  history calls (before ++ after) → called who before = cs1 ++ e ++ cs2 →
  traces call_log (enqueue s) e (Some r) →
  (∀ s, OSend s true ∉ cs1) → (∀ s, OSend s true ∉ cs2) →
  (∀ s, ¬ handed before who s) ∧ r = Err Closed ∨ ∃ s between, answered before who s between r.
Proof.
  intros [[d Hd] _ Hw] Hc He%enqueue_runs H1' H2'. apply steps_split in Hd as (d1 & Hd & _).
  destruct He as [[-> ->]|(a & -> & ->)].
  { left. split; [|done]. intros s'. unfold handed. rewrite Hc, !elem_of_app.
    intros [?|[?%list_elem_of_singleton|?]]; [by eapply H1'|done|by eapply H2']. }
  right. assert (called who before = (cs1 ++ [OSend s true]) ++ OAnswer a :: cs2) as Hc'.
  { rewrite Hc. by simplify_list_eq. }
  apply omap_splits in Hc' as (h1 & act & h2 & -> & Hh1 & Hact & _).
  destruct act as [w o|o]; [|done]. simpl in Hact. case_decide; [|done]. simplify_eq.
  apply steps_split in Hd as (d2 & Hd2 & Hd). inversion Hd as [|? ? d3 ? ? Hstep _]; subst.
  apply desked_steps in Hd2 as Hdesk.
  2: { eapply (worker_prefix h1). by rewrite <- app_assoc in Hw. }
  inversion Hstep as [| | |d0 who' r' Ha|d0 who' Hno|d0 a0 Hal]; subst; [|exfalso|done].
  - destruct (dd_answers _ _ Hdesk _ _ Ha) as (s' & between & Hans). exists s', between.
    by apply answered_app.
  - apply Hno, (dd_holds _ _ Hdesk). unfold called. by rewrite Hh1, waits_app.
Qed.

Lemma answered_told calls before after who s between r :
  history calls (before ++ after) → answered before who s between r →
  if spent (Some r) then may_have_landed between r else cannot_land between r.
Proof.
  intros [_ _ Hw] (w0 & w1 & Hs & Hwithin & _). apply worker_prefix in Hw as (o & n & Hr).
  rewrite Hs in Hr. apply run_queue_follows in Hr as (q & Hsteps & _).
  apply steps_split in Hsteps as (q0 & _ & Hsteps).
  inversion Hsteps as [|? ? q1 ? ? Hrec Hs1]; subst.
  apply steps_split in Hs1 as (q2 & Hb & Hs2). inversion Hs2 as [|? ? q3 ? ? Hresp _]; subst.
  assert (q1 = QDequeued s) as -> by by inversion Hrec.
  assert (q3 = QIdle) as -> by by inversion Hresp.
  by eapply answer_told.
Qed.

(** C3: a reservation follows its transaction. In every history of any number
    of calls of the executor and the worker of their queue, however they are
    scheduled and whatever the chain does: when a call releases its
    reservation, either it never handed the queue anything, or the worker has
    answered its submission, and by what the worker did and the chain said no
    transaction of it can land any more — the only one ever taken up failed or
    expired, or nothing but restores was sent. When a call consumes its
    reservation, its transaction succeeded, or is unresolved. *)
Theorem reservations_follow_the_chain (calls : nat → Call) (h before after : list Act) (who : nat)
    (d : Done) :
  history calls h → h = before ++ ACaller who (OOwn d) :: after →
  match d with
  | DRelease _ => (∀ s, ¬ handed before who s) ∨
      ∃ s between r, answered before who s between r ∧ cannot_land between r
  | DConsume _ => ∃ s between r, answered before who s between r ∧ may_have_landed between r
  | _ => True
  end.
Proof.
  intros Hh ->. pose proof Hh as [_ Hcallers _]. destruct (Hcallers who) as (o & n & Hr).
  apply linked_spelled in Hr as (tr & m & o' & Hm & Hsp).
  rewrite called_app in Hsp. simpl in Hsp. rewrite decide_True in Hsp by done.
  apply spelled_own in Hsp as (tr1 & tr2 & -> & Hsp).
  assert (∃ o, traces done_log (call_program (calls who)) (tr1 ++ d :: tr2) o) as Hsettle
    by (by exists o', m).
  apply call_settles in Hsettle.
  assert (∀ sent, sent_told tr1 sent →
    (∀ s, ¬ handed before who s) ∧ spent sent = false ∨
    ∃ s between r, answered before who s between r ∧
      if spent sent then may_have_landed between r else cannot_land between r) as Htold.
  { intros [r|] Hsent.
    - destruct Hsent as (t1 & s & t2 & -> & H1' & H2').
      apply spelled_enqueue in Hsp as (c1 & e & c2 & Hc & Hs1 & Hs2 & He).
      destruct (call_answered calls before _ who c1 s r e c2 Hh Hc He) as [[Hno ->]|(s' & b & Hans)];
        [intros s'; by eapply spelled_no_send..|by left|].
      right. exists s', b, r. split; [done|]. by eapply answered_told.
    - left. split; [|done]. intros s. by eapply spelled_no_send. }
  destruct d; try done; destruct Hsettle as (sent & Hsp' & Hsent);
    destruct (Htold sent Hsent) as [[Hno Hf]|Hyes]; rewrite ?Hsp' in *; auto; done.
Qed.
End handoff.

(** ** A sample history *)

(** The chain of the sample: everything is taken up, and fails. *)
Definition sample_net (X : Type) (e : NetE X) : X :=
  match e in NetE X return X with
  | RpcAccount => Ok (mkAccount 10 100)
  | RpcFeeStats => Ok (mkFeeStats 100 200 100)
  | RpcSimulate _ => Ok (mkSimulation 100 [] (SimSuccess (mkSimulatedCall TVoid [] () 50 None)))
  | RpcSend _ => Ok (mkSendStatus (mkTxHash [7]) 100 Pending)
  | RpcTransaction _ => Ok (Failed 101 102 true (Some 1205))
  | Sign tx => Ok (tx_operation tx, mkTxHash [7])
  | UnixNow => Some 1700000000
  | InstantNow => 0
  | Sleep _ => ()
  | ShutdownFlag => false
  | Receive => None
  | Respond _ => ()
  end.

Definition sample_config : TxConfig := tx_config_new 100 200 5.
Definition sample_reservation : Reservation := mkReservation {[ "XLM" := 5 ]} false.

Definition sample_call : Call :=
  CallUnwind (mkExecutor (Some ("GFILLER", sample_config)) false) "CPOOL"
    (mkUnwindPlan [Unwind.Repay "XLM" 5] {[ "XLM" := 5 ]} [] None) (Live sample_reservation).

Definition sample_answer : result QueueError TxOutcome :=
  Ok (TxFailed (mkTxHash [7]) 101 (Some 1205) true).

Definition sample_calls (X : Type) (e : CallE (StoreError:=()) X) : X :=
  match e in CallE X return X with
  | COwn _ e =>
      match e in ExecE X return X with
      | NetCall _ e => sample_net _ e
      | RecordFill _ => Ok 1
      | AttachFillTx _ _ => Ok true
      | Enqueue _ => Err Closed
      | ConsumeToken _ => ()
      | ReleaseToken _ => ()
      end
  | CSend _ => true
  | CAnswer => Some sample_answer
  end.

Definition sample_caller : list (CallObs (StoreError:=())) :=
  (drive call_log (λ X e w, (sample_calls X e, w)) 100 () (linked (call_program sample_call))).1.

(** The worker, which receives what the call hands it. *)
Definition sample_work (X : Type) (e : NetE X) (w : list Submission) : X * list Submission :=
  match e in NetE X return X → X * list Submission with
  | Receive => λ _, (head w, tail w)
  | _ => λ x, (x, w)
  end (sample_net X e).

(** What the call hands over: its one repayment, as the filler's submit. *)
Definition sample_submission : Submission :=
  mkSubmission ("CPOOL", "submit", [TAddress "GFILLER"; TAddress "GFILLER"; TAddress "GFILLER";
      TVec [TMap [(TSymbol "address", TAddress "XLM"); (TSymbol "amount", TI128 5);
                  (TSymbol "request_type", TU32 5)]]])
    Normal "unwind CPOOL" 2.

Definition sample_queue : io NetE () :=
  run_queue_with sample_config (10 ^ 20) (λ _, "") (λ _ _, "") default_policy.

Definition sample_worker : list Seen :=
  (drive seen sample_work 100 [sample_submission] sample_queue).1.

Definition sample_before : list (Act (StoreError:=())) :=
  map (ACaller 0) (take 4 sample_caller) ++ map AWorker (take 12 sample_worker) ++
  map (ACaller 0) (take 1 (drop 4 sample_caller)).

Definition sample_release : Act (StoreError:=()) :=
  ACaller 0 (OOwn (DRelease sample_reservation)).

Lemma called_caller who w (l : list (CallObs (StoreError:=()))) :
  called who (map (ACaller w) l) = if decide (w = who) then l else [].
Proof.
  induction l as [|o l IH]; simpl; [by case_decide|]. unfold called in *.
  case_decide; [by rewrite IH|done].
Qed.

Lemma called_worker who (l : list Seen) : called (StoreError:=()) who (map AWorker l) = [].
Proof. by induction l. Qed.

Lemma served_caller w (l : list (CallObs (StoreError:=()))) : served (map (ACaller w) l) = [].
Proof. by induction l. Qed.

Lemma served_map (l : list Seen) : served (StoreError:=()) (map AWorker l) = l.
Proof. induction l as [|o l IH]; [done|]. change (o :: served (StoreError:=()) (map AWorker l) = o :: l). by rewrite IH. Qed.

Lemma sample_desk : ∃ d, steps desk_step desk_new (sample_before ++ [sample_release]) d.
Proof.
  eexists. match goal with |- steps _ _ ?h _ => let h' := eval vm_compute in h in change h with h' end.
  repeat (eapply steps_cons; [first [apply d_alone; reflexivity|apply d_send|apply d_receive
    |apply d_respond|by apply d_answered]|]).
  apply steps_nil.
Qed.

Lemma sample_caller_splits :
  sample_caller = take 4 sample_caller ++ take 1 (drop 4 sample_caller) ++
    [OOwn (DRelease sample_reservation)].
Proof. vm_compute. reflexivity. Qed.

Lemma sample_caller_runs :
  ∃ n o, runs call_log n (linked (call_program sample_call)) sample_caller o.
Proof. eexists 100%nat, _. eapply drive_runs. apply surjective_pairing. Qed.

Lemma sample_worker_runs : ∃ n o, runs seen n sample_queue sample_worker o.
Proof. eexists 100%nat, _. eapply drive_runs. apply surjective_pairing. Qed.

Lemma sample_handoff :
  history sample_config (10 ^ 20) (λ _, "") (λ _ _, "") default_policy (λ _, sample_call)
    (sample_before ++ [sample_release]).
Proof.
  split; [apply sample_desk|..].
  - intros who. unfold sample_before. rewrite !called_app, !called_caller, called_worker.
    cbn [called omap list_omap by_caller sample_release].
    destruct (decide (0%nat = who)) as [<-|Hne]; [|exists None, 0%nat; apply runs_start].
    destruct sample_caller_runs as (n & o & Hr). rewrite sample_caller_splits in Hr. exists o, n.
    by rewrite <- app_assoc.
  - destruct sample_worker_runs as (n & o & Hr). exists None, n.
    rewrite <- (take_drop 12 sample_worker) in Hr. apply runs_prefix in Hr.
    unfold sample_before. rewrite !served_app, !served_caller, served_map.
    cbn [served omap list_omap by_worker sample_release app]. rewrite ?app_nil_r. exact Hr.
Qed.

Lemma reservations_follow_the_chain_witness :
  (∀ s, ¬ handed sample_before 0 s) ∨
  ∃ s between r, answered sample_before 0 s between r ∧ cannot_land between r.
Proof.
  exact (reservations_follow_the_chain sample_config (10 ^ 20) (λ _, "") (λ _ _, "") default_policy
    (λ _, sample_call) _ sample_before [] 0 (DRelease sample_reservation) sample_handoff eq_refl).
Defined.
