(* ===== verification/Filler.v ===== *)
(** * The filler ([src/filler.rs])

    One tick: per pool, the open auctions worth reading, their entries as the
    chain has them, one snapshot, a plan for each and the ones whose ledger has
    come carried out; then one unwind pass per pool that is owed one. What the
    run remembers is threaded through as [Pass]. *)

From S2P Require Import Prelude Metrics Notifier Fixed Reserve Position Auction Encode FillDelay Fill Unwind.
From S2P Require Import Inventory Io Chain Operations Decode Events Rpc Snapshot Store Submit.
From S2P Require Import Config Poller Tracker Executor.
Open Scope Z_scope.

(** ** Data *)

Definition WHOLE_AUCTION : Z := 100.
Definition UNWIND_BACKOFF_MAX_LEDGERS : Z := 64.
Definition UNWIND_SETBACK_ALERT : Z := 3.

Record FillerConfig : Type := mkFillerConfig {
  fc_dry_run : bool;
  fc_own_addresses : gset string;
  fc_hf_safety_multiplier : Z;
  fc_plan_iterations : Z;
  fc_replan_ledgers : Z;
  fc_replan_near_ledgers : Z;
  fc_high_fee_profit_threshold : Z;
  fc_inventory_refresh : Z;
  fc_native_asset : string;
}.

Record RecordedFill : Type := mkRecordedFill {
  rf_pool : string;
  rf_account : string;
  rf_start_ledger : Z;
  rf_bid : gmap string Z;
  rf_lot : gmap string Z;
}.
#[export] Instance recorded_fill_eq_dec : EqDecision RecordedFill.
Proof. solve_decision. Defined.
#[export] Instance recorded_fill_countable : Countable RecordedFill.
Proof.
  refine (inj_countable'
    (λ r, (rf_pool r, rf_account r, rf_start_ledger r, rf_bid r, rf_lot r))
    (λ '(pool, account, start, bid, lot), mkRecordedFill pool account start bid lot) _).
  by intros [].
Defined.

(** [RecordedFill::of_row] and [of_entry]. *)
Definition of_row (row : TrackedAuction) : RecordedFill :=
  mkRecordedFill (ta_pool row) (ta_account row) (ta_start_ledger row) (ta_bid row) (ta_lot row).
Definition of_entry (row : TrackedAuction) (auction : AuctionData) : RecordedFill :=
  mkRecordedFill (ta_pool row) (ta_account row) (block auction) (bid auction) (lot auction).

Record Setback : Type := mkSetback { sb_count : Z; sb_retry_at : Z }.

Record FillerState : Type := mkFillerState {
  last_planned : gmap (string * string) Z;
  recorded_dry_run : gset RecordedFill;
  counted_skips : gset (string * string * Z * SkipLabel);
  inventory_stale : bool;
  known_assets : gset string;
  covered_assets : gset string;
  unwind_pending : gset string;
  unwind_seeded : bool;
  leftovers_notified : gset string;
  unwind_setbacks : gmap string Setback;
  unwind_after : gmap string (option Z);
}.

(** [FillerState::default]. *)
Definition filler_state_default : FillerState :=
  mkFillerState ∅ ∅ ∅ false ∅ ∅ ∅ false ∅ ∅ ∅.

(** Assignments to one field. *)
Definition set_last_planned (v : gmap (string * string) Z) (s : FillerState) : FillerState :=
  mkFillerState v (recorded_dry_run s) (counted_skips s) (inventory_stale s) (known_assets s)
    (covered_assets s) (unwind_pending s) (unwind_seeded s) (leftovers_notified s)
    (unwind_setbacks s) (unwind_after s).
Definition set_recorded (v : gset RecordedFill) (s : FillerState) : FillerState :=
  mkFillerState (last_planned s) v (counted_skips s) (inventory_stale s) (known_assets s)
    (covered_assets s) (unwind_pending s) (unwind_seeded s) (leftovers_notified s)
    (unwind_setbacks s) (unwind_after s).
Definition set_counted (v : gset (string * string * Z * SkipLabel)) (s : FillerState) : FillerState :=
  mkFillerState (last_planned s) (recorded_dry_run s) v (inventory_stale s) (known_assets s)
    (covered_assets s) (unwind_pending s) (unwind_seeded s) (leftovers_notified s)
    (unwind_setbacks s) (unwind_after s).
Definition set_wallet (stale : bool) (known covered : gset string) (s : FillerState) : FillerState :=
  mkFillerState (last_planned s) (recorded_dry_run s) (counted_skips s) stale known covered
    (unwind_pending s) (unwind_seeded s) (leftovers_notified s) (unwind_setbacks s)
    (unwind_after s).
Definition set_pending (v : gset string) (seeded : bool) (s : FillerState) : FillerState :=
  mkFillerState (last_planned s) (recorded_dry_run s) (counted_skips s) (inventory_stale s)
    (known_assets s) (covered_assets s) v seeded (leftovers_notified s) (unwind_setbacks s)
    (unwind_after s).
Definition set_leftovers (v : gset string) (s : FillerState) : FillerState :=
  mkFillerState (last_planned s) (recorded_dry_run s) (counted_skips s) (inventory_stale s)
    (known_assets s) (covered_assets s) (unwind_pending s) (unwind_seeded s) v
    (unwind_setbacks s) (unwind_after s).
Definition set_setbacks (v : gmap string Setback) (s : FillerState) : FillerState :=
  mkFillerState (last_planned s) (recorded_dry_run s) (counted_skips s) (inventory_stale s)
    (known_assets s) (covered_assets s) (unwind_pending s) (unwind_seeded s)
    (leftovers_notified s) v (unwind_after s).
Definition set_after (v : gmap string (option Z)) (s : FillerState) : FillerState :=
  mkFillerState (last_planned s) (recorded_dry_run s) (counted_skips s) (inventory_stale s)
    (known_assets s) (covered_assets s) (unwind_pending s) (unwind_seeded s)
    (leftovers_notified s) (unwind_setbacks s) v.

(** [FillerState::forget] and [closed]. *)
Definition forget (pool account : string) (self : FillerState) : FillerState :=
  set_last_planned (delete (pool, account) (last_planned self)) self.
Definition closed (pool account : string) (self : FillerState) : FillerState :=
  let self := forget pool account self in
  set_recorded (filter (λ recorded, rf_pool recorded ≠ pool ∨ rf_account recorded ≠ account)
                  (recorded_dry_run self)) self.

(** [FillerState::prune_recorded]. *)
Definition open_starts (rows : list TrackedAuction) : gmap string Z :=
  foldl (λ m row, if bool_decide (ta_auction_type row = UserLiquidation)
                  then <[ta_account row := ta_start_ledger row]> m else m) ∅ rows.

Definition kept (pool : string) (open : gmap string Z) (recorded_pool account : string)
    (start_ledger : Z) : bool :=
  negb (bool_decide (recorded_pool = pool)) ||
  match open !! account with Some start => start <=? start_ledger | None => false end.

Definition prune_recorded (pool : string) (rows : list TrackedAuction) (self : FillerState)
  : FillerState :=
  let open := open_starts rows in
  set_counted
    (filter (λ k : string * string * Z * SkipLabel, kept pool open k.1.1.1 k.1.1.2 k.1.2 = true)
       (counted_skips self))
    (set_recorded
       (filter (λ r, kept pool open (rf_pool r) (rf_account r) (rf_start_ledger r) = true)
          (recorded_dry_run self)) self).

Record TickSummary : Type := mkTickSummary {
  ts_planned : Z;
  ts_executed : Z;
  ts_skipped : Z;
  ts_closed : Z;
  ts_unwound : Z;
}.
Definition tick_summary_default : TickSummary := mkTickSummary 0 0 0 0 0.

(** [due]. *)
Definition due (row : TrackedAuction) (planned_at : option Z) (tick : LedgerTick)
    (config : FillerConfig) : bool :=
  match ta_fill_ledger row, planned_at with
  | Some fill_ledger, Some planned_at =>
      (u32_saturating_sub fill_ledger (lt_sequence tick) <=? fc_replan_near_ledgers config) ||
      (fc_replan_ledgers config <=? u32_saturating_sub (lt_sequence tick) planned_at)
  | _, _ => true
  end.

(** [skip_label]. *)
Definition skip_label (reason : FillSkip) : SkipLabel :=
  match reason with
  | Unprofitable => LabelUnprofitable
  | TooManyPositions | Fill.Health => LabelHealth
  | Unfunded => LabelUnfunded
  | SupplyCapped => LabelSupplyCapped
  end.

(** [nothing_to_unwind]. *)
Definition nothing_to_unwind (positions : Positions) : bool :=
  bool_decide (collateral positions = ∅) && bool_decide (liabilities positions = ∅).

Record Pass : Type := mkPass {
  pa_tick : LedgerTick;
  pa_state : FillerState;
  pa_summary : TickSummary;
}.

Record PoolPass : Type := mkPoolPass {
  pp_pool : PoolConfig;
  pp_earliest_ledger : Z;
  pp_snapshot : PoolSnapshot;
  pp_reserves : gmap Z Reserve;
  pp_filler : Positions;
  pp_supply_allowed : bool;
  pp_health_floor : Z;
}.

Section filler.
Context `{ScDecode} `{Json}.

Inductive FillerNote : Type :=
| UnfundedFill (pool account : string)
| FillConfirmed (pool account : string) (ledger : Z)
| FillFailed (pool account : string) (ledger : Z)
| FillDropped (pool account : string) (error : ChainError)
| UnwindLeftovers (pool : string) (assets : list string)
| UnwindStuck (pool filler : string) (count backoff : Z).

(** ** The calls *)

(** The chain's reads, the store, the executor's calls, the wallet ledger, the
    shutdown flag, the tick watch, the notifier. *)
Variant FillerE : Type → Type :=
| FRead (X : Type) (e : ReadE X) : FillerE X
| FStore (A : Type) (q : StoreE A) : FillerE (result StoreError A)
| FExec (X : Type) (e : ExecE (StoreError:=StoreError) X) : FillerE X
| FAvailable : FillerE (gmap string Z)
| FReserve (claims : gmap string Z) : FillerE (result InventoryError Reservation)
| FRecordBalances (balances : gmap string Z) : FillerE ()
| FStale (max_age : Z) : FillerE bool
| FShutdown : FillerE bool
| FChanged : FillerE bool
| FTick : FillerE LedgerTick
| FNotify (n : FillerNote) : FillerE Delivery.

Inductive FillerObs : Type :=
| GRead (r : Read)
| GStore (A : Type) (q : StoreE A) (r : result StoreError A)
| GExec (d : Done (StoreError:=StoreError))
| GAvailable (wallet : gmap string Z)
| GReserve (claims : gmap string Z) (r : result InventoryError Reservation)
| GRecordBalances (balances : gmap string Z)
| GStale (b : bool)
| GShutdown (b : bool)
| GChanged (b : bool)
| GTick (tick : LedgerTick)
| GNotify (n : FillerNote) (d : Delivery).

Definition filler_log (X : Type) (e : FillerE X) : X → FillerObs :=
  match e in FillerE X return X → FillerObs with
  | FRead _ e => λ x, GRead (read _ e x)
  | FStore _ q => GStore _ q
  | FExec _ e => λ x, GExec (done_log _ e x)
  | FAvailable => GAvailable
  | FReserve claims => GReserve claims
  | FRecordBalances balances => λ _, GRecordBalances balances
  | FStale _ => GStale
  | FShutdown => GShutdown
  | FChanged => GChanged
  | FTick => GTick
  | FNotify n => GNotify n
  end.

(** ** What a tick carries

    A program over a [Pass] it changes, of which only the store's failures are
    errors. *)

Definition flow (A : Type) : Type := Pass → io FillerE (Pass * result StoreError A).

Definition done {A : Type} (a : A) : flow A := λ p, Ret (p, Ok a).
Definition and_then {A B : Type} (m : flow A) (k : A → flow B) : flow B := λ p,
  await (p, r) := m p in
  match r with Ok a => k a p | Err e => Ret (p, Err e) end.
Notation "'run!' x := m 'in' k" := (and_then m (fun x => k))
  (at level 10, x pattern, m at level 200, k at level 200,
   format "'[v' 'run!'  x  :=  m  'in' '/' k ']'").

Definition lift {A : Type} (m : io FillerE A) : flow A := λ p, await a := m in Ret (p, Ok a).
Definition ask {A : Type} (e : FillerE A) : flow A := lift (perform e).
Definition filler_store {A : Type} (q : StoreE A) : flow A := λ p,
  await r := perform (FStore A q) in Ret (p, r).
Definition get_state : flow FillerState := λ p, Ret (p, Ok (pa_state p)).
Definition get_tick : flow LedgerTick := λ p, Ret (p, Ok (pa_tick p)).
Definition change (f : FillerState → FillerState) : flow () := λ p,
  Ret (mkPass (pa_tick p) (f (pa_state p)) (pa_summary p), Ok ()).
Definition count (f : TickSummary → TickSummary) : flow () := λ p,
  Ret (mkPass (pa_tick p) (pa_state p) (f (pa_summary p)), Ok ()).

(** [summary.planned += 1], and so on. *)
Definition one_planned (s : TickSummary) : TickSummary :=
  mkTickSummary (ts_planned s + 1) (ts_executed s) (ts_skipped s) (ts_closed s) (ts_unwound s).
Definition one_executed (s : TickSummary) : TickSummary :=
  mkTickSummary (ts_planned s) (ts_executed s + 1) (ts_skipped s) (ts_closed s) (ts_unwound s).
Definition one_skipped (s : TickSummary) : TickSummary :=
  mkTickSummary (ts_planned s) (ts_executed s) (ts_skipped s + 1) (ts_closed s) (ts_unwound s).
Definition one_closed (s : TickSummary) : TickSummary :=
  mkTickSummary (ts_planned s) (ts_executed s) (ts_skipped s) (ts_closed s + 1) (ts_unwound s).
Definition one_unwound (s : TickSummary) : TickSummary :=
  mkTickSummary (ts_planned s) (ts_executed s) (ts_skipped s) (ts_closed s) (ts_unwound s + 1).

(** [Filler]: its pools, its configuration and its executor. *)
Record Filler : Type := mkFiller {
  fl_pools : list PoolConfig;
  fl_config : FillerConfig;
  fl_executor : Executor;
}.

Context (self : Filler).

(** [Executor::filler]. *)
Definition executor_filler : option string := fst <$> ex_submitter (fl_executor self).

(** ** Which rows *)

(** [Filler::count_skip], the metric aside. *)
Definition count_skip (row : TrackedAuction) (start_ledger : Z) (reason : SkipLabel)
    (s : FillerState) : FillerState :=
  set_counted ({[ (ta_pool row, ta_account row, start_ledger, reason) ]} ∪ counted_skips s) s.

(** [BTreeMap::keys]. *)
Definition keys (m : gmap string Z) : list string := map fst (bt_iter m).

(** [Filler::considered]. *)
Definition considered (pool : PoolConfig) (tick : LedgerTick) (row : TrackedAuction)
    (s : FillerState) : FillerState * bool :=
  if negb (bool_decide (ta_auction_type row = UserLiquidation)) then (s, false)
  else if bool_decide (ta_account row = cf_address pool) ||
          bool_decide (ta_account row ∈ fc_own_addresses (fl_config self)) then (s, false)
  else if negb (supports pool (keys (ta_bid row)) (keys (ta_lot row))) then
    (count_skip row (ta_start_ledger row) LabelUnsupportedAssets s, false)
  else if bool_decide (of_row row ∈ recorded_dry_run s) then (s, false)
  else (s, due row (last_planned s !! (ta_pool row, ta_account row)) tick (fl_config self)).

(** [rows.into_iter().filter(considered).collect()]. *)
Fixpoint consider_all (pool : PoolConfig) (tick : LedgerTick) (rows : list TrackedAuction)
    (s : FillerState) : FillerState * list TrackedAuction :=
  match rows with
  | [] => (s, [])
  | row :: rows =>
      let '(s, keep) := considered pool tick row s in
      let '(s, candidates) := consider_all pool tick rows s in
      (s, if keep then row :: candidates else candidates)
  end.

Definition candidates_of (pool : PoolConfig) (rows : list TrackedAuction)
  : flow (list TrackedAuction) := λ p,
  let '(s, candidates) := consider_all pool (pa_tick p) rows (pa_state p) in
  Ret (mkPass (pa_tick p) s (pa_summary p), Ok candidates).

(** [Filler::read_entries]. *)
Fixpoint read_entries (pool : PoolConfig) (candidates : list TrackedAuction)
  : flow (list (TrackedAuction * AuctionData)) :=
  match candidates with
  | [] => done []
  | row :: candidates =>
      run! stop := ask FShutdown in
      if stop : bool then done []
      else
        run! found := lift (translate FRead
                             (read_auction (cf_address pool) (ta_account row) UserLiquidation)) in
        match found with
        | Ok (Some (_, auction)) =>
            run! live := read_entries pool candidates in
            done ((row, auction) :: live)
        | Ok None =>
            run! _ := filler_store (QDeleteAuction (ta_pool row) (ta_account row) (ta_auction_type row)) in
            run! _ := change (closed (ta_pool row) (ta_account row)) in
            run! _ := count one_closed in
            read_entries pool candidates
        | Err _ => read_entries pool candidates
        end
  end.

(** ** The pool *)

(** [read_balances] ([inventory.rs]). *)
Fixpoint read_balances (pool account : string) (assets : list string) (balances : gmap string Z)
  : io ReadE (result ChainError (gmap string Z)) :=
  match assets with
  | [] => Ret (Ok balances)
  | asset :: assets =>
      await? (_, amount) := read_balance asset account in
      read_balances pool account assets (<[asset := amount]> balances)
  end.

(** [Filler::refresh_inventory]. *)
Definition refresh_inventory (pool : PoolConfig) (snapshot : PoolSnapshot) : flow () :=
  match executor_filler with
  | None => done ()
  | Some filler =>
      let named := dom (ps_asset_index snapshot) in
      run! _ := change (λ s, set_wallet (inventory_stale s)
                 (known_assets s ∪ named ∪ {[fc_native_asset (fl_config self)]})
                 (covered_assets s) s) in
      run! s := get_state in
      run! wanted := (if inventory_stale s || negb (bool_decide (named ⊆ covered_assets s))
                     then done true else ask (FStale (fc_inventory_refresh (fl_config self)))) in
      if negb wanted then done ()
      else
        let assets := known_assets s in
        run! read := lift (translate FRead
                            (read_balances (cf_address pool) filler (set_iter assets) ∅)) in
        match read with
        | Ok balances =>
            run! _ := ask (FRecordBalances balances) in
            change (λ s, set_wallet false (known_assets s) assets s)
        | Err _ => done ()
        end
  end.

(** [Filler::pool_context]. *)
Definition pool_context (pool : PoolConfig) (snapshot : PoolSnapshot) (tick : LedgerTick)
  : option PoolPass :=
  match ps_asset_index snapshot !! cf_primary_asset pool,
        u32_checked_add (lt_sequence tick) 1,
        health_floor (cf_min_health_factor pool) (fc_hf_safety_multiplier (fl_config self)),
        accrued_reserves snapshot (valued_at snapshot (lt_close_time tick)) with
  | Some index, Some earliest_ledger, Ok health_floor, Ok reserves =>
      let supply_allowed :=
        (pool_status_code (pc_status (pi_config (ps_instance snapshot))) <=? pool_status_code OnIce) &&
        match ps_reserves snapshot !! index with
        | Some reserve => rc_enabled (rs_config reserve)
        | None => false
        end in
      let filler := default empty_positions
        (executor_filler ≫= λ address, ps_positions snapshot !! address) in
      Some (mkPoolPass pool earliest_ledger snapshot reserves filler supply_allowed health_floor)
  | _, _, _, _ => None
  end.

(** [Filler::terms]. *)
Definition terms (context : PoolPass) (auction : AuctionData) : FillTerms :=
  let config := pi_config (ps_instance (pp_snapshot context)) in
  let pool := pp_pool context in
  mkFillTerms (pc_min_collateral config) (pc_max_positions config) (pp_supply_allowed context)
    (cf_primary_asset pool) (pp_health_floor context)
    (profit_bps pool (keys (bid auction)) (keys (lot auction))) (cf_force_fill pool)
    (cf_fill_objective pool) (fc_plan_iterations (fl_config self)).

(** [Filler::plan]'s inputs. *)
Definition inputs (context : PoolPass) (account : string) (auction : AuctionData)
    (max_percent : FillPercent) (wallet : gmap string Z) : FillInputs :=
  let snapshot := pp_snapshot context in
  mkFillInputs (pp_reserves context) (ps_asset_index snapshot) (ps_prices snapshot)
    (pp_filler context) (default empty_positions (ps_positions snapshot !! account)) wallet
    auction (pp_earliest_ledger context) max_percent.

(** [Filler::plan]. *)
Definition plan (context : PoolPass) (account : string) (auction : AuctionData)
    (max_percent : FillPercent) : flow (result MathError PlannedFill) :=
  run! wallet := ask FAvailable in
  done (plan_fill (terms context auction) (inputs context account auction max_percent wallet)).

(** ** One auction *)

(** [Filler::clear_plan]. *)
Definition clear_plan (row : TrackedAuction) : flow () :=
  run! _ := filler_store (QSetFillPlan (ta_pool row) (ta_account row) (ta_auction_type row) None) in
  done ().

(** [Filler::drafted]. *)
Definition drafted (context : PoolPass) (row : TrackedAuction) (auction : AuctionData)
    (max_percent : FillPercent) : flow (option FillDraft) :=
  run! planned := plan context (ta_account row) auction max_percent in
  match planned with
  | Ok (Fill draft) => done (Some draft)
  | Ok (Skip reason) =>
      run! _ := change (count_skip row (block auction) (skip_label reason)) in
      run! _ := (match reason with
                 | Unfunded =>
                     run! _ := ask (FNotify (UnfundedFill (ta_pool row) (ta_account row))) in
                     done ()
                 | _ => done ()
                 end) in
      run! _ := clear_plan row in
      run! _ := count one_skipped in
      done None
  | Err _ => done None
  end.

(** [Filler::write_plan]. *)
Definition write_plan (row : TrackedAuction) (draft : FillDraft) : flow bool :=
  run! written := filler_store (QSetFillPlan (ta_pool row) (ta_account row) (ta_auction_type row)
                                  (Some (fd_fill_ledger draft, fd_percent draft))) in
  if negb written then done false
  else
    run! tick := get_tick in
    run! _ := change (λ s, set_last_planned
                 (<[(ta_pool row, ta_account row) := lt_sequence tick]> (last_planned s)) s) in
    run! _ := count one_planned in
    done true.

(** [Filler::priority]. *)
Definition priority (context : PoolPass) (draft : FillDraft) : result MathError Priority :=
  let? threshold := to_oracle_units (fc_high_fee_profit_threshold (fl_config self))
                      (op_scalar (ps_prices (pp_snapshot context))) in
  Ok (if threshold <=? fd_est_profit draft then High else Normal).

(** A fill, or an unwind, whose skip is counted. *)
Definition skipped_as (row : TrackedAuction) (start_ledger : Z) (label : SkipLabel) : flow () :=
  run! _ := change (count_skip row start_ledger label) in
  count one_skipped.

(** The settlement the mode demands, or why there is none. *)
Definition settlement_for (spend : gmap string Z) : flow (result InventoryError Settlement) :=
  if fc_dry_run (fl_config self) then done (Ok DryRun)
  else
    run! reserved := ask (FReserve spend) in
    done (let? reservation := reserved in Ok (Live reservation)).

(** [Filler::execute_once]: [queue] is whether a queue was given. *)
Definition execute_once (context : PoolPass) (row : TrackedAuction) (start_ledger : Z)
    (draft : FillDraft) (queue : bool) : flow (option ExecOutcome) :=
  match priority context draft with
  | Err _ =>
      run! _ := skipped_as row start_ledger LabelContractError in
      done None
  | Ok priority =>
      run! settlement := settlement_for (fd_spend draft) in
      match settlement with
      | Err _ =>
          run! _ := skipped_as row start_ledger LabelUnfunded in
          done None
      | Ok settlement =>
          let plan := mkFillPlan (ta_pool row) (ta_account row) draft priority in
          run! executed := lift (translate FExec (execute (fl_executor self) plan settlement queue)) in
          match executed with
          | Ok outcome => done (Some outcome)
          | Err (ExStore error) => λ p, Ret (p, Err error)
          | Err (ExQueue (QueueChain error)) =>
              run! _ := ask (FNotify (FillDropped (ta_pool row) (ta_account row) error)) in
              done None
          | Err _ => done None
          end
      end
  end.

(** [clear_setback]. *)
Definition clear_setback (pool : string) (s : FillerState) : FillerState :=
  set_setbacks (delete pool (unwind_setbacks s)) s.

(** A submission that landed, or may have: at a ledger, or at none known. *)
Definition landed_at (submission : option TxOutcome) : option (option Z) :=
  match submission with
  | Some (TxSucceeded _ ledger _) => Some (Some ledger)
  | Some (TxUnknown _ _ _) => Some None
  | _ => None
  end.

Definition owe_unwind (pool : string) (at_ : option Z) (s : FillerState) : FillerState :=
  let s := set_wallet true (known_assets s) (covered_assets s) s in
  let s := set_pending ({[pool]} ∪ unwind_pending s) (unwind_seeded s) s in
  clear_setback pool (set_after (<[pool := at_]> (unwind_after s)) s).

(** [Filler::note_recorded], metrics aside. *)
Definition note_recorded (row : TrackedAuction) (auction : AuctionData) (recorded : FillRecorded)
  : flow bool :=
  run! _ := count one_executed in
  run! _ := (if fr_recorded_dry_run recorded
             then change (λ s, set_recorded ({[of_entry row auction]} ∪ recorded_dry_run s) s)
             else done ()) in
  run! _ := (match fr_submission recorded with
             | Some (TxSucceeded _ ledger _) =>
                 run! _ := ask (FNotify (FillConfirmed (ta_pool row) (ta_account row) ledger)) in done ()
             | Some (TxFailed _ ledger _ _) =>
                 run! _ := ask (FNotify (FillFailed (ta_pool row) (ta_account row) ledger)) in done ()
             | _ => done ()
             end) in
  match landed_at (fr_submission recorded) with
  | Some at_ =>
      run! _ := change (owe_unwind (ta_pool row) at_) in
      done true
  | None => done false
  end.

(** The plan is dropped, to be made afresh. *)
Definition drop_plan (row : TrackedAuction) : flow () :=
  run! _ := clear_plan row in
  run! _ := change (forget (ta_pool row) (ta_account row)) in
  count one_skipped.

(** [Filler::replan]. *)
Definition replan (context : PoolPass) (row : TrackedAuction) (auction : AuctionData)
    (refused : FillDraft) (queue : bool) : flow bool :=
  match fill_percent_try_from (X:=XdrLibraryError) (Z.max (fp_get (fd_percent refused) / 2) 1) with
  | Err _ => run! _ := count one_skipped in done false
  | Ok half =>
      run! drafted := drafted context row auction half in
      match drafted with
      | None => done false
      | Some draft =>
          run! written := write_plan row draft in
          if negb written then done false
          else if pp_earliest_ledger context <? fd_fill_ledger draft then done false
          else
            run! outcome := execute_once context row (block auction) draft queue in
            match outcome with
            | None => done false
            | Some (Recorded recorded) => note_recorded row auction recorded
            | Some ExecStale => run! _ := drop_plan row in done false
            | Some (Replan _) | Some (ExecRefused _) =>
                run! _ := skipped_as row (block auction) LabelContractError in
                done false
            end
      end
  end.

(** [Filler::execute_draft]. *)
Definition execute_draft (context : PoolPass) (row : TrackedAuction) (auction : AuctionData)
    (draft : FillDraft) (queue : bool) : flow bool :=
  run! outcome := execute_once context row (block auction) draft queue in
  match outcome with
  | None => done false
  | Some (Recorded recorded) => note_recorded row auction recorded
  | Some (Replan _) => replan context row auction draft queue
  | Some (ExecRefused _) =>
      run! _ := skipped_as row (block auction) LabelContractError in
      done false
  | Some ExecStale => run! _ := drop_plan row in done false
  end.

(** [Filler::plan_and_act]. *)
Definition plan_and_act (context : PoolPass) (row : TrackedAuction) (auction : AuctionData)
    (may_execute queue : bool) : flow bool :=
  match fill_percent_try_from (X:=XdrLibraryError) WHOLE_AUCTION with
  | Err _ => done false
  | Ok whole =>
      run! drafted := drafted context row auction whole in
      match drafted with
      | None => done false
      | Some draft =>
          run! written := write_plan row draft in
          if negb written then done false
          else if negb may_execute || (pp_earliest_ledger context <? fd_fill_ledger draft)
          then done false
          else execute_draft context row auction draft queue
      end
  end.

(** ** One pool *)

(** The loop of [Filler::tick_pool] over the live auctions. *)
Fixpoint walk_live (context : PoolPass) (live : list (TrackedAuction * AuctionData))
    (may_execute queue : bool) : flow () :=
  match live with
  | [] => done ()
  | (row, auction) :: live =>
      run! stop := ask FShutdown in
      if stop : bool then done ()
      else
        run! s := get_state in
        if bool_decide (of_entry row auction ∈ recorded_dry_run s)
        then walk_live context live may_execute queue
        else
          run! landed := plan_and_act context row auction may_execute queue in
          if landed : bool then done () else walk_live context live may_execute queue
  end.

(** The accounts of a pool's snapshot: the filler's and the borrowers', sorted
    and once each. *)
Definition snapshot_accounts (live : list (TrackedAuction * AuctionData)) : list string :=
  set_iter (list_to_set (option_list executor_filler ++ map (λ e, ta_account e.1) live)).

(** [Filler::tick_pool]. *)
Definition tick_pool (pool : PoolConfig) (may_execute queue : bool) : flow () :=
  run! rows := filler_store (QOpenAuctions (cf_address pool)) in
  run! _ := change (prune_recorded (cf_address pool) rows) in
  run! candidates := candidates_of pool rows in
  match candidates with
  | [] => done ()
  | _ =>
      run! live := read_entries pool candidates in
      match live with
      | [] => done ()
      | _ =>
          run! stop := ask FShutdown in
          if stop : bool then done ()
          else
            run! snapshot := lift (translate FRead
                                     (Snapshot.snapshot (cf_address pool) (snapshot_accounts live))) in
            match snapshot with
            | Err _ => done ()
            | Ok snapshot =>
                run! _ := refresh_inventory pool snapshot in
                run! tick := get_tick in
                match pool_context pool snapshot tick with
                | None => done ()
                | Some context => walk_live context live may_execute queue
                end
            end
      end
  end.

(** ** The unwind pass *)

(** The pool is done: nothing is owed it. *)
Definition unwound (pool : string) (s : FillerState) : FillerState :=
  let s := set_pending (unwind_pending s ∖ {[pool]}) (unwind_seeded s) s in
  let s := set_leftovers (leftovers_notified s ∖ {[pool]}) s in
  clear_setback pool (set_after (delete pool (unwind_after s)) s).

(** No longer pending, and no run of setbacks open. *)
Definition no_longer_pending (pool : string) (s : FillerState) : FillerState :=
  clear_setback pool (set_pending (unwind_pending s ∖ {[pool]}) (unwind_seeded s) s).

(** [Filler::note_idle]. *)
Definition note_idle (pool : string) (plan : UnwindPlan) : flow () :=
  run! _ := change (no_longer_pending pool) in
  match up_remaining_liabilities plan with
  | [] => change (λ s, set_leftovers (leftovers_notified s ∖ {[pool]}) s)
  | assets =>
      run! s := get_state in
      if bool_decide (pool ∈ leftovers_notified s) then done ()
      else
        run! _ := change (λ s, set_leftovers ({[pool]} ∪ leftovers_notified s) s) in
        run! delivery := ask (FNotify (UnwindLeftovers pool assets)) in
        match delivery with
        | DeliveryDropped => change (λ s, set_leftovers (leftovers_notified s ∖ {[pool]}) s)
        | _ => done ()
        end
  end.

(** [u32::saturating_pow] of two. *)
Definition pow2_saturating (exponent : Z) : Z := Z.min (2 ^ exponent) u32_max.

Definition backoff (count : Z) : Z := Z.min (pow2_saturating count) UNWIND_BACKOFF_MAX_LEDGERS.

(** The setback after one more pass that moved nothing. *)
Definition next_setback (tick : LedgerTick) (previous : option Setback) : Setback :=
  let count := u32_saturating_add (default 0 (sb_count <$> previous)) 1 in
  mkSetback count (u32_saturating_add (lt_sequence tick) (backoff count)).

(** [Filler::note_setback]. *)
Definition note_setback (pool filler : string) : flow () :=
  run! tick := get_tick in
  run! s := get_state in
  let setback := next_setback tick (unwind_setbacks s !! pool) in
  run! _ := change (λ s, set_setbacks (<[pool := setback]> (unwind_setbacks s)) s) in
  if sb_count setback =? UNWIND_SETBACK_ALERT then
    run! _ := ask (FNotify (UnwindStuck pool filler (sb_count setback) (backoff (sb_count setback)))) in
    done ()
  else done ().

(** An unwind that landed, or may have. *)
Definition unwind_landed (pool : string) (at_ : option Z) (s : FillerState) : FillerState :=
  let s := set_wallet true (known_assets s) (covered_assets s) s in
  clear_setback pool (set_after (<[pool := at_]> (unwind_after s)) s).

(** [Filler::note_unwound]. *)
Definition note_unwound (pool filler : string) (outcome : UnwindOutcome) : flow () :=
  match outcome with
  | Planned _ =>
      if fc_dry_run (fl_config self) then
        run! _ := change (no_longer_pending pool) in
        count one_unwound
      else change (clear_setback pool)
  | Submitted submitted =>
      match landed_at (Some submitted) with
      | Some at_ =>
          run! _ := change (unwind_landed pool at_) in
          count one_unwound
      | None => note_setback pool filler
      end
  | UnwindRefused _ | UnwindStale => note_setback pool filler
  end.

(** [Filler::execute_unwind]. *)
Definition execute_unwind (pool filler : string) (plan : UnwindPlan) (queue : bool) : flow () :=
  run! settlement := settlement_for (up_spend plan) in
  match settlement with
  | Err _ => count one_skipped
  | Ok settlement =>
      run! executed := lift (translate FExec (unwind (fl_executor self) pool plan settlement queue)) in
      match executed with
      | Ok outcome => note_unwound pool filler outcome
      | Err (ExStore error) => λ p, Ret (p, Err error)
      | Err _ => note_setback pool filler
      end
  end.

(** Whether a snapshot holds the submission a pool's pass is owed. *)
Definition holds_submission (snapshot : PoolSnapshot) (owed : option (option Z)) : bool :=
  match owed with
  | None => true
  | Some (Some ledger) => ledger <=? ps_ledger snapshot
  | Some None => false
  end.

Definition unwind_terms_of (pool : PoolConfig) (snapshot : PoolSnapshot) : UnwindTerms :=
  mkUnwindTerms (cf_primary_asset pool) (cf_min_primary_collateral pool)
    (cf_min_health_factor pool) (pc_min_collateral (pi_config (ps_instance snapshot))).

Definition unwind_inputs_of (snapshot : PoolSnapshot) (reserves : gmap Z Reserve)
    (positions : Positions) (wallet : gmap string Z) : UnwindInputs :=
  mkUnwindInputs reserves (ps_asset_index snapshot) (ps_prices snapshot) positions wallet.

(** [Filler::unwind_pool]. *)
Definition unwind_pool (pool : PoolConfig) (filler : string) (may_execute queue : bool) : flow () :=
  run! snapshot := lift (translate FRead (Snapshot.snapshot (cf_address pool) [filler])) in
  match snapshot with
  | Err _ => done ()
  | Ok snapshot =>
      run! s := get_state in
      if negb (holds_submission snapshot (unwind_after s !! cf_address pool)) then done ()
      else
        let positions := default empty_positions (ps_positions snapshot !! filler) in
        if nothing_to_unwind positions then change (unwound (cf_address pool))
        else
          run! _ := refresh_inventory pool snapshot in
          run! tick := get_tick in
          match accrued_reserves snapshot (valued_at snapshot (lt_close_time tick)) with
          | Err _ => done ()
          | Ok reserves =>
              run! wallet := ask FAvailable in
              match plan_unwind (unwind_terms_of pool snapshot)
                      (unwind_inputs_of snapshot reserves positions wallet) with
              | Err _ => done ()
              | Ok plan =>
                  if is_idle plan then note_idle (cf_address pool) plan
                  else if negb may_execute then done ()
                  else execute_unwind (cf_address pool) filler plan queue
              end
          end
  end.

(** [Filler::unwind_passes]: the loop over the pools. *)
Fixpoint unwind_each (pools : list PoolConfig) (filler : string) (may_execute queue : bool)
  : flow () :=
  match pools with
  | [] => done ()
  | pool :: pools =>
      run! stop := ask FShutdown in
      if stop : bool then done ()
      else
        run! s := get_state in
        run! tick := get_tick in
        let backing_off := match unwind_setbacks s !! cf_address pool with
                           | Some setback => lt_sequence tick <? sb_retry_at setback
                           | None => false
                           end in
        if bool_decide (cf_address pool ∉ unwind_pending s) || backing_off
        then unwind_each pools filler may_execute queue
        else
          run! _ := unwind_pool pool filler may_execute queue in
          unwind_each pools filler may_execute queue
  end.

Definition unwind_passes (may_execute queue : bool) : flow () :=
  match executor_filler with
  | None =>
      change (λ s, if bool_decide (unwind_pending s = ∅) then s
                   else set_after ∅ (set_pending ∅ (unwind_seeded s) s))
  | Some filler => unwind_each (fl_pools self) filler may_execute queue
  end.

(** ** The tick *)

(** [Filler::tick]: the loop over the pools. *)
Fixpoint tick_each (pools : list PoolConfig) (may_execute queue : bool) : flow () :=
  match pools with
  | [] => done ()
  | pool :: pools =>
      run! stop := ask FShutdown in
      if stop : bool then done ()
      else
        run! _ := tick_pool pool may_execute queue in
        tick_each pools may_execute queue
  end.

Definition seed_unwind (s : FillerState) : FillerState :=
  if unwind_seeded s then s
  else set_pending (unwind_pending s ∪ list_to_set (map cf_address (fl_pools self))) true s.

Definition filler_tick (tick : LedgerTick) (may_execute queue : bool) (s : FillerState)
  : io FillerE (FillerState * result StoreError TickSummary) :=
  await (p, ticked) := (run! _ := tick_each (fl_pools self) may_execute queue in
                        unwind_passes may_execute queue)
                         (mkPass tick (seed_unwind s) tick_summary_default) in
  Ret (pa_state p, let? _ := ticked in Ok (pa_summary p)).
End filler.

Notation "'run!' x := m 'in' k" := (and_then m (fun x => k))
  (at level 10, x pattern, m at level 200, k at level 200,
   format "'[v' 'run!'  x  :=  m  'in' '/' k ']'") : rust_scope.
