(* ===== verification/FillerTask.v ===== *)
(** * The filler's task ([src/service.rs])

    One tick of the filler per tick of the watch, with nothing sent before its
    own startup delay. *)

From S2P Require Import Prelude Decode Io Store Poller AuctioneerTask Config Filler.
Open Scope Z_scope.

Section task.
Context `{ScDecode} `{Json}.
(** The filler, the delay, and whether a queue is there to submit through. *)
Context (filler : Filler) (startup_delay_ledgers : Z) (queue : bool).

(** [filler_loop]: the state and the gate are carried from tick to tick. *)
Definition filler_turn (carried : FillerState * StartupGate)
  : io FillerE (FillerState * StartupGate + result StoreError ()) :=
  let '(state, gate) := carried in
  await changed := perform FChanged in
  if negb changed then Ret (inr (Ok ()))
  else
    await stop := perform FShutdown in
    if stop : bool then Ret (inr (Ok ()))
    else
      await tick := perform FTick in
      let '(gate, may_execute) := observe_tick gate tick startup_delay_ledgers in
      await (state, ticked) := filler_tick filler tick may_execute queue state in
      Ret (match ticked with Ok _ => inl (state, gate) | Err e => inr (Err e) end).

Definition filler_loop : io FillerE (result StoreError ()) :=
  ITree.iter filler_turn (filler_state_default, startup_gate_new).
End task.
