(* ===== verification/FillerContract.v ===== *)
(** * What the filler promises ([src/filler.rs], [src/service.rs])

    Over the whole of its task: nothing is spent before the startup delay, a
    reservation is settled before anything else is done, and the store's first
    failure ends it. *)

From S2P Require Import Prelude Fixed Reserve Position Auction Encode FillDelay Fill Unwind.
From S2P Require Import Inventory Io Chain Operations Decode Events Rpc Snapshot Store Submit.
From S2P Require Import Config Poller Tracker Executor ExecutorContract AuctioneerTask Filler FillerTask.
Open Scope Z_scope.

(** ** One execution: the token, and the store's failure *)

Section execution.
Context `{ScDecode} `{Json} (self : Executor) (queue : bool).

Record SpendState : Type := mkSpend {
  sp_token : option Reservation;
  sp_failed : option StoreError;
}.

Definition failure_of {A : Type} (r : result StoreError A) : option StoreError :=
  match r with Err e => Some e | Ok _ => None end.
Definition exec_failure {A : Type} (r : result (ExecutorError (StoreError:=StoreError)) A)
  : option StoreError :=
  match r with Err (ExStore e) => Some e | _ => None end.

(** Once the store has failed only the token is settled; a submission is made
    with a queue, outside a dry run and over a token. *)
Definition spend_step (q : SpendState) (d : Done (StoreError:=StoreError)) (q' : SpendState) : Prop :=
  match d with
  | DConsume t | DRelease t => sp_token q = Some t ∧ q' = mkSpend None (sp_failed q)
  | DEnqueue _ _ =>
      (sp_failed q = None ∧ queue = true ∧ ex_dry_run self = false ∧ sp_token q ≠ None) ∧ q' = q
  | DRecord _ r => sp_failed q = None ∧ q' = mkSpend (sp_token q) (failure_of r)
  | DAttach _ _ r => sp_failed q = None ∧ q' = mkSpend (sp_token q) (failure_of r)
  | DNet _ => sp_failed q = None ∧ q' = q
  end.

Abbreviation spends := (follows (done_log (StoreError:=StoreError)) spend_step).

Lemma release_spends tok failed :
  spends (mkSpend tok failed) (release_token tok) (λ _ q', q' = mkSpend None failed).
Proof.
  destruct tok as [t|]; simpl; [|by apply follows_ret].
  apply follows_perform. intros []. eexists. by repeat split.
Qed.

Lemma settle_spends tok failed settle :
  spends (mkSpend tok failed) (settle_token tok settle) (λ _ q', q' = mkSpend None failed).
Proof.
  destruct settle; simpl; [|apply release_spends]. destruct tok as [t|]; [|by apply follows_ret].
  apply follows_perform. intros []. eexists. by repeat split.
Qed.

(** The guards: a token refused is released; one that passes is what was
    given, and a queue passes only with a key, outside a dry run and with a
    token. *)
Lemma guard_spends settlement :
  spends (mkSpend (held_by settlement) None) (mode_guard self settlement queue) (λ r q',
    match r with
    | Ok tok => tok = held_by settlement ∧ q' = mkSpend tok None ∧
        (queue = true → ex_dry_run self = false ∧ tok ≠ None)
    | Err e => q' = mkSpend None (exec_failure (Err (A:=()) e)) ∧ exec_failure (Err (A:=()) e) = None
    end).
Proof.
  unfold mode_guard. eapply (follows_bind _ _ _ _ _ (λ r q', match r with
    | Ok tok => tok = held_by settlement ∧ q' = mkSpend tok None ∧
        (ex_dry_run self = false → tok ≠ None)
    | Err e => q' = mkSpend None None ∧ exec_failure (Err (A:=()) e) = None end)).
  - destruct settlement as [t|]; simpl.
    + destruct (ex_dry_run self) eqn:Hd; [|by apply follows_ret].
      eapply follows_bind; [apply (release_spends (Some t))|]. intros [] q ->. by apply follows_ret.
    + destruct (ex_dry_run self) eqn:Hd; by apply follows_ret.
  - intros [tok|e] q; [intros (-> & -> & Htok)|intros [-> He]].
    2: { apply follows_ret. by rewrite He. }
    destruct (queue && ex_dry_run self) eqn:Hdry.
    { eapply follows_bind; [apply release_spends|]. intros [] q ->. by apply follows_ret. }
    destruct (queue && negb _).
    { eapply follows_bind; [apply release_spends|]. intros [] q ->. by apply follows_ret. }
    apply follows_ret. split; [done|]. split; [done|]. intros Hq. rewrite Hq in Hdry. simpl in Hdry.
    by split; [|apply Htok].
Qed.
End execution.

(** ** Lemmas: one call of the executor *)

Section one_call.
Context `{ScDecode} `{Json} (self : Executor) (queue : bool).
Abbreviation spends := (follows (done_log (StoreError:=StoreError)) (spend_step self queue)).

(** Simulating and asking spend nothing. *)
Lemma net_spends {R} tok (m : io NetE R) :
  spends (mkSpend tok None) (translate NetCall m) (λ _ q', q' = mkSpend tok None).
Proof.
  eapply follows_weaken.
  - eapply (emits_follows done_log (λ o, match o with DNet _ => True | _ => False end)).
    + by apply (emits_translate seen done_log NetCall DNet (λ _ _ _, eq_refl)).
    + intros o Ho. by destruct o.
  - by intros r q ->.
Qed.

Lemma judge_spends tok pool requests :
  spends (mkSpend tok None) (judge_operation (StoreError:=StoreError) self pool requests queue)
    (λ r q', q' = mkSpend tok None ∧ exec_failure r = None).
Proof.
  unfold judge_operation. destruct (ex_submitter self) as [[filler config]|]; [|by apply follows_ret].
  apply follows_try_ret. destruct (submit_op _ _ _ _ _); [|by split].
  eapply (follows_try _ _ _ _ _ (λ r q', q' = mkSpend tok None ∧ exec_failure r = None)); [|done|].
  - unfold as_error. eapply follows_bind; [apply net_spends|]. intros r q ->. apply follows_ret.
    by destruct r.
  - intros j q [-> _]. by apply follows_ret.
Qed.

Context (tok : option Reservation).
Context (Hready : queue = true → ex_dry_run self = false ∧ tok ≠ None).

Lemma enqueue_spends submission :
  queue = true →
  spends (mkSpend tok None) (enqueue (StoreError:=StoreError) submission)
    (λ r q', q' = mkSpend tok None ∧ exec_failure r.1 = None).
Proof.
  intros Hq. unfold enqueue. apply follows_call. intros answer. eexists.
  split; [split; [|done]; destruct (Hready Hq); by repeat split|].
  apply follows_ret. by destruct answer as [|[| |[]]].
Qed.

Lemma run_fill_spends plan :
  spends (mkSpend tok None) (run_fill (StoreError:=StoreError) self plan queue)
    (λ r q', q' = mkSpend tok (exec_failure r.1)).
Proof.
  unfold run_fill.
  eapply (follows_bind _ _ _ _ _ (λ r q', q' = mkSpend tok None ∧ exec_failure r = None)).
  { unfold judge. apply follows_try_ret. destruct (fill_requests _ _); [|by split]. simpl.
    eapply follows_try; [apply judge_spends|by intros e q [-> ?]|].
    intros j q [-> _]. by apply follows_ret. }
  assert (∀ operation simulated, spends (mkSpend tok None)
    (await row := perform (RecordFill (record_of self plan)) in
      match row with
      | Err error => Ret (Err (ExStore error), Release)
      | Ok fill_id =>
          if negb queue then Ret (Ok (recorded_as self fill_id simulated None), Release)
          else match operation with
               | None => Ret (Ok (recorded_as self fill_id simulated None), Release)
               | Some operation => submit_recorded self plan fill_id simulated operation
               end
      end) (λ r q', q' = mkSpend tok (exec_failure r.1))) as Hrecord.
  { intros operation simulated. apply follows_call. intros row. eexists. split; [by split|].
    destruct row as [id|e]; [|by apply follows_ret].
    destruct (negb queue) eqn:Hq; [by apply follows_ret|]. apply negb_false_iff in Hq.
    destruct operation; [|by apply follows_ret].
    unfold submit_recorded. eapply follows_bind; [by apply enqueue_spends|].
    intros [landed settle] q [-> Hl]. destruct landed as [[outcome| |code message]|e];
      try (apply follows_ret; simpl in *; by rewrite ?Hl).
    apply follows_call. intros r. eexists. split; [by split|]. apply follows_ret. by destruct r. }
  intros [[operation|operation| |outcome]|e] q [-> He]; cbv zeta; 
    first [apply (Hrecord (Some operation)) | apply (Hrecord None)
          | apply follows_ret; simpl in *; by rewrite ?He].
Qed.

Lemma run_unwind_spends pool plan :
  spends (mkSpend tok None) (run_unwind_pass (StoreError:=StoreError) self pool plan queue)
    (λ r q', q' = mkSpend tok (exec_failure r.1)).
Proof.
  unfold run_unwind_pass. eapply follows_bind; [apply judge_spends|]. intros judged q [-> Hj].
  cbv zeta.
  assert (∀ operation simulated, spends (mkSpend tok None)
    (if negb queue then Ret (Ok (Planned simulated), Release)
     else match operation with
       | None => Ret (Ok (Planned simulated), Release)
       | Some operation =>
           await (landed, settle) := enqueue
             (mkSubmission operation Normal (String.append "unwind " pool) UNWIND_RETRIES) in
           Ret (match landed with
                | Ok (LandedOutcome outcome) => (Ok (Submitted outcome), settle)
                | Ok LandedStale => (Ok UnwindStale, settle)
                | Ok (LandedRefused code _) => (Ok (UnwindRefused code), settle)
                | Err error => (Err error, settle)
                end)
       end) (λ r q', q' = mkSpend tok (exec_failure r.1))) as Hsend.
  { intros operation simulated. destruct (negb queue) eqn:Hq; [by apply follows_ret|].
    apply negb_false_iff in Hq. destruct operation; [|by apply follows_ret].
    eapply follows_bind; [by apply enqueue_spends|].
    intros [landed settle] q [-> Hl]. apply follows_ret.
    destruct landed as [[outcome| |code message]|e]; simpl in *; by rewrite ?Hl. }
  destruct judged as [[operation|operation| |code message|]|e]; 
    first [apply (Hsend (Some operation)) | apply (Hsend None)
          | apply follows_ret; simpl in *; by rewrite ?Hj].
Qed.
End one_call.

Lemma execute_spends `{ScDecode} `{Json} self plan settlement queue :
  follows (done_log (StoreError:=StoreError)) (spend_step self queue)
    (mkSpend (held_by settlement) None) (execute self plan settlement queue)
    (λ r q', q' = mkSpend None (exec_failure r)).
Proof.
  unfold execute. eapply follows_try; [apply guard_spends|by intros e q [-> ?]|].
  intros tok q (-> & -> & Hq). eapply follows_bind; [by apply run_fill_spends|].
  intros [answer settled] q ->. eapply follows_bind; [apply settle_spends|].
  intros [] q ->. by apply follows_ret.
Qed.

Lemma unwind_spends `{ScDecode} `{Json} self pool plan settlement queue :
  follows (done_log (StoreError:=StoreError)) (spend_step self queue)
    (mkSpend (held_by settlement) None) (unwind self pool plan settlement queue)
    (λ r q', q' = mkSpend None (exec_failure r)).
Proof.
  unfold unwind. eapply follows_try; [apply guard_spends|by intros e q [-> ?]|].
  intros tok q (-> & -> & Hq). destruct (is_idle plan).
  - eapply follows_bind; [apply release_spends|]. intros [] q ->. by apply follows_ret.
  - eapply follows_bind; [by apply run_unwind_spends|].
    intros [answer settled] q ->. eapply follows_bind; [apply settle_spends|].
    intros [] q ->. by apply follows_ret.
Qed.

(** ** The task: its ticks, its token, its end *)

Section task.
Context `{ScDecode} `{Json} (filler : Filler) (startup_delay_ledgers : Z) (queue : bool).

Abbreviation delay_passed := (AuctioneerTask.delay_passed startup_delay_ledgers).

(** The ticks seen, and the token held and the store's failure. *)
Definition TaskSpend : Type := (list LedgerTick * SpendState)%type.
Definition idle_at (ticks : list LedgerTick) (failed : option StoreError) : TaskSpend :=
  (ticks, mkSpend None failed).
Definition filler_start : TaskSpend := idle_at [] None.

Definition granted_token (r : result InventoryError Reservation) : option Reservation :=
  match r with Ok t => Some t | Err _ => None end.

(** Outside the executor nothing is called over a token, or once the store has
    failed; nothing is reserved or executed before the delay; a dry run
    reserves nothing. *)
Definition filler_step (w : TaskSpend) (o : FillerObs) (w' : TaskSpend) : Prop :=
  let '(ticks, q) := w in
  match o with
  | GExec d => delay_passed ticks ∧ spend_step (fl_executor filler) queue q d w'.2 ∧ w'.1 = ticks
  | _ =>
      q = mkSpend None None ∧
      match o with
      | GTick tick => w' = idle_at (ticks ++ [tick]) None
      | GReserve _ r =>
          delay_passed ticks ∧ fc_dry_run (fl_config filler) = false ∧
          w' = (ticks, mkSpend (granted_token r) None)
      | GStore _ _ r => w' = idle_at ticks (failure_of r)
      | _ => w' = w
      end
  end.

Abbreviation upholds := (follows filler_log filler_step).

Section parts.
Context (may : bool).

(** A part of a tick, told whether it may execute. *)
Definition part_of_tick {A : Type} (m : flow A) : Prop :=
  ∀ p ticks, (may = true → delay_passed ticks) →
    upholds (idle_at ticks None) (m p) (λ r q', q' = idle_at ticks (failure_of r.2)).

Lemma part_done {A} (a : A) : part_of_tick (done a).
Proof. intros p ticks _. by apply follows_ret. Qed.
Lemma part_change f : part_of_tick (change f).
Proof. intros p ticks _. by apply follows_ret. Qed.
Lemma part_count f : part_of_tick (count f).
Proof. intros p ticks _. by apply follows_ret. Qed.
Lemma part_get_state : part_of_tick get_state.
Proof. intros p ticks _. by apply follows_ret. Qed.
Lemma part_get_tick : part_of_tick get_tick.
Proof. intros p ticks _. by apply follows_ret. Qed.

Lemma part_then {A B} (m : flow A) (k : A → flow B) :
  part_of_tick m → (∀ a, part_of_tick (k a)) → part_of_tick (and_then m k).
Proof.
  intros Hm Hk p ticks Hmay. eapply follows_bind; [by apply Hm|].
  intros [p' [a|e]] q ->; [by apply Hk|by apply follows_ret].
Qed.

Lemma part_store {A} (q : StoreE A) : part_of_tick (filler_store q).
Proof.
  intros p ticks _. apply follows_call. intros r. eexists. split; [by split|]. by apply follows_ret.
Qed.

(** Calls that are no execution, no reservation, no tick and not the store's. *)
Definition plain (o : FillerObs) : Prop :=
  match o with GTick _ | GReserve _ _ | GStore _ _ _ | GExec _ => False | _ => True end.

Lemma part_lift {A} (m : io FillerE A) : emits filler_log plain m → part_of_tick (lift m).
Proof.
  intros Hm p ticks _. eapply follows_bind.
  - eapply (emits_follows _ plain); [exact Hm|]. intros o Ho. by destruct o.
  - intros a q ->. by apply follows_ret.
Qed.

Lemma part_chain_reads {A} (m : io ReadE A) : part_of_tick (lift (translate FRead m)).
Proof.
  apply part_lift, (emits_translate read filler_log FRead GRead (λ _ _ _, eq_refl)). done.
Qed.

Lemma part_ask {A} (e : FillerE A) : (∀ x, plain (filler_log _ e x)) → part_of_tick (ask e).
Proof. intros He. apply part_lift, emits_perform, He. Qed.

(** An execution under the settlement its mode demands: what is reserved is
    settled, whatever the executor answers. *)
Lemma part_settled {A B} (spend : gmap string Z)
    (run : Settlement → io (ExecE (StoreError:=StoreError)) (result (ExecutorError (StoreError:=StoreError)) A))
    (refused : flow B) (answer : result (ExecutorError (StoreError:=StoreError)) A → flow B) :
  (∀ settlement, follows (done_log (StoreError:=StoreError)) (spend_step (fl_executor filler) queue)
     (mkSpend (held_by settlement) None) (run settlement)
     (λ r q', q' = mkSpend None (exec_failure r))) →
  part_of_tick refused →
  (∀ r, match exec_failure r with
        | Some e => ∀ p, answer r p = Ret (p, Err e)
        | None => part_of_tick (answer r)
        end) →
  may = true →
  part_of_tick (run! settlement := settlement_for filler spend in
                match settlement with
                | Err _ => refused
                | Ok settlement =>
                    run! executed := lift (translate FExec (run settlement)) in
                    answer executed
                end).
Proof.
  intros Hrun Hrefused Hanswer Hopen p ticks Hmay. specialize (Hmay Hopen) as Hdelay.
  assert (∀ settlement p, upholds (ticks, mkSpend (held_by settlement) None)
    (and_then (lift (translate FExec (run settlement))) answer p)
    (λ r q', q' = idle_at ticks (failure_of r.2))) as Hexec.
  { intros settlement p'. eapply (follows_bind _ _ _ _ _ (λ r q', ∃ executed,
      r.2 = Ok executed ∧ q' = idle_at ticks (exec_failure executed))).
    - eapply follows_bind.
      + apply (follows_translate _ filler_log FExec GExec (λ _ _ _, eq_refl)
          (spend_step (fl_executor filler) queue) filler_step (pair ticks)); [|apply Hrun].
        intros q o q' Hs. by repeat split.
      + intros r q (q1 & -> & ->). apply follows_ret. by exists r.
    - intros [p1 r] q (executed & Hr & ->). simpl in Hr. subst r. specialize (Hanswer executed).
      destruct (exec_failure executed) as [e|]; [rewrite Hanswer; by apply follows_ret|].
      by apply Hanswer. }
  unfold settlement_for. destruct (fc_dry_run (fl_config filler)) eqn:Hdry.
  - eapply follows_bind; [by apply (follows_ret _ _ _ _ (λ r q, r = (p, Ok (Ok DryRun)) ∧
      q = idle_at ticks None))|]. intros ? q [-> ->]. apply (Hexec DryRun).
  - eapply (follows_bind _ _ _ _ _ (λ r q, ∃ p' reserved,
      r = (p', Ok (let? t := reserved in Ok (Live t))) ∧ q = (ticks, mkSpend (granted_token reserved) None))).
    + eapply (follows_bind _ _ _ _ _ (λ r q, ∃ p' reserved,
        r = (p', Ok reserved) ∧ q = (ticks, mkSpend (granted_token reserved) None))).
      * eapply follows_call. intros r. eexists. split; [by repeat split|]. apply follows_ret.
        by exists p, r.
      * intros ? q (p' & r & -> & ->). apply follows_ret. by exists p', r.
    + intros ? q (p' & [t|e] & -> & ->); [apply (Hexec (Live t))|by apply Hrefused].
Qed.

(** One step of a flow that is not an execution. *)
Ltac tick_step :=
  first
  [ apply part_done | apply part_change | apply part_count | apply part_store
  | apply part_get_state | apply part_get_tick | apply part_chain_reads
  | apply part_ask; done
  | apply part_then; [|let r := fresh "r" in intros r]
  | match goal with |- context [match ?r with _ => _ end] => destruct r end ].
Ltac tick_steps := repeat tick_step.

(** *** One auction *)

Lemma part_skipped row start label : part_of_tick (skipped_as row start label).
Proof. unfold skipped_as. tick_steps. Qed.

Lemma part_execute_once context row start draft :
  may = true → part_of_tick (execute_once filler context row start draft queue).
Proof.
  intros Hopen. unfold execute_once. destruct (priority _ _ _); [|apply part_then; [apply part_skipped|intros; apply part_done]].
  apply (part_settled (fd_spend draft) (λ settlement, execute _ _ settlement queue)); [|..|done].
  - intros settlement. apply execute_spends.
  - apply part_then; [apply part_skipped|intros; apply part_done].
  - intros [outcome|[]]; simpl; try done; tick_steps.
Qed.

Lemma part_note_recorded row auction recorded : part_of_tick (note_recorded row auction recorded).
Proof. unfold note_recorded. tick_steps. Qed.

Lemma part_drafted context row auction percent :
  part_of_tick (drafted filler context row auction percent).
Proof. unfold drafted, plan, clear_plan. tick_steps. Qed.

Lemma part_write_plan row draft : part_of_tick (write_plan row draft).
Proof. unfold write_plan. tick_steps. Qed.

Lemma part_drop_plan row : part_of_tick (drop_plan row).
Proof. unfold drop_plan, clear_plan. tick_steps. Qed.

Lemma part_replan context row auction refused :
  may = true → part_of_tick (replan filler context row auction refused queue).
Proof.
  intros Hopen. unfold replan. destruct (fill_percent_try_from _); [|tick_steps].
  apply part_then; [apply part_drafted|intros [draft|]; [|apply part_done]].
  apply part_then; [apply part_write_plan|intros written].
  destruct (negb written); [apply part_done|]. destruct (_ <? _); [apply part_done|].
  apply part_then; [by apply part_execute_once|]. intros [[]|]; try apply part_done.
  - apply part_note_recorded.
  - apply part_then; [apply part_skipped|intros; apply part_done].
  - apply part_then; [apply part_skipped|intros; apply part_done].
  - apply part_then; [apply part_drop_plan|intros; apply part_done].
Qed.

Lemma part_execute_draft context row auction draft :
  may = true → part_of_tick (execute_draft filler context row auction draft queue).
Proof.
  intros Hopen. unfold execute_draft.
  apply part_then; [by apply part_execute_once|]. intros [[]|]; try apply part_done.
  - apply part_note_recorded.
  - by apply part_replan.
  - apply part_then; [apply part_skipped|intros; apply part_done].
  - apply part_then; [apply part_drop_plan|intros; apply part_done].
Qed.

Lemma part_plan_and_act context row auction :
  part_of_tick (plan_and_act filler context row auction may queue).
Proof.
  unfold plan_and_act. destruct (fill_percent_try_from _); [|apply part_done].
  apply part_then; [apply part_drafted|intros [draft|]; [|apply part_done]].
  apply part_then; [apply part_write_plan|intros written].
  destruct (negb written); [apply part_done|].
  destruct (negb may || _) eqn:Hgate; [apply part_done|]. apply part_execute_draft.
  by destruct may.
Qed.

(** *** One pool, and the passes *)

Lemma part_walk_live context live : part_of_tick (walk_live filler context live may queue).
Proof.
  induction live as [|[row auction] live IH]; [apply part_done|]. cbn [walk_live].
  apply part_then; [by apply part_ask|]. intros [|]; [apply part_done|].
  apply part_then; [apply part_get_state|]. intros s. case_bool_decide; [exact IH|].
  apply part_then; [apply part_plan_and_act|]. intros [|]; [apply part_done|exact IH].
Qed.

Lemma part_read_entries pool candidates : part_of_tick (read_entries pool candidates).
Proof.
  induction candidates as [|row candidates IH]; [apply part_done|]. cbn [read_entries].
  apply part_then; [by apply part_ask|]. intros [|]; [apply part_done|].
  apply part_then; [apply part_chain_reads|]. intros [[[at_ auction]|]|e]; [| |exact IH].
  - apply part_then; [exact IH|intros; apply part_done].
  - apply part_then; [apply part_store|intros _]. apply part_then; [apply part_change|intros _].
    apply part_then; [apply part_count|intros _]. exact IH.
Qed.

Lemma part_refresh pool snapshot : part_of_tick (refresh_inventory filler pool snapshot).
Proof. unfold refresh_inventory. tick_steps. Qed.

Lemma part_candidates pool rows : part_of_tick (candidates_of filler pool rows).
Proof.
  intros p ticks _. unfold candidates_of. destruct (consider_all _ _ _ _ _). by apply follows_ret.
Qed.

Lemma part_tick_pool pool : part_of_tick (tick_pool filler pool may queue).
Proof.
  unfold tick_pool. apply part_then; [apply part_store|intros rows].
  apply part_then; [apply part_change|intros _]. apply part_then; [apply part_candidates|].
  intros [|row candidates]; [apply part_done|].
  apply part_then; [apply part_read_entries|]. intros [|e live]; [apply part_done|].
  apply part_then; [by apply part_ask|]. intros [|]; [apply part_done|].
  apply part_then; [apply part_chain_reads|]. intros [snapshot|err]; [|apply part_done].
  apply part_then; [apply part_refresh|intros _]. apply part_then; [apply part_get_tick|intros tick].
  destruct (pool_context _ _ _ _); [apply part_walk_live|apply part_done].
Qed.

Lemma part_note_setback pool account : part_of_tick (note_setback pool account).
Proof. unfold note_setback. tick_steps. Qed.

Lemma part_execute_unwind pool account plan :
  may = true → part_of_tick (execute_unwind filler pool account plan queue).
Proof.
  intros Hopen. unfold execute_unwind.
  apply (part_settled (up_spend plan) (λ settlement, unwind _ pool plan settlement queue)); [|..|done].
  - intros settlement. apply unwind_spends.
  - apply part_count.
  - intros [outcome|[]]; simpl; try done; try apply part_note_setback.
    unfold note_unwound. destruct outcome; try apply part_note_setback; [tick_steps|].
    destruct (landed_at _); [tick_steps|apply part_note_setback].
Qed.

Lemma part_unwind_pool pool account : part_of_tick (unwind_pool filler pool account may queue).
Proof.
  unfold unwind_pool. apply part_then; [apply part_chain_reads|]. intros [snapshot|e]; [|apply part_done].
  apply part_then; [apply part_get_state|intros s]. destruct (negb _); [apply part_done|]. cbv zeta.
  destruct (nothing_to_unwind _); [apply part_change|].
  apply part_then; [apply part_refresh|intros _]. apply part_then; [apply part_get_tick|intros tick].
  destruct (accrued_reserves _ _); [|apply part_done].
  apply part_then; [by apply part_ask|intros wallet].
  destruct (plan_unwind _ _) as [plan|]; [|apply part_done].
  destruct (is_idle plan); [unfold note_idle; tick_steps|].
  destruct (negb may) eqn:Hopen; [apply part_done|]. apply part_execute_unwind. by destruct may.
Qed.

Lemma part_unwind_passes : part_of_tick (unwind_passes filler may queue).
Proof.
  unfold unwind_passes. destruct (executor_filler _) as [account|]; [|apply part_change].
  induction (fl_pools filler) as [|pool pools IH]; [apply part_done|]. cbn [unwind_each].
  apply part_then; [by apply part_ask|]. intros [|]; [apply part_done|].
  apply part_then; [apply part_get_state|intros s]. apply part_then; [apply part_get_tick|intros tick].
  cbv zeta. destruct (bool_decide _ || _); [exact IH|].
  apply part_then; [apply part_unwind_pool|intros _]. exact IH.
Qed.

Lemma part_tick_each pools : part_of_tick (tick_each filler pools may queue).
Proof.
  induction pools as [|pool pools IH]; [apply part_done|]. cbn [tick_each].
  apply part_then; [by apply part_ask|]. intros [|]; [apply part_done|].
  apply part_then; [apply part_tick_pool|intros _]. exact IH.
Qed.

Lemma filler_tick_follows tick s ticks :
  (may = true → delay_passed ticks) →
  upholds (idle_at ticks None) (filler_tick filler tick may queue s)
    (λ r q', q' = idle_at ticks (failure_of r.2)).
Proof.
  intros Hmay. unfold filler_tick. eapply follows_bind.
  - apply part_then; [apply part_tick_each|intros; apply part_unwind_passes|done].
  - intros [p r] q ->. apply follows_ret. by destruct r.
Qed.
End parts.

Lemma filler_loop_follows :
  upholds filler_start (filler_loop filler startup_delay_ledgers queue)
    (λ r q, ∃ ticks, q = idle_at ticks (failure_of r)).
Proof.
  apply (follows_iter _ _ (λ carried q, ∃ ticks, q = idle_at ticks None ∧
    AuctioneerTask.gate_of startup_delay_ledgers ticks carried.2)).
  { exists []. split; [done|apply new_gate_of]. }
  intros [state gate] q (ticks & -> & Hg). unfold filler_turn.
  apply follows_call. intros changed. eexists. split; [by split|].
  destruct changed; [|apply follows_ret; by exists ticks].
  apply follows_call. intros stop. eexists. split; [by split|].
  destruct stop; [apply follows_ret; by exists ticks|].
  apply follows_call. intros tick. eexists. split; [by split|].
  pose proof (observe_gate _ _ _ tick Hg) as Hobs. destruct (observe_tick _ _ _) as [gate' may].
  destruct Hobs as [Hopened Hopen]. simpl in Hopened, Hopen.
  eapply follows_bind; [apply filler_tick_follows|].
  - intros ->. by apply Hopened.
  - intros [state' [sum|e]] q ->; apply follows_ret; exists (ticks ++ [tick]); by try split.
Qed.
End task.

(** ** Properties *)

(** C5: the filler spends one reservation at a time, and only when it may.
    Whatever the filler's task is answered: nothing is reserved or handed to the
    executor before some tick is the startup delay past the first one; a dry run
    reserves nothing; once a reservation is granted, nothing at all is called
    outside the executor until the executor has settled that very reservation,
    once; nothing is sent without a queue, in a dry run or over no reservation;
    and the store's first failure, wherever it happens, ends the task with that
    failure and with no reservation held, and nothing else fails it. *)
Theorem filler_settles_before_moving_on `{ScDecode} `{Json} (filler : Filler)
    (startup_delay_ledgers : Z) (queue : bool) :
  follows filler_log (filler_step filler startup_delay_ledgers queue) filler_start
    (filler_loop filler startup_delay_ledgers queue)
    (λ r q, ∃ ticks, q = idle_at ticks (failure_of r)).
Proof. apply filler_loop_follows. Qed.
