(* ===== verification/FillerWallet.v ===== *)
(** * The filler and its wallet ([src/filler.rs], [src/inventory.rs])

    The filler's task run over the wallet ledger it holds: the discipline the
    ledger relies on, a token settled once and by the one who holds it, is what
    the task's contract gives, so nothing a plan reserved outlives its execution
    and every plan is made against the whole wallet. *)

From S2P Require Import Prelude Fixed Reserve Position Auction Encode FillDelay Fill Unwind.
From S2P Require Import Inventory Io Chain Operations Decode Events Rpc Snapshot Store Submit.
From S2P Require Import Config Poller Tracker Executor AuctioneerTask Filler FillerTask FillerContract.
Open Scope Z_scope.

Section wallet.
Context `{ScDecode} `{Json}.

(** ** The ledger, as the filler's calls change it

    The balances it records are [i128]s, read at some instant. The last call is
    kept beside the ledger. *)

Definition wallet_step (w : Ledger * option FillerObs) (o : FillerObs)
    (w' : Ledger * option FillerObs) : Prop :=
  w'.2 = Some o ∧
  match o with
  | GReserve claims r => reserve claims w.1 = (w'.1, r)
  | GExec (DConsume t) => w'.1 = consume t w.1
  | GExec (DRelease t) => w'.1 = release t w.1
  | GRecordBalances m =>
      (∀ a v, m !! a = Some v → is_i128 v) ∧ ∃ at_, w'.1 = record_balances m at_ w.1
  | GAvailable m => m = available w.1 ∧ w'.1 = w.1
  | _ => w'.1 = w.1
  end.

Context (fee_asset : string) (fee_reserve : Z).

(** The ledger of an execution of the inventory in which these are the live
    tokens. *)
Definition holding (tok : option Reservation) (l : Ledger) : Prop :=
  ∃ id, reachable fee_asset fee_reserve
          (mkWorld l (match tok with Some t => {[ id := t ]} | None => ∅ end)).

(** The whole wallet: balances less the fee reserve, none of it claimed. *)
Definition whole_wallet (l : Ledger) (m : gmap string Z) : Prop :=
  ∀ a, get_or_zero m a =
    Z.max (get_or_zero (balances l) a - (if decide (a = fee_asset) then fee_reserve else 0)) 0.

Definition tied (q : TaskSpend) (w : Ledger * option FillerObs) : Prop :=
  holding (sp_token q.2) w.1 ∧
  match w.2 with
  | Some (GAvailable m) => sp_token q.2 = None ∧ m = available w.1
  | _ => True
  end.

(** ** Lemmas *)

Lemma settled_holding t l l' :
  holding (Some t) l →
  (∀ id w, w_live w !! id = Some t → w_ledger w = l →
     ∃ e, inventory_step w e (mkWorld l' (delete id (w_live w))) ∧ ∀ m at_, e ≠ Inventory.Read m at_) →
  holding None l'.
Proof.
  intros [id Hr] Hs. destruct (Hs id (mkWorld l {[ id := t ]}) (lookup_singleton_eq id t) eq_refl) as (e & Hstep & He).
  exists id. simpl in Hstep. rewrite delete_singleton_eq in Hstep.
  eapply reach_step; [exact Hr|exact Hstep|]. intros m at_ ->. by destruct (He m at_).
Qed.

Lemma tied_step filler delay queue q o q' w w' :
  filler_step filler delay queue q o q' → wallet_step w o w' → tied q w → tied q' w'.
Proof.
  destruct q as [ticks [tok failed]], w as [l last], w' as [l' last']. unfold wallet_step, tied.
  simpl. intros Hq [-> Hw] [Hh _]. simpl.
  destruct o as [r|A q1 r|d|m|claims r|m|b|b|b|tick|n d]; simpl in *.
  3: { destruct Hq as (_ & Hs & _). destruct q' as [ticks' q']. simpl in *. split; [|done].
       destruct d as [s|record r|id hash r|sub r|t|t]; simpl in *; subst l'.
       - by destruct Hs as [_ ->].
       - by destruct Hs as [_ ->].
       - by destruct Hs as [_ ->].
       - by destruct Hs as [_ ->].
       - destruct Hs as [[= ->] ->]. simpl. eapply settled_holding; [exact Hh|].
         intros id w Hid <-. exists (Consumed id). split; [by constructor|done].
       - destruct Hs as [[= ->] ->]. simpl. eapply settled_holding; [exact Hh|].
         intros id w Hid <-. exists (Released id). split; [by constructor|done]. }
  all: destruct Hq as [[= -> ->] Hq]; subst; simpl; try done.
  - destruct Hw as [-> ->]. split; [done|by split].
  - destruct Hq as (_ & _ & ->). simpl. split; [|done].
    destruct Hh as [_ Hr]. exists 1%positive. destruct r as [t|e]; simpl.
    + eapply reach_step; [exact Hr
        |by apply (step_granted (mkWorld l ∅) 1 claims l' t); [apply lookup_empty|]|done].
    + eapply reach_step; [exact Hr|by apply (step_refused (mkWorld l ∅) claims l' e)|done].
  - destruct Hw as [Hm [at_ ->]]. split; [|done]. destruct Hh as [id Hr]. exists id. simpl.
    eapply reach_step; [exact Hr|apply (step_read (mkWorld l ∅) m at_)|].
    by intros m' at' [= <- <-].
Qed.

(** What is available when nothing is held is the whole wallet. *)
Lemma nothing_held_available l :
  is_u64 fee_reserve → holding None l → whole_wallet l (available l).
Proof.
  intros Hfr [_ Hr] a. apply reachable_inv in Hr as [[<- <-] Hlive Hres Hwidth Hb]; [|done].
  simpl in *. assert (∀ a, get_or_zero (reserved l) a = 0) as Hzero.
  { intros a'. rewrite Hres. unfold held. by rewrite map_to_list_empty. }
  assert (∀ a, ledger_available l a = Z.max (get_or_zero (balances l) a - withheld l a) 0) as Hav.
  { intros a'. rewrite ledger_available_eq; [|by apply balance_width|rewrite Hzero; lia|done].
    rewrite Hzero. f_equal. lia. }
  fold (withheld l a). rewrite <- Hav. unfold available, get_or_zero at 1. rewrite map_lookup_imap.
  destruct ((balances l ∪ reserved l) !! a) eqn:Hu; [done|]. simpl.
  apply lookup_union_None in Hu as [Hu _]. rewrite Hav. unfold get_or_zero. rewrite Hu. simpl.
  unfold withheld, is_u64 in *. destruct (decide _); lia.
Qed.
End wallet.

(** ** Properties *)

(** C8: nothing a plan reserves outlives its execution, and every plan is made
    against the whole wallet. Run the filler's task over the ledger it is given,
    new, with each of its calls doing to the ledger what the inventory's own
    operation does: at every moment the ledger is one of an execution in which
    at most one token is alive, whatever was granted or refused and however each
    execution went; whenever the wallet is read for a plan no token is alive, and
    what is read is every balance less the fee reserve; and when the task ends,
    nothing is held. The inventory's contract, a token settled at most once and
    by its holder, is a theorem here and not an assumption. *)
Theorem filler_plans_on_the_whole_wallet `{ScDecode} `{Json} (filler : Filler)
    (startup_delay_ledgers : Z) (queue : bool) (fee_asset : string) (fee_reserve : Z) :
  under filler_log wallet_step (inventory_new fee_asset fee_reserve, None)
    (filler_loop filler startup_delay_ledgers queue)
    (λ w, (∃ tok, holding fee_asset fee_reserve tok w.1) ∧
       ∀ m, w.2 = Some (GAvailable m) →
         holding fee_asset fee_reserve None w.1 ∧
         (is_u64 fee_reserve → whole_wallet fee_asset fee_reserve w.1 m))
    (λ _ w, holding fee_asset fee_reserve None w.1).
Proof.
  eapply under_weaken.
  - eapply follows_under; [apply filler_loop_follows| |intros ?????; apply tied_step].
    split; [exists 1%positive; constructor|done].
  - intros [l last] ([ticks [tok failed]] & Hh & Hlast). split; [by exists tok|].
    intros m Hm. simpl in *. rewrite Hm in Hlast. destruct Hlast as [-> ->].
    split; [done|]. intros Hfr. by apply nothing_held_available.
  - intros r [l last] _ (q & [ticks ->] & Hh & _). exact Hh.
Qed.
