(* ===== verification/FillWalk.v ===== *)
(** * What the filler does about one auction, and about a pool's ([src/filler.rs])

    The stages an auction goes through in a tick, as a state machine: aimed at
    by the planner against the wallet as it stands, written on its row, and,
    once its ledger has come, reserved for, recorded and sent exactly as
    planned; once more, at half the percent, when the contract refuses its
    health; and the walk over a pool's auctions, which a submission ends. *)

From S2P Require Import Prelude Fixed Reserve Position Auction Encode FillDelay Fill Unwind.
From S2P Require Import Inventory Io Chain Operations Decode Events Rpc Snapshot Store Submit.
From S2P Require Import Config Poller Tracker Executor ExecutorContract Filler.
Open Scope Z_scope.

(** A sequence of flows. *)
Lemma follows_then `{ScDecode} `{Json} {S A B} (step : S → FillerObs → S → Prop) q p
    (m : flow A) (k : A → flow B) (P : Pass * result StoreError A → S → Prop)
    (Q : Pass * result StoreError B → S → Prop) :
  follows filler_log step q (m p) P →
  (∀ p' e q', P (p', Err e) q' → Q (p', Err e) q') →
  (∀ p' a q', P (p', Ok a) q' → follows filler_log step q' (k a p') Q) →
  follows filler_log step q (and_then m k p) Q.
Proof.
  intros Hm He Hk. eapply follows_bind; [exact Hm|].
  intros [p' [a|e]] q' HP; [by apply Hk|]. by apply follows_ret, He.
Qed.

(** A flow that makes no call. *)
Lemma follows_pure `{ScDecode} `{Json} {S A B} (step : S → FillerObs → S → Prop) q p p' a
    (m : flow A) (k : A → flow B) (Q : Pass * result StoreError B → S → Prop) :
  m p = Ret (p', Ok a) → follows filler_log step q (k a p') Q →
  follows filler_log step q (and_then m k p) Q.
Proof.
  intros Hm Hk. apply (follows_then _ _ _ _ _ (λ r q', r = (p', Ok a) ∧ q' = q)).
  - rewrite Hm. by apply follows_ret.
  - by intros p1 e q' [[=] _].
  - by intros p1 a1 q' [[= -> ->] ->].
Qed.

Lemma follows_skipped `{ScDecode} `{Json} {S B} (step : S → FillerObs → S → Prop) q p row start label
    (k : () → flow B) (Q : Pass * result StoreError B → S → Prop) :
  (∀ p', follows filler_log step q (k () p') Q) →
  follows filler_log step q (and_then (skipped_as row start label) k p) Q.
Proof.
  intros Hk. eapply (follows_then _ _ _ _ _ (λ r q', r.2 = Ok () ∧ q' = q)).
  - eapply follows_pure; [done|]. by apply follows_ret.
  - by intros p' e q' [[=] _].
  - intros p' [] q' [_ ->]. apply Hk.
Qed.

Ltac pures :=
  repeat first [eapply follows_pure; [reflexivity|] | apply follows_skipped; intros ?];
  apply follows_ret; try done.

Lemma follows_asked `{ScDecode} `{Json} {S A B} (step : S → FillerObs → S → Prop) q p
    (e : FillerE A) (k : A → flow B) (Q : Pass * result StoreError B → S → Prop) :
  (∀ x, ∃ q', step q (filler_log _ e x) q' ∧ follows filler_log step q' (k x p) Q) →
  follows filler_log step q (and_then (ask e) k p) Q.
Proof.
  intros Hk. eapply (follows_then _ _ _ _ _ (λ r q', ∃ x, r = (p, Ok x) ∧
    follows filler_log step q' (k x p) Q)).
  - apply follows_call. intros x. destruct (Hk x) as (q' & Hs & Hf). exists q'. split; [done|].
    apply follows_ret. by exists x.
  - by intros p' e' q' (x & [=] & _).
  - by intros p' a q' (x & [= -> ->] & Hf).
Qed.

Lemma follows_stored `{ScDecode} `{Json} {S A B} (step : S → FillerObs → S → Prop) q p
    (e : StoreE A) (k : A → flow B) (Q : Pass * result StoreError B → S → Prop) :
  (∀ r, ∃ q', step q (GStore _ e r) q' ∧
     match r with Ok a => follows filler_log step q' (k a p) Q | Err e => Q (p, Err e) q' end) →
  follows filler_log step q (and_then (filler_store e) k p) Q.
Proof.
  intros Hk. eapply (follows_then _ _ _ _ _ (λ r q', r.1 = p ∧
    match r.2 with Ok a => follows filler_log step q' (k a p) Q | Err e => Q (p, Err e) q' end)).
  - apply follows_call. intros x. destruct (Hk x) as (q' & Hs & Hf). exists q'. split; [done|].
    by apply follows_ret.
  - intros p' e' q' [Hp Hq]. simpl in Hp. by subst.
  - intros p' a q' [Hp Hf]. simpl in Hp. by subst.
Qed.

(** ** The percent of a plan *)

Lemma settle_percent terms inputs ledger percent pj d :
  Fill.settle terms inputs ledger percent pj = Ok (Fill d) → fd_percent d = percent.
Proof. intros Hs. by apply settle_cases in Hs as [_ ?]. Qed.

Lemma search_percent terms inputs ledger last s d :
  Fill.search terms inputs ledger last s = Ok (Fill d) →
  fp_get (fd_percent d) ≤ fp_get (fi_max_percent inputs).
Proof.
  unfold Fill.search. intros Hs. apply bind_ok in Hs as ([[percent pj]|] & Hl & Hs).
  - apply largest_healthy_percent_ok in Hl as (Hp & _). apply settle_percent in Hs as ->. lia.
  - apply bind_ok in Hs as ([[later pj]|] & _ & Hs); [|done]. apply settle_percent in Hs as ->. lia.
Qed.

Lemma plan_fill_percent terms inputs d :
  plan_fill terms inputs = Ok (Fill d) → fp_get (fd_percent d) ≤ fp_get (fi_max_percent inputs).
Proof.
  unfold plan_fill. intros Hp. apply bind_ok in Hp as (positions & _ & Hp).
  apply bind_ok in Hp as (whole & _ & Hp). destruct (_ =? 0); [done|].
  apply bind_ok in Hp as (delay & _ & Hp). apply bind_ok in Hp as (at_ & _ & Hp).
  apply bind_ok in Hp as (reached & _ & Hp). revert Hp.
  generalize (mkSizing 0 false false). match goal with |- context [rounds ?n] => generalize n end.
  intros n. induction n as [|n IH]; intros s Hr; [done|]. cbn [rounds] in Hr.
  apply bind_ok in Hr as (pj & _ & Hr). destruct (over_positions _ _ _); [done|].
  apply bind_ok in Hr as (ok & _ & Hr). destruct ok; [apply settle_percent in Hr as ->; lia|].
  destruct (ft_supply_allowed terms); [|by apply search_percent in Hr].
  apply bind_ok in Hr as (s' & _ & Hr). destruct (_ <? _); [by eapply IH|by apply search_percent in Hr].
Qed.

Section auction.
Context `{ScDecode} `{Json} (filler : Filler) (context : PoolPass).
Context (row : TrackedAuction) (auction : AuctionData) (may queue : bool).

(** ** The stages *)

Inductive Stage : Type :=
(** To be planned, at most at a percent; [again] after a refusal. *)
| Aiming (again : bool) (max : FillPercent)
(** Not to be filled; [told] once the operator is. *)
| Skipping (reason : FillSkip) (told : bool)
| Aimed (again : bool) (draft : FillDraft)
(** On its row, its ledger not come or nothing reserved for it yet. *)
| Written (again : bool) (draft : FillDraft)
(** The executor's, over what is held, with the calls it made; [told] once the
    operator is. *)
| Running (again : bool) (draft : FillDraft) (tier : Priority) (held : option Reservation)
    (x : XState) (tr : list (Done (StoreError:=StoreError))) (told : bool)
| Over
| Failed (e : StoreError).

Definition aimed (again : bool) (max : FillPercent) (wallet : gmap string Z) : Stage :=
  match plan_fill (terms filler context auction)
          (inputs context (ta_account row) auction max wallet) with
  | Ok (Fill draft) => Aimed again draft
  | Ok (Skip reason) => Skipping reason false
  | Err _ => Over
  end.

(** The draft's ledger has come, and the tick may execute. *)
Definition has_come (draft : FillDraft) : bool :=
  may && (fd_fill_ledger draft <=? pp_earliest_ledger context).

Definition planned_as (draft : FillDraft) (tier : Priority) : FillPlan :=
  mkFillPlan (ta_pool row) (ta_account row) draft tier.

(** A dry run holds nothing: its execution starts as soon as it may. *)
Definition written (again : bool) (draft : FillDraft) : Stage :=
  match priority filler context draft with
  | Ok tier => if fc_dry_run (fl_config filler) && has_come draft
               then Running again draft tier None x_start [] false else Written again draft
  | Err _ => Written again draft
  end.

Definition fill_exec (draft : FillDraft) (tier : Priority) (held : option Reservation)
  : XState → Done (StoreError:=StoreError) → XState → Prop :=
  let plan := planned_as draft tier in
  exec_step (fl_executor filler) (fp_pool plan) (planned_requests plan)
    (Some (record_of (fl_executor filler) plan)) (fill_submission plan) queue held.

Definition plan_row (plan : option (Z * FillPercent)) : StoreE bool :=
  QSetFillPlan (ta_pool row) (ta_account row) (ta_auction_type row) plan.

Abbreviation Answer := (result (ExecutorError (StoreError:=StoreError)) ExecOutcome).

(** The calls are a whole run of the executor, on exactly the plan and over what
    is held, with its answer; and what was held is settled. *)
Definition executed (draft : FillDraft) (tier : Priority) (held : option Reservation) (x : XState)
    (tr : list (Done (StoreError:=StoreError))) (answer : Answer) : Prop :=
  (∃ settlement, held = held_by settlement ∧
     traces (done_log (StoreError:=StoreError))
       (execute (fl_executor filler) (planned_as draft tier) settlement queue) tr (Some answer)) ∧
  settled_well held x ∧ fill_answer (fl_executor filler) answer x.

(** What the operator is told of an answer. *)
Definition news (answer : Answer) : option FillerNote :=
  match answer with
  | Ok (Recorded recorded) =>
      match fr_submission recorded with
      | Some (TxSucceeded _ ledger _) => Some (FillConfirmed (ta_pool row) (ta_account row) ledger)
      | Some (TxFailed _ ledger _ _) => Some (FillFailed (ta_pool row) (ta_account row) ledger)
      | _ => None
      end
  | Err (ExQueue (QueueChain error)) => Some (FillDropped (ta_pool row) (ta_account row) error)
  | _ => None
  end.

(** Where the store's answer leads. *)
Definition after_store {A : Type} (r : result StoreError A) (next : A → Stage) : Stage :=
  match r with Ok a => next a | Err e => Failed e end.

Inductive stage_step : Stage → FillerObs → Stage → Prop :=
| st_aim again max wallet :
    stage_step (Aiming again max) (GAvailable wallet) (aimed again max wallet)
| st_unfunded d :
    stage_step (Skipping Unfunded false) (GNotify (UnfundedFill (ta_pool row) (ta_account row)) d)
      (Skipping Unfunded true)
| st_skip reason told r :
    (told = true ↔ reason = Unfunded) →
    stage_step (Skipping reason told) (GStore _ (plan_row None) r) (after_store r (λ _, Over))
| st_write again draft r :
    stage_step (Aimed again draft)
      (GStore _ (plan_row (Some (fd_fill_ledger draft, fd_percent draft))) r)
      (after_store r (λ found : bool, if found then written again draft else Over))
| st_reserve again draft tier r :
    has_come draft = true → fc_dry_run (fl_config filler) = false →
    priority filler context draft = Ok tier →
    stage_step (Written again draft) (GReserve (fd_spend draft) r)
      (match r with Ok t => Running again draft tier (Some t) x_start [] false | Err _ => Over end)
| st_exec again draft tier held x tr o x' :
    fill_exec draft tier held x o x' →
    stage_step (Running again draft tier held x tr false) (GExec o)
      (Running again draft tier held x' (tr ++ [o]) false)
(** Refused its health, once: settled, and planned again at half. *)
| st_replan draft tier held x tr code half wallet :
    executed draft tier held x tr (Ok (Replan code)) →
    fp_get half = Z.max (fp_get (fd_percent draft) / 2) 1 →
    stage_step (Running false draft tier held x tr false) (GAvailable wallet) (aimed true half wallet)
(** The operator is told what the chain, or the queue, answered. *)
| st_tell again draft tier held x tr answer note d :
    executed draft tier held x tr answer → news answer = Some note →
    stage_step (Running again draft tier held x tr false) (GNotify note d)
      (Running again draft tier held x tr true)
| st_stale again draft tier held x tr r :
    executed draft tier held x tr (Ok ExecStale) →
    stage_step (Running again draft tier held x tr false) (GStore _ (plan_row None) r)
      (after_store r (λ _, Over)).

(** Where a submission landed, or may have: an unresolved one at no ledger that
    is known. *)
Definition landing (outcome : TxOutcome) : option (option Z) :=
  match outcome with
  | TxSucceeded _ ledger _ => Some (Some ledger)
  | TxUnknown _ _ _ => Some None
  | TxFailed _ _ _ _ | TxExpired _ _ _ => None
  end.

(** What the chain applied, or may yet. *)
Definition applied (stage : Stage) : option (option Z) :=
  match stage with
  | Running _ _ _ _ x _ _ =>
      match x_sent x with Some (Ok outcome) => landing outcome | _ => None end
  | _ => None
  end.

(** Nothing is left to do about the auction: it was skipped or could not be
    planned, written or reserved for; it is on its row for a ledger that has not
    come, or its profit cannot be weighed; or its execution ran to an answer,
    nothing is held, the operator is told what there is to tell, and that was
    neither a first refusal of its health nor a stale plan. *)
Definition finished (stage : Stage) : Prop :=
  match stage with
  | Over => True
  | Written _ draft => has_come draft = false ∨ is_ok (priority filler context draft) = false
  | Running again draft tier held x tr told =>
      ∃ answer, executed draft tier held x tr answer ∧ told = bool_decide (is_Some (news answer)) ∧
        match answer with
        | Ok (Replan _) => again = true
        | Ok ExecStale | Err (ExStore _) => False
        | _ => True
        end
  | Aiming _ _ | Aimed _ _ | Skipping _ _ | Failed _ => False
  end.

(** The store failed: a plan was not written or cleared, or it was the executor's
    failure, and then what was held is settled. *)
Definition failed_with (e : StoreError) (stage : Stage) : Prop :=
  match stage with
  | Failed e' => e' = e
  | Running _ draft tier held x tr told => executed draft tier held x tr (Err (ExStore e))
  | _ => False
  end.

(** An unwind of the pool is owed, of a snapshot that holds the submission. *)
Definition owes (at_ : option Z) (s : FillerState) : Prop :=
  ta_pool row ∈ unwind_pending s ∧ unwind_after s !! ta_pool row = Some at_ ∧
  inventory_stale s = true ∧ unwind_setbacks s !! ta_pool row = None.

(** What acting on an auction answers, and leaves. *)
Definition acted (r : Pass * result StoreError bool) (stage : Stage) : Prop :=
  match r.2 with
  | Ok true => finished stage ∧ ∃ at_, applied stage = Some at_ ∧ owes at_ (pa_state r.1)
  | Ok false => finished stage ∧ applied stage = None
  | Err e => failed_with e stage
  end.

Abbreviation upholds := (follows filler_log stage_step).

(** ** Lemmas *)

Definition drafted_as (again : bool) (max : FillPercent)
    (r : Pass * result StoreError (option FillDraft)) (stage : Stage) : Prop :=
  match r.2 with
  | Ok (Some draft) => stage = Aimed again draft ∧ fp_get (fd_percent draft) ≤ fp_get max
  | Ok None => stage = Over
  | Err e => stage = Failed e
  end.

(** The planning itself, from any stage the wallet may be read in. *)
Lemma drafted_follows again max q p :
  (∀ wallet, stage_step q (GAvailable wallet) (aimed again max wallet)) →
  upholds q (drafted filler context row auction max p) (drafted_as again max).
Proof.
  intros Hq. unfold drafted.
  eapply (follows_then _ _ _ _ _ (λ r q', ∃ wallet planned, r = (p, Ok planned) ∧
    planned = plan_fill (terms filler context auction)
                (inputs context (ta_account row) auction max wallet) ∧
    q' = aimed again max wallet)).
  - unfold plan. apply follows_asked. intros wallet. eexists. split; [apply Hq|].
    apply follows_ret. by eexists _, _.
  - by intros p' e q' (? & ? & [=] & _).
  - intros p' a q' (wallet & fill & [= -> ->] & Hp & ->). unfold aimed. rewrite <- Hp.
    destruct fill as [[draft|reason]|e]; [|clear Hp|by apply follows_ret].
    { apply follows_ret. split; [done|]. symmetry in Hp. by apply plan_fill_percent in Hp. }
    assert (∀ told p, (told = true ↔ reason = Unfunded) →
      upholds (Skipping reason told) (and_then (clear_plan row)
        (λ _, and_then (count one_skipped) (λ _, done None)) p) (drafted_as again max)) as Hclear.
    { intros told p1 Htold. unfold clear_plan.
      eapply (follows_then _ _ _ _ _ (λ r q', q' = after_store r.2 (λ _ : (), Over))).
      - apply follows_stored. intros r. eexists. split; [by apply st_skip|].
        destruct r; [by apply follows_ret|done].
      - by intros p' e q' ->.
      - intros p' b q' ->. pures. }
    eapply follows_pure; [done|].
    eapply (follows_then _ _ _ _ _ (λ r q', r.2 = Ok () ∧ ∃ told,
      (told = true ↔ reason = Unfunded) ∧ q' = Skipping reason told)).
    + destruct reason;
        try (apply follows_ret; split; [done|]; exists false; split; [split; discriminate|done]).
      apply follows_asked. intros d. eexists. split; [apply st_unfunded|].
      apply follows_ret. split; [done|]. by exists true.
    + by intros p' e q' [[=] _].
    + intros p2 [] q' (_ & told & Htold & ->). by apply Hclear.
Qed.

Definition written_as (again : bool) (draft : FillDraft) (r : Pass * result StoreError bool)
    (stage : Stage) : Prop :=
  stage = after_store r.2 (λ found : bool, if found then written again draft else Over).

Lemma write_plan_follows again draft p :
  upholds (Aimed again draft) (write_plan row draft p) (written_as again draft).
Proof.
  unfold write_plan. apply follows_stored. intros r. eexists. split; [apply st_write|].
  destruct r as [[|]|e]; [|by apply follows_ret|done]. pures.
Qed.

(** The execution of what is written, from its stage to the one it leaves. *)
Definition executed_as (again : bool) (draft : FillDraft)
    (r : Pass * result StoreError (option ExecOutcome)) (stage : Stage) : Prop :=
  match r.2 with
  | Ok None => finished stage ∧ applied stage = None
  | Ok (Some outcome) => ∃ tier held x tr, stage = Running again draft tier held x tr false ∧
      executed draft tier held x tr (Ok outcome)
  | Err e => failed_with e stage
  end.

Lemma execution_follows again draft tier settlement p :
  upholds (Running again draft tier (held_by settlement) x_start [] false)
    (lift (translate FExec (execute (fl_executor filler) (planned_as draft tier) settlement queue)) p)
    (λ r q, ∃ answer x tr, r = (p, Ok answer) ∧
       q = Running again draft tier (held_by settlement) x tr false ∧
       executed draft tier (held_by settlement) x tr answer).
Proof.
  eapply follows_bind.
  - apply (follows_translate _ filler_log FExec GExec (λ _ _ _, eq_refl)
      (logged (fill_exec draft tier (held_by settlement))) stage_step
      (λ w, Running again draft tier (held_by settlement) w.1 w.2 false) (x_start, []));
      [|apply follows_logged, execute_follows].
    intros [x tr] o [x' tr'] [Hx Htr]. simpl in *. subst. by constructor.
  - intros answer q ([x tr] & -> & [Hs Ha] & Ht). apply follows_ret. exists answer, x, tr.
    split; [done|]. split; [done|]. split; [|done]. by exists settlement.
Qed.

(** What an error of the executor leaves was not applied. *)
Lemma error_not_applied again draft tier held x tr told
    (e : ExecutorError (StoreError:=StoreError)) :
  error_answer e x → (∀ s, e ≠ ExStore s) →
  applied (Running again draft tier held x tr told) = None.
Proof. destruct e; simpl; intros He Hne; try by rewrite He. by destruct (Hne e). Qed.

Lemma execute_once_follows again start draft p :
  has_come draft = true →
  upholds (written again draft) (execute_once filler context row start draft queue p)
    (executed_as again draft).
Proof.
  intros Hcome. unfold execute_once, written.
  destruct (priority filler context draft) as [tier|e] eqn:Hp.
  2: { pures. split; [|done]. right. by rewrite Hp. }
  rewrite Hcome, andb_true_r.
  assert (∀ settlement p,
    upholds (Running again draft tier (held_by settlement) x_start [] false)
      (and_then (lift (translate FExec
         (execute (fl_executor filler) (planned_as draft tier) settlement queue)))
       (λ executed, match executed with
          | Ok outcome => done (Some outcome)
          | Err (ExStore error) => λ p, Ret (p, Err error)
          | Err (ExQueue (QueueChain error)) =>
              and_then (ask (FNotify (FillDropped (ta_pool row) (ta_account row) error)))
                (λ _, done None)
          | Err _ => done None
          end) p) (executed_as again draft)) as Hrun.
  { intros settlement p1. eapply follows_then; [apply execution_follows|by intros ??? (? & ? & ? & [=] & _)|].
    intros p2 a q (answer & x & tr & [= -> ->] & -> & Hx).
    destruct answer as [outcome|e]; [apply follows_ret; by eexists _, _, _, _|].
    assert (∀ told p, (∀ s, e ≠ ExStore s) → told = bool_decide (is_Some (news (Err e))) →
      executed_as again draft (p, Ok None)
        (Running again draft tier (held_by settlement) x tr told)) as Hnone.
    { intros told p' Hne Htold. split; [|eapply error_not_applied; [apply Hx|done] ].
      exists (Err e). split; [done|]. split; [done|]. destruct e; try done. by destruct (Hne e). }
    destruct e as [s|e|e|e|what]; try (apply follows_ret; by apply Hnone); [by apply follows_ret|].
    destruct e as [| |error]; try (apply follows_ret; by apply Hnone).
    apply follows_asked. intros d. eexists. split; [by eapply st_tell|].
    apply follows_ret. by apply Hnone. }
  unfold settlement_for. destruct (fc_dry_run (fl_config filler)) eqn:Hdry.
  - eapply follows_pure; [done|]. apply (Hrun DryRun).
  - eapply (follows_then _ _ _ _ _ (λ r q, ∃ reserved,
      r = (p, Ok (let? t := reserved in Ok (Live t))) ∧
      q = match reserved with
          | Ok t => Running again draft tier (Some t) x_start [] false | Err _ => Over end)).
    + apply follows_asked. intros r. eexists. split; [by apply st_reserve|].
      apply follows_ret. by exists r.
    + by intros p' e q' (? & [=] & _).
    + intros p' a q' ([t|e] & [= -> ->] & ->); [apply (Hrun (Live t))|pures].
Qed.

Lemma note_recorded_follows again draft tier held x tr recorded p :
  executed draft tier held x tr (Ok (Recorded recorded)) →
  upholds (Running again draft tier held x tr false) (note_recorded row auction recorded p) acted.
Proof.
  intros Hx. pose proof Hx as (_ & _ & _ & _ & Hsent). unfold note_recorded.
  eapply follows_pure; [done|].
  eapply (follows_then _ _ _ _ _ (λ r q, r.2 = Ok () ∧ q = Running again draft tier held x tr false));
    [by destruct (fr_recorded_dry_run recorded); apply follows_ret|by intros ??? [[=] _]|].
  intros p1 [] q [_ ->]. set (told := bool_decide (is_Some (news (Ok (Recorded recorded))))).
  eapply (follows_then _ _ _ _ _ (λ r q, r.2 = Ok () ∧ q = Running again draft tier held x tr told)).
  - assert (∀ note d, news (Ok (Recorded recorded)) = Some note →
      stage_step (Running again draft tier held x tr false) (GNotify note d)
        (Running again draft tier held x tr told)) as Htell.
    { intros note d Hnote. replace told with true by (unfold told; by rewrite Hnote).
      by eapply st_tell. }
    unfold told, news in *.
    destruct (fr_submission recorded) as [[hash ledger value|hash ledger status code|hash v|hash v1 v2]|];
      try by apply follows_ret.
    + apply follows_asked. intros d. eexists. split; [by apply Htell|]. by apply follows_ret.
    + apply follows_asked. intros d. eexists. split; [by apply Htell|]. by apply follows_ret.
  - by intros ??? [[=] _].
  - intros p2 [] q [_ ->].
    assert (finished (Running again draft tier held x tr told)) as Hend
      by (by exists (Ok (Recorded recorded))).
    destruct (landed_at (fr_submission recorded)) as [at_|] eqn:Hl.
    + eapply follows_pure; [done|]. apply follows_ret. split; [done|]. exists at_.
      split; [simpl; rewrite Hsent; by destruct (fr_submission recorded)|].
      simpl. unfold owes. simpl. rewrite lookup_insert_eq, lookup_delete_eq. set_solver.
    + apply follows_ret. split; [done|]. simpl. rewrite Hsent. by destruct (fr_submission recorded).
Qed.

(** A stale plan, dropped. *)
Lemma drop_plan_follows again draft tier held x tr p :
  executed draft tier held x tr (Ok ExecStale) →
  upholds (Running again draft tier held x tr false)
    (and_then (drop_plan row) (λ _, done false) p) acted.
Proof.
  intros Hx. eapply (follows_then _ _ _ _ _ (λ r q, q = after_store r.2 (λ _ : (), Over))).
  - unfold drop_plan, clear_plan.
    eapply (follows_then _ _ _ _ _ (λ r q, q = after_store r.2 (λ _ : (), Over))).
    + apply follows_stored. intros r. eexists. split; [by apply st_stale|].
      destruct r; by try apply follows_ret.
    + by intros ??? ->.
    + intros p1 b q ->. pures.
  - by intros ??? ->.
  - intros p1 b q ->. by apply follows_ret.
Qed.

Lemma refused_not_applied again draft tier held x tr told code :
  refused_with code x → applied (Running again draft tier held x tr told) = None.
Proof. intros [Hr|[message Hr]]; simpl; by rewrite Hr. Qed.

(** Refused, and left. *)
Lemma refused_acted again draft tier held x tr outcome code p :
  executed draft tier held x tr (Ok outcome) →
  outcome = ExecRefused code ∨ (∃ c, outcome = Replan c ∧ again = true) →
  acted (p, Ok false) (Running again draft tier held x tr false).
Proof.
  intros Hx Ho. pose proof Hx as (_ & _ & Ha). split.
  - exists (Ok outcome). split; [done|]. by destruct Ho as [->|(c & -> & ->)].
  - destruct Ho as [->|(c & -> & ->)]; [|destruct Ha as [_ Ha]]; by eapply refused_not_applied.
Qed.

(** Written, and left for its ledger. *)
Lemma not_come again draft p :
  has_come draft = false → acted (p, Ok false) (written again draft).
Proof.
  intros Hcome. unfold acted, written. simpl. rewrite Hcome, andb_false_r.
  destruct (priority _ _ _); (split; [by left|done]).
Qed.

(** The one planning after a refusal. *)
Lemma replan_follows draft tier held x tr code p :
  may = true → executed draft tier held x tr (Ok (Replan code)) → fp_get (fd_percent draft) ≤ 100 →
  upholds (Running false draft tier held x tr false)
    (replan filler context row auction draft queue p) acted.
Proof.
  intros Hmay Hx Hle. unfold replan. destruct (fill_percent_try_from _) as [half|e] eqn:Hhalf.
  2: { exfalso. unfold fill_percent_try_from in Hhalf.
       destruct (_ && _) eqn:Hb; [done|].
       pose proof (Z.div_le_mono (fp_get (fd_percent draft)) 100 2 ltac:(lia) Hle) as Hd.
       change (100 / 2) with 50 in Hd. lia. }
  apply fill_percent_ok in Hhalf as [Hhalf _].
  eapply (follows_then _ _ _ _ _ (drafted_as true half)).
  { apply (drafted_follows true half). intros wallet. eapply st_replan; [done|by rewrite Hhalf]. }
  { by intros p1 e q ->. }
  intros p1 [again|] q Hq; unfold drafted_as in Hq; simpl in Hq; [destruct Hq as [-> _]|subst q; by apply follows_ret].
  eapply follows_then; [apply write_plan_follows|by intros p2 e q ->|].
  intros p2 [|] q Hq; unfold written_as in Hq; simpl in Hq; subst q; [|by apply follows_ret]. simpl negb. cbv iota.
  destruct (pp_earliest_ledger context <? fd_fill_ledger again) eqn:Hlater.
  { apply follows_ret, not_come. unfold has_come. rewrite Hmay. lia. }
  assert (has_come again = true) as Hcome by (unfold has_come; rewrite Hmay; lia).
  eapply follows_then; [by apply execute_once_follows|by intros p3 e q Hp|].
  intros p3 [outcome|] q Hq; unfold executed_as in Hq; simpl in Hq; [|by apply follows_ret].
  destruct Hq as (tier' & held' & x' & tr' & -> & Hx').
  destruct outcome as [recorded|code'|code'|].
  - by apply note_recorded_follows.
  - pures. eapply (refused_acted _ _ _ _ _ _ _ None); [done|]. right. by exists code'.
  - pures. eapply refused_acted; [done|by left].
  - by apply drop_plan_follows.
Qed.

Lemma execute_draft_follows draft p :
  has_come draft = true → fp_get (fd_percent draft) ≤ 100 →
  upholds (written false draft) (execute_draft filler context row auction draft queue p) acted.
Proof.
  intros Hcome Hle. unfold execute_draft.
  eapply follows_then; [by apply execute_once_follows|by intros p3 e q Hp|].
  intros p3 [outcome|] q Hq; unfold executed_as in Hq; simpl in Hq; [|by apply follows_ret].
  destruct Hq as (tier' & held' & x' & tr' & -> & Hx).
  destruct outcome as [recorded|code|code|].
  - by apply note_recorded_follows.
  - eapply replan_follows; [by destruct (andb_prop _ _ Hcome)|exact Hx|done].
  - pures. eapply refused_acted; [done|by left].
  - by apply drop_plan_follows.
Qed.

Lemma plan_and_act_follows max p :
  fp_get max = WHOLE_AUCTION →
  upholds (Aiming false max) (plan_and_act filler context row auction may queue p) acted.
Proof.
  intros Hmax. unfold plan_and_act. destruct (fill_percent_try_from _) as [whole|e] eqn:Hw; [|done].
  apply fill_percent_ok in Hw as [Hw Hle]. assert (max = whole) as ->.
  { rewrite Hw. destruct max. simpl in Hmax. by rewrite Hmax. }
  eapply (follows_then _ _ _ _ _ (drafted_as false whole)).
  { apply (drafted_follows false whole). intros wallet. apply st_aim. }
  { by intros p1 e q ->. }
  intros p1 [draft|] q Hq; unfold drafted_as in Hq; simpl in Hq; [destruct Hq as [-> Hd]|subst q; by apply follows_ret].
  eapply follows_then; [apply write_plan_follows|by intros p2 e q ->|].
  intros p2 [|] q Hq; unfold written_as in Hq; simpl in Hq; subst q; [|by apply follows_ret]. simpl negb. cbv iota.
  destruct (negb may || _) eqn:Hgate.
  - apply follows_ret, not_come. unfold has_come. destruct may; simpl in *; [lia|done].
  - apply execute_draft_follows; [unfold has_come; destruct may; simpl in *; [lia|done]|].
    rewrite Hw in Hd. simpl in Hd. lia.
Qed.
End auction.

(** ** What a flow does to what it carries *)

Section carried.
Context `{ScDecode} `{Json} (R : Pass → Pass → Prop) `{!PreOrder R}.

Definition carries {A : Type} (m : flow A) : Prop :=
  ∀ p, returns filler_log (m p) (λ _ r, R p r.1).

Lemma carries_done {A} (a : A) : carries (done a).
Proof. intros p. by apply returns_ret. Qed.
Lemma carries_state : carries get_state.
Proof. intros p. by apply returns_ret. Qed.
Lemma carries_tick : carries get_tick.
Proof. intros p. by apply returns_ret. Qed.
Lemma carries_error {A} (e : StoreError) : carries ((λ p, Ret (p, Err e)) : flow A).
Proof. intros p. by apply returns_ret. Qed.
Lemma carries_lift {A} (m : io FillerE A) : carries (lift m).
Proof.
  intros p. eapply (returns_bind _ _ _ (λ _ _, True)); [by intros n tr [a|] Hr|].
  intros a tr _. by apply returns_ret.
Qed.
Lemma carries_store {A} (q : StoreE A) : carries (filler_store q).
Proof.
  intros p. eapply (returns_bind _ _ _ (λ _ _, True)); [by intros n tr [a|] Hr|].
  intros a tr _. by apply returns_ret.
Qed.
Lemma carries_then {A B} (m : flow A) (k : A → flow B) :
  carries m → (∀ a, carries (k a)) → carries (and_then m k).
Proof.
  intros Hm Hk p. eapply returns_bind; [apply Hm|]. intros [p' [a|e]] tr Hp; simpl in Hp.
  - eapply returns_weaken; [apply Hk|]. intros tr' r Hr. by etrans.
  - by apply returns_ret.
Qed.
Lemma carries_change f :
  (∀ p, R p (mkPass (pa_tick p) (f (pa_state p)) (pa_summary p))) → carries (change f).
Proof. intros Hf p. apply returns_ret, Hf. Qed.
Lemma carries_count f :
  (∀ p, R p (mkPass (pa_tick p) (pa_state p) (f (pa_summary p)))) → carries (count f).
Proof. intros Hf p. apply returns_ret, Hf. Qed.

Lemma follows_carries {S A} (step : S → FillerObs → S → Prop) q p (m : flow A)
    (P : Pass * result StoreError A → S → Prop) :
  follows filler_log step q (m p) P → carries m →
  follows filler_log step q (m p) (λ r q', P r q' ∧ R p r.1).
Proof.
  intros Hf Hm. eapply always_weaken; [apply always_and; [exact Hf|apply Hm]|].
  intros tr [r|] [(q' & Hs & HP) Hr]; by exists q'.
Qed.
End carried.

Ltac carry_step :=
  first
  [ apply carries_done, _ | apply carries_state, _ | apply carries_tick, _ | apply carries_error, _
  | apply carries_store, _ | apply carries_lift, _
  | apply carries_then; [apply _| |let a := fresh "a" in intros a]
  | match goal with |- carries _ (match ?r with _ => _ end) => destruct r end
  | match goal with |- carries _ (if ?b then _ else _) => destruct b end
  | progress (unfold ask, clear_plan, skipped_as, drop_plan, settlement_for) ].

(** Acting on a version, a dry run forgets no record and makes that one at most;
    the tick is one. *)
Definition remembers (version : RecordedFill) (p p' : Pass) : Prop :=
  pa_tick p' = pa_tick p ∧ recorded_dry_run (pa_state p) ⊆ recorded_dry_run (pa_state p') ∧
  recorded_dry_run (pa_state p') ⊆ {[ version ]} ∪ recorded_dry_run (pa_state p).

#[export] Instance remembers_preorder version : PreOrder (remembers version).
Proof.
  split; [by repeat split; set_solver|]. intros p1 p2 p3 (H1 & ? & ?) (H2 & ? & ?).
  split; [congruence|set_solver].
Qed.

Section remembering.
Context `{ScDecode} `{Json} (filler : Filler) (context : PoolPass) (may queue : bool).

Ltac remember_all := repeat carry_step; try (first [apply carries_change | apply carries_count];
  intros p; split_and!; simpl; done || set_solver).

Context (row : TrackedAuction) (auction : AuctionData).
Abbreviation kept_but := (remembers (of_entry row auction)).

Lemma execute_once_remembers start draft :
  carries kept_but (execute_once filler context row start draft queue).
Proof. unfold execute_once. remember_all. Qed.
Lemma note_recorded_remembers recorded :
  carries kept_but (note_recorded row auction recorded).
Proof. unfold note_recorded. remember_all. Qed.
Lemma drafted_remembers percent :
  carries kept_but (drafted filler context row auction percent).
Proof. unfold drafted, plan. remember_all. Qed.
Lemma write_plan_remembers draft : carries kept_but (write_plan row draft).
Proof. unfold write_plan. remember_all. Qed.

Lemma plan_and_act_remembers :
  carries kept_but (plan_and_act filler context row auction may queue).
Proof.
  unfold plan_and_act, execute_draft, replan.
  repeat first [apply drafted_remembers | apply write_plan_remembers | apply execute_once_remembers
               | apply note_recorded_remembers | carry_step];
  (first [apply carries_change | apply carries_count]); intros p; split_and!; simpl; done || set_solver.
Qed.
End remembering.

(** ** The walk over a pool's auctions *)

Section walk.
Context `{ScDecode} `{Json} (filler : Filler) (context : PoolPass) (may queue : bool).
(** The versions a dry run had recorded before the walk. *)
Context (before : gset RecordedFill).

Abbreviation Live := (TrackedAuction * AuctionData)%type.

(** The auctions to come, the one being acted on, whether the task was told to
    stop, and the versions recorded before or acted on since. *)
Record Walk : Type := mkWalk {
  wk_rest : list Live;
  wk_now : option (Live * Stage);
  wk_told : bool;
  wk_seen : gset RecordedFill;
}.

Definition wk_applied (w : Walk) : option (Live * option Z) :=
  match wk_now w with
  | Some (e, stage) => (λ at_, (e, at_)) <$> applied stage
  | None => None
  end.

Definition wk_finished (w : Walk) : Prop :=
  match wk_now w with Some (e, stage) => finished filler context e.1 may queue stage | None => True end.

Definition wk_failed (error : StoreError) (w : Walk) : Prop :=
  match wk_now w with Some (e, stage) => failed_with filler e.1 queue error stage | None => False end.

(** Nothing is left to do about the last auction, and nothing of it was applied. *)
Definition wk_done (w : Walk) : Prop := wk_finished w ∧ wk_applied w = None.

(** One auction after another, in order, each from its start; the next, like the
    stop, only when the last is finished and nothing of it applied. None is
    passed over but a version recorded before, or acted on already, and none
    recorded before is acted on. *)
Inductive walk_step : Walk → FillerObs → Walk → Prop :=
| wk_stop rest now seen :
    wk_done (mkWalk rest now false seen) →
    walk_step (mkWalk rest now false seen) (GShutdown true) (mkWalk rest now true seen)
| wk_next e rest now seen whole :
    wk_done (mkWalk (e :: rest) now false seen) →
    of_entry e.1 e.2 ∉ before → fp_get whole = WHOLE_AUCTION →
    walk_step (mkWalk (e :: rest) now false seen) (GShutdown false)
      (mkWalk rest (Some (e, Aiming false whole)) false ({[ of_entry e.1 e.2 ]} ∪ seen))
| wk_skip e rest now seen :
    wk_done (mkWalk (e :: rest) now false seen) →
    of_entry e.1 e.2 ∈ seen →
    walk_step (mkWalk (e :: rest) now false seen) (GShutdown false) (mkWalk rest None false seen)
| wk_act e rest stage seen o stage' :
    stage_step filler context e.1 e.2 may queue stage o stage' →
    walk_step (mkWalk rest (Some (e, stage)) false seen) o
      (mkWalk rest (Some (e, stage')) false seen).

(** The walk ended with the last auction, when it was told to stop, or at what
    the chain applied, which is owed an unwind; or the store failed. *)
Definition walked (r : Pass * result StoreError ()) (w : Walk) : Prop :=
  match r.2 with
  | Ok _ =>
      wk_finished w ∧
      (wk_told w = true ∨
       (wk_rest w = [] ∧ wk_applied w = None) ∨
       ∃ e at_, wk_applied w = Some (e, at_) ∧ owes e.1 at_ (pa_state r.1))
  | Err e => wk_failed e w
  end.

Abbreviation upholds := (follows filler_log walk_step).

Lemma act_in_walk e rest seen p :
  upholds (mkWalk rest (Some (e, Aiming false (mkFillPercent WHOLE_AUCTION))) false seen)
    (plan_and_act filler context e.1 e.2 may queue p)
    (λ r w, ∃ stage, w = mkWalk rest (Some (e, stage)) false seen ∧ acted filler context e.1 may queue r stage ∧
       remembers (of_entry e.1 e.2) p r.1).
Proof.
  eapply follows_weaken.
  - apply (follows_carries (remembers (of_entry e.1 e.2))); [|apply plan_and_act_remembers].
    apply (follows_map filler_log (stage_step filler context e.1 e.2 may queue) walk_step
      (λ stage, mkWalk rest (Some (e, stage)) false seen)); [by constructor|].
    apply (plan_and_act_follows _ _ _ _ _ _ (mkFillPercent WHOLE_AUCTION)). done.
  - intros r w [(stage & -> & Ha) Hr]. by exists stage.
Qed.

Lemma walk_live_follows live : ∀ now seen p,
  wk_done (mkWalk live now false seen) →
  before ⊆ recorded_dry_run (pa_state p) → recorded_dry_run (pa_state p) ⊆ seen →
  upholds (mkWalk live now false seen) (walk_live filler context live may queue p) walked.
Proof.
  induction live as [|[row auction] live IH]; intros now seen p Hdone Hb Hseen.
  { apply follows_ret. split; [apply Hdone|]. right; left. split; [done|apply Hdone]. }
  cbn [walk_live]. apply follows_asked. intros [|].
  { eexists. split; [by apply wk_stop|]. apply follows_ret. split; [apply Hdone|by left]. }
  destruct (base.decide (of_entry row auction ∈ recorded_dry_run (pa_state p))) as [Hin|Hnin].
  - eexists. split; [apply wk_skip; [done..|set_solver]|]. eapply follows_pure; [done|].
    rewrite bool_decide_eq_true_2 by done. by apply IH.
  - eexists. split; [apply (wk_next _ _ _ _ (mkFillPercent WHOLE_AUCTION)); [done..|set_solver|done]|].
    eapply follows_pure; [done|]. rewrite bool_decide_eq_false_2 by done.
    eapply follows_then; [apply (act_in_walk (row, auction))|..].
    + intros p' e q (stage & -> & Hf & _). exact Hf.
    + intros p' [|] q (stage & -> & [Hf Ha] & Hrem).
      * destruct Ha as (at_ & Hat & Howes). apply follows_ret. split; [done|].
        right; right. exists (row, auction), at_. unfold wk_applied. simpl. by rewrite Hat.
      * destruct Hrem as (_ & Hgrow & Honly). simpl in Hgrow, Honly.
        apply IH; [|set_solver|set_solver]. split; [done|]. unfold wk_applied. simpl in *. by rewrite Ha.
Qed.
End walk.

(** ** Properties *)

(** C6: the filler does about a pool's auctions exactly what it planned for them.
    Whatever it is answered, the auctions are taken in order, none left out but
    a version recorded in a dry run before or acted on earlier in the walk; each
    is planned at the whole against the wallet as it stands then, written on its
    row, and, once its ledger has come and the tick may execute, executed over a
    reservation of exactly what the plan spends, by a whole run of the executor
    on exactly that plan, recorded before it is sent; when, and only when, the
    executor answers that the contract refused its health it is planned once
    more, at half the percent and never below one, and goes through the same
    stages; the operator is told once what the chain or the queue answered, and
    of a skip for want of funds. The next auction is taken, and the walk ends,
    only when all of that was done about the last one: it was skipped or could
    not be planned, written or reserved for, waits on its row for a ledger that
    has not come, has a profit that cannot be weighed, or its execution is over
    and nothing is held. A fill that landed, or may have, ends the walk, with an
    unwind of the pool owed from a snapshot that holds it, the wallet to be read
    again and no back-off open; nothing else ends it early but being told to stop
    or a failure of the store, seen in a call. *)
Theorem walk_fills_as_planned `{ScDecode} `{Json} (filler : Filler) (context : PoolPass)
    (live : list (TrackedAuction * AuctionData)) (may queue : bool) (p : Pass) :
  follows filler_log (walk_step filler context may queue (recorded_dry_run (pa_state p)))
    (mkWalk live None false (recorded_dry_run (pa_state p))) (walk_live filler context live may queue p)
    (walked filler context may queue).
Proof. by apply walk_live_follows. Qed.
