(* ===== verification/UnwindPass.v ===== *)
(** * The unwind passes ([src/filler.rs])

    What a pool is owed — a pass pending, a submission its snapshot must hold, a
    run of setbacks, an alert sent — and what one pass does about it, as a state
    machine: it looks, and plans nothing against a snapshot that does not hold
    what is owed; it moves what it planned, as it planned it; and what it leaves
    the pool owed is told by what happened. *)

From S2P Require Import Prelude Metrics Notifier Fixed Reserve Position Auction Encode FillDelay Fill Unwind.
From S2P Require Import Inventory Io Chain Operations Decode Events Rpc Snapshot Store Submit.
From S2P Require Import Config Poller Tracker Executor ExecutorContract Filler FillWalk.
Open Scope Z_scope.

(** ** What a pool is owed *)

Record Duty : Type := mkDuty {
  du_pending : bool;
  du_owed : option (option Z);
  du_setback : option Setback;
  du_notified : bool;
}.

Definition duty_of (s : FillerState) (pool : string) : Duty :=
  mkDuty (bool_decide (pool ∈ unwind_pending s)) (unwind_after s !! pool)
    (unwind_setbacks s !! pool) (bool_decide (pool ∈ leftovers_notified s)).

(** Nothing. *)
Definition done_with : Duty := mkDuty false None None false.
(** No longer pending, and no back-off. *)
Definition settled_duty (d : Duty) : Duty := mkDuty false (du_owed d) None (du_notified d).
Definition reset_duty (d : Duty) : Duty := mkDuty (du_pending d) (du_owed d) None (du_notified d).
Definition landed_duty (at_ : option Z) (d : Duty) : Duty :=
  mkDuty (du_pending d) (Some at_) None (du_notified d).
Definition setback_duty (tick : LedgerTick) (d : Duty) : Duty :=
  mkDuty (du_pending d) (du_owed d) (Some (next_setback tick (du_setback d))) (du_notified d).
Definition notified_duty (b : bool) (d : Duty) : Duty :=
  mkDuty (du_pending d) (du_owed d) (du_setback d) b.

(** The other pools keep theirs, and the tick is one. *)
Definition apart (pool : string) (p p' : Pass) : Prop :=
  pa_tick p' = pa_tick p ∧
  ∀ other, other ≠ pool → duty_of (pa_state p') other = duty_of (pa_state p) other.
#[export] Instance apart_preorder pool : PreOrder (apart pool).
Proof.
  split; [by split|]. intros p1 p2 p3 [H1 Ho1] [H2 Ho2]. split; [congruence|].
  intros o Ho. by rewrite Ho2, Ho1.
Qed.

Definition same_duties (p p' : Pass) : Prop :=
  pa_tick p' = pa_tick p ∧ ∀ pool, duty_of (pa_state p') pool = duty_of (pa_state p) pool.
#[export] Instance same_duties_preorder : PreOrder same_duties.
Proof.
  split; [by split|]. intros p1 p2 p3 [H1 Ho1] [H2 Ho2]. split; [congruence|].
  intros o. by rewrite Ho2, Ho1.
Qed.

(** ** What each change does to a pool's duty, and to the others' *)

Lemma duty_eq s s' pool :
  (pool ∈ unwind_pending s ↔ pool ∈ unwind_pending s') →
  unwind_after s !! pool = unwind_after s' !! pool →
  unwind_setbacks s !! pool = unwind_setbacks s' !! pool →
  (pool ∈ leftovers_notified s ↔ pool ∈ leftovers_notified s') →
  duty_of s pool = duty_of s' pool.
Proof.
  intros Hp Ha Hs Hn. unfold duty_of. rewrite Ha, Hs. f_equal; by apply bool_decide_ext.
Qed.

Lemma duty_is s pool pending owed setback notified :
  (pool ∈ unwind_pending s ↔ pending = true) → unwind_after s !! pool = owed →
  unwind_setbacks s !! pool = setback → (pool ∈ leftovers_notified s ↔ notified = true) →
  duty_of s pool = mkDuty pending owed setback notified.
Proof.
  intros Hp <- <- Hn. unfold duty_of. f_equal.
  - destruct pending; [apply bool_decide_eq_true_2|apply bool_decide_eq_false_2]; naive_solver.
  - destruct notified; [apply bool_decide_eq_true_2|apply bool_decide_eq_false_2]; naive_solver.
Qed.

(** Another pool's is as it was, this pool's as said. *)
Ltac others := intros other Hother; apply duty_eq; simpl;
  rewrite ?lookup_delete_ne, ?lookup_insert_ne by done; set_solver.
Ltac this := apply duty_is; simpl;
  rewrite ?lookup_delete_eq, ?lookup_insert_eq, ?bool_decide_eq_true; try done; set_solver.

Definition moves (pool : string) (f : FillerState → FillerState) (g : Duty → Duty) : Prop :=
  ∀ s, duty_of (f s) pool = g (duty_of s pool) ∧
       ∀ other, other ≠ pool → duty_of (f s) other = duty_of s other.

Lemma unwound_moves pool : moves pool (unwound pool) (λ _, done_with).
Proof. intros s. split; [this|others]. Qed.
Lemma no_longer_pending_moves pool : moves pool (no_longer_pending pool) settled_duty.
Proof. intros s. split; [this|others]. Qed.
Lemma clear_setback_moves pool : moves pool (clear_setback pool) reset_duty.
Proof. intros s. split; [this|others]. Qed.
Lemma landed_moves pool at_ : moves pool (unwind_landed pool at_) (landed_duty at_).
Proof. intros s. split; [this|others]. Qed.
Definition told (pool : string) (s : FillerState) : FillerState :=
  set_leftovers ({[pool]} ∪ leftovers_notified s) s.
Definition untold (pool : string) (s : FillerState) : FillerState :=
  set_leftovers (leftovers_notified s ∖ {[pool]}) s.
Lemma told_moves pool : moves pool (told pool) (notified_duty true).
Proof. intros s. split; [this|others]. Qed.
Lemma untold_moves pool : moves pool (untold pool) (notified_duty false).
Proof. intros s. split; [this|others]. Qed.
Lemma setback_moves pool tick s :
  let f := λ s', set_setbacks (<[pool := next_setback tick (unwind_setbacks s !! pool)]>
             (unwind_setbacks s')) s' in
  duty_of (f s) pool = setback_duty tick (duty_of s pool) ∧
  ∀ other, other ≠ pool → duty_of (f s) other = duty_of s other.
Proof. split; [this|others]. Qed.

(** ** What a snapshot shows *)

(** The pool's last submission, which an unknown ledger never is. *)
Definition holds (snapshot : PoolSnapshot) (owed : option (option Z)) : Prop :=
  match owed with
  | None => True
  | Some (Some ledger) => ledger ≤ ps_ledger snapshot
  | Some None => False
  end.

Definition nothing_held (positions : Positions) : Prop :=
  collateral positions = ∅ ∧ liabilities positions = ∅.

Lemma holds_submission_reflect snapshot owed :
  reflect (holds snapshot owed) (holds_submission snapshot owed).
Proof. apply iff_reflect. destruct owed as [[ledger|]|]; simpl; lia || done. Qed.

Lemma nothing_to_unwind_reflect positions :
  reflect (nothing_held positions) (nothing_to_unwind positions).
Proof.
  apply iff_reflect. unfold nothing_held, nothing_to_unwind.
  by rewrite andb_true_iff, !bool_decide_eq_true.
Qed.

Section pass.
Context `{ScDecode} `{Json} (filler : Filler) (pool : PoolConfig) (account : string).
Context (may queue : bool) (tick : LedgerTick) (duty : Duty).

(** ** One pass *)

Inductive UStage : Type :=
| Looking (reads : list Read)
| Looked (snapshot : PoolSnapshot)
| Unplanned
| Idle (plan : UnwindPlan) (told : option Delivery)
(** Inside the startup delay. *)
| Waiting (plan : UnwindPlan)
| Ready (plan : UnwindPlan)
| Unfundable
| Moving (plan : UnwindPlan) (held : option Reservation) (x : XState) (alerted : bool).

Definition snapshot_read : io ReadE (result ChainError PoolSnapshot) :=
  Snapshot.snapshot (cf_address pool) [account].

Definition position_in (snapshot : PoolSnapshot) : Positions :=
  default empty_positions (ps_positions snapshot !! account).

(** The snapshot in hand holds what the pool is owed, and a position. *)
Definition known (stage : UStage) (snapshot : PoolSnapshot) : Prop :=
  match stage with
  | Looking reads =>
      traces read snapshot_read reads (Some (Ok snapshot)) ∧
      holds snapshot (du_owed duty) ∧ ¬ nothing_held (position_in snapshot)
  | Looked snapshot' => snapshot' = snapshot
  | _ => False
  end.

Definition weighed (snapshot : PoolSnapshot) (reserves : gmap Z Reserve) (wallet : gmap string Z)
  : UStage :=
  match plan_unwind (unwind_terms_of pool snapshot)
          (unwind_inputs_of snapshot reserves (position_in snapshot) wallet) with
  | Err _ => Unplanned
  | Ok plan =>
      if is_idle plan then Idle plan None
      else if negb may then Waiting plan
      else if fc_dry_run (fl_config filler) then Moving plan None x_start false
      else Ready plan
  end.

Definition unwind_exec (plan : UnwindPlan) (held : option Reservation)
  : XState → Done (StoreError:=StoreError) → XState → Prop :=
  exec_step (fl_executor filler) (cf_address pool) (unwind_requests (up_actions plan)) None
    (unwind_submission (cf_address pool)) queue held.

(** Reading the wallet anew. *)
Definition refreshing (o : FillerObs) : Prop :=
  match o with GRead _ | GStale _ | GRecordBalances _ => True | _ => False end.

Inductive ustep : UStage → FillerObs → UStage → Prop :=
| us_read reads r : ustep (Looking reads) (GRead r) (Looking (reads ++ [r]))
| us_refresh stage snapshot o : known stage snapshot → refreshing o → ustep stage o (Looked snapshot)
| us_weigh stage snapshot reserves wallet :
    known stage snapshot →
    accrued_reserves snapshot (valued_at snapshot (lt_close_time tick)) = Ok reserves →
    ustep stage (GAvailable wallet) (weighed snapshot reserves wallet)
| us_leftovers plan d :
    up_remaining_liabilities plan ≠ [] → du_notified duty = false →
    ustep (Idle plan None)
      (GNotify (UnwindLeftovers (cf_address pool) (up_remaining_liabilities plan)) d)
      (Idle plan (Some d))
| us_reserve plan r :
    ustep (Ready plan) (GReserve (up_spend plan) r)
      (match r with Ok t => Moving plan (Some t) x_start false | Err _ => Unfundable end)
| us_exec plan held x o x' :
    unwind_exec plan held x o x' →
    ustep (Moving plan held x false) (GExec o) (Moving plan held x' false)
| us_stuck plan held x d :
    let setback := next_setback tick (du_setback duty) in
    sb_count setback = UNWIND_SETBACK_ALERT →
    ustep (Moving plan held x false)
      (GNotify (UnwindStuck (cf_address pool) account (sb_count setback)
                  (backoff (sb_count setback))) d)
      (Moving plan held x true).

(** An answer of the executor that left the position as it was. *)
Definition moved_nothing (r : result (ExecutorError (StoreError:=StoreError)) UnwindOutcome) : bool :=
  match r with
  | Ok (Planned _) => false
  | Ok (Submitted outcome) => match landing outcome with Some _ => false | None => true end
  | _ => true
  end.

(** What the executor's answer leaves the pool owed. *)
Definition after_unwind (r : result (ExecutorError (StoreError:=StoreError)) UnwindOutcome) : Duty :=
  match r with
  | Ok (Planned _) =>
      if fc_dry_run (fl_config filler) then settled_duty duty else reset_duty duty
  | Ok (Submitted outcome) =>
      match landing outcome with
      | Some at_ => landed_duty at_ duty
      | None => setback_duty tick duty
      end
  | _ => setback_duty tick duty
  end.

(** What a pass that ended in a stage leaves the pool owed. *)
Definition concludes (stage : UStage) (duty' : Duty) : Prop :=
  match stage with
  | Looking reads => ∃ looked, traces read snapshot_read reads (Some looked) ∧
      match looked with
      | Ok snapshot =>
          let over := holds snapshot (du_owed duty) ∧ nothing_held (position_in snapshot) in
          (over → duty' = done_with) ∧ (¬ over → duty' = duty)
      | Err _ => duty' = duty
      end
  | Looked _ | Unplanned | Waiting _ | Unfundable => duty' = duty
  | Idle plan told =>
      duty' = notified_duty (match up_remaining_liabilities plan with
                             | [] => false
                             | _ => match told with
                                    | None => true
                                    | Some DeliveryDropped => false
                                    | Some _ => true
                                    end
                             end) (settled_duty duty) ∧
      (told = None → up_remaining_liabilities plan = [] ∨ du_notified duty = true)
  | Ready _ => False
  | Moving plan held x alerted =>
      settled_well held x ∧
      ∃ r, unwind_answer r x ∧ (∀ e, r ≠ Err (ExStore e)) ∧ duty' = after_unwind r ∧
        alerted = moved_nothing r &&
          (sb_count (next_setback tick (du_setback duty)) =? UNWIND_SETBACK_ALERT)
  end.

Abbreviation upholds := (follows filler_log ustep).

(** From [p0], this pool's duty is [d], and the others' are as they were. *)
Definition stands (p0 : Pass) (d : Duty) (p : Pass) : Prop :=
  apart (cf_address pool) p0 p ∧ duty_of (pa_state p) (cf_address pool) = d.

(** What a pass ended with. *)
Definition passed (p0 : Pass) (r : Pass * result StoreError ()) (stage : UStage) : Prop :=
  ∃ duty', stands p0 duty' r.1 ∧ (r.2 = Ok () → concludes stage duty').

(** ** Lemmas *)

Lemma refresh_carries snapshot : carries same_duties (refresh_inventory filler pool snapshot).
Proof.
  unfold refresh_inventory. repeat carry_step; (apply carries_change); by intros p.
Qed.

Lemma refresh_follows stage snapshot p :
  known stage snapshot →
  upholds stage (refresh_inventory filler pool snapshot p)
    (λ r q, known q snapshot ∧ same_duties p r.1).
Proof.
  intros Hk. apply (follows_carries _ _ _ _ _ (λ _ q, known q snapshot)); [|apply refresh_carries].
  assert (∀ q o, known q snapshot → refreshing o → ∃ q', ustep q o q' ∧ known q' snapshot) as Hr.
  { intros q o Hq Ho. exists (Looked snapshot). split; [by eapply us_refresh|done]. }
  assert (∀ A q (e : FillerE A) (k : A → flow ()) p, known q snapshot →
    (∀ x, refreshing (filler_log _ e x)) →
    (∀ x q, known q snapshot → upholds q (k x p) (λ _ q, known q snapshot)) →
    upholds q (and_then (ask e) k p) (λ _ q, known q snapshot)) as Hask.
  { intros A q e k p1 Hq He Hnext. apply follows_asked. intros x.
    destruct (Hr q _ Hq (He x)) as (q' & Hs & Hq'). exists q'. auto. }
  unfold refresh_inventory. destruct (executor_filler filler) as [self|]; [|by apply follows_ret].
  eapply follows_pure; [done|]. eapply follows_pure; [done|].
  match goal with |- upholds _ (and_then _ ?k ?p) _ =>
    assert (∀ wanted q, known q snapshot → upholds q (k wanted p) (λ _ q, known q snapshot)) as Hrest end.
  { intros wanted q Hq. destruct (negb wanted); [by apply follows_ret|]. cbv zeta.
    eapply (follows_then _ _ _ _ _ (λ _ q, known q snapshot)); [|done|].
    - apply (follows_bind _ _ _ _ _ (λ _ q, known q snapshot));
        [|intros r q' Hq'; by apply follows_ret].
      apply (emits_within _ refreshing); [|done|done].
      by apply (emits_translate read filler_log FRead GRead (λ _ _ _, eq_refl)).
    - intros p' [balances|e] q' Hq'; [|by apply follows_ret].
      apply Hask; [done..|]. intros x q2 Hq2. by apply follows_ret. }
  destruct (inventory_stale _ || _); [|by apply Hask].
  eapply follows_pure; [done|]. by apply Hrest.
Qed.

(** Its snapshot, read. *)
Lemma snapshot_follows p :
  upholds (Looking []) (lift (translate FRead snapshot_read) p) (λ r q, ∃ reads looked,
    r = (p, Ok looked) ∧ q = Looking reads ∧ traces read snapshot_read reads (Some looked)).
Proof.
  eapply follows_bind.
  - apply (follows_collect read filler_log FRead GRead (λ _ _ _, eq_refl) ustep (Looking [])
      Looking snapshot_read (λ reads looked, traces read snapshot_read reads (Some looked))).
    + intros n tr [looked|] Hr; [by exists n|done].
    + done.
    + intros reads r. constructor.
  - intros looked q (reads & -> & Ht). apply follows_ret. by exists reads, looked.
Qed.

Lemma stands_moves p0 d p f g summary :
  moves (cf_address pool) f g → stands p0 d p →
  stands p0 (g d) (mkPass (pa_tick p) (f (pa_state p)) summary).
Proof.
  intros Hf [[Ht Ho] <-]. destruct (Hf (pa_state p)) as [Hd Hf']. split; [|done].
  split; [done|]. intros o Hne. simpl. by rewrite Hf', Ho.
Qed.

Lemma stands_same p0 d p p' : same_duties p p' → stands p0 d p → stands p0 d p'.
Proof.
  intros [Ht Hs] [[Ht0 Ho] <-]. split; [split; [congruence|]|apply Hs].
  intros o Hne. by rewrite Hs, Ho.
Qed.

Lemma stands_tick p0 d p : pa_tick p0 = tick → stands p0 d p → pa_tick p = tick.
Proof. intros <- [[Ht _] _]. done. Qed.

(** A setback, and the alert the third one sends. *)
Lemma note_setback_follows p0 plan held x p :
  pa_tick p0 = tick → stands p0 duty p →
  upholds (Moving plan held x false) (note_setback (cf_address pool) account p) (λ r q,
    r.2 = Ok () ∧ stands p0 (setback_duty tick duty) r.1 ∧
    q = Moving plan held x
          (sb_count (next_setback tick (du_setback duty)) =? UNWIND_SETBACK_ALERT)).
Proof.
  intros Htick Hst. pose proof (stands_tick _ _ _ Htick Hst) as Hp.
  destruct Hst as [[Ht Ho] Hd]. unfold note_setback. do 2 (eapply follows_pure; [done|]). cbv zeta.
  eapply follows_pure; [done|].
  assert (unwind_setbacks (pa_state p) !! cf_address pool = du_setback duty) as Hs
    by (by rewrite <- Hd).
  destruct (setback_moves (cf_address pool) tick (pa_state p)) as [Hthis Hothers].
  cbv zeta in Hthis, Hothers. rewrite Hs in Hthis, Hothers |- *. rewrite Hp.
  assert (stands p0 (setback_duty tick duty) (mkPass tick (set_setbacks
    (<[cf_address pool := next_setback tick (du_setback duty)]> (unwind_setbacks (pa_state p)))
    (pa_state p)) (pa_summary p))) as Hst.
  { split; [|simpl; by rewrite Hthis, Hd]. split; [by rewrite Htick|].
    intros o Hne. simpl. by rewrite Hothers, Ho. }
  destruct (sb_count _ =? UNWIND_SETBACK_ALERT) eqn:Hcount; [|by apply follows_ret].
  apply follows_asked. intros d. eexists. split; [apply us_stuck; lia|]. by apply follows_ret.
Qed.

Lemma note_unwound_follows p0 plan held x outcome p :
  pa_tick p0 = tick → stands p0 duty p → settled_well held x →
  unwind_answer (StoreError:=StoreError) (Ok outcome) x →
  upholds (Moving plan held x false)
    (note_unwound filler (cf_address pool) account outcome p) (passed p0).
Proof.
  intros Htick Hst Hset Hans.
  assert (∀ r : Pass * result StoreError (), moved_nothing (Ok outcome) = false →
    stands p0 (after_unwind (Ok outcome)) r.1 → passed p0 r (Moving plan held x false)) as Hmoved.
  { intros r Hm Hr. eexists. split; [exact Hr|]. intros _. split; [done|]. exists (Ok outcome).
    by rewrite Hm. }
  assert (moved_nothing (Ok outcome) = true → after_unwind (Ok outcome) = setback_duty tick duty →
    upholds (Moving plan held x false) (note_setback (cf_address pool) account p) (passed p0)) as Hnot.
  { intros Hm Hafter. eapply follows_weaken; [by apply note_setback_follows|].
    intros r q (Hok & Hr & ->). eexists. split; [exact Hr|]. intros _. split; [done|].
    exists (Ok outcome). by rewrite Hm. }
  unfold note_unwound. destruct outcome as [simulated|submitted|code|]; [| |by apply Hnot..].
  - simpl in Hmoved. destruct (fc_dry_run (fl_config filler)).
    + eapply follows_pure; [done|]. apply follows_ret, Hmoved; [done|].
      by apply (stands_moves _ _ p _ settled_duty); [apply no_longer_pending_moves|].
    + apply follows_ret, Hmoved; [done|]. by apply (stands_moves _ _ p _ reset_duty); [apply clear_setback_moves|].
  - cbn [moved_nothing after_unwind] in Hmoved, Hnot.
    change (landed_at (Some submitted)) with (landing submitted).
    destruct (landing submitted) as [at_|] eqn:Hl; [|by apply Hnot].
    eapply follows_pure; [done|]. apply follows_ret, Hmoved; [done|].
    by apply (stands_moves _ _ p _ (landed_duty at_)); [apply landed_moves|].
Qed.

Lemma move_follows plan settlement p :
  upholds (Moving plan (held_by settlement) x_start false)
    (lift (translate FExec (unwind (fl_executor filler) (cf_address pool) plan settlement queue)) p)
    (λ r q, ∃ executed x, r = (p, Ok executed) ∧
       q = Moving plan (held_by settlement) x false ∧
       settled_well (held_by settlement) x ∧ unwind_answer executed x).
Proof.
  eapply follows_bind.
  - apply (follows_translate _ filler_log FExec GExec (λ _ _ _, eq_refl)
      (unwind_exec plan (held_by settlement)) ustep
      (λ x, Moving plan (held_by settlement) x false)); [|apply unwind_follows].
    intros x o x' Hx. by constructor.
  - intros executed q (x & -> & Hs & Ha & _). apply follows_ret. by exists executed, x.
Qed.

Lemma execute_unwind_follows p0 plan p :
  pa_tick p0 = tick → stands p0 duty p →
  upholds (if fc_dry_run (fl_config filler) then Moving plan None x_start false else Ready plan)
    (execute_unwind filler (cf_address pool) account plan queue p) (passed p0).
Proof.
  intros Htick Hst. unfold execute_unwind.
  match goal with |- upholds _ (and_then _ ?k _) _ => assert (∀ settlement,
    upholds (Moving plan (held_by settlement) x_start false) (k (Ok settlement) p) (passed p0))
    as Hrun end.
  { intros settlement. eapply follows_then; [apply move_follows|by intros ??? (? & ? & [=] & _)|].
    intros p2 a q (executed & x & [= -> ->] & -> & Hs & Ha).
    destruct executed as [outcome|e]; [by apply note_unwound_follows|].
    destruct e as [s|e|e|e|what]; [apply follows_ret; by exists duty|..].
    all: eapply follows_weaken; [by apply note_setback_follows|];
      intros r q (_ & Hr & ->); eexists; (split; [exact Hr|]); intros _; (split; [done|]);
      eexists; (split; [exact Ha|]); by split. }
  unfold settlement_for. destruct (fc_dry_run (fl_config filler)) eqn:Hdry.
  - eapply follows_pure; [done|]. apply (Hrun DryRun).
  - eapply (follows_then _ _ _ _ _ (λ r q, ∃ reserved,
      r = (p, Ok (let? t := reserved in Ok (Live t))) ∧
      q = match reserved with Ok t => Moving plan (Some t) x_start false | Err _ => Unfundable end)).
    + apply follows_asked. intros r. eexists. split; [by apply us_reserve|].
      apply follows_ret. by exists r.
    + by intros p' e q' (? & [=] & _).
    + intros p' a q' ([t|e] & [= -> ->] & ->); [apply (Hrun (Live t))|].
      apply follows_ret. exists duty. by split.
Qed.

Lemma note_idle_follows p0 plan p :
  stands p0 duty p →
  upholds (Idle plan None) (note_idle (cf_address pool) plan p) (passed p0).
Proof.
  intros Hst. unfold note_idle. eapply follows_pure; [done|].
  set (p1 := mkPass _ _ _). assert (stands p0 (settled_duty duty) p1) as Hst1.
  { by apply (stands_moves _ _ p _ settled_duty); [apply no_longer_pending_moves|]. }
  clearbody p1. destruct (up_remaining_liabilities plan) as [|asset assets] eqn:Hrest.
  { apply follows_ret. exists (notified_duty false (settled_duty duty)). split.
    - by apply (stands_moves _ _ p1 (untold _) (notified_duty false)); [apply untold_moves|].
    - intros _. simpl. rewrite Hrest. split; [done|]. by left. }
  rewrite <- Hrest. eapply follows_pure; [done|].
  case_bool_decide as Hin.
  - apply follows_ret. exists (settled_duty duty). split; [done|]. intros _.
    assert (du_notified duty = true) as Hn.
    { destruct Hst1 as [_ Hd]. apply (f_equal du_notified) in Hd. simpl in Hd. rewrite <- Hd.
      by apply bool_decide_eq_true_2. }
    simpl. rewrite Hrest. split; [|by right]. unfold settled_duty, notified_duty. simpl.
    by rewrite Hn.
  - assert (du_notified duty = false) as Hn.
    { destruct Hst1 as [_ Hd]. apply (f_equal du_notified) in Hd. simpl in Hd. rewrite <- Hd.
      by apply bool_decide_eq_false_2. }
    eapply follows_pure; [done|]. set (p2 := mkPass _ _ _).
    assert (stands p0 (notified_duty true (settled_duty duty)) p2) as Hst2.
    { by apply (stands_moves _ _ p1 (told _) (notified_duty true)); [apply told_moves|]. }
    clearbody p2. apply follows_asked. intros d. eexists.
    split; [apply us_leftovers; [by rewrite Hrest|done]|].
    destruct d; apply follows_ret; eexists;
      (split; [first [exact Hst2 | by apply (stands_moves _ (notified_duty true (settled_duty duty)) p2 (untold _) (notified_duty false));
                                    [apply untold_moves|]]|]);
      intros _; simpl; rewrite Hrest; by split.
Qed.

Lemma unwind_pool_follows p :
  pa_tick p = tick → duty_of (pa_state p) (cf_address pool) = duty →
  upholds (Looking []) (unwind_pool filler pool account may queue p) (passed p).
Proof.
  intros Htick Hd. assert (stands p duty p) as Hst by (by split).
  unfold unwind_pool. eapply follows_then; [apply snapshot_follows|by intros ??? (? & ? & [=] & _)|].
  intros p1 a q (reads & looked & [= -> ->] & -> & Hreads).
  destruct looked as [snapshot|e];
    [|apply follows_ret; exists duty; split; [done|]; intros _; by exists (Err e)].
  eapply follows_pure; [done|].
  assert (unwind_after (pa_state p) !! cf_address pool = du_owed duty) as Howed by (by rewrite <- Hd).
  rewrite Howed. destruct (holds_submission_reflect snapshot (du_owed duty)) as [Hholds|Hholds].
  2: { apply follows_ret. exists duty. split; [done|]. intros _. exists (Ok snapshot).
       split; [done|]. split; [by intros [? _]|done]. }
  cbv zeta. simpl negb. cbv iota. fold (position_in snapshot).
  destruct (nothing_to_unwind_reflect (position_in snapshot)) as [Hnothing|Hnothing].
  { apply follows_ret. exists done_with. split.
    - by apply (stands_moves _ duty p _ (λ _, done_with)); [apply unwound_moves|].
    - intros _. exists (Ok snapshot). split; [done|]. split; [done|]. by intros []. }
  eapply (follows_then _ _ _ _ _ (λ r q, known q snapshot ∧ same_duties p r.1));
    [by apply refresh_follows|..].
  { intros p' e q [_ Hsame]. exists duty. split; [by eapply stands_same|done]. }
  intros p' [] q [Hknown Hsame]. simpl in Hsame.
  assert (stands p duty p') as Hst' by (by eapply stands_same).
  assert (concludes q duty) as Hunplanned.
  { destruct q; try done. exists (Ok snapshot).
    destruct Hknown as (Ht & Hh & Hn). split; [done|]. split; [by intros [_ ?]|done]. }
  eapply follows_pure; [done|]. rewrite (stands_tick _ _ _ Htick Hst').
  destruct (accrued_reserves snapshot _) as [reserves|e] eqn:Haccrued;
    [|apply follows_ret; by exists duty].
  apply follows_asked. intros wallet. eexists. split; [by apply (us_weigh _ snapshot reserves)|].
  unfold weighed. destruct (plan_unwind _ _) as [plan|e]; [|apply follows_ret; by exists duty].
  destruct (is_idle plan); [by apply note_idle_follows|].
  destruct (negb may); [apply follows_ret; by exists duty|]. by apply execute_unwind_follows.
Qed.
End pass.

(** ** The passes over the pools *)

Section passes.
Context `{ScDecode} `{Json} (filler : Filler) (account : string).
Context (may queue : bool) (tick : LedgerTick).

(** The pools to come, the one being unwound, what each pool was owed when that
    pass started, and whether the task was told to stop. *)
Record Passes : Type := mkPasses {
  ps_rest : list PoolConfig;
  ps_now : option (PoolConfig * UStage);
  ps_duties : string → Duty;
  ps_told : bool;
}.

(** A pass is due when one is pending and its back-off is over. *)
Definition pass_due (d : Duty) : bool :=
  du_pending d && negb (match du_setback d with
                        | Some setback => lt_sequence tick <? sb_retry_at setback
                        | None => false
                        end).

(** What the pools are owed once the pass under way has ended. *)
Definition concluded (w : Passes) (duties : string → Duty) : Prop :=
  match ps_now w with
  | None => ∀ a, duties a = ps_duties w a
  | Some (pool, stage) =>
      concludes filler pool account tick (ps_duties w (cf_address pool)) stage
        (duties (cf_address pool)) ∧
      ∀ other, other ≠ cf_address pool → duties other = ps_duties w other
  end.

(** One pool after another, in order; a pass for each that one is due, none for
    the others. *)
Inductive passes_step : Passes → FillerObs → Passes → Prop :=
| pw_stop w duties :
    concluded w duties → ps_told w = false →
    passes_step w (GShutdown true) (mkPasses (ps_rest w) None duties true)
| pw_next pool rest now duties duties' :
    concluded (mkPasses (pool :: rest) now duties false) duties' →
    passes_step (mkPasses (pool :: rest) now duties false) (GShutdown false)
      (mkPasses rest (if pass_due (duties' (cf_address pool))
                      then Some (pool, Looking []) else None) duties' false)
| pw_act pool rest stage duties o stage' :
    ustep filler pool account may queue tick (duties (cf_address pool)) stage o stage' →
    passes_step (mkPasses rest (Some (pool, stage)) duties false) o
      (mkPasses rest (Some (pool, stage')) duties false).

(** The passes ended with the last pool, or when told to stop; what each pool is
    owed then is what the passes concluded. *)
Definition passes_end (r : Pass * result StoreError ()) (w : Passes) : Prop :=
  r.2 = Ok () → (ps_rest w = [] ∨ ps_told w = true) ∧ concluded w (duty_of (pa_state r.1)).

Lemma unwind_each_follows pools : ∀ now duties p,
  pa_tick p = tick → concluded (mkPasses pools now duties false) (duty_of (pa_state p)) →
  follows filler_log passes_step (mkPasses pools now duties false)
    (unwind_each filler pools account may queue p) passes_end.
Proof.
  induction pools as [|pool pools IH]; intros now duties p Htick Hc.
  { apply follows_ret. intros _. split; [by left|done]. }
  cbn [unwind_each]. apply follows_asked. intros [|].
  { eexists. split; [by apply (pw_stop _ (duty_of (pa_state p)))|]. apply follows_ret. intros _.
    split; [by right|done]. }
  eexists. split; [by apply (pw_next _ _ _ _ (duty_of (pa_state p)))|].
  do 2 (eapply follows_pure; [done|]). cbv zeta. unfold pass_due. simpl. rewrite Htick.
  set (waits := match unwind_setbacks (pa_state p) !! _ with Some _ => _ | None => _ end).
  destruct (bool_decide_reflect (cf_address pool ∈ unwind_pending (pa_state p))) as [Hin|Hnin].
  2: { rewrite bool_decide_eq_true_2 by done. by apply IH. }
  rewrite bool_decide_eq_false_2 by naive_solver. simpl.
  destruct waits; [by apply IH|]. simpl.
  eapply follows_then.
  - apply (follows_map filler_log
      (ustep filler pool account may queue tick (duty_of (pa_state p) (cf_address pool))) passes_step
      (λ stage, mkPasses pools (Some (pool, stage)) (duty_of (pa_state p)) false)); [by constructor|].
    by apply unwind_pool_follows.
  - by intros p' e q (stage & -> & Hq) [=].
  - intros p' [] q (stage & -> & duty' & [[Ht Ho] <-] & Hc'). simpl in *.
    apply IH; [congruence|]. by split; [apply Hc'|].
Qed.
End passes.

(** ** Properties *)

(** C7: an unwind pass is made for exactly the pools that are owed one, and
    moves only what it planned from a snapshot that holds what the pool was
    owed. Whatever the filler is answered: the pools are taken in order, and a
    pass is made for each that is pending and whose back-off is over, and for no
    other. A pass reads its snapshot, and plans only where that snapshot is at or
    past the ledger of the pool's last submission — never past one whose ledger
    is not known — and the filler has a position in it; it plans from that
    snapshot, its prices and reserves accrued to the tick, and the wallet as it
    stands; what it plans it sends as planned, over a reservation of what the
    plan spends, and only when the tick may execute. A pool stops being pending
    only when such a snapshot shows no position, when nothing is left to move,
    or in a dry run; debt left over is told once an episode; a pass that landed,
    or may have, is the next one's ledger to wait for; one that moved nothing is
    a setback, and the alert goes out on the third in a row and on no other. *)
Theorem passes_follow_their_duty `{ScDecode} `{Json} (filler : Filler) (pools : list PoolConfig)
    (account : string) (may queue : bool) (p : Pass) :
  follows filler_log (passes_step filler account may queue (pa_tick p))
    (mkPasses pools None (duty_of (pa_state p)) false)
    (unwind_each filler pools account may queue p)
    (passes_end filler account (pa_tick p)).
Proof. by apply unwind_each_follows. Qed.
