(* ===== verification/FillerTick.v ===== *)
(** * A tick of the filler ends, and no pool is held back for long ([src/filler.rs])

    Whatever it is answered, a tick ends; and the back-off of a pool whose
    unwind keeps moving nothing doubles to its bound and no further, so a pass
    is due again within it. *)

From S2P Require Import Prelude Fixed Reserve Position Auction Encode FillDelay Fill Unwind.
From S2P Require Import Inventory Io Chain Operations Decode Events Rpc Snapshot Store Submit.
From S2P Require Import Config Poller Tracker Executor Filler FillWalk UnwindPass.
Open Scope Z_scope.

(** ** A tick ends *)

Section ending.
Context `{ScDecode} `{Json} {W : Type} (answer : ∀ X : Type, FillerE X → W → X * W).
Context (filler : Filler) (may queue : bool).

Definition ends_flow {A : Type} (m : flow A) : Prop :=
  ∀ p w, halts filler_log answer w (m p).

Lemma ends_then {A B} (m : flow A) (k : A → flow B) :
  ends_flow m → (∀ a, ends_flow (k a)) → ends_flow (and_then m k).
Proof.
  intros Hm Hk p w. apply halts_bind; [apply Hm|]. intros w' [p' [a|e]]; [apply Hk|apply halts_ret].
Qed.
Lemma ends_now {A} (f : Pass → Pass * result StoreError A) : ends_flow (λ p, Ret (f p)).
Proof. intros p w. apply halts_ret. Qed.
Lemma ends_lift {A} (m : io FillerE A) :
  (∀ w, halts filler_log answer w m) → ends_flow (lift m).
Proof. intros Hm p w. apply halts_bind; [apply Hm|]. intros; apply halts_ret. Qed.
Lemma ends_ask {A} (e : FillerE A) : ends_flow (ask e).
Proof. apply ends_lift. intros w. apply halts_perform. Qed.
Lemma ends_store {A} (q : StoreE A) : ends_flow (filler_store q).
Proof. intros p w. apply halts_bind; [apply halts_perform|]. intros; apply halts_ret. Qed.
Lemma ends_read {A} (m : io ReadE A) :
  (∀ w, halts read (λ X e, answer X (FRead X e)) w m) → ends_flow (lift (translate FRead m)).
Proof.
  intros Hm. apply ends_lift. intros w.
  apply (halts_translate read filler_log FRead GRead (λ _ _ _, eq_refl)), Hm.
Qed.
Lemma ends_exec {A} (m : io (ExecE (StoreError:=StoreError)) A) :
  (∀ w, halts done_log (λ X e, answer X (FExec X e)) w m) → ends_flow (lift (translate FExec m)).
Proof.
  intros Hm. apply ends_lift. intros w.
  apply (halts_translate done_log filler_log FExec GExec (λ _ _ _, eq_refl)), Hm.
Qed.

(** *** The executor's calls *)

Section executor.
Context (self : Executor) (exec : ∀ X : Type, ExecE (StoreError:=StoreError) X → W → X * W).
Abbreviation halting := (halts (done_log (StoreError:=StoreError)) exec).

Lemma release_halts tok w : halting w (release_token tok).
Proof. destruct tok; [apply halts_perform|apply halts_ret]. Qed.
Lemma settle_halts_token tok settle w : halting w (settle_token tok settle).
Proof. destruct settle; [destruct tok; [apply halts_perform|apply halts_ret]|apply release_halts]. Qed.

Lemma guard_halts settlement w : halting w (mode_guard self settlement queue).
Proof.
  unfold mode_guard. apply halts_bind.
  - destruct settlement; destruct (ex_dry_run self); simpl; try apply halts_ret.
    apply halts_bind; [apply halts_perform|]. intros; apply halts_ret.
  - intros w' [tok|e]; [|apply halts_ret].
    destruct (queue && _); [apply halts_bind; [apply release_halts|intros; apply halts_ret]|].
    destruct (queue && _); [apply halts_bind; [apply release_halts|intros; apply halts_ret]|].
    apply halts_ret.
Qed.

Lemma judge_halts pool requests w : halting w (judge_operation self pool requests queue).
Proof.
  unfold judge_operation. destruct (ex_submitter self) as [[source config]|]; [|apply halts_ret].
  apply halts_try; [apply halts_ret|]. intros w1 operation.
  apply halts_try; [|intros; apply halts_ret].
  apply halts_bind; [|intros; apply halts_ret].
  apply (halts_translate seen done_log NetCall DNet (λ _ _ _, eq_refl)), simulate_only_halts.
Qed.

Lemma enqueue_halts submission w : halting w (enqueue submission).
Proof. apply halts_bind; [apply halts_perform|]. intros; apply halts_ret. Qed.

Lemma execute_halts plan settlement w : halting w (execute self plan settlement queue).
Proof.
  unfold execute. apply halts_try; [apply guard_halts|]. intros w1 tok.
  apply halts_bind; [|intros w2 [answer' settled];
    apply halts_bind; [apply settle_halts_token|intros; apply halts_ret]].
  unfold run_fill. apply halts_bind.
  { unfold judge. apply halts_try; [apply halts_ret|]. intros w2 requests.
    apply halts_try; [apply judge_halts|intros; apply halts_ret]. }
  assert (∀ operation simulated w, halting w
    (await row := perform (RecordFill (record_of self plan)) in
      match row with
      | Err error => Ret (Err (ExStore error), Release)
      | Ok fill_id =>
          if negb queue then Ret (Ok (recorded_as self fill_id simulated None), Release)
          else match operation with
               | None => Ret (Ok (recorded_as self fill_id simulated None), Release)
               | Some operation => submit_recorded self plan fill_id simulated operation
               end
      end)) as Hrecord.
  { intros operation simulated w2. apply halts_bind; [apply halts_perform|].
    intros w3 [id|e]; [|apply halts_ret]. destruct (negb queue); [apply halts_ret|].
    destruct operation; [|apply halts_ret]. unfold submit_recorded.
    apply halts_bind; [apply enqueue_halts|]. intros w4 [[[]|] settle]; try apply halts_ret.
    apply halts_bind; [apply halts_perform|intros; apply halts_ret]. }
  intros w2 [[operation|operation| |outcome]|e]; cbv zeta;
    first [apply (Hrecord (Some operation))|apply (Hrecord None)|apply halts_ret].
Qed.

Lemma unwind_halts pool plan settlement w : halting w (unwind self pool plan settlement queue).
Proof.
  unfold unwind. apply halts_try; [apply guard_halts|]. intros w1 tok. destruct (is_idle plan).
  { apply halts_bind; [apply release_halts|intros; apply halts_ret]. }
  apply halts_bind; [|intros w2 [answer' settled];
    apply halts_bind; [apply settle_halts_token|intros; apply halts_ret]].
  unfold run_unwind_pass. apply halts_bind; [apply judge_halts|].
  intros w2 judged. cbv zeta.
  destruct judged as [[operation|operation| |code message|]|e]; try apply halts_ret;
    destruct (negb queue); try apply halts_ret;
    (apply halts_bind; [apply enqueue_halts|intros w3 [landed settle]; apply halts_ret]).
Qed.
End executor.

(** *** The flows *)

Lemma read_balances_halts pool account assets balances w :
  halts read (λ X e, answer X (FRead X e)) w (read_balances pool account assets balances).
Proof.
  revert balances w. induction assets as [|asset assets IH]; intros balances w; [apply halts_ret|].
  cbn [read_balances]. apply halts_try; [apply read_balance_halts|]. intros w1 [at_ amount]. apply IH.
Qed.

(** One step; [ending] takes them all. *)
Ltac end_step := first
  [ apply ends_then; [|let a := fresh "a" in intros a]
  | apply ends_store | apply ends_ask
  | apply ends_read; intros ?; (apply snapshot_halts || apply read_auction_halts || apply read_balances_halts)
  | apply ends_exec; intros ?; (apply execute_halts || apply unwind_halts)
  | match goal with |- ends_flow (match ?r with _ => _ end) => destruct r end
  | match goal with |- ends_flow (if ?b then _ else _) => destruct b end
  | solve [exact (ends_now _)]
  | solve [apply ends_now]
  | progress (cbv zeta) ].
Ltac ending := repeat end_step.

Lemma plan_and_act_ends context row auction :
  ends_flow (plan_and_act filler context row auction may queue).
Proof.
  assert (∀ row draft start, ends_flow (execute_once filler context row start draft queue)) as Hexec.
  { intros. unfold execute_once, skipped_as, settlement_for. ending. }
  assert (∀ row auction recorded, ends_flow (note_recorded row auction recorded)) as Hnote.
  { intros. unfold note_recorded. ending. }
  unfold plan_and_act, execute_draft, replan, drafted, plan, write_plan, drop_plan, clear_plan, skipped_as.
  repeat first [apply Hexec | apply Hnote | end_step].
Qed.

Lemma walk_live_ends context live : ends_flow (walk_live filler context live may queue).
Proof.
  induction live as [|[row auction] live IH]; [exact (ends_now _)|]. cbn [walk_live].
  repeat first [apply plan_and_act_ends | exact IH | end_step].
Qed.

Lemma read_entries_ends pool rows : ends_flow (read_entries pool rows).
Proof.
  induction rows as [|row rows IH]; [exact (ends_now _)|]. cbn [read_entries].
  repeat first [exact IH | end_step].
Qed.

Lemma refresh_ends pool snapshot : ends_flow (refresh_inventory filler pool snapshot).
Proof. unfold refresh_inventory. ending. Qed.

Lemma tick_pool_ends pool : ends_flow (tick_pool filler pool may queue).
Proof.
  unfold tick_pool.
  assert (∀ rows, ends_flow (candidates_of filler pool rows)) as Hc.
  { intros rows p w. unfold candidates_of. destruct (consider_all _ _ _ _ _). apply halts_ret. }
  repeat first [apply Hc | apply walk_live_ends | apply read_entries_ends | apply refresh_ends
               | end_step].
Qed.

Lemma unwind_pool_ends pool account : ends_flow (unwind_pool filler pool account may queue).
Proof.
  unfold unwind_pool, execute_unwind, settlement_for, note_unwound, note_idle, note_setback.
  repeat first [apply refresh_ends | end_step].
Qed.

Lemma filler_tick_halts tick s w : halts filler_log answer w (filler_tick filler tick may queue s).
Proof.
  unfold filler_tick. apply halts_bind; [|intros w' [p r]; apply halts_ret]. revert w.
  match goal with |- ∀ w, halts _ _ w (?m ?p) => cut (ends_flow m); [intros Hm w; apply Hm|] end.
  apply ends_then.
  - induction (fl_pools filler) as [|pool pools IH]; [exact (ends_now _)|]. cbn [tick_each].
    repeat first [apply tick_pool_ends | exact IH | end_step].
  - intros []. unfold unwind_passes. destruct (executor_filler filler) as [account|]; [|exact (ends_now _)].
    induction (fl_pools filler) as [|pool pools IH]; [exact (ends_now _)|]. cbn [unwind_each].
    repeat first [apply unwind_pool_ends | exact IH | end_step].
Qed.
End ending.

(** ** The back-off *)

(** Every back-off of a pass is one it found or ends within the bound of its
    tick. *)
Definition backs_off (p p' : Pass) : Prop :=
  pa_tick p' = pa_tick p ∧
  ∀ pool sb, unwind_setbacks (pa_state p') !! pool = Some sb →
    unwind_setbacks (pa_state p) !! pool = Some sb ∨
    sb_retry_at sb ≤ lt_sequence (pa_tick p) + UNWIND_BACKOFF_MAX_LEDGERS.
#[export] Instance backs_off_preorder : PreOrder backs_off.
Proof.
  split; [split; auto|]. intros p1 p2 p3 [H1 Hs1] [H2 Hs2]. split; [congruence|].
  intros pool sb Hsb. apply Hs2 in Hsb as [Hsb|Hsb]; [by apply Hs1|right; by rewrite <- H1].
Qed.

Section backing.
Context `{ScDecode} `{Json} (filler : Filler) (may queue : bool).

Lemma backoff_bound count : backoff count ≤ UNWIND_BACKOFF_MAX_LEDGERS.
Proof. unfold backoff. lia. Qed.

Lemma note_setback_backs_off pool account : carries backs_off (note_setback pool account).
Proof.
  intros p. unfold note_setback.
  apply (returns_bind _ _ _ (λ _ r, r = (p, Ok (pa_tick p)))); [by apply returns_ret|].
  intros ? _ ->. simpl. apply (returns_bind _ _ _ (λ _ r, r = (p, Ok (pa_state p)))); [by apply returns_ret|].
  intros ? _ ->. cbv zeta. simpl. set (setback := next_setback _ _).
  match goal with |- returns _ (and_then _ ?k _) _ =>
    apply (returns_bind _ _ _ (λ _ r, backs_off p r.1)) end.
  - apply returns_ret. split; [done|]. simpl. intros other sb Hsb.
    apply lookup_insert_Some in Hsb as [[_ <-]|[_ Hsb]]; [|by left]. right.
    unfold setback, next_setback, u32_saturating_add. simpl.
    pose proof (backoff_bound (Z.min (default 0 (sb_count <$> unwind_setbacks (pa_state p) !! pool) + 1)
      u32_max)). lia.
  - intros [p1 [[]|e]] _ Hp; simpl in Hp; [|by apply returns_ret].
    assert (carries backs_off (if sb_count setback =? UNWIND_SETBACK_ALERT then
      and_then (ask (FNotify (UnwindStuck pool account (sb_count setback) (backoff (sb_count setback)))))
        (λ _, done ()) else done ())) as Hc by (repeat carry_step).
    eapply returns_weaken; [apply Hc|]. intros tr r Hr. by etrans.
Qed.

Ltac back_step := first
  [ apply note_setback_backs_off | carry_step
  | apply carries_change; intros ?; (split; [done|]); simpl; intros ? ? Hsb;
    rewrite ?lookup_delete_Some in Hsb; left; first [exact Hsb | apply Hsb]
  | apply carries_count; intros ?; (split; [done|]); by left
  | progress cbv zeta ].

Lemma consider_all_setbacks pool tick rows : ∀ s,
  unwind_setbacks (consider_all filler pool tick rows s).1 = unwind_setbacks s.
Proof.
  induction rows as [|row rows IH]; intros s; [done|]. cbn [consider_all].
  destruct (considered filler pool tick row s) as [s1 keep] eqn:Hc.
  specialize (IH s1). destruct (consider_all filler pool tick rows s1) as [s2 rows']. simpl in *.
  rewrite IH. unfold considered in Hc. by repeat (case_match; simplify_eq).
Qed.

Lemma candidates_backs_off pool rows : carries backs_off (candidates_of filler pool rows).
Proof.
  intros p. unfold candidates_of. pose proof (consider_all_setbacks pool (pa_tick p) rows (pa_state p)) as Hs.
  destruct (consider_all _ _ _ _ _) as [s candidates]. apply returns_ret. split; [done|]. simpl.
  intros other sb Hsb. left. simpl in Hs. by rewrite <- Hs.
Qed.

Lemma plan_and_act_backs_off context row auction :
  carries backs_off (plan_and_act filler context row auction may queue).
Proof.
  unfold plan_and_act, execute_draft, replan, execute_once, drafted, plan, write_plan, note_recorded.
  repeat back_step.
Qed.

Lemma walk_live_backs_off context live : carries backs_off (walk_live filler context live may queue).
Proof.
  induction live as [|[row auction] live IH]; [by apply carries_done, _|]. cbn [walk_live].
  repeat first [exact IH | apply plan_and_act_backs_off | back_step].
Qed.

Lemma read_entries_backs_off pool rows : carries backs_off (read_entries pool rows).
Proof.
  induction rows as [|row rows IH]; [by apply carries_done, _|]. cbn [read_entries].
  repeat first [exact IH | back_step].
Qed.

Lemma tick_pool_backs_off pool : carries backs_off (tick_pool filler pool may queue).
Proof.
  unfold tick_pool, refresh_inventory.
  repeat first [apply candidates_backs_off | apply walk_live_backs_off | apply read_entries_backs_off
               | back_step].
Qed.

Lemma unwind_pool_backs_off pool account : carries backs_off (unwind_pool filler pool account may queue).
Proof.
  unfold unwind_pool, refresh_inventory, note_idle, execute_unwind, note_unwound. repeat back_step.
Qed.

Lemma filler_tick_backs_off tick s :
  returns filler_log (filler_tick filler tick may queue s) (λ _ r,
    ∀ pool sb, unwind_setbacks r.1 !! pool = Some sb →
      unwind_setbacks s !! pool = Some sb ∨
      sb_retry_at sb ≤ lt_sequence tick + UNWIND_BACKOFF_MAX_LEDGERS).
Proof.
  unfold filler_tick. set (p0 := mkPass _ _ _).
  apply (returns_bind _ _ _ (λ _ r, backs_off p0 r.1)).
  - revert p0. match goal with |- let _ := ?q in _ => set (p0 := q) end.
    assert (carries backs_off (and_then (tick_each filler (fl_pools filler) may queue)
      (λ _, unwind_passes filler may queue))) as Hc; [|apply Hc].
    apply carries_then; [apply _|..].
    + induction (fl_pools filler) as [|pool pools IH]; [by apply carries_done, _|]. cbn [tick_each].
      repeat first [exact IH | apply tick_pool_backs_off | back_step].
    + intros []. unfold unwind_passes. destruct (executor_filler filler) as [account|].
      2: { apply carries_change. intros p. split; [done|]. simpl. intros pool sb Hsb. left.
           by case_bool_decide. }
      induction (fl_pools filler) as [|pool pools IH]; [by apply carries_done, _|]. cbn [unwind_each].
      repeat first [exact IH | apply unwind_pool_backs_off | back_step].
  - intros [p r] tr [_ Hb]. apply returns_ret. simpl in *. intros pool sb Hsb.
    destruct (Hb pool sb Hsb) as [Hs|Hs]; [left|by right]. unfold seed_unwind in Hs.
    by destruct (unwind_seeded s).
Qed.
End backing.

(** No back-off runs past a ledger. *)
Definition within (L : Z) (s : FillerState) : Prop :=
  ∀ pool sb, unwind_setbacks s !! pool = Some sb → sb_retry_at sb ≤ L.

Lemma within_due L s tick pool :
  within L s → pool ∈ unwind_pending s → L ≤ lt_sequence tick →
  pass_due tick (duty_of s pool) = true.
Proof.
  intros Hw Hp Hle. unfold pass_due. simpl. rewrite bool_decide_eq_true_2 by done. simpl.
  destruct (unwind_setbacks s !! pool) as [sb|] eqn:Hsb; [|done]. specialize (Hw pool sb Hsb). lia.
Qed.

(** The back-off after a run of setbacks at these ticks. *)
Definition setbacks (ticks : list LedgerTick) (d : Duty) : Duty :=
  foldl (λ d tick, setback_duty tick d) d ticks.

Lemma setbacks_count ticks d :
  du_setback d = None → Z.of_nat (length ticks) ≤ u32_max →
  default 0 (sb_count <$> du_setback (setbacks ticks d)) = Z.of_nat (length ticks).
Proof.
  intros Hd. induction ticks as [|tick ticks IH] using rev_ind; intros Hn; [simpl; by rewrite Hd|].
  unfold setbacks in *. rewrite foldl_app, length_app in *. simpl in *.
  unfold u32_saturating_add. rewrite IH by lia. lia.
Qed.

Lemma setbacks_last ticks tick d :
  du_setback d = None → Z.of_nat (length (ticks ++ [tick])) ≤ u32_max →
  let n := Z.of_nat (length (ticks ++ [tick])) in
  du_setback (setbacks (ticks ++ [tick]) d)
  = Some (mkSetback n (u32_saturating_add (lt_sequence tick) (Z.min (2 ^ n) 64))).
Proof.
  intros Hd Hn n. pose proof (setbacks_count ticks d Hd) as Hc. unfold setbacks in *.
  rewrite foldl_app. simpl. unfold next_setback.
  assert (u32_saturating_add (default 0 (sb_count <$> du_setback (foldl (λ d tick, setback_duty tick d) d ticks))) 1 = n) as ->.
  { unfold n. rewrite length_app in *. simpl in *. rewrite Hc by lia. unfold u32_saturating_add. lia. }
  do 3 f_equal. unfold backoff, pow2_saturating, UNWIND_BACKOFF_MAX_LEDGERS, u32_max. lia.
Qed.

(** ** Properties *)

(** C14: a tick of the filler ends, and no pool's unwind is held back for long. A
    tick ends, whatever it is answered. A pass that moves nothing holds its pool
    back two ledgers the first time, twice as many each time after, and never
    more than 64; so if no back-off ran past a ledger before a tick, none runs
    past that ledger or the tick's and 64 after it, and a pool that is pending
    is due a pass at any tick from there on. Nothing is held back when the
    filler starts. *)
Theorem unwinds_resume `{ScDecode} `{Json} (filler : Filler) (may queue : bool) (tick : LedgerTick)
    (s : FillerState) (L : Z) :
  (∀ W (answer : ∀ X : Type, FillerE X → W → X * W) w,
     halts filler_log answer w (filler_tick filler tick may queue s)) ∧
  returns filler_log (filler_tick filler tick may queue s) (λ _ r,
     within L s → within (Z.max L (lt_sequence tick + 64)) r.1 ∧
     ∀ pool tick', pool ∈ unwind_pending r.1 →
       Z.max L (lt_sequence tick + 64) ≤ lt_sequence tick' →
       pass_due tick' (duty_of r.1 pool) = true) ∧
  (∀ ticks last d, du_setback d = None → Z.of_nat (length (ticks ++ [last])) ≤ u32_max →
     let n := Z.of_nat (length (ticks ++ [last])) in
     du_setback (setbacks (ticks ++ [last]) d)
     = Some (mkSetback n (u32_saturating_add (lt_sequence last) (Z.min (2 ^ n) 64)))) ∧
  within 0 filler_state_default.
Proof.
  split_and!; [intros; apply filler_tick_halts| |intros; by apply setbacks_last|
    intros pool sb; unfold filler_state_default; simpl; by rewrite lookup_empty].
  eapply returns_weaken; [apply filler_tick_backs_off|]. intros tr r Hr Hw.
  assert (within (Z.max L (lt_sequence tick + 64)) r.1) as Hw'.
  { intros pool sb Hsb. destruct (Hr pool sb Hsb) as [Hs|Hs]; [specialize (Hw pool sb Hs); lia|].
    unfold UNWIND_BACKOFF_MAX_LEDGERS in Hs. lia. }
  split; [done|]. intros pool tick' Hp Hle. by eapply within_due.
Qed.
