(* ===== verification/Settings.v ===== *)
(** * The configuration the process starts with ([src/config.rs])

    From the text of each knob to the validated [ServiceConfig], and from the
    two secrets to the keys that sign. What clap, toml, the file system, the
    HTTP client's header names and the key codec do is the class [Outside]. An
    [Err] carries the text of a [LiquidatorError::Config]. *)

From S2P Require Import Prelude Fixed FillDelay Fill Store Config.
From Stdlib Require Import Ascii.
From stdpp Require Import pretty.
Open Scope Z_scope.

(** ** Knobs *)

Local Open Scope string_scope.

Definition backquoted (text : string) : string := "`" +:+ text +:+ "`".

(** [strict_bool]. *)
Definition strict_bool (value : string) : result string bool :=
  if bool_decide (value = "true") then Ok true
  else if bool_decide (value = "false") then Ok false
  else Err ("expected `true` or `false` (exactly), got " +:+ backquoted value).

Inductive NetworkName : Type := Mainnet | Testnet.

(** [NetworkName::passphrase]. *)
Definition passphrase (self : NetworkName) : string :=
  match self with
  | Mainnet => "Public Global Stellar Network ; September 2015"
  | Testnet => "Test SDF Network ; September 2015"
  end.

Inductive RunMode : Type := Loop | CheckConfig.

(** A decimal knob, in seven decimals: the newtype's integer. *)
Definition Decimal7 : Type := Z.

(** [str::split_once]. *)
Fixpoint split_once (separator : ascii) (text : string) : option (string * string) :=
  match text with
  | EmptyString => None
  | String c rest =>
      if Ascii.eqb c separator then Some (EmptyString, rest)
      else match split_once separator rest with
           | Some (before, after) => Some (String c before, after)
           | None => None
           end
  end.

Fixpoint all_digits (text : string) : bool :=
  match text with
  | EmptyString => true
  | String c rest => bool_decide (is_Some (dec_digit c)) && all_digits rest
  end.

(** [{text:0<width}]: zeros on the right up to the width. *)
Fixpoint zeros (n : nat) : string :=
  match n with O => EmptyString | S n => String "0" (zeros n) end.
Definition pad_right (width : nat) (text : string) : string :=
  text +:+ zeros (width - String.length text).

Definition DECIMALS : nat := 7.

(** [Decimal7::from_str]. *)
Definition decimal7_from_str (text : string) : result string Decimal7 :=
  let '(whole, fraction) :=
    match split_once "." text with Some parts => parts | None => (text, EmptyString) end in
  if bool_decide (whole = EmptyString) || negb (all_digits whole) then
    Err (backquoted text +:+ " is not a non-negative decimal number")
  else if negb (all_digits fraction) then
    Err (backquoted text +:+ " is not a non-negative decimal number")
  else if (DECIMALS <? String.length fraction)%nat then
    Err (backquoted text +:+ " has more than 7 decimal places")
  else
    match parse_i128 (whole +:+ pad_right DECIMALS fraction) with
    | Some scaled => Ok scaled
    | None => Err (backquoted text +:+ " does not fit a 128-bit fixed-point value")
    end.

Definition TARGET_HF_MIN : Z := 10300000.
Definition TARGET_HF_MAX : Z := 11500000.

Definition target_health_factor (text : string) : result string Decimal7 :=
  let? value := decimal7_from_str text in
  if ((value <? TARGET_HF_MIN) || (TARGET_HF_MAX <=? value))%Z then
    Err (backquoted text +:+ " is outside the band this bot plans within: TARGET_HF must be at least 1.03 and below 1.15. The contract itself accepts exactly 1.15 — its own check is strict — but aiming there leaves no room for the drift between planning and fill, so the upper bound is this bot's margin and the lower one is the contract's")
  else Ok value.

Definition health_multiplier (text : string) : result string Decimal7 :=
  let? value := decimal7_from_str text in
  if (value <? SCALAR_7)%Z then
    Err (backquoted text +:+ " is under 1: HF_SAFETY_MULTIPLIER scales the pool's own min_health_factor, and under one the filler's floor would sit below it")
  else Ok value.

Definition amount_from_str (text field : string) : result string Z :=
  match parse_i128 text with
  | Some amount => Ok amount
  | None => Err (field +:+ ": " +:+ backquoted text +:+ " is not an integer amount")
  end.

(** ** The pools file *)

Record RawPool : Type := mkRawPool {
  raw_address : string;
  raw_primary_asset : string;
  raw_min_primary_collateral : string;
  raw_min_health_factor : Decimal7;
  raw_default_profit_bps : Z;
  raw_force_fill : bool;
  raw_fill_objective : option string;
  raw_supported_bid : list string;
  raw_supported_lot : list string;
  raw_profits : list ProfitRule;
}.

Definition CONTRACT_MIN_HEALTH : Z := 10000100.

(** [parse_pools], one table: what is seen so far and what it adds. *)
Definition parse_pool (state : gset string * list PoolConfig) (pool : RawPool)
  : result string (gset string * list PoolConfig) :=
  let '(seen, pools) := state in
  if bool_decide (raw_address pool ∈ seen) then
    Err ("pools file: duplicate pool " +:+ raw_address pool)
  else
    let? min_primary_collateral :=
      amount_from_str (raw_min_primary_collateral pool) "min_primary_collateral" in
    if (min_primary_collateral <? 0)%Z then
      Err "pools file: min_primary_collateral must not be negative"
    else if (raw_min_health_factor pool <=? CONTRACT_MIN_HEALTH)%Z then
      Err ("pools file: pool " +:+ raw_address pool +:+ ": min_health_factor is at or under the contract's own post-submit minimum (1.00001), so the filler would plan fills the contract refuses as InvalidHf")
    else
      let? fill_objective :=
        match raw_fill_objective pool with
        | None => Ok FreeFill
        | Some objective =>
            if bool_decide (objective = "free-fill") then Ok FreeFill
            else if bool_decide (objective = "earliest-profitable") then Ok EarliestProfitable
            else Err ("pools file: pool " +:+ raw_address pool +:+ ": " +:+ backquoted objective +:+ " is not a fill_objective: it is `free-fill` (the default, which waits for the ledger the bid is gone) or `earliest-profitable` (which fills as soon as the lot covers the bid plus the pool's margin)")
        end in
      Ok ({[raw_address pool]} ∪ seen,
          (pools ++ [mkPoolConfig (raw_address pool) (raw_primary_asset pool) min_primary_collateral
            (raw_min_health_factor pool) (raw_default_profit_bps pool) (raw_force_fill pool)
            fill_objective (raw_supported_bid pool) (raw_supported_lot pool) (raw_profits pool)])%list).

(** A TOML value of a decimal knob: a string, an integer, or a float, which
    arrives as the text it renders to. *)
Inductive RawDecimal : Type := RawText (text : string) | RawInteger (value : Z) | RawFloat (text : string).

(** [Decimal7::deserialize]. *)
Definition decimal7_deserialize (raw : RawDecimal) : result string Decimal7 :=
  decimal7_from_str
    (match raw with RawText text => text | RawInteger value => pretty value | RawFloat text => text end).

(** ** What other code answers *)

Class Outside : Type := {
  (** [toml::from_str]: the tables of the pools file. Its decimal fields are
      read by [Decimal7]'s own deserializer. *)
  toml_from_str : string → result string (list RawPool);
  toml_decimals text pools pool :
    toml_from_str text = Ok pools → pool ∈ pools →
    ∃ raw, decimal7_deserialize raw = Ok (raw_min_health_factor pool);
  (** [std::fs::read_to_string]. *)
  read_to_string : string → result string string;
  (** [toml::from_str]: the one table of a seed file. *)
  seed_file_from_str : string → result string (gmap string (list string));
  (** [reqwest::ClientBuilder::build]. *)
  http_client : result string ();
  (** [HeaderName::from_bytes]. *)
  header_name : string → bool;
  (** The key codec: an [S…] secret's key, and a key's [G…] address. *)
  SigningKey : Type;
  private_key : string → option SigningKey;
  address_of : SigningKey → string;
}.

Section outside.
Context `{Outside}.

(** [parse_pools]. *)
Definition parse_pools (text : string) : result string (list PoolConfig) :=
  let? raw := map_err (λ error, "pools file: " +:+ error) (toml_from_str text) in
  match raw with
  | [] => Err "pools file: at least one pool (a [[pools]] table) is required"
  | _ =>
      let? state := try_fold parse_pool (∅, []) raw in
      Ok state.2
  end.

(** ** The arguments *)

Record Args : Type := mkArgs {
  ar_dry_run : bool;
  ar_network_passphrase : option string;
  ar_network : option NetworkName;
  ar_rpc_url : option string;
  ar_rpc_api_key_header : option string;
  ar_base_fee : Z;
  ar_high_fee : Z;
  ar_tx_poll_ledgers : Z;
  ar_pools_file : option string;
  ar_pools_toml : option string;
  ar_run_mode : RunMode;
  ar_database_max_connections : Z;
  ar_poll_interval_ms : Z;
  ar_user_refresh_ledgers : Z;
  ar_refresh_batch : Z;
  ar_full_scan_ledgers : Z;
  ar_scan_hf_threshold : Decimal7;
  ar_liq_hf_threshold : Decimal7;
  ar_target_hf : Decimal7;
  ar_oracle_scan_ledgers : Z;
  ar_price_delta_bps : Z;
  ar_plan_iterations : Z;
  ar_startup_delay_ledgers : Z;
  ar_hf_safety_multiplier : Decimal7;
  ar_replan_ledgers : Z;
  ar_replan_near_ledgers : Z;
  ar_xlm_fee_reserve : Decimal7;
  ar_high_fee_profit_threshold : Decimal7;
  ar_inventory_refresh_secs : Z;
  ar_failure_notification_cooldown_hours : Z;
  ar_port : option Z;
  ar_http_port : option Z;
  ar_http_bind_addr : string;
  ar_health_max_lag_ledgers : Z;
  ar_telegram_chat_id : option string;
  ar_seed_url : string;
  ar_seed_hf_max : Decimal7;
  ar_seed_file : option string;
}.

(** The value parsers the arguments name: what clap lets through. A decimal is
    what [decimal7_from_str], or the argument's own parser, answers to some
    text; an integer is of its type's width, and in its range where it has
    one. *)
Definition ranged (lo hi value : Z) : Prop := (lo ≤ value ≤ hi)%Z.
Definition decimal_knob (parser : string → result string Decimal7) (value : Decimal7) : Prop :=
  ∃ text, parser text = Ok value.

Record accepts (self : Args) : Prop := {
  accepts_base_fee : is_u32 (ar_base_fee self);
  accepts_high_fee : is_u32 (ar_high_fee self);
  accepts_tx_poll_ledgers : ranged 1 100000 (ar_tx_poll_ledgers self);
  accepts_database_max_connections : ranged 1 100 (ar_database_max_connections self);
  accepts_poll_interval_ms : ranged 100 60000 (ar_poll_interval_ms self);
  accepts_user_refresh_ledgers : is_u32 (ar_user_refresh_ledgers self);
  accepts_refresh_batch : ranged 1 1000 (ar_refresh_batch self);
  accepts_full_scan_ledgers : ranged 1 u32_max (ar_full_scan_ledgers self);
  accepts_scan_hf_threshold : decimal_knob decimal7_from_str (ar_scan_hf_threshold self);
  accepts_liq_hf_threshold : decimal_knob decimal7_from_str (ar_liq_hf_threshold self);
  accepts_target_hf : decimal_knob target_health_factor (ar_target_hf self);
  accepts_oracle_scan_ledgers : ranged 1 u32_max (ar_oracle_scan_ledgers self);
  accepts_price_delta_bps : ranged 1 u32_max (ar_price_delta_bps self);
  accepts_plan_iterations : ranged 1 u32_max (ar_plan_iterations self);
  accepts_startup_delay_ledgers : is_u32 (ar_startup_delay_ledgers self);
  accepts_hf_safety_multiplier : decimal_knob health_multiplier (ar_hf_safety_multiplier self);
  accepts_replan_ledgers : ranged 1 u32_max (ar_replan_ledgers self);
  accepts_replan_near_ledgers : is_u32 (ar_replan_near_ledgers self);
  accepts_xlm_fee_reserve : decimal_knob decimal7_from_str (ar_xlm_fee_reserve self);
  accepts_high_fee_profit_threshold :
    decimal_knob decimal7_from_str (ar_high_fee_profit_threshold self);
  accepts_inventory_refresh_secs : ranged 1 u64_max (ar_inventory_refresh_secs self);
  accepts_failure_notification_cooldown_hours :
    ranged 1 (u64_max / 3600) (ar_failure_notification_cooldown_hours self);
  accepts_health_max_lag_ledgers : ranged 1 u32_max (ar_health_max_lag_ledgers self);
  accepts_seed_hf_max : decimal_knob decimal7_from_str (ar_seed_hf_max self);
}.

(** ** What the service is given *)

(** [Secret]; its text is reached through [expose] only. *)
Record Secret : Type := mkSecret { expose : string }.

Record ChainConfig : Type := mkChainConfig {
  cc_network_passphrase : string;
  cc_rpc_url : string;
  cc_rpc_api_key : option (string * Secret);
  cc_base_fee : Z;
  cc_high_fee : Z;
  cc_tx_poll_ledgers : Z;
}.

Record HttpConfig : Type := mkHttpConfig {
  hc_bind : string * Z;
  hc_max_lag_ledgers : Z;
}.

Record TelegramConfig : Type := mkTelegramConfig {
  tg_token : Secret;
  tg_chat_id : string;
  tg_base_url : option string;
}.

Record SeedConfig : Type := mkSeedConfig {
  sd_url : option string;
  sd_health_factor_max : Z;
  sd_file : option string;
}.

(** Durations are nanoseconds. *)
Record ServiceConfig : Type := mkServiceConfig {
  sc_chain : ChainConfig;
  sc_database_url : Secret;
  sc_database_max_connections : Z;
  sc_pools : list PoolConfig;
  sc_run_mode : RunMode;
  sc_dry_run : bool;
  sc_poll_interval : Z;
  sc_user_refresh_ledgers : Z;
  sc_refresh_batch : Z;
  sc_full_scan_ledgers : Z;
  sc_scan_health_factor : Z;
  sc_liquidation_health_factor : Z;
  sc_target_health_factor : Z;
  sc_oracle_scan_ledgers : Z;
  sc_price_delta_bps : Z;
  sc_plan_iterations : Z;
  sc_startup_delay_ledgers : Z;
  sc_seed : SeedConfig;
  sc_hf_safety_multiplier : Z;
  sc_replan_ledgers : Z;
  sc_replan_near_ledgers : Z;
  sc_xlm_fee_reserve : Z;
  sc_high_fee_profit_threshold : Z;
  sc_inventory_refresh : Z;
  sc_notification_cooldown : Z;
  sc_http : option HttpConfig;
  sc_telegram : option TelegramConfig;
}.

Definition from_millis (n : Z) : Z := (n * 1000000)%Z.
Definition from_secs (n : Z) : Z := (n * 1000000000)%Z.
Definition from_hours (n : Z) : Z := from_secs (n * 3600)%Z.

(** [Option::filter] of what is not empty. *)
Definition not_empty (text : option string) : option string :=
  text ≫= λ t, if bool_decide (t = EmptyString) then None else Some t.

(** [Args::chain_with_secret]. *)
Definition chain_with_secret (self : Args) (rpc_api_key : option string) : result string ChainConfig :=
  let rpc_api_key := not_empty rpc_api_key in
  let? network_passphrase :=
    match ar_network_passphrase self, ar_network self with
    | Some text, _ => Ok text
    | None, Some name => Ok (passphrase name)
    | None, None => Err "NETWORK_PASSPHRASE or NETWORK is required"
    end in
  let? rpc_url := ok_or (ar_rpc_url self) "RPC_URL is required" in
  let header := not_empty (ar_rpc_api_key_header self) in
  guard (match header with Some header => header_name header | None => true end)
    else "RPC_API_KEY_HEADER is not a valid header name";
  let? rpc_api_key :=
    match header, rpc_api_key with
    | Some header, Some key => Ok (Some (header, mkSecret key))
    | None, None => Ok None
    | Some _, None => Err "RPC_API_KEY_HEADER is set but RPC_API_KEY is not"
    | None, Some _ => Err "RPC_API_KEY is set but RPC_API_KEY_HEADER is not"
    end in
  Ok (mkChainConfig network_passphrase rpc_url rpc_api_key (ar_base_fee self) (ar_high_fee self)
    (ar_tx_poll_ledgers self)).

(** [service_with_secrets], the pair that makes the Telegram channel. *)
Definition telegram_of (self : Args) (telegram_bot_token : option string)
  : result string (option TelegramConfig) :=
  match not_empty (ar_telegram_chat_id self), not_empty telegram_bot_token with
  | Some chat_id, Some token => Ok (Some (mkTelegramConfig (mkSecret token) chat_id None))
  | None, None => Ok None
  | Some _, None => Err "TELEGRAM_CHAT_ID is set but TELEGRAM_BOT_TOKEN is not"
  | None, Some _ => Err "TELEGRAM_BOT_TOKEN is set but TELEGRAM_CHAT_ID is not"
  end.

(** [service_with_secrets], where the pools come from. *)
Definition pools_of (self : Args) : result string (list PoolConfig) :=
  match ar_pools_file self, ar_pools_toml self with
  | Some path, None =>
      let? text :=
        map_err (λ error, "pools file " +:+ path +:+ ": " +:+ error) (read_to_string path) in
      parse_pools text
  | None, Some text => parse_pools text
  | _, _ => Err "one of POOLS_FILE or POOLS_TOML is required"
  end.

(** [Args::service_with_secrets]. *)
Definition service_with_secrets (self : Args)
    (database_url rpc_api_key telegram_bot_token : option string) : result string ServiceConfig :=
  let? telegram := telegram_of self telegram_bot_token in
  let? chain := chain_with_secret self rpc_api_key in
  let? database_url := ok_or database_url "DATABASE_URL is required" in
  let? pools := pools_of self in
  guard (ar_liq_hf_threshold self <? ar_scan_hf_threshold self)%Z
    else "LIQ_HF_THRESHOLD is at or above SCAN_HF_THRESHOLD: the full scan only flags borrowers strictly below SCAN_HF_THRESHOLD, so a liquidation threshold at or above it names borrowers nothing ever flags for a decision";
  let http :=
    (λ port, mkHttpConfig (ar_http_bind_addr self, port) (ar_health_max_lag_ledgers self)) <$>
      (match ar_port self with Some port => Some port | None => ar_http_port self end) in
  let? xlm_fee_reserve :=
    if in_u64 (ar_xlm_fee_reserve self) then Ok (ar_xlm_fee_reserve self)
    else Err "XLM_FEE_RESERVE is larger than any wallet can hold" in
  Ok (mkServiceConfig chain (mkSecret database_url) (ar_database_max_connections self) pools
    (ar_run_mode self) (ar_dry_run self) (from_millis (ar_poll_interval_ms self))
    (ar_user_refresh_ledgers self) (ar_refresh_batch self) (ar_full_scan_ledgers self)
    (ar_scan_hf_threshold self) (ar_liq_hf_threshold self) (ar_target_hf self)
    (ar_oracle_scan_ledgers self) (ar_price_delta_bps self) (ar_plan_iterations self)
    (ar_startup_delay_ledgers self)
    (mkSeedConfig (not_empty (Some (ar_seed_url self))) (ar_seed_hf_max self) (ar_seed_file self))
    (ar_hf_safety_multiplier self) (ar_replan_ledgers self) (ar_replan_near_ledgers self)
    xlm_fee_reserve (ar_high_fee_profit_threshold self)
    (from_secs (ar_inventory_refresh_secs self))
    (from_hours (ar_failure_notification_cooldown_hours self)) http telegram).

(** [Args::chain] and [Args::service], over the environment's variables. *)
Definition chain (self : Args) (env : string → option string) : result string ChainConfig :=
  chain_with_secret self (not_empty (env "RPC_API_KEY")).
Definition service (self : Args) (env : string → option string) : result string ServiceConfig :=
  service_with_secrets self (not_empty (env "DATABASE_URL")) (not_empty (env "RPC_API_KEY"))
    (not_empty (env "TELEGRAM_BOT_TOKEN")).

(** ** The keys *)

(** [Signer] ([chain/signer.rs]): the key and the account it controls. *)
Record Signer : Type := mkSigner {
  sg_key : SigningKey;
  sg_address : string;
}.

(** [Signer::from_secret]; the error carries no text. *)
Definition from_secret (secret : string) : option Signer :=
  (λ key, mkSigner key (address_of key)) <$> private_key secret.

Definition SECRET_KEY_ERROR : string := "the secret key is not a valid S… strkey".

Definition parse_signing_key (name : string) (secret : option string)
  : result string (option Signer) :=
  match secret with
  | None => Ok None
  | Some secret =>
      let? signer := ok_or (from_secret secret) (name +:+ ": " +:+ SECRET_KEY_ERROR) in
      Ok (Some signer)
  end.

Record SigningKeys : Type := mkSigningKeys {
  sk_auctioneer : option Signer;
  sk_filler : option Signer;
}.

(** [Args::signing_keys]. *)
Definition signing_keys (self : Args) (filler auctioneer : option string)
  : result string SigningKeys :=
  let? auctioneer := parse_signing_key "AUCTIONEER_SECRET_KEY" auctioneer in
  let? filler := parse_signing_key "FILLER_SECRET_KEY" filler in
  guard
    (match auctioneer, filler with
     | Some a, Some f => negb (bool_decide (sg_address a = sg_address f))
     | _, _ => true
     end)
    else "AUCTIONEER_SECRET_KEY and FILLER_SECRET_KEY are the same key: leave AUCTIONEER_SECRET_KEY unset and the auctioneer signs with the filler's key, through the one queue that key needs";
  guard (ar_dry_run self || bool_decide (is_Some filler))
    else "DRY_RUN=false needs FILLER_SECRET_KEY: live trading fills auctions, and the filler signs with its own key only";
  Ok (mkSigningKeys auctioneer filler).

(** [SigningKeys::own_addresses]. *)
Definition own_addresses (self : SigningKeys) : gset string :=
  list_to_set (sg_address <$> omap id [sk_auctioneer self; sk_filler self]).

(** An [Arc]: the allocation it points to, and what is there. *)
Record Arc (A : Type) : Type := mkArc { arc_at : nat; arc_value : A }.
#[global] Arguments mkArc {_}.
#[global] Arguments arc_at {_}.
#[global] Arguments arc_value {_}.

Record Signers : Type := mkSigners {
  ss_auctioneer : option (Arc Signer);
  ss_filler : option (Arc Signer);
}.

(** [SigningKeys::into_signers]: the filler's is allocated first, the
    auctioneer's is its own or another pointer to the filler's. *)
Definition into_signers (self : SigningKeys) : Signers :=
  let filler := mkArc 0 <$> sk_filler self in
  let auctioneer :=
    match mkArc 1 <$> sk_auctioneer self with Some own => Some own | None => filler end in
  mkSigners auctioneer filler.

(** [Signers::shared]: by pointer. *)
Definition shared (self : Signers) : bool :=
  match ss_auctioneer self, ss_filler self with
  | Some auctioneer, Some filler => Nat.eqb (arc_at auctioneer) (arc_at filler)
  | _, _ => false
  end.
End outside.

Local Close Scope string_scope.
