(* ===== verification/SettingsContract.v ===== *)
(** * What the configuration guarantees

    A decimal knob is exactly the number its text writes; the pools file is
    read as it is written or refused; and a configuration that was accepted is
    one the tasks can run on. *)

From S2P Require Import Prelude Fixed FillDelay Fill Store Config Settings.
From Stdlib Require Import Ascii.
From stdpp Require Import pretty.
Open Scope Z_scope.

(** ** Decimal text *)

Lemma split_once_some c text before after :
  split_once c text = Some (before, after) → text = before +:+ String c after.
Proof.
  revert before. induction text as [|d text IH]; intros before; [done|]. simpl.
  destruct (Ascii.eqb_spec d c) as [->|]; [by intros [= <- <-]|].
  destruct (split_once c text) as [ [b a]|]; [|done].
  intros [= <- <-]. simpl. by rewrite (IH b).
Qed.

Lemma dec_digit_dot : dec_digit "." = None.
Proof. done. Qed.

Lemma split_once_digits text after :
  all_digits text = true → split_once "." (text +:+ String "." after) = Some (text, after).
Proof.
  induction text as [|d text IH]; [done|]. simpl. intros [Hd Ht]%andb_true_iff.
  apply bool_decide_eq_true in Hd.
  destruct (Ascii.eqb_spec d ".") as [->|]; [by destruct Hd|]. by rewrite IH.
Qed.

Lemma split_once_none text : all_digits text = true → split_once "." text = None.
Proof.
  induction text as [|d text IH]; [done|]. simpl. intros [Hd Ht]%andb_true_iff.
  apply bool_decide_eq_true in Hd.
  destruct (Ascii.eqb_spec d ".") as [->|]; [by destruct Hd|]. by rewrite IH.
Qed.

Lemma dec_digits_app x a b : dec_digits x (a +:+ b) = dec_digits x a ≫= λ y, dec_digits y b.
Proof.
  revert x. induction a as [|c a IH]; intros x; [done|]. simpl.
  destruct (dec_digit c); simpl; [apply IH|done].
Qed.

(** Digits have a value, from any prefix's. *)
Lemma dec_digits_all x text : all_digits text = true ↔ is_Some (dec_digits x text).
Proof.
  revert x. induction text as [|c text IH]; intros x; simpl; [done|].
  rewrite andb_true_iff, bool_decide_eq_true. destruct (dec_digit c) as [d|]; simpl.
  - rewrite (IH (10 * x + d)). naive_solver.
  - split; [by intros [ [? ?] _]|by intros [? ?] ].
Qed.

Lemma dec_digits_shift x text v : dec_digits 0 text = Some v →
  dec_digits x text = Some (x * 10 ^ Z.of_nat (String.length text) + v).
Proof.
  cut (∀ x y v, dec_digits y text = Some v →
         dec_digits (x + y) text = Some (x * 10 ^ Z.of_nat (String.length text) + v)).
  { intros Hcut Hv. rewrite <-(Hcut x 0 v Hv). f_equal. lia. }
  clear. induction text as [|c text IH]; intros x y v; simpl.
  - intros [= <-]. f_equal. lia.
  - destruct (dec_digit c) as [d|]; simpl; [|done]. intros Hv.
    replace (10 * (x + y) + d) with (10 * x + (10 * y + d)) by lia. rewrite (IH _ _ _ Hv).
    f_equal. rewrite Nat2Z.inj_succ, Z.pow_succ_r by lia. lia.
Qed.

Lemma dec_digits_nonneg x text v : 0 ≤ x → dec_digits x text = Some v → 0 ≤ v.
Proof.
  revert x. induction text as [|c text IH]; intros x Hx; simpl; [naive_solver|].
  unfold dec_digit. case_match; simpl; [|done]. apply IH. lia.
Qed.

Lemma dec_digits_bound text v : dec_digits 0 text = Some v →
  0 ≤ v < 10 ^ Z.of_nat (String.length text).
Proof.
  intros Hv. split; [by eapply dec_digits_nonneg in Hv|].
  revert v Hv. induction text as [|c text IH]; intros v; simpl; [naive_solver|].
  unfold dec_digit. case_match; simpl; [|done].
  destruct (dec_digits 0 text) as [u|] eqn:Hu.
  - rewrite (dec_digits_shift _ _ _ Hu). intros [= <-]. specialize (IH _ eq_refl).
    rewrite Nat2Z.inj_succ, Z.pow_succ_r by lia. nia.
  - intros Hv. assert (is_Some (dec_digits 0 text)) as [? ?]; [|congruence].
    rewrite <-dec_digits_all, (dec_digits_all (10 * 0 + (Z.of_nat (nat_of_ascii c) - 48))), Hv. done.
Qed.

Lemma parse_i128_digits text : text ≠ EmptyString → all_digits text = true →
  parse_i128 text = within i128_min i128_max (dec_digits 0 text).
Proof.
  destruct text as [|c text]; [done|]. intros _ Hd. apply andb_true_iff in Hd as [Hc _].
  apply bool_decide_eq_true in Hc. unfold parse_i128. f_equal.
  destruct c as [ [] [] [] [] [] [] [] [] ]; try done; by destruct Hc.
Qed.

Lemma length_zeros n : String.length (zeros n) = n.
Proof. induction n as [|n IH]; [done|]. simpl. by rewrite IH. Qed.

Lemma dec_digits_zeros x n : dec_digits x (zeros n) = Some (x * 10 ^ Z.of_nat n).
Proof.
  revert x. induction n as [|n IH]; intros x; simpl; [f_equal; lia|].
  change (Z.of_nat (nat_of_ascii "0") - 48) with 0.
  rewrite IH, Nat2Z.inj_succ, Z.pow_succ_r by lia. f_equal. lia.
Qed.

Lemma scaled_digits whole fraction w f :
  dec_digits 0 whole = Some w → dec_digits 0 fraction = Some f →
  (String.length fraction ≤ DECIMALS)%nat →
  dec_digits 0 (whole +:+ pad_right DECIMALS fraction) =
  Some (w * 10 ^ 7 + f * 10 ^ Z.of_nat (DECIMALS - String.length fraction)).
Proof.
  intros Hw Hf Hn. unfold pad_right. rewrite dec_digits_app, Hw. simpl.
  rewrite dec_digits_app, (dec_digits_shift _ _ _ Hf). simpl. rewrite dec_digits_zeros. f_equal.
  rewrite Z.mul_add_distr_r, <-Z.mul_assoc, <-Z.pow_add_r by lia.
  unfold DECIMALS in *.
  by replace (Z.of_nat (String.length fraction) + Z.of_nat (7 - String.length fraction)) with 7 by lia.
Qed.

(** [text] is a whole part of value [w], and after a point — which may be left
    out with it — a fraction of [n] digits and value [f]. *)
Definition writes (text : string) (w f : Z) (n : nat) : Prop :=
  ∃ whole fraction,
    whole ≠ EmptyString ∧ dec_digits 0 whole = Some w ∧
    dec_digits 0 fraction = Some f ∧ String.length fraction = n ∧
    (text = whole ∧ fraction = EmptyString ∨ text = whole +:+ String "." fraction).

Lemma decimal_parts text w f n : writes text w f n →
  ∃ whole fraction,
    whole ≠ EmptyString ∧ dec_digits 0 whole = Some w ∧
    dec_digits 0 fraction = Some f ∧ String.length fraction = n ∧
    match split_once "." text with Some parts => parts | None => (text, EmptyString) end =
      (whole, fraction).
Proof.
  intros (whole & fraction & Hne & Hw & Hf & Hn & Htext). exists whole, fraction. split_and!; try done.
  assert (all_digits whole = true) as Hd by (apply (dec_digits_all 0); by rewrite Hw).
  destruct Htext as [ [-> ->]| ->]; [by rewrite split_once_none|by rewrite split_once_digits].
Qed.

Lemma decimal_read text z : decimal7_from_str text = Ok z ↔
  ∃ w f n, writes text w f n ∧ (n ≤ 7)%nat ∧
    z = w * 10 ^ 7 + f * 10 ^ Z.of_nat (7 - n) ∧ z ≤ i128_max.
Proof.
  split.
  - unfold decimal7_from_str.
    destruct (match split_once "." text with Some parts => parts | None => _ end)
      as [whole fraction] eqn:Hparts.
    destruct (bool_decide (whole = "") || negb (all_digits whole)) eqn:Hwhole; [done|].
    destruct (negb (all_digits fraction)) eqn:Hfrac; [done|].
    destruct (DECIMALS <? String.length fraction)%nat eqn:Hlen; [done|].
    apply orb_false_iff in Hwhole as [Hne Hwhole]. apply bool_decide_eq_false in Hne.
    apply negb_false_iff in Hwhole, Hfrac. apply Nat.ltb_ge in Hlen.
    pose proof (proj1 (dec_digits_all 0 whole) Hwhole) as [w Hw].
    pose proof (proj1 (dec_digits_all 0 fraction) Hfrac) as [f Hf].
    rewrite parse_i128_digits; [| |].
    + rewrite (scaled_digits _ _ w f) by done. unfold within. simpl.
      destruct (_ && _) eqn:Hr; simpl; [|done].
      intros [= <-]. exists w, f, (String.length fraction). unfold DECIMALS in *.
      split_and!; [|done|done|lia]. exists whole, fraction. split_and!; try done.
      destruct (split_once "." text) as [ [b a]|] eqn:Hs; simplify_eq; [right|by left].
      by apply split_once_some.
    + by destruct whole.
    + apply (dec_digits_all 0). by rewrite (scaled_digits _ _ w f).
  - intros (w & f & n & Hwrites & Hn & -> & Hmax).
    apply decimal_parts in Hwrites as (whole & fraction & Hne & Hw & Hf & <- & Hparts).
    unfold decimal7_from_str. rewrite Hparts, bool_decide_eq_false_2 by done.
    rewrite (proj2 (dec_digits_all 0 whole)) by (by rewrite Hw).
    rewrite (proj2 (dec_digits_all 0 fraction)) by (by rewrite Hf). simpl.
    rewrite (proj2 (Nat.ltb_ge _ _)) by done.
    rewrite parse_i128_digits, (scaled_digits _ _ w f); try done.
    + rewrite within_some; [done|]. apply dec_digits_bound in Hw, Hf. widths. unfold DECIMALS.
      split; [|lia]. pose proof (Z.pow_nonneg 10 (Z.of_nat (7 - String.length fraction))). nia.
    + by destruct whole.
    + apply (dec_digits_all 0). by rewrite (scaled_digits _ _ w f).
Qed.

Lemma decimal_bounds text z : decimal7_from_str text = Ok z → 0 ≤ z ≤ i128_max.
Proof.
  intros (w & f & n & (whole & fraction & _ & Hw & Hf & _) & _ & -> & Hmax)%decimal_read.
  split; [|done]. apply dec_digits_bound in Hw, Hf.
  pose proof (Z.pow_nonneg 10 (Z.of_nat (7 - n))). nia.
Qed.

(** ** Writing a decimal *)

Fixpoint fixed_digits (n : nat) (v : Z) : string :=
  match n with
  | O => EmptyString
  | S n => String (pretty_N_char (Z.to_N ((v / 10 ^ Z.of_nat n) `mod` 10))) (fixed_digits n v)
  end.

(** A seven-decimal value, in full. *)
Definition written (z : Z) : string := pretty (z / 10 ^ 7) +:+ String "." (fixed_digits 7 z).

Lemma length_fixed n v : String.length (fixed_digits n v) = n.
Proof. induction n as [|n IH]; [done|]. simpl. by rewrite IH. Qed.

Lemma dec_digits_fixed x n v : 0 ≤ v →
  dec_digits x (fixed_digits n v) = Some (x * 10 ^ Z.of_nat n + v `mod` 10 ^ Z.of_nat n).
Proof.
  intros Hv. revert x. induction n as [|n IH]; intros x.
  - simpl. f_equal. rewrite Z.mod_1_r. lia.
  - cbn [fixed_digits dec_digits]. set (p := 10 ^ Z.of_nat n).
    assert (0 < p) as Hp by (apply Z.pow_pos_nonneg; lia).
    pose proof (Z.mod_pos_bound (v / p) 10 ltac:(lia)).
    rewrite dec_digit_char by lia. simpl. rewrite IH. fold p. f_equal.
    rewrite Nat2Z.inj_succ, Z.pow_succ_r by lia. fold p.
    rewrite Z2N.id by lia. rewrite (Z.mul_comm 10 p), Z.rem_mul_r by lia. ring.
Qed.

Lemma writes_written z : 0 ≤ z → writes (written z) (z / 10 ^ 7) (z `mod` 10 ^ 7) 7.
Proof.
  intros Hz. exists (pretty (z / 10 ^ 7)), (fixed_digits 7 z).
  destruct (pretty_nonneg (z / 10 ^ 7)) as (d & t & _ & Ht & Hn); [apply Z.div_pos; lia|].
  split_and!; [by rewrite Ht| | |done|by right].
  - revert Hn. unfold dec_number. by rewrite Ht.
  - by rewrite dec_digits_fixed.
Qed.

Lemma decimal_written z : 0 ≤ z ≤ i128_max → decimal7_from_str (written z) = Ok z.
Proof.
  intros Hz. apply decimal_read. exists (z / 10 ^ 7), (z `mod` 10 ^ 7), 7%nat.
  split_and!; [apply writes_written; lia|lia| |lia].
  change (10 ^ Z.of_nat (7 - 7)) with 1. pose proof (Z.div_mod z (10 ^ 7)). lia.
Qed.

(** ** The pools file *)

Inductive names_objective : option string → FillObjective → Prop :=
| names_nothing : names_objective None FreeFill
| names_free : names_objective (Some "free-fill"%string) FreeFill
| names_earliest : names_objective (Some "earliest-profitable"%string) EarliestProfitable.

(** What a table must say, and the pool it is. *)
Record reads_as (raw : RawPool) (pool : PoolConfig) : Prop := {
  reads_address : cf_address pool = raw_address raw;
  reads_asset : cf_primary_asset pool = raw_primary_asset raw;
  reads_collateral : parse_i128 (raw_min_primary_collateral raw) = Some (cf_min_primary_collateral pool);
  reads_nonneg : 0 ≤ cf_min_primary_collateral pool;
  reads_health : cf_min_health_factor pool = raw_min_health_factor raw;
  reads_floor : 10000100 < cf_min_health_factor pool;
  reads_profit : cf_default_profit_bps pool = raw_default_profit_bps raw;
  reads_force : cf_force_fill pool = raw_force_fill raw;
  reads_objective : names_objective (raw_fill_objective raw) (cf_fill_objective pool);
  reads_bid : cf_supported_bid pool = raw_supported_bid raw;
  reads_lot : cf_supported_lot pool = raw_supported_lot raw;
  reads_profits : cf_profits pool = raw_profits raw;
}.

Arguments parse_pool : simpl never.

Lemma parse_pool_ok seen pools raw state :
  parse_pool (seen, pools) raw = Ok state ↔
  (raw_address raw ∉ seen) ∧
  ∃ pool, reads_as raw pool ∧ state = ({[raw_address raw]} ∪ seen, pools ++ [pool]).
Proof.
  unfold parse_pool, amount_from_str, rbind. split.
  - case_bool_decide as Hseen; [done|].
    destruct (parse_i128 _) as [v|] eqn:Hv; [|done].
    destruct (v <? 0) eqn:Hneg; [done|]. destruct (_ <=? _) eqn:Hfloor; [done|].
    intros Hok. split; [done|]. unfold CONTRACT_MIN_HEALTH in Hfloor.
    revert Hok. destruct (raw_fill_objective raw) as [o|] eqn:Ho; repeat case_bool_decide; subst;
      intros [= <-]; eexists; (split; [|reflexivity]); split; simpl; try done; try lia;
      rewrite Ho; constructor.
  - intros (Hseen & pool & [Ha Has Hc Hn Hh Hf Hp Hfo Ho Hb Hl Hpr] & ->).
    rewrite bool_decide_eq_false_2 by done. rewrite Hc.
    rewrite (proj2 (Z.ltb_ge _ _)) by done.
    rewrite (proj2 (Z.leb_gt _ _)) by (unfold CONTRACT_MIN_HEALTH; lia).
    destruct pool; simpl in *; subst. by inversion Ho.
Qed.

Lemma parse_tables seen acc raws state :
  try_fold parse_pool (seen, acc) raws = Ok state ↔
  NoDup (raw_address <$> raws) ∧ Forall (λ raw, raw_address raw ∉ seen) raws ∧
  ∃ pools, Forall2 reads_as raws pools ∧ state.2 = acc ++ pools ∧
    state.1 = foldl (λ s raw, {[raw_address raw]} ∪ s) seen raws.
Proof.
  revert seen acc. induction raws as [|raw raws IH]; intros seen acc; simpl.
  - split.
    + intros [= <-]. split_and!; [constructor|constructor|].
      exists []. by rewrite app_nil_r.
    + intros (_ & _ & pools & Hp & Hs2 & Hs1). inversion Hp; subst.
      rewrite app_nil_r in Hs2. destruct state. simpl in *. by subst.
  - rewrite NoDup_cons, Forall_cons. split.
    + intros Hok. destruct (parse_pool (seen, acc) raw) as [st|] eqn:Hst; simpl in Hok; [|done].
      apply parse_pool_ok in Hst as (Hseen & pool & Hpool & ->).
      apply IH in Hok as (Hnd & Hall & pools & Hp & Hs2 & Hs1).
      rewrite Forall_forall in Hall. split_and!; try done.
      * rewrite list_elem_of_fmap. intros (r & Hr & Hin). apply Hall in Hin. set_solver.
      * rewrite Forall_forall. intros r Hin. apply Hall in Hin. set_solver.
      * exists (pool :: pools). split_and!; [by constructor| |done]. by rewrite Hs2, <-app_assoc.
    + intros ([Hnew Hnd] & [Hseen Hall] & pools & Hp & Hs2 & Hs1).
      inversion Hp as [|? pool ? ps Hpool Hps]; subst.
      rewrite (proj2 (parse_pool_ok seen acc raw ({[raw_address raw]} ∪ seen, acc ++ [pool]))) by eauto.
      simpl. apply IH. split_and!; [done| |].
      * rewrite Forall_forall in *. intros r Hin. apply Hall in Hin as Hr.
        rewrite list_elem_of_fmap in Hnew. set_solver.
      * exists ps. by rewrite <-app_assoc.
Qed.

Section outside.
Context `{Outside}.

Lemma parse_pools_iff text pools : parse_pools text = Ok pools ↔
  ∃ raws, toml_from_str text = Ok raws ∧ raws ≠ [] ∧ NoDup (raw_address <$> raws) ∧
    Forall2 reads_as raws pools.
Proof.
  unfold parse_pools. split.
  - destruct (toml_from_str text) as [raws|]; simpl; [|done].
    destruct raws as [|raw raws]; [done|]. intros Hok. exists (raw :: raws).
    destruct (try_fold parse_pool (∅, []) (raw :: raws)) as [st|] eqn:Hst; simpl in Hok; [|done].
    simplify_eq. apply parse_tables in Hst as (Hnd & _ & pools & Hp & -> & _). done.
  - intros (raws & -> & Hne & Hnd & Hp). simpl. destruct raws as [|raw raws]; [done|].
    set (all := raw :: raws) in *.
    destruct (parse_tables ∅ [] all
      (foldl (λ s raw, {[raw_address raw]} ∪ s) ∅ all, pools)) as [_ Hback].
    rewrite Hback; [done|]. split_and!; [done| |by exists pools].
    apply Forall_forall. set_solver.
Qed.

Lemma reads_addresses raws pools : Forall2 reads_as raws pools →
  cf_address <$> pools = raw_address <$> raws.
Proof. induction 1 as [|raw pool raws pools [] _ IH]; [done|]. simpl. by f_equal. Qed.

(** ** What is accepted *)

(** What the tasks rely on of one pool, and of the whole configuration. *)
Record sound_pool (multiplier : Z) (pool : PoolConfig) : Prop := {
  pool_collateral : 0 ≤ cf_min_primary_collateral pool ≤ i128_max;
  pool_health : 10000100 < cf_min_health_factor pool ≤ i128_max;
  pool_floor floor :
    health_floor (cf_min_health_factor pool) multiplier = Ok floor →
    cf_min_health_factor pool ≤ floor;
}.

Record sound (config : ServiceConfig) : Prop := {
  sound_some : sc_pools config ≠ [];
  sound_distinct : NoDup (cf_address <$> sc_pools config);
  sound_pools : Forall (sound_pool (sc_hf_safety_multiplier config)) (sc_pools config);
  sound_thresholds : 0 ≤ sc_liquidation_health_factor config < sc_scan_health_factor config;
  sound_target : 10300000 ≤ sc_target_health_factor config < 11500000;
  sound_periods : 1 ≤ sc_full_scan_ledgers config ∧ 1 ≤ sc_oracle_scan_ledgers config ∧
    1 ≤ sc_replan_ledgers config;
  sound_work : 1 ≤ sc_refresh_batch config ∧ 1 ≤ sc_plan_iterations config ∧
    1 ≤ sc_price_delta_bps config;
  sound_clocks : 0 < sc_poll_interval config ∧ 0 < sc_inventory_refresh config ∧
    3600000000000 ≤ sc_notification_cooldown config ≤ u64_max * 1000000000;
  sound_reserve : is_u64 (sc_xlm_fee_reserve config);
  sound_api_key header key : cc_rpc_api_key (sc_chain config) = Some (header, key) →
    header_name header = true ∧ header ≠ EmptyString ∧ expose key ≠ EmptyString;
  sound_telegram telegram : sc_telegram config = Some telegram →
    expose (tg_token telegram) ≠ EmptyString ∧ tg_chat_id telegram ≠ EmptyString;
  sound_http http : sc_http config = Some http → 1 ≤ hc_max_lag_ledgers http;
}.

Lemma floor_above min multiplier floor :
  0 ≤ min → SCALAR_7 ≤ multiplier → health_floor min multiplier = Ok floor → min ≤ floor.
Proof.
  intros Hmin Hmult Hok. apply mul_ceil_ok in Hok as (Hd & -> & _).
  unfold SCALAR_7 in *. unfold cdiv. pose proof (Z.div_mod (- (min * multiplier)) 10000000).
  pose proof (Z.mod_pos_bound (- (min * multiplier)) 10000000). nia.
Qed.

Lemma not_empty_some text t : not_empty text = Some t → text = Some t ∧ t ≠ EmptyString.
Proof.
  unfold not_empty. destruct text as [u|]; simpl; [|done]. case_bool_decide; naive_solver.
Qed.

Lemma pools_sound text pools multiplier : SCALAR_7 ≤ multiplier → parse_pools text = Ok pools →
  pools ≠ [] ∧ NoDup (cf_address <$> pools) ∧ Forall (sound_pool multiplier) pools.
Proof.
  intros Hmult (raws & Htoml & Hne & Hnd & Hp)%parse_pools_iff. split_and!.
  - intros ->. by inversion Hp.
  - by rewrite (reads_addresses _ _ Hp).
  - rewrite Forall_forall. intros pool Hin.
    destruct (list_elem_of_lookup_1 _ _ Hin) as [i Hi].
    destruct (Forall2_lookup_r _ _ _ _ _ Hp Hi) as (raw & Hraw & [_ _ Hc Hn Hh Hf _ _ _ _ _ _]).
    assert (cf_min_health_factor pool ≤ i128_max) as Hmax.
    { destruct (toml_decimals text raws raw) as [d Hd]; [done|by eapply list_elem_of_lookup_2|].
      rewrite Hh. apply decimal_bounds in Hd. lia. }
    split; [|lia|].
    + split; [done|]. unfold parse_i128, within in Hc.
      destruct (match raw_min_primary_collateral raw with EmptyString => _ | _ => _ end) as [z|];
        simpl in Hc; [|done]. case_match eqn:Hr; simplify_eq. lia.
    + intros floor. apply floor_above; lia.
Qed.

Lemma pools_of_ok self pools : pools_of self = Ok pools → ∃ text, parse_pools text = Ok pools.
Proof.
  unfold pools_of. destruct (ar_pools_file self) as [path|], (ar_pools_toml self) as [text|];
    try done; [|by eauto].
  destruct (read_to_string path) as [text|]; simpl; [by eauto|done].
Qed.

Lemma telegram_of_ok self token telegram : telegram_of self token = Ok (Some telegram) →
  expose (tg_token telegram) ≠ EmptyString ∧ tg_chat_id telegram ≠ EmptyString.
Proof.
  unfold telegram_of. destruct (not_empty (ar_telegram_chat_id self)) eqn:Hc,
    (not_empty token) eqn:Ht; intros; simplify_eq. simpl.
  by apply not_empty_some in Hc as [_ ?], Ht as [_ ?].
Qed.

Lemma chain_ok self key config : chain_with_secret self key = Ok config →
  ∀ header secret, cc_rpc_api_key config = Some (header, secret) →
    header_name header = true ∧ header ≠ EmptyString ∧ expose secret ≠ EmptyString.
Proof.
  unfold chain_with_secret. intros Hok. rust_inv. intros header secret Hkey. simpl in Hkey.
  destruct (not_empty (ar_rpc_api_key_header self)) as [h|] eqn:Hh,
    (not_empty key) as [k|] eqn:Hk; simplify_eq; simplify_eq/=.
  apply not_empty_some in Hh as [_ ?], Hk as [_ ?]. done.
Qed.

Lemma knob_bounds value : decimal_knob decimal7_from_str value → 0 ≤ value ≤ i128_max.
Proof. intros [text Ht]. by apply decimal_bounds in Ht. Qed.

Lemma target_in_band value : decimal_knob target_health_factor value → 10300000 ≤ value < 11500000.
Proof.
  intros [text Ht]. unfold target_health_factor, TARGET_HF_MIN, TARGET_HF_MAX in Ht.
  destruct (decimal7_from_str text); simpl in Ht; [|done]. case_match; simplify_eq. lia.
Qed.

Lemma multiplier_at_least_one value : decimal_knob health_multiplier value → SCALAR_7 ≤ value.
Proof.
  intros [text Ht]. unfold health_multiplier in Ht.
  destruct (decimal7_from_str text); simpl in Ht; [|done]. case_match; simplify_eq. lia.
Qed.

Lemma service_sound self env config :
  accepts self → service self env = Ok config → sound config.
Proof.
  intros Hknobs Hok. unfold service, service_with_secrets in Hok. rust_inv. simplify_eq.
  match goal with Hp : pools_of _ = Ok ?pools |- _ =>
    apply pools_of_ok in Hp as [text Hp];
    destruct (pools_sound text pools (ar_hf_safety_multiplier self)) as (Hne & Hnd & Hall);
      [by apply multiplier_at_least_one, accepts_hf_safety_multiplier|done|]
  end.
  destruct Hknobs.
  repeat match goal with Hk : decimal_knob decimal7_from_str _ |- _ => apply knob_bounds in Hk end.
  unfold ranged in *. split; simpl; try done; try lia.
  - by apply target_in_band.
  - unfold from_hours, from_millis, from_secs in *. pose proof (Z.mul_div_le u64_max 3600 ltac:(lia)).
    split_and!; lia.
  - by widths; unfold in_u64, u64_max in *; lia.
  - by eapply chain_ok.
  - intros telegram ->. by eapply telegram_of_ok.
  - intros http Hhttp. apply fmap_Some in Hhttp as (port & _ & ->). simpl. lia.
Qed.

(** C26: The pools file is read exactly: it is accepted when, and only when, it
    names at least one pool, no address twice, and every table is well formed —
    a collateral floor that is an integer of 128 bits and not negative, a
    health floor above the contract's own 1.00001, a known fill objective or
    none — and the pools are then those tables in order, field for field. *)
Theorem pools_file_is_read_exactly (text : string) (pools : list PoolConfig) :
  parse_pools text = Ok pools ↔
  ∃ raws, toml_from_str text = Ok raws ∧ raws ≠ [] ∧ NoDup (raw_address <$> raws) ∧
    Forall2 reads_as raws pools.
Proof. apply parse_pools_iff. Qed.
End outside.

(** C33: A decimal knob is exactly the number that is written: [from_str]
    answers [z] when, and only when, the text is digits with at most seven
    after a point, [z] is that number times ten to the seventh, and it fits
    128 bits; every such value written in full reads back; the target health
    factor is accepted within [1.03, 1.15) only and the safety multiplier from
    one. *)
Theorem decimal_knobs_are_exact (text : string) (z : Z) :
  (decimal7_from_str text = Ok z ↔
   ∃ w f n, writes text w f n ∧ (n ≤ 7)%nat ∧
     z = w * 10 ^ 7 + f * 10 ^ Z.of_nat (7 - n) ∧ z ≤ i128_max) ∧
  (0 ≤ z ≤ i128_max → decimal7_from_str (written z) = Ok z) ∧
  (target_health_factor text = Ok z ↔
   decimal7_from_str text = Ok z ∧ 10300000 ≤ z < 11500000) ∧
  (health_multiplier text = Ok z ↔ decimal7_from_str text = Ok z ∧ 10000000 ≤ z).
Proof.
  split_and!; [apply decimal_read|apply decimal_written| |].
  - unfold target_health_factor, TARGET_HF_MIN, TARGET_HF_MAX.
    destruct (decimal7_from_str text) as [v|]; simpl; [|naive_solver].
    case_match eqn:Hband; naive_solver lia.
  - unfold health_multiplier, SCALAR_7.
    destruct (decimal7_from_str text) as [v|]; simpl; [|naive_solver].
    case_match eqn:Hband; naive_solver lia.
Qed.

Lemma decimal_knobs_are_exact_witness :
  decimal7_from_str "1.5" = Ok 15000000 ∧ decimal7_from_str (written 15000000) = Ok 15000000.
Proof.
  split; [reflexivity|]. apply (decimal_knobs_are_exact "" 15000000). vm_compute. split; discriminate.
Defined.

(** ** A configuration *)

Definition sample_raw : RawPool :=
  mkRawPool "CPOOL" "CASSET" "1000000000" 15000000 100 false (Some "earliest-profitable"%string)
    ["*"%string] ["*"%string] [].

Lemma sample_decimals (text : string) (pools : list RawPool) (pool : RawPool) :
  Ok (E:=string) [sample_raw] = Ok pools → pool ∈ pools →
  ∃ raw, decimal7_deserialize raw = Ok (raw_min_health_factor pool).
Proof. intros [= <-] ->%list_elem_of_singleton. by exists (RawText "1.5"). Qed.

Definition sample_outside : Outside := {|
  toml_from_str := λ _, Ok [sample_raw];
  toml_decimals := sample_decimals;
  read_to_string := λ _, Ok EmptyString;
  seed_file_from_str := λ _, Ok ∅;
  http_client := Ok ();
  header_name := λ _, true;
  SigningKey := string;
  private_key := Some;
  address_of := λ key, key;
|}.

Definition sample_args (dry_run : bool) : Args :=
  mkArgs dry_run None (Some Testnet) (Some "https://rpc"%string) None 5000 10000 3 None
    (Some "pools"%string) Loop 10 1000 241920 20 1200 12000000 9980000 10600000 60 250 5 0 11000000 10 5
    500000000 100000000 30 24 None None "127.0.0.1" 10 None EmptyString 100000000 None.

Lemma sample_accepts dry_run : accepts (sample_args dry_run).
Proof.
  split; unfold ranged; simpl; try (widths; lia).
  - by exists "1.2"%string.
  - by exists "0.998"%string.
  - by exists "1.06"%string.
  - by exists "1.1"%string.
  - by exists "50"%string.
  - by exists "10"%string.
  - vm_compute. split; discriminate.
  - by exists "10"%string.
Qed.

Definition sample_env (name : string) : option string :=
  if bool_decide (name = "DATABASE_URL"%string) then Some "postgres://"%string else None.
