(* ===== verification/Signing.v ===== *)
(** * Networks and signatures ([src/chain/signer.rs])

    The network a transaction is hashed for, the native asset's contract on
    it, and the envelope a key signs. SHA-256, Ed25519, the XDR writers and the
    strkey codec are other crates'. *)

From S2P Require Import Prelude Fixed Encode Io Chain Operations Decode Rpc Submit Config Settings.
Open Scope Z_scope.

(** ** What other crates define *)

Class Crypto `{Xdr} `{Outside} : Type := {
  (** [Sha256::digest] of bytes, and a string's bytes. *)
  sha256 : list Z → list Z;
  as_bytes : string → list Z;
  (** Ed25519: a key's public key, its signatures, and their verification. *)
  verifying_key : SigningKey → list Z;
  ed25519_sign : SigningKey → list Z → list Z;
  ed25519_verify : list Z → list Z → list Z → bool;
  (** [Transaction::hash] for a network's id, and [to_xdr] of the preimage of
      the native asset's contract id on a network. *)
  transaction_hash : Transaction → list Z → result XdrLibraryError (list Z);
  native_asset_preimage : Limits → list Z → result XdrLibraryError (list Z);
  (** A vector longer than its XDR type allows. *)
  length_exceeds_max : XdrLibraryError;
  (** [stellar_strkey::Contract::to_string]. *)
  contract_strkey : list Z → string;
  (** A public key is 32 bytes and a signature 64, which verifies. *)
  verifying_key_length key : length (verifying_key key) = 32%nat;
  ed25519_sign_length key message : length (ed25519_sign key message) = 64%nat;
  ed25519_sign_verifies key message :
    ed25519_verify (verifying_key key) message (ed25519_sign key message) = true;
}.

(** [VecM::try_from] and [BytesM::try_from]: at most [max] items. *)
Definition vec_try_from `{Crypto} {A : Type} (max : nat) (items : list A)
  : result XdrLibraryError (list A) :=
  if (length items <=? max)%nat then Ok items else Err length_exceeds_max.

Section signing.
Context `{Crypto}.

(** ** Networks *)

Record Network : Type := mkNetwork { nw_passphrase : string; nw_id : list Z }.

(** [Network::from_passphrase], [mainnet], [testnet], [from_config]. *)
Definition from_passphrase (passphrase : string) : Network :=
  mkNetwork passphrase (sha256 (as_bytes passphrase)).
Definition mainnet : Network := from_passphrase (passphrase Mainnet).
Definition testnet : Network := from_passphrase (passphrase Testnet).
Definition network_from_config (config : ChainConfig) : Network :=
  from_passphrase (cc_network_passphrase config).

(** [Network::native_asset_contract]. *)
Definition native_asset_contract (self : Network) : result ChainError string :=
  let? bytes := chain_of (from_xdr (native_asset_preimage XDR_LIMITS (nw_id self))) in
  Ok (contract_strkey (sha256 bytes)).

(** ** Signatures *)

Record DecoratedSignature : Type := mkDecorated { ds_hint : list Z; ds_signature : list Z }.

(** [TransactionV1Envelope]. *)
Record Envelope : Type := mkEnvelope {
  en_tx : Transaction;
  en_signatures : list DecoratedSignature;
}.

(** The [public] field of a [Signer], its account and its muxed account. *)
Definition public (self : Signer) : list Z := verifying_key (sg_key self).
Definition account_id (self : Signer) : list Z := public self.
Definition muxed (self : Signer) : list Z := public self.

(** [Signer::sign]. *)
Definition sign (self : Signer) (tx : Transaction) (network : Network)
  : result ChainError Envelope :=
  let? hash := chain_of (from_xdr (transaction_hash tx (nw_id network))) in
  let signature := ed25519_sign (sg_key self) hash in
  let hint := take 4 (drop 28 (public self)) in
  let? signature := chain_of (from_xdr (vec_try_from 64 signature)) in
  let decorated := mkDecorated hint signature in
  let? signatures := chain_of (from_xdr (vec_try_from 20 [decorated])) in
  Ok (mkEnvelope tx signatures).

(** What [Submitter::restore] and [Submitter::prepare] do to have a transaction
    signed: the envelope, and the hash it is sent and polled under. *)
Definition sign_and_hash (self : Signer) (tx : Transaction) (network : Network)
  : result ChainError (Envelope * TxHash) :=
  let? envelope := sign self tx network in
  let? hash := chain_of (from_xdr (transaction_hash (en_tx envelope) (nw_id network))) in
  Ok (envelope, mkTxHash hash).

(** What a validator checks of an envelope: that one signature, found by its
    hint, is the key's over the transaction's hash on its own network. *)
Definition valid_for (key : list Z) (network : Network) (envelope : Envelope) : Prop :=
  ∃ hash signature,
    transaction_hash (en_tx envelope) (nw_id network) = Ok hash ∧
    en_signatures envelope = [mkDecorated (drop 28 key) signature] ∧
    ed25519_verify key hash signature = true.

Lemma vec_try_from_fits {A} max (items : list A) :
  (length items ≤ max)%nat → vec_try_from max items = Ok items.
Proof. intros Hle. unfold vec_try_from. by apply Nat.leb_le in Hle as ->. Qed.

(** A signed envelope carries the transaction it was asked to sign, with one
    signature that its key's account verifies on that network; signing fails
    only where the transaction has no hash. *)
Theorem sign_is_valid (self : Signer) (tx : Transaction) (network : Network) :
  match sign self tx network with
  | Ok envelope => en_tx envelope = tx ∧ valid_for (public self) network envelope
  | Err e => ∃ error, transaction_hash tx (nw_id network) = Err error ∧ e = XdrFailure (Encode.Xdr error)
  end.
Proof.
  unfold sign. destruct (transaction_hash tx (nw_id network)) as [hash|e] eqn:Hh; cbn;
    [|by eexists].
  rewrite vec_try_from_fits by by rewrite ed25519_sign_length. cbn.
  split; [done|]. exists hash, (ed25519_sign (sg_key self) hash). split; [done|].
  split; [|apply ed25519_sign_verifies]. cbn. do 2 f_equal. apply take_ge.
  unfold public. rewrite length_drop, verifying_key_length. done.
Qed.

(** The hash a transaction is polled under is the one its signature is over. *)
Theorem polled_hash_is_signed (self : Signer) (tx : Transaction) (network : Network) envelope hash :
  sign_and_hash self tx network = Ok (envelope, hash) →
  transaction_hash tx (nw_id network) = Ok (hash_bytes hash) ∧
  ∃ signature, en_signatures envelope = [mkDecorated (drop 28 (public self)) signature] ∧
    ed25519_verify (public self) (hash_bytes hash) signature = true.
Proof.
  unfold sign_and_hash. pose proof (sign_is_valid self tx network) as Hsign.
  destruct (sign self tx network) as [e|]; [|done]. destruct Hsign as [Htx (h & s & Hh & Hs & Hv)].
  cbn. rewrite Hh. intros [= <- <-]. rewrite <- Htx. split; [done|]. by exists s.
Qed.
End signing.
