(* ===== verification/Telegram.v ===== *)
(** * The Telegram channel ([src/notifier/telegram.rs])

    A notification rendered as a message's text, the one call that sends it and
    the one that proves the credentials, and what each makes of the reply. The
    HTTP client is the environment: it answers a status and a body, or a
    transport error whose text has lost its URL. Reading a body as JSON is a
    class. *)

From S2P Require Import Prelude Io Metrics Notifier Settings.
From Stdlib Require Import Ascii.
Open Scope Z_scope.

(** Nanoseconds. *)
Definition SEND_TIMEOUT : Z := 10000000000.
Definition MAX_TEXT : nat := Z.to_nat 4096.

(** ** The text *)

(** A byte that starts a Unicode scalar value. *)
Definition starts_char (c : ascii) : bool :=
  let b := Z.of_nat (nat_of_ascii c) in (b <? 128) || (192 <=? b).

(** [text.chars().take(n)]. *)
Fixpoint take_chars (n : nat) (text : string) : string :=
  match text with
  | EmptyString => EmptyString
  | String c rest =>
      if starts_char c then
        match n with O => EmptyString | S n => String c (take_chars n rest) end
      else String c (take_chars n rest)
  end.

Local Open Scope string_scope.

Definition TELEGRAM_API : string := "https://api.telegram.org".

Definition severity_text (s : Severity) : string :=
  match s with Low => "LOW" | Medium => "MEDIUM" | High => "HIGH" end.

(** [format_text], before it is cut. *)
Definition message_text (n : Notification) : string :=
  let text := line ("[" +:+ severity_text (nt_severity n) +:+ "] " +:+ kind_str (nt_kind n)) +:+
    line ("pool: " +:+ nt_pool n) in
  let text :=
    match nt_account n with Some account => text +:+ line ("account: " +:+ account) | None => text end in
  text +:+ line "" +:+ nt_message n.

Definition format_text (n : Notification) : string := take_chars MAX_TEXT (message_text n).

Local Close Scope string_scope.

(** ** The calls *)

Record TelegramReply : Type := mkTelegramReply {
  tr_ok : bool;
  tr_description : option string;
}.

(** [GetMeReply], its [result] the username in it. *)
Record GetMeReply : Type := mkGetMeReply {
  gm_ok : bool;
  gm_description : option string;
  gm_result : option (option string);
}.

Class ReplyJson : Type := {
  (** [serde_json::from_str], at the two types. *)
  telegram_reply : string → option TelegramReply;
  get_me_reply : string → option GetMeReply;
  (** How a [StatusCode] is displayed. *)
  status_text : Z → string;
}.

Record TelegramChannel : Type := mkTelegramChannel {
  tc_base : string;
  tc_token : Secret;
  tc_chat_id : string;
}.

(** [TelegramChannel::new]. *)
Definition telegram_new `{Outside} (token : Secret) (chat_id : string)
  : result NotifyError TelegramChannel :=
  let? _ := map_err Channel http_client in
  Ok (mkTelegramChannel TELEGRAM_API token chat_id).
Definition with_base_url (base : string) (self : TelegramChannel) : TelegramChannel :=
  mkTelegramChannel base (tc_token self) (tc_chat_id self).

(** The body of [sendMessage], its web page preview disabled. *)
Record SendMessage : Type := mkSendMessage {
  sm_chat_id : string;
  sm_text : string;
}.

(** A transport error is its text, its URL removed. *)
Variant TelegramE : Type → Type :=
| TCall (url : string) (body : option SendMessage) : TelegramE (result string (Z * string)).

Inductive TelegramObs : Type :=
| OCall (url : string) (body : option SendMessage) (answer : result string (Z * string)).

Definition telegram_log (X : Type) (e : TelegramE X) : X → TelegramObs :=
  match e in TelegramE X return X → TelegramObs with TCall url body => OCall url body end.

(** [StatusCode::is_success]. *)
Definition is_success (status : Z) : bool := (200 <=? status) && (status <? 300).

Section telegram.
Context `{ReplyJson}.

Local Open Scope string_scope.

(** [parse_reply], over what reading the body as the reply gave. *)
Definition parse_reply {T : Type} (status : Z) (reply : option T) : result NotifyError T :=
  ok_or reply (Channel ("telegram answered " +:+ status_text status +:+ " with an unreadable body")).

Definition refusal (status : Z) (description : option string) : NotifyError :=
  Channel ("telegram answered " +:+ status_text status +:+ ": " +:+
    default "<no description>" description).

(** [TelegramChannel::call]. *)
Definition call (self : TelegramChannel) (method : string) (body : option SendMessage)
  : io TelegramE (result NotifyError (Z * string)) :=
  await answer :=
    perform (TCall (tc_base self +:+ "/bot" +:+ expose (tc_token self) +:+ "/" +:+ method) body) in
  Ret (map_err Channel answer).

(** [post_send_message]. *)
Definition post_send_message (self : TelegramChannel) (text : string)
  : io TelegramE (result NotifyError ()) :=
  await? (status, raw) := call self "sendMessage" (Some (mkSendMessage (tc_chat_id self) text)) in
  Ret (let? reply := parse_reply status (telegram_reply raw) in
       if is_success status && tr_ok reply then Ok () else Err (refusal status (tr_description reply))).

(** [TelegramChannel::send]. *)
Definition send (self : TelegramChannel) (n : Notification) : io TelegramE (result NotifyError ()) :=
  post_send_message self (format_text n).

(** [TelegramChannel::verify]: the bot's username. *)
Definition verify (self : TelegramChannel) : io TelegramE (result NotifyError string) :=
  await? (status, raw) := call self "getMe" None in
  Ret (let? reply := parse_reply status (get_me_reply raw) in
       if is_success status && gm_ok reply then
         ok_or (gm_result reply ≫= id)
           (Channel ("telegram answered " +:+ status_text status +:+ " with no username"))
       else Err (refusal status (gm_description reply))).

(** [LogChannel] and the Telegram one, as [NotificationChannel]s. *)
Inductive NotificationChannel : Type :=
| LogChannel
| TelegramBot (channel : TelegramChannel).

Definition channel_name (self : NotificationChannel) : string :=
  match self with LogChannel => "log" | TelegramBot _ => "telegram" end.

Definition channel_send (self : NotificationChannel) (n : Notification)
  : io TelegramE (result NotifyError ()) :=
  match self with LogChannel => Ret (Ok ()) | TelegramBot channel => send channel n end.

(** [telegram_channel], [build_notifier] and [verify_telegram] ([service.rs]);
    an error is a rejected configuration's text. *)
Context `{Outside}.

Definition telegram_failure (error : NotifyError) : string :=
  match error with Channel error => "telegram: " +:+ error end.

Definition telegram_channel (config : TelegramConfig) : result string TelegramChannel :=
  let? channel := map_err telegram_failure (telegram_new (tg_token config) (tg_chat_id config)) in
  Ok (match tg_base_url config with Some base => with_base_url base channel | None => channel end).

Definition build_notifier (config : ServiceConfig) (metrics : Metrics)
  : result string (NotificationChannel * Inner) :=
  let? channel :=
    match sc_telegram config with
    | Some telegram => let? channel := telegram_channel telegram in Ok (TelegramBot channel)
    | None => Ok LogChannel
    end in
  Ok (channel, with_metrics metrics (notifier_new (sc_notification_cooldown config))).

Definition verify_telegram (config : option TelegramConfig) : io TelegramE (result string ()) :=
  match config with
  | None => Ret (Ok ())
  | Some telegram =>
      await? channel := Ret (telegram_channel telegram) in
      await? _ :=
        (await answer := verify channel in Ret (map_err telegram_failure answer)) in
      Ret (Ok ())
  end.

(** The notifier of a run delivers to the configured chat with the configured
    token, at Telegram's address unless another is configured, and to the log
    where there is none; it starts with every permit, nothing to repeat, the
    configured cooldown, and the run's own recorder. *)
Theorem notifier_is_configured (config : ServiceConfig) (metrics : Metrics) :
  match build_notifier config metrics with
  | Ok (channel, inner) =>
      match sc_telegram config with
      | None => channel = LogChannel
      | Some telegram => ∃ bot, channel = TelegramBot bot ∧ tc_token bot = tg_token telegram ∧
          tc_chat_id bot = tg_chat_id telegram ∧
          tc_base bot = default TELEGRAM_API (tg_base_url telegram)
      end ∧
      inner = mkInner (sc_notification_cooldown config) ∅ NOTIFY_IN_FLIGHT (Some metrics)
  | Err text => ∃ error, http_client = Err error ∧ text = "telegram: " +:+ error ∧
      is_Some (sc_telegram config)
  end.
Proof.
  unfold build_notifier, telegram_channel, telegram_new.
  destruct (sc_telegram config) as [telegram|]; simpl; [|done].
  destruct http_client as [ []|error]; simpl; [|by eexists].
  split; [|done]. eexists. split; [done|]. by destruct (tg_base_url telegram).
Qed.

Local Close Scope string_scope.

(** ** What a call's answer is *)

(** What a delivery comes to, as a function of the answer: the token is not an
    argument of it. *)
Inductive delivered : result string (Z * string) → result NotifyError () → Prop :=
| delivered_ok status raw reply :
    is_success status = true → telegram_reply raw = Some reply → tr_ok reply = true →
    delivered (Ok (status, raw)) (Ok ())
| delivered_refused status raw reply :
    telegram_reply raw = Some reply → is_success status && tr_ok reply = false →
    delivered (Ok (status, raw)) (Err (refusal status (tr_description reply)))
| delivered_unreadable status raw :
    telegram_reply raw = None →
    delivered (Ok (status, raw)) (Err (Channel ("telegram answered " +:+ status_text status +:+
      " with an unreadable body")))
| delivered_lost text : delivered (Err text) (Err (Channel text)).

(** How many scalar values a text has. *)
Fixpoint chars (text : string) : nat :=
  match text with
  | EmptyString => O
  | String c rest => if starts_char c then S (chars rest) else chars rest
  end.

Lemma take_chars_spec n text :
  ∃ rest, text = take_chars n text +:+ rest ∧ (chars (take_chars n text) ≤ n)%nat ∧
    match rest with
    | EmptyString => True
    | String c _ => starts_char c = true ∧ chars (take_chars n text) = n
    end.
Proof.
  revert n. induction text as [|c text IH]; intros n; [exists EmptyString; split_and!; simpl; [done|lia|done]|].
  simpl. destruct (starts_char c) eqn:Hc.
  - destruct n as [|n]; [exists (String c text); by split_and!|].
    destruct (IH n) as (rest & Htext & Hn & Hrest). exists rest. split_and!.
    + change (String c text = String c (take_chars n text +:+ rest)). by rewrite <-Htext.
    + simpl. rewrite Hc. lia.
    + destruct rest; [done|]. destruct Hrest. split; [done|]. simpl. rewrite Hc. lia.
  - destruct (IH n) as (rest & Htext & Hn & Hrest). exists rest. split_and!.
    + change (String c text = String c (take_chars n text +:+ rest)). by rewrite <-Htext.
    + simpl. by rewrite Hc.
    + destruct rest; [done|]. destruct Hrest. split; [done|]. simpl. by rewrite Hc.
Qed.

(** A delivery is one call, of the bot its token names and to its chat, whose
    text is the notification's, cut to [MAX_TEXT] whole characters when it is
    longer; what it comes to is read from the answer alone, so nothing the
    caller logs holds the token. *)
Theorem send_is_one_call (self : TelegramChannel) (n : Notification) :
  returns telegram_log (send self n) (λ tr r, ∃ text rest answer,
    tr = [OCall (tc_base self +:+ "/bot" +:+ expose (tc_token self) +:+ "/sendMessage")
            (Some (mkSendMessage (tc_chat_id self) text)) answer] ∧
    message_text n = text +:+ rest ∧ (chars text ≤ MAX_TEXT)%nat ∧
    match rest with
    | EmptyString => True
    | String c _ => starts_char c = true ∧ chars text = MAX_TEXT
    end ∧
    delivered answer r).
Proof.
  unfold send, post_send_message, call.
  destruct (take_chars_spec MAX_TEXT (message_text n)) as (rest & Htext & Hn & Hrest).
  eapply returns_try with (P := λ tr r, ∃ answer,
    tr = [OCall (tc_base self +:+ "/bot" +:+ expose (tc_token self) +:+ "/sendMessage")
            (Some (mkSendMessage (tc_chat_id self) (format_text n))) answer] ∧
    r = map_err Channel answer).
  - eapply returns_bind; [by apply (returns_perform _ _ (λ tr answer,
      tr = [OCall (tc_base self +:+ "/bot" +:+ expose (tc_token self) +:+ "/sendMessage")
              (Some (mkSendMessage (tc_chat_id self) (format_text n))) answer]))|].
    intros answer tr1 ->. apply returns_ret. by exists answer.
  - intros tr e (answer & -> & He). exists (format_text n), rest, answer. split_and!; try done.
    destruct answer as [ []|text]; simpl in He; simplify_eq. constructor.
  - intros [status raw] tr1 (answer & -> & Ha). apply returns_ret.
    exists (format_text n), rest, answer. rewrite app_nil_r. split_and!; try done.
    destruct answer as [p|text]; simpl in Ha; [injection Ha as <-|done].
    unfold parse_reply. destruct (telegram_reply raw) as [reply|] eqn:Hraw; simpl; [|by constructor].
    destruct (is_success status) eqn:Hs; simpl; [destruct (tr_ok reply) eqn:Hok|];
      econstructor; try done; rewrite Hs; try done; by rewrite Hok.
Qed.
End telegram.
