(* ===== verification/Startup.v ===== *)
(** * From a configuration to running tasks ([src/service.rs])

    What is checked against the chain before anything is spawned, which
    configuration and which keys each task is given, one queue worker per key,
    and how the run ends: every task joined, the first failure raising the
    shutdown. *)

From S2P Require Import Prelude Fixed FillDelay Fill Reserve Position Inventory Io Chain Operations.
From S2P Require Import Decode Rpc Snapshot Store Submit Config Settings Poller TrackerLoop.
From S2P Require Import Signing Tracker Auctioneer AuctioneerTask Filler.
From stdpp Require Import pretty.
Open Scope Z_scope.

(** ** Errors *)

(** [LiquidatorError]: a rejected configuration, a failure of the chain layer,
    or one of a task's own. *)
Inductive LiquidatorError `{Xdr} (TaskError : Type) : Type :=
| InvalidConfig (text : string)
| ChainFailed (e : ChainError)
| TaskFailed (e : TaskError).
#[global] Arguments InvalidConfig {_ _}.
#[global] Arguments ChainFailed {_ _}.
#[global] Arguments TaskFailed {_ _}.

(** The derived [Debug] of [PoolStatus]. *)
Definition status_debug (status : PoolStatus) : string :=
  match status with
  | AdminActive => "AdminActive" | Active => "Active" | AdminOnIce => "AdminOnIce"
  | OnIce => "OnIce" | AdminFrozen => "AdminFrozen" | Frozen => "Frozen" | Setup => "Setup"
  end.

Section startup.
Context `{ScDecode} `{Outside} `{!Crypto} {TaskError : Type}.

Abbreviation LiquidatorError := (LiquidatorError TaskError).

(** ** Validation against the chain *)

(** The reads, and an account's entry. *)
Variant StartE : Type → Type :=
| VRead (X : Type) (e : ReadE X) : StartE X
| VAccount (address : string) : StartE (result ChainError Account).

Inductive StartObs : Type :=
| ORead (r : Read)
| OAccount (address : string) (r : result ChainError Account).

Definition start_log (X : Type) (e : StartE X) : X → StartObs :=
  match e in StartE X return X → StartObs with
  | VRead _ e => λ x, ORead (read _ e x)
  | VAccount address => OAccount address
  end.

(** A read of the chain; [?] makes its failure a [LiquidatorError::Chain]. *)
Definition chain_read {A : Type} (m : io ReadE (result ChainError A))
  : io StartE (result LiquidatorError A) :=
  await r := translate VRead m in
  Ret (map_err ChainFailed r).

Record PoolValidation : Type := mkPoolValidation {
  pv_pool : string;
  pv_reserves : nat;
  pv_backstop : string;
}.

Local Open Scope string_scope.

(** [validate_primary_asset]. *)
Definition validate_primary_asset (pool asset : string) (snapshot : PoolSnapshot)
  : result LiquidatorError () :=
  let subject := "pool " +:+ pool +:+ ": primary asset " +:+ asset in
  match ps_asset_index snapshot !! asset ≫= λ index, ps_reserves snapshot !! index with
  | None => Err (InvalidConfig (subject +:+ " is not a reserve"))
  | Some reserve =>
      guard rc_enabled (rs_config reserve) else InvalidConfig (subject +:+ " is disabled");
      guard negb (rc_c_factor (rs_config reserve) =? 0)%Z
        else InvalidConfig (subject +:+ " has no collateral factor");
      Ok ()
  end.

(** [validate_supported_assets]. *)
Fixpoint validate_supported_assets (pool : string) (assets : list string) (snapshot : PoolSnapshot)
  : result LiquidatorError () :=
  match assets with
  | [] => Ok ()
  | asset :: assets =>
      guard bool_decide (asset = "*") || bool_decide (is_Some (ps_asset_index snapshot !! asset))
        else InvalidConfig ("pool " +:+ pool +:+ ": supported asset " +:+ asset +:+ " is not a reserve");
      validate_supported_assets pool assets snapshot
  end.

(** [validate]: the warning of a pool that is not active. *)
Definition status_warnings (pool : string) (status : PoolStatus) : list string :=
  match status with
  | Active | AdminActive => []
  | _ => ["pool " +:+ pool +:+ ": status is " +:+ status_debug status +:+ ", not active"]
  end.

(** [validate]: the warnings of the reserves that have no price. *)
Definition price_warnings (pool : string) (snapshot : PoolSnapshot) : list string :=
  omap (λ '(_, reserve),
    if is_ok (price (ps_prices snapshot) (rs_asset reserve)) then None
    else Some ("pool " +:+ pool +:+ ": the oracle has no price for " +:+ rs_asset reserve))
    (bt_iter (ps_reserves snapshot)).

(** [validate]: the first pool's backstop is every pool's. *)
Definition shares_backstop (shared : option (string * string)) (pool backstop : string)
  : result LiquidatorError (string * string) :=
  match shared with
  | None => Ok (pool, backstop)
  | Some (first_pool, first_backstop) =>
      guard bool_decide (first_backstop = backstop)
        else InvalidConfig ("pool " +:+ first_pool +:+ " reports backstop " +:+ first_backstop +:+
               ", but pool " +:+ pool +:+ " reports backstop " +:+ backstop +:+
               ": a filler's position is shared across every pool it follows, so they cannot use two backstops");
      Ok (first_pool, first_backstop)
  end.

(** [validate], one pool whose snapshot was read. *)
Definition validate_pool (pool : PoolConfig) (snapshot : PoolSnapshot)
    (shared : option (string * string))
  : result LiquidatorError (string * string * PoolValidation * list string) :=
  let instance := ps_instance snapshot in
  let address := cf_address pool in
  let? shared := shares_backstop shared address (pi_backstop instance) in
  let? _ := validate_primary_asset address (cf_primary_asset pool) snapshot in
  let? _ := validate_supported_assets address (cf_supported_bid pool) snapshot in
  let? _ := validate_supported_assets address (cf_supported_lot pool) snapshot in
  guard negb (pc_max_positions (pi_config instance) <? 2)%Z
    else InvalidConfig ("pool " +:+ address +:+ ": max_positions is " +:+
           pretty (pc_max_positions (pi_config instance)) +:+
           ", but an auction names at least one bid and one lot, so no auction could ever be created for it");
  Ok (shared, mkPoolValidation address (size (ps_reserves snapshot)) (pi_backstop instance),
      (status_warnings address (pc_status (pi_config instance)) ++ price_warnings address snapshot)%list).

(** [validate]. *)
Fixpoint validate_from (pools : list PoolConfig) (shared : option (string * string))
    (validations : list PoolValidation) (warnings : list string)
  : io StartE (result LiquidatorError (list PoolValidation * list string)) :=
  match pools with
  | [] => Ret (Ok (validations, warnings))
  | pool :: pools =>
      await? snapshot := chain_read (snapshot (cf_address pool) []) in
      match validate_pool pool snapshot shared with
      | Err e => Ret (Err e)
      | Ok (shared, validation, warned) =>
          validate_from pools (Some shared) (validations ++ [validation])%list (warnings ++ warned)%list
      end
  end.

Definition validate (pools : list PoolConfig)
  : io StartE (result LiquidatorError (list PoolValidation * list string)) :=
  validate_from pools None [] [].

(** ** The keys and the roles *)

(** [SigningContext]. *)
Record SigningContext : Type := mkSigningContext {
  sx_network : Network;
  sx_tx_config : TxConfig;
  sx_signers : Signers;
  sx_own_addresses : gset string;
  sx_native_asset : string;
}.

(** [SigningContext::from_config]: the addresses are taken before the keys
    become roles. *)
Definition signing_context (config : ServiceConfig) (keys : SigningKeys)
  : result LiquidatorError SigningContext :=
  let network := network_from_config (sc_chain config) in
  let? native_asset := map_err ChainFailed (native_asset_contract network) in
  Ok (mkSigningContext network
    (tx_config_new (cc_base_fee (sc_chain config)) (cc_high_fee (sc_chain config))
      (cc_tx_poll_ledgers (sc_chain config)))
    (into_signers keys) (own_addresses keys) native_asset).

(** [filler_primary_collateral]. *)
Definition filler_primary_collateral (snapshot : PoolSnapshot) (filler asset : string)
  : result MathError Z :=
  match ps_asset_index snapshot !! asset with
  | None => Ok 0%Z
  | Some index =>
      match ps_reserves snapshot !! index with
      | None => Ok 0%Z
      | Some reserve =>
          let b_tokens :=
            default 0%Z (ps_positions snapshot !! filler ≫= λ p, collateral p !! index) in
          to_asset_from_b_token reserve b_tokens
      end
  end.

(** [validate_filler]: a failure of an armed bot is a dry run's warning. *)
Definition refuse_or_warn (armed : bool) (warnings : list string) (message : string)
  : result LiquidatorError (list string) :=
  if armed then Err (InvalidConfig message) else Ok (warnings ++ [message])%list.

(** [validate_filler], the wallet of every pool's primary asset. *)
Context (math_error_text : MathError → string).

Fixpoint validate_collateral (pools : list PoolConfig) (address : string) (warnings : list string)
  : io StartE (result LiquidatorError (list string)) :=
  match pools with
  | [] => Ret (Ok warnings)
  | pool :: pools =>
      await? snapshot := chain_read (snapshot (cf_address pool) [address]) in
      let warned :=
        match filler_primary_collateral snapshot address (cf_primary_asset pool) with
        | Ok held =>
            if (held <? cf_min_primary_collateral pool)%Z then
              ["pool " +:+ cf_address pool +:+ ": the filler holds " +:+ pretty held +:+
               " of its primary asset " +:+ cf_primary_asset pool +:+ ", " +:+
               pretty (cf_min_primary_collateral pool - held)%Z +:+
               " short of min_primary_collateral (" +:+ pretty (cf_min_primary_collateral pool) +:+ ")"]
            else []
        | Err error =>
            ["pool " +:+ cf_address pool +:+
             ": the filler's primary collateral could not be valued: " +:+ math_error_text error]
        end in
      validate_collateral pools address (warnings ++ warned)%list
  end.

(** [validate_filler]. *)
Definition validate_filler (config : ServiceConfig) (signing : SigningContext)
  : io StartE (result LiquidatorError (list string)) :=
  match ss_filler (sx_signers signing) with
  | None => Ret (Ok ["no FILLER_SECRET_KEY: the filler plans against an empty inventory and simulates nothing"])
  | Some signer =>
      let address := sg_address (arc_value signer) in
      let armed := negb (sc_dry_run config) in
      await account := perform (VAccount address) in
      match account with
      | Err (NoAccount _) =>
          Ret (refuse_or_warn armed []
            ("the filler account " +:+ address +:+ " does not exist on this network: it must be funded before it can sign, hold collateral or pay a fee"))
      | Err error => Ret (Err (ChainFailed error))
      | Ok _ =>
          match sc_pools config with
          | [] => Ret (Ok [])
          | any_pool :: _ =>
              await? (_, native_balance) :=
                chain_read (read_balance (sx_native_asset signing) address) in
              match
                (if (native_balance <? sc_xlm_fee_reserve config)%Z then
                   refuse_or_warn armed []
                     ("the filler account " +:+ address +:+ " holds " +:+ pretty native_balance +:+
                      " stroops of the native asset, below the " +:+ pretty (sc_xlm_fee_reserve config) +:+
                      " stroops XLM_FEE_RESERVE asks for (XLM_FEE_RESERVE is set in decimal XLM, i.e. XLM_FEE_RESERVE × 10^7 stroops): it could not pay for the fills it plans")
                 else Ok [])
              with
              | Err e => Ret (Err e)
              | Ok warnings =>
                  if armed then validate_collateral (sc_pools config) address warnings
                  else Ret (Ok warnings)
              end
          end
      end
  end.

(** ** What each task is given *)

(** The random generator's draws, in order. *)
Context (random : nat → Z → Z).

Definition auctioneer_cadence_from (config : ServiceConfig) : AuctioneerCadence :=
  mkAuctioneerCadence (sc_refresh_batch config) (sc_oracle_scan_ledgers config)
    (scan_phase (random 0) (sc_oracle_scan_ledgers config)) (sc_full_scan_ledgers config)
    (scan_phase (random 1) (sc_full_scan_ledgers config)) (sc_scan_health_factor config)
    (sc_price_delta_bps config) (sc_startup_delay_ledgers config).

Definition auctioneer_config_from (config : ServiceConfig) (signing : SigningContext)
  : AuctioneerConfig :=
  mkAuctioneerConfig (sc_liquidation_health_factor config) (sc_target_health_factor config)
    (sc_plan_iterations config) (sc_dry_run config) (sx_own_addresses signing).

Definition filler_config_from (config : ServiceConfig) (signing : SigningContext) : FillerConfig :=
  mkFillerConfig (sc_dry_run config) (sx_own_addresses signing) (sc_hf_safety_multiplier config)
    (sc_plan_iterations config) (sc_replan_ledgers config) (sc_replan_near_ledgers config)
    (sc_high_fee_profit_threshold config) (sc_inventory_refresh config) (sx_native_asset signing).

(** The seed sources: [FileSeed::load] ([tracker.rs]). *)
Definition file_seed_load (path : string) : result string FileSeed :=
  let failed (error : string) := "seed file: " +:+ path +:+ ": " +:+ error in
  let? text := map_err failed (read_to_string path) in
  let? accounts := map_err failed (seed_file_from_str text) in
  Ok (mkFileSeed accounts).

(** [build_seed_sources]. *)
Definition build_seed_sources (seed : SeedConfig) : result LiquidatorError (list SeedSource) :=
  let? analytics :=
    match sd_url seed with
    | None => Ok []
    | Some url =>
        let? _ := map_err (λ error, InvalidConfig ("seed url: seed request: " +:+ error)) http_client in
        Ok [Analytics (analytics_new url (sd_health_factor_max seed))]
    end in
  let? file :=
    match sd_file seed with
    | None => Ok []
    | Some path =>
        let? file := map_err (λ error, InvalidConfig ("seed file: " +:+ error)) (file_seed_load path) in
        Ok [FileSource file]
    end in
  Ok (analytics ++ file)%list.

Definition tracker_cadence_from (config : ServiceConfig) : Cadence :=
  mkCadence (sc_user_refresh_ledgers config) (sc_refresh_batch config)
    (sc_full_scan_ledgers config) (sc_scan_health_factor config)
    (scan_phase (random 2) (sc_full_scan_ledgers config)).

(** ** The queues *)

(** A [SubmissionQueue] handle is the number of its worker. *)
Record Queues : Type := mkQueues {
  qs_auctioneer : option nat;
  qs_filler : option nat;
}.

(** [spawn_queue_worker]: [workers] holds the key of each, in spawning order. *)
Definition spawn_queue_worker (workers : list (Arc Signer)) (signer : Arc Signer)
  : list (Arc Signer) * nat :=
  ((workers ++ [signer])%list, length workers).

Definition spawn_for (workers : list (Arc Signer)) (signer : option (Arc Signer))
  : list (Arc Signer) * option nat :=
  match signer with
  | None => (workers, None)
  | Some signer => let '(workers, queue) := spawn_queue_worker workers signer in (workers, Some queue)
  end.

(** [spawn_queues]. *)
Definition spawn_queues (signers : Signers) (dry_run : bool) : list (Arc Signer) * Queues :=
  if dry_run then ([], mkQueues None None)
  else
    match ss_auctioneer signers, ss_filler signers with
    | None, None => ([], mkQueues None None)
    | _, _ =>
        let '(workers, filler) := spawn_for [] (ss_filler signers) in
        let '(workers, auctioneer) :=
          if shared signers then (workers, filler) else spawn_for workers (ss_auctioneer signers) in
        (workers, mkQueues auctioneer filler)
    end.

(** ** The run *)

(** What a [Submitter] is made of, the RPC client aside. *)
Record Submitter : Type := mkSubmitter {
  sb_signer : Arc Signer;
  sb_network : Network;
  sb_config : TxConfig;
}.

Definition submitter_of (signing : SigningContext) (signer : Arc Signer) : Submitter :=
  mkSubmitter signer (sx_network signing) (sx_tx_config signing).

(** What is spawned, with what it is given. *)
Inductive Task : Type :=
| THttp (http : HttpConfig) (pools : list string) (liveness_deadline : Z)
| TPoller (pool : string) (config : PollerConfig)
| TWorker (submitter : Submitter)
| TWatchdog (pools : list string) (config : PollerConfig)
| TAuctioneer (submitter : option Submitter) (config : AuctioneerConfig)
    (cadence : AuctioneerCadence) (pools : list string) (queue : option nat)
| TFiller (submitter : option Submitter) (dry_run : bool) (inventory : Ledger)
    (config : FillerConfig) (pools : list PoolConfig) (startup_delay_ledgers : Z) (queue : option nat)
| TTracker (seed_sources : list SeedSource) (cadence : Cadence) (needs_reseed : gset string).

(** [spawn_pollers], the worker of [spawn_queue_worker], [spawn_watchdog],
    [spawn_auctioneer] and [spawn_filler]. *)
Definition spawn_pollers (pools : list PoolConfig) (config : PollerConfig) : list Task :=
  map (λ pool, TPoller (cf_address pool) config) pools.
Definition spawn_workers (signing : SigningContext) (workers : list (Arc Signer)) : list Task :=
  map (λ signer, TWorker (submitter_of signing signer)) workers.
Definition spawn_watchdog (pools : list string) (config : PollerConfig) : Task :=
  TWatchdog pools config.
Definition spawn_auctioneer (signing : SigningContext) (config : AuctioneerConfig)
    (cadence : AuctioneerCadence) (pools : list string) (queue : option nat) : Task :=
  TAuctioneer (submitter_of signing <$> ss_auctioneer (sx_signers signing)) config cadence pools queue.
Definition spawn_filler (signing : SigningContext) (config : FillerConfig) (pools : list PoolConfig)
    (xlm_fee_reserve startup_delay_ledgers : Z) (queue : option nat) : Task :=
  TFiller (submitter_of signing <$> ss_filler (sx_signers signing)) (fc_dry_run config)
    (inventory_new (sx_native_asset signing) xlm_fee_reserve) config pools startup_delay_ledgers queue.

(** How a joined task ended; a panic's payload, or a cancellation's text. *)
Inductive Joined : Type :=
| JReturned (r : result LiquidatorError ())
| JPanicked (payload : string)
| JCancelled (text : string).

(** [Drained]. *)
Inductive Drained : Type :=
| Returned (r : result LiquidatorError ())
| Panicked (payload : string).

(** ** Signals

    [spawn_shutdown_listener]: a task of its own, which no one joins. *)

Variant SignalE : Type → Type :=
| InstallTerminate : SignalE bool
| Signalled (terminate : bool) : SignalE ()
| RaiseShutdown : SignalE ()
| ExitProcess (code : Z) : SignalE ().

Inductive SignalObs : Type :=
| OInstalled (ok : bool)
| OSignalled (terminate : bool)
| ORaised
| OExited (code : Z).

Definition signal_log (X : Type) (e : SignalE X) : X → SignalObs :=
  match e in SignalE X return X → SignalObs with
  | InstallTerminate => OInstalled
  | Signalled terminate => λ _, OSignalled terminate
  | RaiseShutdown => λ _, ORaised
  | ExitProcess code => λ _, OExited code
  end.

(** [wait_for_signal]: [ctrl_c], and [SIGTERM] where its handler is in place. *)
Definition wait_for_signal : io SignalE () :=
  await terminate := perform InstallTerminate in
  perform (Signalled terminate).

Definition shutdown_listener : io SignalE () :=
  await _ := wait_for_signal in
  await _ := perform RaiseShutdown in
  await _ := wait_for_signal in
  perform (ExitProcess 130).

(** ** The calls of a run *)

(** The steps of [run] and [check_config] that are other parts' own: opening the
    store, migrating or pinging it, the RPC client, the notifier's channel, the
    Telegram credentials, the seed pass
    ([TrackerLoop.seed_pools_needing_it]); spawning, joining, raising the
    shutdown, draining the notifier, starting the listener. *)
Inductive Part : Type :=
| PConnect | PMigrate | PPing | PClient | PNotifier | PTelegram.

Variant RunE : Type → Type :=
| RListen : RunE ()
| RPart (p : Part) : RunE (result LiquidatorError ())
| RStart (X : Type) (e : StartE X) : RunE X
| RSeed (pools : list string) (sources : list SeedSource) (batch poll_interval : Z)
  : RunE (result LiquidatorError (gset string))
| RSpawn (t : Task) : RunE ()
| RJoin : RunE (option Joined)
| RShutdown : RunE ()
| RDrain : RunE bool.

Inductive RunObs : Type :=
| OListen
| OPart (p : Part) (r : result LiquidatorError ())
| OStart (o : StartObs)
| OSeed (pools : list string) (sources : list SeedSource) (batch poll_interval : Z)
    (r : result LiquidatorError (gset string))
| OSpawn (t : Task)
| OJoin (j : option Joined)
| OShutdown
| ODrainNotifier (drained : bool).

Definition run_log (X : Type) (e : RunE X) : X → RunObs :=
  match e in RunE X return X → RunObs with
  | RListen => λ _, OListen
  | RPart p => OPart p
  | RStart _ e => λ x, OStart (start_log _ e x)
  | RSeed pools sources batch poll_interval => OSeed pools sources batch poll_interval
  | RSpawn t => λ _, OSpawn t
  | RJoin => OJoin
  | RShutdown => λ _, OShutdown
  | RDrain => ODrainNotifier
  end.

(** [drain_tasks]: what has failed so far. *)
Record Failures : Type := mkFailures {
  fl_failure : option LiquidatorError;
  fl_panicked : option string;
}.

Definition no_failures : Failures := mkFailures None None.

(** [Option::get_or_insert]. *)
Definition get_or_insert {A : Type} (o : option A) (a : A) : option A :=
  match o with Some b => Some b | None => Some a end.

Definition drain_answer (f : Failures) : Drained :=
  match fl_panicked f, fl_failure f with
  | Some payload, _ => Panicked payload
  | None, Some error => Returned (Err error)
  | None, None => Returned (Ok ())
  end.

Definition note_error (error : LiquidatorError) (f : Failures) : io RunE Failures :=
  let noted := mkFailures (get_or_insert (fl_failure f) error) (fl_panicked f) in
  match fl_failure f, fl_panicked f with
  | None, None => await _ := perform RShutdown in Ret noted
  | _, _ => Ret noted
  end.

Definition note_panic (payload : string) (f : Failures) : io RunE Failures :=
  let noted := mkFailures (fl_failure f) (get_or_insert (fl_panicked f) payload) in
  match fl_panicked f with
  | None => await _ := perform RShutdown in Ret noted
  | Some _ => Ret noted
  end.

Definition join_one (f : Failures) : io RunE (Failures + Drained) :=
  await outcome := perform RJoin in
  match outcome with
  | None => Ret (inr (drain_answer f))
  | Some (JReturned (Ok _)) => Ret (inl f)
  | Some (JReturned (Err error)) => await f := note_error error f in Ret (inl f)
  | Some (JPanicked payload) => await f := note_panic payload f in Ret (inl f)
  | Some (JCancelled text) =>
      await f := note_panic ("a service task was cancelled unexpectedly: " +:+ text) f in Ret (inl f)
  end.

Definition drain_tasks : io RunE Drained := ITree.iter join_one no_failures.

(** [finish_run]: a panic is resumed, so it is still [Panicked]. *)
Definition finish_run (drained : Drained) : io RunE Drained :=
  await _ := perform RDrain in Ret drained.

Fixpoint spawn_all (tasks : list Task) : io RunE () :=
  match tasks with
  | [] => Ret ()
  | t :: tasks => await _ := perform (RSpawn t) in spawn_all tasks
  end.

(** [run], the diagnostics server, when one is configured. *)
Definition http_task (config : ServiceConfig) : list Task :=
  match sc_http config with
  | Some http =>
      [THttp http (cf_address <$> sc_pools config)
        (liveness_deadline (poller_config_new (sc_poll_interval config)))]
  | None => []
  end.

(** [run], the tasks spawned once the pools are seeded, in their order. *)
Definition tasks_of (config : ServiceConfig) (signing : SigningContext)
    (seed_sources : list SeedSource) (needs_reseed : gset string) : list Task :=
  let poller_config := poller_config_new (sc_poll_interval config) in
  let pool_addresses := cf_address <$> sc_pools config in
  let '(workers, queues) := spawn_queues (sx_signers signing) (sc_dry_run config) in
  (spawn_pollers (sc_pools config) poller_config ++ spawn_workers signing workers ++
   [spawn_watchdog pool_addresses poller_config;
    spawn_auctioneer signing (auctioneer_config_from config signing)
      (auctioneer_cadence_from config) pool_addresses (qs_auctioneer queues);
    spawn_filler signing (filler_config_from config signing) (sc_pools config)
      (sc_xlm_fee_reserve config) (sc_startup_delay_ledgers config) (qs_filler queues);
    TTracker seed_sources (tracker_cadence_from config) needs_reseed])%list.

(** [Service::run]. *)
Definition run (config : ServiceConfig) (keys : SigningKeys) : io RunE Drained :=
  await _ := perform RListen in
  await ended :=
    (await? _ := perform (RPart PConnect) in
     await? _ := perform (RPart PMigrate) in
     await? _ := perform (RPart PClient) in
     await? _ := translate RStart (validate (sc_pools config)) in
     await? signing := Ret (signing_context config keys) in
     await? _ := translate RStart (validate_filler config signing) in
     await? _ := perform (RPart PNotifier) in
     await _ := spawn_all (http_task config) in
     await? seed_sources := Ret (build_seed_sources (sc_seed config)) in
     await? needs_reseed :=
       perform (RSeed (cf_address <$> sc_pools config) seed_sources (sc_refresh_batch config)
         (sc_poll_interval config)) in
     await _ := spawn_all (tasks_of config signing seed_sources needs_reseed) in
     await drained := drain_tasks in
     Ret (Ok drained)) in
  match ended with
  | Err error => Ret (Returned (Err error))
  | Ok drained => finish_run drained
  end.

(** [Service::check_config]: the same validations, and the credentials last. *)
Definition check_config (config : ServiceConfig) (keys : SigningKeys)
  : io RunE (result LiquidatorError (list string)) :=
  await? _ := perform (RPart PConnect) in
  await? _ := perform (RPart PPing) in
  await? _ := perform (RPart PClient) in
  await? (validations, warnings) := translate RStart (validate (sc_pools config)) in
  await? signing := Ret (signing_context config keys) in
  await? warned := translate RStart (validate_filler config signing) in
  await? _ := perform (RPart PTelegram) in
  Ret (Ok (warnings ++ warned)%list).

(** ** The process ([src/main.rs]) *)

Definition EXIT_CONFIG : Z := 2.
Definition EXIT_FATAL : Z := 1.

(** How the process ends: by [exit], or as the panic that was resumed. *)
Inductive Exit : Type := ExitCode (code : Z) | ExitPanic (payload : string).

(** [main], what a run's end is to the process. *)
Definition exit_of_run (ended : Drained) : Exit :=
  match ended with
  | Returned (Ok _) => ExitCode 0
  | Returned (Err (InvalidConfig _)) => ExitCode EXIT_CONFIG
  | Returned (Err _) => ExitCode EXIT_FATAL
  | Panicked payload => ExitPanic payload
  end.

(** [main], from the parsed arguments and the environment's variables. *)
Definition main (self : Args) (env : string → option string) : io RunE Exit :=
  match service self env with
  | Err _ => Ret (ExitCode EXIT_CONFIG)
  | Ok config =>
      match
        signing_keys self (not_empty (env "FILLER_SECRET_KEY")) (not_empty (env "AUCTIONEER_SECRET_KEY"))
      with
      | Err _ => Ret (ExitCode EXIT_CONFIG)
      | Ok keys =>
          match sc_run_mode config with
          | CheckConfig =>
              await checked := check_config config keys in
              Ret (match checked with Ok _ => ExitCode 0 | Err _ => ExitCode EXIT_CONFIG end)
          | Settings.Loop =>
              await ended := run config keys in
              Ret (exit_of_run ended)
          end
      end
  end.

Local Close Scope string_scope.
End startup.
