(* ===== verification/StartupContract.v ===== *)
(** * What is started, and on what terms

    From the arguments and the secrets to the tasks: the keys and their queues,
    the configuration each task runs on; and what every run of [run] does, from
    the validations to the last task joined. *)

From S2P Require Import Prelude Fixed FillDelay Fill Reserve Position Inventory Io Chain Operations.
From S2P Require Import Decode Rpc Snapshot Store Submit Config Settings SettingsContract Poller TrackerLoop.
From S2P Require Import Signing Tracker Auctioneer AuctioneerTask Filler Startup.
Open Scope Z_scope.

Section keys.
Context `{Outside}.

Definition key_of_role (signer : Arc Signer) : string := sg_address (arc_value signer).

(** What the secrets are, once accepted. *)
Record keyed (args : Args) (filler auctioneer : option string) (keys : SigningKeys) : Prop := {
  keyed_filler : sk_filler keys = filler ≫= from_secret;
  keyed_auctioneer : sk_auctioneer keys = auctioneer ≫= from_secret;
  keyed_given_filler : is_Some filler → is_Some (sk_filler keys);
  keyed_given_auctioneer : is_Some auctioneer → is_Some (sk_auctioneer keys);
  keyed_apart a f : sk_auctioneer keys = Some a → sk_filler keys = Some f →
    sg_address a ≠ sg_address f;
  keyed_live : ar_dry_run args = false → is_Some (sk_filler keys);
}.

Lemma parse_key_ok name secret signer : parse_signing_key name secret = Ok signer →
  signer = secret ≫= from_secret ∧ (is_Some secret → is_Some signer).
Proof.
  unfold parse_signing_key. destruct secret as [secret|]; simpl; [|naive_solver].
  destruct (from_secret secret); simpl; naive_solver.
Qed.

Lemma signing_keys_ok args filler auctioneer keys :
  signing_keys args filler auctioneer = Ok keys → keyed args filler auctioneer keys.
Proof.
  unfold signing_keys. intros Hok. rust_inv.
  repeat match goal with Hp : parse_signing_key _ _ = Ok _ |- _ =>
    apply parse_key_ok in Hp as [? ?] end.
  simplify_eq. split; simpl; try done.
  - intros a f Ha Hf. rewrite Ha, Hf in *. by case_bool_decide.
  - intros Hdry. rewrite Hdry in *. by case_bool_decide.
Qed.

(** A role's queue is served by the worker of its own key. *)
Definition served (workers : list (Arc Signer)) (signer : option (Arc Signer)) (queue : option nat)
  : Prop :=
  match queue with
  | None => signer = None
  | Some i => signer = workers !! i ∧ is_Some signer
  end.

Record roles (live : bool) (keys : SigningKeys) (signers : Signers) (workers : list (Arc Signer))
    (queues : Queues) : Prop := {
  roles_filler : arc_value <$> ss_filler signers = sk_filler keys;
  roles_auctioneer : arc_value <$> ss_auctioneer signers =
    match sk_auctioneer keys with Some own => Some own | None => sk_filler keys end;
  roles_distinct : NoDup (key_of_role <$> workers);
  roles_dry : live = false → workers = [] ∧ queues = mkQueues None None;
  roles_served_filler : live = true → served workers (ss_filler signers) (qs_filler queues);
  roles_served_auctioneer : live = true →
    served workers (ss_auctioneer signers) (qs_auctioneer queues);
  roles_one_queue : live = true → sk_auctioneer keys = None →
    qs_auctioneer queues = qs_filler queues;
}.

Lemma roles_of args filler auctioneer keys :
  keyed args filler auctioneer keys →
  let '(workers, queues) := spawn_queues (into_signers keys) (ar_dry_run args) in
  roles (negb (ar_dry_run args)) keys (into_signers keys) workers queues.
Proof.
  intros [_ _ _ _ Hap Hlive]. unfold spawn_queues, into_signers.
  destruct keys as [a f]; simpl in *.
  destruct (ar_dry_run args) eqn:Hdry, a as [a|], f as [f|]; simpl;
    try (destruct (Hlive eq_refl); done);
    split; simpl; intros; try done;
    repeat constructor; set_solver.
Qed.

Lemma own_addresses_all keys signer :
  (sk_auctioneer keys = Some signer ∨ sk_filler keys = Some signer) →
  sg_address signer ∈ own_addresses keys.
Proof.
  unfold own_addresses. destruct keys as [ [a|] [f|] ]; simpl; intros [Heq|Heq];
    simplify_eq/=; set_solver.
Qed.
End keys.

(** The accepted range of a phase drawn for a period. *)
Definition draws_in_range (random : nat → Z → Z) : Prop :=
  ∀ n period, 0 < period → 0 ≤ random n period < period.

Section terms.
Context `{ScDecode} `{Outside} `{!Crypto} (random : nat → Z → Z).

(** The terms the auctioneer, the filler and the tracker are started on. *)
Record auctioneer_terms (keys : SigningKeys) (config : AuctioneerConfig) (cadence : AuctioneerCadence)
  : Prop := {
  terms_thresholds :
    0 ≤ ac_liquidation_health_factor config < au_scan_health_factor cadence;
  terms_target : 10300000 ≤ ac_target_health_factor config < 11500000;
  terms_walk : 1 ≤ ac_plan_iterations config ∧ 1 ≤ au_refresh_batch cadence ∧
    1 ≤ au_price_delta_bps cadence;
  terms_oracle : 0 ≤ au_oracle_phase cadence < au_oracle_scan_ledgers cadence;
  terms_full : 0 ≤ au_full_phase cadence < au_full_scan_ledgers cadence;
  terms_not_own signer :
    (sk_auctioneer keys = Some signer ∨ sk_filler keys = Some signer) →
    sg_address signer ∈ ac_own_addresses config;
}.

(** The tracker scans on the auctioneer's terms: its period, its threshold, a
    phase of its own inside the period; and refreshes in the configured batches. *)
Record tracker_terms (args : Args) (liquidation : Z) (cadence : AuctioneerCadence) (tracker : Cadence)
  : Prop := {
  terms_tracker_phase : 0 ≤ cd_phase tracker < cd_full_scan_ledgers tracker;
  terms_tracker_period : cd_full_scan_ledgers tracker = au_full_scan_ledgers cadence;
  terms_tracker_threshold :
    cd_scan_health_factor tracker = au_scan_health_factor cadence ∧
    0 ≤ liquidation < cd_scan_health_factor tracker;
  terms_tracker_batch :
    cd_refresh_batch tracker = au_refresh_batch cadence ∧ 1 ≤ cd_refresh_batch tracker;
  terms_tracker_refresh :
    cd_user_refresh_ledgers tracker = ar_user_refresh_ledgers args ∧
    is_u32 (cd_user_refresh_ledgers tracker);
}.

Record filler_terms (keys : SigningKeys) (config : FillerConfig) (pools : list PoolConfig)
    (reserve : Z) : Prop := {
  terms_pools : pools ≠ [] ∧ NoDup (cf_address <$> pools);
  terms_floor : Forall (λ pool,
    0 ≤ cf_min_primary_collateral pool ∧ 10000100 < cf_min_health_factor pool ∧
    ∀ floor, health_floor (cf_min_health_factor pool) (fc_hf_safety_multiplier config) = Ok floor →
      10000100 < floor) pools;
  terms_replan : 1 ≤ fc_replan_ledgers config ∧ 1 ≤ fc_plan_iterations config;
  terms_wallet : 0 < fc_inventory_refresh config ∧ is_u64 reserve;
  terms_filler_own signer :
    (sk_auctioneer keys = Some signer ∨ sk_filler keys = Some signer) →
    sg_address signer ∈ fc_own_addresses config;
}.

Lemma phase_in_period n period : draws_in_range random → 1 ≤ period →
  0 ≤ scan_phase (random n) period < period.
Proof.
  intros Hr Hp. unfold scan_phase. rewrite (proj2 (Z.eqb_neq _ _)) by lia. apply Hr. lia.
Qed.

Lemma auctioneer_terms_of {TaskError} config keys signing :
  draws_in_range random → sound config →
  signing_context (TaskError:=TaskError) config keys = Ok signing →
  auctioneer_terms keys (auctioneer_config_from config signing) (auctioneer_cadence_from random config).
Proof.
  intros Hr [] Hs. unfold signing_context in Hs. rust_inv. simplify_eq.
  split; simpl; try done; try lia; try (apply phase_in_period; [done|lia]).
  apply own_addresses_all.
Qed.

Lemma tracker_terms_of {TaskError} args env config keys signing :
  draws_in_range random → accepts args → service args env = Ok config → sound config →
  signing_context (TaskError:=TaskError) config keys = Ok signing →
  tracker_terms args (ac_liquidation_health_factor (auctioneer_config_from config signing))
    (auctioneer_cadence_from random config) (tracker_cadence_from random config).
Proof.
  intros Hr Hargs Hservice [] _.
  assert (sc_user_refresh_ledgers config = ar_user_refresh_ledgers args) as Hrefresh.
  { unfold service, service_with_secrets in Hservice. rust_inv. by simplify_eq. }
  split; simpl; try done; try lia; [apply phase_in_period; [done|lia]|].
  rewrite Hrefresh. split; [done|]. apply Hargs.
Qed.

Lemma filler_terms_of {TaskError} config keys signing :
  sound config → signing_context (TaskError:=TaskError) config keys = Ok signing →
  filler_terms keys (filler_config_from config signing) (sc_pools config) (sc_xlm_fee_reserve config).
Proof.
  intros [] Hs. unfold signing_context in Hs. rust_inv. simplify_eq.
  split; simpl; try done; try lia.
  - eapply Forall_impl; [done|]. intros pool [Hc Hh Hf]. split_and!; [lia|lia|].
    intros floor Hok. apply Hf in Hok. lia.
  - split; [lia|done].
  - apply own_addresses_all.
Qed.
End terms.

(** ** The seed sources *)

(** The seed sources are the configured ones, and a file's is what it lists. *)
Definition seeds_from `{Outside} (seed : SeedConfig) (sources : list SeedSource) : Prop :=
  ∀ source, source ∈ sources ↔
    (∃ url, sd_url seed = Some url ∧
       source = Analytics (analytics_new url (sd_health_factor_max seed))) ∨
    (∃ path text accounts, sd_file seed = Some path ∧ read_to_string path = Ok text ∧
       seed_file_from_str text = Ok accounts ∧ source = FileSource (mkFileSeed accounts)).

Lemma file_seed_load_ok `{Outside} path file :
  file_seed_load path = Ok file ↔
  ∃ text accounts, read_to_string path = Ok text ∧ seed_file_from_str text = Ok accounts ∧
    file = mkFileSeed accounts.
Proof.
  unfold file_seed_load. split.
  - destruct (read_to_string path) as [text|]; simpl; [|done].
    destruct (seed_file_from_str text) as [accounts|] eqn:Ha; simpl; [|done].
    intros [= <-]. by exists text, accounts.
  - intros (text & accounts & -> & Ha & ->). simpl. by rewrite Ha.
Qed.

Lemma seed_sources_ok `{Xdr} `{Outside} {TaskError} seed sources :
  build_seed_sources (TaskError:=TaskError) seed = Ok sources → seeds_from seed sources.
Proof.
  unfold build_seed_sources. intros Hok.
  destruct (match sd_url seed with None => _ | Some _ => _ end) as [analytics|] eqn:Hurl; [|done].
  destruct (match sd_file seed with None => _ | Some _ => _ end) as [file|] eqn:Hfile; [|done].
  injection Hok as <-. intros source. rewrite elem_of_app. f_equiv.
  - destruct (sd_url seed) as [url|]; [destruct http_client as [ []|]; [|done] | ];
      injection Hurl as <-; rewrite ?list_elem_of_singleton, ?elem_of_nil.
    + split; [intros ->; by exists url|]. by intros (? & [= <-] & ->).
    + split; [done|]. by intros (? & [=] & _).
  - destruct (sd_file seed) as [path|]; simpl in Hfile.
    2: { injection Hfile as <-. rewrite elem_of_nil. split; [done|]. by intros (? & ? & ? & [=] & _). }
    destruct (file_seed_load path) as [file'|] eqn:Hload; [|done]. injection Hfile as <-.
    apply file_seed_load_ok in Hload as (text & accounts & Ht & Ha & ->).
    rewrite list_elem_of_singleton. split; [intros ->; by exists path, text, accounts|].
    intros (? & ? & ? & [= <-] & Ht' & Ha' & ->). rewrite Ht in Ht'. injection Ht' as <-.
    rewrite Ha in Ha'. by injection Ha' as <-.
Qed.

(** ** What the validations read and conclude *)

Section validation.
Context `{ScDecode} `{Outside} `{!Crypto} {TaskError : Type}.
Context (math_error_text : MathError → string).

Abbreviation LiquidatorError := (LiquidatorError TaskError).

(** A pool the bot can follow: its primary asset can be collateral, the assets
    it names are reserves, an auction fits its positions. *)
Record usable (backstop : string) (pool : PoolConfig) (s : PoolSnapshot) : Prop := {
  usable_backstop : pi_backstop (ps_instance s) = backstop;
  usable_primary : ∃ i r, ps_asset_index s !! cf_primary_asset pool = Some i ∧
    ps_reserves s !! i = Some r ∧ rc_enabled (rs_config r) = true ∧ rc_c_factor (rs_config r) ≠ 0;
  usable_supported : Forall (λ a, a = "*"%string ∨ is_Some (ps_asset_index s !! a))
    (cf_supported_bid pool ++ cf_supported_lot pool);
  usable_positions : 2 ≤ pc_max_positions (pi_config (ps_instance s));
}.

(** Each pool in its order, from a snapshot of its own. *)
Inductive all_usable (backstop : string) : list PoolConfig → list StartObs → Prop :=
| all_usable_nil : all_usable backstop [] []
| all_usable_cons pool pools part s tr :
    snapshot_result (cf_address pool) [] part (Ok s) → usable backstop pool s →
    all_usable backstop pools tr →
    all_usable backstop (pool :: pools) (map ORead part ++ tr).

Lemma supported_ok pool assets s :
  validate_supported_assets (TaskError:=TaskError) pool assets s = Ok () ↔
  Forall (λ a, a = "*"%string ∨ is_Some (ps_asset_index s !! a)) assets.
Proof.
  induction assets as [|a assets IH]; simpl; [split; [constructor|done]|].
  rewrite Forall_cons. destruct (bool_decide (a = "*"%string) || _) eqn:Ha.
  - rewrite IH. apply orb_true_iff in Ha. rewrite !bool_decide_eq_true in Ha. naive_solver.
  - split; [done|]. apply orb_false_iff in Ha. rewrite !bool_decide_eq_false in Ha. naive_solver.
Qed.

Lemma primary_ok pool asset s : validate_primary_asset (TaskError:=TaskError) pool asset s = Ok () ↔
  ∃ i r, ps_asset_index s !! asset = Some i ∧ ps_reserves s !! i = Some r ∧
    rc_enabled (rs_config r) = true ∧ rc_c_factor (rs_config r) ≠ 0.
Proof.
  assert (Hno : ∀ (r : result LiquidatorError ()) (P : Prop), r ≠ Ok () → ¬ P → (r = Ok () ↔ P))
    by (intros; split; intros; contradiction).
  unfold validate_primary_asset. destruct (ps_asset_index s !! asset) as [i|]; simpl;
    [|apply Hno; [done|by intros (? & ? & ? & _)]].
  destruct (ps_reserves s !! i) as [r|] eqn:Hr;
    [|apply Hno; [done|by intros (? & ? & [= <-] & ? & _); congruence]].
  destruct (rc_enabled (rs_config r)) eqn:He;
    [|apply Hno; [done|intros (? & ? & [= <-] & ? & ? & _); congruence]].
  destruct (rc_c_factor (rs_config r) =? 0) eqn:Hc; simpl.
  - apply Hno; [done|]. intros (? & ? & [= <-] & ? & ? & ?). simplify_eq. lia.
  - split; [|done]. intros _. exists i, r. split_and!; try done. lia.
Qed.

Lemma supported_err pool assets s e :
  validate_supported_assets (TaskError:=TaskError) pool assets s = Err e →
  ∃ text, e = InvalidConfig text.
Proof. induction assets as [|a assets IH]; simpl; [done|]. case_match; naive_solver. Qed.

Lemma primary_err pool asset s e :
  validate_primary_asset (TaskError:=TaskError) pool asset s = Err e →
  ∃ text, e = InvalidConfig text.
Proof. unfold validate_primary_asset. repeat case_match; naive_solver. Qed.

(** The backstop seen so far. *)
Definition agrees (shared : option (string * string)) (backstop : string) : Prop :=
  match shared with None => True | Some (_, first) => first = backstop end.

Lemma validate_pool_ok pool s shared :
  match validate_pool (TaskError:=TaskError) pool s shared with
  | Ok (first, seen, validation, warned) =>
      usable seen pool s ∧ agrees shared seen
  | Err e => (∃ text, e = InvalidConfig text) ∧ ∀ b, agrees shared b → ¬ usable b pool s
  end.
Proof.
  unfold validate_pool, shares_backstop.
  destruct (match shared with None => _ | Some _ => _ end) as [ [first seen]|e] eqn:Hshared; simpl.
  - assert (seen = pi_backstop (ps_instance s) ∧ agrees shared seen) as [-> Hagree].
    { destruct shared as [ [f b]|]; [case_bool_decide|]; by simplify_eq/=. }
    destruct (validate_primary_asset (cf_address pool) (cf_primary_asset pool) s) as [ []|e] eqn:Hp; simpl.
    + apply primary_ok in Hp.
      destruct (validate_supported_assets (cf_address pool) (cf_supported_bid pool) s) as [ []|e] eqn:Hb; simpl.
      * apply supported_ok in Hb.
        destruct (validate_supported_assets (cf_address pool) (cf_supported_lot pool) s) as [ []|e] eqn:Hl; simpl.
        -- apply supported_ok in Hl. destruct (_ <? 2) eqn:Hm; simpl.
           ++ split; [by eauto|]. intros b _ [_ _ _ ?]. lia.
           ++ split; [|done]. split; try done; [by apply Forall_app|lia].
        -- split; [by eapply supported_err|]. intros b _ [_ _ Hs _]. apply Forall_app in Hs as [_ Hs].
           apply (supported_ok (cf_address pool)) in Hs. congruence.
      * split; [by eapply supported_err|]. intros b _ [_ _ Hs _]. apply Forall_app in Hs as [Hs _].
        apply (supported_ok (cf_address pool)) in Hs. congruence.
    + split; [by eapply primary_err|]. intros b _ [_ Hs _ _].
      apply (primary_ok (cf_address pool)) in Hs. congruence.
  - destruct shared as [ [f b]|]; [|done]. case_bool_decide as Hne; [done|]. simplify_eq.
    split; [by eauto|]. intros c Hc [Hcb _ _ _]. simpl in Hc. congruence.
Qed.

Lemma chain_read_returns {A} (m : io ReadE (result ChainError A)) P :
  returns read m P →
  returns start_log (chain_read (TaskError:=TaskError) m) (λ tr r, ∃ part r', tr = map ORead part ∧
    r = map_err ChainFailed r' ∧ P part r').
Proof.
  intros Hm. eapply returns_bind; [apply (returns_translate read start_log VRead ORead); [done|exact Hm]|].
  intros r tr (part & -> & Hp). apply returns_ret. rewrite app_nil_r. by exists part, r.
Qed.

(** What [validate] answers, and the pool it stopped at. *)
Definition stopped_at (shared : option (string * string)) (pools : list PoolConfig)
    (tr : list StartObs) (P : string → list PoolConfig → PoolConfig → list Read → Prop) : Prop :=
  ∃ b before pool after tr1 part, pools = before ++ pool :: after ∧ tr = tr1 ++ map ORead part ∧
    agrees shared b ∧ all_usable b before tr1 ∧ P b before pool part.

Definition validation_result (shared : option (string * string)) (pools : list PoolConfig)
    (tr : list StartObs) (r : result LiquidatorError (list PoolValidation * list string)) : Prop :=
  match r with
  | Ok _ => ∃ b, agrees shared b ∧ all_usable b pools tr
  | Err (InvalidConfig _) => stopped_at shared pools tr (λ b before pool part,
      ∃ s, snapshot_result (cf_address pool) [] part (Ok s) ∧
      (before ≠ [] → ¬ usable b pool s) ∧
      (before = [] → ∀ c, agrees shared c → ¬ usable c pool s))
  | Err (ChainFailed e) => stopped_at shared pools tr (λ b before pool part,
      snapshot_result (cf_address pool) [] part (Err e))
  | Err (TaskFailed _) => False
  end.

Lemma some_backstop shared : ∃ b, agrees shared b.
Proof. destruct shared as [ [? b]|]; [by exists b|by exists EmptyString]. Qed.

Lemma stopped_later shared first seen pool pools part s tr
    (P : string → list PoolConfig → PoolConfig → list Read → Prop)
    (Q : string → list PoolConfig → PoolConfig → list Read → Prop) :
  snapshot_result (cf_address pool) [] part (Ok s) → usable seen pool s → agrees shared seen →
  (∀ before other part, P seen before other part → Q seen (pool :: before) other part) →
  stopped_at (Some (first, seen)) pools tr P →
  stopped_at shared (pool :: pools) (map ORead part ++ tr) Q.
Proof.
  intros Hs Hu Ha HPQ (b & before & other & after & tr1 & part' & -> & -> & Hb & Hall & HP).
  simpl in Hb. subst b. exists seen, (pool :: before), other, after, (map ORead part ++ tr1), part'.
  split_and!; [done|by rewrite app_assoc|done|by eapply all_usable_cons|by apply HPQ].
Qed.

Lemma validate_from_returns pools shared validations warnings :
  returns start_log (validate_from (TaskError:=TaskError) pools shared validations warnings)
    (validation_result shared pools).
Proof.
  revert shared validations warnings. induction pools as [|pool pools IH]; intros shared validations warnings.
  - apply returns_ret. destruct (some_backstop shared) as [b Hb]. exists b. split; [done|constructor].
  - simpl. eapply returns_try; [apply chain_read_returns, snapshot_returns| |].
    + intros tr e (part & r & -> & Hr & Hp). destruct r as [s|e']; simplify_eq/=.
      destruct (some_backstop shared) as [b Hb].
      exists b, [], pool, pools, [], part. split_and!; try done. constructor.
    + intros s tr (part & r & -> & Hr & Hp). destruct r as [s'|e']; simplify_eq/=.
      pose proof (validate_pool_ok pool s' shared) as Hv.
      destruct (validate_pool pool s' shared) as [ [ [ [first seen] validation] warned]|e].
      * destruct Hv as [Hu Ha]. eapply returns_weaken; [apply IH|].
        intros tr r Hr. destruct r as [ok|[text|e|e] ]; simpl in *.
        -- destruct Hr as (b & <- & Hall). exists seen. split; [done|]. by eapply all_usable_cons.
        -- eapply stopped_later; [done..| |exact Hr]. intros before other part' (s & Hs & Hne & Heq).
           exists s. split_and!; [done| |done]. intros _.
           destruct before; [by apply Heq|by apply Hne].
        -- eapply stopped_later; [done..| |exact Hr]. done.
        -- done.
      * destruct Hv as [ [text ->] Hno]. apply returns_ret. rewrite app_nil_r.
        destruct (some_backstop shared) as [b Hb].
        exists b, [], pool, pools, [], part. split_and!; try done; [constructor|].
        exists s'. split_and!; [done|done|]. intros _. done.
Qed.

(** The balance a view call of the token answered. *)
Definition balance_read (tr : list Read) (token account : string) (balance : Z) : Prop :=
  ∃ arg value hi lo, address account = Ok arg ∧ viewed tr token "balance" [arg] value ∧
    scv_case value = CaseI128 hi lo ∧ balance = as_i128 hi lo.

Lemma read_balance_returns token account :
  returns read (read_balance token account) (λ tr r,
    match r with Ok (_, balance) => balance_read tr token account balance | Err _ => True end).
Proof.
  unfold read_balance. apply returns_try_ret.
  destruct (address account) as [arg|e] eqn:Harg; simpl; [|done].
  eapply returns_try; [apply view_returns|done|].
  intros [ledger value] tr (_ & _ & Hv). apply returns_ret. rewrite app_nil_r.
  destruct (scv_case value) eqn:Hcase; try exact I.
  eexists arg, value, _, _. by split_and!.
Qed.

(** The wallets of a live filler: each pool's snapshot in its order, until one
    cannot be read. *)
Fixpoint wallets_looked (account : string) (pools : list PoolConfig) (tr : list StartObs)
    (r : result LiquidatorError (list string)) : Prop :=
  match pools with
  | [] => tr = [] ∧ is_ok r = true
  | pool :: pools =>
      ∃ part seen rest, tr = map ORead part ++ rest ∧
        snapshot_result (cf_address pool) [account] part seen ∧
        match seen with
        | Ok _ => wallets_looked account pools rest r
        | Err e => rest = [] ∧ r = Err (ChainFailed e)
        end
  end.

(** What only an armed bot is refused for. *)
Definition refused_if_armed (dry_run : bool) (r : result LiquidatorError (list string)) : Prop :=
  if dry_run then is_ok r = true else ∃ text, r = Err (InvalidConfig text).

(** The balance of the native asset was read, and then, for a live filler that
    holds the reserve, its wallets. *)
Definition balance_looked (config : ServiceConfig) (native account : string) (tr : list StartObs)
    (r : result LiquidatorError (list string)) : Prop :=
  ∃ part rest, tr = map ORead part ++ rest ∧
    ((∃ e, traces read (read_balance native account) part (Some (Err e)) ∧
       rest = [] ∧ r = Err (ChainFailed e)) ∨
     ∃ balance, balance_read part native account balance ∧
       if balance <? sc_xlm_fee_reserve config
       then rest = [] ∧ refused_if_armed (sc_dry_run config) r
       else if sc_dry_run config then rest = [] ∧ is_ok r = true
       else wallets_looked account (sc_pools config) rest r).

(** What [validate_filler] looks at and answers. Live or dry, the filler's
    account is asked for first; one that does not exist, or holds less than the
    reserve, stops a live bot and not a dry run; a read that fails stops both. *)
Definition filler_result (config : ServiceConfig) (signing : SigningContext) (tr : list StartObs)
    (r : result LiquidatorError (list string)) : Prop :=
  match ss_filler (sx_signers signing) with
  | None => tr = [] ∧ is_ok r = true
  | Some signer =>
      let account := sg_address (arc_value signer) in
      ∃ looked rest, tr = OAccount account looked :: rest ∧
        match looked with
        | Err (NoAccount _) => rest = [] ∧ refused_if_armed (sc_dry_run config) r
        | Err e => rest = [] ∧ r = Err (ChainFailed e)
        | Ok _ =>
            if base.decide (sc_pools config = []) then rest = [] ∧ is_ok r = true
            else balance_looked config (sx_native_asset signing) account rest r
        end
  end.

Lemma validate_collateral_returns pools account warnings :
  returns start_log (validate_collateral (TaskError:=TaskError) math_error_text pools account warnings)
    (wallets_looked account pools).
Proof.
  revert warnings. induction pools as [|pool pools IH]; intros warnings; [by apply returns_ret|].
  simpl. eapply returns_try; [apply chain_read_returns, snapshot_returns| |].
  - intros tr e (part & [s|e'] & -> & He & Hs); simplify_eq/=.
    exists part, (Err e'), []. by rewrite app_nil_r.
  - intros s tr (part & [s'|e'] & -> & He & Hs); simplify_eq/=. eapply returns_weaken; [apply IH|].
    intros tr r Hr. by exists part, (Ok s'), tr.
Qed.

#[local] Arguments validate_collateral : simpl never.

Lemma refused_if_armed_ok dry_run warnings message :
  refused_if_armed dry_run (refuse_or_warn (negb dry_run) warnings message).
Proof. unfold refused_if_armed, refuse_or_warn. destruct dry_run; simpl; eauto. Qed.

(** What is left once the account is there. *)
Lemma balance_looked_returns config native account (message : Z → string) :
  returns start_log
    (await? (_, native_balance) := chain_read (TaskError:=TaskError) (read_balance native account) in
     match
       (if (native_balance <? sc_xlm_fee_reserve config)%Z
        then refuse_or_warn (negb (sc_dry_run config)) [] (message native_balance)
        else Ok [])
     with
     | Err e => Ret (Err e)
     | Ok warnings =>
         if negb (sc_dry_run config)
         then validate_collateral math_error_text (sc_pools config) account warnings
         else Ret (Ok warnings)
     end)
    (balance_looked config native account).
Proof.
  eapply returns_try.
  - apply (chain_read_returns _ (λ tr r, traces read (read_balance native account) tr (Some r) ∧
      match r with Ok (_, balance) => balance_read tr native account balance | Err _ => True end)).
    intros n tr [r|] Hr; [|done]. split; [by exists n|]. by apply (read_balance_returns _ _ _ _ _ Hr).
  - intros tr e (part & [s|e'] & -> & He & Hs & _); simplify_eq/=.
    exists part, []. rewrite app_nil_r. split; [done|]. left. by exists e'.
  - intros [at_ balance] tr (part & [s|e'] & -> & He & _ & Hb); simplify_eq/=.
    assert (∀ rest r,
      (if balance <? sc_xlm_fee_reserve config
       then rest = [] ∧ refused_if_armed (sc_dry_run config) r
       else if sc_dry_run config then rest = [] ∧ is_ok r = true
       else wallets_looked account (sc_pools config) rest r) →
      balance_looked config native account (map ORead part ++ rest) r) as Hlooked.
    { intros rest r Hr. exists part, rest. split; [done|]. right. by exists balance. }
    revert Hlooked. case_match; intros Hlooked.
    + pose proof (refused_if_armed_ok (sc_dry_run config) [] (message balance)) as Hr.
      unfold refuse_or_warn in *. destruct (sc_dry_run config); apply returns_ret; by apply Hlooked.
    + destruct (sc_dry_run config); cbn [negb]; [apply returns_ret; by apply Hlooked|].
      eapply returns_weaken; [apply validate_collateral_returns|]. intros tr r Hr. by apply Hlooked.
Qed.

Lemma validate_filler_returns config signing :
  returns start_log (validate_filler (TaskError:=TaskError) math_error_text config signing)
    (filler_result config signing).
Proof.
  unfold validate_filler, filler_result. destruct (ss_filler (sx_signers signing)) as [signer|];
    [|by apply returns_ret].
  cbv zeta. eapply returns_bind.
  { by apply (returns_perform _ _ (λ tr r, tr = [OAccount (sg_address (arc_value signer)) r])). }
  intros looked tr ->. destruct looked as [a|e].
  - destruct (base.decide (sc_pools config = [])) as [->|Hne].
    { apply returns_ret. by exists (Ok a), []. }
    destruct (sc_pools config) as [|any pools] eqn:Hpools; [done|]. rewrite <- Hpools in *.
    eapply returns_weaken; [apply balance_looked_returns|]. intros rest r Hr.
    by exists (Ok a), rest.
  - destruct e; apply returns_ret; eexists _, []; (split; [done|]); (split; [done|]); try done.
    apply refused_if_armed_ok.
Qed.
End validation.

(** ** The run *)

Section running.
Context `{ScDecode} `{Outside} `{!Crypto} {TaskError : Type}.
Context (math_error_text : MathError → string).
Context (random : nat → Z → Z) (config : ServiceConfig) (keys : SigningKeys).

Abbreviation LiquidatorError := (LiquidatorError TaskError).
Abbreviation Joined := (Joined (TaskError:=TaskError)).
Abbreviation Drained := (Drained (TaskError:=TaskError)).
Abbreviation RunObs := (RunObs (TaskError:=TaskError)).

(** How a joined task ended, and how they all did: a panic before any error,
    the first of each. *)
Definition error_of (j : Joined) : option LiquidatorError :=
  match j with JReturned (Err e) => Some e | _ => None end.
Definition panic_of (j : Joined) : option string :=
  match j with
  | JPanicked payload => Some payload
  | JCancelled text => Some ("a service task was cancelled unexpectedly: " +:+ text)%string
  | JReturned _ => None
  end.
Definition verdict (ended : list Joined) : Drained :=
  match omap panic_of ended, omap error_of ended with
  | payload :: _, _ => Panicked payload
  | [], e :: _ => Returned (Err e)
  | [], [] => Returned (Ok ())
  end.

(** Whether the shutdown is raised when [j] follows [ended]: at the first
    failure, and at the first panic. *)
Definition raises (ended : list Joined) (j : Joined) : bool :=
  match j, omap panic_of ended, omap error_of ended with
  | JReturned (Ok _), _, _ => false
  | JReturned (Err _), [], [] => true
  | JReturned (Err _), _, _ => false
  | _, [], _ => true
  | _, _, _ => false
  end.

(** Where a run is. *)
Inductive Phase : Type :=
| Fresh
| Opening (left : list Part)
| Checking (checked : list StartObs)
| Serving (left : list Task)
| Spawning (left : list Task)
| Joining (ended : list Joined) (owed : bool)
| Draining (ended : list Joined)
| Over (ended : list Joined)
| Refused (e : LiquidatorError).

(** Every pool is usable, from its own snapshot, and the filler's account was
    looked at. *)
Definition passed (checked : list StartObs) : Prop :=
  ∃ signing b c1 c2 warnings, checked = c1 ++ c2 ∧ all_usable b (sc_pools config) c1 ∧
    signing_context (TaskError:=TaskError) config keys = Ok signing ∧
    filler_result (TaskError:=TaskError) config signing c2 (Ok warnings).

(** Who signs as what: the filler's signer, the auctioneer's, the signers that
    have a queue worker, and the workers of the filler's and the auctioneer's
    queues. The auctioneer falls back on the filler's key, and then on its
    queue; a dry run has no worker. *)
Definition posts : option (Arc Signer) * option (Arc Signer) * list (Arc Signer) * option nat * option nat :=
  match sk_filler keys, sk_auctioneer keys, sc_dry_run config with
  | None, None, _ => (None, None, [], None, None)
  | Some f, None, true => (Some (mkArc 0 f), Some (mkArc 0 f), [], None, None)
  | Some f, None, false => (Some (mkArc 0 f), Some (mkArc 0 f), [mkArc 0 f], Some 0%nat, Some 0%nat)
  | None, Some a, true => (None, Some (mkArc 1 a), [], None, None)
  | None, Some a, false => (None, Some (mkArc 1 a), [mkArc 1 a], None, Some 0%nat)
  | Some f, Some a, true => (Some (mkArc 0 f), Some (mkArc 1 a), [], None, None)
  | Some f, Some a, false =>
      (Some (mkArc 0 f), Some (mkArc 1 a), [mkArc 0 f; mkArc 1 a], Some 0%nat, Some 1%nat)
  end.

(** A phase: a draw of the generator, where there is a period. *)
Definition drawn (n : nat) (period : Z) : Z := if period =? 0 then 0 else random n period.

(** The tasks the configuration asks for: before the seed pass, the HTTP server
    where one is configured. *)
Definition due_first : list Task :=
  match sc_http config with
  | Some http =>
      [THttp http (cf_address <$> sc_pools config) (sc_poll_interval config * 5 + 30000000000)]
  | None => []
  end.

(** And after it: a poller per pool, the queue workers, the watchdog, the
    auctioneer, the filler and the tracker. *)
Definition due (sources : list SeedSource) (needs : gset string) (tasks : list Task) : Prop :=
  ∃ own native,
    (∀ a, a ∈ own ↔ ∃ signer, a = sg_address signer ∧
       (sk_filler keys = Some signer ∨ sk_auctioneer keys = Some signer)) ∧
    native_asset_contract (network_from_config (sc_chain config)) = Ok native ∧
    let '(filler, auctioneer, workers, filler_queue, auctioneer_queue) := posts in
    let submitter signer := mkSubmitter signer (network_from_config (sc_chain config))
      (tx_config_new (cc_base_fee (sc_chain config)) (cc_high_fee (sc_chain config))
        (cc_tx_poll_ledgers (sc_chain config))) in
    let poller := mkPollerConfig (sc_poll_interval config) 200 1000000000 30000000000 in
    let pools := cf_address <$> sc_pools config in
    tasks = map (λ pool, TPoller pool poller) pools ++
      map (λ signer, TWorker (submitter signer)) workers ++
      [TWatchdog pools poller;
       TAuctioneer (submitter <$> auctioneer)
         (mkAuctioneerConfig (sc_liquidation_health_factor config)
           (sc_target_health_factor config) (sc_plan_iterations config) (sc_dry_run config) own)
         (mkAuctioneerCadence (sc_refresh_batch config) (sc_oracle_scan_ledgers config)
           (drawn 0 (sc_oracle_scan_ledgers config)) (sc_full_scan_ledgers config)
           (drawn 1 (sc_full_scan_ledgers config)) (sc_scan_health_factor config)
           (sc_price_delta_bps config) (sc_startup_delay_ledgers config))
         pools auctioneer_queue;
       TFiller (submitter <$> filler) (sc_dry_run config)
         (mkLedger ∅ ∅ None native (sc_xlm_fee_reserve config))
         (mkFillerConfig (sc_dry_run config) own (sc_hf_safety_multiplier config)
           (sc_plan_iterations config) (sc_replan_ledgers config) (sc_replan_near_ledgers config)
           (sc_high_fee_profit_threshold config) (sc_inventory_refresh config) native)
         (sc_pools config) (sc_startup_delay_ledgers config) filler_queue;
       TTracker sources
         (mkCadence (sc_user_refresh_ledgers config) (sc_refresh_batch config)
           (sc_full_scan_ledgers config) (sc_scan_health_factor config)
           (drawn 2 (sc_full_scan_ledgers config)))
         needs].

Inductive run_step : Phase → RunObs → Phase → Prop :=
| run_listens : run_step Fresh OListen (Opening [PConnect; PMigrate; PClient])
| run_opens p left : run_step (Opening (p :: left)) (OPart p (Ok ())) (Opening left)
| run_unopened p left e : run_step (Opening (p :: left)) (OPart p (Err e)) (Refused e)
| run_opened o q : run_step (Checking []) o q → run_step (Opening []) o q
| run_checks checked o : run_step (Checking checked) (OStart o) (Checking (checked ++ [o]))
| run_passes checked : passed checked →
    run_step (Checking checked) (OPart PNotifier (Ok ())) (Serving due_first)
| run_unnotified checked e : passed checked →
    run_step (Checking checked) (OPart PNotifier (Err e)) (Refused e)
| run_serves t left : run_step (Serving (t :: left)) (OSpawn t) (Serving left)
| run_seeds sources needs tasks :
    build_seed_sources (TaskError:=TaskError) (sc_seed config) = Ok sources →
    seeds_from (sc_seed config) sources → due sources needs tasks →
    run_step (Serving [])
      (OSeed (cf_address <$> sc_pools config) sources (sc_refresh_batch config) (sc_poll_interval config)
        (Ok needs))
      (Spawning tasks)
| run_unseeded sources e :
    build_seed_sources (TaskError:=TaskError) (sc_seed config) = Ok sources →
    run_step (Serving [])
      (OSeed (cf_address <$> sc_pools config) sources (sc_refresh_batch config) (sc_poll_interval config)
        (Err e))
      (Refused e)
| run_spawns t left : run_step (Spawning (t :: left)) (OSpawn t) (Spawning left)
| run_all_spawned o q : run_step (Joining [] false) o q → run_step (Spawning []) o q
| run_joins ended j :
    run_step (Joining ended false) (OJoin (Some j)) (Joining (ended ++ [j]) (raises ended j))
| run_shuts_down ended : run_step (Joining ended true) OShutdown (Joining ended false)
| run_joined ended : run_step (Joining ended false) (OJoin None) (Draining ended)
| run_drains ended b : run_step (Draining ended) (ODrainNotifier b) (Over ended).

(** Why the validations refused. *)
Definition check_failed (checked : list StartObs) (e : LiquidatorError) : Prop :=
  validation_result None (sc_pools config) checked (Err e) ∨
  ∃ b c1 c2, checked = c1 ++ c2 ∧ all_usable b (sc_pools config) c1 ∧
    (c2 = [] ∧ signing_context config keys = Err e ∨
     ∃ signing, signing_context (TaskError:=TaskError) config keys = Ok signing ∧
       filler_result config signing c2 (Err e)).

(** What a run that ended in a phase answers. *)
Definition answered (r : Drained) (q : Phase) : Prop :=
  match q with
  | Opening [] => ∃ e, r = Returned (Err e) ∧ check_failed [] e
  | Checking checked => ∃ e, r = Returned (Err e) ∧ check_failed checked e
  | Serving [] => ∃ e, r = Returned (Err e) ∧ build_seed_sources (sc_seed config) = Err e
  | Refused e => r = Returned (Err e)
  | Over ended => r = verdict ended
  | _ => False
  end.

Lemma spawn_all_follows tasks (at_ : list Task → Phase) :
  (∀ t left, run_step (at_ (t :: left)) (OSpawn t) (at_ left)) →
  follows run_log run_step (at_ tasks) (spawn_all tasks) (λ _ q, q = at_ []).
Proof.
  intros Hat. induction tasks as [|t tasks IH]; [by apply follows_ret|].
  simpl. apply follows_call. intros []. eexists. split; [apply Hat|exact IH].
Qed.

Definition failures (ended : list Joined) : Failures :=
  mkFailures (head (omap error_of ended)) (head (omap panic_of ended)).

Lemma drain_answer_verdict ended : drain_answer (failures ended) = verdict ended.
Proof.
  unfold drain_answer, verdict, failures. simpl.
  destruct (omap panic_of ended), (omap error_of ended); done.
Qed.

Lemma failures_snoc ended j :
  failures (ended ++ [j]) =
  mkFailures
    (match error_of j with
     | Some e => get_or_insert (fl_failure (failures ended)) e | None => fl_failure (failures ended) end)
    (match panic_of j with
     | Some p => get_or_insert (fl_panicked (failures ended)) p
     | None => fl_panicked (failures ended) end).
Proof.
  unfold failures. rewrite !omap_app. simpl.
  destruct (error_of j), (panic_of j), (omap error_of ended), (omap panic_of ended); done.
Qed.

(** Noting a failure raises the shutdown when the machine owes it. *)
Lemma note_error_follows ended e :
  follows run_log run_step (Joining (ended ++ [JReturned (Err e)]) (raises ended (JReturned (Err e))))
    (note_error e (failures ended))
    (λ f q, f = failures (ended ++ [JReturned (Err e)]) ∧
       q = Joining (ended ++ [JReturned (Err e)]) false).
Proof.
  unfold note_error. rewrite failures_snoc. unfold raises, failures. simpl.
  destruct (omap panic_of ended), (omap error_of ended); simpl; try by apply follows_ret.
  apply follows_call. intros []. eexists. split; [apply run_shuts_down|]. by apply follows_ret.
Qed.

Lemma note_panic_follows ended j payload : panic_of j = Some payload → error_of j = None →
  follows run_log run_step (Joining (ended ++ [j]) (raises ended j))
    (note_panic payload (failures ended))
    (λ f q, f = failures (ended ++ [j]) ∧ q = Joining (ended ++ [j]) false).
Proof.
  intros Hp He. unfold note_panic. rewrite failures_snoc, Hp, He. unfold raises, failures. simpl.
  destruct j as [ [|]|payload'|text]; try done;
    (destruct (omap panic_of ended); simpl; [|by apply follows_ret]);
    (apply follows_call; intros []; eexists; split; [apply run_shuts_down|by apply follows_ret]).
Qed.

Lemma join_step q ended o q' :
  q = Joining ended false ∨ ended = [] ∧ q = Spawning [] →
  run_step (Joining ended false) o q' → run_step q o q'.
Proof. intros [->|[-> ->] ] Hs; [done|by apply run_all_spawned]. Qed.

Lemma drain_tasks_follows :
  follows run_log run_step (Spawning []) drain_tasks (λ d q, ∃ ended, q = Draining ended ∧ d = verdict ended).
Proof.
  apply (follows_iter _ _ (λ f q, ∃ ended,
    (q = Joining ended false ∨ ended = [] ∧ q = Spawning []) ∧ f = failures ended)).
  { exists []. split; [by right|done]. }
  intros f q (ended & Hq & ->). unfold join_one. apply follows_call. intros [j|].
  - exists (Joining (ended ++ [j]) (raises ended j)). split; [by eapply join_step; [|apply run_joins]|].
    destruct j as [ [ []|e]|payload|text].
    + apply follows_ret. exists (ended ++ [JReturned (Ok ())]). split.
      * by left.
      * rewrite failures_snoc. done.
    + eapply follows_bind; [apply note_error_follows|]. intros f q' [-> ->]. apply follows_ret. eauto.
    + eapply follows_bind; [by apply note_panic_follows|]. intros f q' [-> ->]. apply follows_ret. eauto.
    + eapply follows_bind; [by apply note_panic_follows|]. intros f q' [-> ->]. apply follows_ret. eauto.
  - exists (Draining ended). split; [by eapply join_step; [|apply run_joined]|].
    apply follows_ret. exists ended. split; [done|]. apply drain_answer_verdict.
Qed.

(** Before the first check and between two. *)
Definition checking (checked : list StartObs) (q : Phase) : Prop :=
  q = Checking checked ∨ checked = [] ∧ q = Opening [].

Lemma checking_step checked q o q' :
  checking checked q → run_step (Checking checked) o q' → run_step q o q'.
Proof. intros [->|[-> ->] ] Hs; [done|by apply run_opened]. Qed.

(** A checking program runs, and its calls are what is checked. *)
Lemma checking_follows {A} checked q (t : io StartE A) P :
  checking checked q → returns start_log t P →
  follows run_log run_step q (translate RStart t)
    (λ r q', ∃ tr, checking (checked ++ tr) q' ∧ P tr r).
Proof.
  intros Hq Ht. eapply follows_weaken.
  - apply (follows_collect start_log run_log RStart OStart) with
      (add := λ tr, match tr with [] => q | _ => Checking (checked ++ tr) end) (P := P);
      [done|exact Ht|done|].
    intros tr o. destruct tr as [|o' tr]; simpl; [eapply checking_step; [exact Hq|apply run_checks]|].
    pose proof (run_checks (checked ++ o' :: tr) o) as Hs. by rewrite <- app_assoc in Hs.
  - intros r q' (tr & -> & HP). exists tr. split; [|done].
    destruct tr; [by rewrite app_nil_r|by left].
Qed.

Lemma due_tasks signing sources needs :
  signing_context (TaskError:=TaskError) config keys = Ok signing →
  due sources needs (tasks_of random config signing sources needs).
Proof.
  intros Hs. unfold signing_context in Hs. apply bind_ok in Hs as (native & Hn & Hs).
  apply map_err_ok in Hn. injection Hs as <-. exists (own_addresses keys), native.
  split_and!; [|done|].
  - intros a. unfold own_addresses. rewrite elem_of_list_to_set, list_elem_of_fmap.
    destruct (sk_auctioneer keys) as [k|], (sk_filler keys) as [f|]; simpl; set_solver.
  - unfold posts, tasks_of, spawn_pollers, spawn_auctioneer, spawn_filler, auctioneer_config_from,
      filler_config_from. rewrite map_map.
    destruct keys as [ [a|] [f|] ]; simpl; by destruct (sc_dry_run config).
Qed.

(** What stands when the tasks are about to be joined, or will not be. *)
Definition drained_or_refused (r : result LiquidatorError Drained) (q : Phase) : Prop :=
  match r with
  | Ok d => ∃ ended, q = Draining ended ∧ d = verdict ended
  | Err e => answered (Returned (Err e)) q
  end.

Lemma opens_follows p left k :
  follows run_log run_step (Opening left) (k ()) drained_or_refused →
  follows run_log run_step (Opening (p :: left)) (try_await (perform (RPart p)) k) drained_or_refused.
Proof.
  intros Hk. apply follows_call_try. intros [ []|e].
  - eexists. split; [by apply run_opens|done].
  - eexists. split; [apply run_unopened|done].
Qed.

Lemma check_refused checked q e :
  checking checked q → check_failed checked e → answered (Returned (Err e)) q.
Proof. intros [->|[-> ->] ] He; by exists e. Qed.

(** From the last check that passed to the last task joined. *)
Lemma serving_follows signing :
  signing_context (TaskError:=TaskError) config keys = Ok signing →
  follows run_log run_step (Serving due_first)
    (await _ := spawn_all (http_task config) in
     await? seed_sources := Ret (build_seed_sources (sc_seed config)) in
     await? needs_reseed :=
       perform (RSeed (cf_address <$> sc_pools config) seed_sources (sc_refresh_batch config)
         (sc_poll_interval config)) in
     await _ := spawn_all (tasks_of random config signing seed_sources needs_reseed) in
     await drained := drain_tasks in
     Ret (Ok drained)) drained_or_refused.
Proof.
  intros Hs. eapply follows_bind.
  { change due_first with (http_task config).
    apply (spawn_all_follows _ Serving); intros; apply run_serves. }
  intros [] q ->. apply follows_try_ret.
  destruct (build_seed_sources (sc_seed config)) as [sources|e] eqn:Hsources; [|by exists e].
  apply follows_call_try. intros [needs|e]; [|by eexists; split; [by apply run_unseeded|] ].
  eexists. split; [eapply run_seeds; [done|by eapply seed_sources_ok|by apply due_tasks]|].
  eapply follows_bind; [apply (spawn_all_follows _ Spawning); intros; apply run_spawns|].
  intros [] q ->. eapply follows_bind; [apply drain_tasks_follows|].
  intros d q (ended & -> & ->). apply follows_ret. exists ended. done.
Qed.

Lemma service_run_follows :
  follows run_log run_step Fresh (run math_error_text random config keys)
    answered.
Proof.
  unfold run. apply follows_call. intros []. eexists. split; [apply run_listens|].
  apply (follows_bind _ _ _ _ _ drained_or_refused).
  - do 3 apply opens_follows.
    eapply follows_try; [eapply (checking_follows []); [by right|apply validate_from_returns]| |].
    { intros e q (tr & Hq & Hr). eapply check_refused; [exact Hq|]. by left. }
    intros [validations warnings] q (c1 & Hq & b & _ & Hall). simpl app in Hq.
    apply follows_try_ret.
    destruct (signing_context config keys) as [signing|e] eqn:Hs.
    2:{ eapply check_refused; [exact Hq|]. right. exists b, c1, []. rewrite app_nil_r. eauto. }
    eapply follows_try; [eapply checking_follows; [exact Hq|apply validate_filler_returns]| |].
    { intros e q' (c2 & Hq' & Hr). eapply check_refused; [exact Hq'|]. right.
      exists b, c1, c2. split_and!; eauto. }
    intros warned q' (c2 & Hq' & Hr).
    assert (passed (c1 ++ c2)) as Hpassed by (exists signing, b, c1, c2, warned; by split_and!).
    apply follows_call_try. intros [ []|e].
    + eexists. split; [eapply checking_step; [exact Hq'|by apply run_passes]|]. by apply serving_follows.
    + eexists. split; [eapply checking_step; [exact Hq'|by apply run_unnotified]|done].
  - intros [d|e] q Hq.
    + destruct Hq as (ended & -> & ->). unfold finish_run. apply follows_call. intros drained.
      eexists. split; [apply run_drains|]. by apply follows_ret.
    + by apply follows_ret.
Qed.
End running.

(** C16: Every run of [run] is one of this machine's: it starts the listener
    for signals, opens the store and the client, and checks before it spawns any
    task — each configured pool from a snapshot of its own, with one backstop, a
    primary asset that can be collateral, and only reserves named; then the
    filler's account, live or dry: that it exists and holds the fee reserve, a
    live bot being refused where a dry run is only warned, and a live filler's
    wallet in every pool. It is refused with the reason, or spawns exactly the
    tasks the configuration asks for, each on the configuration's own terms: the
    HTTP server, where one is configured, before the seed pass; after it a poller
    per pool, a worker per key unless the run is dry, the watchdog, the
    auctioneer, the filler and the tracker. It joins every task, raises the
    shutdown at the first failure and at the first panic and at no other, and
    answers the first panic, else the first error, else success, the notifier
    drained first. *)
Theorem run_checks_spawns_and_joins `{ScDecode} `{Outside} `{!Crypto} {TaskError : Type}
    (math_error_text : MathError → string) (random : nat → Z → Z)
    (config : ServiceConfig) (keys : SigningKeys) :
  follows run_log
    (run_step (TaskError:=TaskError) random config keys)
    Fresh
    (run math_error_text random config keys)
    (answered config keys).
Proof. apply service_run_follows. Qed.

(** Where the listener is: no request yet, one, one that was raised, two, and
    the end of the process. *)
Inductive Listening : Type := Unasked | Asked | Raised | Insisted | Killed.

Inductive listen_step : Listening → SignalObs → Listening → Prop :=
| listen_installs q ok : listen_step q (OInstalled ok) q
| listen_asked terminate : listen_step Unasked (OSignalled terminate) Asked
| listen_raises : listen_step Asked ORaised Raised
| listen_insisted terminate : listen_step Raised (OSignalled terminate) Insisted
| listen_exits : listen_step Insisted (OExited 130) Killed.

(** The listener raises the shutdown at the first request and at nothing else,
    and ends the process, as an interrupt does, at a second one only. *)
Theorem listener_waits_twice :
  follows signal_log listen_step Unasked shutdown_listener (λ _ q, q = Killed).
Proof.
  assert (∀ q q', (∀ terminate, listen_step q (OSignalled terminate) q') →
    follows signal_log listen_step q wait_for_signal (λ _ p, p = q')) as Hwait.
  { intros q q' Hq. apply follows_call. intros ok. eexists. split; [apply listen_installs|].
    apply follows_perform. intros []. exists q'. split; [apply Hq|done]. }
  eapply follows_bind; [apply (Hwait _ Asked); constructor|]. intros [] q ->.
  apply follows_call. intros []. eexists. split; [constructor|].
  eapply follows_bind; [apply (Hwait _ Insisted); constructor|]. intros [] q ->.
  apply follows_perform. intros []. eexists. split; [constructor|done].
Qed.

(** From a configuration that is accepted to the process's end: 0 exactly when
    every task that was joined ended well, 2 for what the operator must fix, 1
    for any other failure, and a task's panic as a panic. *)
Theorem main_exits_by_the_run `{ScDecode} `{Outside} `{!Crypto} {TaskError : Type}
    (math_error_text : MathError → string) (random : nat → Z → Z)
    (args : Args) (env : string → option string) (config : ServiceConfig) (keys : SigningKeys) :
  service args env = Ok config →
  signing_keys args (not_empty (env "FILLER_SECRET_KEY"%string))
    (not_empty (env "AUCTIONEER_SECRET_KEY"%string)) = Ok keys →
  sc_run_mode config = Settings.Loop →
  follows run_log (run_step (TaskError:=TaskError) random config keys)
    Fresh
    (main math_error_text random args env)
    (λ exit q, ∃ ended, answered config keys ended q ∧
      match exit with
      | ExitCode code =>
          (code = 0 ↔ ended = Returned (Ok ())) ∧
          (code = EXIT_CONFIG ↔ ∃ text, ended = Returned (Err (InvalidConfig text)))
      | ExitPanic payload => ended = Panicked payload
      end).
Proof.
  intros Hservice Hkeys Hmode. unfold main. rewrite Hservice, Hkeys, Hmode.
  eapply follows_bind; [apply service_run_follows|]. intros ended q Ha. apply follows_ret.
  exists ended. split; [exact Ha|]. unfold EXIT_CONFIG.
  destruct ended as [ [ []|[text|e|e] ]|payload]; simpl; try done;
    split; split; try done; try (by intros [? ?]); by eexists.
Qed.

(** C15: From arguments that were accepted and keys that were parsed to the
    tasks that are spawned: one queue worker per key and never two of one key;
    a dry run has none; live, the filler submits through the worker of its own
    key, and the auctioneer through its own key's or, without one, the filler's
    key and queue; every address held is refused as a borrower; the thresholds,
    periods, phases and floors the tasks run on are within their bounds, the
    liquidation threshold below the scan's, every pool's health floor above the
    contract's minimum; the tracker scans at the auctioneer's period and
    threshold, above the liquidation threshold, in a phase within the period,
    refreshes on the configured terms, and is seeded from the configured sources; a
    poller waits less between passes than the watchdog does for it; and the
    notifier's cooldown is at least an hour. *)
Theorem tasks_start_on_sound_terms `{ScDecode} `{Outside} `{!Crypto} {TaskError : Type} (random : nat → Z → Z)
    (args : Args) (env : string → option string) (filler auctioneer : option string)
    (config : ServiceConfig) (keys : SigningKeys) (signing : SigningContext)
    (sources : list SeedSource) (needs : gset string) :
  draws_in_range random → accepts args → service args env = Ok config →
  signing_keys args filler auctioneer = Ok keys →
  signing_context (TaskError:=TaskError) config keys = Ok signing →
  build_seed_sources (TaskError:=TaskError) (sc_seed config) = Ok sources →
  ∃ workers queues ac cadence fc tracker poller,
    tasks_of random config signing sources needs =
      map (λ pool, TPoller (cf_address pool) poller) (sc_pools config) ++
      map (λ signer, TWorker (submitter_of signing signer)) workers ++
      [TWatchdog (cf_address <$> sc_pools config) poller;
       TAuctioneer (submitter_of signing <$> ss_auctioneer (sx_signers signing)) ac cadence
         (cf_address <$> sc_pools config) (qs_auctioneer queues);
       TFiller (submitter_of signing <$> ss_filler (sx_signers signing)) (ar_dry_run args)
         (inventory_new (sx_native_asset signing) (sc_xlm_fee_reserve config)) fc (sc_pools config)
         (ar_startup_delay_ledgers args) (qs_filler queues);
       TTracker sources tracker needs] ∧
    keyed args filler auctioneer keys ∧
    roles (negb (ar_dry_run args)) keys (sx_signers signing) workers queues ∧
    ac_dry_run ac = ar_dry_run args ∧ fc_dry_run fc = ar_dry_run args ∧
    auctioneer_terms keys ac cadence ∧
    filler_terms keys fc (sc_pools config) (sc_xlm_fee_reserve config) ∧
    seeds_from (sc_seed config) sources ∧
    tracker_terms args (ac_liquidation_health_factor ac) cadence tracker ∧
    pc_poll_interval poller < liveness_deadline poller ∧
    3600000000000 ≤ sc_notification_cooldown config.
Proof.
  intros Hdraws Hargs Hservice Hkeys Hsigning Hsources.
  pose proof (service_sound _ _ _ Hargs Hservice) as Hsound.
  apply signing_keys_ok in Hkeys as Hkeyed. pose proof (roles_of _ _ _ _ Hkeyed) as Hroles.
  assert (sx_signers signing = into_signers keys) as Hsigners.
  { unfold signing_context in Hsigning. rust_inv. by simplify_eq. }
  assert (sc_dry_run config = ar_dry_run args ∧
    sc_startup_delay_ledgers config = ar_startup_delay_ledgers args) as [Hdry Hdelay].
  { unfold service, service_with_secrets in Hservice. rust_inv. by simplify_eq. }
  unfold tasks_of, spawn_filler, spawn_auctioneer.
  change (fc_dry_run (filler_config_from config signing)) with (sc_dry_run config). rewrite Hsigners, Hdry, Hdelay.
  destruct (spawn_queues (into_signers keys) (ar_dry_run args)) as [workers queues].
  exists workers, queues, (auctioneer_config_from config signing), (auctioneer_cadence_from random config),
    (filler_config_from config signing), (tracker_cadence_from random config),
    (poller_config_new (sc_poll_interval config)).
  split_and!; try done; try (by eapply auctioneer_terms_of); try (by eapply filler_terms_of);
    try (by eapply tracker_terms_of); try (by eapply seed_sources_ok); destruct Hsound;
    unfold liveness_deadline, LIVENESS_INTERVALS; simpl; lia.
Qed.

(** The sample configuration, live, with the filler's key alone. *)
#[local] Instance sample_decode : ScDecode := tree_decode (λ _, None).
#[local] Existing Instance sample_outside.

Lemma sample_service :
  ∃ config, service (sample_args false) sample_env = Ok config ∧
    sc_notification_cooldown config = 86400000000000 ∧
    build_seed_sources (TaskError:=()) (sc_seed config) = Ok [].
Proof. eexists. split; [vm_compute; reflexivity|done]. Qed.

Lemma sample_keys : ∃ keys, signing_keys (sample_args false) (Some "GFILLER"%string) None = Ok keys.
Proof. eexists. reflexivity. Qed.

(** A codec whose hashes and signatures are lists of the right lengths. *)
#[local] Instance sample_crypto : Crypto.
Proof.
  refine {| sha256 := id; as_bytes := λ _, []; verifying_key := λ _, replicate 32 0;
    ed25519_sign := λ _ _, replicate 64 0; ed25519_verify := λ _ _ _, true;
    transaction_hash := λ _ _, Ok (replicate 32 0); native_asset_preimage := λ _, Ok;
    length_exceeds_max := (); contract_strkey := λ _, "CNATIVE"%string |}.
  all: done.
Defined.

Lemma tasks_start_on_sound_terms_witness :
  ∃ config keys signing workers queues,
    service (sample_args false) sample_env = Ok config ∧
    signing_keys (sample_args false) (Some "GFILLER"%string) None = Ok keys ∧
    roles true keys (sx_signers signing) workers queues ∧
    sc_notification_cooldown config = 86400000000000.
Proof.
  destruct sample_service as (config & Hservice & Hcooldown & Hsources), sample_keys as [keys Hkeys].
  assert (∃ signing, signing_context (TaskError:=()) config keys = Ok signing)
    as (signing & Hsigning) by (eexists; reflexivity).
  destruct (tasks_start_on_sound_terms (TaskError:=()) (λ _ _, 0)
    (sample_args false) sample_env (Some "GFILLER"%string) None config keys signing [] ∅)
    as (workers & queues & _ & _ & _ & _ & _ & _ & _ & Hroles & _);
    [intros n period Hp; lia|apply sample_accepts|done..|].
  exists config, keys, signing, workers, queues. by split_and!.
Defined.
