(* ===== verification/Health.v ===== *)
(** * The probes and the watchdog ([src/http.rs], [src/service.rs])

    [/healthz], [/livez] and [/metrics] answer from the recorder and one ping of
    the store; the watchdog reports every pool whose poller has gone silent.
    Instants and durations are nanoseconds. *)

From S2P Require Import Prelude Io Metrics Notifier.
From stdpp Require Import pretty.
Open Scope Z_scope.

Definition PING_TIMEOUT : Z := 5000000000.

(** [Duration::as_secs]. *)
Definition as_secs (duration : Z) : Z := duration / 1000000000.

(** [Instant::saturating_duration_since]. *)
Definition duration_since (now earlier : Z) : Z := Z.max (now - earlier) 0.

Record HttpState : Type := mkHttpState {
  hs_metrics : Metrics;
  hs_pools : list string;
  hs_max_lag_ledgers : Z;
  hs_liveness_deadline : Z;
  hs_started : Z;
}.

(** How the store answered the ping. *)
Inductive Ping : Type := PingOk | PingFailed | PingTimedOut.

Local Open Scope string_scope.

Definition seconds (duration : Z) : string := pretty (as_secs duration) +:+ "s".

(** [readiness], one pool. *)
Definition pool_ready (state : HttpState) (now : Z) (pool : string) : result string () :=
  let max_lag_ledgers := hs_max_lag_ledgers state in
  let limit := seconds (hs_liveness_deadline state) in
  let status := pool_status (hs_metrics state) pool in
  let? processed := ok_or (status ≫= ps_processed) ("no ledger processed yet for " +:+ pool) in
  let? head := ok_or (status ≫= ps_head) ("no chain head observed yet for " +:+ pool) in
  let? _ :=
    match status ≫= ps_head_at with
    | Some head_at =>
        let age := duration_since now head_at in
        if (hs_liveness_deadline state <? age)%Z then
          Err (pool +:+ ": no chain head read for " +:+ seconds age +:+ " (limit " +:+ limit +:+ ")")
        else Ok ()
    | None => Ok ()
    end in
  let ahead := u32_saturating_sub processed head in
  if (max_lag_ledgers <? ahead)%Z then
    Err (pool +:+ ": the observed chain head " +:+ pretty head +:+ " is " +:+ pretty ahead +:+
      " ledgers behind the processed ledger " +:+ pretty processed +:+ " (limit " +:+
      pretty max_lag_ledgers +:+ ")")
  else
    let lag := u32_saturating_sub head processed in
    if (max_lag_ledgers <? lag)%Z then
      Err (pool +:+ " is " +:+ pretty lag +:+ " ledgers behind head (limit " +:+
        pretty max_lag_ledgers +:+ ")")
    else Ok ().

Fixpoint each_pool (check : string → result string ()) (pools : list string) : result string () :=
  match pools with
  | [] => Ok ()
  | pool :: pools => let? _ := check pool in each_pool check pools
  end.

(** [readiness]: the store is pinged once every pool is. *)
Definition readiness (state : HttpState) (now : Z) (ping : Ping) : result string () :=
  let? _ := each_pool (pool_ready state now) (hs_pools state) in
  match ping with
  | PingOk => Ok ()
  | PingFailed => Err "store: ping failed"
  | PingTimedOut => Err ("store: ping timed out after " +:+ seconds PING_TIMEOUT)
  end.

(** [liveness], one pool. *)
Definition pool_live (state : HttpState) (now : Z) (pool : string) : result string () :=
  let limit := seconds (hs_liveness_deadline state) in
  match pool_status (hs_metrics state) pool ≫= ps_heartbeat with
  | None =>
      let age := duration_since now (hs_started state) in
      if (hs_liveness_deadline state <? age)%Z then
        Err (pool +:+ "'s poller has not run yet, " +:+ seconds age +:+ " after start (limit " +:+
          limit +:+ ")")
      else Ok ()
  | Some at_ =>
      let age := duration_since now at_ in
      if (hs_liveness_deadline state <? age)%Z then
        Err (pool +:+ "'s poller last ran " +:+ seconds age +:+ " ago")
      else Ok ()
  end.

(** [liveness]. *)
Definition liveness (state : HttpState) (now : Z) : result string () :=
  each_pool (pool_live state now) (hs_pools state).

(** [healthz] and [livez]: the status code and the body. *)
Definition text_response (answer : result string ()) : Z * string :=
  match answer with Ok _ => (200%Z, "ok") | Err reason => (503%Z, reason) end.
Definition healthz (state : HttpState) (now : Z) (ping : Ping) : Z * string :=
  text_response (readiness state now ping).
Definition livez (state : HttpState) (now : Z) : Z * string := text_response (liveness state now).
(** [metrics_handler]. *)
Definition metrics_handler (state : HttpState) : Z * string := (200%Z, render (hs_metrics state)).

(** ** The watchdog *)

(** What is silent for longer than the deadline. *)
Definition stalled_note (pool : string) (silent deadline : Z) : Notification :=
  mkNotification KPollerStalled High pool None
    ("no poller heartbeat for " +:+ seconds silent +:+ " (limit " +:+ seconds deadline +:+ ")").

Local Close Scope string_scope.

Variant WatchE : Type → Type :=
| WNow : WatchE Z
| WStatus (pool : string) : WatchE (option PoolStatus)
| WNotify (n : Notification) : WatchE Delivery
(** The watch: its value read, and a change or the interval awaited — whether
    the watch is closed, or says to stop. *)
| WShutdown : WatchE bool
| WWait : WatchE bool.

Inductive WatchObs : Type :=
| ONow (now : Z)
| OStatus (pool : string) (status : option PoolStatus)
| ONotify (n : Notification) (d : Delivery)
| OWatchShutdown (stop : bool)
| OWait (stop : bool).

Definition watch_log (X : Type) (e : WatchE X) : X → WatchObs :=
  match e in WatchE X return X → WatchObs with
  | WNow => ONow
  | WStatus pool => OStatus pool
  | WNotify n => ONotify n
  | WShutdown => OWatchShutdown
  | WWait => OWait
  end.

(** [watchdog_loop], one pass over the pools. *)
Fixpoint watch_pools (pools : list string) (deadline now : Z) (reported : gset string)
  : io WatchE (gset string) :=
  match pools with
  | [] => Ret reported
  | pool :: pools =>
      await status := perform (WStatus pool) in
      match status ≫= ps_heartbeat with
      | None => watch_pools pools deadline now reported
      | Some last =>
          let silent := duration_since now last in
          if deadline <? silent then
            await _ := perform (WNotify (stalled_note pool silent deadline)) in
            watch_pools pools deadline now ({[pool]} ∪ reported)
          else watch_pools pools deadline now (reported ∖ {[pool]})
      end
  end.

Definition watch_pass (pools : list string) (deadline : Z) (reported : gset string)
  : io WatchE (gset string + ()) :=
  await stop := perform WShutdown in
  if stop : bool then Ret (inr ())
  else
    await now := perform WNow in
    await reported := watch_pools pools deadline now reported in
    await stop := perform WWait in
    if stop : bool then Ret (inr ()) else Ret (inl reported).

(** [watchdog_loop]. *)
Definition watchdog_loop (pools : list string) (deadline : Z) : io WatchE () :=
  ITree.iter (watch_pass pools deadline) ∅.
