(* ===== verification/HealthContract.v ===== *)
(** * What the probes and the watchdog tell

    The recorder over the calls that were made of it: its gauges are the last
    values recorded, its counters how many — saturating. So the probes' answers
    are statements about the run, and the watchdog reports exactly the pools
    whose pollers fell silent. *)

From S2P Require Import Prelude Io Metrics Notifier Health.
Open Scope Z_scope.

(** ** The calls of the recorder *)

Inductive Recording : Type :=
| RecHead (pool : string) (sequence at_ : Z)
| RecProcessed (pool : string) (sequence : Z)
| RecHeartbeat (pool : string) (at_ wall : Z)
| RecEvents (pool : string) (count : Z)
| RecUsers (pool : string) (count : Z)
| RecAuctions (pool : string) (count : Z)
| RecSeed (pool : string) (count : Z)
| RecScan (pool : string) (at_ : Z)
| RecCreation (result : Attempt)
| RecFill (result : Attempt)
| RecSkip (reason : SkipLabel)
| RecProfit (units : Z)
| RecReserved (reserved : gmap string Z)
| RecUnwind
| RecNotification (kind : NotificationKind) (delivery : DeliveryLabel).

Definition record_call (m : Metrics) (r : Recording) : Metrics :=
  match r with
  | RecHead pool sequence at_ => ledger_head_at pool sequence at_ m
  | RecProcessed pool sequence => ledger_processed pool sequence m
  | RecHeartbeat pool at_ wall => heartbeat_at pool at_ wall m
  | RecEvents pool count => events_processed pool count m
  | RecUsers pool count => users_tracked pool count m
  | RecAuctions pool count => auctions_open pool count m
  | RecSeed pool count => seed_accounts_loaded pool count m
  | RecScan pool at_ => scan_succeeded pool at_ m
  | RecCreation result => creation result m
  | RecFill result => fill result m
  | RecSkip reason => skip reason m
  | RecProfit units => profit units m
  | RecReserved reserved => reserved_inventory reserved m
  | RecUnwind => unwind_pass m
  | RecNotification kind delivery => notification kind delivery m
  end.

(** A fresh recorder after the calls [h]. *)
Definition recorded (h : list Recording) : Metrics := foldl record_call metrics_new h.

(** ** What was recorded last, and how often *)

Definition head_of (pool : string) (r : Recording) : option (Z * Z) :=
  match r with
  | RecHead other sequence at_ => if decide (other = pool) then Some (sequence, at_) else None
  | _ => None
  end.
Definition processed_of (pool : string) (r : Recording) : option Z :=
  match r with
  | RecProcessed other sequence => if decide (other = pool) then Some sequence else None
  | _ => None
  end.
Definition heartbeat_of (pool : string) (r : Recording) : option Z :=
  match r with
  | RecHeartbeat other at_ _ => if decide (other = pool) then Some at_ else None
  | _ => None
  end.

Definition count_of (pool : string) (field : Recording → option (string * Z)) (r : Recording) : option Z :=
  '(other, n) ← field r; if decide (other = pool) then Some n else None.

Definition last_of {A : Type} (f : Recording → option A) (h : list Recording) : option A :=
  last (omap f h).

(** A pool a prober may send work to, and one whose poller is alive. *)
Definition ready (h : list Recording) (now deadline lag : Z) (pool : string) : Prop :=
  ∃ head at_ processed,
    last_of (head_of pool) h = Some (head, at_) ∧ last_of (processed_of pool) h = Some processed ∧
    now - at_ ≤ deadline ∧ Z.abs (head - processed) ≤ lag.

Definition alive (h : list Recording) (now deadline started : Z) (pool : string) : Prop :=
  now - default started (last_of (heartbeat_of pool) h) ≤ deadline.

(** ** The gauges *)

Lemma last_of_snoc {A} (f : Recording → option A) h r :
  last_of f (h ++ [r]) = match f r with Some a => Some a | None => last_of f h end.
Proof.
  unfold last_of. rewrite omap_app. simpl. destruct (f r) as [a|]; simpl.
  - by rewrite last_snoc.
  - by rewrite app_nil_r.
Qed.

Lemma recorded_snoc h r : recorded (h ++ [r]) = record_call (recorded h) r.
Proof. unfold recorded. by rewrite foldl_app. Qed.

Definition gauges (m : Metrics) (pool : string) : option (Z * Z) * option Z * option Z :=
  let record := default pool_record_default (mt_pools m !! pool) in
  (match rec_head record, rec_head_at record with Some s, Some t => Some (s, t) | _, _ => None end,
   rec_processed record, fst <$> rec_heartbeat record).

(** A head is recorded with its time. *)
Definition paired (m : Metrics) : Prop :=
  ∀ pool, let record := default pool_record_default (mt_pools m !! pool) in
  is_Some (rec_head record) ↔ is_Some (rec_head_at record).

Lemma on_pool_lookup pool f m other :
  default pool_record_default (mt_pools (on_pool pool f m) !! other) =
  if decide (pool = other) then f (default pool_record_default (mt_pools m !! other))
  else default pool_record_default (mt_pools m !! other).
Proof. unfold on_pool, with_pools. simpl. rewrite lookup_insert. by case_decide; subst. Qed.

Ltac unfold_gauges :=
  unfold ledger_head_at, ledger_processed, heartbeat_at, events_processed, users_tracked,
    auctions_open, seed_accounts_loaded, scan_succeeded, profit.

Lemma recorded_gauges h :
  paired (recorded h) ∧
  ∀ pool, gauges (recorded h) pool =
    (last_of (head_of pool) h, last_of (processed_of pool) h, last_of (heartbeat_of pool) h).
Proof.
  induction h as [|r h [IHp IHg] ] using rev_ind.
  { split; intros pool; unfold gauges; simpl; rewrite lookup_empty; done. }
  rewrite recorded_snoc. split.
  - intros pool. specialize (IHp pool). cbn zeta in *. destruct r; cbn [record_call]; unfold_gauges;
      first [exact IHp | rewrite on_pool_lookup; case_decide; [simpl in *; naive_solver|exact IHp]
            | destruct (_ <? _); exact IHp].
  - intros pool. specialize (IHg pool). rewrite !last_of_snoc. unfold gauges in *.
    cbn zeta in *. destruct r; cbn [record_call]; unfold_gauges;
      first [exact IHg | rewrite on_pool_lookup; simpl; case_decide; simpl in *; simplify_eq/=;
                         first [done | congruence]
            | destruct (_ <? _); exact IHg].
Qed.

(** ** The counters *)

Definition capped (n : nat) : Z := Z.min (Z.of_nat n) u64_max.

Definition times (P : Recording → Prop) `{!∀ r, Decision (P r)} (h : list Recording) : nat :=
  length (filter P h).

#[export] Instance recording_eq_dec : EqDecision Recording.
Proof.
  assert (EqDecision Attempt) by solve_decision. solve_decision.
Defined.

(** What came in, and what was lost, by magnitude. *)
Definition gained (r : Recording) : Z := match r with RecProfit z => Z.max z 0 | _ => 0 end.
Definition lost (r : Recording) : Z := match r with RecProfit z => Z.max (- z) 0 | _ => 0 end.
Definition total (f : Recording → Z) (h : list Recording) : Z := foldr (λ r n, f r + n) 0 h.

Lemma total_snoc f h r : total f (h ++ [r]) = total f h + f r.
Proof. unfold total. induction h as [|x h IH]; simpl; lia. Qed.

Lemma times_snoc P `{!∀ r, Decision (P r)} h r :
  capped (times P (h ++ [r])) =
  if decide (P r) then u64_saturating_add (capped (times P h)) 1 else capped (times P h).
Proof.
  unfold times, capped, u64_saturating_add. rewrite filter_app, length_app, filter_cons, filter_nil.
  widths. case_decide; simpl; lia.
Qed.

Definition events_in (r : Recording) : option (string * Z) :=
  match r with RecEvents pool n => Some (pool, n) | _ => None end.
Definition users_in (r : Recording) : option (string * Z) :=
  match r with RecUsers pool n => Some (pool, n) | _ => None end.
Definition auctions_in (r : Recording) : option (string * Z) :=
  match r with RecAuctions pool n => Some (pool, n) | _ => None end.
Definition seed_in (r : Recording) : option (string * Z) :=
  match r with RecSeed pool n => Some (pool, n) | _ => None end.
Definition scan_in (r : Recording) : option (string * Z) :=
  match r with RecScan pool at_ => Some (pool, at_) | _ => None end.

(** What the recorder holds of a pool, with nothing in it before a call. *)
Definition holds {A : Type} (field : PoolRecord → option A) (m : Metrics) (pool : string) : option A :=
  field (default pool_record_default (mt_pools m !! pool)).

(** The events applied of a pool: nothing before the first count, and then
    their sum. *)
Definition events_of (pool : string) (h : list Recording) : option Z :=
  match omap (count_of pool events_in) h with
  | [] => None
  | counts => Some (Z.min (foldr Z.add 0 counts) u64_max)
  end.

(** A call's arguments are of the widths their types have. *)
Definition typed (r : Recording) : Prop :=
  match r with RecProfit z => is_i128 z | RecEvents _ n => is_u64 n | _ => True end.

(** A recorder's counters and gauges, as functions of what was recorded. *)
Record counts_the_run (h : list Recording) : Prop := {
  run_events pool : holds rec_events_processed (recorded h) pool = events_of pool h;
  run_users pool : holds rec_users_tracked (recorded h) pool = last_of (count_of pool users_in) h;
  run_auctions pool :
    holds rec_auctions_open (recorded h) pool = last_of (count_of pool auctions_in) h;
  run_seed pool :
    holds rec_seed_accounts_loaded (recorded h) pool = last_of (count_of pool seed_in) h;
  run_scan pool :
    holds rec_last_successful_scan (recorded h) pool = last_of (count_of pool scan_in) h;
  run_creations a : mt_creations (recorded h) a = capped (times (λ r, r = RecCreation a) h);
  run_fills a : mt_fills (recorded h) a = capped (times (λ r, r = RecFill a) h);
  run_skips l : mt_skips (recorded h) l = capped (times (λ r, r = RecSkip l) h);
  run_unwinds : mt_unwind_passes (recorded h) = capped (times (λ r, r = RecUnwind) h);
  run_notifications k d :
    default 0 (mt_notifications (recorded h) !! (k, d)) =
    capped (times (λ r, r = RecNotification k d) h);
  run_profit : mt_profit_total (recorded h) = Z.min (total gained h) i128_max;
  run_loss : mt_loss_total (recorded h) = Z.min (total lost h) i128_max;
}.

(** A call of the recorder that another field is for. *)
Ltac unmoved H :=
  cbn [record_call]; unfold_gauges;
  try (rewrite decide_False by done; first [exact H | destruct (_ <? _); exact H]).

(** A gauge that only the calls [f] is about write. *)
Lemma recorded_gauge {A} (field : PoolRecord → option A) (f : string → Recording → option A) :
  field pool_record_default = None →
  (∀ m r pool, holds field (record_call m r) pool =
     match f pool r with Some a => Some a | None => holds field m pool end) →
  ∀ h pool, holds field (recorded h) pool = last_of (f pool) h.
Proof.
  intros H0 Hs h pool. induction h as [|r h IH] using rev_ind.
  { unfold holds. simpl. by rewrite lookup_empty. }
  by rewrite recorded_snoc, Hs, last_of_snoc, IH.
Qed.

Lemma holds_on_pool {A} (field : PoolRecord → option A) pool f m other :
  holds field (on_pool pool f m) other =
  if decide (pool = other) then field (f (default pool_record_default (mt_pools m !! other)))
  else holds field m other.
Proof. unfold holds. rewrite on_pool_lookup. by case_decide. Qed.

(** One call, against the field it is or is not for. *)
Ltac record_field :=
  intros m0 r0 pool0; destruct r0; cbn [record_call]; unfold_gauges;
  rewrite ?holds_on_pool; unfold count_of; simpl; try case_decide; simplify_eq/=;
  first [done | destruct (_ <? _); done].

Lemma recorded_events h pool :
  Forall typed h → holds rec_events_processed (recorded h) pool = events_of pool h.
Proof.
  assert (∀ m r, holds rec_events_processed (record_call m r) pool =
    match count_of pool events_in r with
    | Some n => Some (u64_saturating_add (default 0 (holds rec_events_processed m pool)) n)
    | None => holds rec_events_processed m pool
    end) as Hs by (revert pool; intros pool m r; revert m r pool; record_field).
  induction h as [|r h IH] using rev_ind; intros Hw.
  { unfold holds. simpl. by rewrite lookup_empty. }
  apply Forall_app in Hw as [Hw Hr]. apply Forall_cons_1 in Hr as [Hr _].
  rewrite recorded_snoc, Hs, (IH Hw). unfold events_of. rewrite omap_app. simpl.
  destruct (count_of pool events_in r) as [n|] eqn:Hn; [|by rewrite app_nil_r].
  assert (0 ≤ n) as Hn0.
  { destruct r; try discriminate Hn. unfold count_of in Hn. simpl in Hn. case_decide; [|done].
    simplify_eq/=. unfold is_u64 in Hr. lia. }
  assert (∀ l, foldr Z.add 0 (l ++ [n]) = foldr Z.add 0 l + n) as Hsum.
  { intros l. rewrite foldr_app. simpl. induction l as [|x l IHl]; simpl; lia. }
  unfold u64_saturating_add.
  destruct (omap (count_of pool events_in) h) as [|n' counts] eqn:Hl; simpl; [f_equal; lia|].
  f_equal. specialize (Hsum counts). rewrite Hsum. lia.
Qed.

Lemma recorded_counts h : Forall typed h → counts_the_run h.
Proof.
  induction h as [|r h IH] using rev_ind; intros Hw.
  { split; simpl; intros; unfold holds; rewrite ?lookup_empty; done. }
  pose proof (λ pool, recorded_events _ pool Hw) as Hev.
  apply Forall_app in Hw as [Hw Hr]. apply Forall_cons_1 in Hr as [Hr _].
  destruct (IH Hw) as [_ _ _ _ _ Hc Hf Hs Hu Hn Hp Hl].
  assert (0 ≤ total gained h ∧ 0 ≤ total lost h) as [Hg0 Hl0].
  { split; clear; unfold total; induction h as [|x h IH]; simpl; unfold gained, lost in *; [lia| |lia|];
      destruct x; lia. }
  split; [exact Hev|apply recorded_gauge; [done|record_field]..|
          intros a|intros a|intros l| |intros k d| |]; rewrite recorded_snoc, ?times_snoc, ?total_snoc.
  - destruct r as [| | | | | | | |result| | | | | |]; unmoved (Hc a).
    rewrite <-(Hc a). simpl. unfold bump_attempt. destruct result, a; done.
  - destruct r as [| | | | | | | | |result| | | | |]; unmoved (Hf a).
    rewrite <-(Hf a). simpl. unfold bump_attempt. destruct result, a; done.
  - destruct r as [| | | | | | | | | |reason| | | |]; unmoved (Hs l).
    rewrite <-(Hs l). simpl. case_bool_decide; case_decide; simplify_eq; done.
  - destruct r; unmoved Hu. rewrite decide_True by done. simpl. by rewrite <-Hu.
  - destruct r as [| | | | | | | | | | | | | |kind delivery]; unmoved (Hn k d).
    rewrite <-(Hn k d). simpl. rewrite lookup_insert. repeat case_decide; by simplify_eq/=.
  - destruct r as [| | | | | | | | | | |units| | |]; cbn [record_call]; unfold_gauges;
      try (rewrite Z.add_0_r; exact Hp). unfold saturating_add, saturating_neg, saturate_i128.
    change (gained (RecProfit units)) with (Z.max units 0). widths. destruct (units <? 0) eqn:Hneg; simpl; rewrite Hp; lia.
  - destruct r as [| | | | | | | | | | |units| | |]; cbn [record_call]; unfold_gauges;
      try (rewrite Z.add_0_r; exact Hl). unfold saturating_add, saturating_neg, saturate_i128.
    change (lost (RecProfit units)) with (Z.max (- units) 0). widths. destruct (units <? 0) eqn:Hneg; simpl; rewrite Hl; lia.
Qed.

(** ** The probes *)

(** The recorder's view of a pool, read back. *)
Lemma pool_status_gauges m pool :
  paired m →
  (pool_status m pool ≫= ps_processed) = (gauges m pool).1.2 ∧
  (pool_status m pool ≫= ps_heartbeat) = (gauges m pool).2 ∧
  match (gauges m pool).1.1 with
  | Some (head, at_) =>
      (pool_status m pool ≫= ps_head) = Some head ∧ (pool_status m pool ≫= ps_head_at) = Some at_
  | None => (pool_status m pool ≫= ps_head) = None
  end.
Proof.
  intros Hp. specialize (Hp pool). unfold pool_status, gauges. cbn zeta in *.
  destruct (mt_pools m !! pool) as [record|]; simpl in *; [|done].
  split_and!; [done|done|].
  destruct (rec_head record) as [head|], (rec_head_at record) as [at_|]; naive_solver.
Qed.

Lemma each_pool_ok check pools P :
  (∀ pool, pool ∈ pools → check pool = Ok () ↔ P pool) →
  each_pool check pools = Ok () ↔ Forall P pools.
Proof.
  induction pools as [|pool pools IH]; intros Hc; simpl; [by split; [constructor|]|].
  rewrite Forall_cons, <-(Hc pool) by constructor.
  rewrite <-IH by (intros; apply Hc; by constructor).
  destruct (check pool) as [ []|e]; simpl; naive_solver.
Qed.

Lemma text_response_ok answer : fst (text_response answer) = 200 ↔ answer = Ok ().
Proof. destruct answer as [ []|e]; simpl; naive_solver. Qed.

Section probes.
Context (state : HttpState) (h : list Recording) (now : Z).
Context (Hstate : hs_metrics state = recorded h) (Hdeadline : 0 ≤ hs_liveness_deadline state)
  (Hlag : 0 ≤ hs_max_lag_ledgers state).

Lemma pool_ready_iff pool :
  pool_ready state now pool = Ok () ↔
  ready h now (hs_liveness_deadline state) (hs_max_lag_ledgers state) pool.
Proof using Hstate Hdeadline Hlag.
  destruct (recorded_gauges h) as [Hp Hg].
  destruct (pool_status_gauges (recorded h) pool Hp) as (Hpr & _ & Hh).
  rewrite (Hg pool) in Hpr, Hh. simpl in Hpr, Hh.
  unfold pool_ready, ready. rewrite Hstate, Hpr. cbn zeta.
  unfold u32_saturating_sub, duration_since.
  destruct (last_of (processed_of pool) h) as [processed|]; simpl; [|naive_solver].
  destruct (last_of (head_of pool) h) as [ [head at_]|]; simpl.
  2:{ rewrite Hh. simpl. naive_solver. }
  destruct Hh as [-> ->]. simpl. destruct (Z.ltb_spec (hs_liveness_deadline state) (Z.max (now - at_) 0)); simpl.
  { split; [done|]. intros (? & ? & ? & ? & ? & ? & ?). simplify_eq. lia. }
  destruct (Z.ltb_spec (hs_max_lag_ledgers state) (Z.max (processed - head) 0)); simpl.
  { split; [done|]. intros (? & ? & ? & ? & ? & ? & ?). simplify_eq. lia. }
  destruct (Z.ltb_spec (hs_max_lag_ledgers state) (Z.max (head - processed) 0)); simpl.
  { split; [done|]. intros (? & ? & ? & ? & ? & ? & ?). simplify_eq. lia. }
  split; [|done]. intros _. exists head, at_, processed. split_and!; [done|done|lia|lia].
Qed.

Lemma pool_live_iff pool :
  pool_live state now pool = Ok () ↔
  alive h now (hs_liveness_deadline state) (hs_started state) pool.
Proof using Hstate Hdeadline.
  destruct (recorded_gauges h) as [Hp Hg].
  destruct (pool_status_gauges (recorded h) pool Hp) as (_ & Hb & _).
  rewrite (Hg pool) in Hb. simpl in Hb. unfold pool_live, alive. rewrite Hstate, Hb. cbn zeta.
  unfold duration_since. destruct (last_of (heartbeat_of pool) h) as [at_|]; simpl;
    destruct (Z.ltb_spec (hs_liveness_deadline state) (Z.max (now - at_) 0)) || 
    destruct (Z.ltb_spec (hs_liveness_deadline state) (Z.max (now - hs_started state) 0));
    split; try done; lia.
Qed.

Lemma healthz_iff ping :
  fst (healthz state now ping) = 200 ↔
  ping = PingOk ∧
  Forall (ready h now (hs_liveness_deadline state) (hs_max_lag_ledgers state)) (hs_pools state).
Proof using Hstate Hdeadline Hlag.
  unfold healthz. rewrite text_response_ok. unfold readiness.
  rewrite <-(each_pool_ok (pool_ready state now)) by (intros; apply pool_ready_iff).
  destruct (each_pool _ _) as [ []|e]; simpl; [destruct ping|]; naive_solver.
Qed.

Lemma livez_iff :
  fst (livez state now) = 200 ↔
  Forall (alive h now (hs_liveness_deadline state) (hs_started state)) (hs_pools state).
Proof using Hstate Hdeadline.
  unfold livez. rewrite text_response_ok. apply each_pool_ok. intros. apply pool_live_iff.
Qed.
End probes.

(** ** The watchdog *)

(** The report a pool is due. A pool with no heartbeat is due none, however
    long the run has lasted: only [/livez] measures it from the start. *)
Definition silence (h : list Recording) (now deadline : Z) (pool : string) : option Notification :=
  at_ ← last_of (heartbeat_of pool) h;
  if deadline <? now - at_ then Some (stalled_note pool (now - at_) deadline) else None.

Definition noted (tr : list WatchObs) : list Notification :=
  omap (λ o, match o with ONotify n _ => Some n | _ => None end) tr.

(** Every status of [tr] is the recorder's after [h]. *)
Definition tells (h : list Recording) (tr : list WatchObs) : Prop :=
  ∀ pool status, OStatus pool status ∈ tr → status = pool_status (recorded h) pool.

Lemma tells_app h tr1 tr2 : tells h (tr1 ++ tr2) ↔ tells h tr1 ∧ tells h tr2.
Proof. unfold tells. setoid_rewrite elem_of_app. naive_solver. Qed.

Lemma noted_app tr1 tr2 : noted (tr1 ++ tr2) = noted tr1 ++ noted tr2.
Proof. apply omap_app. Qed.

Lemma watch_pools_notes h now deadline pools reported :
  0 ≤ deadline →
  returns watch_log (watch_pools pools deadline now reported) (λ tr _,
    tells h tr → noted tr = omap (silence h now deadline) pools).
Proof.
  intros Hd. revert reported. induction pools as [|pool pools IH]; intros reported.
  { by apply returns_ret. }
  cbn [watch_pools]. eapply returns_bind.
  { by apply (returns_perform _ _ (λ tr status, tr = [OStatus pool status])). }
  intros status tr1 ->. destruct (recorded_gauges h) as [Hp Hg].
  destruct (pool_status_gauges (recorded h) pool Hp) as (_ & Hb & _).
  rewrite (Hg pool) in Hb. simpl in Hb.
  assert (∀ tr, tells h ([OStatus pool status] ++ tr) →
    (status ≫= ps_heartbeat) = last_of (heartbeat_of pool) h ∧ tells h tr) as Htold.
  { intros tr [Ht1 Ht2]%tells_app. split; [|done]. rewrite (Ht1 pool status) by left. done. }
  assert (omap (silence h now deadline) (pool :: pools) =
    match (last_of (heartbeat_of pool) h ≫= λ at_,
      if deadline <? now - at_ then Some (stalled_note pool (now - at_) deadline) else None)
    with Some n => n :: omap (silence h now deadline) pools | None => omap (silence h now deadline) pools
    end) as Hs by done.
  destruct (status ≫= ps_heartbeat) as [last|] eqn:Hlast.
  2:{ eapply returns_weaken; [apply IH|]. intros tr r Htr Ht. apply Htold in Ht as [He Ht].
      rewrite noted_app, (Htr Ht). rewrite Hs, <-He. done. }
  unfold duration_since. destruct (Z.ltb_spec deadline (Z.max (now - last) 0)).
  - eapply returns_bind.
    { by apply (returns_perform _ _ (λ tr d,
        tr = [ONotify (stalled_note pool (Z.max (now - last) 0) deadline) d])). }
    intros d tr2 ->. eapply returns_weaken; [apply IH|]. intros tr r Htr Ht.
    apply Htold in Ht as [He Ht]. apply tells_app in Ht as [_ Ht].
    rewrite !noted_app, (Htr Ht). rewrite Hs, <-He. simpl.
    rewrite Z.max_l by lia. by rewrite (proj2 (Z.ltb_lt _ _)) by lia.
  - eapply returns_weaken; [apply IH|]. intros tr r Htr Ht. apply Htold in Ht as [He Ht].
    rewrite noted_app, (Htr Ht). rewrite Hs, <-He. simpl.
    by rewrite (proj2 (Z.ltb_ge _ _)) by lia.
Qed.

(** A pass is told to stop, or reads the clock once, reports, and waits. *)
Definition watched (h : list Recording) (deadline : Z) (pools : list string) (tr : list WatchObs) : Prop :=
  tr = [OWatchShutdown true] ∨
  ∃ now reports stop,
    tr = OWatchShutdown false :: ONow now :: reports ++ [OWait stop] ∧
    (tells h tr → noted tr = omap (silence h now deadline) pools).

Lemma watch_pass_watched h deadline pools reported :
  0 ≤ deadline → returns watch_log (watch_pass pools deadline reported) (λ tr _, watched h deadline pools tr).
Proof.
  intros Hd. unfold watch_pass. eapply returns_bind.
  { by apply (returns_perform _ _ (λ tr stop, tr = [OWatchShutdown stop])). }
  intros stop tr1 ->. destruct stop; [apply returns_ret; by left|].
  eapply returns_bind; [by apply (returns_perform _ _ (λ tr now, tr = [ONow now]))|].
  intros now tr2 ->. eapply returns_bind; [by apply watch_pools_notes|].
  intros reported' reports Hr. eapply returns_bind.
  { by apply (returns_perform _ _ (λ tr stop, tr = [OWait stop])). }
  intros stop tr3 ->.
  assert (watched h deadline pools ([OWatchShutdown false] ++ [ONow now] ++ reports ++ [OWait stop]))
    as Hw.
  { right. exists now, reports, stop. split; [done|]. intros Ht.
    change (noted (reports ++ [OWait stop]) = omap (silence h now deadline) pools).
    rewrite noted_app. simpl. rewrite app_nil_r. apply Hr. intros pool status Hin. apply Ht.
    do 2 right. apply elem_of_app. by left. }
  destruct stop; apply returns_ret; simpl; exact Hw.
Qed.


Definition sample_calls : list Recording :=
  [RecHead "CPOOL" 100 7; RecProcessed "CPOOL" 99; RecHeartbeat "CPOOL" 8 8; RecFill Succeeded;
   RecProfit (-5); RecProfit 12].

