(* ===== verification/Client.v ===== *)
(** * The RPC client ([src/chain/rpc.rs])

    One JSON-RPC call and the methods made of it: what is sent, and what is
    read out of the answer. The HTTP client, the JSON reader and the codecs of
    [stellar_xdr] are a class; batched ledger reads are in [Rpc]. *)

From S2P Require Import Prelude Fixed Encode Chain Operations Decode Io Rpc Store Settings Poller.
From Stdlib Require Import Ascii.
From stdpp Require Import pretty.
Open Scope Z_scope.

Definition IDS_PER_FILTER : nat := 5.
Definition FILTERS_PER_CALL : nat := 5.

(** ** The wire *)

(** An integer field that comes as a number or as a string. *)
Inductive RawNumber : Type := FieldNumber (n : Z) | FieldText (text : string).

Record RawHealth : Type := mkRawHealth {
  rh_status : string;
  rh_latest_ledger : Z;
  rh_latest_ledger_close_time : RawNumber;
  rh_oldest_ledger : Z;
  rh_ledger_retention_window : Z;
}.

Record RawLatest : Type := mkRawLatest {
  rl_sequence : Z;
  rl_protocol_version : Z;
  rl_close_time : RawNumber;
}.

Record RawFeeStats : Type := mkRawFeeStats {
  rf_p70 : string;
  rf_p90 : string;
  rf_latest_ledger : Z;
}.

Record RawEvent : Type := mkRawEvent {
  rv_ledger : Z;
  rv_id : string;
  rv_tx_hash : string;
  rv_contract_id : string;
  rv_in_successful_contract_call : bool;
  rv_topic : list string;
  rv_value : string;
}.

Record RawEvents : Type := mkRawEvents {
  rvs_latest_ledger : Z;
  rvs_cursor : option string;
  rvs_events : list RawEvent;
}.

Record RawSimulationResult : Type := mkRawSimulationResult {
  rr_auth : list string;
  rr_xdr : string;
}.

Record RawPreamble : Type := mkRawPreamble {
  rpr_min_resource_fee : string;
  rpr_transaction_data : string;
}.

Record RawSimulation : Type := mkRawSimulation {
  rs_latest_ledger : Z;
  rs_error : option string;
  rs_min_resource_fee : option string;
  rs_transaction_data : option string;
  rs_results : list RawSimulationResult;
  rs_restore_preamble : option RawPreamble;
  rs_events : list string;
}.

Record RawSend : Type := mkRawSend {
  rd_status : string;
  rd_hash : string;
  rd_latest_ledger : Z;
  rd_error_result_xdr : option string;
  rd_diagnostic_events_xdr : list string;
}.

Record RawTransaction : Type := mkRawTransaction {
  rt_status : string;
  rt_latest_ledger : Z;
  rt_oldest_ledger : Z;
  rt_ledger : option Z;
  rt_result_xdr : option string;
  rt_result_meta_xdr : option string;
  rt_diagnostic_events_xdr : list string;
}.

(** The methods, and the shape each answers in. *)
Inductive Method : Type :=
| GetHealth | GetLatestLedger | GetLedgerEntries | GetFeeStats | GetEvents
| SimulateTransaction | SendTransaction | GetTransaction.

Definition method_name (m : Method) : string :=
  match m with
  | GetHealth => "getHealth" | GetLatestLedger => "getLatestLedger"
  | GetLedgerEntries => "getLedgerEntries" | GetFeeStats => "getFeeStats"
  | GetEvents => "getEvents" | SimulateTransaction => "simulateTransaction"
  | SendTransaction => "sendTransaction" | GetTransaction => "getTransaction"
  end.

Definition Raw (m : Method) : Type :=
  match m with
  | GetHealth => RawHealth | GetLatestLedger => RawLatest | GetLedgerEntries => RawEntries
  | GetFeeStats => RawFeeStats | GetEvents => RawEvents | SimulateTransaction => RawSimulation
  | SendTransaction => RawSend | GetTransaction => RawTransaction
  end.

(** The parameters, as the object each method is sent. *)
Inductive RpcParams : Type :=
| PEmpty
| PKeys (keys : list string)
| PEvents (filters : list (list string)) (limit : Z) (start_ledger : option Z) (cursor : option string)
| PTransaction (envelope : string)
| PHash (hash : string).

Record JsonRpcResponse (R : Type) : Type := mkJsonRpcResponse {
  jr_result : option R;
  jr_error : option (Z * string);
}.
#[global] Arguments mkJsonRpcResponse {_}.
#[global] Arguments jr_result {_}.
#[global] Arguments jr_error {_}.

(** What a [match] sees of a [TransactionMeta]: V4's Soroban meta with its
    optional return value, V3's with both of what it holds. *)
Inductive MetaCase (Val Diagnostic : Type) : Type :=
| MetaV4 (soroban : option (option Val)) (diagnostic_events : list Diagnostic)
| MetaV3 (soroban : option (Val * list Diagnostic))
| MetaOther.
#[global] Arguments MetaV4 {_ _}.
#[global] Arguments MetaV3 {_ _}.
#[global] Arguments MetaOther {_ _}.

Class Wire `{ScDecode} : Type := {
  (** [serde_json::from_str] of an answer, at the method's shape. *)
  from_json : ∀ m : Method, string → result string (JsonRpcResponse (Raw m));
  (** The text of the error a field's own reader makes of a body. *)
  field_error : string → string;
  (** [{:?}] of a string. *)
  debug_str : string → string;
  (** [from_base64] and [to_base64], at the types the client names. *)
  scval_from_base64 : string → result XdrLibraryError ScVal;
  data_from_base64 : string → result XdrLibraryError SorobanTransactionData;
  auth_from_base64 : string → result XdrLibraryError SorobanAuthorizationEntry;
  diagnostic_from_base64 : string → result XdrLibraryError DiagnosticEvent;
  result_from_base64 : string → result XdrLibraryError TransactionResult;
  TransactionMeta : Type;
  meta_from_base64 : string → result XdrLibraryError TransactionMeta;
  envelope_to_base64 : TransactionEnvelope → result XdrLibraryError string;
  meta_case : TransactionMeta → MetaCase ScVal DiagnosticEvent;
  (** The topics of a diagnostic event, and [ScError::Contract]'s code. *)
  diagnostic_topics : DiagnosticEvent → list ScVal;
  scv_contract_error : ScVal → option Z;
  (** [AccountId]'s [FromStr], the account's key, an account entry's
      sequence number. *)
  account_key : string → option LedgerKey;
  account_sequence : LedgerEntryData → option Z;
}.

Section client.
Context `{Wire}.

(** ** One call *)

(** A request that was sent answers a status, and then a body. *)
Variant ClientE : Type → Type :=
| Post (m : Method) (params : RpcParams)
  : ClientE (result TransportError (Z * result TransportError string)).

Inductive ClientObs : Type :=
| OPost (m : Method) (params : RpcParams) (answer : result TransportError (Z * result TransportError string)).

Definition client_log (X : Type) (e : ClientE X) : X → ClientObs :=
  match e in ClientE X return X → ClientObs with Post m params => OPost m params end.

Abbreviation prog A := (io ClientE (result ChainError A)).

Local Open Scope string_scope.

Definition unsigned_from_str (most : Z) (text : string) : option Z :=
  within 0 most (match text with String "+"%char digits => dec_number digits | _ => dec_number text end).

(** [number_or_string]. *)
Definition number_or_string (raw : RawNumber) : option Z :=
  match raw with FieldNumber n => Some n | FieldText text => unsigned_from_str u64_max text end.

(** The fields of a result that have a reader of their own. *)
Definition fields_read (m : Method) : Raw m → bool :=
  match m with
  | GetHealth => λ raw, bool_decide (is_Some (number_or_string (rh_latest_ledger_close_time raw)))
  | GetLatestLedger => λ raw, bool_decide (is_Some (number_or_string (rl_close_time raw)))
  | _ => λ _, true
  end.

(** [RpcClient::call]: what it makes of an answer. *)
Definition read_answer (m : Method)
    (answer : result TransportError (Z * result TransportError string))
  : result ChainError (Raw m) :=
  let? (status, body) := map_err Transport answer in
  if negb ((200 <=? status)%Z && (status <? 300)%Z) then Err (Http status)
  else
    let? text := map_err Transport body in
    let? body := map_err (λ error, Shape (method_name m +:+ ": " +:+ error)) (from_json m text) in
    guard match jr_result body with Some raw => fields_read m raw | None => true end
      else Shape (method_name m +:+ ": " +:+ field_error text);
    match jr_error body, jr_result body with
    | Some (code, message), _ => Err (Rpc code message)
    | None, Some result => Ok result
    | None, None => Err (Shape (method_name m +:+ ": neither result nor error in the response"))
    end.

Definition call (m : Method) (params : RpcParams) : prog (Raw m) :=
  await answer := perform (Post m params) in Ret (read_answer m answer).

(** ** Reading fields *)

Definition of_xdr {A : Type} (r : result XdrLibraryError A) : result ChainError A :=
  map_err XdrFailure (map_err Encode.Xdr r).

Definition i64_from_str (text : string) : option Z :=
  within (- 2 ^ 63) (2 ^ 63 - 1)
    (match text with
     | String "+"%char digits => dec_number digits
     | String "-"%char digits => Z.opp <$> dec_number digits
     | _ => dec_number text
     end).

(** [RpcClient::health], [RpcClient::latest_ledger]; the call has read their
    close times. *)
Definition health : prog Health :=
  await? raw := call GetHealth PEmpty in
  Ret (Ok (mkHealth (rh_status raw) (rh_latest_ledger raw)
    (default 0%Z (number_or_string (rh_latest_ledger_close_time raw))) (rh_oldest_ledger raw)
    (rh_ledger_retention_window raw))).
Definition latest_ledger : prog LatestLedger :=
  await? raw := call GetLatestLedger PEmpty in
  Ret (Ok (mkLatestLedger (rl_sequence raw) (rl_protocol_version raw)
    (default 0%Z (number_or_string (rl_close_time raw))))).

(** [RpcClient::fee_stats]. *)
Definition percentile (name text : string) : result ChainError Z :=
  ok_or (parse_u32 text) (Shape ("fee percentile " +:+ name +:+ " = " +:+ debug_str text)).
Definition fee_stats : prog FeeStats :=
  await? raw := call GetFeeStats PEmpty in
  Ret (let? p70 := percentile "p70" (rf_p70 raw) in
       let? p90 := percentile "p90" (rf_p90 raw) in
       Ok (mkFeeStats p70 p90 (rf_latest_ledger raw))).

(** ** Events *)

Definition event_of (raw : RawEvent) : result ChainError Event :=
  let? topics := collect (λ topic, of_xdr (scval_from_base64 topic)) (rv_topic raw) in
  let? hash := from_hex debug_str (rv_tx_hash raw) in
  let? value := of_xdr (scval_from_base64 (rv_value raw)) in
  Ok (mkEvent (rv_ledger raw) (rv_id raw) hash (rv_contract_id raw)
    (rv_in_successful_contract_call raw) topics value).

(** [RpcClient::events]: the parameters of a query. *)
Definition event_params (query : EventQuery) : result ChainError RpcParams :=
  if (eq_limit query =? 0)%Z || (10000 <? eq_limit query)%Z then
    Err (Config "getEvents limit is 1 to 10000")
  else
    let filters := chunks IDS_PER_FILTER (eq_contract_ids query) in
    if bool_decide (filters = []) || (FILTERS_PER_CALL <? length filters)%nat then
      Err (Config "getEvents takes 1 to 25 contract ids")
    else
      match eq_start_ledger query, eq_cursor query with
      | Some start, None => Ok (PEvents filters (eq_limit query) (Some start) None)
      | None, Some cursor => Ok (PEvents filters (eq_limit query) None (Some cursor))
      | _, _ => Err (Config "getEvents needs a start ledger or a cursor, not both")
      end.

Definition events (query : EventQuery) : prog Events :=
  await? params := Ret (event_params query) in
  await? raw := call GetEvents params in
  Ret (let? events := collect event_of (rvs_events raw) in
       Ok (mkEvents (rvs_latest_ledger raw) (rvs_cursor raw) events)).

(** ** Contract errors *)

Definition is_error_symbol (v : ScVal) : bool :=
  match scv_case v with
  | CaseSymbol name => bool_decide (sc_symbol_text name = "error")
  | _ => false
  end.

Definition contract_error_of (event : DiagnosticEvent) : option Z :=
  match diagnostic_topics event with
  | name :: error :: _ => if is_error_symbol name then scv_contract_error error else None
  | _ => None
  end.

(** [contract_error_in_events]. *)
Fixpoint contract_error_in_events (events : list DiagnosticEvent) : option Z :=
  match events with
  | [] => None
  | event :: events =>
      match contract_error_of event with
      | Some code => Some code
      | None => contract_error_in_events events
      end
  end.

Fixpoint text_after_prefix (prefix text : string) : option string :=
  match prefix, text with
  | EmptyString, _ => Some text
  | String a prefix, String b text => if Ascii.eqb a b then text_after_prefix prefix text else None
  | String _ _, EmptyString => None
  end.

(** [str::find], and what follows what was found. *)
Fixpoint after (marker text : string) : option string :=
  match text_after_prefix marker text with
  | Some rest => Some rest
  | None => match text with EmptyString => None | String _ text => after marker text end
  end.

Definition MARKER : string := "Error(Contract, #".

(** [contract_error_in_message]. *)
Definition contract_error_in_message (message : string) : option Z :=
  rest ← after MARKER message;
  '(digits, _) ← split_once ")"%char rest;
  parse_u32 digits.

Definition decode_events (events : list string) : result ChainError (list DiagnosticEvent) :=
  collect (λ event, of_xdr (diagnostic_from_base64 event)) events.

(** ** Simulating, sending, looking up *)

Definition parse_i64 (name text : string) : result ChainError Z :=
  ok_or (i64_from_str text) (Shape (name +:+ " = " +:+ debug_str text +:+ " is not an integer")).

Definition simulation_missing (field : string) : ChainError :=
  Shape ("simulation without " +:+ field).

Definition preamble_of (preamble : RawPreamble) : result ChainError RestorePreamble :=
  let? data := of_xdr (data_from_base64 (rpr_transaction_data preamble)) in
  let? fee := parse_i64 "restorePreamble.minResourceFee" (rpr_min_resource_fee preamble) in
  Ok (mkRestorePreamble data fee).

(** [Option::transpose]. *)
Definition transpose {E A B : Type} (f : A → result E B) (o : option A) : result E (option B) :=
  match o with None => Ok None | Some a => let? b := f a in Ok (Some b) end.

(** [RpcClient::simulate], over the answer. *)
Definition simulation_of (raw : RawSimulation) : result ChainError Simulation :=
  let? events := decode_events (rs_events raw) in
  match rs_error raw with
  | Some message =>
      let contract_error :=
        match contract_error_in_events events with
        | Some code => Some code
        | None => contract_error_in_message message
        end in
      Ok (mkSimulation (rs_latest_ledger raw) events (SimFailure message contract_error))
  | None =>
      let? result := ok_or (head (rs_results raw)) (simulation_missing "results") in
      let? auth := collect (λ entry, of_xdr (auth_from_base64 entry)) (rr_auth result) in
      let? restore := transpose preamble_of (rs_restore_preamble raw) in
      let? return_value := of_xdr (scval_from_base64 (rr_xdr result)) in
      let? data := ok_or (rs_transaction_data raw) (simulation_missing "transactionData") in
      let? data := of_xdr (data_from_base64 data) in
      let? fee := ok_or (rs_min_resource_fee raw) (simulation_missing "minResourceFee") in
      let? fee := parse_i64 "minResourceFee" fee in
      Ok (mkSimulation (rs_latest_ledger raw) events
        (SimSuccess (mkSimulatedCall return_value auth data fee restore)))
  end.

Definition simulate (envelope : TransactionEnvelope) : prog Simulation :=
  await? text := Ret (of_xdr (envelope_to_base64 envelope)) in
  await? raw := call SimulateTransaction (PTransaction text) in
  Ret (simulation_of raw).

(** [RpcClient::send], over the answer. *)
Definition send_outcome_of (raw : RawSend) : result ChainError SendOutcome :=
  if bool_decide (rd_status raw = "PENDING") then Ok Pending
  else if bool_decide (rd_status raw = "DUPLICATE") then Ok Duplicate
  else if bool_decide (rd_status raw = "TRY_AGAIN_LATER") then Ok TryAgainLater
  else if bool_decide (rd_status raw = "ERROR") then
    let? result := transpose (λ text, of_xdr (result_from_base64 text)) (rd_error_result_xdr raw) in
    let? events := decode_events (rd_diagnostic_events_xdr raw) in
    Ok (SendError result (contract_error_in_events events))
  else Err (Shape ("sendTransaction status " +:+ debug_str (rd_status raw))).

Definition send_status_of (raw : RawSend) : result ChainError SendStatus :=
  let? outcome := send_outcome_of raw in
  let? hash := from_hex debug_str (rd_hash raw) in
  Ok (mkSendStatus hash (rd_latest_ledger raw) outcome).

Definition send (envelope : TransactionEnvelope) : prog SendStatus :=
  await? text := Ret (of_xdr (envelope_to_base64 envelope)) in
  await? raw := call SendTransaction (PTransaction text) in
  Ret (send_status_of raw).

Definition return_value (meta : TransactionMeta) : option ScVal :=
  match meta_case meta with
  | MetaV4 (Some value) _ => value
  | MetaV3 (Some (value, _)) => Some value
  | _ => None
  end.

Definition meta_diagnostics (meta : TransactionMeta) : list DiagnosticEvent :=
  match meta_case meta with
  | MetaV4 _ events => events
  | MetaV3 (Some (_, events)) => events
  | _ => []
  end.

(** [RpcClient::transaction], over the answer. *)
Definition transaction_of (raw : RawTransaction) : result ChainError TransactionStatus :=
  let latest_ledger := rt_latest_ledger raw in
  if bool_decide (rt_status raw = "NOT_FOUND") then
    Ok (NotFound latest_ledger (rt_oldest_ledger raw))
  else
    let missing field := Shape (rt_status raw +:+ " without " +:+ field) in
    let? ledger :=
      ok_or (rt_ledger raw ≫= λ ledger, if (0 <? ledger)%Z then Some ledger else None)
        (missing "ledger") in
    let? meta := ok_or (rt_result_meta_xdr raw) (missing "resultMetaXdr") in
    let? meta := of_xdr (meta_from_base64 meta) in
    if bool_decide (rt_status raw = "SUCCESS") then
      Ok (Success ledger latest_ledger (return_value meta))
    else if bool_decide (rt_status raw = "FAILED") then
      let? result := ok_or (rt_result_xdr raw) (missing "resultXdr") in
      let? result := of_xdr (result_from_base64 result) in
      let? events := decode_events (rt_diagnostic_events_xdr raw) in
      Ok (Failed ledger latest_ledger result
        (contract_error_in_events (events ++ meta_diagnostics meta)%list))
    else Err (Shape ("getTransaction status " +:+ debug_str (rt_status raw))).

Definition transaction (hash : TxHash) : prog TransactionStatus :=
  await? raw := call GetTransaction (PHash (to_hex hash)) in
  Ret (transaction_of raw).

(** ** The account *)

(** The answer of [Rpc]'s environment, through a call. *)
Definition get_entries (keys : list string) : prog RawEntries := call GetLedgerEntries (PKeys keys).

(** [RpcClient::account], once its entry was read ([Rpc.ledger_entries] of the
    one key). *)
Definition account_of (account : string) (key : LedgerKey) (entries : LedgerEntries)
  : result ChainError Account :=
  let? entry := get entries key in
  match entry with
  | None => Err (NoAccount account)
  | Some entry =>
      match account_sequence (le_data entry) with
      | Some sequence => Ok (mkAccount sequence (les_latest_ledger entries))
      | None =>
          Err (Shape ("account key returned a non-account entry: " +:+ debug_entry (le_data entry)))
      end
  end.

Definition account (address : string) : io ReadE (result ChainError Account) :=
  await? key := Ret (ok_or (account_key address) (XdrFailure (XdrAddress address))) in
  await? entries := ledger_entries [key] in
  Ret (account_of address key entries).

Local Close Scope string_scope.
End client.
