(* ===== verification/ClientContract.v ===== *)
(** * What the RPC client makes of an answer

    A method's result is what the answer says and nothing else: the relations
    below say, of an answer's body, which outcome it tells, and a method
    answers that outcome exactly when it was told it. *)

From S2P Require Import Prelude Fixed Encode Chain Operations Decode Io Rpc Store Settings Poller Client.
From Stdlib Require Import Ascii.
From stdpp Require Import pretty.
Open Scope Z_scope.

Section told.
Context `{Wire}.

(** The body a successful HTTP answer carries for the method. *)
Definition served (m : Method) (answer : result TransportError (Z * result TransportError string))
    (raw : Raw m) : Prop :=
  ∃ status text body, answer = Ok (status, Ok text) ∧ 200 ≤ status < 300 ∧
    from_json m text = Ok body ∧ jr_error body = None ∧ jr_result body = Some raw ∧
    fields_read m raw = true.

(** A diagnostic event that raises a contract error, and the first of many. *)
Definition raises (event : DiagnosticEvent) (code : Z) : Prop :=
  ∃ name error rest symbol, diagnostic_topics event = name :: error :: rest ∧
    scv_case name = CaseSymbol symbol ∧ sc_symbol_text symbol = "error"%string ∧
    scv_contract_error error = Some code.

Definition quiet (event : DiagnosticEvent) : Prop := ∀ code, ¬ raises event code.

Definition first_error (events : list DiagnosticEvent) (o : option Z) : Prop :=
  match o with
  | Some code => ∃ before event after,
      events = before ++ event :: after ∧ raises event code ∧ Forall quiet before
  | None => Forall quiet events
  end.

(** A text that names a contract error: the first marker, digits and the first
    parenthesis after it. *)
Definition first_at (marker text before rest : string) : Prop :=
  text = before +:+ marker +:+ rest ∧
  ∀ before' rest', text = before' +:+ marker +:+ rest' →
    (String.length before ≤ String.length before')%nat.

Definition names_code (message : string) (code : Z) : Prop :=
  ∃ before digits rest, first_at MARKER message before (digits +:+ ")" +:+ rest) ∧
    split_once ")"%char digits = None ∧ parse_u32 digits = Some code.

Definition decoded {A : Type} (decode : string → result XdrLibraryError A) : string → A → Prop :=
  λ text a, decode text = Ok a.

Definition optionally {A B : Type} (R : A → B → Prop) (o : option A) (p : option B) : Prop :=
  option_relation R (λ _, False) (λ _, False) o p.

(** [getTransaction]. *)
Inductive transaction_told (raw : RawTransaction) : TransactionStatus → Prop :=
| told_not_found :
    rt_status raw = "NOT_FOUND"%string →
    transaction_told raw (NotFound (rt_latest_ledger raw) (rt_oldest_ledger raw))
| told_success ledger text meta :
    rt_status raw = "SUCCESS"%string → rt_ledger raw = Some ledger → 0 < ledger →
    rt_result_meta_xdr raw = Some text → meta_from_base64 text = Ok meta →
    transaction_told raw (Success ledger (rt_latest_ledger raw) (return_value meta))
| told_failed ledger text meta result_text result events code :
    rt_status raw = "FAILED"%string → rt_ledger raw = Some ledger → 0 < ledger →
    rt_result_meta_xdr raw = Some text → meta_from_base64 text = Ok meta →
    rt_result_xdr raw = Some result_text → result_from_base64 result_text = Ok result →
    Forall2 (decoded diagnostic_from_base64) (rt_diagnostic_events_xdr raw) events →
    first_error (events ++ meta_diagnostics meta) code →
    transaction_told raw (Failed ledger (rt_latest_ledger raw) result code).

(** [sendTransaction]. *)
Inductive outcome_told (raw : RawSend) : SendOutcome → Prop :=
| told_pending : rd_status raw = "PENDING"%string → outcome_told raw Pending
| told_duplicate : rd_status raw = "DUPLICATE"%string → outcome_told raw Duplicate
| told_try_again : rd_status raw = "TRY_AGAIN_LATER"%string → outcome_told raw TryAgainLater
| told_error result events code :
    rd_status raw = "ERROR"%string →
    optionally (decoded result_from_base64) (rd_error_result_xdr raw) result →
    Forall2 (decoded diagnostic_from_base64) (rd_diagnostic_events_xdr raw) events →
    first_error events code →
    outcome_told raw (SendError result code).

Definition send_told (raw : RawSend) (status : SendStatus) : Prop :=
  outcome_told raw (ss_outcome status) ∧ ss_latest_ledger status = rd_latest_ledger raw ∧
  from_hex debug_str (rd_hash raw) = Ok (ss_hash status).

(** [simulateTransaction]. *)
Definition preamble_told (raw : RawPreamble) (preamble : RestorePreamble) : Prop :=
  data_from_base64 (rpr_transaction_data raw) = Ok (rp_transaction_data preamble) ∧
  i64_from_str (rpr_min_resource_fee raw) = Some (rp_min_resource_fee preamble).

Inductive simulation_told (raw : RawSimulation) : SimulationOutcome → list DiagnosticEvent → Prop :=
| told_refusal message events code named :
    rs_error raw = Some message → first_error events code →
    (∀ c, named = Some c ↔ names_code message c) →
    simulation_told raw
      (SimFailure message (match code with Some c => Some c | None => named end)) events
| told_call result rest data fee call events :
    rs_error raw = None → rs_results raw = result :: rest →
    Forall2 (decoded auth_from_base64) (rr_auth result) (sc_auth call) →
    optionally preamble_told (rs_restore_preamble raw) (sc_restore call) →
    scval_from_base64 (rr_xdr result) = Ok (sc_return_value call) →
    rs_transaction_data raw = Some data → data_from_base64 data = Ok (sc_transaction_data call) →
    rs_min_resource_fee raw = Some fee → i64_from_str fee = Some (sc_min_resource_fee call) →
    simulation_told raw (SimSuccess call) events.

Definition simulate_told (raw : RawSimulation) (simulation : Simulation) : Prop :=
  sim_latest_ledger simulation = rs_latest_ledger raw ∧
  Forall2 (decoded diagnostic_from_base64) (rs_events raw) (sim_events simulation) ∧
  simulation_told raw (sim_outcome simulation) (sim_events simulation).

(** [getEvents]: what may be asked — the limit is unsigned — and what a page
    tells. *)
Definition askable (query : EventQuery) : Prop :=
  (eq_limit query ≠ 0 ∧ eq_limit query ≤ 10000) ∧ (1 ≤ length (eq_contract_ids query) ≤ 25)%nat ∧
  (is_Some (eq_start_ledger query) ↔ ¬ is_Some (eq_cursor query)).

Definition event_told (raw : RawEvent) (event : Event) : Prop :=
  ev_ledger event = rv_ledger raw ∧ ev_id event = rv_id raw ∧
  from_hex debug_str (rv_tx_hash raw) = Ok (ev_tx_hash event) ∧
  ev_contract_id event = rv_contract_id raw ∧
  ev_in_successful_contract_call event = rv_in_successful_contract_call raw ∧
  Forall2 (decoded scval_from_base64) (rv_topic raw) (ev_topics event) ∧
  scval_from_base64 (rv_value raw) = Ok (ev_value event).

Definition page_told (raw : RawEvents) (page : Events) : Prop :=
  evs_latest_ledger page = rvs_latest_ledger raw ∧ evs_cursor page = rvs_cursor raw ∧
  Forall2 event_told (rvs_events raw) (evs_events page).

(** ** One call *)

Lemma read_answer_iff m answer raw : read_answer m answer = Ok raw ↔ served m answer raw.
Proof.
  unfold read_answer, served. split.
  - intros Hr. destruct answer as [ [status body]|e]; simpl in Hr; [|done].
    destruct ((200 <=? status) && (status <? 300)) eqn:Hs; simpl in Hr; [|done].
    destruct body as [text|e]; simpl in Hr; [|done].
    destruct (from_json m text) as [body|e] eqn:Hj; simpl in Hr; [|done].
    destruct (jr_result body) as [result|] eqn:Hres; simpl in Hr.
    2:{ destruct (jr_error body) as [ [code message]|]; done. }
    destruct (fields_read m result) eqn:Hread; [|done].
    destruct (jr_error body) as [ [code message]|] eqn:He; [done|]. simplify_eq.
    exists status, text, body. split_and!; try done; lia.
  - intros (status & text & body & -> & Hs & Hj & He & Hr & Hread). simpl.
    replace ((200 <=? status) && (status <? 300)) with true by lia. simpl.
    rewrite Hj. simpl. by rewrite He, Hr, Hread.
Qed.

Lemma served_unique m answer raw raw' : served m answer raw → served m answer raw' → raw = raw'.
Proof. rewrite <-!read_answer_iff. congruence. Qed.

(** A method that makes one call and reads its body. *)
Lemma call_reads {A : Type} m params (f : Raw m → result ChainError A) (T : Raw m → A → Prop) :
  (∀ raw a, f raw = Ok a ↔ T raw a) →
  returns client_log (try_await (call m params) (λ raw, Ret (f raw))) (λ tr r, ∃ answer,
    tr = [OPost m params answer] ∧ ∀ a, r = Ok a ↔ ∃ raw, served m answer raw ∧ T raw a).
Proof.
  intros Hf. eapply returns_try with (P := λ tr r, ∃ answer,
    tr = [OPost m params answer] ∧ r = read_answer m answer).
  - unfold call. eapply returns_bind.
    { by apply (returns_perform _ _ (λ tr answer, tr = [OPost m params answer])). }
    intros answer tr ->. apply returns_ret. by exists answer.
  - intros tr e (answer & -> & He). exists answer. split; [done|]. intros a.
    setoid_rewrite <-read_answer_iff. rewrite <-He. naive_solver.
  - intros raw tr (answer & -> & Hr). apply returns_ret. exists answer. rewrite app_nil_r.
    split; [done|]. intros a. setoid_rewrite <-read_answer_iff. rewrite <-Hr, Hf. naive_solver.
Qed.

(** ** Lists and options of decoded texts *)

Lemma of_xdr_ok {A} (r : result XdrLibraryError A) a : of_xdr r = Ok a ↔ r = Ok a.
Proof. unfold of_xdr. destruct r; simpl; split; intros; by simplify_eq/=. Qed.

Lemma collect_iff {E A B} (f : A → result E B) (R : A → B → Prop) l bs :
  (∀ a b, f a = Ok b ↔ R a b) → collect f l = Ok bs ↔ Forall2 R l bs.
Proof.
  intros Hf. split.
  - intros Hc%collect_ok. eapply Forall2_impl; [exact Hc|]. intros a b. apply Hf.
  - intros HR. unfold collect.
    cut (∀ acc, try_fold (λ bs a, let? b := f a in Ok (bs ++ [b])) acc l = Ok (acc ++ bs)); [done|].
    induction HR as [|a b l bs HR _ IH]; intros acc; simpl; [by rewrite app_nil_r|].
    apply Hf in HR as ->. simpl. rewrite IH. by rewrite <-app_assoc.
Qed.

Lemma transpose_iff {E A B} (f : A → result E B) (R : A → B → Prop) o p :
  (∀ a b, f a = Ok b ↔ R a b) → transpose f o = Ok p ↔ optionally R o p.
Proof.
  intros Hf. unfold transpose, optionally. destruct o as [a|]; simpl.
  - specialize (Hf a). destruct (f a) as [b|e]; simpl; destruct p as [b'|]; simpl;
      try specialize (Hf b'); naive_solver.
  - destruct p; simpl; naive_solver.
Qed.

Lemma decode_events_iff l events :
  decode_events l = Ok events ↔ Forall2 (decoded diagnostic_from_base64) l events.
Proof. apply collect_iff. intros. apply of_xdr_ok. Qed.

(** ** Contract errors *)

Lemma contract_error_of_iff event code : contract_error_of event = Some code ↔ raises event code.
Proof.
  unfold contract_error_of, raises, is_error_symbol. split.
  - intros Hc. destruct (diagnostic_topics event) as [|name [|error rest] ]; [done..|].
    destruct (scv_case name) as [symbol| | | | | | | | | | |] eqn:Hcase; try done.
    case_bool_decide; [|done]. by exists name, error, rest, symbol.
  - intros (name & error & rest & symbol & -> & -> & Hs & Hc). by rewrite bool_decide_true.
Qed.

Lemma first_error_in events : first_error events (contract_error_in_events events).
Proof.
  induction events as [|event events IH]; simpl; [constructor|].
  destruct (contract_error_of event) as [code|] eqn:Hc.
  - exists [], event, events. split_and!; [done|by apply contract_error_of_iff|constructor].
  - assert (quiet event) as Hq.
    { intros code Hr%contract_error_of_iff. congruence. }
    destruct (contract_error_in_events events) as [code|]; simpl in *.
    + destruct IH as (before & e & after & -> & Hr & Hb). exists (event :: before), e, after.
      split_and!; [done|done|by constructor].
    + by constructor.
Qed.

Lemma first_error_unique events o p : first_error events o → first_error events p → o = p.
Proof.
  assert (∀ events code p, first_error events (Some code) → first_error events p → p = Some code)
    as Hs.
  { clear. intros events code p (before & event & after & -> & Hr & Hb). revert p.
    induction Hb as [|e before He Hb IH]; intros p Hp.
    - destruct p as [c|]; simpl in Hp.
      + destruct Hp as ([|e before] & event' & after' & Heq & Hr' & Hb); simplify_eq/=.
        * apply contract_error_of_iff in Hr, Hr'. congruence.
        * apply Forall_cons_1 in Hb as [Hq _]. by apply Hq in Hr.
      + apply Forall_cons_1 in Hp as [Hq _]. by apply Hq in Hr.
    - apply IH. destruct p as [c|]; simpl in *.
      + destruct Hp as ([|e' before'] & event' & after' & Heq & Hr' & Hb'); simplify_eq/=.
        * by apply He in Hr'.
        * exists before', event', after'. split_and!; [done|done|]. by apply Forall_cons_1 in Hb' as [_ ?].
      + by apply Forall_cons_1 in Hp as [_ ?]. }
  intros Ho Hp. destruct o as [c|]; [symmetry; by eapply Hs|].
  destruct p as [c|]; [|done]. by eapply Hs.
Qed.

Lemma first_error_iff events o : first_error events o ↔ o = contract_error_in_events events.
Proof.
  split; [|intros ->; apply first_error_in]. intros Ho. eapply first_error_unique; [exact Ho|].
  apply first_error_in.
Qed.

(** ** A contract error in a text *)

Lemma strip_prefix_iff prefix text rest :
  text_after_prefix prefix text = Some rest ↔ text = prefix +:+ rest.
Proof.
  revert text. induction prefix as [|a prefix IH]; intros text; simpl; [by split; intros; simplify_eq|].
  destruct text as [|b text]; [done|]. destruct (Ascii.eqb_spec a b) as [->|Hab].
  - rewrite IH. split; [by intros ->|]. by intros [= ->].
  - split; [done|]. by intros [= -> _].
Qed.

Lemma app_same_length a b c d :
  a +:+ b = c +:+ d → String.length a = String.length c → a = c ∧ b = d.
Proof.
  revert c. induction a as [|x a IH]; intros [|y c] Heq Hlen; try done.
  injection Heq as -> Heq. injection Hlen as Hlen. by destruct (IH c Heq Hlen) as [-> ->].
Qed.

Lemma first_at_unique marker text b1 r1 b2 r2 :
  first_at marker text b1 r1 → first_at marker text b2 r2 → r1 = r2.
Proof.
  intros [He1 Hm1] [He2 Hm2]. pose proof (Hm1 _ _ He2). pose proof (Hm2 _ _ He1).
  subst text. apply app_same_length in He2 as [_ He2]; [|lia].
  by apply app_same_length in He2 as [_ ?].
Qed.

Lemma after_some marker text rest : after marker text = Some rest → ∃ before, first_at marker text before rest.
Proof.
  revert rest. induction text as [|c text IH]; intros rest; cbn [after].
  - destruct (text_after_prefix marker "") as [r|] eqn:Hs; [|done]. intros [= ->].
    apply strip_prefix_iff in Hs. exists EmptyString. split; [done|]. intros. simpl. lia.
  - destruct (text_after_prefix marker (String c text)) as [r|] eqn:Hs.
    { intros [= ->]. apply strip_prefix_iff in Hs. exists EmptyString. split; [done|].
      intros. simpl. lia. }
    intros (before & Ht & Hmin)%IH. exists (String c before). split; [by rewrite Ht|].
    intros [|c' before'] rest' Heq.
    + assert (text_after_prefix marker (String c text) = Some rest') as Hs' by by apply strip_prefix_iff.
      congruence.
    + injection Heq as _ Heq. apply Hmin in Heq. simpl. lia.
Qed.

Lemma after_none marker text before rest : after marker text = None → text ≠ before +:+ marker +:+ rest.
Proof.
  revert before. induction text as [|c text IH]; intros before; cbn [after];
    destruct (text_after_prefix marker _) as [r|] eqn:Hs; try done; intros Ha Heq.
  - destruct before; [|done]. symmetry in Heq.
    assert (text_after_prefix marker "" = Some rest) by by apply strip_prefix_iff. congruence.
  - destruct before as [|c' before].
    + assert (text_after_prefix marker (String c text) = Some rest) by by apply strip_prefix_iff.
      congruence.
    + injection Heq as _ Heq. by eapply IH.
Qed.

Lemma after_iff marker text rest :
  after marker text = Some rest ↔ ∃ before, first_at marker text before rest.
Proof.
  split; [apply after_some|]. intros (before & Hf). destruct (after marker text) as [r|] eqn:Ha.
  - apply after_some in Ha as [b Hb]. f_equal. by eapply first_at_unique.
  - destruct Hf as [Heq _]. by eapply after_none in Ha.
Qed.

Lemma split_once_iff c text before rest :
  split_once c text = Some (before, rest) ↔
  text = before +:+ String c rest ∧ split_once c before = None.
Proof.
  revert before. induction text as [|a text IH]; intros before; cbn [split_once].
  { split; [done|]. intros [Heq _]. by destruct before. }
  destruct (Ascii.eqb_spec a c) as [->|Hac].
  - split; [by intros [= <- <-]|]. intros [Heq Hn]. destruct before as [|a before]; [by injection Heq as ->|].
    injection Heq as -> _. cbn [split_once] in Hn. by rewrite Ascii.eqb_refl in Hn.
  - split.
    + destruct (split_once c text) as [ [b r]|] eqn:Hs; [|done]. intros [= <- <-].
      destruct (IH b) as [IHb _]. destruct IHb as [-> Hn]; [done|]. split; [done|].
      cbn [split_once]. rewrite (proj2 (Ascii.eqb_neq a c)) by done. by rewrite Hn.
    + intros [Heq Hn]. destruct before as [|a' before]; injection Heq as -> Heq; [done|].
      cbn [split_once] in Hn. rewrite (proj2 (Ascii.eqb_neq a' c)) in Hn by done.
      destruct (split_once c before) as [ [] |] eqn:Hb; [done|].
      assert (split_once c text = Some (before, rest)) as -> by (apply IH; by split). done.
Qed.

Lemma contract_error_in_message_iff message code :
  contract_error_in_message message = Some code ↔ names_code message code.
Proof.
  unfold contract_error_in_message, names_code. split.
  - intros (text & Ha & Hs)%bind_Some. apply bind_Some in Hs as ( [digits rest] & Hs & Hp).
    apply after_iff in Ha as [before Ha]. apply split_once_iff in Hs as [-> Hn].
    by exists before, digits, rest.
  - intros (before & digits & rest & Hm & Hn & Hp).
    assert (after MARKER message = Some (digits +:+ ")" +:+ rest)) as ->.
    { apply after_iff. by exists before. }
    simpl. assert (split_once ")"%char (digits +:+ ")" +:+ rest) = Some (digits, rest)) as ->.
    { apply split_once_iff. by split. }
    done.
Qed.

(** ** The three outcomes *)

Lemma transaction_of_iff raw status : transaction_of raw = Ok status ↔ transaction_told raw status.
Proof.
  unfold transaction_of. cbn zeta. split.
  - intros Hr. case_bool_decide as Hnf; [simplify_eq; by constructor|].
    destruct (rt_ledger raw) as [ledger|] eqn:Hl; simpl in Hr; [|done].
    destruct (0 <? ledger) eqn:Hpos; simpl in Hr; [|done].
    destruct (rt_result_meta_xdr raw) as [text|] eqn:Hm; simpl in Hr; [|done].
    destruct (meta_from_base64 text) as [meta|] eqn:Hmeta; simpl in Hr; [|done].
    case_bool_decide as Hs; [simplify_eq; econstructor; eauto; lia|].
    case_bool_decide as Hf; [|done].
    destruct (rt_result_xdr raw) as [rtext|] eqn:Hrt; simpl in Hr; [|done].
    destruct (result_from_base64 rtext) as [result|] eqn:Hres; simpl in Hr; [|done].
    destruct (decode_events _) as [events|] eqn:He; simpl in Hr; [|done]. simplify_eq.
    econstructor; eauto; [lia|by apply decode_events_iff|apply first_error_in].
  - intros [Hs|ledger text meta Hs Hl Hpos Hm Hmeta
           |ledger text meta rtext result events code Hs Hl Hpos Hm Hmeta Hrt Hres He Hc].
    + by rewrite bool_decide_true.
    + rewrite !Hs. simpl. rewrite Hl. simpl. rewrite (proj2 (Z.ltb_lt 0 ledger)) by done. simpl.
      rewrite Hm. simpl. by rewrite Hmeta.
    + rewrite !Hs. simpl. rewrite Hl. simpl. rewrite (proj2 (Z.ltb_lt 0 ledger)) by done. simpl.
      rewrite Hm. simpl. rewrite Hmeta. simpl. rewrite Hrt. simpl. rewrite Hres. simpl.
      apply decode_events_iff in He as ->. simpl. by apply first_error_iff in Hc as ->.
Qed.

Lemma send_outcome_of_iff raw outcome : send_outcome_of raw = Ok outcome ↔ outcome_told raw outcome.
Proof.
  unfold send_outcome_of. split.
  - intros Hr. do 3 (case_bool_decide; [simplify_eq; by constructor|]).
    case_bool_decide; [|done].
    destruct (transpose _ _) as [result|] eqn:Ht; simpl in Hr; [|done].
    destruct (decode_events _) as [events|] eqn:He; simpl in Hr; [|done]. simplify_eq.
    econstructor; [done| |by apply decode_events_iff|apply first_error_in].
    eapply transpose_iff; [|exact Ht]. intros. apply of_xdr_ok.
  - intros [Hs|Hs|Hs|result events code Hs Ho He Hc]; rewrite !Hs; simpl; [done..|].
    eapply (transpose_iff (λ text, of_xdr (result_from_base64 text))) in Ho;
      [rewrite Ho|intros; apply of_xdr_ok]. simpl.
    apply decode_events_iff in He as ->. simpl. by apply first_error_iff in Hc as ->.
Qed.

Lemma send_status_of_iff raw status : send_status_of raw = Ok status ↔ send_told raw status.
Proof.
  unfold send_status_of, send_told. destruct status as [hash latest outcome]; simpl.
  rewrite <-send_outcome_of_iff. destruct (send_outcome_of raw) as [o|]; simpl; [|naive_solver].
  destruct (from_hex debug_str (rd_hash raw)) as [h|]; simpl; naive_solver.
Qed.

Lemma preamble_of_iff raw preamble : preamble_of raw = Ok preamble ↔ preamble_told raw preamble.
Proof.
  unfold preamble_of, preamble_told, parse_i64. destruct preamble as [data fee]; simpl.
  destruct (data_from_base64 _) as [d|]; simpl; [|naive_solver].
  destruct (i64_from_str _) as [f|]; simpl; naive_solver.
Qed.

Lemma simulation_of_iff raw simulation :
  simulation_of raw = Ok simulation ↔ simulate_told raw simulation.
Proof.
  destruct simulation as [latest events outcome]. unfold simulation_of, simulate_told. simpl.
  split.
  - intros Hr. destruct (decode_events _) as [events'|] eqn:He; simpl in Hr; [|done].
    apply decode_events_iff in He. destruct (rs_error raw) as [message|] eqn:Herr.
    { simplify_eq. split_and!; [done..|]. apply told_refusal; [done|apply first_error_in|].
      apply contract_error_in_message_iff. }
    destruct (rs_results raw) as [|result rest] eqn:Hres; simpl in Hr; [done|].
    destruct (collect _ (rr_auth result)) as [auth|] eqn:Ha; simpl in Hr; [|done].
    destruct (transpose _ _) as [restore|] eqn:Ht; simpl in Hr; [|done].
    destruct (scval_from_base64 _) as [value|] eqn:Hv; simpl in Hr; [|done].
    destruct (rs_transaction_data raw) as [data|] eqn:Hd; simpl in Hr; [|done].
    destruct (data_from_base64 data) as [d|] eqn:Hdata; simpl in Hr; [|done].
    destruct (rs_min_resource_fee raw) as [fee|] eqn:Hfee; simpl in Hr; [|done].
    unfold parse_i64 in Hr. destruct (i64_from_str fee) as [f|] eqn:Hf; simpl in Hr; [|done].
    simplify_eq. split_and!; [done..|]. econstructor; simpl; eauto.
    + eapply collect_iff; [|exact Ha]. intros. apply of_xdr_ok.
    + eapply transpose_iff; [|exact Ht]. apply preamble_of_iff.
  - intros (-> & He & Ht). apply decode_events_iff in He as ->. simpl.
    destruct Ht as [message events code named Herr Hc Hn|result rest data fee call events Herr Hres Ha Hp Hv Hd Hdata Hfee Hf];
      rewrite Herr.
    + apply first_error_iff in Hc as ->. do 3 f_equal. destruct (contract_error_in_events events); [done|].
      apply option_eq. intros c. rewrite Hn. apply contract_error_in_message_iff.
    + rewrite Hres. simpl.
      eapply (collect_iff (λ entry, of_xdr (auth_from_base64 entry))) in Ha;
        [rewrite Ha|intros; apply of_xdr_ok]. simpl.
      eapply transpose_iff in Hp; [rewrite Hp|apply preamble_of_iff]. simpl.
      rewrite Hv. simpl. rewrite Hd. simpl. rewrite Hdata. simpl. rewrite Hfee. simpl.
      unfold parse_i64. rewrite Hf. by destruct call.
Qed.

(** ** Events *)

Lemma event_of_iff raw event : event_of raw = Ok event ↔ event_told raw event.
Proof.
  unfold event_of, event_told. destruct event as [ledger id hash contract success topics value]. simpl.
  assert (∀ topics, collect (λ topic, of_xdr (scval_from_base64 topic)) (rv_topic raw) = Ok topics ↔
    Forall2 (decoded scval_from_base64) (rv_topic raw) topics) as Ht.
  { intros. apply collect_iff. intros. apply of_xdr_ok. }
  split.
  - intros Hr. destruct (collect _ _) as [topics'|] eqn:Hc; simpl in Hr; [|done].
    destruct (from_hex _ _) as [h|]; simpl in Hr; [|done].
    destruct (scval_from_base64 (rv_value raw)) as [v|]; simpl in Hr; [|done]. simplify_eq.
    split_and!; try done. by apply Ht.
  - intros (-> & -> & Hh & -> & -> & Htopics & Hv). apply Ht in Htopics as ->. simpl.
    rewrite Hh. simpl. by rewrite Hv.
Qed.

Lemma length_chunks_bounds {A} n (l : list A) : (0 < n)%nat →
  (length l ≤ n * length (chunks n l) ∧ n * length (chunks n l) < length l + n)%nat.
Proof.
  intros Hn. unfold chunks.
  cut (∀ fuel (l : list A), (length l ≤ fuel)%nat →
    (length l ≤ n * length (chunks_of fuel n l) ∧ n * length (chunks_of fuel n l) < length l + n)%nat);
    [naive_solver|].
  clear l. intros fuel. induction fuel as [|fuel IH]; intros [|a l] Hl; simpl in Hl; try (simpl; lia).
  cbn [chunks_of]. destruct (IH (drop n (a :: l))) as [H1' H2'].
  { rewrite length_drop. simpl. lia. }
  rewrite length_drop in H1', H2'. cbn [length] in *.
  generalize dependent (length (chunks_of fuel n (drop n (a :: l)))). intros m. rewrite Nat.mul_succ_r.
  destruct (decide (S (length l) ≤ n)%nat) as [Hle|]; [|lia].
  replace (S (length l) - n)%nat with O by lia. destruct m; lia || nia.
Qed.

Lemma page_iff raw page :
  (let? events := collect event_of (rvs_events raw) in
   Ok (mkEvents (rvs_latest_ledger raw) (rvs_cursor raw) events)) = Ok page ↔ page_told raw page.
Proof.
  unfold page_told. destruct page as [latest cursor events]. simpl.
  rewrite <-(collect_iff event_of event_told _ events event_of_iff).
  destruct (collect _ _) as [events'|]; simpl; split; intros Hr; try destruct Hr as (? & ? & ?);
    by simplify_eq.
Qed.

(** What is asked for a query that may be. *)
Definition asks_all (query : EventQuery) (params : RpcParams) : Prop :=
  ∃ filters, params = PEvents filters (eq_limit query) (eq_start_ledger query) (eq_cursor query) ∧
    concat filters = eq_contract_ids query ∧ (1 ≤ length filters ≤ 5)%nat ∧
    Forall (λ ids, (1 ≤ length ids ≤ 5)%nat) filters.

Lemma event_params_spec query :
  match event_params query with
  | Ok params => askable query ∧ asks_all query params
  | Err e => ¬ askable query ∧ ∃ what, e = Config what
  end.
Proof.
  unfold event_params, askable. destruct (length_chunks_bounds 5 (eq_contract_ids query)) as [Hlo Hhi]; [lia|].
  destruct ((eq_limit query =? 0) || (10000 <? eq_limit query)) eqn:Hl.
  { split; [|by eexists]. intros (? & _). lia. }
  unfold IDS_PER_FILTER, FILTERS_PER_CALL.
  destruct (bool_decide _ || _) eqn:Hf.
  { split; [|by eexists]. intros (_ & ? & _). apply orb_true_iff in Hf as [Hf|Hf].
    - apply bool_decide_eq_true in Hf. rewrite Hf in Hlo. simpl in Hlo. lia.
    - apply Nat.ltb_lt in Hf. lia. }
  apply orb_false_iff in Hf as [Hne Hlen]. apply bool_decide_eq_false in Hne.
  apply Nat.ltb_ge in Hlen.
  assert (1 ≤ length (chunks 5 (eq_contract_ids query)))%nat as Hpos.
  { destruct (chunks _ _); [done|simpl; lia]. }
  assert (asks_all query (PEvents (chunks 5 (eq_contract_ids query)) (eq_limit query)
    (eq_start_ledger query) (eq_cursor query))) as Hasks.
  { eexists. split_and!; [done|by apply concat_chunks; lia|lia|lia|].
    eapply Forall_impl; [apply chunks_length; lia|]. simpl. lia. }
  destruct (eq_start_ledger query) as [start|], (eq_cursor query) as [cursor|].
  - split; [|by eexists]. intros (_ & _ & Hx). naive_solver.
  - split; [|exact Hasks]. split; [lia|]. split; [lia|]. naive_solver.
  - split; [|exact Hasks]. split; [lia|]. split; [lia|]. naive_solver.
  - split; [|by eexists]. intros (_ & _ & Hx). destruct Hx as [_ Hx].
    destruct Hx; [|done]. intros [? ?]. done.
Qed.

(** ** The methods *)

(** A method whose envelope is encoded first. *)
Lemma sent_reads {A : Type} m (envelope : TransactionEnvelope) (f : Raw m → result ChainError A)
    (T : Raw m → A → Prop) :
  (∀ raw a, f raw = Ok a ↔ T raw a) →
  returns client_log
    (try_await (Ret (of_xdr (envelope_to_base64 envelope)))
       (λ text, try_await (call m (PTransaction text)) (λ raw, Ret (f raw))))
    (λ tr r, match envelope_to_base64 envelope with
     | Err e => tr = [] ∧ r = Err (XdrFailure (Encode.Xdr e))
     | Ok text => ∃ answer, tr = [OPost m (PTransaction text) answer] ∧
         ∀ a, r = Ok a ↔ ∃ raw, served m answer raw ∧ T raw a
     end).
Proof.
  intros Hf. apply returns_try_ret. destruct (envelope_to_base64 envelope) as [text|e]; simpl; [|done].
  by apply call_reads.
Qed.

(** C24: A method of the RPC client answers what it was told and nothing else.
    It makes one request — none when the envelope cannot be encoded, or when an
    event query is over its bounds — and answers an outcome exactly when a
    successful status carried a body with a result and no error that tells that
    outcome: a transaction as found, applied with its ledger and its meta's
    return value, or failed with its result and the first contract error of its
    diagnostics; a submission by its status; a simulation by its error, whose
    contract code is its first event's or else the one its text names, or by
    every part of its first result. A page of events is asked for in filters of
    at most five contracts, at most five of them, which name every contract of
    the query once and in order, from its start ledger or its cursor; each event
    comes back whole, in order. *)
Theorem client_answers_what_it_was_told (hash : TxHash) (envelope : TransactionEnvelope)
    (query : EventQuery) :
  returns client_log (transaction hash) (λ tr r, ∃ answer,
    tr = [OPost GetTransaction (PHash (to_hex hash)) answer] ∧
    ∀ status, r = Ok status ↔ ∃ raw, served GetTransaction answer raw ∧ transaction_told raw status) ∧
  returns client_log (send envelope) (λ tr r, match envelope_to_base64 envelope with
    | Err e => tr = [] ∧ r = Err (XdrFailure (Encode.Xdr e))
    | Ok text => ∃ answer, tr = [OPost SendTransaction (PTransaction text) answer] ∧
        ∀ status, r = Ok status ↔ ∃ raw, served SendTransaction answer raw ∧ send_told raw status
    end) ∧
  returns client_log (simulate envelope) (λ tr r, match envelope_to_base64 envelope with
    | Err e => tr = [] ∧ r = Err (XdrFailure (Encode.Xdr e))
    | Ok text => ∃ answer, tr = [OPost SimulateTransaction (PTransaction text) answer] ∧
        ∀ simulation, r = Ok simulation ↔
          ∃ raw, served SimulateTransaction answer raw ∧ simulate_told raw simulation
    end) ∧
  returns client_log (events query) (λ tr r,
    (¬ askable query ∧ tr = [] ∧ ∃ what, r = Err (Config what)) ∨
    (askable query ∧ ∃ params answer, tr = [OPost GetEvents params answer] ∧ asks_all query params ∧
      ∀ page, r = Ok page ↔ ∃ raw, served GetEvents answer raw ∧ page_told raw page)).
Proof.
  split_and!; [apply call_reads, transaction_of_iff|apply sent_reads, send_status_of_iff
              |apply sent_reads, simulation_of_iff|].
  unfold events. apply returns_try_ret. pose proof (event_params_spec query) as Hp.
  destruct (event_params query) as [params|e]; [|left; naive_solver].
  destruct Hp as [Hask Hall]. eapply returns_weaken; [by apply (call_reads GetEvents params _ page_told), page_iff|].
  intros tr r (answer & -> & Hr). right. split; [done|]. by exists params, answer.
Qed.
End told.
